(* ===== verification/_CoqProject ===== *)
-Q . S2P
Prelude.v
Machine.v
Linux.v
Logic.v
Posix.v
Script.v
Pkgexec.v
Containment.v
ResourceLimits.v
ProcFs.v
ProcessControl.v
Bytes.v
Records.v
Network.v
Paths.v
Support.v
Interpreter.v
Yields.v
Ownership.v
Admission.v
Realization.v
RealizationFacts.v
Capability.v
Child.v
ChildFacts.v
Supervisor.v
SupervisorRuns.v
SupervisorFacts.v
Lifecycle.v
SupervisorClaims.v
Evidence.v
Progress.v
Termination.v
Backend.v
BeforeFork.v
BackendOwnership.v
Origins.v
BackendFacts.v
Conclusion.v
Composition.v
Probes.v
