(* ===== verification/Prelude.v ===== *)
(** * A verification of libpkgexec-linux

    libpkgexec-linux executes one sealed request of libpkgexec on Linux: it admits
    resources, forks a child that isolates and confines itself, supervises it until it and
    its process group are gone, and reports a result with the guarantees that held. This
    library models the C++ sources under src/src and src/include/libpkgexec-linux and
    proves what makes them correct.

    ** How programs are modelled

    A C++ function is a computation of the monad [M] (Machine.v). Its state is the state of
    a kernel, [errno], and the trace of all calls made, newest first; its outcome is a
    value, an exception, [_exit], or (in the model only) exhausted fuel. Every system call,
    clock read, call of OpenSSL and query of the cancellation token is a constructor of
    [call]; a [Kernel] answers calls from a state of its own, and theorems quantify over
    every kernel, so they hold whatever the operating system answers and however its
    answers interleave with other processes. [fork] answers as in C, 0 in the process that
    goes on as the child, so one definition is the code of both processes. Destructors are
    explicit: [finally], [with_fd] and [scoped] place them where scopes end.

    libpkgexec, libc's [strerror] and the orders of digests and identities are parameters
    (the classes [Pkgexec], [Supports], [Libc]); what is relied on of them is stated in the
    classes [OrderLaws], [GuaranteeLaws] and [SealLaws], each with an instance
    ([plain_pkgexec] and its laws) that the witnesses use. A result of libpkgexec is the
    call of the static function that makes it.

    ** The files

    - Prelude: outcomes, errors, shared tactics, [std::lower_bound]. Machine: calls,
      kernels, the monad. Linux: constants. Logic: the rules [wp] and [emits] with their
      hint databases. Posix: descriptor owners (unique_fd, owned_fd, local_fd) and waiting.
      Script: kernels for evaluation. Yields: the values a computation returns, and
      computations that neither throw nor leave. Ownership: which descriptors a computation
      leaves open. Bytes, Records: little-endian fields and records that cross a pipe in
      pieces. Progress: fair kernels, kernels that let a child be waited for, and
      computations that end under them.
    - Pkgexec: the interface of libpkgexec.
    - Containment, ProcFs, ProcessControl: process_control.cpp. The seccomp filter and an
      interpreter of classic BPF; the scan of /proc; signals through pidfds, the
      cancellation probe, capabilities, closing of descriptors.
    - ResourceLimits: resource_limits.cpp. Network: network_isolation.cpp, with rtnetlink
      messages as bytes.
    - Paths: the std::filesystem::path operations the sources use, and path_contains.
      Support: support.cpp. Interpreter: interpreter.cpp and the lookup in a backend.
    - Admission, Realization, RealizationFacts: mount_isolation.cpp. The admission of
      resources and its life; the private root as a sequence of mounts, its refinement of an
      abstract plan, and the probe.
    - Capability: capability.cpp, both reports and their profiles.
    - Child: the first half of backend.cpp, up to [child_main]. ChildFacts: the calls of a
      child that executes the program, all of them. Supervisor: the loop of
      [execute_backend], its variables as the record [supervision], one definition for each
      part of its body, its states as the relation [reachable]. SupervisorFacts and
      SupervisorClaims: its invariants. SupervisorRuns: concrete runs. Lifecycle: the abstract
      protocol of gate, process, cancellation and cleanup, and the simulation of the loop by
      it. Evidence: which call of a run each flag of the loop comes from. Termination: the
      loop ends, or does not. Backend: [execute_backend] from the check of the profile to the
      result, and the two classes. BeforeFork: its calls before [fork]. BackendOwnership: the
      descriptors of a whole execution. Origins: which calls a result comes from.
      BackendFacts: what a reported result is worth. Conclusion: every execution ends, in both of its
      processes. Composition: the process that runs the program, and the control pipe
      between the two processes. Probes: what a probe that succeeds is evidence of.

    ** What is proved

    - Confinement: the filter decides as the containment policy says for every native call,
      passes the checks of the kernel that loads it, and always has a verdict; limits are
      installed exactly and read back; capabilities and descriptors likewise; a network
      setup that succeeds is a whole rtnetlink conversation ([network_established]), a
      filesystem setup that succeeds is the whole plan of mounts of its admission
      ([RealizationFacts.plan]), call by call with their arguments and answers. The
      interpreter is executed only at the end of a run of [execute_backend] whose calls are
      the [sanctioned] ones: the request was admitted, the interpreter's content was digested
      and found to be the admitted one, and the child was [prepared] for what was requested
      and did nothing else ([program_runs_prepared]).
    - Supervision: the start gate, complete capture of both streams and of the failure
      record, no SIGKILL before a deadline, cleanup that ends, signals that only reach
      confirmed members of the group and account for a whole scan of /proc when they count as
      complete; every iteration is a sequence of steps of the lifecycle protocol
      ([supervision_refines_lifecycle]).
    - Termination: under a fair kernel the loop ends if [waitid] is interrupted at most, and
      never ends if it always fails otherwise, as where SIGCHLD is ignored
      ([supervise_terminates]); in the first case so does every execution: the caller's
      process returns or throws, the process [fork] created leaves ([execution_concludes]).
    - Evidence: a result is reported only on the grounds it states, which are calls in the
      trace of that run ([results_attested]): it was [refused] without a process that could
      have started, or its run was [supervised] and the calls of the loop are [evident] for
      it, verified cleanup included; established guarantees are those that held; the profile
      of a backend promises what its report shows; the record of a failed child becomes the
      result of that failure ([child_fate_reported]).
    - Probes: the child of a probe leaves with 0 only after it did what the probe stands for
      ([probes_attest]).
    - Descriptors: an execution releases each descriptor as often as it acquires it, whether
      it returns or throws, apart from the one a failed [fdopendir] is given
      ([execution_releases_descriptors]).
    - Admission and lookups: mount points and host directories of which none is at or below
      another, as the directories their names lead to; exact ownership of
      descriptors; interpreter bindings found by binary search, digests of whole files.
    - Wire formats: netlink messages are read within their buffers and a dump is read back;
      failure records cross the pipes intact; /proc/<pid>/stat is parsed whatever the
      command name contains.
    - Divergences: concrete runs and theorems show calls the filter does not see (x32), a
      probe that succeeds without a child to wait for, descriptors the fallback loop leaves
      open, contents a trailing separator hides, a descriptor lost when [fdopendir] fails,
      a natural exit that is reported as cancelled, a kill before the grace period, a
      signal to the group after its leader was reaped, and a supervisor that waits for ever
      because it ignores SIGCHLD.

    ** Fuel and bounds

    Loops that wait for the kernel (EINTR, directory entries, pipes, netlink answers, the
    supervision loop) take fuel, since a kernel may keep them going for ever. What ends them
    is a kernel that is fair (the class [Fair] of Progress): its patience, the number of times
    it still answers that a call was interrupted, that there is nothing yet, or that there is
    more to read, is finite; its steady clock moves with every poll; directories have at
    most [scan] entries; a message fits the buffer. A call that fails for another reason
    costs no patience and may fail for ever; only of [waitid] the loop needs more, which is a
    law of its own ([Waitable]). Fuel above the patience is then enough for every loop but
    the supervision loop, and 11 (patience + longest deadline in nanoseconds + 1) turns for
    that one, whose ten milestones are reached once each. Without fairness, theorems of the
    form "if it returns" are accompanied by ones that give fuel that is enough
    ([digest_fd_covers_file], [process_ids_complete], [netlink_walks_safe]) or a measure of
    progress ([cleanup_progresses]). Integers are [Z] with the ranges of their C types where they matter: 32-bit words of the filter, 64-bit
    [rlim_t], 32-bit fields of records, [int] of process ids. Times are nanoseconds.

    ** What is not modelled

    Memory allocation failures, the SIGPIPE a write to a closed pipe may raise, and other
    threads of the supervisor; the program that is executed; libpkgexec itself, OpenSSL and
    libc beyond the calls above; a request with a token but without a grace period, whose
    optional the sources dereference (the model takes 0). export.h and the umbrella header
    have no behaviour.

    ** Plan

    Next: the capability report as a whole in terms of what its probes attest; the
    termination of the probes; the stage of a reported failure as the step of the child
    that failed. *)

From Stdlib Require Export ZArith Lia.
From stdpp Require Export base list strings numbers decidable option sets.

(** * Outcomes of a C++ computation

    A function of the library either returns, throws, leaves the process
    through [_exit], or (only in the model) exhausts the fuel of a loop. *)

Inductive error_code : Set :=
| invalid_value
| duplicate_interpreter
| interpreter_inspection_failed
| unsupported_platform.

(** [pkgexec_linux::error]: a [std::runtime_error] that carries a code. *)
Record error : Set := mk_error { error_code_of : error_code; error_message : string }.

(** What a [catch (const std::exception&)] may receive: an error of this
    library, or an exception of the standard library or of libpkgexec, of which
    only [what()] is observed. *)
Inductive exn : Set :=
| linux_error (e : error)
| other_exception (text : string).

Definition what (x : exn) : string :=
  match x with
  | linux_error e => error_message e
  | other_exception text => text
  end.

Inductive outcome (A : Type) : Type :=
| Done (a : A)
| Threw (x : exn)
| Exited (code : Z)
| OutOfFuel.
Arguments Done {A} a.
Arguments Threw {A} x.
Arguments Exited {A} code.
Arguments OutOfFuel {A}.

Definition outcome_cast {A B : Type} (o : outcome A) : outcome B :=
  match o with
  | Done _ => OutOfFuel
  | Threw x => Threw x
  | Exited c => Exited c
  | OutOfFuel => OutOfFuel
  end.

#[export] Instance error_code_eq_dec : EqDecision error_code.
Proof. solve_decision. Defined.
#[export] Instance error_eq_dec : EqDecision error.
Proof. solve_decision. Defined.
#[export] Instance exn_eq_dec : EqDecision exn.
Proof. solve_decision. Defined.

(** * Tactics *)

(** Use the outcomes of integer tests in the context: substitute the number a test
    identified, compute the tests that were refuted. *)
Ltac eqb_cases :=
  repeat match goal with
  | H : (_ =? _)%Z = true |- _ => apply Z.eqb_eq in H; rewrite ?H in *; clear H
  | H : (_ =? _)%Z = false |- _ => rewrite ?H in *; clear H
  end; cbn [orb andb negb].

(** Replace every variable of type [unit]. *)
Ltac destruct_units := repeat match goal with u : unit |- _ => destruct u end.

(** Boolean goals over integer comparisons: split on the comparisons of the goal. *)
Ltac zbool :=
  repeat match goal with
  | |- context [(?a <=? ?b)%Z] => destruct (Z.leb_spec a b)
  | |- context [(?a <? ?b)%Z] => destruct (Z.ltb_spec a b)
  | |- context [(?a =? ?b)%Z] => destruct (Z.eqb_spec a b)
  end; cbn [andb orb negb]; intros; try reflexivity; try discriminate; try lia.

(** Turn the boolean tests of the context into their parts. *)
Ltac split_tests :=
  repeat match goal with
    | H : _ && _ = true |- _ => apply andb_prop in H as [??]
    | H : _ || _ = false |- _ => apply orb_false_iff in H as [??]
    | H : negb _ = true |- _ => apply negb_true_iff in H
    | H : negb _ = false |- _ => apply negb_false_iff in H
    end.

(** * Binary search

    [std::lower_bound]: the first of the [length] positions from [first] whose element
    is not below the key, by halving; [below] is the comparison with the key. *)
Fixpoint lower_bound {A} (below : A → bool) (fuel : nat) (values : list A) (first length : nat)
    : nat :=
  match fuel, length with
  | S n, S _ =>
      let half := (length / 2)%nat in
      match values !! (first + half)%nat with
      | Some value =>
          if below value then lower_bound below n values (first + half + 1) (length - half - 1)
          else lower_bound below n values first half
      | None => first
      end
  | _, _ => first
  end.

(** The elements below the key come first. *)
Definition split_by {A} (below : A → bool) (l : list A) : Prop :=
  ∀ i j a b, (i < j)%nat → l !! i = Some a → l !! j = Some b → below b = true → below a = true.

(** Then every element before the answer is below the key, and none from it on. *)
Lemma lower_bound_partitions {A} (below : A → bool) fuel l : ∀ first len,
  split_by below l → (len ≤ fuel)%nat → (first + len ≤ length l)%nat →
  (∀ i a, (i < first)%nat → l !! i = Some a → below a = true) →
  (∀ i a, (first + len ≤ i)%nat → l !! i = Some a → below a = false) →
  ∀ i a, l !! i = Some a → below a = bool_decide (i < lower_bound below fuel l first len)%nat.
Proof.
  induction fuel as [|n IH]; intros first len Hs Hf Hl Hlow Hhigh.
  - assert (len = 0%nat) as -> by lia. intros i a Hi. simpl. case_bool_decide; [by eapply Hlow|].
    eapply Hhigh; [|done]. lia.
  - destruct len as [|m].
    { intros i a Hi. simpl. case_bool_decide; [by eapply Hlow|]. eapply Hhigh; [|done]. lia. }
    cbn [lower_bound]. set (half := (S m / 2)%nat).
    assert (Hh : (half < S m)%nat) by (apply Nat.div_lt; lia).
    destruct (l !! (first + half)%nat) as [mid|] eqn:Em.
    2:{ apply lookup_ge_None in Em. lia. }
    destruct (below mid) eqn:Ek.
    + apply IH; [done|lia|lia| |].
      * intros i a Hi Ha. destruct (decide (i = first + half)%nat) as [->|]; [by simplify_eq|].
        apply (Hs i (first + half)%nat a mid); [lia|done..].
      * intros i a Hi. apply Hhigh. lia.
    + apply IH; [done|lia|lia|done|].
      intros i a Hi Ha. destruct (decide (i = first + half)%nat) as [->|]; [by simplify_eq|].
      apply not_true_is_false. intros E.
      rewrite (Hs (first + half)%nat i mid a) in Ek; [done|lia|done..].
Qed.

(** A search of the whole list. *)
Lemma lower_bound_whole {A} (below : A → bool) l i a :
  split_by below l → l !! i = Some a →
  below a = bool_decide (i < lower_bound below (length l) l 0 (length l))%nat.
Proof.
  intros Hs. apply lower_bound_partitions; try done; try lia.
  intros j b Hj Hb. apply lookup_lt_Some in Hb. lia.
Qed.
