(* ===== verification/Machine.v ===== *)
(** * The machine the library runs on

    The system calls, C library calls and clock reads of the sources are the
    constructors of [call]; a [Kernel] answers them from a state of its own, so
    a theorem that quantifies over every kernel holds whatever the operating
    system answers. [fork] answers as it does in C: 0 in the process that
    continues as the child, the child's id in the process that continues as the
    parent, so one definition is the code of both processes. [errno] is state of
    the machine: a failed call sets it, a successful one leaves it as it was.
    Every call is recorded, with its answer, in a trace (newest first). *)

From S2P Require Import Prelude.

Open Scope Z_scope.

(** ** Data exchanged with the operating system *)

(** The answer of a fallible call: a value, or [-1] with an [errno]. *)
Inductive res (A : Type) : Type :=
| Ok (a : A)
| Err (e : Z).
Arguments Ok {A} a.
Arguments Err {A} e.

Record rlimit : Set := mk_rlimit { rlim_cur : Z; rlim_max : Z }.

Record stat_info : Set := mk_stat { st_mode : Z; st_dev : Z; st_ino : Z }.

Record siginfo : Set := mk_siginfo { si_pid : Z; si_code : Z; si_status : Z }.

(** [struct sock_filter]: one instruction of classic BPF. *)
Record sock_filter : Set := mk_filter { bpf_code : Z; bpf_jt : Z; bpf_jf : Z; bpf_k : Z }.

(** [struct mount_attr] without its unused user-namespace descriptor. *)
Record mount_attr : Set := mk_mount_attr { attr_set : Z; attr_clr : Z; propagation : Z }.

(** Socket addresses: [sockaddr_nl] with every field but the family zero, and
    [sockaddr_in]. *)
Inductive sockaddr : Set :=
| sockaddr_nl
| sockaddr_in (addr port : Z).

(** ** Calls *)

Inductive call : Type → Type :=
(* resource limits *)
| sys_getrlimit (resource : Z) : call (res rlimit)
| sys_setrlimit (resource : Z) (l : rlimit) : call (res unit)
(* processes *)
| sys_fork : call (res Z)
| sys_getpid : call Z
| sys_waitpid (pid : Z) : call (res (Z * Z))
| sys_waitid (idtype id options : Z) : call (res siginfo)
| sys_kill (pid sig : Z) : call (res unit)
| sys_pidfd_open (pid : Z) : call (res Z)
| sys_pidfd_send_signal (pidfd sig : Z) : call (res unit)
| sys_setsid : call (res Z)
| sys_prctl_set_no_new_privs : call (res unit)
| sys_prctl_set_seccomp (program : list sock_filter) : call (res unit)
| sys_prctl_cap_ambient_clear_all : call (res unit)
| sys_capset (version pid : Z) (data : list Z) : call (res unit)
| sys_umask (mask : Z) : call Z
| sys_execveat (fd : Z) (path : string) (argv envp : list string) (flags : Z) : call (res unit)
| sys_pause : call unit
(* descriptors *)
| sys_open (path : string) (flags : Z) : call (res Z)
| sys_openat (dirfd : Z) (path : string) (flags : Z) : call (res Z)
| sys_openat2 (dirfd : Z) (path : string) (flags mode resolve : Z) : call (res Z)
| sys_close (fd : Z) : call (res unit)
| sys_close_range (first last flags : Z) : call (res unit)
| sys_sysconf_open_max : call Z
| sys_pipe2 (flags : Z) : call (res (Z * Z))
| sys_dup2 (old new : Z) : call (res Z)
| sys_fcntl_getfl (fd : Z) : call (res Z)
| sys_fcntl_setfl (fd flags : Z) : call (res unit)
| sys_read (fd size : Z) : call (res (list Z))
| sys_write (fd : Z) (bytes : list Z) : call (res Z)
| sys_pread (fd size offset : Z) : call (res (list Z))
| sys_poll (fds : list (Z * Z)) (timeout : Z) : call (res (Z * list Z))
(* files *)
| sys_stat (path : string) : call (res stat_info)
| sys_lstat (path : string) : call (res stat_info)
| sys_fstat (fd : Z) : call (res stat_info)
| sys_access (path : string) (mode : Z) : call (res unit)
| sys_faccessat2 (fd : Z) (path : string) (mode flags : Z) : call (res unit)
| sys_mkdir (path : string) (mode : Z) : call (res unit)
| sys_rmdir (path : string) : call (res unit)
| sys_chmod (path : string) (mode : Z) : call (res unit)
| sys_mkdtemp (template : string) : call (res string)
| sys_mknod (path : string) (mode device : Z) : call (res unit)
| sys_opendir (path : string) : call (res Z)
| sys_fdopendir (fd : Z) : call (res Z)
| sys_readdir (dir : Z) : call (res (option string))
| sys_closedir (dir : Z) : call (res unit)
| sys_getline (path : string) : call (option string)
| sys_ifstream (path : string) : call bool
| sys_ofstream_append (path : string) : call bool
| fs_canonical (path : string) : call (string + string)
(* mounts and namespaces *)
| sys_unshare (flags : Z) : call (res unit)
| sys_mount (source : option string) (target : string) (fstype : option string)
    (flags : Z) (data : option string) : call (res unit)
| sys_open_tree (fd : Z) (path : string) (flags : Z) : call (res Z)
| sys_move_mount (from_fd : Z) (from_path : string) (to_fd : Z) (to_path : string)
    (flags : Z) : call (res unit)
| sys_mount_setattr (fd : Z) (path : string) (flags : Z) (attr : mount_attr) : call (res unit)
| sys_fchdir (fd : Z) : call (res unit)
| sys_chdir (path : string) : call (res unit)
| sys_chroot (path : string) : call (res unit)
(* sockets *)
| sys_socket (domain type protocol : Z) : call (res Z)
| sys_bind (fd : Z) (address : sockaddr) : call (res unit)
| sys_listen (fd backlog : Z) : call (res unit)
| sys_getsockname (fd : Z) : call (res sockaddr)
| sys_connect (fd : Z) (address : sockaddr) : call (res unit)
| sys_accept4 (fd flags : Z) : call (res Z)
| sys_sendto (fd : Z) (bytes : list Z) (flags : Z) (address : sockaddr) : call (res Z)
| sys_send (fd : Z) (bytes : list Z) (flags : Z) : call (res Z)
| sys_recv (fd size flags : Z) : call (res (list Z))
(* identities *)
| sys_getuid : call Z
| sys_getgid : call Z
| sys_getgroups_count : call (res Z)
| sys_getgroups (count : Z) : call (res (list Z))
| sys_landlock_version : call (res Z)
(* time, and the request's cancellation token *)
| env_now : call Z
| env_sleep (milliseconds : Z) : call unit
| env_cancellation_requested : call bool
(* OpenSSL's message digest interface, on the one live context *)
| ssl_digest_init : call bool
| ssl_digest_update (bytes : list Z) : call bool
| ssl_digest_final : call (option (list Z)).

(** A kernel answers calls and moves from one of its states to the next. *)
Class Kernel (W : Type) : Type := { kernel_run : ∀ R : Type, call R → W → (R * W)%type }.
Arguments kernel_run {W Kernel R} c w : rename.

(** A recorded call with the answer it got. *)
Inductive event : Type :=
| Event (R : Type) (c : call R) (r : R).
Arguments Event {R} c r.

Record mstate (W : Type) : Type := MState { world : W; errno : Z; trace : list event }.
Arguments MState {W} world errno trace.
Arguments world {W} m.
Arguments errno {W} m.
Arguments trace {W} m.

(** ** The monad *)

Definition M (W A : Type) : Type := mstate W → outcome A * mstate W.

#[export] Instance M_ret {W} : MRet (M W) := λ A a s, (Done a, s).
#[export] Instance M_bind {W} : MBind (M W) := λ A B k m s,
  match m s with
  | (Done a, s') => k a s'
  | (o, s') => (outcome_cast o, s')
  end.

Section operations.
Context {W : Type} `{K : Kernel W}.

(** Issue a call. *)
Definition issue {R} (c : call R) : M W R := λ s,
  let '(r, w) := kernel_run c (world s) in
  (Done r, MState w (errno s) (Event c r :: trace s)).

Definition get_errno : M W Z := λ s, (Done (errno s), s).
Definition set_errno (e : Z) : M W unit := λ s, (Done tt, MState (world s) e (trace s)).
Definition throw {A} (x : exn) : M W A := λ s, (Threw x, s).
Definition exit_process {A} (code : Z) : M W A := λ s, (Exited code, s).
Definition out_of_fuel {A} : M W A := λ s, (OutOfFuel, s).

(** Issue a fallible call: [None] stands for the value [-1]. *)
Definition attempt {A} (c : call (res A)) : M W (option A) :=
  r ← issue c;
  match r with
  | Ok a => mret (Some a)
  | Err e => set_errno e;; mret None
  end.

(** A call whose success is [0] and whose only use is the test of its result. *)
Definition succeeds {A} (c : call (res A)) : M W bool :=
  r ← attempt c;
  mret (match r with Some _ => true | None => false end).

(** A call that answers a descriptor, [-1] when it fails. *)
Definition descriptor (c : call (res Z)) : M W Z :=
  r ← attempt c;
  mret (match r with Some fd => fd | None => -1 end).

(** A call whose result is discarded by a cast to [void]. *)
Definition ignore {A} (c : call (res A)) : M W unit := attempt c;; mret tt.

(** Destructors run when the scope is left by a return or an exception; they do
    not run when the process leaves through [_exit]. *)
Definition finally {A} (m : M W A) (cleanup : M W unit) : M W A := λ s,
  match m s with
  | (Done a, s') => (cleanup;; mret a) s'
  | (Threw x, s') => (cleanup;; throw x) s'
  | r => r
  end.

(** Work done only when the scope is left by an exception. *)
Definition on_throw {A} (m : M W A) (cleanup : M W unit) : M W A := λ s,
  match m s with
  | (Threw x, s') => (cleanup;; throw x) s'
  | r => r
  end.

(** [try { m } catch (const std::exception& value) { handler }]. *)
Definition catch {A} (m : M W A) (handler : exn → M W A) : M W A := λ s,
  match m s with
  | (Threw x, s') => handler x s'
  | r => r
  end.

End operations.
