(* ===== verification/Linux.v ===== *)
(** * Constants and macros of the Linux and glibc headers (x86-64)

    The values the sources name: error numbers, signals, open and mount flags,
    wait-status macros, file-type tests. *)

From S2P Require Import Prelude Machine.

(** ** Error numbers *)
Definition EPERM : Z := 1.
Definition ENOENT : Z := 2.
Definition ESRCH : Z := 3.
Definition EINTR : Z := 4.
Definition EIO : Z := 5.
Definition ECHILD : Z := 10.
Definition EAGAIN : Z := 11.
Definition EWOULDBLOCK : Z := EAGAIN.
Definition EACCES : Z := 13.
Definition EBUSY : Z := 16.
Definition EEXIST : Z := 17.
Definition ENODEV : Z := 19.
Definition ENOTDIR : Z := 20.
Definition EINVAL : Z := 22.
Definition ENOSYS : Z := 38.
Definition EOVERFLOW : Z := 75.
Definition ESTALE : Z := 116.

(** ** Integer limits *)
Definition INT_MAX : Z := 2147483647.
Definition UINT_MAX : Z := 4294967295.
Definition LONG_MAX : Z := 9223372036854775807.
Definition UINT64_MAX : Z := 18446744073709551615.
Definition RLIM_INFINITY : Z := UINT64_MAX.

(** ** Signals and process control *)
Definition SIGKILL : Z := 9.
Definition SIGTERM : Z := 15.
Definition CLD_EXITED : Z := 1.
Definition CLD_KILLED : Z := 2.
Definition P_PID : Z := 1.
Definition P_PIDFD : Z := 3.
Definition WNOHANG : Z := 1.
Definition WEXITED : Z := 4.
Definition WNOWAIT : Z := 16777216.
Definition WIFEXITED (status : Z) : bool := Z.land status 127 =? 0.
Definition WEXITSTATUS (status : Z) : Z := Z.shiftr (Z.land status 65280) 8.

(** ** Descriptors and files *)
Definition STDIN_FILENO : Z := 0.
Definition STDOUT_FILENO : Z := 1.
Definition STDERR_FILENO : Z := 2.
Definition O_RDONLY : Z := 0.
Definition O_WRONLY : Z := 1.
Definition O_NONBLOCK : Z := 2048.
Definition O_DIRECTORY : Z := 65536.
Definition O_NOFOLLOW : Z := 131072.
Definition O_CLOEXEC : Z := 524288.
Definition O_PATH : Z := 2097152.
Definition AT_FDCWD : Z := -100.
Definition AT_EMPTY_PATH : Z := 4096.
Definition AT_EACCESS : Z := 512.
Definition RESOLVE_NO_MAGICLINKS : Z := 2.
Definition RESOLVE_NO_SYMLINKS : Z := 4.
Definition RESOLVE_BENEATH : Z := 8.
Definition W_OK : Z := 2.
Definition X_OK : Z := 1.
Definition POLLIN : Z := 1.
Definition POLLERR : Z := 8.
Definition POLLHUP : Z := 16.
Definition S_IFMT : Z := 61440.
Definition S_IFCHR : Z := 8192.
Definition S_IFDIR : Z := 16384.
Definition S_IFREG : Z := 32768.
Definition S_IFLNK : Z := 40960.
Definition S_ISDIR (mode : Z) : bool := Z.land mode S_IFMT =? S_IFDIR.
Definition S_ISREG (mode : Z) : bool := Z.land mode S_IFMT =? S_IFREG.
Definition S_ISCHR (mode : Z) : bool := Z.land mode S_IFMT =? S_IFCHR.
Definition S_ISLNK (mode : Z) : bool := Z.land mode S_IFMT =? S_IFLNK.

(** ** Namespaces and mounts *)
Definition CLONE_NEWTIME : Z := 128.
Definition CLONE_NEWNS : Z := 131072.
Definition CLONE_NEWCGROUP : Z := 33554432.
Definition CLONE_NEWUTS : Z := 67108864.
Definition CLONE_NEWIPC : Z := 134217728.
Definition CLONE_NEWUSER : Z := 268435456.
Definition CLONE_NEWPID : Z := 536870912.
Definition CLONE_NEWNET : Z := 1073741824.
Definition MS_NOSUID : Z := 2.
Definition MS_NODEV : Z := 4.
Definition MS_NOEXEC : Z := 8.
Definition MS_REC : Z := 16384.
Definition MS_PRIVATE : Z := 262144.
Definition MOUNT_ATTR_RDONLY : Z := 1.
Definition MOUNT_ATTR_NOSUID : Z := 2.
Definition MOUNT_ATTR_NODEV : Z := 4.
Definition MOUNT_ATTR_NOEXEC : Z := 8.
Definition OPEN_TREE_CLONE : Z := 1.
Definition OPEN_TREE_CLOEXEC : Z := O_CLOEXEC.
Definition MOVE_MOUNT_F_EMPTY_PATH : Z := 4.
Definition MOVE_MOUNT_T_EMPTY_PATH : Z := 64.
Definition LINUX_CAPABILITY_VERSION_3 : Z := 537396514.

(** ** Resources of [getrlimit] *)
Definition RLIMIT_FSIZE : Z := 1.
Definition RLIMIT_NOFILE : Z := 7.
Definition RLIMIT_AS : Z := 9.

(** ** Sockets and rtnetlink *)
Definition AF_UNSPEC : Z := 0.
Definition AF_INET : Z := 2.
Definition AF_NETLINK : Z := 16.
Definition SOCK_STREAM : Z := 1.
Definition SOCK_RAW : Z := 3.
Definition SOCK_CLOEXEC : Z := O_CLOEXEC.
Definition NETLINK_ROUTE : Z := 0.
Definition INADDR_LOOPBACK : Z := 2130706433.
Definition MSG_NOSIGNAL : Z := 16384.
Definition MSG_WAITALL : Z := 256.
Definition NLMSG_ERROR : Z := 2.
Definition NLMSG_DONE : Z := 3.
Definition RTM_NEWLINK : Z := 16.
Definition RTM_GETLINK : Z := 18.
Definition NLM_F_REQUEST : Z := 1.
Definition NLM_F_ACK : Z := 4.
Definition NLM_F_DUMP : Z := 768.
Definition IFF_UP : Z := 1.
Definition IFF_LOOPBACK : Z := 8.
