(* ===== verification/Logic.v ===== *)
(** * A program logic for the machine

    [wp m Q s]: running [m] from [s] ends in an outcome and a state that satisfy
    [Q], with rules that execute a program symbolically; [emits P m]: whatever
    the kernel answers, every call [m] makes satisfies [P], proved
    compositionally by the [emits] hint database. *)

From S2P Require Import Prelude Machine Linux.

(** Retry a call as long as it is interrupted by a signal:
    [do { r = c } while (r < 0 && errno == EINTR)]. *)
Fixpoint retry_eintr {W} `{Kernel W} {A} (fuel : nat) (c : call (res A)) : M W (option A) :=
  match fuel with
  | O => out_of_fuel
  | S n =>
      r ← attempt c;
      match r with
      | Some a => mret (Some a)
      | None => e ← get_errno; if e =? EINTR then retry_eintr n c else mret None
      end
  end.

Definition push {W R} (w : W) (e : Z) (c : call R) (r : R) (s : mstate W) : mstate W :=
  MState w e (Event c r :: trace s).

Definition wp {W A} (m : M W A) (Q : outcome A → mstate W → Prop) (s : mstate W) : Prop :=
  Q (m s).1 (m s).2.

Definition emits {W A} (P : event → Prop) (m : M W A) : Prop :=
  ∀ s, ∃ evs, trace (m s).2 = evs ++ trace s ∧ Forall P evs.

(** A postcondition on returned values alone; other outcomes meet [E]. *)
Definition returning {W A} (Q : A → mstate W → Prop) (E : outcome A → mstate W → Prop)
    (o : outcome A) (s : mstate W) : Prop :=
  match o with Done a => Q a s | _ => E o s end.

(** [s'] is reached from [s] by making calls. *)
Definition after {W} (s s' : mstate W) : Prop := ∃ evs, trace s' = evs ++ trace s.

Definition anything (_ : event) : Prop := True.

Section rules.
Context {W : Type} `{K : Kernel W}.

Lemma wp_mono {A} (m : M W A) (Q Q' : outcome A → mstate W → Prop) s :
  wp m Q s → (∀ o s', Q o s' → Q' o s') → wp m Q' s.
Proof. unfold wp. auto. Qed.

Lemma wp_and {A} (m : M W A) (Q Q' : outcome A → mstate W → Prop) s :
  wp m Q s → wp m Q' s → wp m (λ o s', Q o s' ∧ Q' o s') s.
Proof. unfold wp. auto. Qed.

Lemma wp_ret {A} (a : A) Q (s : mstate W) : Q (Done a) s → wp (mret a) Q s.
Proof. done. Qed.

Lemma wp_bind {A B} (m : M W A) (k : A → M W B) Q s :
  wp m (λ o s', match o with
                | Done a => wp (k a) Q s'
                | _ => Q (outcome_cast o) s'
                end) s →
  wp (m ≫= k) Q s.
Proof.
  unfold wp, mbind, M_bind. destruct (m s) as [[a|x|c|] s'] eqn:E; simpl; auto.
Qed.

(** Continue after a computation, remembering its run. *)
Lemma wp_bind_run {A B} (m : M W A) (k : A → M W B) Q s :
  (∀ a s', m s = (Done a, s') → wp (k a) Q s') →
  (∀ o s', m s = (o, s') → (∀ a, o ≠ Done a) → Q (outcome_cast o) s') →
  wp (m ≫= k) Q s.
Proof.
  intros Hk Hq. apply wp_bind. unfold wp at 1. destruct (m s) as [[a|x|c|] s'] eqn:E; simpl; auto.
  all: by apply (Hq _ _ eq_refl).
Qed.

Lemma after_refl (s : mstate W) : after s s.
Proof. by exists []. Qed.

Lemma after_trans (s1 s2 s3 : mstate W) : after s1 s2 → after s2 s3 → after s1 s3.
Proof. intros [l1 E1] [l2 E2]. exists (l2 ++ l1). by rewrite E2, E1, app_assoc. Qed.

Lemma after_push {R} w e (c : call R) r (s s' : mstate W) : after s s' → after s (push w e c r s').
Proof. intros [l E]. exists (Event c r :: l). simpl. by rewrite E. Qed.

Lemma after_elem (s s' : mstate W) ev : after s s' → ev ∈ trace s → ev ∈ trace s'.
Proof. intros [l ->] H. apply elem_of_app. auto. Qed.

Lemma emits_after {A} P (m : M W A) s o s' : emits P m → m s = (o, s') → after s s'.
Proof. intros H E. destruct (H s) as (evs & Et & _). rewrite E in Et. by exists evs. Qed.

Lemma wp_issue {R} (c : call R) Q s :
  (∀ r w, kernel_run c (world s) = (r, w) → Q (Done r) (push w (errno s) c r s)) →
  wp (issue c) Q s.
Proof.
  intros H. unfold wp, issue. destruct (kernel_run c (world s)) as [r w] eqn:E. by apply H.
Qed.

Lemma wp_attempt {A} (c : call (res A)) Q s :
  (∀ a w, kernel_run c (world s) = (Ok a, w) → Q (Done (Some a)) (push w (errno s) c (Ok a) s)) →
  (∀ e w, kernel_run c (world s) = (Err e, w) → Q (Done None) (push w e c (Err e) s)) →
  wp (attempt c) Q s.
Proof.
  intros Hok Herr. unfold attempt. apply wp_bind, wp_issue. intros [a|e] w E; simpl.
  - apply wp_ret. by apply Hok.
  - by apply (Herr e w).
Qed.

Lemma wp_attempt_ok {A} (c : call (res A)) Q s a w :
  kernel_run c (world s) = (Ok a, w) → Q (Done (Some a)) (push w (errno s) c (Ok a) s) →
  wp (attempt c) Q s.
Proof. intros E HQ. apply wp_attempt; intros ?? E'; rewrite E in E'; by simplify_eq. Qed.

Lemma wp_attempt_err {A} (c : call (res A)) Q s e w :
  kernel_run c (world s) = (Err e, w) → Q (Done None) (push w e c (Err e) s) →
  wp (attempt c) Q s.
Proof. intros E HQ. apply wp_attempt; intros ?? E'; rewrite E in E'; by simplify_eq. Qed.

Lemma wp_succeeds {A} (c : call (res A)) Q s :
  (∀ a w, kernel_run c (world s) = (Ok a, w) → Q (Done true) (push w (errno s) c (Ok a) s)) →
  (∀ e w, kernel_run c (world s) = (Err e, w) → Q (Done false) (push w e c (Err e) s)) →
  wp (succeeds c) Q s.
Proof. intros H1 H2. unfold succeeds. apply wp_bind, wp_attempt; intros; simpl; apply wp_ret; auto. Qed.

Lemma wp_descriptor (c : call (res Z)) Q s :
  (∀ fd w, kernel_run c (world s) = (Ok fd, w) → Q (Done fd) (push w (errno s) c (Ok fd) s)) →
  (∀ e w, kernel_run c (world s) = (Err e, w) → Q (Done (-1)) (push w e c (Err e) s)) →
  wp (descriptor c) Q s.
Proof. intros H1 H2. unfold descriptor. apply wp_bind, wp_attempt; intros; simpl; apply wp_ret; auto. Qed.

Lemma wp_ignore {A} (c : call (res A)) Q s :
  (∀ r w e, kernel_run c (world s) = (r, w) → Q (Done tt) (push w e c r s)) →
  wp (ignore c) Q s.
Proof. intros H. unfold ignore. apply wp_bind, wp_attempt; intros; simpl; apply wp_ret; auto. Qed.

Lemma wp_get_errno Q (s : mstate W) : Q (Done (errno s)) s → wp get_errno Q s.
Proof. done. Qed.

Lemma wp_set_errno e Q (s : mstate W) :
  Q (Done tt) (MState (world s) e (trace s)) → wp (set_errno e) Q s.
Proof. done. Qed.

Lemma wp_throw {A} x Q (s : mstate W) : Q (Threw x) s → wp (@throw W A x) Q s.
Proof. done. Qed.

Lemma wp_exit {A} c Q (s : mstate W) : Q (Exited c) s → wp (@exit_process W A c) Q s.
Proof. done. Qed.

Lemma wp_finally {A} (m : M W A) (cleanup : M W unit) Q s :
  wp m (λ o s', match o with
                | Done a => wp (cleanup;; mret a) Q s'
                | Threw x => wp (cleanup;; throw x) Q s'
                | _ => Q o s'
                end) s →
  wp (finally m cleanup) Q s.
Proof. unfold wp, finally. destruct (m s) as [[a|x|c|] s']; auto. Qed.

(** What holds when a scope is left by returning [a]: the body returned [a], and the
    destructors ran after it. *)
Lemma wp_finally_to {A} (m : M W A) (cleanup : M W unit) (a : A) (Q : mstate W → Prop) s :
  wp m (λ o s1, o = Done a → wp cleanup (λ _ s', Q s') s1) s →
  wp (finally m cleanup) (λ o s', o = Done a → Q s') s.
Proof.
  intros H. apply wp_finally. eapply wp_mono; [exact H|]. intros [b|x|c|] s1 Hs; try done;
    apply wp_bind; unfold wp; destruct (cleanup s1) as [[[]|y|d|] s2] eqn:E; simpl; try done.
  intros [= ->]. specialize (Hs eq_refl). unfold wp in Hs. by rewrite E in Hs.
Qed.

Lemma wp_on_throw {A} (m : M W A) (cleanup : M W unit) Q s :
  wp m (λ o s', match o with
                | Threw x => wp (cleanup;; throw x) Q s'
                | _ => Q o s'
                end) s →
  wp (on_throw m cleanup) Q s.
Proof. unfold wp, on_throw. destruct (m s) as [[a|x|c|] s']; auto. Qed.

Lemma wp_catch {A} (m : M W A) (h : exn → M W A) Q s :
  wp m (λ o s', match o with
                | Threw x => wp (h x) Q s'
                | _ => Q o s'
                end) s →
  wp (catch m h) Q s.
Proof. unfold wp, catch. destruct (m s) as [[a|x|c|] s']; auto. Qed.

(** ** Calls a program makes *)


Lemma emits_weaken {A} (P P' : event → Prop) (m : M W A) :
  emits P m → (∀ ev, P ev → P' ev) → emits P' m.
Proof.
  intros H HP s. destruct (H s) as (evs & E & F). exists evs.
  split; [done|]. eapply Forall_impl; eauto.
Qed.

Lemma emits_wp {A} (P : event → Prop) (m : M W A) s :
  emits P m → wp m (λ _ s', ∃ evs, trace s' = evs ++ trace s ∧ Forall P evs) s.
Proof. intros H. apply H. Qed.

Lemma emits_wp_after {A} (P : event → Prop) (m : M W A) s :
  emits P m → wp m (λ _ s', after s s') s.
Proof. intros H. destruct (H s) as (evs & E & _). by exists evs. Qed.

Lemma emits_ret {A} P (a : A) : emits P (mret a : M W A).
Proof. intros s. exists []. done. Qed.

Lemma emits_throw {A} P x : emits P (@throw W A x).
Proof. intros s. exists []. done. Qed.

Lemma emits_exit {A} P c : emits P (@exit_process W A c).
Proof. intros s. exists []. done. Qed.

Lemma emits_fuel {A} P : emits P (@out_of_fuel W A).
Proof. intros s. exists []. done. Qed.

Lemma emits_get_errno P : emits P (@get_errno W).
Proof. intros s. exists []. done. Qed.

Lemma emits_set_errno P e : emits P (@set_errno W e).
Proof. intros s. exists []. done. Qed.

Lemma emits_issue {R} (P : event → Prop) (c : call R) :
  (∀ r, P (Event c r)) → emits P (issue c).
Proof.
  intros H s. unfold issue. destruct (kernel_run c (world s)) as [r w]; simpl.
  exists [Event c r]. split; [done|]. constructor; auto.
Qed.

Lemma emits_bind {A B} P (m : M W A) (k : A → M W B) :
  emits P m → (∀ a, emits P (k a)) → emits P (m ≫= k).
Proof.
  intros Hm Hk s. destruct (Hm s) as (evs & E & F). unfold mbind, M_bind.
  destruct (m s) as [[a|x|c|] s'] eqn:Em; simpl in *; eauto.
  destruct (Hk a s') as (evs' & E' & F'). exists (evs' ++ evs).
  rewrite E', E, app_assoc. split; [done|]. by apply Forall_app.
Qed.

Lemma emits_attempt {A} (P : event → Prop) (c : call (res A)) :
  (∀ r, P (Event c r)) → emits P (attempt c).
Proof.
  intros H. apply emits_bind; [by apply emits_issue|].
  intros [a|e]; [apply emits_ret|]. apply emits_bind; [apply emits_set_errno|].
  intros; apply emits_ret.
Qed.

Lemma emits_succeeds {A} (P : event → Prop) (c : call (res A)) :
  (∀ r, P (Event c r)) → emits P (succeeds c).
Proof. intros H. apply emits_bind; [by apply emits_attempt|]. intros; apply emits_ret. Qed.

Lemma emits_descriptor (P : event → Prop) (c : call (res Z)) :
  (∀ r, P (Event c r)) → emits P (descriptor c).
Proof. intros H. apply emits_bind; [by apply emits_attempt|]. intros; apply emits_ret. Qed.

Lemma emits_ignore {A} (P : event → Prop) (c : call (res A)) :
  (∀ r, P (Event c r)) → emits P (ignore c).
Proof. intros H. apply emits_bind; [by apply emits_attempt|]. intros; apply emits_ret. Qed.

Lemma emits_finally {A} P (m : M W A) (cleanup : M W unit) :
  emits P m → emits P cleanup → emits P (finally m cleanup).
Proof.
  intros Hm Hc s. destruct (Hm s) as (evs & E & F). unfold finally.
  destruct (m s) as [[a|x|c|] s'] eqn:Em; simpl in *; eauto.
  - destruct (emits_bind P cleanup (λ _, mret a) Hc (λ _, emits_ret P a) s') as (evs' & E' & F').
    exists (evs' ++ evs). rewrite E', E, app_assoc. split; [done|]. by apply Forall_app.
  - destruct (emits_bind P cleanup (λ _, throw (A := A) x) Hc (λ _, emits_throw P x) s')
      as (evs' & E' & F').
    exists (evs' ++ evs). rewrite E', E, app_assoc. split; [done|]. by apply Forall_app.
Qed.

Lemma emits_catch {A} P (m : M W A) (h : exn → M W A) :
  emits P m → (∀ x, emits P (h x)) → emits P (catch m h).
Proof.
  intros Hm Hh s. destruct (Hm s) as (evs & E & F). unfold catch.
  destruct (m s) as [[a|x|c|] s'] eqn:Em; simpl in *; eauto.
  destruct (Hh x s') as (evs' & E' & F'). exists (evs' ++ evs).
  rewrite E', E, app_assoc. split; [done|]. by apply Forall_app.
Qed.

Lemma emits_on_throw {A} P (m : M W A) (cleanup : M W unit) :
  emits P m → emits P cleanup → emits P (on_throw m cleanup).
Proof.
  intros Hm Hc. apply (emits_catch P m (λ x, cleanup;; throw x)); [done|].
  intros x. apply emits_bind; [done|]. intros; apply emits_throw.
Qed.

Lemma emits_retry {A} (P : event → Prop) fuel (c : call (res A)) :
  (∀ r, P (Event c r)) → emits P (retry_eintr fuel c).
Proof.
  intros H. induction fuel as [|n IH]; simpl; [apply emits_fuel|].
  apply emits_bind; [by apply emits_attempt|]. intros [a|]; [apply emits_ret|].
  apply emits_bind; [apply emits_get_errno|]. intros e. destruct (e =? EINTR); [done|apply emits_ret].
Qed.

End rules.

Create HintDb emits.
#[export] Hint Resolve emits_ret emits_throw emits_exit emits_fuel emits_get_errno emits_set_errno
  emits_issue emits_attempt emits_succeeds emits_descriptor emits_ignore emits_bind
  emits_finally emits_catch emits_on_throw emits_retry : emits.

(** Follow the structure of a program, splitting on what it branches on, and leave
    the goals about single calls that computation does not settle. *)
Ltac emits_step :=
  match goal with
  | |- emits _ (mret _) => apply emits_ret
  | |- emits _ (_ ≫= _) => apply emits_bind; [|intros]
  | |- emits _ (match ?x with _ => _ end) => destruct x
  | |- emits _ (finally _ _) => apply emits_finally
  | |- emits _ (catch _ _) => apply emits_catch; [|intros]
  | |- emits _ (on_throw _ _) => apply emits_on_throw
  | |- emits _ (issue _) => apply emits_issue; intros
  | |- emits _ (attempt _) => apply emits_attempt; intros
  | |- emits _ (succeeds _) => apply emits_succeeds; intros
  | |- emits _ (descriptor _) => apply emits_descriptor; intros
  | |- emits _ (ignore _) => apply emits_ignore; intros
  | |- emits _ (retry_eintr _ _) => apply emits_retry; intros
  | |- emits _ _ => solve [eauto with emits]
  end.
Ltac emits_auto := repeat emits_step.

(** Symbolic execution of one construct. *)
Ltac wp_step :=
  lazymatch goal with
  | |- wp (mret _) _ _ => apply wp_ret
  | |- wp (_ ≫= _) _ _ => apply wp_bind
  | |- wp (issue _) _ _ => apply wp_issue; intros
  | |- wp (attempt _) _ _ => apply wp_attempt; intros
  | |- wp (succeeds _) _ _ => apply wp_succeeds; intros
  | |- wp (descriptor _) _ _ => apply wp_descriptor; intros
  | |- wp (ignore _) _ _ => apply wp_ignore; intros
  | |- wp get_errno _ _ => apply wp_get_errno
  | |- wp (set_errno _) _ _ => apply wp_set_errno
  | |- wp (throw _) _ _ => apply wp_throw
  | |- wp (exit_process _) _ _ => apply wp_exit
  | |- wp (finally _ _) _ _ => apply wp_finally
  | |- wp (on_throw _ _) _ _ => apply wp_on_throw
  | |- wp (catch _ _) _ _ => apply wp_catch
  | |- wp (if ?b then _ else _) _ _ =>
      first [change b with true | change b with false | destruct b eqn:?]
  | |- wp (match ?x with _ => _ end) _ _ => destruct x eqn:?
  end; cbn beta iota.
Ltac wp_run := repeat wp_step.

(** [provide_trace] solves the existential of a goal [∃ evs, l = evs ++ t ∧ P evs]
    where [l] is a list of events put in front of [t]. *)
Ltac trace_prefix l t :=
  lazymatch l with
  | t => constr:(@nil event)
  | ?x :: ?r => let p := trace_prefix r t in constr:(x :: p)
  end.
Ltac provide_trace :=
  cbn [trace push] in *;
  lazymatch goal with
  | |- ∃ evs, ?l = evs ++ ?t ∧ _ =>
      let p := trace_prefix l t in exists p; split; [reflexivity|]
  end.
