(* ===== verification/Posix.v ===== *)
(** * Descriptor ownership and other idioms the sources repeat

    [unique_fd] (backend.cpp), [owned_fd] (mount_isolation.cpp) and [local_fd]
    (network_isolation.cpp) are three copies of one class: an integer that is a
    descriptor when it is not negative, closed by the destructor. The model
    keeps the integer; destructors are calls to [fd_destroy] that [with_fd]
    places where the scope ends. *)

From S2P Require Import Prelude Machine Linux Logic.

Section posix.
Context {W : Type} `{K : Kernel W}.

(** [explicit operator bool]. *)
Definition fd_bool (value : Z) : bool := 0 <=? value.

(** [release]: the value handed out and the value left behind. *)
Definition fd_release (value : Z) : Z * Z := (value, -1).

(** [reset(next)]: close what is held, hold [next]. *)
Definition fd_reset (value next : Z) : M W Z :=
  (if fd_bool value then ignore (sys_close value) else mret tt);;
  mret next.

(** The destructor. *)
Definition fd_destroy (value : Z) : M W unit := fd_reset value (-1);; mret tt.

(** Move assignment [lhs = std::move(rhs)], for two distinct objects: the new
    values of both. *)
Definition fd_move_assign (lhs rhs : Z) : M W (Z * Z) :=
  let '(taken, rest) := fd_release rhs in
  held ← fd_reset lhs taken;
  mret (held, rest).

(** An owner declared in a block: the body, then the destructor. *)
Definition with_fd {A} (acquire : M W Z) (body : Z → M W A) : M W A :=
  fd ← acquire;
  finally (body fd) (fd_destroy fd).

(** The destructor of a vector of owners. *)
Fixpoint fds_destroy (fds : list Z) : M W unit :=
  match fds with
  | [] => mret tt
  | fd :: rest => fd_destroy fd;; fds_destroy rest
  end.

(** [int status = 0; while (waitpid(child, &status, 0) < 0 && errno == EINTR) {}]:
    a wait that fails for another reason leaves the status at its initial 0. *)
Definition wait_child (fuel : nat) (child : Z) : M W Z :=
  r ← retry_eintr fuel (sys_waitpid child);
  mret (match r with Some (_, status) => status | None => 0 end).

(** [WIFEXITED(status) && WEXITSTATUS(status) == 0]. *)
Definition exited_zero (status : Z) : bool := WIFEXITED status && (WEXITSTATUS status =? 0).

Lemma emits_fd_destroy (P : event → Prop) fd :
  (fd_bool fd = true → ∀ r, P (Event (sys_close fd) r)) → emits P (fd_destroy fd).
Proof.
  intros H. unfold fd_destroy, fd_reset. apply emits_bind; [|intros; apply emits_ret].
  apply emits_bind; [|intros; apply emits_ret].
  destruct (fd_bool fd); [apply emits_ignore; auto|apply emits_ret].
Qed.

Lemma emits_with_fd {A} (P : event → Prop) acquire (body : Z → M W A) :
  emits P acquire → (∀ fd, emits P (body fd)) → (∀ fd r, P (Event (sys_close fd) r)) →
  emits P (with_fd acquire body).
Proof.
  intros Ha Hb Hc. apply emits_bind; [done|]. intros fd.
  apply emits_finally; [auto|]. apply emits_fd_destroy; auto.
Qed.

Lemma emits_wait_child (P : event → Prop) fuel child :
  (∀ r, P (Event (sys_waitpid child) r)) → emits P (wait_child fuel child).
Proof. intros H. apply emits_bind; [by apply emits_retry|]. intros; apply emits_ret. Qed.

(** The answers of a call stop being [EINTR] within [n] tries. *)
Fixpoint settles {A} (n : nat) (c : call (res A)) (w : W) : Prop :=
  match n with
  | O => False
  | S n' => match kernel_run c w with
            | (Err e, w') => if e =? EINTR then settles n' c w' else True
            | _ => True
            end
  end.

Lemma retry_eintr_settles {A} (c : call (res A)) n s :
  settles n c (world s) → ∃ o s', retry_eintr n c s = (Done o, s').
Proof.
  revert s. induction n as [|n IH]; intros s H; simpl in *; [done|].
  unfold mbind, M_bind, attempt, issue, mbind, M_bind.
  destruct (kernel_run c (world s)) as [[a|e] w]; simpl; [eauto|].
  destruct (e =? EINTR); [by apply IH|eauto].
Qed.

End posix.

#[export] Hint Resolve emits_fd_destroy emits_with_fd emits_wait_child : emits.
