(* ===== verification/Script.v ===== *)
(** * Concrete kernels for evaluation

    A scripted kernel answers the n-th call of a run by a function of [n] and of
    the call; what the function leaves open gets [default_answer], under which
    every fallible call fails with [ENOSYS]. Examples and witnesses run the
    definitions against such kernels. *)

From S2P Require Import Prelude Machine Linux.

Definition default_answer {R : Type} (c : call R) : R :=
  match c in call R return R with
  | sys_getpid => 1
  | sys_umask _ => 0
  | sys_pause => tt
  | sys_sysconf_open_max => -1
  | sys_getline _ => None
  | sys_ifstream _ => false
  | sys_ofstream_append _ => false
  | fs_canonical _ => inl "not scripted"%string
  | sys_getuid => 0
  | sys_getgid => 0
  | env_now => 0
  | env_sleep _ => tt
  | env_cancellation_requested => false
  | ssl_digest_init => false
  | ssl_digest_update _ => false
  | ssl_digest_final => None
  | sys_getrlimit _ => Err ENOSYS
  | sys_setrlimit _ _ => Err ENOSYS
  | sys_fork => Err ENOSYS
  | sys_waitpid _ => Err ENOSYS
  | sys_waitid _ _ _ => Err ENOSYS
  | sys_kill _ _ => Err ENOSYS
  | sys_pidfd_open _ => Err ENOSYS
  | sys_pidfd_send_signal _ _ => Err ENOSYS
  | sys_setsid => Err ENOSYS
  | sys_prctl_set_no_new_privs => Err ENOSYS
  | sys_prctl_set_seccomp _ => Err ENOSYS
  | sys_prctl_cap_ambient_clear_all => Err ENOSYS
  | sys_capset _ _ _ => Err ENOSYS
  | sys_execveat _ _ _ _ _ => Err ENOSYS
  | sys_open _ _ => Err ENOSYS
  | sys_openat _ _ _ => Err ENOSYS
  | sys_openat2 _ _ _ _ _ => Err ENOSYS
  | sys_close _ => Err ENOSYS
  | sys_close_range _ _ _ => Err ENOSYS
  | sys_pipe2 _ => Err ENOSYS
  | sys_dup2 _ _ => Err ENOSYS
  | sys_fcntl_getfl _ => Err ENOSYS
  | sys_fcntl_setfl _ _ => Err ENOSYS
  | sys_read _ _ => Err ENOSYS
  | sys_write _ _ => Err ENOSYS
  | sys_pread _ _ _ => Err ENOSYS
  | sys_poll _ _ => Err ENOSYS
  | sys_stat _ => Err ENOSYS
  | sys_lstat _ => Err ENOSYS
  | sys_fstat _ => Err ENOSYS
  | sys_access _ _ => Err ENOSYS
  | sys_faccessat2 _ _ _ _ => Err ENOSYS
  | sys_mkdir _ _ => Err ENOSYS
  | sys_rmdir _ => Err ENOSYS
  | sys_chmod _ _ => Err ENOSYS
  | sys_mkdtemp _ => Err ENOSYS
  | sys_mknod _ _ _ => Err ENOSYS
  | sys_opendir _ => Err ENOSYS
  | sys_fdopendir _ => Err ENOSYS
  | sys_readdir _ => Err ENOSYS
  | sys_closedir _ => Err ENOSYS
  | sys_unshare _ => Err ENOSYS
  | sys_mount _ _ _ _ _ => Err ENOSYS
  | sys_open_tree _ _ _ => Err ENOSYS
  | sys_move_mount _ _ _ _ _ => Err ENOSYS
  | sys_mount_setattr _ _ _ _ => Err ENOSYS
  | sys_fchdir _ => Err ENOSYS
  | sys_chdir _ => Err ENOSYS
  | sys_chroot _ => Err ENOSYS
  | sys_socket _ _ _ => Err ENOSYS
  | sys_bind _ _ => Err ENOSYS
  | sys_listen _ _ => Err ENOSYS
  | sys_getsockname _ => Err ENOSYS
  | sys_connect _ _ => Err ENOSYS
  | sys_accept4 _ _ => Err ENOSYS
  | sys_sendto _ _ _ _ => Err ENOSYS
  | sys_send _ _ _ => Err ENOSYS
  | sys_recv _ _ _ => Err ENOSYS
  | sys_getgroups_count => Err ENOSYS
  | sys_getgroups _ => Err ENOSYS
  | sys_landlock_version => Err ENOSYS
  end.

(** A kernel whose state counts the calls made. *)
Definition scripted (answers : nat → ∀ R, call R → R) : Kernel nat :=
  {| kernel_run := λ R c n, (answers n R c, S n) |}.

Definition start {W} (w : W) : mstate W := MState w 0 [].
