(* ===== verification/Pkgexec.v ===== *)
(** * The interface of libpkgexec

    libpkgexec is a separate library. Its value objects are records of the
    answers their accessors give; its enumerations have the constructors the
    sources name, with room for others where the sources do not name them all;
    the functions of it that compute something are the operations of the class
    [Pkgexec], on which nothing is assumed here. *)

From stdpp Require Import pretty.
From S2P Require Import Prelude Machine.

Inductive network_policy : Set := network_allowed | network_denied | network_loopback_only.
Inductive stdin_policy : Set := stdin_closed | stdin_null_device.
Inductive stream_policy : Set := capture_complete | stream_other (n : N).
Inductive resource_access : Set := read_only | writable.
Inductive resource_limit_kind : Set :=
| limit_address_space | limit_file_size | limit_open_files | limit_other (n : N).

Inductive resource_role : Set :=
| source_tree | build_input_tree | check_input_tree | package_tree
| build_workspace | package_output_root | private_temporary_root | managed_target_root
| role_other (n : N).

Inductive execution_guarantee : Set :=
| g_closed_environment | g_root_view | g_read_only_resources | g_writable_resources
| g_fixed_credentials | g_complete_stdout_capture | g_complete_stderr_capture
| g_exact_interpreter | g_cleanup_verified | g_cancellation | g_resource_limits
| g_address_space_limit | g_file_size_limit | g_open_files_limit
| g_network_denied | g_loopback_isolated | g_other (n : N).

Inductive execution_failure_kind : Set :=
| backend_unsupported | request_rejected | resource_admission_failed
| interpreter_unavailable | isolation_setup_failed | process_start_failed
| log_capture_failed | cleanup_failed | program_exited_nonzero
| program_terminated_by_signal.

Inductive cleanup_outcome : Set := cleanup_outcome_verified | cleanup_outcome_failed.
Inductive process_termination : Set := terminated_exited (status : Z) | terminated_signaled (sig : Z).

#[export] Instance network_policy_eq_dec : EqDecision network_policy.
Proof. solve_decision. Defined.
#[export] Instance stdin_policy_eq_dec : EqDecision stdin_policy.
Proof. solve_decision. Defined.
#[export] Instance stream_policy_eq_dec : EqDecision stream_policy.
Proof. solve_decision. Defined.
#[export] Instance resource_access_eq_dec : EqDecision resource_access.
Proof. solve_decision. Defined.
#[export] Instance resource_limit_kind_eq_dec : EqDecision resource_limit_kind.
Proof. solve_decision. Defined.
#[export] Instance resource_role_eq_dec : EqDecision resource_role.
Proof. solve_decision. Defined.
#[export] Instance execution_guarantee_eq_dec : EqDecision execution_guarantee.
Proof. solve_decision. Defined.
#[export] Instance execution_failure_kind_eq_dec : EqDecision execution_failure_kind.
Proof. solve_decision. Defined.

(** [pkgexec::resource_limits]: the accessors the sources call. *)
Record resource_limits : Set := mk_limits {
  address_space_bytes : option Z;
  file_size_bytes : option Z;
  open_files : option Z;
  limits_empty : bool
}.

Record environment_policy : Set := mk_environment {
  executable_search_path : list string;
  home_directory : string;
  temporary_directory : string;
  parallelism : Z;
  source_date_epoch : option Z;
  additional_variables : list (string * string);
  network : network_policy;
  standard_input : stdin_policy;
  standard_output : stream_policy;
  standard_error : stream_policy;
  file_creation_mask : Z
}.

Record credential_policy : Set := mk_credentials {
  user_id : Z;
  group_id : Z;
  supplementary_groups : list Z;
  no_new_privileges : bool
}.

(** A binding of the resource layout: its slot's role, access, mount point and
    the identity of the resource. *)
Record resource_binding : Set := mk_binding {
  role : resource_role;
  access : resource_access;
  mount_point : string;
  resource : string
}.

(** [pkgexec::execution_resources]: where the caller put the root view and each
    resource; looking up a resource that was not admitted throws. *)
Record execution_resources : Type := mk_resources {
  root_view_path : string;
  materialization : string → exn + string
}.

Class Pkgexec : Type := {
  (** [resource_limits::make(cpu_time, address_space, file_size, open_files, process_count)] *)
  limits_make : option Z → option Z → option Z → option Z → option Z → resource_limits;
  (** [sha256_digest], [interpreter_identity] and their orders *)
  sha256_digest : Set;
  digest_of_hex : string → sha256_digest;
  digest_hex : sha256_digest → string;
  digest_eq_dec :: EqDecision sha256_digest;
  digest_ltb : sha256_digest → sha256_digest → bool;
  interpreter_identity : Set;
  identity_from_sha256 : string → interpreter_identity;
  identity_eq_dec :: EqDecision interpreter_identity;
  identity_ltb : interpreter_identity → interpreter_identity → bool;
  (** [backend_identity] and [backend_capability_profile] *)
  backend_identity_from_sha256 : string → string;
  capability_profile : Type;
  profile_seal : string → list execution_guarantee → capability_profile;
  profile_guarantees : capability_profile → list execution_guarantee;
  (** [to_string(execution_guarantee)] and the order [std::binary_search] uses *)
  guarantee_to_string : execution_guarantee → string;
  guarantee_ltb : execution_guarantee → execution_guarantee → bool
}.

(** [pkgexec::execution_request]: [working] is the binding of the working
    directory, [grace_period_milliseconds] that of the cancellation policy. *)
Record execution_request `{Pkgexec} : Type := mk_request {
  program_material : string;
  interpreter : interpreter_identity;
  bindings : list resource_binding;
  working : resource_binding;
  environment : environment_policy;
  credentials : credential_policy;
  limits : resource_limits;
  grace_period_milliseconds : option Z;
  required_guarantees : list execution_guarantee
}.

Arguments mk_request {_} program_material interpreter bindings working environment credentials
  limits grace_period_milliseconds required_guarantees.

(** [backend_capability_profile::supports]. *)
Class Supports `{Pkgexec} : Type := {
  profile_supports : capability_profile → execution_request → bool
}.

(** [pkgexec::execution_result]: a result is the call of the static function that makes
    it. Every call passes the request and the profile, which are left out. Captured
    material is a list of bytes ([stream_capture::retained]). *)
Inductive execution_result `{Pkgexec} : Type :=
| result_failed_before_start (kind : execution_failure_kind)
    (established : list execution_guarantee) (diagnostic : string)
| result_cancelled_before_start (established : list execution_guarantee) (diagnostic : string)
| result_failed_after_start (used : interpreter_identity) (termination : process_termination)
    (output error_output : option (list Z)) (established : list execution_guarantee)
    (cleanup : cleanup_outcome) (kind : execution_failure_kind) (diagnostic : string)
| result_cancelled_after_start (used : interpreter_identity)
    (output error_output : option (list Z)) (established : list execution_guarantee)
    (cleanup : cleanup_outcome) (diagnostic : string)
| result_succeeded (used : interpreter_identity)
    (output error_output : option (list Z)) (established : list execution_guarantee).

(** A small instance, for evaluation: digests and identities are strings in
    lexicographic order, a profile is its identity and its list of guarantees. *)
Definition guarantee_index (g : execution_guarantee) : N :=
  match g with
  | g_closed_environment => 0 | g_root_view => 1 | g_read_only_resources => 2
  | g_writable_resources => 3 | g_fixed_credentials => 4 | g_complete_stdout_capture => 5
  | g_complete_stderr_capture => 6 | g_exact_interpreter => 7 | g_cleanup_verified => 8
  | g_cancellation => 9 | g_resource_limits => 10 | g_address_space_limit => 11
  | g_file_size_limit => 12 | g_open_files_limit => 13 | g_network_denied => 14
  | g_loopback_isolated => 15 | g_other n => 16 + n
  end.

Definition plain_pkgexec : Pkgexec := {|
  limits_make := λ _ a f o _, mk_limits a f o
    (match a, f, o with None, None, None => true | _, _, _ => false end);
  sha256_digest := string;
  digest_of_hex := λ s, s;
  digest_hex := λ s, s;
  digest_eq_dec := _;
  digest_ltb := String.ltb;
  interpreter_identity := string;
  identity_from_sha256 := λ s, s;
  identity_eq_dec := _;
  identity_ltb := String.ltb;
  backend_identity_from_sha256 := λ s, s;
  capability_profile := string * list execution_guarantee;
  profile_seal := pair;
  profile_guarantees := snd;
  guarantee_to_string := λ g, pretty (guarantee_index g);
  guarantee_ltb := λ a b, N.ltb (guarantee_index a) (guarantee_index b)
|}.

Definition plain_supports : @Supports plain_pkgexec := {|
  profile_supports := λ p r,
    forallb (λ g, bool_decide (g ∈ @profile_guarantees plain_pkgexec p))
      (@required_guarantees plain_pkgexec r)
|}.
