(* ===== verification/Containment.v ===== *)
(** * Seccomp containment (src/process_control.cpp)

    The classic-BPF filter that [install_process_group_containment] builds, an
    interpreter for the instructions it uses, and the policy it is meant to
    implement. The filter is the one of the x86-64 build: every [__NR_] macro the
    source tests with [#ifdef] is defined there. *)

From S2P Require Import Prelude Machine Linux Logic Posix Script.

(** ** Numbers of the x86-64 ABI *)
Definition AUDIT_ARCH_X86_64 : Z := 3221225534.
Definition NR_clone : Z := 56.
Definition NR_setpgid : Z := 109.
Definition NR_setsid : Z := 112.
Definition NR_pivot_root : Z := 155.
Definition NR_setrlimit : Z := 160.
Definition NR_chroot : Z := 161.
Definition NR_mount : Z := 165.
Definition NR_umount2 : Z := 166.
Definition NR_unshare : Z := 272.
Definition NR_prlimit64 : Z := 302.
Definition NR_setns : Z := 308.
Definition NR_open_tree : Z := 428.
Definition NR_move_mount : Z := 429.
Definition NR_clone3 : Z := 435.
Definition NR_mount_setattr : Z := 442.

Definition SECCOMP_RET_KILL_PROCESS : Z := 2147483648.
Definition SECCOMP_RET_ERRNO : Z := 327680.
Definition SECCOMP_RET_ALLOW : Z := 2147418112.

(** ** Classic BPF *)
Definition BPF_LD_W_ABS : Z := 32.
Definition BPF_JMP_JEQ_K : Z := 21.
Definition BPF_JMP_JSET_K : Z := 69.
Definition BPF_RET_K : Z := 6.
Definition BPF_STMT (code k : Z) : sock_filter := mk_filter code 0 0 k.
Definition BPF_JUMP (code k jt jf : Z) : sock_filter := mk_filter code jt jf k.

(** [struct seccomp_data]. *)
Record seccomp_data : Set := mk_data {
  nr : Z;
  arch : Z;
  instruction_pointer : Z;
  args : list Z
}.

Definition low32 (v : Z) : Z := Z.land v 4294967295.
Definition high32 (v : Z) : Z := Z.shiftr v 32.

(** The structure as the 32-bit little-endian words a filter loads. *)
Definition words (d : seccomp_data) : list Z :=
  [nr d; arch d; low32 (instruction_pointer d); high32 (instruction_pointer d)] ++
  concat (map (λ a, [low32 a; high32 a]) (args d)).

Definition offset_nr : Z := 0.
Definition offset_arch : Z := 4.
Definition offset_arg (i : Z) : Z := 16 + 8 * i.

Definition load (d : seccomp_data) (offset : Z) : option Z :=
  if offset mod 4 =? 0 then words d !! Z.to_nat (offset / 4) else None.

(** Run a program; every jump is forward, so its length is enough fuel. [None]
    is a program the kernel would not have loaded. *)
Fixpoint bpf_exec (fuel : nat) (program : list sock_filter) (d : seccomp_data) (acc : Z)
    : option Z :=
  match fuel, program with
  | S n, i :: rest =>
      if bpf_code i =? BPF_LD_W_ABS then
        v ← load d (bpf_k i); bpf_exec n rest d v
      else if bpf_code i =? BPF_JMP_JEQ_K then
        bpf_exec n (drop (Z.to_nat (if acc =? bpf_k i then bpf_jt i else bpf_jf i)) rest) d acc
      else if bpf_code i =? BPF_JMP_JSET_K then
        bpf_exec n (drop (Z.to_nat (if Z.land acc (bpf_k i) =? 0 then bpf_jf i else bpf_jt i)) rest)
          d acc
      else if bpf_code i =? BPF_RET_K then Some (bpf_k i)
      else None
  | _, _ => None
  end.

Definition bpf_run (program : list sock_filter) (d : seccomp_data) : option Z :=
  bpf_exec (length program) program d 0.

(** ** The checks of the kernel

    What the kernel demands of a filter before it installs it: between one and 4096
    instructions, each of a known form with fields of the widths of [sock_filter],
    loads of whole words inside [seccomp_data], jumps that land on an instruction,
    and a last instruction that returns. *)
Definition BPF_MAXINSNS : nat := 4096.
Definition sizeof_seccomp_data : Z := 64.
Definition fits (width v : Z) : bool := (0 <=? v) && (v <? 2 ^ width).

(** An instruction that [following] others follow. *)
Definition instruction_ok (i : sock_filter) (following : nat) : bool :=
  fits 16 (bpf_code i) && fits 8 (bpf_jt i) && fits 8 (bpf_jf i) && fits 32 (bpf_k i) &&
  (if bpf_code i =? BPF_LD_W_ABS then (bpf_k i <? sizeof_seccomp_data) && (bpf_k i mod 4 =? 0)
   else if (bpf_code i =? BPF_JMP_JEQ_K) || (bpf_code i =? BPF_JMP_JSET_K)
   then (bpf_jt i <? Z.of_nat following) && (bpf_jf i <? Z.of_nat following)
   else bpf_code i =? BPF_RET_K).

Fixpoint instructions_ok (program : list sock_filter) : bool :=
  match program with
  | [] => true
  | i :: rest => instruction_ok i (length rest) && instructions_ok rest
  end.

Definition ends_in_return (program : list sock_filter) : bool :=
  match last program with Some i => bpf_code i =? BPF_RET_K | None => false end.

Definition bpf_check (program : list sock_filter) : bool :=
  (length program <=? BPF_MAXINSNS)%nat && instructions_ok program && ends_in_return program.

(** ** The filter *)
Definition namespace_flags : Z :=
  Z.lor CLONE_NEWCGROUP (Z.lor CLONE_NEWIPC (Z.lor CLONE_NEWNET (Z.lor CLONE_NEWNS
    (Z.lor CLONE_NEWPID (Z.lor CLONE_NEWTIME (Z.lor CLONE_NEWUSER CLONE_NEWUTS)))))).

(** A pair that answers [verdict] to one system call and falls through otherwise. *)
Definition deny (number verdict : Z) : list sock_filter :=
  [BPF_JUMP BPF_JMP_JEQ_K number 0 1; BPF_STMT BPF_RET_K verdict].

Definition errno_verdict (e : Z) : Z := Z.lor SECCOMP_RET_ERRNO e.

Definition limit_verdict (seal_resource_limits : bool) : Z :=
  if seal_resource_limits then errno_verdict EPERM else SECCOMP_RET_ALLOW.

Definition seccomp_filter (seal_resource_limits : bool) : list sock_filter :=
  [BPF_STMT BPF_LD_W_ABS offset_arch;
   BPF_JUMP BPF_JMP_JEQ_K AUDIT_ARCH_X86_64 1 0;
   BPF_STMT BPF_RET_K SECCOMP_RET_KILL_PROCESS;
   BPF_STMT BPF_LD_W_ABS offset_nr;
   BPF_JUMP BPF_JMP_JEQ_K NR_clone 0 3;
   BPF_STMT BPF_LD_W_ABS (offset_arg 0);
   BPF_JUMP BPF_JMP_JSET_K namespace_flags 0 1;
   BPF_STMT BPF_RET_K (errno_verdict EPERM);
   BPF_STMT BPF_LD_W_ABS offset_nr] ++
  deny NR_setsid (errno_verdict EPERM) ++
  deny NR_setpgid (errno_verdict EPERM) ++
  deny NR_unshare (errno_verdict EPERM) ++
  deny NR_setns (errno_verdict EPERM) ++
  deny NR_clone3 (errno_verdict ENOSYS) ++
  deny NR_mount (errno_verdict EPERM) ++
  deny NR_umount2 (errno_verdict EPERM) ++
  deny NR_pivot_root (errno_verdict EPERM) ++
  deny NR_chroot (errno_verdict EPERM) ++
  deny NR_open_tree (errno_verdict EPERM) ++
  deny NR_move_mount (errno_verdict EPERM) ++
  deny NR_mount_setattr (errno_verdict EPERM) ++
  deny NR_setrlimit (limit_verdict seal_resource_limits) ++
  [BPF_JUMP BPF_JMP_JEQ_K NR_prlimit64 0 5;
   BPF_STMT BPF_LD_W_ABS (offset_arg 2);
   BPF_JUMP BPF_JMP_JEQ_K 0 0 2;
   BPF_STMT BPF_LD_W_ABS (offset_arg 2 + 4);
   BPF_JUMP BPF_JMP_JEQ_K 0 1 0;
   BPF_STMT BPF_RET_K (limit_verdict seal_resource_limits);
   BPF_STMT BPF_RET_K SECCOMP_RET_ALLOW].

(** ** The policy the filter stands for *)

(** Changing session, process group, namespaces or mounts. *)
Definition denied_calls : list Z :=
  [NR_setsid; NR_setpgid; NR_unshare; NR_setns; NR_mount; NR_umount2; NR_pivot_root;
   NR_chroot; NR_open_tree; NR_move_mount; NR_mount_setattr].

Definition argument (d : seccomp_data) (i : nat) : Z := nth i (args d) 0.

Definition containment_policy (seal : bool) (d : seccomp_data) : Z :=
  if negb (arch d =? AUDIT_ARCH_X86_64) then SECCOMP_RET_KILL_PROCESS
  else if existsb (Z.eqb (nr d)) denied_calls then errno_verdict EPERM
  else if nr d =? NR_clone3 then errno_verdict ENOSYS
  else if (nr d =? NR_clone) && negb (Z.land (argument d 0) namespace_flags =? 0)
    then errno_verdict EPERM
  else if seal && (nr d =? NR_setrlimit) then errno_verdict EPERM
  else if seal && (nr d =? NR_prlimit64) && negb (argument d 2 =? 0) then errno_verdict EPERM
  else SECCOMP_RET_ALLOW.

(** What the kernel hands a filter: six 64-bit arguments. *)
Definition data_ok (d : seccomp_data) : Prop :=
  length (args d) = 6%nat ∧ Forall (λ a, 0 ≤ a < 2 ^ 64) (args d).

#[export] Instance data_ok_dec d : Decision (data_ok d).
Proof. unfold data_ok. apply _. Defined.

(** ** Installation *)
Section install.
Context {W : Type} `{K : Kernel W}.

(** The x86-64 build. *)
Definition supported_architecture : bool := true.

Definition install_process_group_containment (seal_resource_limits : bool) : M W bool :=
  if negb supported_architecture then mret false
  else
    ok ← succeeds sys_prctl_set_no_new_privs;
    if negb ok then mret false
    else succeeds (sys_prctl_set_seccomp (seccomp_filter seal_resource_limits)).

Definition install_process_group_containment_default : M W bool :=
  install_process_group_containment false.

Definition probe_process_group_containment (fuel : nat) : M W bool :=
  forked ← attempt sys_fork;
  match forked with
  | None => mret false
  | Some child =>
      if child =? 0 then
        ok ← install_process_group_containment false;
        exit_process (if (ok : bool) then 0 else 1)
      else
        status ← wait_child fuel child;
        mret (exited_zero status)
  end.

End install.

(** ** Lemmas *)

Lemma low_high_zero v : 0 ≤ v < 2 ^ 64 → (low32 v =? 0) && (high32 v =? 0) = (v =? 0).
Proof.
  intros H. unfold low32, high32. change 4294967295 with (Z.ones 32).
  rewrite Z.land_ones, Z.shiftr_div_pow2 by lia.
  pose proof (Z.div_mod v (2 ^ 32) ltac:(lia)).
  pose proof (Z.mod_pos_bound v (2 ^ 32) ltac:(lia)).
  destruct (Z.eqb_spec (v mod 2 ^ 32) 0), (Z.eqb_spec (v / 2 ^ 32) 0), (Z.eqb_spec v 0);
    simpl; try done; nia.
Qed.

Lemma low32_flags v : Z.land (low32 v) namespace_flags = Z.land v namespace_flags.
Proof. unfold low32. by rewrite <- Z.land_assoc. Qed.

Lemma load_arg0 n a i a0 a1 a2 a3 a4 a5 :
  load (mk_data n a i [a0; a1; a2; a3; a4; a5]) (offset_arg 0) = Some (low32 a0).
Proof. reflexivity. Qed.
Lemma load_arg2_low n a i a0 a1 a2 a3 a4 a5 :
  load (mk_data n a i [a0; a1; a2; a3; a4; a5]) (offset_arg 2) = Some (low32 a2).
Proof. reflexivity. Qed.
Lemma load_arg2_high n a i a0 a1 a2 a3 a4 a5 :
  load (mk_data n a i [a0; a1; a2; a3; a4; a5]) (offset_arg 2 + 4) = Some (high32 a2).
Proof. reflexivity. Qed.
Lemma load_nr d : load d offset_nr = Some (nr d).
Proof. reflexivity. Qed.
Lemma load_arch d : load d offset_arch = Some (arch d).
Proof. reflexivity. Qed.

(** One instruction at a time. *)
Lemma exec_load n k rest d acc v :
  load d k = Some v →
  bpf_exec (S n) (BPF_STMT BPF_LD_W_ABS k :: rest) d acc = bpf_exec n rest d v.
Proof. intros H. simpl. by rewrite H. Qed.

Lemma exec_jeq n k jt jf rest d acc :
  bpf_exec (S n) (BPF_JUMP BPF_JMP_JEQ_K k jt jf :: rest) d acc =
  if acc =? k then bpf_exec n (drop (Z.to_nat jt) rest) d acc
  else bpf_exec n (drop (Z.to_nat jf) rest) d acc.
Proof. simpl. by destruct (acc =? k). Qed.

Lemma exec_jset n k jt jf rest d acc :
  bpf_exec (S n) (BPF_JUMP BPF_JMP_JSET_K k jt jf :: rest) d acc =
  if Z.land acc k =? 0 then bpf_exec n (drop (Z.to_nat jf) rest) d acc
  else bpf_exec n (drop (Z.to_nat jt) rest) d acc.
Proof. simpl. by destruct (Z.land acc k =? 0). Qed.

Lemma exec_ret n k rest d acc : bpf_exec (S n) (BPF_STMT BPF_RET_K k :: rest) d acc = Some k.
Proof. reflexivity. Qed.

Lemma exec_deny n number verdict rest d acc :
  bpf_exec (S (S n)) (deny number verdict ++ rest) d acc =
  if acc =? number then Some verdict else bpf_exec (S n) rest d acc.
Proof. unfold deny. cbn [app]. rewrite exec_jeq. by destruct (acc =? number). Qed.

(** The tail of the filter, entered with the system call number loaded. *)
Lemma exec_prlimit n seal d :
  data_ok d →
  bpf_exec (7 + n)
    [BPF_JUMP BPF_JMP_JEQ_K NR_prlimit64 0 5;
     BPF_STMT BPF_LD_W_ABS (offset_arg 2);
     BPF_JUMP BPF_JMP_JEQ_K 0 0 2;
     BPF_STMT BPF_LD_W_ABS (offset_arg 2 + 4);
     BPF_JUMP BPF_JMP_JEQ_K 0 1 0;
     BPF_STMT BPF_RET_K (limit_verdict seal);
     BPF_STMT BPF_RET_K SECCOMP_RET_ALLOW] d (nr d) =
  Some (if (nr d =? NR_prlimit64) && negb (argument d 2 =? 0) then limit_verdict seal
        else SECCOMP_RET_ALLOW).
Proof.
  destruct d as [x a i l]. intros [Hl Hf]. simpl in Hl, Hf.
  destruct l as [|a0 [|a1 [|a2 [|a3 [|a4 [|a5 [|]]]]]]]; try done.
  rewrite !Forall_cons_iff in Hf. destruct Hf as (_ & _ & H2 & _).
  cbn [nr Nat.add]. rewrite exec_jeq. destruct (x =? NR_prlimit64); [|done].
  change (drop (Z.to_nat 0) ?l) with l.
  rewrite (exec_load _ _ _ _ _ (low32 a2)), exec_jeq by done.
  change (argument _ 2) with a2. rewrite <- (low_high_zero a2 H2).
  destruct (low32 a2 =? 0); [|done]. change (drop (Z.to_nat 0) ?l) with l.
  rewrite (exec_load _ _ _ _ _ (high32 a2)), exec_jeq by done.
  by destruct (high32 a2 =? 0).
Qed.

(** The part that looks at [clone], which leaves the call number loaded. *)
Lemma exec_clone n rest d acc :
  data_ok d → nr d = acc →
  bpf_exec (5 + n)
    (BPF_JUMP BPF_JMP_JEQ_K NR_clone 0 3 ::
     BPF_STMT BPF_LD_W_ABS (offset_arg 0) ::
     BPF_JUMP BPF_JMP_JSET_K namespace_flags 0 1 ::
     BPF_STMT BPF_RET_K (errno_verdict EPERM) ::
     BPF_STMT BPF_LD_W_ABS offset_nr :: rest) d acc =
  if acc =? NR_clone then
    if Z.land (argument d 0) namespace_flags =? 0 then bpf_exec (1 + n) rest d acc
    else Some (errno_verdict EPERM)
  else bpf_exec (3 + n) rest d acc.
Proof.
  destruct d as [x a i l]. intros [Hl _] Hnr. simpl in Hl, Hnr. subst x.
  destruct l as [|a0 [|a1 [|a2 [|a3 [|a4 [|a5 [|]]]]]]]; try done.
  cbn [Nat.add]. rewrite exec_jeq. destruct (acc =? NR_clone);
    [|change (drop (Z.to_nat 3) (?x :: ?y :: ?z :: ?l)) with l; by rewrite (exec_load _ _ _ _ _ acc)].
  change (drop (Z.to_nat 0) ?l) with l.
  rewrite (exec_load _ _ _ _ _ (low32 a0)), exec_jset by done. rewrite low32_flags.
  change (argument _ 0) with a0.
  destruct (Z.land a0 namespace_flags =? 0); [|done].
  change (drop (Z.to_nat 1) (?x :: ?l)) with l. by rewrite (exec_load _ _ _ _ _ acc).
Qed.

(** The calls between [clone] and [prlimit64]. *)
Lemma exec_calls n seal d acc :
  data_ok d → nr d = acc →
  bpf_exec (34 + n) (drop 9 (seccomp_filter seal)) d acc = Some (
    if existsb (Z.eqb acc) denied_calls then errno_verdict EPERM
    else if acc =? NR_clone3 then errno_verdict ENOSYS
    else if acc =? NR_setrlimit then limit_verdict seal
    else if (acc =? NR_prlimit64) && negb (argument d 2 =? 0) then limit_verdict seal
    else SECCOMP_RET_ALLOW).
Proof.
  intros Hd <-. unfold seccomp_filter, denied_calls. cbn [drop app Nat.add existsb].
  rewrite drop_0.
  do 13 (rewrite exec_deny;
         match goal with |- (if ?b then _ else _) = _ => destruct b eqn:? end;
         [eqb_cases; done|]).
  rewrite (exec_prlimit (14 + n)) by done. eqb_cases. done.
Qed.

Lemma filter_verdict seal d :
  data_ok d → bpf_run (seccomp_filter seal) d = Some (containment_policy seal d).
Proof.
  intros Hd. unfold bpf_run, containment_policy.
  change (seccomp_filter seal) with (take 9 (seccomp_filter seal) ++ drop 9 (seccomp_filter seal)).
  change (length _) with 42%nat. unfold seccomp_filter at 1. cbn [take app].
  rewrite (exec_load _ _ _ _ _ (arch d)), exec_jeq by done.
  destruct (arch d =? AUDIT_ARCH_X86_64); [|done]. cbn [negb].
  change (drop (Z.to_nat 1) (?x :: ?l)) with l. rewrite (exec_load _ _ _ _ _ (nr d)) by done.
  rewrite (exec_clone 34) by done.
  destruct (nr d =? NR_clone) eqn:Ec.
  - destruct (Z.land _ _ =? 0); [etrans; [by apply (exec_calls 1)|]|]; eqb_cases; by destruct seal.
  - etrans; [by apply (exec_calls 3)|]. unfold limit_verdict.
    destruct seal, (existsb _ _), (nr d =? NR_clone3), (nr d =? NR_setrlimit); try done;
      by destruct (_ && _).
Qed.

Lemma policy_allows_x32 seal d :
  arch d = AUDIT_ARCH_X86_64 → 1073741824 ≤ nr d → containment_policy seal d = SECCOMP_RET_ALLOW.
Proof.
  intros Ha Hn. unfold containment_policy. rewrite Ha. cbn [negb Z.eqb].
  assert (∀ k, k < 1073741824 → (nr d =? k) = false) as Hk by (intros; lia).
  unfold denied_calls. cbn [existsb].
  rewrite !Hk by (unfold NR_setsid, NR_setpgid, NR_unshare, NR_setns, NR_mount, NR_umount2,
    NR_pivot_root, NR_chroot, NR_open_tree, NR_move_mount, NR_mount_setattr, NR_clone3, NR_clone,
    NR_setrlimit, NR_prlimit64; lia).
  by destruct seal.
Qed.

Lemma wait_child_failed {W} `{Kernel W} fuel child s e w :
  kernel_run (sys_waitpid child) (world s) = (Err e, w) → e ≠ EINTR →
  wait_child (S fuel) child s = (Done 0, push w e (sys_waitpid child) (Err e) s).
Proof.
  intros E He. unfold wait_child. cbn [retry_eintr].
  unfold mbind, M_bind, attempt, issue, mbind, M_bind, get_errno. rewrite E. simpl.
  by rewrite (proj2 (Z.eqb_neq e EINTR) He).
Qed.

(** ** Checked programs do not get stuck *)

Lemma instructions_ok_drop n program :
  instructions_ok program = true → instructions_ok (drop n program) = true.
Proof.
  revert program. induction n as [|n IH]; intros [|i rest]; try done.
  simpl. intros [_ H]%andb_prop. by apply IH.
Qed.

Lemma ends_in_return_drop n program :
  (n < length program)%nat → ends_in_return (drop n program) = ends_in_return program.
Proof.
  intros H. unfold ends_in_return. replace (last program) with (last (drop n program)); [done|].
  rewrite <- (take_drop n program) at 2. rewrite last_app.
  destruct (last (drop n program)) eqn:E; [done|].
  apply last_None in E. apply (f_equal length) in E. rewrite length_drop in E. simpl in E. lia.
Qed.

Lemma load_aligned d k :
  data_ok d → 0 ≤ k < sizeof_seccomp_data → k mod 4 = 0 → is_Some (load d k).
Proof.
  destruct d as [x a i l]. intros [Hl _] Hk Hm. unfold load. rewrite (proj2 (Z.eqb_eq _ _) Hm).
  apply lookup_lt_is_Some. unfold words, sizeof_seccomp_data in *. simpl in *.
  destruct l as [|a0 [|a1 [|a2 [|a3 [|a4 [|a5 [|]]]]]]]; try done. simpl.
  pose proof (Z.div_lt_upper_bound k 4 16). lia.
Qed.

(** Type soundness: a program that passes the checks answers every system call. *)
Lemma checked_exec program fuel d acc :
  data_ok d → instructions_ok program = true → ends_in_return program = true →
  (length program <= fuel)%nat → is_Some (bpf_exec fuel program d acc).
Proof.
  intros Hd. revert program acc. induction fuel as [|n IH]; intros [|i rest] acc Hi Hr Hn;
    try (simpl in *; lia || done).
  assert (∀ acc j, (j < length rest)%nat → is_Some (bpf_exec n (drop j rest) d acc)) as Hgo.
  { intros acc' j Hj. simpl in Hi, Hn. apply andb_prop in Hi as [_ Hi]. apply IH.
    - by apply instructions_ok_drop.
    - change (drop j rest) with (drop (S j) (i :: rest)).
      rewrite ends_in_return_drop by (simpl; lia). done.
    - rewrite length_drop. lia. }
  simpl in Hi |- *. apply andb_prop in Hi as [Hi _]. unfold instruction_ok, fits in Hi.
  split_tests. destruct (bpf_code i =? BPF_LD_W_ABS) eqn:El; [|destruct (bpf_code i =? BPF_JMP_JEQ_K) eqn:Eq;
    [|destruct (bpf_code i =? BPF_JMP_JSET_K) eqn:Es]]; cbn [orb] in *; split_tests.
  - destruct (load_aligned d (bpf_k i)) as [v ->]; [done|lia|lia|]. simpl.
    destruct rest as [|i' rest]; [|apply (Hgo v 0%nat); simpl; lia].
    unfold ends_in_return in Hr. simpl in Hr. apply Z.eqb_eq in Hr, El. rewrite Hr in El. done.
  - case_match; apply Hgo; lia.
  - case_match; apply Hgo; lia.
  - match goal with H : (bpf_code i =? BPF_RET_K) = true |- _ => rewrite H end. by eexists.
Qed.

Lemma bpf_check_sound program d :
  bpf_check program = true → data_ok d → is_Some (bpf_run program d).
Proof. intros H Hd. unfold bpf_check in H. split_tests. by apply checked_exec. Qed.

Lemma seccomp_filter_checked seal : bpf_check (seccomp_filter seal) = true.
Proof. by destruct seal; vm_compute. Qed.

(** A filter handed to the kernel is one it admits and that answers every call. *)
Definition loads_checked_program (ev : event) : Prop :=
  match ev with
  | Event c _ =>
      match c with
      | sys_prctl_set_seccomp program =>
          bpf_check program = true ∧ ∀ d, data_ok d → is_Some (bpf_run program d)
      | _ => True
      end
  end.

(** ** Properties *)

(** C1: for every system call a contained process can make, the installed BPF
    program returns exactly the verdict of the containment policy: foreign
    architectures are killed, calls that change session, process group,
    namespaces or mounts fail with EPERM, clone3 with ENOSYS, and, when limits are
    sealed, so do setrlimit and prlimit64 with a new limit; all else is allowed. *)
Theorem containment_filter_correct seal d :
  data_ok d → bpf_run (seccomp_filter seal) d = Some (containment_policy seal d).
Proof. apply filter_verdict. Qed.

Lemma containment_filter_correct_witness :
  bpf_run (seccomp_filter true)
    (mk_data NR_prlimit64 AUDIT_ARCH_X86_64 0 [0; 7; 4294967296; 0; 0; 0]) =
  Some (errno_verdict EPERM).
Proof.
  refine (containment_filter_correct true
    (mk_data NR_prlimit64 AUDIT_ARCH_X86_64 0 [0; 7; 4294967296; 0; 0; 0]) _).
  apply (bool_decide_unpack _). vm_compute. exact I.
Defined.

(** C39: a system call made through the x32 ABI, which the kernel reports under the
    same architecture with bit 30 of the number set, is allowed whatever it does,
    so the filter does not keep such a call from leaving the session or changing
    mounts. *)
Theorem x32_calls_are_not_contained seal d :
  data_ok d → arch d = AUDIT_ARCH_X86_64 → 1073741824 ≤ nr d →
  bpf_run (seccomp_filter seal) d = Some SECCOMP_RET_ALLOW.
Proof. intros Hd Ha Hn. rewrite filter_verdict by done. by rewrite policy_allows_x32. Qed.

Lemma x32_calls_are_not_contained_witness :
  bpf_run (seccomp_filter true)
    (mk_data (1073741824 + NR_setsid) AUDIT_ARCH_X86_64 0 [0; 0; 0; 0; 0; 0]) =
  Some SECCOMP_RET_ALLOW.
Proof.
  refine (x32_calls_are_not_contained true
    (mk_data (1073741824 + NR_setsid) AUDIT_ARCH_X86_64 0 [0; 0; 0; 0; 0; 0]) _ _ _).
  - apply (bool_decide_unpack _). vm_compute. exact I.
  - reflexivity.
  - vm_compute. discriminate.
Defined.

(** C20: the filter is well typed for the kernel that loads it. A program that passes
    every check of the kernel (size, forms and widths of instructions, loads inside
    the call's data, jumps inside the program, a return at the end) never gets stuck:
    it has a verdict for every system call. The filter passes them; installing the
    containment hands over only such a program, and reports success only when the
    kernel took it in the last call made. *)
Theorem installed_filter_well_typed {W} `{Kernel W} seal :
  (∀ program d, bpf_check program = true → data_ok d → is_Some (bpf_run program d)) ∧
  bpf_check (seccomp_filter seal) = true ∧
  emits loads_checked_program (install_process_group_containment seal) ∧
  ∀ s s', install_process_group_containment seal s = (Done true, s') →
    ∃ program older, trace s' = Event (sys_prctl_set_seccomp program) (Ok tt) :: older ∧
                     bpf_check program = true.
Proof.
  split; [intros; by apply bpf_check_sound|]. split; [apply seccomp_filter_checked|].
  split.
  - unfold install_process_group_containment. emits_auto; try done.
    split; [apply seccomp_filter_checked|]. intros d. apply bpf_check_sound, seccomp_filter_checked.
  - intros s s' Hrun.
    assert (Hw : wp (install_process_group_containment seal) (λ o s', o = Done true →
      ∃ program older, trace s' = Event (sys_prctl_set_seccomp program) (Ok tt) :: older ∧
                       bpf_check program = true) s).
    { unfold install_process_group_containment. wp_run; try done.
      destruct a0. eexists _, _. split; [reflexivity|apply seccomp_filter_checked]. }
    unfold wp in Hw. rewrite Hrun in Hw.
    by apply Hw.
Qed.

(** A program of one instruction that passes the checks. *)
Definition allow_all : list sock_filter := [mk_filter BPF_RET_K 0 0 SECCOMP_RET_ALLOW].

Lemma installed_filter_well_typed_witness :
  bpf_check allow_all = true ∧
  is_Some (bpf_run allow_all (mk_data NR_setsid AUDIT_ARCH_X86_64 0 [0; 0; 0; 0; 0; 0])).
Proof.
  split; [reflexivity|]. refine (proj1 (installed_filter_well_typed (W := nat)
    (H := scripted (λ n R c, default_answer c)) true) allow_all _ _ _).
  - reflexivity.
  - apply (bool_decide_unpack _). vm_compute. exact I.
Defined.
