(* ===== verification/ResourceLimits.v ===== *)
(** * Exact resource limits (src/resource_limits.cpp)

    Realization of address-space, file-size and open-files limits, and the child
    probe that proves a limit can be installed and sealed. [rlim_t] is the 64-bit
    unsigned integer of the x86-64 ABI. A C++ function that returns [false] and
    fills a [failure] argument returns [inl failure]. *)

From S2P Require Import Prelude Machine Linux Logic Posix Script Pkgexec Containment.

Inductive resource_limit_setup_stage : Set :=
| stage_address_space
| stage_file_size
| stage_open_files.

#[export] Instance resource_limit_setup_stage_eq_dec : EqDecision resource_limit_setup_stage.
Proof. solve_decision. Defined.

Record resource_limit_setup_failure : Set := mk_limit_failure {
  limit_stage : resource_limit_setup_stage;
  limit_error : Z
}.

Definition u64 (v : Z) : Z := v mod 2 ^ 64.

Section limits.
Context {W : Type} `{K : Kernel W}.

(** [exact_value]: the value as an [rlim_t], unless it is the one that means
    "unlimited". The narrowing test is absent where [rlim_t] is 64 bits wide. *)
Definition exact_value (value : Z) : M W (option Z) :=
  let result := u64 value in
  if result =? RLIM_INFINITY then set_errno EOVERFLOW;; mret None
  else mret (Some result).

(** [failure = {stage, errno}; return false]. *)
Definition limit_fail (stage : resource_limit_setup_stage)
    : M W (resource_limit_setup_failure + unit) :=
  e ← get_errno; mret (inl (mk_limit_failure stage e)).

Definition setup_one (resource value : Z) (stage : resource_limit_setup_stage)
    : M W (resource_limit_setup_failure + unit) :=
  exact ← exact_value value;
  match exact with
  | None => limit_fail stage
  | Some exact =>
      inherited ← attempt (sys_getrlimit resource);
      match inherited with
      | None => limit_fail stage
      | Some inherited =>
          if negb (rlim_max inherited =? RLIM_INFINITY) && (rlim_max inherited <? exact) then
            mret (inl (mk_limit_failure stage EPERM))
          else
            set ← succeeds (sys_setrlimit resource (mk_rlimit exact exact));
            if negb set then limit_fail stage
            else
              observed ← attempt (sys_getrlimit resource);
              match observed with
              | None => limit_fail stage
              | Some observed =>
                  if negb (rlim_cur observed =? exact) || negb (rlim_max observed =? exact)
                  then mret (inl (mk_limit_failure stage EIO))
                  else mret (inr tt)
              end
      end
  end.

(** One conjunct of [setup_resource_limits]: set the limit if it was requested. *)
Definition setup_requested (resource : Z) (value : option Z) (stage : resource_limit_setup_stage)
    : M W (resource_limit_setup_failure + unit) :=
  match value with
  | None => mret (inr tt)
  | Some v => setup_one resource v stage
  end.

Definition setup_resource_limits (l : resource_limits)
    : M W (resource_limit_setup_failure + unit) :=
  r ← setup_requested RLIMIT_AS (address_space_bytes l) stage_address_space;
  match r with
  | inl f => mret (inl f)
  | inr _ =>
      r ← setup_requested RLIMIT_FSIZE (file_size_bytes l) stage_file_size;
      match r with
      | inl f => mret (inl f)
      | inr _ => setup_requested RLIMIT_NOFILE (open_files l) stage_open_files
      end
  end.

Definition probe_value (resource preferred : Z) : M W (option Z) :=
  inherited ← attempt (sys_getrlimit resource);
  match inherited with
  | None => mret None
  | Some inherited =>
      let candidate := u64 preferred in
      if candidate =? RLIM_INFINITY then mret None
      else
        let ceiling := rlim_max inherited in
        if negb (ceiling =? RLIM_INFINITY) && (ceiling <=? candidate) then
          if ceiling <=? 2 then mret None
          else if (ceiling - 1 =? 0) || (ceiling - 1 =? RLIM_INFINITY) then mret None
          else mret (Some (ceiling - 1))
        else if (candidate =? 0) || (candidate =? RLIM_INFINITY) then mret None
        else mret (Some candidate)
  end.

(** The child branch of [probe_one]; it always leaves through [_exit]. *)
Definition probe_one_child `{Pkgexec} (kind : resource_limit_kind) (resource preferred : Z)
    : M W bool :=
  value ← probe_value resource preferred;
  match value with
  | None => exit_process 1
  | Some value =>
      let given (k : resource_limit_kind) := if decide (kind = k) then Some value else None in
      let limits := limits_make None (given limit_address_space) (given limit_file_size)
                      (given limit_open_files) None in
      r ← setup_resource_limits limits;
      match r with
      | inl _ => exit_process 1
      | inr _ =>
          contained ← install_process_group_containment true;
          if negb contained then exit_process 1
          else
            let attempted := u64 (value + 1) in
            set_errno 0;;
            raised ← succeeds (sys_setrlimit resource (mk_rlimit attempted attempted));
            e ← get_errno;
            if raised || negb (e =? EPERM) then exit_process 1
            else
              observed ← attempt (sys_getrlimit resource);
              match observed with
              | None => exit_process 1
              | Some observed =>
                  if negb (rlim_cur observed =? u64 value) || negb (rlim_max observed =? u64 value)
                  then exit_process 1
                  else exit_process 0
              end
      end
  end.

Definition probe_one `{Pkgexec} (fuel : nat) (kind : resource_limit_kind)
    (resource preferred : Z) : M W bool :=
  forked ← attempt sys_fork;
  match forked with
  | None => mret false
  | Some child =>
      if child =? 0 then probe_one_child kind resource preferred
      else
        status ← wait_child fuel child;
        mret (exited_zero status)
  end.

Definition probe_address_space_limit `{Pkgexec} (fuel : nat) : M W bool :=
  probe_one fuel limit_address_space RLIMIT_AS (64 * 1024 * 1024).
Definition probe_file_size_limit `{Pkgexec} (fuel : nat) : M W bool :=
  probe_one fuel limit_file_size RLIMIT_FSIZE (1024 * 1024).
Definition probe_open_files_limit `{Pkgexec} (fuel : nat) : M W bool :=
  probe_one fuel limit_open_files RLIMIT_NOFILE 64.

End limits.

Definition resource_limit_stage_name (stage : resource_limit_setup_stage) : string :=
  match stage with
  | stage_address_space => "address-space resource limit"
  | stage_file_size => "file-size resource limit"
  | stage_open_files => "open-files resource limit"
  end.

(** ** What the limit calls of a kernel do

    [limit_of w r] is the pair of limits of resource [r] in kernel state [w]:
    [getrlimit] reads it and changes nothing, [setrlimit] changes that of no other
    resource. Nothing is assumed of the limits a [setrlimit] leaves for its own
    resource, whether it succeeds or fails: the code reads them back. *)
Class RlimitLaws (W : Type) `{Kernel W} : Type := {
  limit_of : W → Z → rlimit;
  getrlimit_reads : ∀ r w l w',
    kernel_run (sys_getrlimit r) w = (Ok l, w') → l = limit_of w r;
  getrlimit_keeps : ∀ r w a w',
    kernel_run (sys_getrlimit r) w = (a, w') → limit_of w' = limit_of w;
  setrlimit_confined : ∀ r l w a w' r',
    kernel_run (sys_setrlimit r l) w = (a, w') → r' ≠ r → limit_of w' r' = limit_of w r'
}.

(** A requested value that exact realization can admit under a hard ceiling. *)
Definition admissible (ceiling v : Z) : Prop :=
  v ≠ RLIM_INFINITY ∧ (ceiling = RLIM_INFINITY ∨ v ≤ ceiling).

(** The pair of limits a request leaves: its exact value twice, or what was there. *)
Definition realized (before : rlimit) (request : option Z) : rlimit :=
  match request with None => before | Some v => mk_rlimit v v end.

(** Rewrite the answers of limit calls in the context into facts about [limit_of]. *)
Ltac use_rlimit_laws :=
  repeat match goal with
  | H : kernel_run (sys_getrlimit _) _ = (Ok _, _) |- _ =>
      pose proof (getrlimit_reads _ _ _ _ H); pose proof (getrlimit_keeps _ _ _ _ H); clear H
  | H : kernel_run (sys_getrlimit _) _ = (Err _, _) |- _ =>
      pose proof (getrlimit_keeps _ _ _ _ H); clear H
  | H : kernel_run (sys_setrlimit _ _) _ = (_, _) |- _ =>
      pose proof (λ r, setrlimit_confined _ _ _ _ _ r H); clear H
  end.

Section laws.
Context {W : Type} `{K : Kernel W} `{L : !RlimitLaws W}.

Lemma u64_small v : 0 ≤ v < 2 ^ 64 → u64 v = v.
Proof. intros. by apply Z.mod_small. Qed.

Lemma read_back_exact l v :
  negb (rlim_cur l =? v) || negb (rlim_max l =? v) = false → l = mk_rlimit v v.
Proof.
  destruct l as [c m]. simpl. intros [E1 E2]%orb_false_iff.
  by apply negb_false_iff, Z.eqb_eq in E1 as ->; apply negb_false_iff, Z.eqb_eq in E2 as ->.
Qed.

Lemma wp_setup_one resource value stage (s : mstate W) :
  0 ≤ value < 2 ^ 64 →
  wp (setup_one resource value stage) (λ o s',
    match o with
    | Done (inr _) =>
        admissible (rlim_max (limit_of (world s) resource)) value ∧
        ∀ r, limit_of (world s') r =
             if r =? resource then mk_rlimit value value else limit_of (world s) r
    | Done (inl f) =>
        limit_stage f = stage ∧
        ∀ r, r ≠ resource → limit_of (world s') r = limit_of (world s) r
    | _ => False
    end) s.
Proof.
  intros Hv. unfold setup_one, exact_value, limit_fail. rewrite u64_small by done.
  wp_step. destruct (value =? RLIM_INFINITY) eqn:Ei; wp_run; simpl in *; try done.
  all: use_rlimit_laws; simpl in *.
  all: split; [try done; subst; unfold admissible; lia|].
  all: intros r; repeat match goal with
         | E : ∀ r', r' ≠ _ → limit_of _ r' = _ |- _ => specialize (E r)
         | E : limit_of ?w = _ |- context [limit_of ?w _] => rewrite E
         | E : limit_of ?w = _, F : context [limit_of ?w _] |- _ => rewrite E in F
         end; try solve [intuition congruence].
  destruct (Z.eqb_spec r resource) as [->|Hr]; [|auto].
  by apply read_back_exact; subst.
Qed.

Lemma wp_setup_requested resource value stage (s : mstate W) :
  (∀ v, value = Some v → 0 ≤ v < 2 ^ 64) →
  wp (setup_requested resource value stage) (λ o s',
    match o with
    | Done (inr _) =>
        (∀ v, value = Some v → admissible (rlim_max (limit_of (world s) resource)) v) ∧
        ∀ r, limit_of (world s') r =
             if r =? resource then realized (limit_of (world s) resource) value
             else limit_of (world s) r
    | Done (inl f) =>
        value ≠ None ∧ limit_stage f = stage ∧
        ∀ r, r ≠ resource → limit_of (world s') r = limit_of (world s) r
    | _ => False
    end) s.
Proof.
  intros Hv. unfold setup_requested. destruct value as [v|].
  - eapply wp_mono; [apply wp_setup_one; auto|]. intros [[f|[]]|x|c|] s' H; simpl; try done.
    destruct H as [Ha Hl]. split; [by intros ? [= <-]|done].
  - apply wp_ret. split; [done|]. intros r. simpl. destruct (Z.eqb_spec r resource); by subst.
Qed.

(** The three requests of a limit set, with their resources and stages. *)
Definition requests (l : resource_limits) : list (Z * option Z * resource_limit_setup_stage) :=
  [(RLIMIT_AS, address_space_bytes l, stage_address_space);
   (RLIMIT_FSIZE, file_size_bytes l, stage_file_size);
   (RLIMIT_NOFILE, open_files l, stage_open_files)].

Definition request_for (l : resource_limits) (r : Z) : option Z :=
  if r =? RLIMIT_AS then address_space_bytes l
  else if r =? RLIMIT_FSIZE then file_size_bytes l
  else if r =? RLIMIT_NOFILE then open_files l
  else None.

(** Every requested value is a 64-bit number. *)
Definition limits_ok (l : resource_limits) : Prop :=
  ∀ r v, request_for l r = Some v → 0 ≤ v < 2 ^ 64.

Lemma wp_setup_resource_limits l (s : mstate W) :
  limits_ok l →
  wp (setup_resource_limits l) (λ o s',
    match o with
    | Done (inr _) =>
        ∀ r, limit_of (world s') r = realized (limit_of (world s) r) (request_for l r) ∧
             ∀ v, request_for l r = Some v → admissible (rlim_max (limit_of (world s) r)) v
    | Done (inl f) =>
        ∃ r q, (r, q, limit_stage f) ∈ requests l ∧ q ≠ None
    | _ => False
    end) s.
Proof.
  intros Hok. unfold setup_resource_limits.
  apply wp_bind. eapply wp_mono; [apply wp_setup_requested; apply (Hok RLIMIT_AS)|].
  intros [[f|[]]|x|c|] s1 H1; simpl; try done.
  { apply wp_ret. exists RLIMIT_AS, (address_space_bytes l). destruct H1 as (? & -> & _).
    split; [|done]. unfold requests. set_solver. }
  destruct H1 as [A1 E1].
  apply wp_bind. eapply wp_mono; [apply wp_setup_requested; apply (Hok RLIMIT_FSIZE)|].
  intros [[f|[]]|x|c|] s2 H2; simpl; try done.
  { apply wp_ret. exists RLIMIT_FSIZE, (file_size_bytes l). destruct H2 as (? & -> & _).
    split; [|done]. unfold requests. set_solver. }
  destruct H2 as [A2 E2].
  eapply wp_mono; [apply wp_setup_requested; apply (Hok RLIMIT_NOFILE)|].
  intros [[f|[]]|x|c|] s3 H3; simpl; try done.
  { exists RLIMIT_NOFILE, (open_files l). destruct H3 as (? & -> & _).
    split; [|done]. unfold requests. set_solver. }
  destruct H3 as [A3 E3]. rewrite E2 in A3. simpl in A3. rewrite E1 in A2, A3. simpl in A2, A3.
  intros r. rewrite E3, !E2, !E1. unfold request_for.
  destruct (Z.eqb_spec r RLIMIT_AS) as [->|]; [split; [done|exact A1]|].
  destruct (Z.eqb_spec r RLIMIT_FSIZE) as [->|]; [split; [done|exact A2]|].
  destruct (Z.eqb_spec r RLIMIT_NOFILE) as [->|]; [split; [done|exact A3]|done].
Qed.

End laws.

Lemma wp_probe_value {W} `{Kernel W} resource preferred (s : mstate W) :
  0 ≤ preferred < 2 ^ 64 →
  wp (probe_value resource preferred) (λ o s',
    ∃ answer, trace s' = Event (sys_getrlimit resource) answer :: trace s ∧
    match o with
    | Done (Some v) =>
        ∃ l, answer = Ok l ∧ v ≤ preferred ∧ v < RLIM_INFINITY ∧
             (0 ≤ rlim_max l → 0 < v) ∧ (rlim_max l = RLIM_INFINITY ∨ v < rlim_max l)
    | Done None => True
    | _ => False
    end) s.
Proof.
  intros Hp. unfold probe_value. rewrite u64_small by done. unfold RLIM_INFINITY, UINT64_MAX in *.
  wp_run; eexists; (split; [reflexivity|]); try done; exists a; (split; [done|]); lia.
Qed.

(** A kernel with nothing but limits, for a process without privileges: a hard
    limit is never raised. *)
Definition limit_kernel : Kernel (Z → rlimit) := {|
  kernel_run := λ R c w,
    match c in call R return R * (Z → rlimit) with
    | sys_getrlimit r => (Ok (w r), w)
    | sys_setrlimit r l =>
        if (rlim_max l <=? rlim_max (w r)) && (rlim_cur l <=? rlim_max l)
        then (Ok tt, λ r', if r' =? r then l else w r')
        else (Err EPERM, w)
    | c => (default_answer c, w)
    end |}.

#[export] Instance limit_kernel_laws : @RlimitLaws _ limit_kernel.
Proof.
  refine {| limit_of := λ (w : Z → rlimit) r, w r |}; simpl.
  - by intros r w l w' [= <- <-].
  - by intros r w a w' [= <- <-].
  - intros r l w a w' r'. destruct (_ && _); intros [= <- <-]; [|done].
    by destruct (Z.eqb_spec r' r).
Defined.

Lemma wp_install {W} `{Kernel W} seal (s : mstate W) :
  wp (install_process_group_containment seal) (λ o s',
    match o with
    | Done true =>
        trace s' = Event (sys_prctl_set_seccomp (seccomp_filter seal)) (Ok tt) ::
                   Event sys_prctl_set_no_new_privs (Ok tt) :: trace s
    | Done false => True
    | _ => False
    end) s.
Proof. unfold install_process_group_containment. simpl negb. wp_run; simpl in *; by destruct_units. Qed.

Lemma wp_setup_returns {W} `{Kernel W} l (s : mstate W) :
  wp (setup_resource_limits l) (λ o _, match o with Done _ => True | _ => False end) s.
Proof.
  unfold setup_resource_limits, setup_requested, setup_one, exact_value, limit_fail. wp_run; done.
Qed.

Lemma wp_probe_value_returns {W} `{Kernel W} resource preferred (s : mstate W) :
  wp (probe_value resource preferred) (λ o _, match o with Done _ => True | _ => False end) s.
Proof. unfold probe_value. wp_run; done. Qed.

(** The evidence a probe child leaves behind when it exits with 0. *)
Definition limit_evidence (resource v : Z) (older : list event) : list event :=
  Event (sys_getrlimit resource) (Ok (mk_rlimit (u64 v) (u64 v))) ::
  Event (sys_setrlimit resource (mk_rlimit (u64 (v + 1)) (u64 (v + 1)))) (Err EPERM) ::
  Event (sys_prctl_set_seccomp (seccomp_filter true)) (Ok tt) ::
  Event sys_prctl_set_no_new_privs (Ok tt) :: older.

Lemma emits_setup_limits {W} `{Kernel W} l : emits anything (setup_resource_limits l).
Proof.
  assert (∀ resource value stage, emits anything (setup_requested resource value stage)).
  { intros. unfold setup_requested, setup_one, exact_value, limit_fail. emits_auto; done. }
  unfold setup_resource_limits. emits_auto; auto.
Qed.

Lemma wp_probe_one_child {W} `{Kernel W} `{Pkgexec} kind resource preferred (s : mstate W) :
  wp (probe_one_child kind resource preferred) (λ o s',
    o = Exited 1 ∨ o = Exited 0 ∧ ∃ v older, trace s' = limit_evidence resource v older ∧
                                  ∃ evs, older = evs ++ trace s) s.
Proof.
  unfold probe_one_child. apply wp_bind.
  eapply wp_mono; [apply wp_and; [apply wp_probe_value_returns|apply (emits_wp_after anything)]|].
  { unfold probe_value. emits_auto; done. }
  intros [[v|]|x|c|] s0 [Hv [e0 E0]]; try done; simpl; [|wp_run; auto].
  apply wp_bind. eapply wp_mono; [apply wp_and; [apply wp_setup_returns|
    apply (emits_wp_after anything), emits_setup_limits]|].
  intros [[f|u]|x|c|] s1 [Hs [e1 E1]]; try done; simpl; [wp_run; auto|].
  apply wp_bind. eapply wp_mono; [apply wp_install|].
  intros [[]|x|c|] s2 Hi; try done; simpl; wp_run; auto; try discriminate.
  right. split; [done|]. exists v, (trace s1). split.
  - simpl in *. rewrite Hi. unfold limit_evidence.
    match goal with l : rlimit |- _ => destruct l end. simpl in *. repeat f_equal; lia.
  - exists (e1 ++ e0). by rewrite E1, E0, app_assoc.
Qed.

(** ** Properties *)

(** C10: on a kernel whose limit calls behave, realization is exact and never
    raises a ceiling: when it succeeds every requested resource has its value as
    both soft and hard limit, every such value was finite and within the inherited
    hard limit, and no other limit moved; when it fails, the reported stage is that
    of a limit that was requested. It always returns. *)
Theorem setup_resource_limits_exact {W} `{Kernel W} `{!RlimitLaws W} l (s : mstate W) :
  limits_ok l →
  wp (setup_resource_limits l) (λ o s',
    match o with
    | Done (inr _) =>
        ∀ r, limit_of (world s') r = realized (limit_of (world s) r) (request_for l r) ∧
             ∀ v, request_for l r = Some v → admissible (rlim_max (limit_of (world s) r)) v
    | Done (inl f) => ∃ r q, (r, q, limit_stage f) ∈ requests l ∧ q ≠ None
    | _ => False
    end) s.
Proof. apply wp_setup_resource_limits. Qed.

Definition sample_limits : resource_limits := mk_limits (Some 67108864) None (Some 64) false.
Definition sample_world : Z → rlimit := λ _, mk_rlimit 1024 RLIM_INFINITY.

Lemma setup_resource_limits_exact_witness :
  limits_ok sample_limits ∧
  world (setup_resource_limits (K := limit_kernel) sample_limits (start sample_world)).2
    RLIMIT_NOFILE = mk_rlimit 64 64.
Proof.
  assert (limits_ok sample_limits) as H.
  { intros r v. unfold request_for. simpl.
    repeat destruct (_ =? _); simpl; intros [= <-]; lia. }
  split; [exact H|].
  exact (proj1 (setup_resource_limits_exact (H := limit_kernel) sample_limits
    (start sample_world) H RLIMIT_NOFILE)).
Defined.

(** C37: the value a limit probe tries is positive, at most the preferred one,
    finite, and strictly below the inherited hard limit, so that raising it by one
    is representable and would have been within the old ceiling. *)
Theorem probe_value_bounds {W} `{Kernel W} resource preferred (s : mstate W) :
  0 ≤ preferred < 2 ^ 64 →
  wp (probe_value resource preferred) (λ o s',
    ∃ answer, trace s' = Event (sys_getrlimit resource) answer :: trace s ∧
    match o with
    | Done (Some v) =>
        ∃ l, answer = Ok l ∧ v ≤ preferred ∧ v < RLIM_INFINITY ∧
             (0 ≤ rlim_max l → 0 < v) ∧ (rlim_max l = RLIM_INFINITY ∨ v < rlim_max l)
    | Done None => True
    | _ => False
    end) s.
Proof. apply wp_probe_value. Qed.

Lemma probe_value_bounds_witness :
  (probe_value (K := limit_kernel) RLIMIT_NOFILE 64 (start (λ _, mk_rlimit 16 16))).1 =
    Done (Some 15) ∧
  ∃ answer, trace (probe_value (K := limit_kernel) RLIMIT_NOFILE 64
                     (start (λ _, mk_rlimit 16 16))).2 =
            Event (sys_getrlimit RLIMIT_NOFILE) answer :: [].
Proof.
  split; [reflexivity|].
  destruct (probe_value_bounds (H := limit_kernel) RLIMIT_NOFILE 64 (start (λ _, mk_rlimit 16 16))
    ltac:(lia)) as (answer & E & _).
  exists answer. exact E.
Defined.

(** A limit probe is evidence: the child exits with 0 only after it installed
    the sealing filter, saw an attempt to raise the limit by one fail with EPERM,
    and then read both limits back unchanged; every other path exits with 1. *)
Theorem probe_one_child_evidence {W} `{Kernel W} `{Pkgexec} kind resource preferred (s : mstate W) :
  wp (probe_one_child kind resource preferred) (λ o s',
    o = Exited 1 ∨ o = Exited 0 ∧ ∃ v older, trace s' = limit_evidence resource v older ∧
                                  ∃ evs, older = evs ++ trace s) s.
Proof. apply wp_probe_one_child. Qed.

(** A probe whose child cannot be waited for reports success: when waitpid
    fails for a reason other than EINTR (for instance ECHILD, because the
    application ignores SIGCHLD) the status keeps its initial 0. *)
Theorem probe_one_unwaitable_child {W} `{Kernel W} `{Pkgexec} fuel kind resource preferred
    (s : mstate W) child w e w' :
  kernel_run sys_fork (world s) = (Ok child, w) → child ≠ 0 →
  kernel_run (sys_waitpid child) w = (Err e, w') → e ≠ EINTR →
  (probe_one (S fuel) kind resource preferred s).1 = Done true.
Proof.
  intros Hf Hc Hw He.
  change (wp (probe_one (S fuel) kind resource preferred) (λ o _, o = Done true) s).
  unfold probe_one. wp_step. eapply wp_attempt_ok; [exact Hf|]. simpl.
  rewrite (proj2 (Z.eqb_neq child 0) Hc). wp_step.
  unfold wp at 1. by erewrite wait_child_failed.
Qed.

Definition unwaitable : nat → ∀ R, call R → R := λ _ R c,
  match c in call R return R with
  | sys_fork => Ok 7
  | sys_waitpid _ => Err ECHILD
  | c => default_answer c
  end.

Lemma probe_one_unwaitable_child_witness :
  (probe_one (K := scripted unwaitable) (H := plain_pkgexec) 1 limit_open_files RLIMIT_NOFILE 64 (start 0%nat)).1 =
  Done true.
Proof.
  apply (probe_one_unwaitable_child (H := scripted unwaitable) (H0 := plain_pkgexec) 0 limit_open_files RLIMIT_NOFILE 64
    (start 0%nat) 7 1%nat ECHILD 2%nat); [reflexivity|discriminate|reflexivity|discriminate].
Defined.
