(* ===== verification/ProcFs.v ===== *)
(** * Reading /proc (src/process_control.cpp)

    [numeric_name], the parser of /proc/<pid>/stat inside [process_group_of] and
    the directory scan [process_ids], with the parts of the C library they use:
    [std::string::rfind], [sscanf] with "%c %ld %ld", [strtol], and
    [std::to_string] (stdpp's [pretty]). *)

From Stdlib Require Import Ascii.
From stdpp Require Import pretty.
From S2P Require Import Prelude Machine Linux Logic Posix Script.

Local Open Scope string_scope.
Local Open Scope Z_scope.

Definition ERANGE : Z := 34.

(** ** Characters and numbers *)
Definition digit_value (c : Ascii.ascii) : Z := Z.of_N (Ascii.N_of_ascii c) - 48.
Definition is_digit (c : Ascii.ascii) : bool :=
  (0 <=? digit_value c) && (digit_value c <=? 9).

(** [isspace] in the C locale. *)
Definition is_space (c : Ascii.ascii) : bool :=
  let n := Z.of_N (Ascii.N_of_ascii c) in (n =? 32) || ((9 <=? n) && (n <=? 13)).

Fixpoint all_digits (s : string) : bool :=
  match s with
  | EmptyString => true
  | String c s' => is_digit c && all_digits s'
  end.

Definition numeric_name (value : string) : bool :=
  match value with
  | EmptyString => false
  | _ => all_digits value
  end.

(** Read the longest run of digits, in front of which [acc] was read. *)
Fixpoint scan_digits (acc : Z) (s : string) : Z * string :=
  match s with
  | String c s' => if is_digit c then scan_digits (acc * 10 + digit_value c) s' else (acc, s)
  | EmptyString => (acc, s)
  end.

Fixpoint skip_space (s : string) : string :=
  match s with
  | String c s' => if is_space c then skip_space s' else s
  | EmptyString => s
  end.

Definition starts_with_digit (s : string) : bool :=
  match s with String c _ => is_digit c | EmptyString => false end.

Definition LONG_MIN : Z := - LONG_MAX - 1.
Definition clamp_long (v : Z) : Z := Z.max LONG_MIN (Z.min LONG_MAX v).

(** The conversion "%ld": white space, an optional sign, at least one digit. *)
Definition scan_long (s : string) : option (Z * string) :=
  let s := skip_space s in
  let '(negative, body) :=
    match s with
    | String "-"%char s' => (true, s')
    | String "+"%char s' => (false, s')
    | _ => (false, s)
    end in
  if starts_with_digit body then
    let '(v, rest) := scan_digits 0 body in
    Some (clamp_long (if negative then - v else v), rest)
  else None.

(** [sscanf(s, "%c %ld %ld", &state, &parent, &group) == 3]: the group. A blank in
    the format skips any white space. *)
Definition scan_stat (s : string) : option Z :=
  match s with
  | EmptyString => None
  | String _ s1 =>
      match scan_long (skip_space s1) with
      | None => None
      | Some (_, s2) =>
          match scan_long (skip_space s2) with
          | None => None
          | Some (group, _) => Some group
          end
      end
  end.

Fixpoint rfind (c : Ascii.ascii) (s : string) : option nat :=
  match s with
  | EmptyString => None
  | String a s' =>
      match rfind c s' with
      | Some i => Some (S i)
      | None => if Ascii.eqb a c then Some O else None
      end
  end.

Fixpoint string_drop (n : nat) (s : string) : string :=
  match n, s with
  | O, _ => s
  | S n', String _ s' => string_drop n' s'
  | S _, EmptyString => EmptyString
  end.

(** [process_group_of] after the line was read. *)
Definition group_of_line (line : string) : option Z :=
  match rfind ")"%char line with
  | None => None
  | Some close =>
      if (String.length line <=? close + 2)%nat then None
      else
        match scan_stat (string_drop (close + 2) line) with
        | None => None
        | Some parsed_group =>
            if (parsed_group <=? 0) || (INT_MAX <? parsed_group) then None else Some parsed_group
        end
  end.

Definition stat_path (process : Z) : string := "/proc/" +:+ pretty process +:+ "/stat".

(** [strtol(name, &end, 10)] on a name of digits: the value, clamped, and whether
    it was out of range; all of the name is consumed. *)
Definition strtol_digits (name : string) : Z * bool :=
  let v := (scan_digits 0 name).1 in (clamp_long v, LONG_MAX <? v).

Section proc.
Context {W : Type} `{K : Kernel W}.

Definition process_group_of (process : Z) : M W (option Z) :=
  line ← issue (sys_getline (stat_path process));
  match line with
  | None => mret None
  | Some line => mret (group_of_line line)
  end.

(** The loop over the directory entries; [found] is the vector so far. *)
Fixpoint scan_entries (fuel : nat) (directory : Z) (found : list Z) : M W (list Z) :=
  match fuel with
  | O => out_of_fuel
  | S n =>
      r ← issue (sys_readdir directory);
      match r with
      | Err e => set_errno e;; mret found
      | Ok None => mret found
      | Ok (Some name) =>
          if negb (numeric_name name) then scan_entries n directory found
          else
            let '(value, overflow) := strtol_digits name in
            set_errno (if overflow : bool then ERANGE else 0);;
            e ← get_errno;
            if (e =? 0) && (0 <? value) && (value <=? INT_MAX)
            then scan_entries n directory (found ++ [value])
            else scan_entries n directory found
      end
  end.

(** [None] stands for [false]. *)
Definition process_ids (fuel : nat) : M W (option (list Z)) :=
  directory ← attempt (sys_opendir "/proc");
  match directory with
  | None => mret None
  | Some directory =>
      set_errno 0;;
      found ← scan_entries fuel directory [];
      saved ← get_errno;
      closed ← succeeds (sys_closedir directory);
      mret (if closed && (saved =? 0) then Some found else None)
  end.

End proc.

(** ** The text the kernel prints *)

(** A line of /proc/<pid>/stat up to the process group; [comm] is arbitrary. *)
Definition stat_line (pid : Z) (comm : string) (state : Ascii.ascii) (parent group : Z)
    (rest : string) : string :=
  pretty pid +:+ " (" +:+ comm +:+ ") " +:+
  String state (" " +:+ pretty parent +:+ " " +:+ pretty group +:+ " " +:+ rest).

Fixpoint lacks (c : Ascii.ascii) (s : string) : bool :=
  match s with
  | EmptyString => true
  | String a s' => negb (Ascii.eqb a c) && lacks c s'
  end.

Lemma rfind_app c s t :
  rfind c (s +:+ t) =
  match rfind c t with
  | Some i => Some (String.length s + i)%nat
  | None => rfind c s
  end.
Proof.
  induction s as [|a s IH]; [by change ("" +:+ t) with t; destruct (rfind c t)|]. simpl.
  rewrite IH. by destruct (rfind c t).
Qed.

Lemma rfind_lacks c s : lacks c s = true → rfind c s = None.
Proof.
  induction s as [|a s IH]; simpl; [done|]. intros [Ha Hs]%andb_prop.
  rewrite IH by done. by destruct (Ascii.eqb a c).
Qed.

Lemma lacks_app c s t : lacks c (s +:+ t) = lacks c s && lacks c t.
Proof. induction s as [|a s IH]; simpl; [done|]. by rewrite IH, andb_assoc. Qed.

Lemma string_app_assoc s t u : s +:+ t +:+ u = (s +:+ t) +:+ u.
Proof. induction s as [|a s IH]; [done|].
  change (String a s +:+ ?x) with (String a (s +:+ x)). by rewrite IH. Qed.

Lemma string_length_app s t : String.length (s +:+ t) = (String.length s + String.length t)%nat.
Proof. induction s as [|a s IH]; [done|]. simpl. by rewrite IH. Qed.

Lemma string_drop_app s t n : string_drop (String.length s + n) (s +:+ t) = string_drop n t.
Proof. induction s as [|a s IH]; simpl; done. Qed.

Lemma pretty_N_char_digit x :
  (x < 10)%N → is_digit (pretty_N_char x) = true ∧ digit_value (pretty_N_char x) = Z.of_N x.
Proof.
  intros H. destruct x as [|p]; [done|].
  do 4 (destruct p as [p|p|]; try done).
Qed.

Lemma scan_digits_pretty_go x s : scan_digits 0 (pretty_N_go x s) = scan_digits (Z.of_N x) s.
Proof.
  revert s. induction (N.lt_wf_0 x) as [x _ IH]; intros s.
  destruct (decide (0 < x)%N) as [Hx|Hx].
  - rewrite pretty_N_go_step by done. rewrite IH by (apply N.div_lt; lia). simpl.
    destruct (pretty_N_char_digit (x mod 10)) as [-> ->]; [apply N.mod_lt; lia|].
    f_equal. rewrite (N.div_mod x 10) at 3 by done. lia.
  - assert (x = 0%N) as -> by lia. done.
Qed.

Lemma pretty_N_go_app x s t : pretty_N_go x s +:+ t = pretty_N_go x (s +:+ t).
Proof.
  revert s. induction (N.lt_wf_0 x) as [x _ IH]; intros s.
  destruct (decide (0 < x)%N) as [Hx|Hx].
  - rewrite (pretty_N_go_step x s), (pretty_N_go_step x (s +:+ t)) by done.
    rewrite IH by (apply N.div_lt; lia). done.
  - assert (x = 0%N) as -> by lia. by rewrite !pretty_N_go_0.
Qed.

Lemma pretty_N_go_starts x s : (0 < x)%N → starts_with_digit (pretty_N_go x s) = true.
Proof.
  revert s. induction (N.lt_wf_0 x) as [x _ IH]; intros s Hx.
  rewrite pretty_N_go_step by done.
  destruct (N.eq_0_gt_0_cases (x `div` 10)) as [->|Hy];
    [|apply IH; [apply N.div_lt; lia|done]]. rewrite pretty_N_go_0. simpl.
  apply pretty_N_char_digit. apply N.mod_lt. lia.
Qed.

(** A printed number, followed by anything, as a run of digits. *)
Lemma pretty_scan v rest :
  0 ≤ v → starts_with_digit (pretty v +:+ rest) = true ∧
          scan_digits 0 (pretty v +:+ rest) = scan_digits v rest.
Proof.
  intros Hv. destruct v as [|p|p]; [done| |lia].
  change (pretty (Z.pos p)) with (pretty_N_go (N.pos p) "").
  rewrite pretty_N_go_app. split; [by apply pretty_N_go_starts|].
  by rewrite scan_digits_pretty_go.
Qed.

Lemma digit_not_space c : is_digit c = true → is_space c = false.
Proof.
  unfold is_digit, is_space, digit_value. cbv zeta. intros H. lia.
Qed.

Lemma skip_space_digit s : starts_with_digit s = true → skip_space s = s.
Proof. destruct s as [|c s]; simpl; [done|]. intros H. by rewrite digit_not_space. Qed.

Lemma scan_digits_stop v s : starts_with_digit s = false → scan_digits v s = (v, s).
Proof. destruct s as [|c s]; simpl; [done|]. by intros ->. Qed.

Lemma scan_long_digits s :
  starts_with_digit s = true →
  scan_long s = Some (clamp_long (scan_digits 0 s).1, (scan_digits 0 s).2).
Proof.
  intros H. unfold scan_long. rewrite skip_space_digit by done.
  destruct s as [|c s]; [done|].
  assert (match c with "-"%char => (true, s) | "+"%char => (false, s)
          | _ => (false, String c s) end = (false, String c s)) as E.
  { destruct c as [[] [] [] [] [] [] [] []]; done. }
  destruct c as [[] [] [] [] [] [] [] []]; simpl in E, H |- *; try done;
    by destruct (scan_digits _ s).
Qed.

Lemma scan_long_pretty v rest :
  0 ≤ v ≤ LONG_MAX → starts_with_digit rest = false →
  scan_long (pretty v +:+ rest) = Some (v, rest).
Proof.
  intros Hv Hr. destruct (pretty_scan v rest ltac:(lia)) as [Hd Hs].
  rewrite scan_long_digits, Hs, scan_digits_stop by done. simpl.
  by replace (clamp_long v) with v by (unfold clamp_long, LONG_MIN, LONG_MAX in *; lia).
Qed.

Lemma scan_stat_line state parent group rest :
  0 ≤ parent ≤ INT_MAX → 0 ≤ group ≤ INT_MAX →
  scan_stat (String state (" " +:+ pretty parent +:+ " " +:+ pretty group +:+ " " +:+ rest)) =
  Some group.
Proof.
  intros Hp Hg. unfold scan_stat, INT_MAX, LONG_MAX in *.
  change (skip_space (" " +:+ ?s)) with (skip_space s).
  rewrite skip_space_digit by (by apply pretty_scan; lia).
  rewrite scan_long_pretty by (unfold LONG_MAX; (lia || done)).
  change (skip_space (" " +:+ ?s)) with (skip_space s).
  rewrite skip_space_digit by (by apply pretty_scan; lia).
  by rewrite scan_long_pretty by (unfold LONG_MAX; (lia || done)).
Qed.

Lemma lacks_pretty c v : 0 ≤ v → is_digit c = false → lacks c (pretty v) = true.
Proof.
  intros Hv Hc.
  assert (∀ x s, lacks c s = true → lacks c (pretty_N_go x s) = true) as Hgo.
  { intros x. induction (N.lt_wf_0 x) as [x _ IH]; intros s Hs.
    destruct (decide (0 < x)%N) as [Hx|Hx].
    - rewrite pretty_N_go_step by done. apply IH; [apply N.div_lt; lia|]. simpl. rewrite Hs.
      destruct (pretty_N_char_digit (x mod 10)) as [Hd _]; [apply N.mod_lt; lia|].
      destruct (Ascii.eqb_spec (pretty_N_char (x mod 10)) c) as [<-|]; [congruence|done].
    - assert (x = 0%N) as -> by lia. done. }
  destruct v as [|p|p]; [|by apply Hgo|lia].
  change (pretty 0) with "0". cbn [lacks].
  destruct (Ascii.eqb_spec "0"%char c) as [<-|]; done.
Qed.

Lemma group_of_stat_line pid comm state parent group rest :
  0 ≤ pid → 0 ≤ parent ≤ INT_MAX → 0 < group ≤ INT_MAX →
  Ascii.eqb state ")" = false → lacks ")" rest = true →
  group_of_line (stat_line pid comm state parent group rest) = Some group.
Proof.
  intros Hpid Hparent Hgroup Hstate Hrest. unfold group_of_line, stat_line.
  set (tail := String state _).
  assert (lacks ")" tail = true) as Htail.
  { unfold tail. cbn [lacks]. rewrite Hstate. simpl negb. cbn [andb].
    rewrite !lacks_app, !lacks_pretty, Hrest by (done || lia). done. }
  set (head := (pretty pid +:+ " (") +:+ comm).
  replace (pretty pid +:+ " (" +:+ comm +:+ ") " +:+ tail) with (head +:+ ") " +:+ tail)
    by (unfold head; by rewrite <- !string_app_assoc).
  change (head +:+ ") " +:+ tail) with (head +:+ String ")" (String " " tail)).
  rewrite rfind_app. cbn [rfind]. rewrite rfind_lacks by done. cbn [Ascii.eqb Bool.eqb].
  rewrite Nat.add_0_r, string_length_app, string_drop_app. cbn [String.length string_drop Nat.add].
  rewrite (proj2 (Nat.leb_gt _ _)) by (unfold tail; simpl; lia).
  unfold tail. rewrite scan_stat_line by lia.
  by replace ((group <=? 0) || (INT_MAX <? group)) with false by lia.
Qed.

Lemma group_of_line_range line group : group_of_line line = Some group → 0 < group ≤ INT_MAX.
Proof.
  unfold group_of_line. repeat case_match; intros; simplify_eq. lia.
Qed.

(** ** The scan *)

(** The process ids among directory names. *)
Definition id_of_name (name : string) : option Z :=
  let v := (scan_digits 0 name).1 in
  if numeric_name name && (0 <? v) && (v <=? INT_MAX) then Some v else None.

Lemma scan_digits_nonneg acc s : 0 ≤ acc → 0 ≤ (scan_digits acc s).1.
Proof.
  revert acc. induction s as [|c s IH]; intros acc H; simpl; [done|].
  destruct (is_digit c) eqn:E; [apply IH|done]. unfold is_digit in E. lia.
Qed.

Lemma strtol_digits_id name :
  numeric_name name = true →
  let '(value, overflow) := strtol_digits name in
  ((if overflow : bool then ERANGE else 0) =? 0) && (0 <? value) && (value <=? INT_MAX) =
    bool_decide (is_Some (id_of_name name)) ∧
  (∀ v, id_of_name name = Some v → value = v).
Proof.
  intros Hn. unfold strtol_digits, id_of_name. rewrite Hn. cbn [andb].
  pose proof (scan_digits_nonneg 0 name ltac:(lia)) as Hv.
  set (v := (scan_digits 0 name).1) in *. unfold clamp_long, LONG_MIN, LONG_MAX, INT_MAX, ERANGE in *.
  destruct (9223372036854775807 <? v) eqn:Eo; simpl.
  - replace ((0 <? v) && (v <=? 2147483647)) with false by lia.
    split; [|done]. symmetry. apply bool_decide_eq_false. by intros [? ?].
  - replace (_ `max` (9223372036854775807 `min` v)) with v by lia.
    destruct ((0 <? v) && (v <=? 2147483647)) eqn:E; split; try done; try by intros ? [= <-].
Qed.

Section scan.
Context {W : Type} `{K : Kernel W}.

(** Reading the stream from [w] yields exactly [names], then the end; the stream
    is left in [w']. *)
Inductive lists (directory : Z) : list string → W → W → Prop :=
| lists_end w w' :
    kernel_run (sys_readdir directory) w = (Ok None, w') → lists directory [] w w'
| lists_name name names w w1 w' :
    kernel_run (sys_readdir directory) w = (Ok (Some name), w1) →
    lists directory names w1 w' → lists directory (name :: names) w w'.

(** Names that are numbers are numbers [strtol] can represent. *)
Definition representable (name : string) : Prop :=
  numeric_name name = true → (scan_digits 0 name).1 ≤ LONG_MAX.

Lemma scan_entries_lists directory names w w' :
  lists directory names w w' → Forall representable names →
  ∀ fuel found tr, (length names < fuel)%nat →
  ∃ tr', scan_entries fuel directory found (MState w 0 tr) =
         (Done (found ++ omap id_of_name names)%list, MState w' 0 tr').
Proof.
  intros Hl. induction Hl as [w w' E|name names w w1 w' E Hl IH]; intros Hr fuel found tr Hf;
    (destruct fuel as [|n]; [simpl in Hf; lia|]); cbn [scan_entries];
    unfold mbind at 1, M_bind, issue; cbn [world errno]; rewrite E; cbn [omap list_omap].
  - rewrite app_nil_r. by eexists.
  - apply Forall_cons_iff in Hr as [Hn Hr]. simpl in Hf.
    destruct (numeric_name name) eqn:En; cbn [negb].
    + pose proof (strtol_digits_id name En) as Hs. specialize (Hn En).
      unfold strtol_digits in *. destruct Hs as [Hb Hv].
      replace (LONG_MAX <? (scan_digits 0 name).1) with false in * by lia.
      unfold mbind at 1, M_bind, set_errno; cbn [errno world trace].
      unfold mbind at 1, M_bind, get_errno; cbn [errno world trace]. rewrite Hb.
      destruct (id_of_name name) as [v|] eqn:Ei; simpl.
      * rewrite (Hv v eq_refl).
        destruct (IH Hr n (found ++ [v])%list (Event (sys_readdir directory) (Ok (Some name)) :: tr))
          as [tr' E']; [lia|]. rewrite E'. rewrite <- app_assoc. by eexists.
      * apply IH; [done|lia].
    + replace (id_of_name name) with (@None Z) by (unfold id_of_name; by rewrite En).
      apply IH; [done|lia].
Qed.

(** What a scan reported as complete left in the trace (newest first): /proc was
    opened, every entry up to the end of the directory was read without an error, the
    directory was closed; [ids] are the process ids among the names. *)
Definition entry_read (directory : Z) (name : string) : event :=
  Event (sys_readdir directory) (Ok (Some name)).

Definition at_end (answer : res (option string)) : Prop :=
  match answer with Ok None => True | Ok (Some _) => False | Err e => e = 0 end.

Definition whole_scan (ids : list Z) (evs : list event) : Prop :=
  ∃ directory names last, at_end last ∧ ids = omap id_of_name names ∧
    evs = Event (sys_closedir directory) (Ok tt) :: Event (sys_readdir directory) last ::
          reverse (entry_read directory <$> names) ++ [Event (sys_opendir "/proc") (Ok directory)].

Lemma wp_scan_entries fuel directory found (s : mstate W) :
  wp (scan_entries fuel directory found) (λ o s', ∀ ids, o = Done ids →
    ∃ names last, ids = (found ++ omap id_of_name names)%list ∧
      (match last with Ok (Some _) => False | Ok None => True | Err e => errno s' = e end) ∧
      trace s' = Event (sys_readdir directory) last ::
                 reverse (entry_read directory <$> names) ++ trace s) s.
Proof.
  revert found s. induction fuel as [|n IH]; intros found s; cbn [scan_entries]; [done|].
  assert (∀ name found' (s1 s2 : mstate W) ids,
    (∃ names last, ids = (found' ++ omap id_of_name names)%list ∧
      (match last with Ok (Some _) => False | Ok None => True | Err e => errno s2 = e end) ∧
      trace s2 = Event (sys_readdir directory) last ::
                 reverse (entry_read directory <$> names) ++ trace s1) →
    trace s1 = entry_read directory name :: trace s →
    found' = (found ++ option_list (id_of_name name))%list →
    ∃ names last, ids = (found ++ omap id_of_name names)%list ∧
      (match last with Ok (Some _) => False | Ok None => True | Err e => errno s2 = e end) ∧
      trace s2 = Event (sys_readdir directory) last ::
                 reverse (entry_read directory <$> names) ++ trace s) as Hcons.
  { intros name found' s1 s2 ids (names & last & -> & Hl & Ht) H1 ->.
    exists (name :: names), last. split_and!; [|done|].
    - rewrite <- app_assoc. f_equal. cbn [omap list_omap]. by destruct (id_of_name name).
    - rewrite Ht, H1, fmap_cons, reverse_cons, <- app_assoc. done. }
  wp_step. wp_step. wp_step.
  - wp_step.
    + wp_step.
      * eapply wp_mono; [apply IH|]. intros o s' H' ids ->.
        eapply (Hcons s0); [by apply H'|done|].
        match goal with E : negb (numeric_name _) = true |- _ =>
          apply negb_true_iff in E; unfold id_of_name; rewrite E end. by rewrite app_nil_r.
      * match goal with E : negb (numeric_name _) = false |- _ =>
          apply negb_false_iff in E; pose proof (strtol_digits_id _ E) as Hs end.
        destruct (strtol_digits s0) as [v o]. destruct Hs as [Hb Hv]. wp_step. wp_step. wp_step. wp_step.
        cbn [errno]. rewrite Hb.
        destruct (id_of_name s0) as [i|] eqn:Ei.
        -- rewrite bool_decide_eq_true_2 by (by eexists). eapply wp_mono; [apply IH|].
           intros o' s' H' ids ->. eapply (Hcons s0); [by apply H'|done|].
           rewrite Ei, (Hv i eq_refl). done.
        -- rewrite bool_decide_eq_false_2 by (by intros [? ?]). eapply wp_mono; [apply IH|].
           intros o' s' H' ids ->. eapply (Hcons s0); [by apply H'|done|].
           rewrite Ei. by rewrite app_nil_r.
    + wp_step. intros ids [= <-]. eexists [], (Ok None). rewrite app_nil_r. done.
  - wp_run. intros ids [= <-]. eexists [], (Err e). rewrite app_nil_r. done.
Qed.

Lemma wp_process_ids fuel (s : mstate W) :
  wp (process_ids fuel) (λ o s', ∀ ids, o = Done (Some ids) →
    ∃ evs : list event, trace s' = (evs ++ trace s)%list ∧ whole_scan ids evs) s.
Proof.
  unfold process_ids. wp_step. wp_step; wp_step; [|done]. wp_step. wp_step.
  eapply wp_mono; [apply wp_scan_entries|]. intros [found|x|n|] s1 Hs; try done.
  destruct (Hs found eq_refl) as (names & last & -> & Hl & Ht). wp_run; try done.
  intros ids. match goal with |- context [if ?b then _ else _] => destruct b eqn:Eb end; [|done].
  intros [= <-]. cbn [trace push errno] in *. rewrite Ht. eexists (_ :: _ :: _ ++ [_]). split.
  { cbn [app]. rewrite <- app_assoc. reflexivity. }
  exists a, names, last. split_and!; [|done|by destruct a0].
  destruct last as [[]|e]; simpl in *; try done. lia.
Qed.

Lemma process_ids_lists fuel names (s : mstate W) d w1 w2 w3 :
  kernel_run (sys_opendir "/proc") (world s) = (Ok d, w1) →
  lists d names w1 w2 → Forall representable names → (length names < fuel)%nat →
  kernel_run (sys_closedir d) w2 = (Ok tt, w3) →
  (process_ids fuel s).1 = Done (Some (omap id_of_name names)).
Proof.
  intros Eo Hl Hr Hf Ec. unfold process_ids, attempt, succeeds, attempt, issue.
  unfold mbind, M_bind. rewrite Eo. simpl.
  edestruct scan_entries_lists as [tr' ->]; [done..|]. simpl. by rewrite Ec.
Qed.

End scan.

(** ** Properties *)

(** C35: the parser of /proc/<pid>/stat recovers the process group from the line the
    kernel prints, whatever the command name contains, parentheses and blanks
    included. *)
Theorem process_group_roundtrip pid comm state parent group rest :
  0 ≤ pid → 0 ≤ parent ≤ INT_MAX → 0 < group ≤ INT_MAX →
  Ascii.eqb state ")" = false → lacks ")" rest = true →
  group_of_line (stat_line pid comm state parent group rest) = Some group.
Proof. apply group_of_stat_line. Qed.

Lemma process_group_roundtrip_witness :
  group_of_line (stat_line 4711 ") S 1 9999 (x" "R" 1 4242 "4242 0 -1") = Some 4242.
Proof.
  apply (process_group_roundtrip 4711 ") S 1 9999 (x" "R" 1 4242 "4242 0 -1");
    unfold INT_MAX; (lia || reflexivity).
Defined.

(** C36: the directory scan returns the ids of exactly the entries whose names are
    decimal numbers in the range of pid_t, in order, and one step of fuel more than
    there are entries is enough. *)
Theorem process_ids_complete {W} `{Kernel W} fuel names (s : mstate W) d w1 w2 w3 :
  kernel_run (sys_opendir "/proc") (world s) = (Ok d, w1) →
  lists d names w1 w2 → Forall representable names → (length names < fuel)%nat →
  kernel_run (sys_closedir d) w2 = (Ok tt, w3) →
  (process_ids fuel s).1 = Done (Some (omap id_of_name names)).
Proof. apply process_ids_lists. Qed.

(** A /proc with five entries. *)
Definition sample_proc : nat → ∀ R, call R → R := λ n R c,
  match c in call R return R with
  | sys_opendir _ => Ok 3
  | sys_readdir _ => Ok (["."; "1"; "self"; "0"; "4711"] !! (n - 1)%nat)
  | sys_closedir _ => Ok tt
  | c => default_answer c
  end.

Lemma process_ids_complete_witness :
  (process_ids (K := scripted sample_proc) 6 (start 0%nat)).1 = Done (Some [1; 4711]).
Proof.
  apply (process_ids_complete (H := scripted sample_proc) 6 ["."; "1"; "self"; "0"; "4711"]
    (start 0%nat) 3 1%nat 7%nat 8%nat).
  - reflexivity.
  - do 5 (eapply lists_name; [reflexivity|]). by apply lists_end.
  - repeat constructor; intros _; vm_compute; discriminate.
  - simpl. lia.
  - reflexivity.
Defined.
