(* ===== verification/ProcessControl.v ===== *)
(** * Process-group signaling and descriptor closing (src/process_control.cpp)

    pidfd operations, the scan that signals the members of the execution's process
    group, the check that they are gone, the cancellation probe, capability
    removal, and the closing of inherited descriptors before execution. Times are
    nanoseconds of the steady clock. *)

From stdpp Require Import pretty.
From S2P Require Import Prelude Machine Linux Logic Posix Script ProcFs.

Definition milliseconds (n : Z) : Z := n * 1000000.

Record process_group_signal_result : Set := mk_signal_result {
  complete : bool;
  leader_signaled : bool
}.

Section control.
Context {W : Type} `{K : Kernel W}.

(** ** Probes of single calls *)

Definition probe_descriptor_execution : M W bool :=
  set_errno 0;;
  ignore (sys_execveat (-1) "" [] [] AT_EMPTY_PATH);;
  e ← get_errno;
  mret (negb (e =? ENOSYS)).

Definition probe_close_range : M W bool :=
  set_errno 0;;
  result ← succeeds (sys_close_range UINT_MAX UINT_MAX 0);
  e ← get_errno;
  mret (result || negb (e =? ENOSYS)).

Definition open_pidfd (process : Z) : M W Z := descriptor (sys_pidfd_open process).

Definition send_pidfd_signal (pidfd signal : Z) : M W bool :=
  succeeds (sys_pidfd_send_signal pidfd signal).

Definition probe_pidfd : M W bool :=
  self ← issue sys_getpid;
  fd ← open_pidfd self;
  if fd <? 0 then
    e ← get_errno;
    mret (negb (e =? ENOSYS) && negb (e =? EINVAL))
  else
    ignore (sys_close fd);;
    mret true.

Fixpoint pidfd_exited (fuel : nat) (pidfd timeout : Z) : M W bool :=
  match fuel with
  | O => out_of_fuel
  | S n =>
      r ← attempt (sys_poll [(pidfd, POLLIN)] timeout);
      match r with
      | Some (count, revents) =>
          if 0 <? count then
            mret (negb (Z.land (nth 0 revents 0) (Z.lor POLLIN (Z.lor POLLHUP POLLERR)) =? 0))
          else mret false
      | None =>
          e ← get_errno;
          if negb (e =? EINTR) then mret false else pidfd_exited n pidfd timeout
      end
  end.

(** ** Signaling a process group *)

(** The loop body for one process that is not the leader: whether it leaves
    [complete] as it was. *)
Definition signal_member (group signal process : Z) : M W bool :=
  observed ← process_group_of process;
  if negb (bool_decide (observed = Some group)) then mret true
  else
    pidfd ← open_pidfd process;
    if pidfd <? 0 then
      e ← get_errno;
      mret (e =? ESRCH)
    else
      confirmed ← process_group_of process;
      okay ← (if bool_decide (confirmed = Some group) then
                sent ← send_pidfd_signal pidfd signal;
                e ← get_errno;
                mret (sent || (e =? ESRCH))
              else mret true);
      ignore (sys_close pidfd);;
      mret okay.

Fixpoint signal_members (group leader signal : Z) (complete : bool) (processes : list Z)
    : M W bool :=
  match processes with
  | [] => mret complete
  | process :: rest =>
      if process =? leader then signal_members group leader signal complete rest
      else
        okay ← signal_member group signal process;
        signal_members group leader signal (complete && okay) rest
  end.

Definition signal_process_group_members (fuel : nat) (group leader leader_pidfd signal : Z)
    : M W process_group_signal_result :=
  processes ← process_ids fuel;
  complete ← match processes with
             | None => mret false
             | Some processes => signal_members group leader signal true processes
             end;
  leader_signaled ← send_pidfd_signal leader_pidfd signal;
  e ← get_errno;
  mret (mk_signal_result (complete && (leader_signaled || (e =? ESRCH))) leader_signaled).

(** The search for a member other than the leader. *)
Fixpoint find_member (group leader : Z) (processes : list Z) : M W bool :=
  match processes with
  | [] => mret false
  | process :: rest =>
      if process =? leader then find_member group leader rest
      else
        observed ← process_group_of process;
        if bool_decide (observed = Some group) then mret true
        else find_member group leader rest
  end.

Fixpoint wait_members_until (fuel scan : nat) (group leader deadline : Z) : M W bool :=
  match fuel with
  | O => out_of_fuel
  | S n =>
      processes ← process_ids scan;
      match processes with
      | None => mret false
      | Some processes =>
          found ← find_member group leader processes;
          if negb found then mret true
          else
            now ← issue env_now;
            if deadline <=? now then mret false
            else
              issue (env_sleep 10);;
              wait_members_until n scan group leader deadline
      end
  end.

Definition wait_process_group_members_gone (fuel scan : nat) (group leader timeout : Z)
    : M W bool :=
  now ← issue env_now;
  wait_members_until fuel scan group leader (now + milliseconds timeout).

(** ** The cancellation probe *)

(** [for (;;) { ::pause(); }]: it is left only by a signal. *)
Fixpoint pause_forever {A} (fuel : nat) : M W A :=
  match fuel with
  | O => out_of_fuel
  | S n => issue sys_pause;; pause_forever n
  end.

Definition probe_cancellation_child (fuel : nat) (ready_read ready_write : Z) : M W bool :=
  ignore (sys_close ready_read);;
  session ← attempt sys_setsid;
  match session with
  | None => exit_process 2
  | Some _ =>
      forked ← attempt sys_fork;
      match forked with
      | None => exit_process 3
      | Some descendant =>
          if descendant =? 0 then pause_forever fuel
          else
            ignore (sys_write ready_write [1]);;
            pause_forever fuel
      end
  end.

Definition probe_pidfd_cancellation (fuel scan : nat) : M W bool :=
  ready ← attempt (sys_pipe2 O_CLOEXEC);
  match ready with
  | None => mret false
  | Some (ready_read, ready_write) =>
      forked ← attempt sys_fork;
      match forked with
      | None =>
          ignore (sys_close ready_read);; ignore (sys_close ready_write);; mret false
      | Some child =>
          if child =? 0 then probe_cancellation_child fuel ready_read ready_write
          else
            ignore (sys_close ready_write);;
            count ← retry_eintr fuel (sys_read ready_read 1);
            ignore (sys_close ready_read);;
            match count with
            | Some [_] =>
                pidfd ← open_pidfd child;
                if pidfd <? 0 then
                  ignore (sys_kill (- child) SIGKILL);; ignore (sys_waitpid child);; mret false
                else
                  signal_result ← signal_process_group_members scan child child pidfd SIGTERM;
                  exited ← pidfd_exited fuel pidfd 1000;
                  members_gone ← wait_process_group_members_gone fuel scan child child 1000;
                  information ← attempt (sys_waitid P_PIDFD pidfd (Z.lor WEXITED WNOWAIT));
                  status ← wait_child fuel child;
                  ignore (sys_close pidfd);;
                  mret (complete signal_result && leader_signaled signal_result &&
                        exited && members_gone &&
                        match information with
                        | Some i => (si_code i =? CLD_KILLED) && (si_status i =? SIGTERM)
                        | None => false
                        end)
            | _ => ignore (sys_kill (- child) SIGKILL);; ignore (sys_waitpid child);; mret false
            end
      end
  end.

(** ** Capabilities *)

(** [capset] with empty sets for the calling process, then the ambient set. *)
Definition drop_process_capabilities : M W bool :=
  set ← succeeds (sys_capset LINUX_CAPABILITY_VERSION_3 0 [0; 0; 0; 0; 0; 0]);
  if negb set then mret false
  else
    cleared ← succeeds sys_prctl_cap_ambient_clear_all;
    e ← get_errno;
    if negb cleared && negb (e =? EINVAL) then mret false else mret true.

Definition probe_capability_drop (fuel : nat) : M W bool :=
  forked ← attempt sys_fork;
  match forked with
  | None => mret false
  | Some child =>
      if child =? 0 then
        dropped ← drop_process_capabilities;
        exit_process (if (dropped : bool) then 0 else 1)
      else
        status ← wait_child fuel child;
        mret (exited_zero status)
  end.

(** ** Closing descriptors *)

(** The loop [for (fd = 3; fd < upper; ++fd)] from [fd] on, with [count] turns left. *)
Fixpoint close_each (count : nat) (fd first second : Z) : M W unit :=
  match count with
  | O => mret tt
  | S n =>
      (if negb (fd =? first) && negb (fd =? second) then ignore (sys_close fd) else mret tt);;
      close_each n (fd + 1) first second
  end.

(** The bound of the fallback loop for an answer of [sysconf(_SC_OPEN_MAX)]. *)
Definition fallback_upper (maximum : Z) : Z :=
  if (0 <? maximum) && (maximum <? INT_MAX) then maximum else 65536.

Definition close_fds_except (first second : Z) : M W unit :=
  let '(first, second) := if second <? first then (second, first) else (first, second) in
  closed ← (if 3 <? first then succeeds (sys_close_range 3 (first - 1) 0) else mret true);
  closed ← (if (closed : bool) && (first + 1 <? second)
            then succeeds (sys_close_range (first + 1) (second - 1) 0) else mret closed);
  closed ← (if (closed : bool) then succeeds (sys_close_range (second + 1) UINT_MAX 0)
            else mret false);
  if (closed : bool) then mret tt
  else
    maximum ← issue sys_sysconf_open_max;
    close_each (Z.to_nat (fallback_upper maximum - 3)) 3 first second.

End control.

(** ** What signaling does *)

Definition answered {A} (r : res A) : Prop := match r with Ok _ => True | Err e => e = ESRCH end.

(** A pidfd operation that succeeded or found the process gone. *)
Definition benign (ev : event) : Prop :=
  match ev with
  | Event c r =>
      match c in call R return R → Prop with
      | sys_pidfd_open _ => λ r, answered r
      | sys_pidfd_send_signal _ _ => λ r, answered r
      | _ => λ _, True
      end r
  end.

(** [evs] (newest first) confirms the signal at position [i] when the two calls just
    before it opened the pidfd for a process other than the leader and then read
    that the process is in the group. *)
Definition confirmed_at (group leader fd : Z) (evs : list event) (i : nat) : Prop :=
  ∃ process line,
    evs !! S i = Some (Event (sys_getline (stat_path process)) (Some line)) ∧
    evs !! S (S i) = Some (Event (sys_pidfd_open process) (Ok fd)) ∧
    process ≠ leader ∧ group_of_line line = Some group.

(** The pidfd a call signals, and the signal. *)
Definition signal_target (ev : event) : option (Z * Z) :=
  match ev with
  | Event c _ => match c with sys_pidfd_send_signal fd signal => Some (fd, signal) | _ => None end
  end.

Definition signals_confirmed (group leader leader_pidfd signal : Z) (evs : list event) : Prop :=
  ∀ i ev fd sent, evs !! i = Some ev → signal_target ev = Some (fd, sent) →
    sent = signal ∧ (fd = leader_pidfd ∨ confirmed_at group leader fd evs i).

Definition not_kill (ev : event) : Prop :=
  match ev with
  | Event c _ => match c with sys_kill _ _ => False | _ => True end
  end.

(** What is known of a stretch of the trace left by signaling. *)
Definition signal_trace (group leader leader_pidfd signal : Z) (complete : bool)
    (evs : list event) : Prop :=
  signals_confirmed group leader leader_pidfd signal evs ∧ Forall not_kill evs ∧
  (complete = true → Forall benign evs).

(** No process to open a pidfd for (a kernel never answers a negative descriptor). *)
Definition gone (answer : res Z) : Prop :=
  match answer with Ok fd => fd < 0 | Err e => e = ESRCH end.

(** The trace accounts for [process]: it was read outside the group, was gone when
    its pidfd was asked for, or was signaled through a pidfd opened for it unless it
    was gone by then. *)
Definition handled (group signal process : Z) (evs : list event) : Prop :=
  (∃ line, Event (sys_getline (stat_path process)) line ∈ evs ∧
           line ≫= group_of_line ≠ Some group) ∨
  (∃ answer, Event (sys_pidfd_open process) answer ∈ evs ∧ gone answer) ∨
  ∃ fd line answer newer older,
    evs = newer ++ [Event (sys_pidfd_send_signal fd signal) answer;
                    Event (sys_getline (stat_path process)) line;
                    Event (sys_pidfd_open process) (Ok fd)] ++ older ∧
    answered answer.

(** Every process of the list but the leader is accounted for. *)
Definition all_handled (group leader signal : Z) (processes : list Z) (evs : list event) : Prop :=
  Forall (λ p, p ≠ leader → handled group signal p evs) processes.

Lemma handled_app group signal p l1 l2 :
  handled group signal p l1 ∨ handled group signal p l2 → handled group signal p (l1 ++ l2).
Proof.
  intros [H|H]; destruct H as [(line & Hi & Hn)|[(a & Hi & Hg)|(fd & line & a & n & o & -> & Ha)]].
  1,4: left; exists line; split; [apply elem_of_app; auto|done].
  1,3: right; left; exists a; split; [apply elem_of_app; auto|done].
  - right; right. exists fd, line, a, n, (o ++ l2). by rewrite <- !app_assoc.
  - right; right. exists fd, line, a, (l1 ++ n), o. by rewrite <- !app_assoc.
Qed.

Lemma all_handled_app group leader signal processes l1 l2 :
  all_handled group leader signal processes l1 ∨ all_handled group leader signal processes l2 →
  all_handled group leader signal processes (l1 ++ l2).
Proof.
  intros [H|H]; eapply Forall_impl; try exact H; intros p Hp ?; apply handled_app; auto.
Qed.

Lemma signals_confirmed_app group leader fd signal l1 l2 :
  signals_confirmed group leader fd signal l1 → signals_confirmed group leader fd signal l2 →
  signals_confirmed group leader fd signal (l1 ++ l2).
Proof.
  intros H1 H2 i ev x n Hi Hx. apply lookup_app_Some in Hi as [Hi|[Hle Hi]].
  - destruct (H1 _ _ _ _ Hi Hx) as [-> [->|(p & line & E1 & E2 & Hp)]]; (split; [done|]); [by left|right].
    exists p, line. apply lookup_lt_Some in E2 as ?.
    rewrite !lookup_app_l by lia. done.
  - destruct (H2 _ _ _ _ Hi Hx) as [-> [->|(p & line & E1 & E2 & Hp)]]; (split; [done|]); [by left|right].
    exists p, line. rewrite !lookup_app_r by lia.
    by replace (S i - length l1)%nat with (S (i - length l1)) by lia;
      replace (S (S i) - length l1)%nat with (S (S (i - length l1))) by lia.
Qed.

Lemma signal_trace_app group leader fd signal b1 b2 l1 l2 :
  signal_trace group leader fd signal b1 l1 → signal_trace group leader fd signal b2 l2 →
  signal_trace group leader fd signal (b2 && b1) (l1 ++ l2).
Proof.
  intros (H1 & N1 & B1) (H2 & N2 & B2). split_and!.
  - by apply signals_confirmed_app.
  - by apply Forall_app.
  - intros [? ?]%andb_prop. apply Forall_app. auto.
Qed.

(** A call that neither opens a pidfd nor signals. *)
Definition inert (ev : event) : Prop :=
  match ev with
  | Event c _ =>
      match c with
      | sys_pidfd_send_signal _ _ | sys_pidfd_open _ | sys_kill _ _ => False
      | _ => True
      end
  end.

Lemma inert_signal_trace group leader fd signal evs b :
  Forall inert evs → signal_trace group leader fd signal b evs.
Proof.
  intros H. split_and!.
  - intros i [R c r] x n Hi Hx. pose proof (Forall_lookup_1 _ _ _ _ H Hi). by destruct c.
  - eapply Forall_impl; [exact H|]. intros [R c r]. by destruct c.
  - intros _. eapply Forall_impl; [exact H|]. intros [R c r]. by destruct c.
Qed.

(** Decide [signal_trace] for an explicit list of calls. *)
Ltac signal_block :=
  split_and!;
  [ intros i ev fd' sent Hi Ht;
    repeat (destruct i as [|i];
            [simpl in Hi; injection Hi as <-; simpl in Ht; try discriminate Ht|]);
    try (by destruct i); injection Ht as <- <-; (split; [done|]); right;
    match goal with
    | E : bool_decide (?r ≫= group_of_line = _) = true |- confirmed_at _ _ _ (_ :: _ :: Event _ ?r :: _) _ =>
        destruct r as [line|]; [|done]; apply bool_decide_eq_true in E;
        eexists _, line; repeat split; done
    end
  | by repeat constructor
  | intros; repeat constructor; simpl in *; lia ].

Lemma leader_signal_trace group leader fd signal r b :
  (b = true → answered r) →
  signal_trace group leader fd signal b [Event (sys_pidfd_send_signal fd signal) r].
Proof.
  intros H. split_and!; [|by repeat constructor|intros; constructor; [by apply H|done]].
  intros [|i] ev x n Hi Hx; [|by destruct i]. simpl in Hi. injection Hi as <-.
  injection Hx as <- <-. split; [done|by left].
Qed.

Section signaling.
Context {W : Type} `{K : Kernel W}.

Lemma emits_process_group_of (P : event → Prop) process :
  (∀ r, P (Event (sys_getline (stat_path process)) r)) → emits P (process_group_of process).
Proof. intros H. unfold process_group_of. emits_auto; auto. Qed.

Lemma emits_scan_entries (P : event → Prop) fuel d found :
  (∀ r, P (Event (sys_readdir d) r)) → emits P (scan_entries fuel d found).
Proof.
  intros H. revert found. induction fuel as [|n IH]; intros found; simpl; emits_auto; auto.
Qed.

Lemma emits_process_ids (P : event → Prop) fuel :
  (∀ r, P (Event (sys_opendir "/proc") r)) → (∀ d r, P (Event (sys_readdir d) r)) →
  (∀ d r, P (Event (sys_closedir d) r)) → emits P (process_ids fuel).
Proof. intros H1 H2 H3. unfold process_ids. emits_auto; auto. by apply emits_scan_entries. Qed.

Lemma wp_process_group_of process Q (s : mstate W) :
  (∀ r w, Q (Done (r ≫= group_of_line)) (push w (errno s) (sys_getline (stat_path process)) r s)) →
  wp (process_group_of process) Q s.
Proof.
  intros H. unfold process_group_of. wp_step. wp_step.
  wp_step; wp_step; [apply (H (Some _) w)|apply (H None w)].
Qed.

Lemma wp_signal_member group leader leader_pidfd signal process (s : mstate W) :
  process ≠ leader →
  wp (signal_member group signal process) (λ o s',
    ∃ evs, trace s' = evs ++ trace s ∧
    match o with
    | Done okay => signal_trace group leader leader_pidfd signal okay evs ∧
                   (okay = true → handled group signal process evs)
    | _ => False
    end) s.
Proof.
  intros Hp. unfold signal_member, open_pidfd, send_pidfd_signal.
  wp_step. apply wp_process_group_of. intros r w. wp_step; wp_step.
  { provide_trace. split; [apply inert_signal_trace; by repeat constructor|].
    intros _. left. exists r. split; [by left|].
    match goal with E : negb _ = true |- _ => by apply negb_true_iff, bool_decide_eq_false in E end. }
  wp_step; wp_run.
  all: try (apply wp_process_group_of; intros r' w'; wp_run).
  all: provide_trace; split; [signal_block|intros Hok; try discriminate Hok].
  all: try (right; left; eexists; split; [by left|]; cbn [errno push gone] in *; lia).
  all: try (match goal with E : bool_decide _ = false |- _ =>
              apply bool_decide_eq_false in E; left; eexists; split; [|exact E];
              apply list_elem_of_lookup; first [by exists 0%nat|by exists 1%nat] end).
  all: right; right; eexists _, _, _, [_], _; split; [reflexivity|]; simpl in *; try done; lia.
Qed.

Lemma wp_signal_members group leader leader_pidfd signal c processes (s : mstate W) :
  wp (signal_members group leader signal c processes) (λ o s',
    ∃ evs, trace s' = evs ++ trace s ∧
    match o with
    | Done c' => (c' = true → c = true ∧ all_handled group leader signal processes evs) ∧
                 signal_trace group leader leader_pidfd signal c' evs
    | _ => False
    end) s.
Proof.
  revert c s. induction processes as [|p rest IH]; intros c s; simpl.
  { wp_step. exists []. split; [done|]. split; [by split; [|constructor]|]. by apply inert_signal_trace. }
  wp_step.
  { eapply wp_mono; [apply IH|]. intros [c'|x|n|] s1 (evs1 & E1 & H1); try done.
    exists evs1. split; [done|]. destruct H1 as [Hc H1]. split; [|done]. intros Hc'.
    destruct (Hc Hc') as [? ?]. split; [done|]. constructor; [|done]. intros Hp. lia. }
  wp_step. eapply wp_mono; [by apply wp_signal_member, Z.eqb_neq|].
  intros [okay|x|n|] s1 (evs1 & E1 & H1); try done. destruct H1 as [H1 Hh].
  eapply wp_mono; [apply IH|]. intros [c'|x|n|] s2 (evs2 & E2 & H2); try (destruct H2; done).
  exists (evs2 ++ evs1). rewrite E2, E1, app_assoc. split; [done|]. destruct H2 as [Hc H2].
  destruct c'.
  - destruct (Hc eq_refl) as [[-> ->]%andb_prop Hrest]. split.
    + intros _. split; [done|]. constructor; [intros _; apply handled_app; auto|].
      apply all_handled_app. by left.
    + by apply (signal_trace_app _ _ _ _ true true).
  - split; [done|]. replace false with (okay && false) by (by destruct okay). by apply signal_trace_app.
Qed.

Lemma emits_inert_process_ids fuel : emits inert (process_ids fuel).
Proof. by apply emits_process_ids. Qed.

(** A scan returns, or the model ran out of fuel. *)
Definition returns {A} (o : outcome A) : Prop :=
  match o with Done _ | OutOfFuel => True | _ => False end.

Lemma scan_entries_outcome fuel d found (s : mstate W) :
  wp (scan_entries fuel d found) (λ o _, returns o) s.
Proof.
  revert found s. induction fuel as [|n IH]; intros found s; cbn [scan_entries]; [done|].
  wp_run; try done; apply IH.
Qed.

Lemma process_ids_outcome fuel (s : mstate W) : wp (process_ids fuel) (λ o _, returns o) s.
Proof.
  unfold process_ids. wp_run; try done. eapply wp_mono; [apply scan_entries_outcome|].
  intros [] s' ?; try done. by wp_run.
Qed.

(** The whole scan of /proc and what was done with each process it listed. *)
Definition accounted (group leader signal : Z) (evs : list event) : Prop :=
  ∃ processes members scan,
    evs = members ++ scan ∧ whole_scan processes scan ∧
    all_handled group leader signal processes members.

Lemma wp_signal_process_group_members fuel group leader leader_pidfd signal (s : mstate W) :
  wp (signal_process_group_members fuel group leader leader_pidfd signal) (λ o s',
    ∃ evs, trace s' = evs ++ trace s ∧
    match o with
    | Done r =>
        signal_trace group leader leader_pidfd signal (complete r) evs ∧
        ∃ answer before,
          evs = Event (sys_pidfd_send_signal leader_pidfd signal) answer :: before ∧
          (leader_signaled r = true ↔ answer = Ok tt) ∧
          (complete r = true → answered answer ∧ accounted group leader signal before)
    | OutOfFuel => True
    | _ => False
    end) s.
Proof.
  unfold signal_process_group_members, send_pidfd_signal. wp_step.
  eapply wp_mono; [apply wp_and; [apply (emits_wp inert), emits_inert_process_ids|
    apply wp_and; [apply process_ids_outcome|apply wp_process_ids]]|].
  intros [ids|x|n|] s1 ((evs1 & E1 & I1) & Ho & Hw); try done; [|by exists evs1].
  wp_step. eapply (wp_mono _ (λ o s', ∃ evs, trace s' = evs ++ trace s1 ∧
    match o with
    | Done c => signal_trace group leader leader_pidfd signal c evs ∧
                (c = true → accounted group leader signal (evs ++ evs1))
    | _ => False
    end)).
  { destruct ids as [ids|].
    - eapply wp_mono; [apply wp_signal_members|].
      intros [c|x|n|] s2 (evs2 & E2 & H2); try done. exists evs2. destruct H2 as [Hc H2].
      split_and!; [done|done|]. intros Hc'. exists ids, evs2, evs1.
      destruct (Hw ids eq_refl) as (scan & Es & Hs).
      assert (scan = evs1) as -> by (rewrite E1 in Es; by apply app_inv_tail in Es).
      split_and!; [done|done|by apply Hc].
    - wp_step. exists []. split_and!; [done|by apply inert_signal_trace|done]. }
  intros [c|x|n|] s2 (evs2 & E2 & H2); try (destruct H2; done). destruct H2 as [H2 Ha].
  assert (signal_trace group leader leader_pidfd signal c (evs2 ++ evs1)) as H12.
  { replace c with (true && c) by done. apply signal_trace_app; [done|]. by apply inert_signal_trace. }
  wp_run; cbn [trace push complete leader_signaled orb].
  - destruct a. eexists (_ :: evs2 ++ evs1). rewrite E2, E1, app_assoc. split; [done|].
    split; [apply (signal_trace_app _ _ _ _ true c [_]); [by apply leader_signal_trace|done]|].
    eexists _, _. split_and!; [reflexivity|done|]. rewrite andb_true_r. auto.
  - eexists (_ :: evs2 ++ evs1). rewrite E2, E1, app_assoc. split; [done|].
    split; [apply (signal_trace_app _ _ _ _ (e =? ESRCH) c [_]); [|done];
            apply leader_signal_trace; simpl; lia|].
    eexists _, _. split_and!; [reflexivity|done|]. intros [Hc He]%andb_prop.
    split; [simpl in *; lia|auto].
Qed.

(** ** What the wait for the members sees *)

(** A whole scan of /proc, after which every process it listed but the leader was read
    outside the group. *)
Definition outside (group process : Z) (evs : list event) : Prop :=
  ∃ line, Event (sys_getline (stat_path process)) line ∈ evs ∧
          line ≫= group_of_line ≠ Some group.

Definition seen_gone (group leader : Z) (evs : list event) : Prop :=
  ∃ processes newer reads scan older,
    evs = newer ++ reads ++ scan ++ older ∧ whole_scan processes scan ∧
    Forall (λ p, p ≠ leader → outside group p reads) processes.

Lemma seen_gone_app group leader l1 l2 l3 :
  seen_gone group leader l2 → seen_gone group leader (l1 ++ l2 ++ l3).
Proof.
  intros (ps & n & r & c & o & -> & H). exists ps, (l1 ++ n), r, c, (o ++ l3).
  split; [by rewrite <- !app_assoc|done].
Qed.

Lemma wp_find_member group leader processes (s : mstate W) :
  wp (find_member group leader processes) (λ o s', o = Done false →
    ∃ reads, trace s' = reads ++ trace s ∧
             Forall (λ p, p ≠ leader → outside group p reads) processes) s.
Proof.
  revert s. induction processes as [|p rest IH]; intros s; cbn [find_member].
  { wp_step. intros _. by exists []. }
  wp_step.
  - eapply wp_mono; [apply IH|]. intros o s' H Ho. destruct (H Ho) as (reads & E & F).
    exists reads. split; [done|]. constructor; [lia|done].
  - wp_step. apply wp_process_group_of. intros r w. wp_step; [by wp_step|].
    eapply wp_mono; [apply IH|]. intros o s' H Ho. destruct (H Ho) as (reads & E & F).
    eexists (reads ++ [_]). split; [rewrite E, <- app_assoc; reflexivity|]. constructor.
    + intros _. exists r. split; [apply elem_of_app; right; by left|].
      match goal with B : bool_decide _ = false |- _ => by apply bool_decide_eq_false in B end.
    + eapply Forall_impl; [exact F|]. intros q Hq Hl. destruct (Hq Hl) as (line & Hi & Hn).
      exists line. split; [apply elem_of_app; auto|done].
Qed.

Lemma wp_wait_members_gone fuel scan group leader timeout (s : mstate W) :
  wp (wait_process_group_members_gone fuel scan group leader timeout) (λ o s', o = Done true →
    ∃ evs, trace s' = evs ++ trace s ∧ seen_gone group leader evs) s.
Proof.
  unfold wait_process_group_members_gone. wp_step. wp_step.
  generalize (r + milliseconds timeout) as deadline. intros deadline.
  enough (∀ s1 : mstate W, wp (wait_members_until fuel scan group leader deadline) (λ o s', o = Done true →
    ∃ evs, trace s' = evs ++ trace s1 ∧ seen_gone group leader evs) s1) as H1.
  { eapply wp_mono; [apply H1|]. intros o s' Hs Ho. destruct (Hs Ho) as (evs & E & G).
    eexists (evs ++ [_]). split; [rewrite E, <- app_assoc; reflexivity|].
    by apply (seen_gone_app _ _ [] evs). }
  induction fuel as [|n IH]; intros s1; cbn [wait_members_until]; [done|].
  wp_step. eapply wp_mono; [apply wp_and; [apply wp_process_ids|
    apply (emits_wp_after anything), emits_process_ids; done]|].
  intros [[ids|]|x|c|] s2 [Hp Ha2]; try done. destruct (Hp ids eq_refl) as (sc & Es & Hsc). clear Hp.
  wp_step. eapply wp_mono; [apply wp_and; [apply wp_find_member|
    apply (emits_wp_after anything)]|].
  { generalize ids. intros l. induction l as [|p rest IHl]; cbn [find_member]; emits_auto; try done.
    by apply emits_process_group_of. }
  intros [found|x|c|] s3 [Hf [e3 E3]]; try done. wp_step.
  - destruct found; [done|]. wp_step. intros _. destruct (Hf eq_refl) as (reads & E & F).
    exists (reads ++ sc). rewrite E, Es, app_assoc. split; [done|].
    exists ids, [], reads, sc, []. by rewrite app_nil_r.
  - wp_step. wp_step. wp_step; [by wp_step|]. wp_step. wp_step.
    eapply wp_mono; [apply IH|]. intros o s' Hs Ho. destruct (Hs Ho) as (evs & E & G).
    eexists (evs ++ (_ :: _ :: e3 ++ sc)). split.
    { rewrite E. cbn [trace push]. rewrite E3, Es, <- !app_assoc. cbn [app]. by rewrite <- !app_assoc. }
    by apply (seen_gone_app _ _ [] evs).
Qed.

End signaling.

(** ** Descriptor tables

    [is_open w fd]: descriptor [fd] is open in kernel state [w]. *)
Class FdLaws (W : Type) `{Kernel W} : Type := {
  is_open : W → Z → bool;
  close_closes : ∀ fd w r w' x,
    kernel_run (sys_close fd) w = (r, w') → is_open w' x = is_open w x && negb (x =? fd);
  close_range_closes : ∀ a b w w' x,
    kernel_run (sys_close_range a b 0) w = (Ok tt, w') →
    is_open w' x = is_open w x && negb ((a <=? x) && (x <=? b));
  close_range_fails : ∀ a b w e w' x,
    kernel_run (sys_close_range a b 0) w = (Err e, w') → is_open w' x = is_open w x;
  sysconf_keeps : ∀ w m w' x,
    kernel_run sys_sysconf_open_max w = (m, w') → is_open w' x = is_open w x
}.

Definition kept (a b fd : Z) : bool := (fd <=? 2) || (fd =? a) || (fd =? b).

(** Rewrite the answers of closing calls into facts about descriptor [x]. *)
Ltac use_fd_laws x :=
  repeat match goal with
  | H : kernel_run (sys_close_range _ _ _) _ = (Ok ?u, _) |- _ =>
      destruct u; apply (close_range_closes _ _ _ _ x) in H
  | H : kernel_run (sys_close_range _ _ _) _ = (Err _, _) |- _ =>
      apply (close_range_fails _ _ _ _ _ x) in H
  | H : kernel_run sys_sysconf_open_max _ = _ |- _ => apply (sysconf_keeps _ _ _ x) in H
  end;
  repeat match goal with
  | H : is_open ?w x = _ |- context [is_open ?w x] => rewrite H; clear H
  end.

Section closing.
Context {W : Type} `{K : Kernel W} `{L : !FdLaws W}.

Lemma wp_close_each count fd first second (s : mstate W) :
  wp (close_each count fd first second) (λ o s',
    o = Done tt ∧ (∃ evs, trace s' = evs ++ trace s) ∧
    ∀ x, is_open (world s') x =
         is_open (world s) x &&
         negb ((fd <=? x) && (x <? fd + Z.of_nat count) && negb (x =? first) && negb (x =? second))) s.
Proof.
  revert fd s. induction count as [|n IH]; intros fd s; cbn [close_each].
  - wp_step. split_and!; [done|by exists []|]. intros x. rewrite Z.add_0_r.
    destruct (is_open (world s) x); lia.
  - wp_step. wp_step; wp_step; (eapply wp_mono; [apply IH|]); intros o s' (-> & [evs Ht] & Hx);
      (split_and!; [done| |intros x; rewrite Hx; cbn [world push]]).
    + exists (evs ++ [Event (sys_close fd) r]). by rewrite Ht, <- app_assoc.
    + erewrite close_closes by done. destruct (is_open (world s) x); zbool.
    + by exists evs.
    + destruct (is_open (world s) x); zbool.
Qed.

(** A well-formed call of close_range that the kernel refused. *)
Definition refused_range (ev : event) : Prop :=
  match ev with
  | Event c r =>
      match c in call R return R → Prop with
      | sys_close_range lo hi flags =>
          λ r, lo ≤ hi ∧ flags = 0 ∧ match r with Err _ => True | Ok _ => False end
      | _ => λ _, False
      end r
  end.

(** Closing either leaves exactly the descriptors to keep, or a close_range call
    failed, the fallback was taken, and descriptors at or above its bound are left
    too. *)
Definition closed_except (a b : Z) (s s' : mstate W) : Prop :=
  ∃ evs, trace s' = evs ++ trace s ∧
  ((Forall (λ ev, ¬ refused_range ev) evs ∧
    ∀ fd, 0 ≤ fd ≤ UINT_MAX → is_open (world s') fd = is_open (world s) fd && kept a b fd) ∨
   (Exists refused_range evs ∧ ∃ maximum, Event sys_sysconf_open_max maximum ∈ evs ∧
    ∀ fd, 0 ≤ fd ≤ UINT_MAX →
      (kept a b fd = true → is_open (world s') fd = is_open (world s) fd) ∧
      (kept a b fd = false → fd < fallback_upper maximum → is_open (world s') fd = false))).

Lemma closed_except_comm a b s s' : closed_except a b s s' → closed_except b a s s'.
Proof.
  assert (∀ fd, kept a b fd = kept b a fd) as Hk by (intros; unfold kept; zbool).
  intros (evs & E & [[Hr H]|(Hr & m & Hm & H)]); exists evs; (split; [done|]);
    [left; split; [done|]|right; split; [done|]; exists m; split; [done|]];
    intros fd Hfd; rewrite <- Hk; by apply H.
Qed.

(** The calls made, up to the turns of the fallback. *)
Ltac close_trace Ht :=
  rewrite ?Ht; cbn [trace push];
  lazymatch goal with
  | |- ?l ++ ?r = _ ++ ?t => let p := trace_prefix r t in
      instantiate (1 := l ++ p); rewrite <- ?app_assoc; reflexivity
  | |- ?r = _ ++ ?t => let p := trace_prefix r t in instantiate (1 := p); reflexivity
  end.

Lemma wp_close_fds_sorted a b (s : mstate W) :
  3 ≤ a ≤ b → b ≤ INT_MAX →
  wp (close_fds_except a b) (λ o s', o = Done tt ∧ closed_except a b s s') s.
Proof.
  intros Ha Hb. unfold close_fds_except, closed_except.
  replace (b <? a) with false by lia. unfold INT_MAX, UINT_MAX in *.
  wp_run.
  all: lazymatch goal with
    | |- wp (close_each _ _ _ _) _ (push _ _ _ ?m _) =>
        eapply wp_mono; [apply wp_close_each|]; intros o s' (-> & [evs Ht] & Hx);
        split; [done|]; eexists; split; [close_trace Ht|]; right; split;
        [apply Exists_app; right; repeat
           first [apply Exists_cons_hd; split_and!; [lia|done|done]
                 |apply Exists_cons_tl]|];
        exists m; split; [apply elem_of_app; right; by left|];
        intros fd Hfd; rewrite Hx
    | _ => split; [done|]; eexists; split; [close_trace Ha|]; left; split;
           [repeat constructor; intros ?; simpl in *; tauto|]; intros fd Hfd
    end; cbn [world push] in *; use_fd_laws fd.
  all: unfold kept; destruct (is_open (world s) fd); cbn [andb];
    lazymatch goal with |- _ ∧ _ => split | _ => idtac end.
  all: zbool.
Qed.

Lemma wp_close_fds_fallback a b m fd (s : mstate W) :
  3 ≤ a ≤ INT_MAX → 3 ≤ b ≤ INT_MAX → 0 < m < INT_MAX → m ≤ fd →
  (∀ x y w, ∃ e w', kernel_run (sys_close_range x y 0) w = (Err e, w')) →
  (∀ w, (kernel_run sys_sysconf_open_max w).1 = m) →
  wp (close_fds_except a b) (λ o s', o = Done tt ∧ is_open (world s') fd = is_open (world s) fd) s.
Proof.
  intros Ha Hb Hm Hfd Hcr Hsc. unfold close_fds_except.
  destruct (if b <? a then (b, a) else (a, b)) as [lo hi].
  wp_run.
  all: try match goal with
    | E : kernel_run (sys_close_range ?x ?y 0) ?w = (Ok _, _) |- _ =>
        destruct (Hcr x y w) as (? & ? & E'); rewrite E in E'; discriminate
    end.
  all: match goal with E : kernel_run sys_sysconf_open_max ?w = _ |- _ =>
         pose proof (Hsc w) as Hr; rewrite E in Hr; simpl in Hr; subst end.
  all: eapply wp_mono; [apply wp_close_each|]; intros o s' (-> & _ & Hx); (split; [done|]);
    rewrite Hx; cbn [world push] in *; use_fd_laws fd.
  all: unfold fallback_upper, INT_MAX in *;
    match goal with |- context [if ?c then ?m else _] => replace c with true by lia end;
    destruct (is_open (world s) fd); zbool.
Qed.

Lemma wp_close_fds_except a b (s : mstate W) :
  3 ≤ a ≤ INT_MAX → 3 ≤ b ≤ INT_MAX →
  wp (close_fds_except a b) (λ o s', o = Done tt ∧ closed_except a b s s') s.
Proof.
  intros Ha Hb. destruct (Z.ltb_spec b a).
  - replace (close_fds_except a b) with (close_fds_except (W := W) b a).
    + eapply wp_mono; [apply wp_close_fds_sorted; lia|]. intros o s' [-> H'].
      split; [done|]. by apply closed_except_comm.
    + unfold close_fds_except. by replace (b <? a) with true by lia; replace (a <? b) with false by lia.
  - apply wp_close_fds_sorted; lia.
Qed.

End closing.

(** ** Properties *)


(** C23: before execution the standard streams and the two given descriptors stay
    open and every other descriptor is closed, exactly, unless the kernel refused a
    close_range call; only then can descriptors at or above the answer of
    sysconf(_SC_OPEN_MAX) stay open. *)
Theorem close_fds_except_exact {W} `{Kernel W} `{!FdLaws W} a b (s : mstate W) :
  3 ≤ a ≤ INT_MAX → 3 ≤ b ≤ INT_MAX →
  wp (close_fds_except a b) (λ o s', o = Done tt ∧ closed_except a b s s') s.
Proof. apply wp_close_fds_except. Qed.

(** Descriptor tables as functions, on a kernel with or without close_range, whose
    open-files limit is [maximum]. *)
Record fd_world : Type := mk_fd_world { table : Z → bool; has_close_range : bool; maximum : Z }.

Definition fd_kernel : Kernel fd_world := {|
  kernel_run := λ R c w,
    match c in call R return R * fd_world with
    | sys_close fd =>
        (if table w fd then Ok tt else Err 9,
         mk_fd_world (λ x, table w x && negb (x =? fd)) (has_close_range w) (maximum w))
    | sys_close_range a b _ =>
        if has_close_range w then
          (Ok tt, mk_fd_world (λ x, table w x && negb ((a <=? x) && (x <=? b))) true (maximum w))
        else (Err ENOSYS, w)
    | sys_sysconf_open_max => (maximum w, w)
    | c => (default_answer c, w)
    end |}.

#[export] Instance fd_kernel_laws : @FdLaws _ fd_kernel.
Proof.
  refine {| is_open := table |}; simpl; intros.
  - by simplify_eq.
  - destruct (has_close_range w); by simplify_eq.
  - destruct (has_close_range w); by simplify_eq.
  - by simplify_eq.
Defined.

Definition ten_open : Z → bool := λ x, (0 <=? x) && (x <? 10).

Lemma close_fds_except_exact_witness :
  table (world (close_fds_except (K := fd_kernel) 7 5
                  (start (mk_fd_world ten_open true 1024))).2) 6 = false ∧
  (close_fds_except (K := fd_kernel) 7 5 (start (mk_fd_world ten_open true 1024))).1 = Done tt.
Proof.
  split; [reflexivity|].
  exact (proj1 (close_fds_except_exact (H := fd_kernel) 7 5
    (start (mk_fd_world ten_open true 1024)) ltac:(unfold INT_MAX; lia) ltac:(unfold INT_MAX; lia))).
Defined.

(** C40: without close_range, a descriptor at or above the process's open-files
    limit (which the child has already lowered to the requested value when it closes
    descriptors) is left open for the program. *)
Theorem fallback_leaves_high_descriptors {W} `{Kernel W} `{!FdLaws W} a b m fd (s : mstate W) :
  3 ≤ a ≤ INT_MAX → 3 ≤ b ≤ INT_MAX → 0 < m < INT_MAX → m ≤ fd →
  (∀ x y w, ∃ e w', kernel_run (sys_close_range x y 0) w = (Err e, w')) →
  (∀ w, (kernel_run sys_sysconf_open_max w).1 = m) →
  wp (close_fds_except a b) (λ o s', o = Done tt ∧ is_open (world s') fd = is_open (world s) fd) s.
Proof. apply wp_close_fds_fallback. Qed.

(** A table with no close_range and a limit of 8, as laws about every state. *)
Definition old_kernel : Kernel (Z → bool) := {|
  kernel_run := λ R c w,
    match c in call R return R * (Z → bool) with
    | sys_close fd => (Ok tt, λ x, w x && negb (x =? fd))
    | sys_sysconf_open_max => (8, w)
    | c => (default_answer c, w)
    end |}.

#[export] Instance old_kernel_laws : @FdLaws _ old_kernel.
Proof. refine {| is_open := λ w x, w x |}; simpl; intros; by simplify_eq. Defined.

Lemma fallback_leaves_high_descriptors_witness :
  world (close_fds_except (K := old_kernel) 5 6 (start ten_open)).2 9 = true.
Proof.
  refine (proj2 (fallback_leaves_high_descriptors (H := old_kernel) 5 6 8 9 (start ten_open)
    _ _ _ _ _ _)); unfold INT_MAX; try lia.
  - intros x y w. exists ENOSYS, w. reflexivity.
  - reflexivity.
Defined.
