(* ===== verification/Bytes.v ===== *)
(** * Little-endian integers in byte buffers

    Structures the sources read or write as raw memory (netlink messages, failure
    records sent through pipes) are lists of bytes, each a number from 0 to 255.
    Reading outside a buffer yields [None]. *)

From S2P Require Import Prelude Machine.

(** [n] bytes of [v], least significant first. *)
Fixpoint le_bytes (n : nat) (v : Z) : list Z :=
  match n with
  | O => []
  | S m => v mod 256 :: le_bytes m (v / 256)
  end.

Fixpoint le_value (bytes : list Z) : Z :=
  match bytes with
  | [] => 0
  | b :: rest => b + 256 * le_value rest
  end.

(** [size] bytes at [offset]. *)
Definition slice (buffer : list Z) (offset : Z) (size : nat) : option (list Z) :=
  if (0 <=? offset) && (offset + Z.of_nat size <=? Z.of_nat (length buffer))
  then Some (take size (drop (Z.to_nat offset) buffer)) else None.

Definition read_u16 (buffer : list Z) (offset : Z) : option Z := le_value <$> slice buffer offset 2.
Definition read_u32 (buffer : list Z) (offset : Z) : option Z := le_value <$> slice buffer offset 4.

(** A 32-bit pattern as a signed integer, and back. *)
Definition to_i32 (v : Z) : Z := if v <? 2 ^ 31 then v else v - 2 ^ 32.
Definition of_i32 (v : Z) : Z := v mod 2 ^ 32.
Definition u32 (v : Z) : Z := v mod 2 ^ 32.

Definition read_i32 (buffer : list Z) (offset : Z) : option Z := to_i32 <$> read_u32 buffer offset.

Definition is_byte (b : Z) : Prop := 0 ≤ b < 256.

Lemma length_le_bytes n v : length (le_bytes n v) = n.
Proof. revert v. induction n as [|n IH]; intros v; simpl; [done|]. by rewrite IH. Qed.

Lemma le_bytes_are_bytes n v : Forall is_byte (le_bytes n v).
Proof.
  revert v. induction n as [|n IH]; intros v; simpl; constructor; [|done].
  apply Z.mod_pos_bound. lia.
Qed.

Lemma le_value_le_bytes n v : le_value (le_bytes n v) = v mod 256 ^ Z.of_nat n.
Proof.
  revert v. induction n as [|n IH]; intros v; cbn [le_bytes le_value]; [by rewrite Z.mod_1_r|].
  rewrite IH, Nat2Z.inj_succ, Z.pow_succ_r by lia.
  assert (0 < 256 ^ Z.of_nat n) by (apply Z.pow_pos_nonneg; lia).
  rewrite Z.rem_mul_r by lia. done.
Qed.

Lemma le_value_bound bytes : Forall is_byte bytes → 0 ≤ le_value bytes < 256 ^ Z.of_nat (length bytes).
Proof.
  induction 1 as [|b bytes Hb _ IH]; cbn [le_value length]; [done|].
  rewrite Nat2Z.inj_succ, Z.pow_succ_r by lia. unfold is_byte in Hb. nia.
Qed.

Lemma le_value_u32 v : 0 ≤ v < 2 ^ 32 → le_value (le_bytes 4 v) = v.
Proof. intros H. rewrite le_value_le_bytes. apply Z.mod_small. lia. Qed.

Lemma i32_roundtrip v : - 2 ^ 31 ≤ v < 2 ^ 31 → to_i32 (of_i32 v) = v.
Proof.
  intros H. unfold to_i32, of_i32. destruct (Z.le_gt_cases 0 v).
  - rewrite Z.mod_small by lia. zbool.
  - rewrite <- (Z.mod_add v 1) by lia. rewrite Z.mod_small by lia. zbool.
Qed.

Lemma of_i32_range v : 0 ≤ of_i32 v < 2 ^ 32.
Proof. apply Z.mod_pos_bound. lia. Qed.

Lemma slice_app pre mid post :
  slice (pre ++ mid ++ post) (Z.of_nat (length pre)) (length mid) = Some mid.
Proof.
  unfold slice. rewrite !length_app, Nat2Z.id, drop_app_length, take_app_length. zbool.
Qed.

Lemma slice_at buffer pre mid post offset size :
  buffer = pre ++ mid ++ post → offset = Z.of_nat (length pre) → size = length mid →
  slice buffer offset size = Some mid.
Proof. intros -> -> ->. apply slice_app. Qed.

Lemma slice_inside buffer offset size :
  0 ≤ offset → offset + Z.of_nat size ≤ Z.of_nat (length buffer) →
  ∃ l, slice buffer offset size = Some l ∧ length l = size.
Proof.
  intros H1 H2. exists (take size (drop (Z.to_nat offset) buffer)). split.
  - unfold slice. zbool.
  - rewrite length_take, length_drop. lia.
Qed.

Lemma slice_bytes buffer offset size l :
  Forall is_byte buffer → slice buffer offset size = Some l →
  Forall is_byte l ∧ length l = size.
Proof.
  intros Hb. unfold slice. destruct (_ && _) eqn:E; [|done]. intros [= <-].
  apply andb_true_iff in E as [E1%Z.leb_le E2%Z.leb_le]. split.
  - by apply Forall_take, Forall_drop.
  - rewrite length_take, length_drop. lia.
Qed.

Lemma read_u32_inside buffer offset :
  0 ≤ offset → offset + 4 ≤ Z.of_nat (length buffer) → is_Some (read_u32 buffer offset).
Proof.
  intros H1 H2. destruct (slice_inside buffer offset 4) as (l & E & _); [done|lia|].
  unfold read_u32. rewrite E. by eexists.
Qed.

Lemma read_u16_inside buffer offset :
  0 ≤ offset → offset + 2 ≤ Z.of_nat (length buffer) → is_Some (read_u16 buffer offset).
Proof.
  intros H1 H2. destruct (slice_inside buffer offset 2) as (l & E & _); [done|lia|].
  unfold read_u16. rewrite E. by eexists.
Qed.

Lemma read_u32_range buffer offset v :
  Forall is_byte buffer → read_u32 buffer offset = Some v → 0 ≤ v < 2 ^ 32.
Proof.
  intros Hb. unfold read_u32. destruct (slice buffer offset 4) as [l|] eqn:E; [|done].
  intros [= <-]. destruct (slice_bytes _ _ _ _ Hb E) as [Hl Hn].
  pose proof (le_value_bound l Hl) as H. rewrite Hn in H. exact H.
Qed.
