(* ===== verification/Records.v ===== *)
(** * Fixed-size records sent through a pipe

    A child that cannot complete its setup writes a fixed-size structure to a pipe,
    in as many pieces as the kernel accepts; the parent collects it in as many
    pieces as the kernel delivers. The loops appear in backend.cpp
    ([report_child_error]) and network_isolation.cpp ([write_failure] and
    [probe_network_policy]). *)

From S2P Require Import Prelude Machine Linux Logic Script Bytes.

Section records.
Context {W : Type} `{K : Kernel W}.

(** [while (offset < sizeof(failure))]: [bytes] is what is left to write. *)
Fixpoint write_record (fuel : nat) (fd : Z) (bytes : list Z) : M W unit :=
  match bytes, fuel with
  | [], _ => mret tt
  | _, O => out_of_fuel
  | _, S n =>
      r ← attempt (sys_write fd bytes);
      match r with
      | Some count =>
          if 0 <? count then write_record n fd (drop (Z.to_nat count) bytes) else mret tt
      | None =>
          e ← get_errno;
          if e =? EINTR then write_record n fd bytes else mret tt
      end
  end.

(** [while (size < bytes.size())]: [missing] bytes are still expected. *)
Fixpoint read_record (fuel : nat) (fd : Z) (missing : nat) (bytes : list Z) : M W (list Z) :=
  match missing, fuel with
  | O, _ => mret bytes
  | _, O => out_of_fuel
  | _, S n =>
      r ← attempt (sys_read fd (Z.of_nat missing));
      match r with
      | Some [] => mret bytes
      | Some piece => read_record n fd (missing - length piece) (bytes ++ piece)
      | None =>
          e ← get_errno;
          if e =? EINTR then read_record n fd missing bytes else mret bytes
      end
  end.

End records.

(** ** What crosses the pipe *)

(** The bytes a write to [fd] put into the pipe. *)
Definition accepted_by (fd : Z) (ev : event) : list Z :=
  match ev with
  | Event c r =>
      match c in call R return R → list Z with
      | sys_write fd' bytes => λ r,
          match r with
          | Ok count => if fd =? fd' then take (Z.to_nat count) bytes else []
          | Err _ => []
          end
      | _ => λ _, []
      end r
  end.

(** The bytes a read from [fd] took out of the pipe. *)
Definition delivered_by (fd : Z) (ev : event) : list Z :=
  match ev with
  | Event c r =>
      match c in call R return R → list Z with
      | sys_read fd' _ => λ r,
          match r with Ok bytes => if fd =? fd' then bytes else [] | Err _ => [] end
      | _ => λ _, []
      end r
  end.

(** The bytes of a stretch of the trace (newest first), oldest byte first. *)
Definition stream (f : event → list Z) (evs : list event) : list Z := concat (f <$> reverse evs).

Lemma stream_cons f ev evs : stream f (ev :: evs) = stream f evs ++ f ev.
Proof.
  unfold stream. rewrite reverse_cons, fmap_app, concat_app. simpl. by rewrite app_nil_r.
Qed.

Lemma stream_app f l1 l2 : stream f (l1 ++ l2) = stream f l2 ++ stream f l1.
Proof. unfold stream. by rewrite reverse_app, fmap_app, concat_app. Qed.

Section transfer.
Context {W : Type} `{K : Kernel W}.

(** Whatever the kernel accepts piece by piece, what enters the pipe is a prefix of
    the record, and no byte of it is repeated or skipped. *)
Lemma wp_write_record fuel fd bytes (s : mstate W) :
  wp (write_record fuel fd bytes) (λ _ s',
    ∃ evs, trace s' = evs ++ trace s ∧ stream (accepted_by fd) evs `prefix_of` bytes) s.
Proof.
  revert bytes s. induction fuel as [|n IH]; intros [|b bytes] s; cbn [write_record].
  1-3: exists []; split; [done|]; apply prefix_nil.
  wp_run; simpl; try (provide_trace; unfold stream; simpl; rewrite ?Z.eqb_refl, ?app_nil_r).
  - match goal with H : (0 <? ?a) = true |- _ => rename a into count end.
    eapply wp_mono; [apply IH|]. intros o s' (evs & E & Hp). simpl in E.
    eexists (evs ++ [_]). rewrite <- app_assoc. split; [exact E|].
    rewrite stream_app, stream_cons. simpl. rewrite Z.eqb_refl.
    rewrite <- (take_drop (Z.to_nat count) (b :: bytes)) at 2. by apply prefix_app.
  - apply prefix_take.
  - eapply wp_mono; [apply IH|]. intros o s' (evs & E & Hp). simpl in E.
    eexists (evs ++ [_]). rewrite <- app_assoc. split; [exact E|].
    by rewrite stream_app, stream_cons.
  - apply prefix_nil.
Qed.

(** What the parent collects is what was delivered to it, in order. *)
Lemma wp_read_record fuel fd missing bytes (s : mstate W) :
  wp (read_record fuel fd missing bytes) (λ o s',
    match o with
    | Done l => ∃ evs, trace s' = evs ++ trace s ∧ l = bytes ++ stream (delivered_by fd) evs
    | OutOfFuel => True
    | _ => False
    end) s.
Proof.
  revert missing bytes s. induction fuel as [|n IH]; intros [|missing] bytes s; cbn [read_record].
  1,3: exists []; by rewrite app_nil_r.
  { done. }
  wp_step. wp_step; wp_run; simpl; try done.
  all: try (provide_trace; unfold stream; simpl; rewrite ?Z.eqb_refl, ?app_nil_r; done).
  all: eapply wp_mono; [apply IH|]; intros [collected|x|c|] s' Hread; try done.
  all: destruct Hread as (evs & E & ->); simpl in E; eexists (evs ++ [_]);
    rewrite <- (app_assoc evs); split; [exact E|];
    rewrite stream_app, stream_cons; simpl; rewrite ?Z.eqb_refl; by rewrite ?app_nil_r, ?app_assoc.
Qed.

End transfer.
