(* ===== verification/Network.v ===== *)
(** * Network isolation (src/network_isolation.cpp)

    The rtnetlink conversation is modelled on the bytes: requests are encoded as the
    C structures lie in memory, answers are walked through offsets into the bytes
    that [recv] delivered, and a read outside those bytes is the result
    [OutOfBounds], which the source would leave to chance. A C++ function that
    returns [false] and fills a [failure] argument returns [inl failure]. *)

From S2P Require Import Prelude Machine Linux Logic Posix Script Pkgexec Bytes Records.

(** [enum class network_setup_stage : std::uint32_t], with the values a copied
    record can hold beside the named ones. *)
Inductive network_setup_stage : Set :=
| network_namespace
| link_inspection
| link_configuration
| policy_validation
| loopback_roundtrip_stage
| network_stage_other (n : Z).

Definition network_stage_number (stage : network_setup_stage) : Z :=
  match stage with
  | network_namespace => 0
  | link_inspection => 1
  | link_configuration => 2
  | policy_validation => 3
  | loopback_roundtrip_stage => 4
  | network_stage_other n => n
  end.

Definition network_stage_of_number (n : Z) : network_setup_stage :=
  if n =? 0 then network_namespace else if n =? 1 then link_inspection
  else if n =? 2 then link_configuration else if n =? 3 then policy_validation
  else if n =? 4 then loopback_roundtrip_stage else network_stage_other n.

Record network_setup_failure : Set := mk_network_failure {
  network_stage : network_setup_stage;
  network_error : Z
}.

Record link_snapshot : Set := mk_snapshot {
  count : Z;
  loopback_count : Z;
  loopback_index : Z;
  loopback_flags : Z
}.

Definition empty_snapshot : link_snapshot := mk_snapshot 0 0 0 0.

(** Sizes of [nlmsghdr], [ifinfomsg] and [nlmsgerr], and the netlink macros. *)
Definition sizeof_nlmsghdr : Z := 16.
Definition sizeof_ifinfomsg : Z := 16.
Definition sizeof_nlmsgerr : Z := 20.
Definition NLMSG_ALIGN (len : Z) : Z := Z.land (u32 (len + 3)) (u32 (-4)).
Definition NLMSG_LENGTH (len : Z) : Z := len + sizeof_nlmsghdr.

(** ** Walking a receive buffer *)

(** [valid_netlink_message(header, remaining)] for the header at [offset]. *)
Definition valid_netlink_message (buffer : list Z) (offset remaining : Z) : option bool :=
  if negb (sizeof_nlmsghdr <=? remaining) then Some false
  else
    len ← read_u32 buffer offset;
    Some ((sizeof_nlmsghdr <=? len) && (len <=? u32 remaining)).

(** [next_netlink_message(header, remaining)]: the next offset and what remains. *)
Definition next_netlink_message (buffer : list Z) (offset remaining : Z) : option (Z * Z) :=
  len ← read_u32 buffer offset;
  let aligned := to_i32 (NLMSG_ALIGN len) in
  Some (offset + aligned, remaining - aligned).

(** How the [for] loop over the messages of one buffer ends. *)
Inductive walk_result (S R : Type) : Type :=
| Fell (state : S)
| Returned (r : R)
| OutOfBounds
| Starved.
Arguments Fell {S R} state.
Arguments Returned {S R} r.
Arguments OutOfBounds {S R}.
Arguments Starved {S R}.

(** The loop: [visit offset state] is the body, [inl] for [continue] (and for falling
    through to the next message), [inr] for [return], [None] for a read outside. *)
Fixpoint walk {S R : Type} (fuel : nat) (visit : Z → S → option (S + R)) (buffer : list Z)
    (offset remaining : Z) (state : S) : walk_result S R :=
  match fuel with
  | O => Starved
  | Datatypes.S n =>
      match valid_netlink_message buffer offset remaining with
      | None => OutOfBounds
      | Some false => Fell state
      | Some true =>
          match visit offset state with
          | None => OutOfBounds
          | Some (inr r) => Returned r
          | Some (inl state) =>
              match next_netlink_message buffer offset remaining with
              | None => OutOfBounds
              | Some (offset, remaining) => walk n visit buffer offset remaining state
              end
          end
      end
  end.

(** The value a body returns, and the [errno] it sets first. *)
Definition verdict : Type := bool * option Z.

(** The body of the loop in [receive_ack]. *)
Definition ack_message (sequence : Z) (buffer : list Z) (offset : Z) (_ : unit)
    : option (unit + verdict) :=
  seq ← read_u32 buffer (offset + 8);
  if negb (seq =? sequence) then Some (inl tt)
  else
    type ← read_u16 buffer (offset + 4);
    if negb (type =? NLMSG_ERROR) then Some (inl tt)
    else
      len ← read_u32 buffer offset;
      if len <? NLMSG_LENGTH sizeof_nlmsgerr then Some (inr (false, Some EIO))
      else
        error ← read_i32 buffer (offset + sizeof_nlmsghdr);
        if error =? 0 then Some (inr (true, None)) else Some (inr (false, Some (- error))).

(** The effect of one [RTM_NEWLINK] message on the snapshot. *)
Definition add_link (index flags : Z) (snapshot : link_snapshot) : link_snapshot :=
  let seen := u32 (count snapshot + 1) in
  if negb (Z.land flags IFF_LOOPBACK =? 0)
  then mk_snapshot seen (u32 (loopback_count snapshot + 1)) index flags
  else mk_snapshot seen (loopback_count snapshot) (loopback_index snapshot)
         (loopback_flags snapshot).

(** The body of the loop in [inspect_links]. *)
Definition link_message (sequence : Z) (buffer : list Z) (offset : Z) (snapshot : link_snapshot)
    : option (link_snapshot + (verdict * link_snapshot)) :=
  seq ← read_u32 buffer (offset + 8);
  if negb (seq =? sequence) then Some (inl snapshot)
  else
    type ← read_u16 buffer (offset + 4);
    if type =? NLMSG_DONE then Some (inr ((true, None), snapshot))
    else
      len ← read_u32 buffer offset;
      if type =? NLMSG_ERROR then
        if len <? NLMSG_LENGTH sizeof_nlmsgerr then Some (inr ((false, Some EIO), snapshot))
        else
          error ← read_i32 buffer (offset + sizeof_nlmsghdr);
          Some (inr ((false, Some (if error =? 0 then EIO else - error)), snapshot))
      else if negb (type =? RTM_NEWLINK) || (len <? NLMSG_LENGTH sizeof_ifinfomsg)
      then Some (inl snapshot)
      else
        index ← read_i32 buffer (offset + sizeof_nlmsghdr + 4);
        flags ← read_u32 buffer (offset + sizeof_nlmsghdr + 8);
        Some (inl (add_link index flags snapshot)).

(** The walks of a whole received buffer: [remaining = static_cast<int>(received)],
    where [received] is at most the size of the buffer. *)
Definition ack_walk (sequence : Z) (buffer : list Z) : walk_result unit verdict :=
  walk (S (length buffer)) (ack_message sequence buffer) buffer 0 (Z.of_nat (length buffer)) tt.
Definition link_walk (sequence : Z) (buffer : list Z) (snapshot : link_snapshot)
    : walk_result link_snapshot (verdict * link_snapshot) :=
  walk (S (length buffer)) (link_message sequence buffer) buffer 0 (Z.of_nat (length buffer))
    snapshot.

(** [nlmsghdr] and [ifinfomsg] as they lie in memory. *)
Definition encode_header (len type flags seq : Z) : list Z :=
  le_bytes 4 len ++ le_bytes 2 type ++ le_bytes 2 flags ++ le_bytes 4 seq ++ le_bytes 4 0.
Definition encode_link (family index flags change : Z) : list Z :=
  le_bytes 1 family ++ le_bytes 1 0 ++ le_bytes 2 0 ++
  le_bytes 4 (of_i32 index) ++ le_bytes 4 flags ++ le_bytes 4 change.

Section network.
Context {W : Type} `{K : Kernel W}.

(** ** The conversation *)

Definition open_route_socket : M W Z :=
  fd ← descriptor (sys_socket AF_NETLINK (Z.lor SOCK_RAW SOCK_CLOEXEC) NETLINK_ROUTE);
  if negb (fd_bool fd) then mret (-1)
  else
    bound ← succeeds (sys_bind fd sockaddr_nl);
    if (bound : bool) then mret fd else fd_destroy fd;; mret (-1).

Fixpoint send_netlink (fuel : nat) (fd : Z) (message : list Z) : M W bool :=
  match fuel with
  | O => out_of_fuel
  | S n =>
      r ← attempt (sys_sendto fd message 0 sockaddr_nl);
      match r with
      | Some count =>
          if count =? Z.of_nat (length message) then mret true
          else set_errno EIO;; mret false
      | None =>
          e ← get_errno;
          if e =? EINTR then send_netlink n fd message else mret false
      end
  end.

(** [errno = value; return okay]. *)
Definition conclude (v : verdict) : M W bool :=
  (match v.2 with Some e => set_errno e | None => mret tt end);;
  mret v.1.

Fixpoint receive_ack (fuel : nat) (fd sequence : Z) : M W bool :=
  match fuel with
  | O => out_of_fuel
  | S n =>
      r ← attempt (sys_recv fd 8192 0);
      match r with
      | None =>
          e ← get_errno;
          if e =? EINTR then receive_ack n fd sequence else mret false
      | Some [] => set_errno EIO;; mret false
      | Some buffer =>
          match ack_walk sequence buffer with
          | Fell _ => receive_ack n fd sequence
          | Returned v => conclude v
          | OutOfBounds | Starved => out_of_fuel
          end
      end
  end.

(** The receive loop of [inspect_links]. *)
Fixpoint collect_links (fuel : nat) (fd sequence : Z) (snapshot : link_snapshot)
    : M W (bool * link_snapshot) :=
  match fuel with
  | O => out_of_fuel
  | S n =>
      r ← attempt (sys_recv fd 16384 0);
      match r with
      | None =>
          e ← get_errno;
          if e =? EINTR then collect_links n fd sequence snapshot else mret (false, snapshot)
      | Some [] => set_errno EIO;; mret (false, snapshot)
      | Some buffer =>
          match link_walk sequence buffer snapshot with
          | Fell snapshot => collect_links n fd sequence snapshot
          | Returned (v, snapshot) => okay ← conclude v; mret (okay, snapshot)
          | OutOfBounds | Starved => out_of_fuel
          end
      end
  end.

Definition inspect_links (fuel : nat) (fd : Z) : M W (bool * link_snapshot) :=
  let len := NLMSG_LENGTH sizeof_ifinfomsg in
  sent ← send_netlink fuel fd
    (encode_header len RTM_GETLINK (Z.lor NLM_F_REQUEST NLM_F_DUMP) 1 ++
     encode_link AF_UNSPEC 0 0 0);
  if negb sent then mret (false, empty_snapshot)
  else collect_links fuel fd 1 empty_snapshot.

Definition set_link_up (fuel : nat) (fd index : Z) (up : bool) : M W bool :=
  let len := NLMSG_LENGTH sizeof_ifinfomsg in
  sent ← send_netlink fuel fd
    (encode_header len RTM_NEWLINK (Z.lor NLM_F_REQUEST NLM_F_ACK) 2 ++
     encode_link AF_UNSPEC index (if up then IFF_UP else 0) IFF_UP);
  if negb sent then mret false else receive_ack fuel fd 2.

Definition snapshot_matches (snapshot : link_snapshot) (policy : network_policy) : bool :=
  if negb (count snapshot =? 1) || negb (loopback_count snapshot =? 1) ||
     (loopback_index snapshot <=? 0) then false
  else
    let loopback_up := negb (Z.land (loopback_flags snapshot) IFF_UP =? 0) in
    if bool_decide (policy = network_loopback_only) then loopback_up else negb loopback_up.

(** ** Establishing and probing the policy *)

Definition loopback_roundtrip : M W bool :=
  with_fd (descriptor (sys_socket AF_INET (Z.lor SOCK_STREAM SOCK_CLOEXEC) 0)) (λ listener,
  if negb (fd_bool listener) then mret false
  else
  bound ← succeeds (sys_bind listener (sockaddr_in INADDR_LOOPBACK 0));
  listening ← (if (bound : bool) then succeeds (sys_listen listener 1) else mret false);
  if negb listening then mret false
  else
  address ← attempt (sys_getsockname listener);
  match address with
  | None => mret false
  | Some address =>
  with_fd (descriptor (sys_socket AF_INET (Z.lor SOCK_STREAM SOCK_CLOEXEC) 0)) (λ client,
  connected ← (if fd_bool client then succeeds (sys_connect client address) else mret false);
  if negb connected then mret false
  else
  with_fd (descriptor (sys_accept4 listener SOCK_CLOEXEC)) (λ accepted,
  if negb (fd_bool accepted) then mret false
  else
  sent ← attempt (sys_send client [110] MSG_NOSIGNAL);
  okay ← (if bool_decide (sent = Some 1) then
            received ← attempt (sys_recv accepted 1 MSG_WAITALL);
            mret (bool_decide (received = Some [110]))
          else mret false);
  if (okay : bool) then mret true else set_errno EIO;; mret false))
  end).

(** [failure = {stage, errno}; return false]. *)
Definition network_fail (stage : network_setup_stage) : M W (network_setup_failure + unit) :=
  e ← get_errno; mret (inl (mk_network_failure stage e)).

Definition setup_network_policy (fuel : nat) (policy : network_policy)
    : M W (network_setup_failure + unit) :=
  if bool_decide (policy = network_allowed) then mret (inr tt)
  else
  unshared ← succeeds (sys_unshare CLONE_NEWNET);
  if negb unshared then network_fail network_namespace
  else
  with_fd open_route_socket (λ route,
  if negb (fd_bool route) then network_fail link_inspection
  else
  first ← inspect_links fuel route;
  let '(inspected, initial) := (first : bool * link_snapshot) in
  if negb inspected then network_fail link_inspection
  else if negb (count initial =? 1) || negb (loopback_count initial =? 1) ||
          (loopback_index initial <=? 0)
  then mret (inl (mk_network_failure policy_validation ENODEV))
  else
  configured ← set_link_up fuel route (loopback_index initial)
                 (bool_decide (policy = network_loopback_only));
  if negb configured then network_fail link_configuration
  else
  second ← inspect_links fuel route;
  let '(inspected, established) := (second : bool * link_snapshot) in
  if negb inspected then network_fail link_inspection
  else if negb (snapshot_matches established policy)
  then mret (inl (mk_network_failure policy_validation EIO))
  else mret (inr tt)).

(** [network_setup_failure] as it lies in memory, and back by [std::memcpy]. *)
Definition encode_network_failure (f : network_setup_failure) : list Z :=
  le_bytes 4 (network_stage_number (network_stage f)) ++ le_bytes 4 (of_i32 (network_error f)).
Definition decode_network_failure (bytes : list Z) : network_setup_failure :=
  mk_network_failure (network_stage_of_number (le_value (take 4 bytes)))
    (to_i32 (le_value (take 4 (drop 4 bytes)))).
Definition sizeof_network_failure : nat := 8.

Definition write_failure (fuel : nat) (fd : Z) (failure : network_setup_failure) : M W unit :=
  write_record fuel fd (encode_network_failure failure).

(** The child branch of [probe_network_policy]; it always leaves through [_exit]. *)
Definition probe_network_child (fuel : nat) (policy : network_policy) (report_read report_write : Z)
    : M W (network_setup_failure + unit) :=
  ignore (sys_close report_read);;
  r ← setup_network_policy fuel policy;
  match r with
  | inl child_failure => write_failure fuel report_write child_failure;; exit_process 1
  | inr _ =>
      reached ← (if bool_decide (policy = network_loopback_only) then loopback_roundtrip
                 else mret true);
      if negb reached then
        e ← get_errno;
        write_failure fuel report_write
          (mk_network_failure loopback_roundtrip_stage (if e =? 0 then EIO else e));;
        exit_process 1
      else
        ignore (sys_close report_write);;
        exit_process 0
  end.

(** What the parent concludes from the wait and from the bytes of the report. *)
Definition network_probe_verdict (status : Z) (bytes : list Z) : network_setup_failure + unit :=
  if exited_zero status && (length bytes =? 0)%nat then inr tt
  else if (length bytes =? sizeof_network_failure)%nat then inl (decode_network_failure bytes)
  else inl (mk_network_failure policy_validation EIO).

Definition probe_network_parent (fuel : nat) (child report_read report_write : Z)
    : M W (network_setup_failure + unit) :=
  ignore (sys_close report_write);;
  bytes ← read_record fuel report_read sizeof_network_failure [];
  ignore (sys_close report_read);;
  waited ← retry_eintr fuel (sys_waitpid child);
  match waited with
  | Some (pid, status) =>
      if pid =? child then mret (network_probe_verdict status bytes)
      else
        e ← get_errno;
        mret (inl (mk_network_failure policy_validation (if e =? 0 then ECHILD else e)))
  | None =>
      e ← get_errno;
      mret (inl (mk_network_failure policy_validation (if e =? 0 then ECHILD else e)))
  end.

Definition probe_network_policy (fuel : nat) (policy : network_policy)
    : M W (network_setup_failure + unit) :=
  if bool_decide (policy = network_allowed) then mret (inr tt)
  else
    report ← attempt (sys_pipe2 O_CLOEXEC);
    match report with
    | None => network_fail network_namespace
    | Some (report_read, report_write) =>
        forked ← attempt sys_fork;
        match forked with
        | None =>
            failure ← network_fail network_namespace;
            ignore (sys_close report_read);; ignore (sys_close report_write);;
            mret failure
        | Some child =>
            if child =? 0 then probe_network_child fuel policy report_read report_write
            else probe_network_parent fuel child report_read report_write
        end
    end.

End network.

Definition network_stage_name (stage : network_setup_stage) : string :=
  match stage with
  | network_namespace => "network namespace"
  | link_inspection => "network link inspection"
  | link_configuration => "loopback configuration"
  | policy_validation => "network policy validation"
  | loopback_roundtrip_stage => "loopback round trip"
  | network_stage_other _ => "network isolation"
  end.

(** ** The walk stays inside what was received *)

(** A walk that ended in the program's own way. *)
Definition defined {S R} (r : walk_result S R) : Prop :=
  match r with Fell _ | Returned _ => True | OutOfBounds | Starved => False end.

Lemma align_value len : 0 ≤ len < 2 ^ 31 → NLMSG_ALIGN len = 4 * ((len + 3) / 4).
Proof.
  intros H. unfold NLMSG_ALIGN, u32. rewrite (Z.mod_small (len + 3)) by lia.
  change (-4 mod 2 ^ 32) with (Z.ldiff (Z.ones 32) (Z.ones 2)).
  assert (E : Z.land (len + 3) (Z.ldiff (Z.ones 32) (Z.ones 2)) =
              Z.ldiff (Z.land (len + 3) (Z.ones 32)) (Z.ones 2)).
  { apply Z.bits_inj'. intros n Hn. rewrite Z.land_spec, !Z.ldiff_spec, Z.land_spec.
    by rewrite andb_assoc. }
  rewrite E, Z.land_ones, Z.mod_small, Z.ldiff_ones_r, Z.shiftl_mul_pow2, Z.shiftr_div_pow2 by lia.
  change (2 ^ 2) with 4. lia.
Qed.

Lemma align_bounds len : 0 ≤ len < 2 ^ 31 → len ≤ NLMSG_ALIGN len < len + 4.
Proof.
  intros H. rewrite align_value by done.
  pose proof (Z.div_mod (len + 3) 4). pose proof (Z.mod_pos_bound (len + 3) 4). lia.
Qed.

Lemma valid_message_some buffer offset remaining :
  0 ≤ offset → offset + remaining ≤ Z.of_nat (length buffer) →
  ∃ b, valid_netlink_message buffer offset remaining = Some b.
Proof.
  intros Ho Hr. unfold valid_netlink_message, sizeof_nlmsghdr.
  destruct (Z.leb_spec 16 remaining); cbn [negb]; [|eauto].
  destruct (read_u32_inside buffer offset) as [len ->]; [lia..|]. simpl. eauto.
Qed.

Lemma valid_message_true buffer offset remaining :
  remaining < 2 ^ 31 → valid_netlink_message buffer offset remaining = Some true →
  ∃ len, read_u32 buffer offset = Some len ∧ 16 ≤ len ≤ remaining.
Proof.
  intros Hr. unfold valid_netlink_message, sizeof_nlmsghdr.
  destruct (Z.leb_spec 16 remaining); cbn [negb]; [|done].
  destruct (read_u32 buffer offset) as [len|]; [|done]. simpl.
  intros [= [H1%Z.leb_le H2%Z.leb_le]%andb_true_iff]. exists len.
  unfold u32 in H2. rewrite Z.mod_small in H2 by lia. done.
Qed.

(** The loop is safe and terminates for every body that is itself safe on a message
    whose header and stated length lie inside the buffer. *)
Lemma walk_safe {S R} (visit : Z → S → option (S + R)) buffer :
  (∀ offset len state, 0 ≤ offset → read_u32 buffer offset = Some len → 16 ≤ len →
     offset + len ≤ Z.of_nat (length buffer) → is_Some (visit offset state)) →
  ∀ fuel offset remaining state, 0 ≤ offset → remaining < 2 ^ 30 →
    offset + remaining ≤ Z.of_nat (length buffer) → Z.max 0 remaining < Z.of_nat fuel →
    defined (walk fuel visit buffer offset remaining state).
Proof.
  intros Hvisit. induction fuel as [|fuel IH]; intros offset remaining state Ho H30 Hr Hf;
    cbn [walk].
  - lia.
  - destruct (valid_message_some buffer offset remaining Ho Hr) as [[|] E]; rewrite E; [|done].
    destruct (valid_message_true buffer offset remaining) as (len & El & H1 & H2); [lia|done|].
    destruct (Hvisit offset len state) as [[state'|r] ->]; [done..|lia| |done].
    unfold next_netlink_message. rewrite El. cbn [mbind option_bind].
    pose proof (align_bounds len). unfold to_i32.
    destruct (Z.ltb_spec (NLMSG_ALIGN len) (2 ^ 31)); [|lia]. apply IH; lia.
Qed.

Lemma ack_message_safe sequence buffer offset len state :
  0 ≤ offset → read_u32 buffer offset = Some len → 16 ≤ len →
  offset + len ≤ Z.of_nat (length buffer) → is_Some (ack_message sequence buffer offset state).
Proof.
  intros Ho El H16 Hin. unfold ack_message, NLMSG_LENGTH, sizeof_nlmsgerr, sizeof_nlmsghdr.
  destruct (read_u32_inside buffer (offset + 8)) as [seq ->]; [lia..|]. simpl.
  destruct (seq =? sequence); simpl; [|eauto].
  destruct (read_u16_inside buffer (offset + 4)) as [type ->]; [lia..|]. simpl.
  destruct (type =? NLMSG_ERROR); simpl; [|eauto]. rewrite El. simpl.
  destruct (Z.ltb_spec len (20 + 16)); [eauto|].
  unfold read_i32. destruct (read_u32_inside buffer (offset + 16)) as [error ->]; [lia..|].
  simpl. case_match; eauto.
Qed.

Lemma link_message_safe sequence buffer offset len state :
  0 ≤ offset → read_u32 buffer offset = Some len → 16 ≤ len →
  offset + len ≤ Z.of_nat (length buffer) → is_Some (link_message sequence buffer offset state).
Proof.
  intros Ho El H16 Hin. unfold link_message, NLMSG_LENGTH, sizeof_nlmsgerr, sizeof_ifinfomsg,
    sizeof_nlmsghdr.
  destruct (read_u32_inside buffer (offset + 8)) as [seq ->]; [lia..|]. simpl.
  destruct (seq =? sequence); simpl; [|eauto].
  destruct (read_u16_inside buffer (offset + 4)) as [type ->]; [lia..|]. simpl.
  destruct (type =? NLMSG_DONE); [eauto|]. rewrite El. simpl.
  destruct (type =? NLMSG_ERROR).
  - destruct (Z.ltb_spec len (20 + 16)); [eauto|].
    unfold read_i32. destruct (read_u32_inside buffer (offset + 16)) as [error ->]; [lia..|].
    simpl. eauto.
  - destruct (type =? RTM_NEWLINK); simpl; [|eauto]. destruct (Z.ltb_spec len (16 + 16)); [eauto|].
    unfold read_i32.
    destruct (read_u32_inside buffer (offset + 16 + 4)) as [index ->]; [lia..|]. simpl.
    destruct (read_u32_inside buffer (offset + 16 + 8)) as [flags ->]; [lia..|]. simpl. eauto.
Qed.

(** C25: Whatever bytes the kernel delivers, the two message loops over a receive
    buffer of at most 16384 bytes read nothing outside the delivered bytes and end:
    a message header, its error code and its link fields are read only where a whole
    header, or a length the header states, was checked against what remains. *)
Theorem netlink_walks_safe sequence buffer snapshot :
  Z.of_nat (length buffer) ≤ 16384 →
  defined (ack_walk sequence buffer) ∧ defined (link_walk sequence buffer snapshot).
Proof.
  intros H. split; apply walk_safe; try lia.
  - apply ack_message_safe.
  - apply link_message_safe.
Qed.

(** A buffer with one link message cut short: its header says 32 bytes, 20 arrived. *)
Definition cut_short : list Z := take 20 (encode_header 32 RTM_NEWLINK 0 1 ++ encode_link 0 1 8 0).

Lemma netlink_walks_safe_witness :
  Z.of_nat (length cut_short) ≤ 16384 ∧
  defined (ack_walk 1 cut_short) ∧ defined (link_walk 1 cut_short empty_snapshot).
Proof.
  split; [vm_compute; discriminate|].
  apply (netlink_walks_safe 1 cut_short empty_snapshot). vm_compute. discriminate.
Defined.

(** ** Reading a link dump *)

(** A link as the kernel reports it: interface index, flags, and the attributes
    that follow [ifinfomsg] in the message. *)
Record link : Set := mk_link { link_index : Z; link_flags : Z; link_attributes : list Z }.

Definition padding (len : Z) : list Z := replicate (Z.to_nat (NLMSG_ALIGN len - len)) 0.

(** An [RTM_NEWLINK] message of a dump with its padding, and the end of a dump. *)
Definition dump_message (m : Z * link) : list Z :=
  let '(seq, l) := m in
  let len := 32 + Z.of_nat (length (link_attributes l)) in
  encode_header len RTM_NEWLINK 2 seq ++
  encode_link AF_UNSPEC (link_index l) (link_flags l) 0 ++ link_attributes l ++ padding len.
Definition dump_end (seq : Z) : list Z := encode_header 20 NLMSG_DONE 2 seq ++ le_bytes 4 0.

Definition valid_link (m : Z * link) : Prop :=
  0 ≤ m.1 < 2 ^ 32 ∧ - 2 ^ 31 ≤ link_index m.2 < 2 ^ 31 ∧ 0 ≤ link_flags m.2 < 2 ^ 32.

(** What the messages of a dump add up to: those of another sequence do not count. *)
Definition summarize (sequence : Z) (links : list (Z * link)) (start : link_snapshot)
    : link_snapshot :=
  foldl (λ s m, if m.1 =? sequence then add_link (link_index m.2) (link_flags m.2) s else s)
    start links.

(** Read an integer that was encoded between [pre] and [post]. *)
Lemma read_u32_at buffer pre v post offset :
  buffer = pre ++ le_bytes 4 v ++ post → offset = Z.of_nat (length pre) → 0 ≤ v < 2 ^ 32 →
  read_u32 buffer offset = Some v.
Proof.
  intros Hb Ho Hv. unfold read_u32. rewrite (slice_at buffer pre (le_bytes 4 v) post); try done.
  change (Some (le_value (le_bytes 4 v)) = Some v). f_equal. by apply le_value_u32.
Qed.

Lemma read_u16_at buffer pre v post offset :
  buffer = pre ++ le_bytes 2 v ++ post → offset = Z.of_nat (length pre) → 0 ≤ v < 2 ^ 16 →
  read_u16 buffer offset = Some v.
Proof.
  intros Hb Ho Hv. unfold read_u16. rewrite (slice_at buffer pre (le_bytes 2 v) post); try done.
  change (Some (le_value (le_bytes 2 v)) = Some v). rewrite le_value_le_bytes.
  f_equal. by apply Z.mod_small.
Qed.

Lemma read_i32_at buffer pre v post offset :
  buffer = pre ++ le_bytes 4 (of_i32 v) ++ post → offset = Z.of_nat (length pre) →
  - 2 ^ 31 ≤ v < 2 ^ 31 → read_i32 buffer offset = Some v.
Proof.
  intros Hb Ho Hv. unfold read_i32. rewrite (read_u32_at buffer pre (of_i32 v) post); try done.
  - simpl. f_equal. by apply i32_roundtrip.
  - apply of_i32_range.
Qed.

(** The fields of a header that starts after [pre]. *)
Lemma header_fields buffer pre len type flags seq post offset :
  buffer = pre ++ encode_header len type flags seq ++ post → offset = Z.of_nat (length pre) →
  0 ≤ len < 2 ^ 32 → 0 ≤ type < 2 ^ 16 → 0 ≤ seq < 2 ^ 32 →
  read_u32 buffer offset = Some len ∧ read_u16 buffer (offset + 4) = Some type ∧
  read_u32 buffer (offset + 8) = Some seq.
Proof.
  intros Hb Ho Hl Ht Hs. unfold encode_header in Hb. rewrite <- !app_assoc in Hb. split_and!.
  - by eapply read_u32_at.
  - eapply (read_u16_at _ (pre ++ le_bytes 4 len)); [by rewrite <- app_assoc|..|done].
    rewrite length_app, length_le_bytes. lia.
  - eapply (read_u32_at _ (pre ++ le_bytes 4 len ++ le_bytes 2 type ++ le_bytes 2 flags));
      [by rewrite <- !app_assoc|..|done].
    rewrite !length_app, !length_le_bytes. lia.
Qed.

Lemma link_fields buffer pre header family index flags change post offset :
  buffer = pre ++ header ++ encode_link family index flags change ++ post →
  length header = 16%nat → offset = Z.of_nat (length pre) →
  - 2 ^ 31 ≤ index < 2 ^ 31 → 0 ≤ flags < 2 ^ 32 →
  read_i32 buffer (offset + 16 + 4) = Some index ∧
  read_u32 buffer (offset + 16 + 8) = Some flags.
Proof.
  intros Hb Hh Ho Hi Hf. unfold encode_link in Hb. rewrite <- !app_assoc in Hb.
  set (front := pre ++ header ++ le_bytes 1 family ++ le_bytes 1 0 ++ le_bytes 2 0).
  assert (length front = (length pre + 20)%nat) as Hfront.
  { unfold front. rewrite !length_app, !length_le_bytes, Hh. lia. }
  split.
  - eapply (read_i32_at _ front); [unfold front; by rewrite <- !app_assoc|lia|done].
  - eapply (read_u32_at _ (front ++ le_bytes 4 (of_i32 index)));
      [unfold front; by rewrite <- !app_assoc| |done].
    rewrite length_app, length_le_bytes. lia.
Qed.

Lemma length_encode_header len type flags seq : length (encode_header len type flags seq) = 16%nat.
Proof. done. Qed.
Lemma length_encode_link family index flags change :
  length (encode_link family index flags change) = 16%nat.
Proof. done. Qed.

Lemma length_dump_message seq l :
  Z.of_nat (length (link_attributes l)) < 2 ^ 30 →
  Z.of_nat (length (dump_message (seq, l))) =
  NLMSG_ALIGN (32 + Z.of_nat (length (link_attributes l))).
Proof.
  intros H. unfold dump_message, padding.
  rewrite !length_app, length_encode_header, length_encode_link, length_replicate.
  pose proof (align_bounds (32 + Z.of_nat (length (link_attributes l)))). lia.
Qed.

(** One message of a dump: the header is accepted, the body does what [summarize]
    says, and the walk goes on right behind the message. *)
Lemma walk_dump_message sequence pre m post n state :
  valid_link m → Z.of_nat (length (pre ++ dump_message m ++ post)) < 2 ^ 30 →
  let buffer := pre ++ dump_message m ++ post in
  walk (S n) (link_message sequence buffer) buffer (Z.of_nat (length pre))
    (Z.of_nat (length (dump_message m ++ post))) state =
  walk n (link_message sequence buffer) buffer (Z.of_nat (length (pre ++ dump_message m)))
    (Z.of_nat (length post)) (summarize sequence [m] state).
Proof.
  destruct m as [seq l]. intros (Hs & Hi & Hf) Hlen buffer. simpl in Hs, Hi, Hf.
  rewrite !length_app in Hlen.
  assert (Ha : Z.of_nat (length (link_attributes l)) < 2 ^ 30).
  { revert Hlen. unfold dump_message. rewrite !length_app. lia. }
  pose proof (length_dump_message seq l Ha) as Hd.
  set (len := 32 + Z.of_nat (length (link_attributes l))) in *.
  pose proof (align_bounds len ltac:(lia)) as Hal.
  destruct (header_fields buffer pre len RTM_NEWLINK 2 seq
    ((encode_link AF_UNSPEC (link_index l) (link_flags l) 0 ++ link_attributes l ++ padding len)
     ++ post) (Z.of_nat (length pre))) as (El & Et & Es); [|done|lia|done|done|].
  { unfold buffer, dump_message. fold len. by rewrite <- !app_assoc. }
  cbn [walk]. unfold valid_netlink_message, next_netlink_message, link_message.
  rewrite El, Et, Es. unfold sizeof_nlmsghdr. cbn [mbind option_bind].
  rewrite (length_app (dump_message _)), Nat2Z.inj_add, Hd.
  unfold u32. rewrite (Z.mod_small (NLMSG_ALIGN len + _)) by lia.
  destruct (Z.leb_spec 16 (NLMSG_ALIGN len + Z.of_nat (length post))); [|lia].
  destruct (Z.leb_spec 16 len); [|lia].
  destruct (Z.leb_spec len (NLMSG_ALIGN len + Z.of_nat (length post))); [|lia].
  cbn [negb andb summarize foldl fst snd].
  assert (Enext : (Z.of_nat (length pre) + to_i32 (NLMSG_ALIGN len),
                   NLMSG_ALIGN len + Z.of_nat (length post) - to_i32 (NLMSG_ALIGN len)) =
                  (Z.of_nat (length (pre ++ dump_message (seq, l))), Z.of_nat (length post))).
  { unfold to_i32. destruct (Z.ltb_spec (NLMSG_ALIGN len) (2 ^ 31)); [|lia].
    rewrite length_app, Nat2Z.inj_add, Hd. f_equal; lia. }
  destruct (seq =? sequence); cbn [negb]; [|by injection Enext as -> ->].
  change (RTM_NEWLINK =? NLMSG_DONE) with false. change (RTM_NEWLINK =? NLMSG_ERROR) with false.
  change (RTM_NEWLINK =? RTM_NEWLINK) with true. cbn [negb orb].
  change (NLMSG_LENGTH sizeof_ifinfomsg) with 32.
  destruct (Z.ltb_spec len 32); [lia|].
  destruct (link_fields buffer pre (encode_header len RTM_NEWLINK 2 seq) AF_UNSPEC (link_index l)
    (link_flags l) 0 ((link_attributes l ++ padding len) ++ post) (Z.of_nat (length pre)))
    as [Ei Ef]; [|done..|].
  { unfold buffer, dump_message. fold len. by rewrite <- !app_assoc. }
  rewrite Ei, Ef. cbn [mbind option_bind]. by injection Enext as -> ->.
Qed.

Lemma walk_dump_end sequence pre n state :
  0 ≤ sequence < 2 ^ 32 → Z.of_nat (length (pre ++ dump_end sequence)) < 2 ^ 30 →
  let buffer := pre ++ dump_end sequence in
  walk (S n) (link_message sequence buffer) buffer (Z.of_nat (length pre))
    (Z.of_nat (length (dump_end sequence))) state = Returned ((true, None), state).
Proof.
  intros Hs Hlen buffer.
  destruct (header_fields buffer pre 20 NLMSG_DONE 2 sequence (le_bytes 4 0)
    (Z.of_nat (length pre))) as (El & Et & Es); [done..|lia|done|done|].
  cbn [walk]. unfold valid_netlink_message, link_message. rewrite El, Et, Es.
  cbn [mbind option_bind]. rewrite Z.eqb_refl. done.
Qed.

Lemma walk_dump sequence links : ∀ pre fuel state,
  0 ≤ sequence < 2 ^ 32 → Forall valid_link links → (length links < fuel)%nat →
  let rest := concat (dump_message <$> links) ++ dump_end sequence in
  Z.of_nat (length (pre ++ rest)) < 2 ^ 30 →
  walk fuel (link_message sequence (pre ++ rest)) (pre ++ rest) (Z.of_nat (length pre))
    (Z.of_nat (length rest)) state = Returned ((true, None), summarize sequence links state).
Proof.
  induction links as [|m links IH]; intros pre fuel state Hs Hv Hf rest Hlen.
  - destruct fuel as [|n]; [simpl in Hf; lia|]. by apply walk_dump_end.
  - destruct fuel as [|n]; [simpl in Hf; lia|]. apply Forall_cons_iff in Hv as [Hm Hv].
    set (tail := concat (dump_message <$> links) ++ dump_end sequence).
    assert (E : rest = dump_message m ++ tail) by (unfold rest, tail; simpl; by rewrite app_assoc).
    rewrite E in *. rewrite walk_dump_message by done.
    rewrite (app_assoc pre). rewrite (IH (pre ++ dump_message m) n); try done.
    + simpl in Hf. lia.
    + fold tail. by rewrite <- app_assoc.
Qed.

Lemma length_dump links :
  (length links ≤ length (concat (dump_message <$> links)))%nat.
Proof.
  induction links as [|[seq l] links IH]; [simpl; lia|].
  rewrite fmap_cons. cbn [concat length]. rewrite length_app.
  unfold dump_message at 1. rewrite length_app, length_encode_header. lia.
Qed.

(** C33: A dump whose messages the kernel packed into one receive is read back
    exactly: the walk reports the end of the dump, and the snapshot has counted
    every link of the asked sequence, whatever its attributes and its padding,
    counted the loopback links among them, and kept index and flags of the last
    of these; messages of another sequence leave no trace. *)
Theorem link_dump_roundtrip sequence links snapshot :
  0 ≤ sequence < 2 ^ 32 → Forall valid_link links →
  Z.of_nat (length (concat (dump_message <$> links) ++ dump_end sequence)) ≤ 16384 →
  link_walk sequence (concat (dump_message <$> links) ++ dump_end sequence) snapshot =
  Returned ((true, None), summarize sequence links snapshot).
Proof.
  intros Hs Hv Hlen. apply (walk_dump sequence links []); try done.
  - rewrite length_app. pose proof (length_dump links). lia.
  - simpl. lia.
Qed.

Definition sample_links : list (Z * link) :=
  [(1, mk_link 1 9 [3; 0; 2]); (7, mk_link 5 8 []); (1, mk_link 2 4098 [1; 2; 3; 4])].

Lemma link_dump_roundtrip_witness :
  link_walk 1 (concat (dump_message <$> sample_links) ++ dump_end 1) empty_snapshot =
  Returned ((true, None), mk_snapshot 2 1 1 9).
Proof.
  apply (link_dump_roundtrip 1 sample_links empty_snapshot); [lia| |vm_compute; discriminate].
  repeat constructor; vm_compute; congruence.
Defined.

(** ** Establishing a policy *)

Section established.
Context {W : Type} `{K : Kernel W}.

(** A namespace with one link, the loopback link, that is up as asked. *)
Definition sole_loopback (snapshot : link_snapshot) (up : bool) : Prop :=
  count snapshot = 1 ∧ loopback_count snapshot = 1 ∧ 0 < loopback_index snapshot ∧
  (Z.land (loopback_flags snapshot) IFF_UP ≠ 0 ↔ up = true).

Lemma snapshot_matches_sole snapshot policy :
  snapshot_matches snapshot policy = true →
  sole_loopback snapshot (bool_decide (policy = network_loopback_only)).
Proof.
  unfold snapshot_matches, sole_loopback.
  destruct (negb (count snapshot =? 1) || _ || _) eqn:E; [done|].
  apply orb_false_iff in E as [[E1%negb_false_iff%Z.eqb_eq E2%negb_false_iff%Z.eqb_eq]%orb_false_iff E3%Z.leb_gt].
  destruct (bool_decide _), (Z.eqb_spec (Z.land (loopback_flags snapshot) IFF_UP) 0);
    simpl; intros H; split_and!; try done; split; congruence.
Qed.

(** A message was sent: its only complete attempt is the newest one. *)
Definition sent_whole (fd : Z) (message : list Z) (evs : list event) : Prop :=
  ∃ older, evs = Event (sys_sendto fd message 0 sockaddr_nl) (Ok (Z.of_nat (length message))) :: older ∧
           Forall (λ ev, ev = Event (sys_sendto fd message 0 sockaddr_nl) (Err EINTR)) older.

(** The buffers received from [fd], oldest first, are a dump that brings the snapshot
    from [start] to [snapshot] and ends in the last of them. *)
Inductive dump_received (fd : Z) : link_snapshot → list event → link_snapshot → Prop :=
| dump_interrupted start evs snapshot :
    dump_received fd start evs snapshot →
    dump_received fd start (Event (sys_recv fd 16384 0) (Err EINTR) :: evs) snapshot
| dump_more start buffer mid evs snapshot :
    link_walk 1 buffer start = Fell mid → dump_received fd mid evs snapshot →
    dump_received fd start (Event (sys_recv fd 16384 0) (Ok buffer) :: evs) snapshot
| dump_done start buffer error snapshot :
    link_walk 1 buffer start = Returned ((true, error), snapshot) →
    dump_received fd start [Event (sys_recv fd 16384 0) (Ok buffer)] snapshot.

(** The buffers received from [fd], oldest first, end with the acknowledgement of
    message 2 without an error. *)
Inductive acknowledged (fd : Z) : list event → Prop :=
| ack_interrupted evs :
    acknowledged fd evs → acknowledged fd (Event (sys_recv fd 8192 0) (Err EINTR) :: evs)
| ack_other buffer state evs :
    ack_walk 2 buffer = Fell state → acknowledged fd evs →
    acknowledged fd (Event (sys_recv fd 8192 0) (Ok buffer) :: evs)
| ack_done buffer error :
    ack_walk 2 buffer = Returned (true, error) →
    acknowledged fd [Event (sys_recv fd 8192 0) (Ok buffer)].

(** The links were asked for and [snapshot] is what their dump adds up to. *)
Definition inspected (fd : Z) (snapshot : link_snapshot) (evs : list event) : Prop :=
  ∃ sends reads, evs = reverse reads ++ sends ∧
    sent_whole fd (encode_header 32 RTM_GETLINK (Z.lor NLM_F_REQUEST NLM_F_DUMP) 1 ++
                   encode_link AF_UNSPEC 0 0 0) sends ∧
    dump_received fd empty_snapshot reads snapshot.

(** Link [index] was set up or down: of its flags the message names IFF_UP alone, and
    the kernel acknowledged it. *)
Definition configured (fd index : Z) (up : bool) (evs : list event) : Prop :=
  ∃ sends reads, evs = reverse reads ++ sends ∧
    sent_whole fd (encode_header 32 RTM_NEWLINK (Z.lor NLM_F_REQUEST NLM_F_ACK) 2 ++
                   encode_link AF_UNSPEC index (if up then IFF_UP else 0) IFF_UP) sends ∧
    acknowledged fd reads.

(** All the calls of a successful setup, newest first. *)
Definition network_established (up : bool) (evs : list event) : Prop :=
  ∃ route initial established first change second closed,
    evs = Event (sys_close route) closed :: second ++ change ++ first ++
          [Event (sys_bind route sockaddr_nl) (Ok tt);
           Event (sys_socket AF_NETLINK (Z.lor SOCK_RAW SOCK_CLOEXEC) NETLINK_ROUTE) (Ok route);
           Event (sys_unshare CLONE_NEWNET) (Ok tt)] ∧
    inspected route initial first ∧
    count initial = 1 ∧ loopback_count initial = 1 ∧ 0 < loopback_index initial ∧
    configured route (loopback_index initial) up change ∧
    inspected route established second ∧ sole_loopback established up.

Lemma wp_send_netlink fuel fd message (s : mstate W) :
  wp (send_netlink fuel fd message) (λ o s', o = Done true →
    ∃ sends, trace s' = sends ++ trace s ∧ sent_whole fd message sends) s.
Proof.
  revert s. induction fuel as [|n IH]; intros s; cbn [send_netlink]; [done|].
  wp_step. wp_step; wp_step.
  - wp_step. intros _. eexists [_]. split; [done|]. eexists []. split; [|done].
    match goal with E : (_ =? _) = true |- _ => by apply Z.eqb_eq in E as -> end.
  - wp_run; done.
  - wp_step. wp_step; [|by wp_step]. eapply wp_mono; [apply IH|]. intros o s' Hp Ho.
    destruct (Hp Ho) as (sends & E & older & -> & F).
    match goal with B : (errno _ =? EINTR) = true |- _ => apply Z.eqb_eq in B; simpl in B; subst end.
    eexists (_ :: older ++ [_]). split; [rewrite E; cbn [trace push app]; rewrite <- app_assoc; reflexivity|].
    exists (older ++ [Event (sys_sendto fd message 0 sockaddr_nl) (Err EINTR)]). split; [done|].
    apply Forall_app. split; [done|]. by constructor.
Qed.

Lemma wp_conclude v (s : mstate W) :
  wp (conclude v) (λ o s', o = Done v.1 ∧ trace s' = trace s) s.
Proof. unfold conclude. destruct v as [b [e|]]; by wp_run. Qed.

Lemma wp_collect_links fuel fd snapshot (s : mstate W) :
  wp (collect_links fuel fd 1 snapshot) (λ o s', ∀ final, o = Done (true, final) →
    ∃ reads, trace s' = reverse reads ++ trace s ∧ dump_received fd snapshot reads final) s.
Proof.
  revert snapshot s. induction fuel as [|n IH]; intros snapshot s; cbn [collect_links]; [done|].
  assert (∀ ev mid (s1 s2 : mstate W) final, trace s1 = ev :: trace s →
    (∀ reads, dump_received fd mid reads final → dump_received fd snapshot (ev :: reads) final) →
    (∃ reads, trace s2 = reverse reads ++ trace s1 ∧ dump_received fd mid reads final) →
    ∃ reads, trace s2 = reverse reads ++ trace s ∧ dump_received fd snapshot reads final) as Hcons.
  { intros ev mid s1 s2 final E1 Hd (reads & E2 & H). exists (ev :: reads).
    rewrite E2, E1, reverse_cons, <- app_assoc. auto. }
  wp_step. wp_step; wp_step.
  - wp_run; done.
  - wp_step.
    + eapply wp_mono; [apply IH|]. intros o s' Hp final Ho. eapply Hcons; [| |by apply Hp]; [reflexivity|].
      intros. by eapply dump_more.
    + wp_step. wp_step. eapply wp_mono; [apply wp_conclude|]. intros o s' [-> Et].
      wp_step. intros final [= Ev ->]. exists [Event (sys_recv fd 16384 0) (Ok (z :: l))].
      rewrite Et. split; [done|]. destruct v as [v e]. simpl in Ev. subst v. by eapply dump_done.
    + done.
    + done.
  - wp_step. wp_step; [|by wp_step]. eapply wp_mono; [apply IH|]. intros o s' Hp final Ho.
    match goal with B : (errno _ =? EINTR) = true |- _ => apply Z.eqb_eq in B; simpl in B; subst end.
    eapply Hcons; [| |by apply Hp]; [reflexivity|]. intros. by apply dump_interrupted.
Qed.

Lemma wp_receive_ack fuel fd (s : mstate W) :
  wp (receive_ack fuel fd 2) (λ o s', o = Done true →
    ∃ reads, trace s' = reverse reads ++ trace s ∧ acknowledged fd reads) s.
Proof.
  revert s. induction fuel as [|n IH]; intros s; cbn [receive_ack]; [done|].
  assert (∀ ev (s1 s2 : mstate W), trace s1 = ev :: trace s →
    (∀ reads, acknowledged fd reads → acknowledged fd (ev :: reads)) →
    (∃ reads, trace s2 = reverse reads ++ trace s1 ∧ acknowledged fd reads) →
    ∃ reads, trace s2 = reverse reads ++ trace s ∧ acknowledged fd reads) as Hcons.
  { intros ev s1 s2 E1 Hd (reads & E2 & H). exists (ev :: reads).
    rewrite E2, E1, reverse_cons, <- app_assoc. auto. }
  wp_step. wp_step; wp_step.
  - wp_run; done.
  - wp_step.
    + eapply wp_mono; [apply IH|]. intros o s' Hp Ho. eapply Hcons; [| |by apply Hp]; [reflexivity|].
      intros. by eapply ack_other.
    + eapply wp_mono; [apply wp_conclude|]. intros o s' [-> Et] [= Ev].
      exists [Event (sys_recv fd 8192 0) (Ok (z :: l))]. rewrite Et. split; [done|].
      destruct r as [v e]. simpl in Ev. subst v. by eapply ack_done.
    + done.
    + done.
  - wp_step. wp_step; [|by wp_step]. eapply wp_mono; [apply IH|]. intros o s' Hp Ho.
    match goal with B : (errno _ =? EINTR) = true |- _ => apply Z.eqb_eq in B; simpl in B; subst end.
    eapply Hcons; [| |by apply Hp]; [reflexivity|]. intros. by apply ack_interrupted.
Qed.

Lemma wp_inspect_links fuel fd (s : mstate W) :
  wp (inspect_links fuel fd) (λ o s', ∀ snapshot, o = Done (true, snapshot) →
    ∃ evs, trace s' = evs ++ trace s ∧ inspected fd snapshot evs) s.
Proof.
  unfold inspect_links. wp_step. eapply wp_mono; [apply wp_send_netlink|].
  intros [[]|x|c|] s1 H; try done; cbn [negb].
  destruct (H eq_refl) as (sends & E1 & Hs). eapply wp_mono; [apply wp_collect_links|].
  intros o s2 H2 snapshot Ho. destruct (H2 _ Ho) as (reads & E2 & Hr).
  exists (reverse reads ++ sends). rewrite E2, E1, app_assoc. split; [done|]. by exists sends, reads.
Qed.

Lemma wp_set_link_up fuel fd index up (s : mstate W) :
  wp (set_link_up fuel fd index up) (λ o s', o = Done true →
    ∃ evs, trace s' = evs ++ trace s ∧ configured fd index up evs) s.
Proof.
  unfold set_link_up. wp_step. eapply wp_mono; [apply wp_send_netlink|].
  intros [[]|x|c|] s1 H; try done; cbn [negb].
  destruct (H eq_refl) as (sends & E1 & Hs). eapply wp_mono; [apply wp_receive_ack|].
  intros o s2 H2 Ho. destruct (H2 Ho) as (reads & E2 & Hr).
  exists (reverse reads ++ sends). rewrite E2, E1, app_assoc. split; [done|]. by exists sends, reads.
Qed.

Lemma wp_open_route_socket (s : mstate W) :
  wp open_route_socket (λ o s', ∀ fd, o = Done fd → fd_bool fd = true →
    trace s' = Event (sys_bind fd sockaddr_nl) (Ok tt) ::
      Event (sys_socket AF_NETLINK (Z.lor SOCK_RAW SOCK_CLOEXEC) NETLINK_ROUTE) (Ok fd) :: trace s) s.
Proof.
  unfold open_route_socket, fd_destroy, fd_reset. wp_run; try (by intros ? [= <-]).
  intros ? [= <-] _. by destruct a.
Qed.

Lemma wp_setup_network_policy fuel policy (s : mstate W) :
  policy ≠ network_allowed →
  wp (setup_network_policy fuel policy) (λ o s', o = Done (inr tt) →
    ∃ evs, trace s' = evs ++ trace s ∧
      network_established (bool_decide (policy = network_loopback_only)) evs) s.
Proof.
  intros Hp. unfold setup_network_policy, network_fail. rewrite bool_decide_eq_false_2 by done.
  wp_step. wp_step; [|wp_run; done]. cbn [negb]. unfold with_fd. wp_step.
  eapply wp_mono; [apply wp_open_route_socket|]. intros [route|x|c|] s1 H1; try done.
  apply (wp_finally_to _ _ (inr tt) (λ s', ∃ evs, trace s' = evs ++ trace s ∧
    network_established (bool_decide (policy = network_loopback_only)) evs)).
  destruct (fd_bool route) eqn:Hfd; cbn [negb]; [|wp_run; done].
  specialize (H1 route eq_refl Hfd).
  wp_step. eapply wp_mono; [apply wp_inspect_links|]. intros [[[] initial]|x|c|] s2 H2; try done;
    cbn [negb]; [|by wp_run..]. destruct (H2 _ eq_refl) as (first & E2 & I2).
  destruct (negb (count initial =? 1) || negb (loopback_count initial =? 1) ||
            (loopback_index initial <=? 0)) eqn:Hinit; [wp_run; done|].
  wp_step. eapply wp_mono; [apply wp_set_link_up|]. intros [[]|x|c|] s3 H3; try done;
    cbn [negb]; [|by wp_run..]. destruct (H3 eq_refl) as (change & E3 & I3).
  wp_step. eapply wp_mono; [apply wp_inspect_links|]. intros [[[] established]|x|c|] s4 H4; try done;
    cbn [negb]; [|by wp_run..]. destruct (H4 _ eq_refl) as (second & E4 & I4).
  destruct (snapshot_matches established policy) eqn:Em; cbn [negb]; [|wp_run; done].
  wp_step. intros _. unfold fd_destroy, fd_reset. rewrite Hfd. wp_run. destruct a.
  cbn [trace push] in H1 |- *. rewrite E4, E3, E2, H1.
  eexists (_ :: second ++ change ++ first ++ [_; _; _]). split.
  { cbn [app]. rewrite <- !app_assoc. reflexivity. }
  exists route, initial, established, first, change, second, r. split_and!; try done; try lia.
  all: try (by apply snapshot_matches_sole).
  all: apply orb_false_iff in Hinit as [[?%negb_false_iff%Z.eqb_eq ?%negb_false_iff%Z.eqb_eq]%orb_false_iff ?%Z.leb_gt]; done.
Qed.

(** C15: A successful setup of a policy other than [allowed] has made exactly these
    calls, in this order: it created a network namespace, opened and bound a route
    socket, asked for the links and received a dump with exactly one link, the
    loopback link, of positive index; sent the message that sets the link of that
    index up for [loopback_only] and down otherwise, and received its
    acknowledgement; asked for the links once more and received a dump with exactly
    one link, the loopback link, in the state the policy asks for; and closed the
    socket. For [allowed] no call is made at all. *)
Theorem setup_network_policy_verified fuel policy (s s' : mstate W) :
  setup_network_policy fuel policy s = (Done (inr tt), s') →
  (policy = network_allowed ∧ s' = s) ∨
  (policy ≠ network_allowed ∧ ∃ evs, trace s' = evs ++ trace s ∧
     network_established (bool_decide (policy = network_loopback_only)) evs).
Proof.
  intros Hrun. destruct (decide (policy = network_allowed)) as [->|Hp]; [left|right].
  - by injection Hrun as <-.
  - split; [done|]. pose proof (wp_setup_network_policy fuel policy s Hp) as Hw.
    unfold wp in Hw. rewrite Hrun in Hw. by apply Hw.
Qed.

End established.

(** ** The failure record of the probe *)

(** A failure the child can report: a stage of the enumeration and a C [int]. *)
Definition reportable (f : network_setup_failure) : Prop :=
  network_stage_of_number (network_stage_number (network_stage f)) = network_stage f ∧
  0 ≤ network_stage_number (network_stage f) < 2 ^ 32 ∧
  - 2 ^ 31 ≤ network_error f < 2 ^ 31.

Lemma network_failure_roundtrip f :
  reportable f → decode_network_failure (encode_network_failure f) = f.
Proof.
  destruct f as [stage error]. intros (Hs & Hn & He). simpl in *.
  unfold decode_network_failure, encode_network_failure. simpl network_stage. simpl network_error.
  rewrite take_app_length', drop_app_length' by (by rewrite length_le_bytes).
  rewrite (take_ge (le_bytes 4 (of_i32 error))) by (rewrite length_le_bytes; lia).
  rewrite !le_value_u32, i32_roundtrip, Hs by (try apply of_i32_range; lia). done.
Qed.

(** C34: When the parent's reads deliver the bytes the child's writes put into the
    pipe, however both were cut into pieces, a child that failed is never taken
    for a success: the parent concludes the child's own failure when the whole
    record got through, and a failed validation with [EIO] otherwise. *)
Theorem network_failure_transfer {W} `{Kernel W} fuel fuel' f report_write report_read
    status bytes (sc sp sp' : mstate W) sent received :
  reportable f → exited_zero status = false →
  trace (write_failure fuel report_write f sc).2 = sent ++ trace sc →
  read_record fuel' report_read sizeof_network_failure [] sp = (Done bytes, sp') →
  trace sp' = received ++ trace sp →
  stream (delivered_by report_read) received = stream (accepted_by report_write) sent →
  network_probe_verdict status bytes =
  inl (if (length (stream (accepted_by report_write) sent) =? 8)%nat then f
       else mk_network_failure policy_validation EIO).
Proof.
  intros Hf Hst Hsent Hread Hrecv Hpipe.
  pose proof (wp_write_record fuel report_write (encode_network_failure f) sc)
    as (evs & E & Hprefix).
  unfold write_failure in Hsent. rewrite Hsent in E. apply (inj (.++ trace sc)) in E as <-.
  pose proof (wp_read_record fuel' report_read sizeof_network_failure [] sp) as Hr.
  unfold wp in Hr. rewrite Hread in Hr. destruct Hr as (evs & E & ->). simpl in *.
  rewrite Hrecv in E. apply (inj (.++ trace sp)) in E as <-. rewrite Hpipe.
  unfold network_probe_verdict, sizeof_network_failure. rewrite Hst. cbn [andb].
  destruct (Nat.eqb_spec (length (stream (accepted_by report_write) sent)) 8) as [E8|]; [|done].
  destruct Hprefix as [rest Erest].
  assert (rest = []) as ->.
  { apply (f_equal length) in Erest. rewrite length_app, E8 in Erest.
    destruct rest; [done|]. simpl in Erest. lia. }
  rewrite app_nil_r in Erest. by rewrite <- Erest, network_failure_roundtrip.
Qed.

(** A pipe that takes five bytes, then three, and gives two, then six. *)
Definition chunked (record : list Z) : Kernel nat := scripted (λ n R c,
  match c in call R return R with
  | sys_write _ bytes => Ok (if (length bytes =? 8)%nat then 5 else 3)
  | sys_read _ size => Ok (if size =? 8 then take 2 record else drop 2 record)
  | c => default_answer c
  end).

Definition sample_failure : network_setup_failure := mk_network_failure link_configuration 1.
Definition sample_kernel : Kernel nat := chunked (encode_network_failure sample_failure).

Lemma network_failure_transfer_witness :
  network_probe_verdict 256 (encode_network_failure sample_failure) = inl sample_failure.
Proof.
  pose (sc := @write_failure nat sample_kernel 4 6 sample_failure (start 0%nat)).
  pose (sp := @read_record nat sample_kernel 4 5 8 [] (start 0%nat)).
  apply (@network_failure_transfer nat sample_kernel 4 4 sample_failure 6 5 256
    (encode_network_failure sample_failure) (start 0%nat) (start 0%nat) sp.2
    (trace sc.2) (trace sp.2)); [|reflexivity..].
  split_and!; vm_compute; congruence.
Defined.

(** A kernel whose new namespace holds the loopback link alone; the link is up after
    the request that sets it up. *)
Definition namespace_kernel : Kernel nat := scripted (λ n R c,
  match c in call R return R with
  | sys_unshare _ => Ok tt
  | sys_socket _ _ _ => Ok 3
  | sys_bind _ _ => Ok tt
  | sys_sendto _ bytes _ _ => Ok (Z.of_nat (length bytes))
  | sys_recv _ size _ =>
      if size =? 8192
      then Ok (encode_header 36 NLMSG_ERROR 0 2 ++ le_bytes 4 0 ++ encode_header 32 0 0 0)
      else Ok (dump_message (1, mk_link 1 (if (n <? 6)%nat then 8 else 9) []) ++ dump_end 1)
  | sys_close _ => Ok tt
  | c => default_answer c
  end).

Example loopback_only_is_established :
  (@setup_network_policy nat namespace_kernel 9 network_loopback_only (start 0%nat)).1 =
  Done (inr tt).
Proof. vm_compute. reflexivity. Qed.
Example loopback_up_is_not_denied :
  (@setup_network_policy nat namespace_kernel 9 network_denied (start 0%nat)).1 =
  Done (inl (mk_network_failure policy_validation EIO)).
Proof. vm_compute. reflexivity. Qed.

(** The loopback link of the sample namespace is set up through its index 1. *)
Lemma loopback_only_ends :
  ∃ s, @setup_network_policy nat namespace_kernel 9 network_loopback_only (start 0%nat) =
       (Done (inr tt), s).
Proof. eexists. vm_compute. reflexivity. Qed.

Lemma setup_network_policy_verified_witness :
  ∃ (s : mstate nat) evs, trace s = evs ++ [] ∧ network_established true evs.
Proof.
  destruct loopback_only_ends as [s R].
  destruct (@setup_network_policy_verified nat namespace_kernel 9 network_loopback_only
    (start 0%nat) s R) as [[H _]|[_ (evs & E & H)]]; [discriminate H|].
  exists s, evs. split; [exact E|exact H].
Defined.
