(* ===== verification/Paths.v ===== *)
(** * std::filesystem::path on POSIX, and path containment

    A path is its text. [parse] splits it the way iteration over a path does: a root
    directory, the names, and an empty last element when the text ends in a
    separator. The operations are those the sources use, as the C++17 standard
    (fs.path.generic, fs.path.decompose, fs.path.append) defines them for POSIX;
    [path_contains] is from src/mount_isolation.cpp. *)

From S2P Require Import Prelude Machine.
From Stdlib Require Import Ascii.
Local Open Scope string_scope.

Definition slash : ascii := "/"%char.

(** The text up to the first separator, and the fields after it. *)
Fixpoint cut (s : string) : string * list string :=
  match s with
  | "" => ("", [])
  | String c r =>
      let '(h, t) := cut r in
      if decide (c = slash) then ("", h :: t) else (String c h, t)
  end.

Definition fields (s : string) : list string := let '(h, t) := cut s in h :: t.

Record parsed : Set := mk_parsed {
  rooted : bool;
  names : list string;
  trailing : bool
}.

#[export] Instance parsed_eq_dec : EqDecision parsed.
Proof. solve_decision. Defined.

Definition starts_rooted (s : string) : bool :=
  match s with String c _ => bool_decide (c = slash) | "" => false end.

Definition parse (s : string) : parsed :=
  let ns := filter (λ n, n ≠ "") (fields s) in
  mk_parsed (starts_rooted s) ns
    (bool_decide (ns ≠ []) && bool_decide (last (fields s) = Some "")).

Definition render (p : parsed) : string :=
  (if rooted p then "/" else "") +:+ String.concat "/" (names p) +:+
  (if trailing p then "/" else "").

(** ** Operations of std::filesystem::path *)

(** What iteration over a path yields. *)
Definition parsed_elements (p : parsed) : list string :=
  (if rooted p then ["/"] else []) ++ names p ++ (if trailing p then [""] else []).
Definition elements (s : string) : list string := parsed_elements (parse s).

(** [operator==] compares the elements. *)
Definition path_eqb (a b : string) : bool := bool_decide (parse a = parse b).

Definition is_absolute (s : string) : bool := starts_rooted s.
Definition root_path (s : string) : string := if starts_rooted s then "/" else "".

Fixpoint strip_leading (s : string) : string :=
  match s with
  | String c r => if decide (c = slash) then strip_leading r else s
  | "" => ""
  end.
Definition relative_path (s : string) : string := strip_leading s.

(** The last element when it is a name; "" after a separator. *)
Definition filename (s : string) : string :=
  let p := parse s in if trailing p then "" else default "" (last (names p)).

(** [a / b]. *)
Definition path_append (a b : string) : string :=
  if is_absolute b then b
  else if bool_decide (a = "") || bool_decide (last (fields a) = Some "") then a +:+ b
  else a +:+ "/" +:+ b.

(** The text without what follows the last run of separators, and without it. *)
Fixpoint strip_trailing (s : string) : string :=
  match s with
  | "" => ""
  | String c r =>
      let r' := strip_trailing r in
      if decide (c = slash) then (if bool_decide (r' = "") then "" else String c r')
      else String c r'
  end.
Fixpoint strip_last_name (s : string) : string :=
  match s with
  | "" => ""
  | String c r =>
      if bool_decide (slash ∈ String.list_ascii_of_string (String c r))
      then String c (strip_last_name r) else ""
  end.
Definition parent_path (s : string) : string :=
  let p := parse s in
  if bool_decide (names p = []) then s
  else
    let front := if trailing p then strip_trailing s else strip_trailing (strip_last_name s) in
    if bool_decide (front = "") then root_path s else front.

(** One element of [lexically_normal]: [stack] holds the names so far, last first. *)
Definition normal_step (root : bool) (state : list string * bool) (name : string)
    : list string * bool :=
  let '(stack, _) := state in
  if bool_decide (name = "") || bool_decide (name = ".") then
    (stack, bool_decide (stack ≠ []))
  else if bool_decide (name = "..") then
    match stack with
    | top :: rest =>
        if bool_decide (top = "..") then (name :: stack, false)
        else (rest, bool_decide (rest ≠ []))
    | [] => if root then ([], false) else ([name], false)
    end
  else (name :: stack, false).

Definition normal_parsed (p : parsed) : parsed :=
  let '(stack, ends) := foldl (normal_step (rooted p)) ([], false)
    (names p ++ (if trailing p then [""] else [])) in
  mk_parsed (rooted p) (reverse stack)
    (ends && negb (bool_decide (head stack = Some ".."))).

Definition lexically_normal (s : string) : string :=
  if bool_decide (s = "") then ""
  else
    let result := render (normal_parsed (parse s)) in
    if bool_decide (result = "") then "." else result.

(** ** Containment *)

(** The loop of [path_contains] over the elements of both paths. *)
Fixpoint strictly_inside (parent child : list string) : bool :=
  match parent, child with
  | [], [] => false
  | [], _ :: _ => true
  | _ :: _, [] => false
  | p :: parent, c :: child => if bool_decide (p = c) then strictly_inside parent child else false
  end.

Definition path_contains (parent child : string) : bool :=
  let first := lexically_normal parent in
  let second := lexically_normal child in
  if path_eqb first second then true
  else strictly_inside (elements first) (elements second).

Example elements_ex : elements "/a//b/" = ["/"; "a"; "b"; ""]. Proof. reflexivity. Qed.
Example normal_ex1 : lexically_normal "/a/./b/../c" = "/a/c". Proof. reflexivity. Qed.
Example normal_ex2 : lexically_normal "a/b/.." = "a/". Proof. reflexivity. Qed.
Example normal_ex3 : lexically_normal "../a/../.." = "../..". Proof. reflexivity. Qed.
Example normal_ex4 : lexically_normal "/../a/." = "/a/". Proof. reflexivity. Qed.
Example normal_ex5 : lexically_normal "a/.." = ".". Proof. reflexivity. Qed.
Example parent_ex1 : parent_path "/a//b" = "/a". Proof. reflexivity. Qed.
Example parent_ex2 : parent_path "/a" = "/". Proof. reflexivity. Qed.
Example parent_ex3 : parent_path "/a/" = "/a". Proof. reflexivity. Qed.
Example parent_ex4 : parent_path "a" = "". Proof. reflexivity. Qed.
Example filename_ex : filename "/a/b" = "b". Proof. reflexivity. Qed.
Example append_ex : path_append "/tmp/x" "root" = "/tmp/x/root". Proof. reflexivity. Qed.

(** ** Splitting what was joined *)

Definition is_name (n : string) : Prop := n ≠ "" ∧ slash ∉ String.list_ascii_of_string n.

Definition wf_parsed (p : parsed) : Prop :=
  Forall is_name (names p) ∧ (trailing p = true → names p ≠ []).

Lemma append_nil_r (s : string) : s +:+ "" = s.
Proof. induction s as [|c s IH]; [done|]. change (String c (s +:+ "") = String c s). by rewrite IH. Qed.

Lemma append_assoc (a b c : string) : (a +:+ b) +:+ c = a +:+ (b +:+ c).
Proof.
  induction a as [|x a IH]; [done|].
  change (String x ((a +:+ b) +:+ c) = String x (a +:+ (b +:+ c))). by rewrite IH.
Qed.

Lemma cut_fields s h t : cut s = (h, t) → fields s = h :: t.
Proof. unfold fields. by intros ->. Qed.

Lemma fields_name n r :
  slash ∉ String.list_ascii_of_string n → fields (n +:+ "/" +:+ r) = n :: fields r.
Proof.
  intros Hn. unfold fields.
  assert (cut (n +:+ "/" +:+ r) = (n, fields r)) as ->; [|done].
  induction n as [|c n IH].
  - change (cut (String slash r) = ("", fields r)). unfold fields. simpl. by destruct (cut r).
  - change (cut (String c (n +:+ "/" +:+ r)) = (String c n, fields r)). cbn [cut].
    simpl in Hn. rewrite not_elem_of_cons in Hn. destruct Hn as [Hc Hn]. rewrite (IH Hn).
    by rewrite decide_False.
Qed.

Lemma fields_single n : slash ∉ String.list_ascii_of_string n → fields n = [n].
Proof.
  intros Hn. unfold fields. assert (cut n = (n, [])) as ->; [|done].
  induction n as [|c n IH]; [done|]. cbn [cut].
  simpl in Hn. rewrite not_elem_of_cons in Hn. destruct Hn as [Hc Hn]. rewrite (IH Hn).
  by rewrite decide_False.
Qed.

Lemma fields_join n l (ends : bool) :
  Forall is_name (n :: l) →
  fields (String.concat "/" (n :: l) +:+ (if ends then "/" else "")) =
  n :: l ++ (if ends then [""] else []).
Proof.
  revert n. induction l as [|m l IH]; intros n [[_ Hn] Hl]%Forall_cons_iff.
  - simpl String.concat. destruct ends.
    + change (n +:+ "/") with (n +:+ "/" +:+ ""). by rewrite fields_name.
    + rewrite append_nil_r. by rewrite fields_single.
  - change (String.concat "/" (n :: m :: l)) with (n +:+ "/" +:+ String.concat "/" (m :: l)).
    rewrite !append_assoc, fields_name by done. by rewrite IH.
Qed.

Lemma filter_names l : Forall is_name l → filter (λ n, n ≠ "") l = l.
Proof.
  induction 1 as [|n l [Hn _] _ IH]; [done|]. rewrite filter_cons_True by done. by rewrite IH.
Qed.

Lemma starts_rooted_name n r : is_name n → starts_rooted (n +:+ r) = false.
Proof.
  intros [Hne Hn]. destruct n as [|c n]; [done|].
  change (bool_decide (c = slash) = false). apply bool_decide_eq_false.
  simpl in Hn. rewrite not_elem_of_cons in Hn. destruct Hn. done.
Qed.

(** Joining the parts of a path and splitting the text again gives the parts. *)
Lemma parse_render p : wf_parsed p → parse (render p) = p.
Proof.
  destruct p as [root [|n l] ends]; intros [Hn Ht]; simpl in *.
  - destruct ends; [by destruct Ht|]. by destruct root.
  - assert (Hf : filter (λ n, n ≠ "") (n :: l ++ (if ends then [""] else [])) = n :: l).
    { rewrite app_comm_cons, filter_app, filter_names by done.
      destruct ends; simpl; by rewrite ?app_nil_r. }
    assert (Hl : last (n :: l ++ (if ends then [""] else [])) = Some "" ↔ ends = true).
    { rewrite app_comm_cons. destruct ends; [by rewrite last_snoc|].
      rewrite app_nil_r. split; [|done]. intros E. apply last_Some in E as [l' E].
      rewrite E in Hn. apply Forall_app in Hn as [_ [[? _] _]%Forall_cons_iff]. done. }
    set (text := String.concat "/" (n :: l) +:+ (if ends then "/" else "")).
    assert (Et : fields text = n :: l ++ (if ends then [""] else [])) by by apply fields_join.
    assert (Ends : ∀ b, b = ends → bool_decide (n :: l ≠ []) && b = ends) by (by intros ? ->).
    destruct root; unfold parse, render; simpl rooted; simpl names; simpl trailing; cbv iota;
      fold text.
    + change ("/" +:+ text) with ("" +:+ "/" +:+ text).
      rewrite (fields_name "" text) by (simpl; set_solver). rewrite Et.
      change (starts_rooted ("" +:+ "/" +:+ text)) with true.
      rewrite filter_cons_False by (by intros []). rewrite Hf. f_equal. apply Ends.
      change (last ("" :: n :: ?x)) with (last (n :: x)).
      destruct ends; [apply bool_decide_eq_true|apply bool_decide_eq_false]; by rewrite Hl.
    + change ("" +:+ text) with text. rewrite Et, Hf.
      assert (starts_rooted text = false) as ->.
      { unfold text. apply Forall_cons_iff in Hn as [Hn _]. destruct l as [|m l].
        - by apply starts_rooted_name.
        - change (String.concat "/" (n :: m :: l)) with (n +:+ "/" +:+ String.concat "/" (m :: l)).
          rewrite append_assoc. by apply starts_rooted_name. }
      f_equal. apply Ends.
      destruct ends; [apply bool_decide_eq_true|apply bool_decide_eq_false]; by rewrite Hl.
Qed.

Lemma fields_no_slash s : Forall (λ n, slash ∉ String.list_ascii_of_string n) (fields s).
Proof.
  induction s as [|c s IH]; [by repeat constructor; set_solver|].
  unfold fields in *. cbn [cut]. destruct (cut s) as [h t].
  apply Forall_cons_iff in IH as [Hh Ht]. case_decide.
  - repeat constructor; [simpl; set_solver|done|done].
  - constructor; [|done]. apply not_elem_of_cons. split; [congruence|done].
Qed.

Lemma wf_parse s : wf_parsed (parse s).
Proof.
  split; simpl.
  - apply Forall_forall. intros n [Hne Hin]%list_elem_of_filter. split; [done|].
    by apply (proj1 (Forall_forall _ _) (fields_no_slash s)).
  - intros [H _]%andb_true_iff. by apply bool_decide_eq_true in H.
Qed.

Lemma normal_step_names root stack ends name :
  Forall is_name stack → (name = "" ∨ is_name name) →
  Forall is_name (normal_step root (stack, ends) name).1 ∧
  ((normal_step root (stack, ends) name).2 = true → (normal_step root (stack, ends) name).1 ≠ []).
Proof.
  intros Hs Hn. unfold normal_step. destruct (bool_decide (name = "")) eqn:E1; simpl.
  { split; [done|]. by intros ?%bool_decide_eq_true. }
  apply bool_decide_eq_false in E1. destruct Hn as [?|Hn]; [done|].
  destruct (bool_decide (name = ".")); simpl.
  { split; [done|]. by intros ?%bool_decide_eq_true. }
  destruct (bool_decide (name = "..")); [|by split; [constructor|]].
  destruct stack as [|top rest]; [by destruct root; split; simpl; auto|].
  apply Forall_cons_iff in Hs as [Ht Hr].
  destruct (bool_decide (top = "..")); [by split; [constructor; [|constructor]|]|].
  split; [done|]. by intros ?%bool_decide_eq_true.
Qed.

Lemma normal_fold_names root l : ∀ stack ends,
  Forall is_name stack → (ends = true → stack ≠ []) → Forall (λ n, n = "" ∨ is_name n) l →
  let r := foldl (normal_step root) (stack, ends) l in
  Forall is_name r.1 ∧ (r.2 = true → r.1 ≠ []).
Proof.
  induction l as [|n l IH]; intros stack ends Hs He Hl; [done|]. cbn [foldl].
  apply Forall_cons_iff in Hl as [Hn Hl].
  destruct (normal_step_names root stack ends n Hs Hn) as [Hs' He'].
  destruct (normal_step root (stack, ends) n) as [stack' ends']. by apply IH.
Qed.

Lemma wf_normal p : wf_parsed p → wf_parsed (normal_parsed p).
Proof.
  intros [Hn _]. unfold normal_parsed.
  destruct (normal_fold_names (rooted p) (names p ++ (if trailing p then [""] else []))
    [] false) as [Hs He]; [done..| |].
  - apply Forall_app. split; [eapply Forall_impl; eauto|]. destruct (trailing p); auto.
  - destruct (foldl _ _ _) as [stack ends]. simpl in *. split; simpl.
    + by apply Forall_reverse.
    + intros [? _]%andb_true_iff E. apply He; [done|]. by rewrite <- (reverse_involutive stack), E.
Qed.

(** The normal form of an absolute path is the joining of its normalized parts. *)
Lemma parse_normal s : is_absolute s = true → parse (lexically_normal s) = normal_parsed (parse s).
Proof.
  intros Ha. unfold lexically_normal. case_bool_decide as E; [by subst|].
  assert (Hr : rooted (normal_parsed (parse s)) = true).
  { unfold normal_parsed. destruct (foldl _ _ _). exact Ha. }
  case_bool_decide as E2; [|apply parse_render, wf_normal, wf_parse].
  exfalso. revert E2. unfold render. rewrite Hr. done.
Qed.

(** ** Containment against the directories the paths name *)

(** The names from the root directory to the directory an absolute path names, by
    following the names of the path: the definition containment is judged by. *)
Definition resolve_step (dir : list string) (name : string) : list string :=
  if bool_decide (name = ".") then dir
  else if bool_decide (name = "..") then tail dir
  else name :: dir.
Definition directory_of (s : string) : list string :=
  reverse (foldl resolve_step [] (names (parse s))).

Lemma normal_fold_resolve l : ∀ stack ends,
  Forall is_name l → ".." ∉ stack →
  (foldl (normal_step true) (stack, ends) l).1 = foldl resolve_step stack l ∧
  ".." ∉ foldl resolve_step stack l.
Proof.
  induction l as [|n l IH]; intros stack ends Hl Hs; [done|].
  apply Forall_cons_iff in Hl as [[Hn _] Hl]. cbn [foldl]. unfold normal_step at 2.
  rewrite bool_decide_eq_false_2 by done. cbn [orb]. unfold resolve_step at 2 4.
  destruct (bool_decide (n = ".")); [by apply IH|].
  destruct (bool_decide (n = "..")) eqn:E.
  - destruct stack as [|top rest]; [by apply IH|]. apply not_elem_of_cons in Hs as [Ht Hr].
    rewrite bool_decide_eq_false_2 by done. by apply IH.
  - apply bool_decide_eq_false in E. apply IH; [done|]. by apply not_elem_of_cons.
Qed.

Lemma names_normal s : is_absolute s = true → names (parse (lexically_normal s)) = directory_of s.
Proof.
  intros Ha. rewrite parse_normal by done. unfold normal_parsed, directory_of.
  change (rooted (parse s)) with (is_absolute s). rewrite Ha.
  destruct (wf_parse s) as [Hn _]. rewrite foldl_app.
  destruct (normal_fold_resolve (names (parse s)) [] false Hn) as [E _]; [set_solver|].
  destruct (foldl (normal_step true) ([], false) (names (parse s))) as [stack ends]. simpl in E.
  subst. by destruct (trailing (parse s)).
Qed.

Lemma rooted_normal s : is_absolute s = true → rooted (parse (lexically_normal s)) = true.
Proof.
  intros Ha. rewrite parse_normal by done. unfold normal_parsed. by destruct (foldl _ _ _).
Qed.

Lemma strictly_inside_spec l1 l2 : strictly_inside l1 l2 = true ↔ l1 `prefix_of` l2 ∧ l1 ≠ l2.
Proof.
  revert l2. induction l1 as [|x l1 IH]; intros [|y l2]; simpl.
  - split; [done|]. by intros [_ []].
  - split; [|done]. intros _. split; [apply prefix_nil|done].
  - split; [done|]. intros [H _]. by apply prefix_nil_inv in H.
  - case_bool_decide as E.
    + subst. rewrite IH. split; intros [H1 H2].
      * split; [by apply prefix_cons|]. by intros [= ->].
      * split; [by eapply prefix_cons_inv_2|]. by intros ->.
    + split; [done|]. intros [H _]. by apply prefix_cons_inv_1 in H.
Qed.

(** The elements of the normal form of an absolute path. *)
Lemma elements_normal s :
  is_absolute s = true →
  elements (lexically_normal s) =
  "/" :: (directory_of s ++ (if trailing (parse (lexically_normal s)) then [""] else []))%list.
Proof.
  intros Ha. unfold elements, parsed_elements. by rewrite rooted_normal, names_normal.
Qed.

Lemma path_eqb_elements a b :
  is_absolute a = true → is_absolute b = true →
  path_eqb (lexically_normal a) (lexically_normal b) = true ↔
  directory_of a = directory_of b ∧
  trailing (parse (lexically_normal a)) = trailing (parse (lexically_normal b)).
Proof.
  intros Ha Hb. unfold path_eqb. rewrite bool_decide_eq_true, <- !names_normal by done.
  pose proof (rooted_normal a Ha) as Ra. pose proof (rooted_normal b Hb) as Rb.
  destruct (parse (lexically_normal a)), (parse (lexically_normal b)). simpl in *. subst.
  split; [by intros [= -> ->]|by intros [-> ->]].
Qed.

Lemma directory_names s : Forall (λ n, n ≠ "") (directory_of s).
Proof.
  unfold directory_of. apply Forall_reverse.
  assert (H : ∀ l dir, Forall (λ n, n ≠ "") dir → Forall is_name l →
                Forall (λ n, n ≠ "") (foldl resolve_step dir l)).
  { induction l as [|n l IH]; intros dir Hd Hl; [done|].
    apply Forall_cons_iff in Hl as [[Hn _] Hl]. simpl. apply IH; [|done]. unfold resolve_step.
    repeat case_match; [done| |by constructor]. by apply Forall_tail. }
  apply H; [done|]. apply wf_parse.
Qed.

(** A list of names is a prefix of another with "" at its end only if it is one without. *)
Lemma prefix_snoc_empty (l1 l2 : list string) :
  Forall (λ n, n ≠ "") l1 → l1 `prefix_of` (l2 ++ [""])%list → l1 `prefix_of` l2.
Proof.
  intros H1 [k E]. destruct k as [|x k _] using rev_ind.
  - rewrite app_nil_r in E. subst l1.
    apply Forall_app in H1 as [_ [? _]%Forall_cons_iff]. done.
  - rewrite app_assoc in E. apply app_inj_tail in E as [-> _]. by exists k.
Qed.

Lemma path_contains_spec parent child :
  is_absolute parent = true → is_absolute child = true →
  trailing (parse (lexically_normal parent)) = false →
  path_contains parent child = true ↔ directory_of parent `prefix_of` directory_of child.
Proof.
  intros Ha Hb Ht. unfold path_contains.
  destruct (path_eqb (lexically_normal parent) (lexically_normal child)) eqn:Eq.
  - apply path_eqb_elements in Eq as [-> _]; [|done..]. by split.
  - rewrite strictly_inside_spec, !elements_normal, Ht, app_nil_r by done. split.
    + intros [Hp _]. apply prefix_cons_inv_2 in Hp.
      destruct (trailing (parse (lexically_normal child))); [|by rewrite app_nil_r in Hp].
      apply prefix_snoc_empty in Hp; [done|]. apply directory_names.
    + intros Hp. split; [apply prefix_cons; by apply prefix_app_r|]. intros E.
      apply (f_equal tail) in E. cbn [tail] in E.
      assert (trailing (parse (lexically_normal child)) = false) as Hc.
      { destruct (trailing (parse (lexically_normal child))); [|done].
        pose proof (directory_names parent) as H. rewrite E in H.
        apply Forall_app in H as [_ [? _]%Forall_cons_iff]. done. }
      rewrite Hc, app_nil_r in E.
      assert (path_eqb (lexically_normal parent) (lexically_normal child) = true) by
        (apply path_eqb_elements; by rewrite ?Ht, ?Hc).
      congruence.
Qed.

(** What two paths that [path_contains] both ways round found apart have in common: the
    directory of neither is at or below that of the other, except that one whose normal
    form ends in a separator may have the other below it. *)
Definition apart (a b : string) : Prop :=
  is_absolute a = true → is_absolute b = true →
  (trailing (parse (lexically_normal a)) = false → ¬ directory_of a `prefix_of` directory_of b) ∧
  (trailing (parse (lexically_normal b)) = false → ¬ directory_of b `prefix_of` directory_of a).

Lemma apart_sym a b : apart a b → apart b a.
Proof. intros H Hb Ha. destruct (H Ha Hb). auto. Qed.

Lemma contains_apart a b : path_contains a b = false → path_contains b a = false → apart a b.
Proof.
  intros H1 H2 Ha Hb. split; intros Ht Hp; apply path_contains_spec in Hp; congruence.
Qed.

(** The root is the only absolute path whose names lead nowhere. *)
Lemma normal_root s :
  is_absolute s = true → path_eqb (lexically_normal s) "/" = false → directory_of s ≠ [].
Proof.
  intros Ha He Hd. apply not_true_iff_false in He. apply He. unfold path_eqb. apply bool_decide_eq_true.
  rewrite <- names_normal in Hd by done. pose proof (rooted_normal s Ha) as Hr.
  destruct (wf_parse (lexically_normal s)) as [_ Ht].
  destruct (parse (lexically_normal s)) as [r n t]. simpl in *. subst. destruct t; [by destruct Ht|done].
Qed.

(** C26: For absolute paths, [path_contains] decides containment of directories: it
    holds exactly when following the names of the first path leads to a directory
    on the way to, or at, the one the second path names, provided the normal form
    of the first path does not end in a separator. *)
Theorem path_contains_correct parent child :
  is_absolute parent = true → is_absolute child = true →
  trailing (parse (lexically_normal parent)) = false →
  path_contains parent child = true ↔ directory_of parent `prefix_of` directory_of child.
Proof. apply path_contains_spec. Qed.

Lemma path_contains_correct_witness :
  path_contains "/srv/./pkg" "/srv/x/../pkg/build/" = true ↔
  directory_of "/srv/./pkg" `prefix_of` directory_of "/srv/x/../pkg/build/".
Proof.
  apply (path_contains_correct "/srv/./pkg" "/srv/x/../pkg/build/"); reflexivity.
Defined.

(** When the normal form of an absolute path ends in a separator, as that of
    "/srv/pkg/" and of "/srv/pkg/x/.." does, [path_contains] finds nothing below
    it: it holds of a second path only if both normal forms are the same path. *)
Theorem trailing_separator_hides_contents parent child :
  is_absolute parent = true → is_absolute child = true →
  trailing (parse (lexically_normal parent)) = true →
  path_contains parent child = true →
  directory_of child = directory_of parent ∧
  trailing (parse (lexically_normal child)) = true.
Proof.
  intros Ha Hb Ht. unfold path_contains.
  destruct (path_eqb (lexically_normal parent) (lexically_normal child)) eqn:Eq.
  - apply path_eqb_elements in Eq as [-> <-]; done.
  - rewrite strictly_inside_spec, !elements_normal, Ht by done. intros [Hp Hne].
    exfalso. apply prefix_cons_inv_2 in Hp as [k E]. rewrite <- app_assoc in E.
    pose proof (directory_names child) as Hc.
    destruct (trailing (parse (lexically_normal child))) eqn:Tc.
    + destruct k as [|x k _] using rev_ind.
      { rewrite app_nil_r in E. by rewrite E in Hne. }
      rewrite app_assoc, app_assoc in E. apply app_inj_tail in E as [E _]. rewrite E in Hc.
      rewrite <- app_assoc in Hc. apply Forall_app in Hc as [_ [? _]%Forall_cons_iff]. done.
    + rewrite app_nil_r in E. rewrite E in Hc.
      apply Forall_app in Hc as [_ [? _]%Forall_cons_iff]. done.
Qed.

Lemma trailing_separator_hides_contents_witness :
  path_contains "/srv/pkg/" "/srv/pkg/." = true ∧
  directory_of "/srv/pkg/." = directory_of "/srv/pkg/" ∧
  trailing (parse (lexically_normal "/srv/pkg/.")) = true.
Proof.
  split; [reflexivity|].
  apply (trailing_separator_hides_contents "/srv/pkg/" "/srv/pkg/."); reflexivity.
Defined.

(** The overlap of a directory with one below it is then not seen from either side. *)
Example overlap_not_seen :
  path_contains "/srv/pkg/" "/srv/pkg/build" = false ∧
  path_contains "/srv/pkg/build" "/srv/pkg/" = false ∧
  directory_of "/srv/pkg/" `prefix_of` directory_of "/srv/pkg/build".
Proof. split_and!; [reflexivity..|]. by exists ["build"]. Qed.
