(* ===== verification/Support.v ===== *)
(** * Digests, credentials and symlink checks (src/support.cpp)

    OpenSSL's digest is reached through the calls [ssl_digest_init] (a new context
    and [EVP_DigestInit_ex]), [ssl_digest_update] and [ssl_digest_final]; strings are
    digested as the bytes of their characters. [strerror] is the C library's. *)

From Stdlib Require Import Ascii.
From stdpp Require Import sorting.
From S2P Require Import Prelude Machine Linux Logic Posix Script Pkgexec Records Paths.
Local Open Scope string_scope.
Local Open Scope list_scope.
Local Open Scope Z_scope.

Class Libc : Type := { strerror : Z → string }.

Definition errno_message `{Libc} (operation : string) (value : Z) : string :=
  operation +:+ ": " +:+ strerror value.

Definition bytes_of_string (s : string) : list Z :=
  (λ c, Z.of_N (N_of_ascii c)) <$> String.list_ascii_of_string s.

Definition hex_digit (d : Z) : ascii :=
  ascii_of_N (Z.to_N (if d <? 10 then 48 + d else 87 + d)).

(** [std::hex << std::setfill('0') << std::setw(2)] for each byte. *)
Fixpoint hex_bytes (bytes : list Z) : string :=
  match bytes with
  | [] => ""
  | b :: rest => String (hex_digit (b / 16)) (String (hex_digit (b mod 16)) (hex_bytes rest))
  end.

Section support.
Context {W : Type} `{K : Kernel W} `{Lc : Libc} `{P : Pkgexec}.

(** [throw error(code, message)]. *)
Definition fail {A} (code : error_code) (message : string) : M W A :=
  throw (linux_error (mk_error code message)).

(** [throw error(code, errno_message(operation, errno))]. *)
Definition fail_errno {A} (code : error_code) (operation : string) : M W A :=
  e ← get_errno; fail code (errno_message operation e).

Definition update (bytes : list Z) : M W unit :=
  match bytes with
  | [] => mret tt
  | _ =>
      okay ← issue (ssl_digest_update bytes);
      if (okay : bool) then mret tt
      else fail interpreter_inspection_failed "SHA-256 update failed"
  end.

Definition digest_begin : M W unit :=
  okay ← issue ssl_digest_init;
  if (okay : bool) then mret tt
  else fail interpreter_inspection_failed "SHA-256 initialization failed".

(** [EVP_DigestFinal_ex] and the test of its result and of the size it answers. *)
Definition digest_end : M W string :=
  r ← issue ssl_digest_final;
  match r with
  | Some bytes =>
      if (length bytes =? 32)%nat then mret (hex_bytes bytes)
      else fail interpreter_inspection_failed "SHA-256 finalization failed"
  | None => fail interpreter_inspection_failed "SHA-256 finalization failed"
  end.

Definition sha256_hex (domain material : string) : M W string :=
  digest_begin;;
  update (bytes_of_string domain);;
  update [0];;
  update (bytes_of_string material);;
  digest_end.

Fixpoint digest_loop (fuel : nat) (fd offset : Z) : M W unit :=
  match fuel with
  | O => out_of_fuel
  | S n =>
      r ← attempt (sys_pread fd (64 * 1024) offset);
      match r with
      | Some [] => mret tt
      | Some bytes => update bytes;; digest_loop n fd (offset + Z.of_nat (length bytes))
      | None =>
          e ← get_errno;
          if e =? EINTR then digest_loop n fd offset
          else fail_errno interpreter_inspection_failed "pread interpreter"
      end
  end.

Definition digest_fd (fuel : nat) (fd : Z) : M W sha256_digest :=
  digest_begin;;
  digest_loop fuel fd 0;;
  hex ← digest_end;
  mret (digest_of_hex hex).

Definition digest_file (fuel : nat) (path : string) : M W sha256_digest :=
  fd ← descriptor (sys_open path (Z.lor O_RDONLY (Z.lor O_CLOEXEC (Z.lor O_NOFOLLOW O_NONBLOCK))));
  if fd <? 0 then fail_errno interpreter_inspection_failed "open interpreter"
  else
    on_throw
      (info ← attempt (sys_fstat fd);
       if negb (match info with Some i => S_ISREG (st_mode i) | None => false end)
       then fail interpreter_inspection_failed "interpreter descriptor is not a regular file"
       else
         result ← digest_fd fuel fd;
         ignore (sys_close fd);;
         mret result)
      (ignore (sys_close fd)).

Definition interpreter_identity_of (digest : sha256_digest) : M W interpreter_identity :=
  hex ← sha256_hex "pkgexec-linux/interpreter/v1" (digest_hex digest);
  mret (identity_from_sha256 hex).

(** The loop over the components of the relative path. *)
Fixpoint symlink_component (current : string) (components : list string) : M W bool :=
  match components with
  | [] => mret false
  | component :: rest =>
      let current := path_append current component in
      info ← attempt (sys_lstat current);
      match info with
      | None => mret true
      | Some i => if S_ISLNK (st_mode i) then mret true else symlink_component current rest
      end
  end.

Definition path_has_symlink_component (path : string) : M W bool :=
  if negb (is_absolute path) then mret true
  else symlink_component (root_path path) (elements (relative_path path)).

(** [std::unique] followed by [erase]. *)
Fixpoint unique {A} `{EqDecision A} (l : list A) : list A :=
  match l with
  | [] => []
  | x :: rest =>
      match unique rest with
      | [] => [x]
      | y :: rest' => if decide (x = y) then y :: rest' else x :: y :: rest'
      end
  end.

Definition current_groups : M W (list Z) :=
  count ← attempt sys_getgroups_count;
  match count with
  | None => fail_errno invalid_value "getgroups"
  | Some count =>
      answer ← (if 0 <? count then attempt (sys_getgroups count) else mret (Some []));
      match answer with
      | None => fail_errno invalid_value "getgroups"
      | Some answer =>
          (* the vector keeps the zeros it was made with where the call wrote nothing *)
          let native := resize (Z.to_nat count) 0 answer in
          gid ← issue sys_getgid;
          mret (filter (λ g, g ≠ gid) (unique (merge_sort Z.le native)))
      end
  end.

End support.

(** ** The digest covers the whole file *)

(** The bytes an update of the digest fed to it. *)
Definition fed (ev : event) : list Z :=
  match ev with
  | Event c r =>
      match c in call R return R → list Z with
      | ssl_digest_update bytes => λ okay, if okay then bytes else []
      | _ => λ _, []
      end r
  end.

(** [pread] on [fd] answers pieces of [content], and nothing only at its end. *)
Definition serves {W} `{Kernel W} (fd : Z) (content : list Z) : Prop :=
  ∀ w offset bytes w', 0 ≤ offset →
    kernel_run (sys_pread fd (64 * 1024) offset) w = (Ok bytes, w') →
    bytes = take (length bytes) (drop (Z.to_nat offset) content) ∧
    (bytes = [] → Z.of_nat (length content) ≤ offset).

(** Neither the reads nor the digest fail. *)
Definition untroubled {W} `{Kernel W} (fd : Z) : Prop :=
  (∀ w offset, ∃ bytes w', kernel_run (sys_pread fd (64 * 1024) offset) w = (Ok bytes, w')) ∧
  (∀ w bytes, (kernel_run (ssl_digest_update bytes) w).1 = true) ∧
  (∀ w, (kernel_run ssl_digest_init w).1 = true) ∧
  (∀ w, ∃ bytes, (kernel_run ssl_digest_final w).1 = Some bytes ∧ length bytes = 32%nat).

Section digest.
Context {W : Type} `{K : Kernel W} `{Lc : Libc} `{P : Pkgexec}.

Lemma wp_update bytes (s : mstate W) :
  wp (update bytes) (λ o s', match o with
    | Done _ => ∃ evs, trace s' = evs ++ trace s ∧ stream fed evs = bytes
    | Threw _ => True
    | _ => False
    end) s.
Proof.
  unfold update, fail. destruct bytes as [|b bytes]; [by exists []|]. wp_run; [|done].
  provide_trace. subst. unfold stream. simpl. by rewrite app_nil_r.
Qed.

Lemma wp_digest_loop fuel fd content : serves fd content → ∀ offset (s : mstate W),
  0 ≤ offset →
  wp (digest_loop fuel fd offset) (λ o s', match o with
    | Done _ => ∃ evs, trace s' = evs ++ trace s ∧
                stream fed evs = drop (Z.to_nat offset) content
    | _ => True
    end) s.
Proof.
  intros Hs. induction fuel as [|n IH]; intros offset s Ho; cbn [digest_loop]; [done|].
  wp_step. wp_step; cbn beta iota.
  - destruct (Hs _ _ _ _ Ho H) as [Ea Hend]. destruct a as [|b a].
    + apply wp_ret. provide_trace. rewrite drop_ge; [done|]. specialize (Hend eq_refl). lia.
    + set (bytes := b :: a) in *. wp_step. eapply wp_mono; [apply wp_update|].
      intros [[]|x|c|] s1 H1; try done. destruct H1 as (evs1 & E1 & F1).
      eapply wp_mono; [apply IH; lia|]. intros [[]|x|c|] s2 H2; try done.
      destruct H2 as (evs2 & E2 & F2). simpl in E1.
      eexists (evs2 ++ evs1 ++ [_]). split; [by rewrite E2, E1, <- !app_assoc|].
      rewrite !stream_app, F1, F2. change (stream fed [_]) with (@nil Z). cbn [app].
      rewrite Z2Nat.inj_add, Nat2Z.id, <- drop_drop by lia.
      rewrite Ea at 1. apply take_drop.
  - wp_step. wp_step. wp_step.
    + eapply wp_mono; [by apply IH|]. intros [[]|x|c|] s1 H1; try done.
      destruct H1 as (evs1 & E1 & F1). simpl in E1. eexists (evs1 ++ [_]).
      split; [by rewrite E1, <- app_assoc|]. by rewrite stream_app, F1.
    + unfold fail_errno, fail. wp_run. done.
Qed.

Lemma digest_loop_returns fuel fd content : serves fd content → untroubled fd →
  ∀ offset (s : mstate W), 0 ≤ offset →
  Z.of_nat (length content) - offset < Z.of_nat fuel → (0 < fuel)%nat →
  ∃ s', digest_loop fuel fd offset s = (Done tt, s').
Proof.
  intros Hs (Hp & Hu & _). induction fuel as [|n IH]; intros offset s Ho Hf Hpos; [lia|].
  cbn [digest_loop]. unfold mbind, M_bind, attempt, issue, mbind, M_bind.
  destruct (Hp (world s) offset) as (bytes & w & E). rewrite E. simpl.
  destruct (Hs _ _ _ _ Ho E) as [Ea Hend]. destruct bytes as [|b a]; [eauto|].
  unfold update, issue, mbind, M_bind. specialize (Hu w (b :: a)).
  simpl. destruct (kernel_run (ssl_digest_update (b :: a)) w) as [r w']. simpl in *. subst r.
  apply (f_equal length) in Ea. rewrite length_take, length_drop in Ea. cbn [length] in Ea.
  apply IH; lia.
Qed.

(** C29: The digest of an interpreter is taken over its whole content: when a run of
    [digest_fd] on a descriptor that serves [content] returns, the bytes fed to the
    digest, in order, are [content], whatever the sizes of the reads and however
    often they were interrupted; and when no call fails the run does return. *)
Theorem digest_fd_covers_file fuel fd content (s : mstate W) :
  serves fd content →
  (∀ d s', digest_fd fuel fd s = (Done d, s') →
     ∃ evs, trace s' = evs ++ trace s ∧ stream fed evs = content) ∧
  (untroubled fd → (length content < fuel)%nat → ∃ d s', digest_fd fuel fd s = (Done d, s')).
Proof.
  intros Hs. split.
  - intros d s' Hrun.
    assert (H : wp (digest_fd fuel fd) (λ o s', match o with
      | Done _ => ∃ evs, trace s' = evs ++ trace s ∧ stream fed evs = content | _ => True end) s).
    { unfold digest_fd, digest_begin, digest_end, fail. wp_run; try done.
      eapply wp_mono; [by eapply wp_digest_loop|]. intros [[]|x|c|] s1 H1; try done.
      destruct H1 as (evs & E & F). wp_run; try done. eexists (_ :: evs ++ [_]). simpl.
      rewrite E. split; [by rewrite <- app_assoc|]. by rewrite stream_cons, stream_app, F, app_nil_r. }
    unfold wp in H. by rewrite Hrun in H.
  - intros Hu Hf. pose proof Hu as (_ & _ & Hi & He).
    unfold digest_fd, digest_begin, digest_end, mbind, M_bind, issue.
    specialize (Hi (world s)).
    destruct (kernel_run ssl_digest_init (world s)) as [r w]. simpl in Hi. subst r. simpl.
    edestruct (digest_loop_returns fuel fd content Hs Hu 0) as (s1 & ->); [lia..|].
    destruct (He (world s1)) as (bytes & E & Hlen).
    destruct (kernel_run ssl_digest_final (world s1)) as [r w']. simpl in E. subst r.
    rewrite Hlen. simpl. eauto.
Qed.

End digest.

Definition plain_libc : Libc := {| strerror := λ _, "error" |}.

(** A file of three bytes that is read two bytes at a time. *)
Definition file_kernel : Kernel nat := scripted (λ n R c,
  match c in call R return R with
  | sys_pread _ _ offset => Ok (take 2 (drop (Z.to_nat offset) [127; 69; 76]))
  | ssl_digest_init => true
  | ssl_digest_update _ => true
  | ssl_digest_final => Some (replicate 32 171)
  | c => default_answer c
  end).

Lemma file_kernel_serves : @serves nat file_kernel 3 [127; 69; 76].
Proof.
  intros w offset bytes w' Ho E. cbn in E. injection E as <- _. split.
  - by destruct (drop (Z.to_nat offset) [127; 69; 76]) as [|a [|b l]].
  - intros E. apply (f_equal length) in E. rewrite length_take, length_drop in E.
    cbn [length] in *. lia.
Qed.

Lemma digest_fd_covers_file_witness :
  ∃ d s', @digest_fd nat file_kernel plain_libc plain_pkgexec 4 3 (start 0%nat) = (Done d, s').
Proof.
  apply (@digest_fd_covers_file nat file_kernel plain_libc plain_pkgexec 4 3 [127; 69; 76]
    (start 0%nat) file_kernel_serves).
  - split_and!; intros; cbn; eauto.
  - simpl. lia.
Defined.

(** ** The calls of a digest

    Exact sequences, oldest first: what a digest was taken of is read from the calls. *)

(** [fd] was read from [offset] to its end, each piece fed to the digest as it came;
    [content] is what was read. *)
Inductive read_through (fd : Z) : Z → list Z → list event → Prop :=
| read_end offset : read_through fd offset [] [Event (sys_pread fd (64 * 1024) offset) (Ok [])]
| read_again offset content evs :
    read_through fd offset content evs →
    read_through fd offset content (Event (sys_pread fd (64 * 1024) offset) (Err EINTR) :: evs)
| read_piece offset piece content evs :
    piece ≠ [] → read_through fd (offset + Z.of_nat (length piece)) content evs →
    read_through fd offset (piece ++ content)
      (Event (sys_pread fd (64 * 1024) offset) (Ok piece) :: Event (ssl_digest_update piece) true :: evs).

(** The content behind [fd] was digested from its start, and the digest is [raw]. *)
Definition content_digested (fd : Z) (raw : list Z) (evs : list event) : Prop :=
  ∃ content reads, read_through fd 0 content reads ∧ length raw = 32%nat ∧
    evs = Event ssl_digest_init true :: reads ++ [Event ssl_digest_final (Some raw)].

(** The pieces were digested, and the digest is [raw]. *)
Definition pieces_digested (pieces : list (list Z)) (raw : list Z) (evs : list event) : Prop :=
  length raw = 32%nat ∧
  evs = Event ssl_digest_init true ::
        ((λ piece, Event (ssl_digest_update piece) true) <$> filter (λ piece, piece ≠ []) pieces) ++
        [Event ssl_digest_final (Some raw)].

Section digested.
Context {W : Type} `{K : Kernel W} `{Lc : Libc} `{P : Pkgexec}.

Lemma update_run bytes (s s' : mstate W) :
  update bytes s = (Done tt, s') →
  trace s' = reverse ((λ piece, Event (ssl_digest_update piece) true) <$>
                        filter (λ piece, piece ≠ []) [bytes]) ++ trace s.
Proof.
  destruct bytes as [|b bytes]; [by intros [= <-]|]. unfold update, issue, mbind, M_bind.
  destruct (kernel_run _ _) as [[] w]; simpl; [|done]. by intros [= <-].
Qed.

Lemma begin_run (s s' : mstate W) :
  digest_begin s = (Done tt, s') → trace s' = Event ssl_digest_init true :: trace s.
Proof.
  unfold digest_begin, issue, mbind, M_bind.
  destruct (kernel_run _ _) as [[] w]; simpl; [|done]. by intros [= <-].
Qed.

Lemma end_run hex (s s' : mstate W) :
  digest_end s = (Done hex, s') → ∃ raw, length raw = 32%nat ∧ hex = hex_bytes raw ∧
    trace s' = Event ssl_digest_final (Some raw) :: trace s.
Proof.
  unfold digest_end, issue, mbind, M_bind. destruct (kernel_run _ _) as [[raw|] w]; simpl; [|done].
  destruct (Nat.eqb_spec (length raw) 32); [|done]. intros [= <- <-]. by exists raw.
Qed.

Lemma digest_loop_run fuel fd : ∀ offset (s s' : mstate W),
  digest_loop fuel fd offset s = (Done tt, s') →
  ∃ content reads, read_through fd offset content reads ∧ trace s' = reverse reads ++ trace s.
Proof.
  induction fuel as [|n IH]; intros offset s s' E; [done|]. cbn [digest_loop] in E.
  unfold mbind at 1, M_bind at 1, attempt, issue, mbind, M_bind in E.
  destruct (kernel_run (sys_pread fd (64 * 1024) offset) (world s)) as [[[|b a]|e] w];
    cbn -[digest_loop update Z.mul] in E.
  - injection E as <-. exists [], [Event (sys_pread fd (64 * 1024) offset) (Ok [])]. by split; [constructor|].
  - destruct (update (b :: a) _) as [[[]|x|c|] s1] eqn:Eu; try done. apply update_run in Eu.
    apply IH in E as (content & reads & Hr & E). eexists _, _. split; [by apply (read_piece _ _ (b :: a))|].
    rewrite E, Eu. rewrite !reverse_cons, <- !app_assoc. reflexivity.
  - cbn in E. destruct (Z.eqb_spec e EINTR) as [->|]; [|done].
    apply IH in E as (content & reads & Hr & E). eexists _, _. split; [by apply read_again|].
    rewrite E, reverse_cons, <- app_assoc. reflexivity.
Qed.

(** The digest [digest_fd] answers is the one of the content it read. *)
Lemma digest_fd_run fuel fd d (s s' : mstate W) :
  digest_fd fuel fd s = (Done d, s') → ∃ raw evs, content_digested fd raw evs ∧
    d = digest_of_hex (hex_bytes raw) ∧ trace s' = reverse evs ++ trace s.
Proof.
  unfold digest_fd. unfold mbind, M_bind. intros E.
  destruct (digest_begin s) as [[[]|x|c|] s1] eqn:E1; try done.
  destruct (digest_loop fuel fd 0 s1) as [[[]|x|c|] s2] eqn:E2; try done.
  destruct (digest_end s2) as [[hex|x|c|] s3] eqn:E3; try done. injection E as <- <-.
  apply begin_run in E1. apply digest_loop_run in E2 as (content & reads & Hr & E2).
  apply end_run in E3 as (raw & Hl & -> & E3). eexists raw, _. split; [by exists content, reads|].
  split; [done|]. rewrite E3, E2, E1, reverse_cons, reverse_app, <- !app_assoc. reflexivity.
Qed.

(** The name of a digest is taken of the domain, a zero byte and its hexadecimal text. *)
Lemma identity_of_run d name (s s' : mstate W) :
  interpreter_identity_of d s = (Done name, s') → ∃ raw evs,
    pieces_digested [bytes_of_string "pkgexec-linux/interpreter/v1"; [0]; bytes_of_string (digest_hex d)]
      raw evs ∧
    name = identity_from_sha256 (hex_bytes raw) ∧ trace s' = reverse evs ++ trace s.
Proof.
  unfold interpreter_identity_of, sha256_hex. generalize "pkgexec-linux/interpreter/v1" as domain.
  intros domain E. unfold mbind, M_bind in E.
  destruct (digest_begin s) as [[[]|x|c|] s1] eqn:E1; try done.
  destruct (update (bytes_of_string domain) s1) as [[[]|x|c|] s2] eqn:E2; try done.
  destruct (update [0] s2) as [[[]|x|c|] s3] eqn:E3; try done.
  destruct (update (bytes_of_string (digest_hex d)) s3) as [[[]|x|c|] s4] eqn:E4; try done.
  destruct (digest_end s4) as [[hex|x|c|] s5] eqn:E5; try done. injection E as <- <-.
  apply begin_run in E1. apply update_run in E2, E3, E4. apply end_run in E5 as (raw & Hl & -> & E5).
  eexists raw, _. split; [by split|]. split; [done|]. rewrite E5, E4, E3, E2, E1.
  change [bytes_of_string domain; [0]; bytes_of_string (digest_hex d)]
    with ([bytes_of_string domain] ++ [[0]] ++ [bytes_of_string (digest_hex d)]).
  rewrite reverse_cons, reverse_app, !filter_app, !fmap_app, !reverse_app, <- !app_assoc. reflexivity.
Qed.

End digested.

(** ** Supplementary groups *)

Section groups.
Context {A : Type} `{!EqDecision A}.

Lemma unique_cons (x : A) l : ∃ t, unique (x :: l) = x :: t.
Proof.
  revert x. induction l as [|y l IH]; intros x; [by exists []|].
  destruct (IH y) as [t E]. change (unique (x :: y :: l)) with
    (match unique (y :: l) with
     | [] => [x]
     | y' :: rest' => if decide (x = y') then y' :: rest' else x :: y' :: rest'
     end). rewrite E. case_decide; subst; eauto.
Qed.

Lemma elem_of_unique (x : A) l : x ∈ unique l ↔ x ∈ l.
Proof.
  induction l as [|y l IH]; [done|]. rewrite elem_of_cons, <- IH. simpl.
  destruct (unique l) as [|z t]; [by rewrite elem_of_cons|].
  case_decide; subst; rewrite elem_of_cons; tauto.
Qed.

(** On a sorted list, removing adjacent duplicates leaves a strictly sorted list. *)
Lemma unique_strict (R : relation A) l :
  AntiSymm (=) R → Transitive R → StronglySorted R l →
  StronglySorted (λ x y, R x y ∧ x ≠ y) (unique l).
Proof.
  intros Hanti Htrans. induction 1 as [|x l Hl IH Hx]; [constructor|]. simpl.
  assert (Hin : ∀ z, z ∈ unique l → R x z).
  { intros z Hz. rewrite Forall_forall in Hx. by apply Hx, elem_of_unique. }
  destruct (unique l) as [|y t]; [repeat constructor|]. case_decide as E; [done|].
  constructor; [done|]. apply Forall_forall. intros z Hz. split; [by apply Hin|]. intros <-.
  apply StronglySorted_inv in IH as [_ Hy]. apply elem_of_cons in Hz as [?|Hz]; [done|].
  destruct (proj1 (Forall_forall _ _) Hy x Hz) as [Hyx _].
  apply E, (anti_symm R); [|done]. apply Hin. by left.
Qed.

End groups.

Section credentials.
Context {W : Type} `{K : Kernel W} `{Lc : Libc}.

(** What [getgroups] left in a vector of [count] zeros: nothing when the first call
    counted no group, and otherwise the groups the second call answered. *)
Definition groups_answered (count : Z) (reads : list event) (native : list Z) : Prop :=
  if 0 <? count then
    ∃ answer, reads = [Event (sys_getgroups count) (Ok answer)] ∧
              native = resize (Z.to_nat count) 0 answer
  else reads = [] ∧ native = [].

(** C38: The supplementary groups of the supervisor are reported in strictly ascending
    order and without its primary group, and they are exactly the groups the kernel
    answered: when it counted some, the vector of that size its second answer filled,
    and none only when it counted none; sorting and the removal of duplicates lose
    nothing. *)
Theorem current_groups_exact (s s' : mstate W) result :
  current_groups s = (Done result, s') →
  ∃ count reads native gid,
    trace s' = Event sys_getgid gid :: reads ++ Event sys_getgroups_count (Ok count) :: trace s ∧
    groups_answered count reads native ∧
    StronglySorted Z.lt result ∧
    ∀ g, g ∈ result ↔ g ≠ gid ∧ g ∈ native.
Proof.
  intros Hrun.
  assert (H : wp current_groups (λ o s', ∀ result, o = Done result → ∃ count reads native gid,
    trace s' = Event sys_getgid gid :: reads ++ Event sys_getgroups_count (Ok count) :: trace s ∧
    groups_answered count reads native ∧
    result = filter (λ g, g ≠ gid) (unique (merge_sort Z.le native))) s).
  { unfold current_groups, fail_errno, fail, groups_answered. wp_run; try done.
    all: intros ? [= <-]; match goal with E : kernel_run sys_getgroups_count _ = (Ok ?n, _) |- _ =>
      exists n end; match goal with E : (0 <? ?n) = _ |- _ => rewrite E end.
    - eexists [_], _, _. split_and!; [reflexivity|by eexists|done].
    - eexists [], [], _. split_and!; [reflexivity|done|done|].
      match goal with E : (0 <? ?n) = false |- _ =>
        by assert (Z.to_nat n = 0%nat) as -> by lia end. }
  unfold wp in H. rewrite Hrun in H. simpl in H.
  destruct (H result eq_refl) as (count & reads & native & gid & Ht & Hn & ->).
  exists count, reads, native, gid. split_and!; [done|done| |].
  - assert (Hs : StronglySorted (λ x y, x ≤ y ∧ x ≠ y) (unique (merge_sort Z.le native)))
      by (apply unique_strict; [apply _..|apply (StronglySorted_merge_sort Z.le)]).
    clear -Hs. induction Hs as [|x l _ IH Hx]; [constructor|]. rewrite filter_cons.
    case_decide; [|done]. constructor; [done|].
    apply Forall_forall. intros y [_ Hy]%list_elem_of_filter.
    pose proof (proj1 (Forall_forall _ _) Hx y Hy). simpl in *. lia.
  - intros g. by rewrite list_elem_of_filter, elem_of_unique, merge_sort_Permutation.
Qed.

End credentials.

(** A supervisor with groups 7, 5, 7 and primary group 5. *)
Definition group_kernel : Kernel nat := scripted (λ n R c,
  match c in call R return R with
  | sys_getgroups_count => Ok 3
  | sys_getgroups _ => Ok [7; 5; 7]
  | sys_getgid => 5
  | c => default_answer c
  end).

Lemma current_groups_exact_witness : StronglySorted Z.lt [7].
Proof.
  destruct (@current_groups_exact nat group_kernel plain_libc (start 0%nat)
    (@current_groups nat group_kernel plain_libc (start 0%nat)).2 [7] eq_refl)
    as (count & reads & native & gid & _ & _ & Hs & _).
  exact Hs.
Defined.
