(* ===== verification/Interpreter.v ===== *)
(** * Interpreter bindings (src/interpreter.cpp, and their use in src/backend.cpp)

    Inspection of an interpreter, the order of bindings, the sorted collection a
    backend keeps and the binary search for the binding a request names. *)

From stdpp Require Import sorting.
From S2P Require Import Prelude Machine Linux Logic Posix Script Pkgexec Records Paths Support.
Local Open Scope string_scope.
Local Open Scope list_scope.
Local Open Scope Z_scope.

Record interpreter_binding `{Pkgexec} : Type := mk_interpreter {
  identity : interpreter_identity;
  executable : string;
  content_digest : sha256_digest
}.

Arguments mk_interpreter {_} identity executable content_digest.

(** ** Order *)

(** Lexicographic order of lists by a strict order of their elements. *)
Fixpoint list_ltb {A} (ltb : A → A → bool) (l1 l2 : list A) : bool :=
  match l1, l2 with
  | _, [] => false
  | [], _ :: _ => true
  | x :: l1, y :: l2 => ltb x y || (negb (ltb y x) && list_ltb ltb l1 l2)
  end.

(** [operator<] of paths: a path without root directory comes first, then the names
    decide. *)
Definition path_ltb (a b : string) : bool :=
  if Bool.eqb (starts_rooted a) (starts_rooted b)
  then list_ltb String.ltb (elements a) (elements b)
  else starts_rooted b.

(** [operator==] and [operator<] of bindings; [std::tie] compares member by member. *)
Definition binding_eqb `{Pkgexec} (lhs rhs : interpreter_binding) : bool :=
  bool_decide (identity lhs = identity rhs) && path_eqb (executable lhs) (executable rhs) &&
  bool_decide (content_digest lhs = content_digest rhs).
Definition binding_ltb `{Pkgexec} (lhs rhs : interpreter_binding) : bool :=
  identity_ltb (identity lhs) (identity rhs) ||
  (negb (identity_ltb (identity rhs) (identity lhs)) &&
   (path_ltb (executable lhs) (executable rhs) ||
    (negb (path_ltb (executable rhs) (executable lhs)) &&
     digest_ltb (content_digest lhs) (content_digest rhs)))).

(** ** Inspection *)

Section inspection.
Context {W : Type} `{K : Kernel W} `{Lc : Libc} `{P : Pkgexec}.

Definition inspect (fuel : nat) (executable : string) : M W interpreter_binding :=
  if negb (is_absolute executable) then fail invalid_value "interpreter path must be absolute"
  else
  resolved ← issue (fs_canonical executable);
  match (resolved : string + string) with
  | inl message =>
      fail interpreter_inspection_failed
        ("cannot resolve interpreter " +:+ executable +:+ ": " +:+ message)
  | inr canonical =>
  linked ← path_has_symlink_component canonical;
  if (linked : bool) then
    fail interpreter_inspection_failed "resolved interpreter path contains a symlink component"
  else
  info ← attempt (sys_stat canonical);
  if negb (match info with Some i => S_ISREG (st_mode i) | None => false end) then
    fail interpreter_inspection_failed ("interpreter is not a regular file: " +:+ canonical)
  else
  allowed ← succeeds (sys_access canonical X_OK);
  if negb allowed then
    fail interpreter_inspection_failed ("interpreter is not executable: " +:+ canonical)
  else
  digest ← digest_file fuel canonical;
  name ← interpreter_identity_of digest;
  mret (mk_interpreter name canonical digest)
  end.

End inspection.

(** ** The collection of a backend *)

Section collection.
Context `{P : Pkgexec}.

(** [std::sort(interpreters.begin(), interpreters.end())]. *)
Definition binding_le (a b : interpreter_binding) : Prop := binding_ltb b a = false.
#[export] Instance binding_le_dec a b : Decision (binding_le a b).
Proof. unfold binding_le. apply _. Defined.

(** [interpreters[i - 1].identity() == interpreters[i].identity()] for some [i]. *)
Fixpoint adjacent_duplicate (l : list interpreter_binding) : bool :=
  match l with
  | a :: (b :: _) as rest => bool_decide (identity a = identity b) || adjacent_duplicate rest
  | _ => false
  end.

(** The checks of both [make] functions: the sorted collection, or the error. *)
Definition admit_interpreters (interpreters : list interpreter_binding)
    : error + list interpreter_binding :=
  match interpreters with
  | [] => inl (mk_error invalid_value "at least one exact interpreter binding is required")
  | _ =>
      let sorted := merge_sort binding_le interpreters in
      if adjacent_duplicate sorted
      then inl (mk_error duplicate_interpreter "duplicate interpreter identity")
      else inr sorted
  end.

(** The search of [std::lower_bound] by identity, and the test of what it found. *)
Definition find_interpreter (values : list interpreter_binding) (key : interpreter_identity)
    : option interpreter_binding :=
  let found := lower_bound (λ binding, identity_ltb (identity binding) key) (length values) values
                 0 (length values) in
  match values !! found with
  | Some binding => if bool_decide (identity binding = key) then Some binding else None
  | None => None
  end.

End collection.

(** ** The laws of libpkgexec's orders *)

(** Identities are strictly and totally ordered by [operator<]; so are digests, of
    which asymmetry is enough. *)
Class OrderLaws `{Pkgexec} : Prop := {
  identity_irrefl : ∀ a, identity_ltb a a = false;
  identity_trans : ∀ a b c,
    identity_ltb a b = true → identity_ltb b c = true → identity_ltb a c = true;
  identity_total : ∀ a b, a ≠ b → identity_ltb a b = true ∨ identity_ltb b a = true;
  digest_asym : ∀ a b, digest_ltb a b = true → digest_ltb b a = false
}.

Section order.
Context `{P : Pkgexec} `{L : !OrderLaws}.

Lemma identity_asym a b : identity_ltb a b = true → identity_ltb b a = false.
Proof.
  intros H. apply not_true_is_false. intros H'. pose proof (identity_trans _ _ _ H H') as E.
  by rewrite identity_irrefl in E.
Qed.

Lemma list_ltb_asym {A} (ltb : A → A → bool) (l1 l2 : list A) :
  (∀ a b, ltb a b = true → ltb b a = false) →
  list_ltb ltb l1 l2 = true → list_ltb ltb l2 l1 = false.
Proof.
  intros Ha. revert l2. induction l1 as [|x l1 IH]; intros [|y l2]; simpl; try done.
  rewrite orb_true_iff, andb_true_iff, negb_true_iff. intros [H|[H1 H2]].
  - by rewrite (Ha _ _ H), H.
  - rewrite H1. destruct (ltb x y); simpl; [done|]. by apply IH.
Qed.

Lemma string_ltb_asym a b : String.ltb a b = true → String.ltb b a = false.
Proof.
  unfold String.ltb. rewrite (String.compare_antisym a b). by destruct (String.compare b a).
Qed.

Lemma path_ltb_asym a b : path_ltb a b = true → path_ltb b a = false.
Proof.
  unfold path_ltb. destruct (starts_rooted a), (starts_rooted b); simpl; try done;
    apply list_ltb_asym, string_ltb_asym.
Qed.

Lemma binding_ltb_asym a b : binding_ltb a b = true → binding_ltb b a = false.
Proof.
  unfold binding_ltb. destruct (identity_ltb (identity a) (identity b)) eqn:E1.
  { intros _. by rewrite (identity_asym _ _ E1). }
  destruct (identity_ltb (identity b) (identity a)) eqn:E2; simpl; [done|].
  destruct (path_ltb (executable a) (executable b)) eqn:E3.
  { intros _. by rewrite (path_ltb_asym _ _ E3). }
  destruct (path_ltb (executable b) (executable a)) eqn:E4; simpl; [done|]. apply digest_asym.
Qed.

#[local] Instance binding_le_total : Total binding_le.
Proof.
  intros a b. unfold binding_le. destruct (binding_ltb b a) eqn:E; [|auto].
  right. by apply binding_ltb_asym.
Qed.

Definition identity_lt (a b : interpreter_binding) : Prop :=
  identity_ltb (identity a) (identity b) = true.

(** A sorted collection without equal neighbours is strictly ordered by identity. *)
Lemma sorted_strict l :
  Sorted binding_le l → adjacent_duplicate l = false → StronglySorted identity_lt l.
Proof.
  intros Hs Hd. apply Sorted_StronglySorted.
  { intros a b c. apply identity_trans. }
  induction Hs as [|a l Hs IH Ha]; [constructor|]. destruct l as [|b l]; [repeat constructor|].
  cbn [adjacent_duplicate] in Hd. apply orb_false_iff in Hd as [Hab%bool_decide_eq_false Hd].
  constructor; [by apply IH|]. constructor. apply HdRel_inv in Ha.
  unfold binding_le, binding_ltb in Ha. apply orb_false_iff in Ha as [Ha _]. unfold identity_lt.
  destruct (identity_total _ _ Hab) as [|E]; [done|congruence].
Qed.

Lemma strict_nodup l : StronglySorted identity_lt l → NoDup (identity <$> l).
Proof.
  induction 1 as [|a l _ IH Ha]; [constructor|]. rewrite fmap_cons. constructor; [|done].
  intros (b & Eb & Hb)%list_elem_of_fmap. rewrite Forall_forall in Ha.
  specialize (Ha b Hb). unfold identity_lt in Ha. by rewrite Eb, identity_irrefl in Ha.
Qed.

Lemma duplicate_not_nodup l : adjacent_duplicate l = true → ¬ NoDup (identity <$> l).
Proof.
  induction l as [|a [|b l] IH]; [done..|]. cbn [adjacent_duplicate]. rewrite !fmap_cons.
  intros H Hn. apply NoDup_cons in Hn as [Hin Hn].
  apply orb_true_iff in H as [E%bool_decide_eq_true|H].
  - apply Hin. rewrite E. by left.
  - by apply IH.
Qed.

Lemma admit_interpreters_spec l :
  match admit_interpreters l with
  | inr sorted => l ≠ [] ∧ sorted ≡ₚ l ∧ StronglySorted identity_lt sorted
  | inl e => (l = [] ∧ error_code_of e = invalid_value) ∨
             (¬ NoDup (identity <$> l) ∧ error_code_of e = duplicate_interpreter)
  end.
Proof.
  unfold admit_interpreters. destruct l as [|a l]; [by left|].
  set (all := a :: l). pose proof (merge_sort_Permutation binding_le all) as Hp.
  destruct (adjacent_duplicate (merge_sort binding_le all)) eqn:E.
  - right. split; [|done]. rewrite <- Hp. by apply duplicate_not_nodup.
  - split_and!; [done|done|]. apply sorted_strict; [|done]. apply Sorted_merge_sort, _.
Qed.

(** ** The binary search *)

Lemma strict_lookup l i j a b :
  StronglySorted identity_lt l → l !! i = Some a → l !! j = Some b → (i < j)%nat →
  identity_lt a b.
Proof.
  intros Hs. revert i j. induction Hs as [|x l _ IH Hx]; intros [|i] [|j] Hi Hj Hlt;
    try done; try lia.
  - simpl in *. simplify_eq. rewrite Forall_forall in Hx. apply Hx.
    by eapply list_elem_of_lookup_2.
  - eapply IH; eauto. lia.
Qed.

Lemma strict_split l key :
  StronglySorted identity_lt l → split_by (λ b, identity_ltb (identity b) key) l.
Proof.
  intros Hs i j a b Hlt Ha Hb. apply identity_trans. by apply (strict_lookup l i j).
Qed.

Lemma find_interpreter_spec l key b :
  StronglySorted identity_lt l →
  find_interpreter l key = Some b ↔ b ∈ l ∧ identity b = key.
Proof.
  intros Hs. unfold find_interpreter.
  pose proof (λ i a, lower_bound_whole _ l i a (strict_split l key Hs)) as Hp.
  set (p := lower_bound _ _ _ _ _) in *. split.
  - destruct (l !! p) as [a|] eqn:Ea; [|done]. case_bool_decide; [|done]. intros [= <-].
    split; [by eapply list_elem_of_lookup_2|done].
  - intros [[i Hi]%list_elem_of_lookup <-].
    assert (p ≤ i)%nat as Hle.
    { pose proof (Hp i b Hi) as E. rewrite identity_irrefl in E. symmetry in E.
      apply bool_decide_eq_false in E. lia. }
    destruct (decide (i = p)) as [->|Hne].
    { rewrite Hi. by rewrite bool_decide_eq_true_2. }
    destruct (lookup_lt_is_Some_2 l p) as [a Ha]; [apply lookup_lt_Some in Hi; lia|].
    pose proof (Hp p a Ha) as E. rewrite bool_decide_eq_false_2 in E by lia.
    assert (identity_lt a b) as Hlt by (apply (strict_lookup l p i); [done..|lia]).
    unfold identity_lt in Hlt. congruence.
Qed.

(** C27: A backend accepts a collection of interpreter bindings exactly when it is not
    empty and no two bindings share an identity, and then the binary search of
    [find_interpreter] in the sorted collection finds the binding with a given
    identity whenever the caller supplied one, and nothing else. *)
Theorem interpreter_lookup_exact l sorted key b :
  admit_interpreters l = inr sorted →
  (find_interpreter sorted key = Some b ↔ b ∈ l ∧ identity b = key) ∧
  NoDup (identity <$> l).
Proof.
  intros E. pose proof (admit_interpreters_spec l) as H. rewrite E in H.
  destruct H as (_ & Hp & Hs). split.
  - rewrite find_interpreter_spec by done. by rewrite Hp.
  - rewrite <- Hp. by apply strict_nodup.
Qed.

(** [make] rejects only what it must: an empty collection, as an invalid value,
    and a collection in which two bindings share an identity. *)
Theorem interpreter_rejection_exact l e :
  admit_interpreters l = inl e →
  (l = [] ∧ error_code_of e = invalid_value) ∨
  (¬ NoDup (identity <$> l) ∧ error_code_of e = duplicate_interpreter).
Proof. intros E. pose proof (admit_interpreters_spec l) as H. by rewrite E in H. Qed.

End order.

(** ** The sample instance meets the laws *)

Lemma string_compare_trans a b c :
  String.compare a b = Lt → String.compare b c = Lt → String.compare a c = Lt.
Proof.
  revert b c. induction a as [|x a IH]; intros [|y b] [|z c]; simpl; try done.
  unfold Ascii.compare.
  destruct (N.compare_spec (Ascii.N_of_ascii x) (Ascii.N_of_ascii y)) as [E1|E1|E1]; [| |done];
  destruct (N.compare_spec (Ascii.N_of_ascii y) (Ascii.N_of_ascii z)) as [E2|E2|E2]; try done;
  intros H1 H2.
  - rewrite E1, E2, N.compare_refl. by eapply IH.
  - rewrite E1. by apply N.compare_lt_iff in E2 as ->.
  - rewrite <- E2. by apply N.compare_lt_iff in E1 as ->.
  - pose proof (N.lt_trans _ _ _ E1 E2) as E. by apply N.compare_lt_iff in E as ->.
Qed.

#[export] Instance plain_order_laws : @OrderLaws plain_pkgexec.
Proof.
  assert (Hlt : ∀ a b, String.ltb a b = true ↔ String.compare a b = Lt).
  { intros a b. unfold String.ltb. by destruct (String.compare a b). }
  constructor; simpl; [| | |apply string_ltb_asym].
  - intros a. apply not_true_is_false. intros H. pose proof H as H'%string_ltb_asym. congruence.
  - intros a b c. rewrite !Hlt. apply string_compare_trans.
  - intros a b Hne. rewrite !Hlt. rewrite (String.compare_antisym b a).
    destruct (String.compare a b) eqn:E; simpl; auto.
    by apply String.compare_eq_iff in E.
Qed.

Definition sample_bindings : list (@interpreter_binding plain_pkgexec) :=
  [@mk_interpreter plain_pkgexec "sh" "/bin/sh" "d1";
   @mk_interpreter plain_pkgexec "bash" "/bin/bash" "d2"].

Lemma interpreter_lookup_exact_witness :
  @find_interpreter plain_pkgexec (reverse sample_bindings) "sh" =
    Some (@mk_interpreter plain_pkgexec "sh" "/bin/sh" "d1").
Proof.
  apply (proj1 (@interpreter_lookup_exact plain_pkgexec _ sample_bindings (reverse sample_bindings)
    "sh" _ eq_refl)).
  split; [by left|done].
Defined.

Lemma interpreter_rejection_exact_witness :
  ¬ NoDup (@identity plain_pkgexec <$> (sample_bindings ++ sample_bindings)).
Proof.
  destruct (@interpreter_rejection_exact plain_pkgexec _ (sample_bindings ++ sample_bindings)
    (mk_error duplicate_interpreter "duplicate interpreter identity") eq_refl) as [[H _]|[H _]].
  - discriminate H.
  - exact H.
Defined.

(** ** Inspection *)

(** The paths the symlink check looks at: one per component, each extending the last. *)
Fixpoint chain (current : string) (components : list string) : list string :=
  match components with
  | [] => []
  | component :: rest =>
      let current := path_append current component in current :: chain current rest
  end.

Definition not_symlink_in (evs : list event) (path : string) : Prop :=
  ∃ info, Event (sys_lstat path) (Ok info) ∈ evs ∧ S_ISLNK (st_mode info) = false.

Section inspected.
Context {W : Type} `{K : Kernel W} `{Lc : Libc} `{P : Pkgexec}.

Lemma wp_symlink_component components : ∀ current (s : mstate W),
  wp (symlink_component current components) (λ o s', after s s' ∧
    match o with
    | Done false => Forall (not_symlink_in (trace s')) (chain current components)
    | Done true => True
    | _ => False
    end) s.
Proof.
  induction components as [|component rest IH]; intros current s; simpl.
  { apply wp_ret. split; [apply after_refl|constructor]. }
  wp_run; try (split; [apply after_push, after_refl|done]).
  eapply wp_mono; [apply IH|]. intros o s' [Ha Ho]. split.
  { eapply after_trans; [|exact Ha]. apply after_push, after_refl. }
  destruct o as [[|]|x|c|]; try done. constructor; [|done].
  eexists _. split; [|done]. eapply after_elem; [exact Ha|]. by left.
Qed.

Lemma emits_update bytes : emits anything (update (W := W) bytes).
Proof. unfold update, fail. emits_auto; done. Qed.
Lemma emits_digest_begin : emits anything (digest_begin (W := W)).
Proof. unfold digest_begin, fail. emits_auto; done. Qed.
Lemma emits_digest_end : emits anything (digest_end (W := W)).
Proof. unfold digest_end, fail. emits_auto; done. Qed.
Lemma emits_sha256_hex domain material : emits anything (sha256_hex (W := W) domain material).
Proof. unfold sha256_hex. emits_auto; auto using emits_update, emits_digest_begin, emits_digest_end. Qed.
Lemma emits_digest_loop fuel fd offset : emits anything (digest_loop (W := W) fuel fd offset).
Proof.
  revert offset. induction fuel as [|n IH]; intros offset; cbn [digest_loop]; unfold fail_errno, fail;
    emits_auto; try done; auto using emits_update.
Qed.
Lemma emits_digest_file fuel path : emits anything (digest_file (W := W) fuel path).
Proof.
  unfold digest_file, digest_fd, fail_errno, fail.
  emits_auto; try done; auto using emits_digest_begin, emits_digest_end, emits_digest_loop.
Qed.
Lemma emits_interpreter_identity_of digest :
  emits anything (interpreter_identity_of (W := W) digest).
Proof. unfold interpreter_identity_of. emits_auto; auto using emits_sha256_hex. Qed.

(** What a returned binding rests on. *)
Definition inspected_binding (fuel : nat) (path : string) (b : interpreter_binding)
    (s' : mstate W) : Prop :=
  Event (fs_canonical path) (inr (executable b)) ∈ trace s' ∧
  is_absolute (executable b) = true ∧
  Forall (not_symlink_in (trace s'))
    (chain (root_path (executable b)) (elements (relative_path (executable b)))) ∧
  (∃ info, Event (sys_stat (executable b)) (Ok info) ∈ trace s' ∧ S_ISREG (st_mode info) = true) ∧
  Event (sys_access (executable b) X_OK) (Ok tt) ∈ trace s' ∧
  ∃ s1 s2, digest_file fuel (executable b) s1 = (Done (content_digest b), s2) ∧
           interpreter_identity_of (content_digest b) s2 = (Done (identity b), s').

Lemma wp_path_has_symlink_component path (s : mstate W) :
  wp (path_has_symlink_component path) (λ o s', after s s' ∧
    match o with
    | Done false => is_absolute path = true ∧
        Forall (not_symlink_in (trace s')) (chain (root_path path) (elements (relative_path path)))
    | Done true => True
    | _ => False
    end) s.
Proof.
  unfold path_has_symlink_component. destruct (is_absolute path); cbn [negb].
  - eapply wp_mono; [apply wp_symlink_component|]. intros [[]|x|c|] s' [? ?]; done.
  - apply wp_ret. split; [apply after_refl|done].
Qed.

Lemma not_symlink_after (s s' : mstate W) paths :
  after s s' → Forall (not_symlink_in (trace s)) paths → Forall (not_symlink_in (trace s')) paths.
Proof.
  intros Ha H. eapply Forall_impl; [exact H|]. intros path (info & Hin & Hi). exists info.
  split; [by eapply after_elem|done].
Qed.

Lemma wp_inspect fuel path (s : mstate W) :
  wp (inspect fuel path) (λ o s', ∀ b, o = Done b → inspected_binding fuel path b s') s.
Proof.
  unfold inspect, fail. wp_step; [wp_run; done|]. wp_step. wp_step. wp_step; [wp_run; done|].
  match goal with |- wp (path_has_symlink_component ?c ≫= _) _ _ => rename c into canonical end.
  wp_step. eapply wp_mono; [apply wp_path_has_symlink_component|].
  intros [[]|x|c|] s1 [Ha1 H1]; try done; try (wp_run; done). destruct H1 as [Habs Hchain].
  wp_step. wp_step; [|wp_run; done]. wp_step; [wp_run; done|].
  wp_step. wp_step; [|wp_run; done]. cbn [negb]. destruct_units.
  set (s2 := push _ _ _ _ _) at 1. assert (H12 : after s1 s2) by (do 2 apply after_push; apply after_refl).
  apply wp_bind_run; [|by intros []]. intros digest s3 E3.
  apply wp_bind_run; [|by intros []]. intros name s4 E4. apply wp_ret. intros b [= <-].
  assert (H24 : after s2 s4).
  { eapply after_trans.
    - eapply emits_after; [apply (emits_digest_file fuel canonical)|exact E3].
    - eapply emits_after; [apply (emits_interpreter_identity_of digest)|exact E4]. }
  pose proof (after_trans _ _ _ H12 H24) as H14.
  split_and!; simpl.
  - eapply after_elem; [eapply after_trans; [exact Ha1|exact H14]|]. by left.
  - done.
  - by eapply not_symlink_after.
  - eexists. split; [eapply after_elem; [exact H24|]; by right; left|].
    by apply negb_false_iff.
  - eapply after_elem; [exact H24|]. by left.
  - by exists s2, s3.
Qed.

(** C28: An inspected binding names the canonical path of the file it was asked for; that
    path is absolute, none of its components was a symbolic link when looked at, it
    named a regular file that may be executed, the digest of the binding is the one
    [digest_file] computed for it and the identity is derived from that digest. *)
Theorem inspect_binding_exact fuel path b (s s' : mstate W) :
  inspect fuel path s = (Done b, s') → inspected_binding fuel path b s'.
Proof.
  intros E. pose proof (wp_inspect fuel path s) as H. unfold wp in H. rewrite E in H.
  by apply H.
Qed.

End inspected.

(** A file system with the regular file "/bin/sh", reached through a link "/sh". *)
Definition shell_kernel : Kernel nat := scripted (λ n R c,
  match c in call R return R with
  | fs_canonical _ => inr "/bin/sh"
  | sys_lstat path => Ok (mk_stat (if bool_decide (path = "/bin") then 16877 else 33261) 1 2)
  | sys_stat _ => Ok (mk_stat 33261 1 2)
  | sys_fstat _ => Ok (mk_stat 33261 1 2)
  | sys_access _ _ => Ok tt
  | sys_open _ _ => Ok 3
  | sys_close _ => Ok tt
  | sys_pread _ _ offset => Ok (drop (Z.to_nat offset) [127; 69; 76])
  | ssl_digest_init => true
  | ssl_digest_update _ => true
  | ssl_digest_final => Some (replicate 32 171)
  | c => default_answer c
  end).

Lemma inspect_binding_exact_witness :
  ∃ b s', @inspected_binding nat shell_kernel plain_libc plain_pkgexec 3 "/sh" b s' ∧
          executable b = "/bin/sh".
Proof.
  eexists _, _. split.
  - apply (@inspect_binding_exact nat shell_kernel plain_libc plain_pkgexec 3 "/sh" _ (start 0%nat)).
    vm_compute. reflexivity.
  - reflexivity.
Defined.
