(* ===== verification/Yields.v ===== *)
(** * What a computation returns

    [yields Q m]: whatever the kernel answers, a value that [m] returns satisfies [Q];
    [m] may also throw, but it does not leave the process. The rules follow the
    structure of programs, and the [yields] hint database closes the calls. *)

From S2P Require Import Prelude Machine Linux Logic Posix Pkgexec Paths Support.

Section yields.
Context {W : Type} `{K : Kernel W} `{Lc : Libc} `{P : Pkgexec}.

(** Running [m] returns a value that satisfies [Q], or throws, or runs out of the
    fuel of a directory scan. *)
Definition yields {A} (Q : A → Prop) (m : M W A) : Prop :=
  ∀ s, match (m s).1 with Done a => Q a | Exited _ => False | _ => True end.

Lemma yields_ret {A} (Q : A → Prop) a : Q a → yields Q (mret a : M W A).
Proof. by intros ? ?. Qed.
Lemma yields_throw {A} (Q : A → Prop) x : yields Q (throw x : M W A).
Proof. by intros ?. Qed.
Lemma yields_bind {A B} (R : A → Prop) (Q : B → Prop) (m : M W A) (k : A → M W B) :
  yields R m → (∀ a, R a → yields Q (k a)) → yields Q (m ≫= k).
Proof.
  intros Hm Hk s. specialize (Hm s). unfold mbind, M_bind.
  destruct (m s) as [[a|x|c|] s']; simpl in *; try done. by apply Hk.
Qed.
Lemma yields_bind_any {A B} (Q : B → Prop) (m : M W A) (k : A → M W B) :
  yields (λ _, True) m → (∀ a, yields Q (k a)) → yields Q (m ≫= k).
Proof. intros Hm Hk. eapply yields_bind; [exact Hm|]. auto. Qed.
Lemma yields_issue {R} (c : call R) : yields (λ _, True) (issue (W := W) c).
Proof. intros s. unfold issue. by destruct (kernel_run c (world s)). Qed.
Lemma yields_attempt {A} (c : call (res A)) : yields (λ _, True) (attempt (W := W) c).
Proof.
  intros s. unfold attempt, issue, mbind, M_bind. by destruct (kernel_run c (world s)) as [[]].
Qed.
Lemma yields_succeeds {A} (c : call (res A)) : yields (λ _, True) (succeeds (W := W) c).
Proof. eapply yields_bind_any; [apply yields_attempt|]. intros. by apply yields_ret. Qed.
Lemma yields_descriptor (c : call (res Z)) : yields (λ _, True) (descriptor (W := W) c).
Proof. eapply yields_bind_any; [apply yields_attempt|]. intros. by apply yields_ret. Qed.
Lemma yields_ignore {A} (c : call (res A)) : yields (λ _, True) (ignore (W := W) c).
Proof. eapply yields_bind_any; [apply yields_attempt|]. intros. by apply yields_ret. Qed.
Lemma yields_get_errno : yields (λ _, True) (get_errno (W := W)).
Proof. by intros s. Qed.
Lemma yields_set_errno e : yields (λ _, True) (set_errno (W := W) e).
Proof. by intros s. Qed.
Lemma yields_fail {A} (Q : A → Prop) code message : yields Q (fail (W := W) code message).
Proof. apply yields_throw. Qed.
Lemma yields_fail_errno {A} (Q : A → Prop) code op : yields Q (fail_errno (W := W) code op).
Proof. eapply yields_bind_any; [apply yields_get_errno|]. intros. apply yields_fail. Qed.
Lemma yields_fd_destroy fd : yields (λ _, True) (fd_destroy (W := W) fd).
Proof.
  unfold fd_destroy, fd_reset. eapply yields_bind_any; [|intros; by apply yields_ret].
  eapply yields_bind_any; [|intros; by apply yields_ret].
  destruct (fd_bool fd); [apply yields_ignore|by apply yields_ret].
Qed.
Lemma yields_finally {A} (Q : A → Prop) (m : M W A) c :
  yields Q m → yields (λ _, True) c → yields Q (finally m c).
Proof.
  intros Hm Hc s. specialize (Hm s). unfold finally.
  destruct (m s) as [[a|x|d|] s']; simpl in *; try done; specialize (Hc s');
    unfold mbind, M_bind; by destruct (c s') as [[]].
Qed.
Lemma yields_on_throw {A} (Q : A → Prop) (m : M W A) c :
  yields Q m → yields (λ _, True) c → yields Q (on_throw m c).
Proof.
  intros Hm Hc s. specialize (Hm s). unfold on_throw.
  destruct (m s) as [[a|x|d|] s']; simpl in *; try done; specialize (Hc s');
    unfold mbind, M_bind; by destruct (c s') as [[]].
Qed.
Lemma yields_with_fd {A} (Q : A → Prop) acquire (body : Z → M W A) :
  yields (λ _, True) acquire → (∀ fd, yields Q (body fd)) → yields Q (with_fd acquire body).
Proof.
  intros Ha Hb. eapply yields_bind_any; [done|]. intros fd.
  apply yields_finally; [done|apply yields_fd_destroy].
Qed.
Lemma yields_fds_destroy fds : yields (λ _, True) (fds_destroy (W := W) fds).
Proof.
  induction fds as [|fd fds IH]; simpl; [by apply yields_ret|].
  eapply yields_bind_any; [apply yields_fd_destroy|]. by intros.
Qed.
Lemma yields_mono {A} (R Q : A → Prop) (m : M W A) : yields R m → (∀ a, R a → Q a) → yields Q m.
Proof. intros Hm H s. specialize (Hm s). destruct (m s).1; auto. Qed.

Lemma yields_and {A} (R1 R2 : A → Prop) (m : M W A) :
  yields R1 m → yields R2 m → yields (λ a, R1 a ∧ R2 a) m.
Proof. intros H1 H2 s. specialize (H1 s). specialize (H2 s). by destruct (m s).1. Qed.
Lemma yields_fuel {A} (Q : A → Prop) : yields Q (out_of_fuel : M W A).
Proof. by intros s. Qed.
Lemma yields_retry {A} fuel (c : call (res A)) : yields (λ _, True) (retry_eintr (W := W) fuel c).
Proof.
  induction fuel as [|n IH]; simpl; [apply yields_fuel|].
  eapply yields_bind_any; [apply yields_attempt|]. intros [a|]; [by apply yields_ret|].
  eapply yields_bind_any; [apply yields_get_errno|]. intros e.
  destruct (e =? EINTR); [done|by apply yields_ret].
Qed.

End yields.

Create HintDb yields.
#[export] Hint Resolve yields_throw yields_fail yields_fail_errno yields_issue yields_attempt
  yields_succeeds yields_descriptor yields_ignore yields_get_errno yields_set_errno
  yields_fd_destroy yields_fds_destroy
  yields_fuel yields_retry : yields.

(** Follow a program, splitting on what it branches on; binds remember nothing. *)
Ltac yields_step :=
  match goal with
  | |- yields _ (mret _) => apply yields_ret
  | |- yields _ (with_fd _ _) => apply yields_with_fd; [|intros]
  | |- yields _ (finally _ _) => apply yields_finally
  | |- yields _ (on_throw _ _) => apply yields_on_throw
  | |- yields _ (match ?x with _ => _ end) => destruct x eqn:?
  | |- yields _ _ => solve [auto with yields]
  | |- yields _ (_ ≫= _) => eapply yields_bind_any; [|intros]
  end.
Ltac yields_auto := repeat yields_step.

(** * Computations that stay

    [noexcept P m]: whatever the kernel answers, [m] neither throws nor leaves the
    process; it makes calls that satisfy [P] and returns, or runs out of the fuel of a
    loop. [P] admits at least every call that writes to no descriptor. *)

Definition writes {R} (c : call R) : bool := match c with sys_write _ _ => true | _ => false end.

Class Admits (P : event → Prop) {R} (c : call R) : Prop := admits : ∀ r, P (Event c r).
Class Silent (P : event → Prop) : Prop := silent : ∀ R (c : call R), writes c = false → Admits P c.
Class MayWrite (P : event → Prop) (fd : Z) : Prop := may_write : ∀ bytes, Admits P (sys_write fd bytes).

#[export] Instance silent_anything : Silent anything.
Proof. done. Qed.
#[export] Instance may_write_anything fd : MayWrite anything fd.
Proof. done. Qed.
#[export] Hint Extern 1 (Admits _ (sys_write _ _)) => (apply may_write) : typeclass_instances.
#[export] Hint Extern 5 (Admits anything _) => (intros ?; exact I) : typeclass_instances.
#[export] Hint Extern 10 (Admits _ _) => (apply silent; reflexivity) : typeclass_instances.

Section noexcept.
Context {W : Type} `{K : Kernel W} (P : event → Prop).

Definition noexcept {A} (m : M W A) : Prop :=
  emits P m ∧ ∀ s, match (m s).1 with Done _ | OutOfFuel => True | _ => False end.

Lemma noexcept_ret {A} (a : A) : noexcept (mret a).
Proof. split; [apply emits_ret|done]. Qed.
Lemma noexcept_fuel {A} : noexcept (out_of_fuel : M W A).
Proof. split; [apply emits_fuel|done]. Qed.
Lemma noexcept_bind {A B} (m : M W A) (k : A → M W B) :
  noexcept m → (∀ a, noexcept (k a)) → noexcept (m ≫= k).
Proof.
  intros [E1 H1] Hk. split; [apply emits_bind; [done|apply Hk]|]. intros s. specialize (H1 s).
  unfold mbind, M_bind. destruct (m s) as [[a|x|c|] s']; simpl in *; try done. apply Hk.
Qed.
Lemma noexcept_issue {R} (c : call R) `{!Admits P c} : noexcept (issue c).
Proof. split; [by apply emits_issue|]. intros s. unfold issue. by destruct (kernel_run c (world s)). Qed.
Lemma noexcept_get_errno : noexcept get_errno.
Proof. split; [apply emits_get_errno|done]. Qed.
Lemma noexcept_set_errno e : noexcept (set_errno e).
Proof. split; [apply emits_set_errno|done]. Qed.
Lemma noexcept_attempt {A} (c : call (res A)) `{!Admits P c} : noexcept (attempt c).
Proof.
  apply noexcept_bind; [by apply noexcept_issue|]. intros [a|e]; [apply noexcept_ret|].
  apply noexcept_bind; [apply noexcept_set_errno|]. intros. apply noexcept_ret.
Qed.
Lemma noexcept_succeeds {A} (c : call (res A)) `{!Admits P c} : noexcept (succeeds c).
Proof. apply noexcept_bind; [by apply noexcept_attempt|]. intros. apply noexcept_ret. Qed.
Lemma noexcept_descriptor (c : call (res Z)) `{!Admits P c} : noexcept (descriptor c).
Proof. apply noexcept_bind; [by apply noexcept_attempt|]. intros. apply noexcept_ret. Qed.
Lemma noexcept_ignore {A} (c : call (res A)) `{!Admits P c} : noexcept (ignore c).
Proof. apply noexcept_bind; [by apply noexcept_attempt|]. intros. apply noexcept_ret. Qed.
Lemma noexcept_retry {A} fuel (c : call (res A)) `{!Admits P c} : noexcept (retry_eintr fuel c).
Proof.
  induction fuel as [|n IH]; simpl; [apply noexcept_fuel|].
  apply noexcept_bind; [by apply noexcept_attempt|]. intros [a|]; [apply noexcept_ret|].
  apply noexcept_bind; [apply noexcept_get_errno|]. intros e.
  destruct (e =? EINTR); [done|apply noexcept_ret].
Qed.
Lemma noexcept_finally {A} (m : M W A) c : noexcept m → noexcept c → noexcept (finally m c).
Proof.
  intros [Em Hm] Hc. split; [apply emits_finally; [done|apply Hc]|]. intros s. specialize (Hm s).
  unfold finally. destruct (m s) as [[a|x|d|] s']; simpl in *; try done.
  apply (noexcept_bind c (λ _, mret a) Hc (λ _, noexcept_ret a)).
Qed.

Context `{!Silent P}.
Lemma noexcept_fd_reset fd next : noexcept (fd_reset fd next).
Proof.
  apply noexcept_bind; [|intros; apply noexcept_ret].
  destruct (fd_bool fd); [apply noexcept_ignore, _|apply noexcept_ret].
Qed.
Lemma noexcept_fd_destroy fd : noexcept (fd_destroy fd).
Proof. apply noexcept_bind; [apply noexcept_fd_reset|]. intros. apply noexcept_ret. Qed.
Lemma noexcept_fds_destroy fds : noexcept (fds_destroy fds).
Proof.
  induction fds as [|fd fds IH]; simpl; [apply noexcept_ret|].
  apply noexcept_bind; [apply noexcept_fd_destroy|]. by intros.
Qed.
Lemma noexcept_with_fd {A} acquire (body : Z → M W A) :
  noexcept acquire → (∀ fd, noexcept (body fd)) → noexcept (with_fd acquire body).
Proof.
  intros Ha Hb. apply noexcept_bind; [done|]. intros fd.
  apply noexcept_finally; [done|apply noexcept_fd_destroy].
Qed.
End noexcept.

(** [quits m]: [m] neither returns nor throws. *)
Section quits.
Context {W : Type} `{K : Kernel W}.

Definition quits {A} (m : M W A) : Prop :=
  ∀ s, after s (m s).2 ∧ match (m s).1 with Exited _ | OutOfFuel => True | _ => False end.

Lemma quits_bind {A B} (m : M W A) (k : A → M W B) :
  noexcept anything m → (∀ a, quits (k a)) → quits (m ≫= k).
Proof.
  intros [Em Hm] Hk s. specialize (Hm s). pose proof (emits_after anything m s) as H.
  unfold mbind, M_bind. destruct (m s) as [[a|x|c|] s']; simpl in *; try done.
  - destruct (Hk a s') as [H3 H4]. split; [eapply after_trans; [by eapply H|done]|done].
  - split; [by eapply H|done].
Qed.
Lemma quits_exit {A} code : quits (@exit_process W A code).
Proof. intros s. split; [apply after_refl|done]. Qed.
End quits.

Create HintDb noexcept.
#[export] Hint Extern 1 (Admits _ _) => (apply _) : noexcept.
#[export] Hint Extern 1 (Silent _) => (apply _) : noexcept.
#[export] Hint Resolve noexcept_ret noexcept_fuel noexcept_issue noexcept_attempt noexcept_succeeds
  noexcept_descriptor noexcept_ignore noexcept_get_errno noexcept_set_errno noexcept_retry
  noexcept_fd_reset noexcept_fd_destroy noexcept_fds_destroy : noexcept.

Ltac noexcept_step :=
  match goal with
  | |- noexcept _ (with_fd _ _) => apply noexcept_with_fd; [apply _| |intros]
  | |- noexcept _ (finally _ _) => apply noexcept_finally
  | |- noexcept _ (match ?x with _ => _ end) => destruct x eqn:?
  | |- noexcept _ _ => solve [auto with noexcept]
  | |- noexcept _ (_ ≫= _) => apply noexcept_bind; [|intros]
  end.
Ltac noexcept_auto := repeat noexcept_step.
