(* ===== verification/Ownership.v ===== *)
(** * Descriptor accounting

    [owns pre post thr m]: a run of [m] that starts out responsible for the resources
    [pre] ends responsible for [post a] when it returns [a], and for [thr] when it
    throws: every descriptor and directory stream it acquired besides has been
    released exactly as often as it was acquired. Resources are counted, so the
    order of releases does not matter. A failed [fdopendir] is left out of the
    account: it takes over a descriptor that nothing then closes. *)

From S2P Require Import Prelude Machine Linux Logic Posix Pkgexec Paths Support Yields.

Inductive resource_handle : Set :=
| Descriptor (fd : Z)
| Stream (dir : Z).

#[export] Instance resource_handle_eq_dec : EqDecision resource_handle.
Proof. solve_decision. Defined.

Definition held (fd : Z) : list resource_handle := if fd_bool fd then [Descriptor fd] else [].

Definition new_descriptor (r : res Z) : list resource_handle :=
  match r with Ok fd => held fd | Err _ => [] end.

Definition acquired_by (ev : event) : list resource_handle :=
  match ev with
  | Event c r =>
      match c in call R return R → list resource_handle with
      | sys_open _ _ => new_descriptor
      | sys_openat _ _ _ => new_descriptor
      | sys_openat2 _ _ _ _ _ => new_descriptor
      | sys_open_tree _ _ _ => new_descriptor
      | sys_pidfd_open _ => new_descriptor
      | sys_socket _ _ _ => new_descriptor
      | sys_accept4 _ _ => new_descriptor
      | sys_pipe2 _ => λ r, match r with Ok (a, b) => held a ++ held b | Err _ => [] end
      | sys_opendir _ => λ r, match r with Ok d => [Stream d] | Err _ => [] end
      | sys_fdopendir _ => λ r, match r with Ok d => [Stream d] | Err _ => [] end
      | _ => λ _, []
      end r
  end.

Definition released_by (ev : event) : list resource_handle :=
  match ev with
  | Event c r =>
      match c in call R return R → list resource_handle with
      | sys_close fd => λ _, [Descriptor fd]
      | sys_closedir d => λ _, [Stream d]
      | sys_fdopendir fd => λ r, match r with Ok _ => [Descriptor fd] | Err _ => [] end
      | _ => λ _, []
      end r
  end.

(** The call is not a failed [fdopendir]. *)
Definition stream_opened (ev : event) : Prop :=
  match ev with
  | Event c r =>
      match c in call R return R → Prop with
      | sys_fdopendir _ => λ r, match r with Ok _ => True | Err _ => False end
      | _ => λ _, True
      end r
  end.

#[export] Instance stream_opened_decision ev : Decision (stream_opened ev).
Proof. destruct ev as [R c r]; destruct c; cbn; try apply _. destruct r; apply _. Defined.

Definition occurrences (x : resource_handle) (l : list resource_handle) : Z :=
  Z.of_nat (length (filter (λ y, y = x) l)).

(** How many more times [x] was acquired than released. *)
Fixpoint balance (x : resource_handle) (evs : list event) : Z :=
  match evs with
  | [] => 0
  | ev :: rest => occurrences x (acquired_by ev) - occurrences x (released_by ev) + balance x rest
  end.

Lemma occurrences_app x l1 l2 : occurrences x (l1 ++ l2) = occurrences x l1 + occurrences x l2.
Proof. unfold occurrences. rewrite filter_app, length_app. lia. Qed.

Lemma occurrences_nil x : occurrences x [] = 0.
Proof. done. Qed.

Lemma balance_app x l1 l2 : balance x (l1 ++ l2) = balance x l1 + balance x l2.
Proof. induction l1 as [|ev l1 IH]; simpl; [done|]. rewrite IH. lia. Qed.

Section ownership.
Context {W : Type} `{K : Kernel W}.

Definition owns {A} (pre : list resource_handle) (post : A → list resource_handle)
    (thr : list resource_handle) (m : M W A) : Prop :=
  ∀ s, ∃ evs, trace (m s).2 = evs ++ trace s ∧
    (Forall stream_opened evs →
     match (m s).1 with
     | Done a => ∀ x, balance x evs + occurrences x pre = occurrences x (post a)
     | Threw _ => ∀ x, balance x evs + occurrences x pre = occurrences x thr
     | _ => True
     end).

Lemma owns_emits {A} pre (post : A → _) thr (m : M W A) : owns pre post thr m → emits anything m.
Proof. intros H s. destruct (H s) as (evs & E & _). exists evs. split; [done|]. by apply Forall_true. Qed.

Lemma owns_ret {A} (a : A) pre thr : owns pre (λ _, pre) thr (mret a : M W A).
Proof. intros s. exists []. split; [done|]. intros _ x. simpl. lia. Qed.

Lemma owns_throw {A} x pre (post : A → _) : owns pre post pre (throw x : M W A).
Proof. intros s. exists []. split; [done|]. intros _ y. simpl. lia. Qed.

Lemma owns_ret_eq {A} (a : A) pre (post : A → _) thr :
  (∀ x, occurrences x pre = occurrences x (post a)) → owns pre post thr (mret a : M W A).
Proof. intros E s. exists []. split; [done|]. intros _ x. simpl. rewrite E. lia. Qed.

Lemma owns_fuel {A} pre (post : A → _) thr : owns pre post thr (out_of_fuel : M W A).
Proof. intros s. exists []. done. Qed.

Lemma owns_get_errno pre thr : owns pre (λ _, pre) thr (get_errno (W := W)).
Proof. intros s. exists []. split; [done|]. intros _ x. simpl. lia. Qed.

Lemma owns_set_errno e pre thr : owns pre (λ _, pre) thr (set_errno (W := W) e).
Proof. intros s. exists []. split; [done|]. intros _ x. simpl. lia. Qed.

(** Counting alike is as good as being equal. *)
Lemma owns_eq {A} pre pre' (post post' : A → _) thr thr' (m : M W A) :
  owns pre post thr m →
  (∀ x, occurrences x pre = occurrences x pre') →
  (∀ a x, occurrences x (post a) = occurrences x (post' a)) →
  (∀ x, occurrences x thr = occurrences x thr') →
  owns pre' post' thr' m.
Proof.
  intros H E1 E2 E3 s. destruct (H s) as (evs & Ht & Hb). exists evs. split; [done|].
  intros Hs. specialize (Hb Hs). destruct (m s).1; try done; intros y; specialize (Hb y).
  - by rewrite <- E1, <- E2.
  - by rewrite <- E1, <- E3.
Qed.

(** Resources the computation does not touch. *)
Lemma owns_frame {A} F pre (post : A → _) thr (m : M W A) :
  owns pre post thr m → owns (pre ++ F) (λ a, post a ++ F) (thr ++ F) m.
Proof.
  intros H s. destruct (H s) as (evs & Ht & Hb). exists evs. split; [done|].
  intros Hs. specialize (Hb Hs).
  destruct (m s).1; try done; intros y; specialize (Hb y); rewrite !occurrences_app; lia.
Qed.

Lemma owns_bind {A B} pre (mid : A → _) (post : B → _) thr (m : M W A) (k : A → M W B) :
  owns pre mid thr m → (∀ a, owns (mid a) post thr (k a)) → owns pre post thr (m ≫= k).
Proof.
  intros Hm Hk s. destruct (Hm s) as (evs & Ht & Hb). unfold mbind, M_bind.
  destruct (m s) as [[a|x|c|] s1]; simpl in *.
  - destruct (Hk a s1) as (evs2 & Ht2 & Hb2). exists (evs2 ++ evs).
    rewrite Ht2, Ht, app_assoc. split; [done|]. intros [H2 H1]%Forall_app.
    specialize (Hb H1). specialize (Hb2 H2).
    destruct (k a s1).1; try done; intros y; specialize (Hb y); specialize (Hb2 y);
      rewrite balance_app; lia.
  - by exists evs.
  - exists evs. done.
  - exists evs. done.
Qed.

(** Cleanup after an exception: it deals with [thr] and leaves [rest]. *)
Lemma owns_on_throw {A} pre (post : A → _) thr rest (m : M W A) (c : M W unit) :
  owns pre post thr m → owns thr (λ _, rest) rest c → owns pre post rest (on_throw m c).
Proof.
  intros Hm Hc s. destruct (Hm s) as (evs & Ht & Hb). unfold on_throw.
  destruct (m s) as [[a|x|d|] s1]; simpl in *; try (by exists evs).
  destruct (Hc s1) as (evs2 & Ht2 & Hb2). exists (evs2 ++ evs). unfold mbind, M_bind.
  destruct (c s1) as [[u|y|d|] s2]; simpl in *; rewrite Ht2, Ht, app_assoc; (split; [done|]);
    intros [H2 H1]%Forall_app; specialize (Hb H1); specialize (Hb2 H2); try done;
    intros z; specialize (Hb z); specialize (Hb2 z); rewrite balance_app; lia.
Qed.

(** A computation that always returns, as destructors do. *)
Definition always (c : M W unit) : Prop := ∀ s, ∃ s', c s = (Done tt, s').

(** Destructors of a scope that owns [D]. *)
Lemma owns_finally {A} D pre (post : A → _) thr (m : M W A) (c : M W unit) :
  owns pre (λ a, D ++ post a) (D ++ thr) m → owns D (λ _, []) [] c → always c →
  owns pre post thr (finally m c).
Proof.
  intros Hm Hc Hr s. destruct (Hm s) as (evs & Ht & Hb). unfold finally.
  destruct (m s) as [[a|x|d|] s1]; simpl in *; try (by exists evs);
  destruct (Hc s1) as (evs2 & Ht2 & Hb2); exists (evs2 ++ evs); unfold mbind, M_bind;
  destruct (Hr s1) as [s2 E]; rewrite E in *; simpl in *; rewrite Ht2, Ht, app_assoc;
    (split; [done|]); intros [H2 H1]%Forall_app; specialize (Hb H1); specialize (Hb2 H2);
    intros z; specialize (Hb z); specialize (Hb2 z);
    rewrite ?balance_app, ?occurrences_app, ?occurrences_nil in *; lia.
Qed.

(** ** Calls *)

(** A call that acquires and releases nothing. *)
Lemma owns_neutral {R} (c : call R) pre thr :
  (∀ r, acquired_by (Event c r) = [] ∧ released_by (Event c r) = []) →
  owns pre (λ _, pre) thr (issue (W := W) c).
Proof.
  intros H s. unfold issue. destruct (kernel_run c (world s)) as [r w]; simpl.
  exists [Event c r]. split; [done|]. intros _ x. cbn [balance].
  destruct (H r) as [-> ->]. rewrite occurrences_nil. lia.
Qed.

Lemma owns_attempt_neutral {A} (c : call (res A)) pre thr :
  (∀ r, acquired_by (Event c r) = [] ∧ released_by (Event c r) = []) →
  owns pre (λ _, pre) thr (attempt (W := W) c).
Proof.
  intros H. eapply owns_bind; [by apply owns_neutral|]. intros [a|e]; [apply owns_ret|].
  eapply owns_bind; [apply owns_set_errno|]. intros. apply owns_ret.
Qed.

Lemma owns_retry_neutral {A} (c : call (res A)) fuel pre thr :
  (∀ r, acquired_by (Event c r) = [] ∧ released_by (Event c r) = []) →
  owns pre (λ _, pre) thr (retry_eintr (W := W) fuel c).
Proof.
  intros H. induction fuel as [|n IH]; cbn [retry_eintr]; [apply owns_fuel|].
  eapply owns_bind; [by apply owns_attempt_neutral|]. intros [a|]; [apply owns_ret|].
  eapply owns_bind; [apply owns_get_errno|]. intros e. destruct (e =? EINTR); [done|apply owns_ret].
Qed.

(** A call that answers a descriptor. *)
Lemma owns_descriptor (c : call (res Z)) pre thr :
  (∀ r, acquired_by (Event c r) = new_descriptor r ∧ released_by (Event c r) = []) →
  owns pre (λ fd, held fd ++ pre) thr (descriptor (W := W) c).
Proof.
  intros H s. unfold descriptor, attempt, issue, mbind, M_bind.
  destruct (kernel_run c (world s)) as [[fd|e] w]; simpl; eexists [_]; (split; [done|]);
    intros _ x; cbn [balance].
  - destruct (H (Ok fd)) as [-> ->]. rewrite occurrences_app, occurrences_nil. simpl. lia.
  - destruct (H (Err e)) as [-> ->]. rewrite !occurrences_nil. lia.
Qed.

Lemma owns_close fd pre thr :
  owns (Descriptor fd :: pre) (λ _, pre) thr (ignore (W := W) (sys_close fd)).
Proof.
  intros s. unfold ignore, attempt, issue, mbind, M_bind.
  destruct (kernel_run (sys_close fd) (world s)) as [[u|e] w]; simpl; eexists [_];
    (split; [done|]); intros _ x; simpl; change (Descriptor fd :: pre) with ([Descriptor fd] ++ pre);
    rewrite occurrences_app, occurrences_nil; lia.
Qed.

Lemma owns_fd_destroy fd pre thr :
  owns (held fd ++ pre) (λ _, pre) thr (fd_destroy (W := W) fd).
Proof.
  unfold fd_destroy, fd_reset, held. destruct (fd_bool fd); simpl.
  - eapply owns_bind; [|intros; apply owns_ret].
    eapply owns_bind; [apply owns_close|intros; apply owns_ret].
  - eapply owns_bind; [|intros; apply owns_ret].
    eapply owns_bind; [apply owns_ret|intros; apply owns_ret].
Qed.

Lemma owns_fdopendir fd pre thr :
  owns (Descriptor fd :: pre)
    (λ r, match r with Some d => Stream d :: pre | None => pre end) thr
    (attempt (W := W) (sys_fdopendir fd)).
Proof.
  intros s. unfold attempt, issue, mbind, M_bind.
  destruct (kernel_run (sys_fdopendir fd) (world s)) as [[d|e] w]; simpl; eexists [_];
    (split; [done|]).
  - intros _ x. simpl. change (Descriptor fd :: pre) with ([Descriptor fd] ++ pre).
    change (Stream d :: pre) with ([Stream d] ++ pre). rewrite !occurrences_app. lia.
  - by intros [[] _]%Forall_cons_iff.
Qed.

Lemma owns_closedir d pre thr :
  owns (Stream d :: pre) (λ _, pre) thr (succeeds (W := W) (sys_closedir d)).
Proof.
  intros s. unfold succeeds, attempt, issue, mbind, M_bind.
  destruct (kernel_run (sys_closedir d) (world s)) as [[u|e] w]; simpl; eexists [_];
    (split; [done|]); intros _ x; simpl; change (Stream d :: pre) with ([Stream d] ++ pre);
    rewrite occurrences_app, occurrences_nil; lia.
Qed.

Lemma always_ignore {A} (c : call (res A)) : always (ignore (W := W) c).
Proof.
  intros s. unfold ignore, attempt, issue, mbind, M_bind.
  destruct (kernel_run c (world s)) as [[a|e] w]; simpl; eauto.
Qed.

Lemma always_ret : always (mret tt).
Proof. intros s. by exists s. Qed.

Lemma always_seq c1 c2 : always c1 → always c2 → always (c1;; c2).
Proof.
  intros H1 H2 s. destruct (H1 s) as [s1 E1]. unfold mbind, M_bind. rewrite E1. apply H2.
Qed.

Lemma always_fd_destroy fd : always (fd_destroy (W := W) fd).
Proof.
  unfold fd_destroy, fd_reset. intros s. unfold mbind at 1, M_bind at 1.
  destruct (fd_bool fd); [|by exists s].
  destruct (always_ignore (sys_close fd) s) as [s1 E]. unfold mbind, M_bind. rewrite E. by exists s1.
Qed.

Definition held_all (fds : list Z) : list resource_handle := concat (held <$> fds).

Lemma owns_fds_destroy fds pre thr :
  owns (held_all fds ++ pre) (λ _, pre) thr (fds_destroy (W := W) fds).
Proof.
  induction fds as [|fd fds IH]; simpl; [apply owns_ret|].
  unfold held_all. rewrite fmap_cons. simpl. rewrite <- app_assoc.
  eapply owns_bind; [apply owns_fd_destroy|]. intros. exact IH.
Qed.

Lemma always_fds_destroy fds : always (fds_destroy (W := W) fds).
Proof.
  induction fds as [|fd fds IH]; simpl; [apply always_ret|].
  apply always_seq; [apply always_fd_destroy|done].
Qed.

(** A scoped owner: the body may use the descriptor, the scope closes it. *)
Lemma owns_with_fd {A} pre (post : A → _) thr acquire (body : Z → M W A) :
  owns pre (λ fd, held fd ++ pre) thr acquire →
  (∀ fd, owns (held fd ++ pre) (λ a, held fd ++ post a) (held fd ++ thr) (body fd)) →
  owns pre post thr (with_fd acquire body).
Proof.
  intros Ha Hb. eapply owns_bind; [exact Ha|]. intros fd.
  apply (owns_finally (held fd)); [apply Hb| |apply always_fd_destroy].
  eapply owns_eq; [apply (owns_fd_destroy fd [] [])|..]; try done. intros. by rewrite app_nil_r.
Qed.

(** A call that answers a descriptor, when it succeeds. *)
Lemma owns_opendir path pre thr :
  owns pre (λ r, match r with Some d => Stream d :: pre | None => pre end) thr
    (attempt (W := W) (sys_opendir path)).
Proof.
  intros s. unfold attempt, issue, mbind, M_bind.
  destruct (kernel_run (sys_opendir path) (world s)) as [[d|e] w]; simpl; eexists [_];
    (split; [done|]); intros _ x; simpl; [|lia].
  change (Stream d :: pre) with ([Stream d] ++ pre). rewrite occurrences_app, occurrences_nil. lia.
Qed.

Lemma owns_pipe pre thr :
  owns pre (λ r, match r with Some (a, b) => held a ++ held b ++ pre | None => pre end) thr
    (attempt (W := W) (sys_pipe2 O_CLOEXEC)).
Proof.
  intros s. unfold attempt, issue, mbind, M_bind.
  destruct (kernel_run (sys_pipe2 O_CLOEXEC) (world s)) as [[[a b]|e] w]; simpl; eexists [_];
    (split; [done|]); intros _ x; simpl; rewrite ?occurrences_app, ?occurrences_nil; lia.
Qed.

(** [reset]: what was held is given up. *)
Lemma owns_reset fd rest pre thr :
  (∀ x, occurrences x pre = occurrences x (held fd ++ rest)) →
  owns pre (λ r, held r ++ rest) thr (fd_reset (W := W) fd (-1)).
Proof.
  intros E. apply (owns_eq (held fd ++ rest) _ (λ r, held r ++ rest) _ thr); [|by symmetry|done..].
  unfold fd_reset. eapply (owns_bind _ (λ _, rest)); [|intros; by apply owns_ret_eq].
  unfold held. destruct (fd_bool fd); [apply owns_close|apply owns_ret].
Qed.

(** A handler takes over what the body leaves when it throws. *)
Lemma owns_catch {A} pre (post : A → _) thr thr' (m : M W A) h :
  owns pre post thr m → (∀ x, owns thr post thr' (h x)) → owns pre post thr' (catch m h).
Proof.
  intros Hm Hh s. destruct (Hm s) as (evs & Ht & Hb). unfold catch.
  destruct (m s) as [[a|x|d|] s1]; simpl in *; try (by exists evs).
  destruct (Hh x s1) as (evs2 & Ht2 & Hb2). exists (evs2 ++ evs).
  rewrite Ht2, Ht, app_assoc. split; [done|]. intros [H2 H1]%Forall_app.
  specialize (Hb H1). specialize (Hb2 H2).
  destruct (h x s1).1; try done; intros y; specialize (Hb y); specialize (Hb2 y);
    rewrite balance_app; lia.
Qed.

(** A process that is left is not accounted for: its descriptors go with it. *)
Lemma owns_quits {A} pre (post : A → _) thr (m : M W A) : quits m → owns pre post thr m.
Proof.
  intros Hq s. destruct (Hq s) as [[evs Ht] H]. exists evs. split; [done|]. intros _.
  by destruct (m s).1.
Qed.

Lemma owns_fail `{Libc} {A} code message pre (post : A → _) :
  owns pre post pre (fail (W := W) code message).
Proof. apply owns_throw. Qed.

Lemma owns_fail_errno `{Libc} {A} code op pre (post : A → _) :
  owns pre post pre (fail_errno (W := W) code op).
Proof. eapply owns_bind; [apply owns_get_errno|]. intros. apply owns_fail. Qed.

End ownership.

Create HintDb owns.
#[export] Hint Resolve owns_ret owns_throw owns_fuel owns_get_errno owns_set_errno owns_fail
  owns_fail_errno owns_fd_destroy owns_fds_destroy : owns.

(** Follow a program whose calls neither acquire nor release, or do so through the
    lemmas of the [owns] database. *)
Ltac owns_step :=
  match goal with
  | |- owns _ _ _ (match ?x with _ => _ end) => destruct x eqn:?
  | |- owns _ _ _ (attempt _) => apply owns_attempt_neutral; intros; split; reflexivity
  | |- owns _ _ _ (issue _) => apply owns_neutral; intros; split; reflexivity
  | |- owns _ _ _ (descriptor _) => apply owns_descriptor; intros; split; reflexivity
  | |- owns _ _ _ (retry_eintr _ _) => apply owns_retry_neutral; intros; split; reflexivity
  | |- owns _ _ _ _ => solve [auto with owns]
  | |- owns _ _ _ (_ ≫= _) => eapply owns_bind; [|intros]
  | |- owns _ _ _ (succeeds _) => unfold succeeds
  | |- owns _ _ _ (ignore _) => unfold ignore
  end.
Ltac owns_auto := repeat owns_step.
