(* ===== verification/Admission.v ===== *)
(** * Admission of isolated resources (src/mount_isolation.cpp)

    The checks that turn a request and the caller's directories into an
    [isolated_admission]: descriptors of the exact directories, their identities, the
    namespaces to build for input resources, and a private scratch directory; and
    the life of an admission: moves, verified cleanup, destruction. Owned
    descriptors are integers; what the destructors close, and when, is written out. *)

From stdpp Require Import sorting.
From S2P Require Import Prelude Machine Linux Logic Posix Script Pkgexec Paths Support Yields.
From S2P Require Import Ownership.
Local Open Scope string_scope.
Local Open Scope list_scope.
Local Open Scope Z_scope.

Record inode_identity : Set := mk_inode { device : Z; inode : Z }.

#[export] Instance inode_identity_eq_dec : EqDecision inode_identity.
Proof. solve_decision. Defined.

Record isolated_binding : Set := mk_isolated_binding {
  source : Z;
  source_identity : inode_identity;
  target_identity : inode_identity;
  binding_access : resource_access;
  logical_path : string;
  synthetic_destination : bool
}.

Record isolated_namespace : Set := mk_namespace {
  namespace_path : string;
  namespace_identity : inode_identity;
  children : list string
}.

Record isolated_admission : Set := mk_admission {
  root_source : Z;
  admitted_bindings : list isolated_binding;
  namespaces : list isolated_namespace;
  scratch : string;
  cleanup_attempted : bool
}.

Section admission.
Context {W : Type} `{K : Kernel W} `{Lc : Libc} `{P : Pkgexec}.

(** ** Opening and identifying directories *)

Definition open_exact_path (path : string) : M W Z :=
  descriptor (sys_openat2 AT_FDCWD path (Z.lor O_PATH (Z.lor O_DIRECTORY O_CLOEXEC)) 0
    (Z.lor RESOLVE_NO_SYMLINKS RESOLVE_NO_MAGICLINKS)).

Definition open_beneath (root_fd : Z) (logical : string) : M W Z :=
  let relative := strip_leading logical in
  let relative := if bool_decide (relative = "") then "." else relative in
  descriptor (sys_openat2 root_fd relative (Z.lor O_PATH (Z.lor O_DIRECTORY O_CLOEXEC)) 0
    (Z.lor RESOLVE_BENEATH (Z.lor RESOLVE_NO_SYMLINKS RESOLVE_NO_MAGICLINKS))).

Definition identity_of (fd : Z) : M W inode_identity :=
  info ← attempt (sys_fstat fd);
  match info with
  | None => fail_errno invalid_value "fstat admitted resource"
  | Some info =>
      if negb (S_ISDIR (st_mode info)) then
        fail invalid_value "root views and execution resources must be directories"
      else mret (mk_inode (st_dev info) (st_ino info))
  end.

Definition same_inode (fd : Z) (expected : inode_identity) : M W bool :=
  info ← attempt (sys_fstat fd);
  mret (match info with
        | Some info => S_ISDIR (st_mode info) && (st_dev info =? device expected) &&
                       (st_ino info =? inode expected)
        | None => false
        end).

(** ** Checks *)

Definition is_read_only_role (r : resource_role) : bool :=
  match r with
  | source_tree | build_input_tree | check_input_tree | package_tree => true
  | _ => false
  end.
Definition is_writable_role (r : resource_role) : bool :=
  match r with
  | build_workspace | package_output_root | private_temporary_root | managed_target_root => true
  | _ => false
  end.

Definition validate_role_access (binding : resource_binding) : M W unit :=
  if is_read_only_role (role binding) && negb (bool_decide (access binding = read_only)) then
    fail invalid_value "source, package, and package-input resources must be read-only"
  else if is_writable_role (role binding) && negb (bool_decide (access binding = writable)) then
    fail invalid_value "workspace, output, temporary, and target resources must be writable"
  else mret tt.

Definition writable_by_current_credentials (fd : Z) : M W bool :=
  succeeds (sys_faccessat2 fd "" (Z.lor W_OK X_OK) (Z.lor AT_EMPTY_PATH AT_EACCESS)).

(** [while (dirent* entry = ::readdir(directory))]: whether only "." and ".." came. *)
Fixpoint only_dots (fuel : nat) (directory : Z) : M W bool :=
  match fuel with
  | O => out_of_fuel
  | S n =>
      entry ← attempt (sys_readdir directory);
      match entry with
      | Some (Some name) =>
          if bool_decide (name ≠ ".") && bool_decide (name ≠ "..") then mret false
          else set_errno 0;; only_dots n directory
      | _ => mret true
      end
  end.

(** [readable.release()] hands the descriptor to [fdopendir]; from then on only
    [closedir] closes it. *)
Definition directory_is_empty (fuel : nat) (fd : Z) : M W bool :=
  readable ← descriptor (sys_openat fd "."
    (Z.lor O_RDONLY (Z.lor O_DIRECTORY (Z.lor O_CLOEXEC O_NOFOLLOW))));
  if negb (fd_bool readable) then fail_errno invalid_value "open resource namespace"
  else
  on_throw
    (expected ← identity_of fd;
     same ← same_inode readable expected;
     if negb same then fail invalid_value "resource namespace changed before enumeration"
     else mret tt)
    (fd_destroy readable);;
  directory ← attempt (sys_fdopendir readable);
  match directory with
  | None => fail_errno invalid_value "open resource namespace stream"
  | Some directory =>
      set_errno 0;;
      empty ← only_dots fuel directory;
      saved ← get_errno;
      closed ← succeeds (sys_closedir directory);
      e ← get_errno;
      if negb (saved =? 0) || negb closed then
        fail invalid_value
          (errno_message "read resource namespace" (if negb (saved =? 0) then saved else e))
      else mret empty
  end.

Definition is_input_role (r : resource_role) : bool :=
  match r with build_input_tree | check_input_tree => true | _ => false end.

Definition make_scratch : M W string :=
  created ← attempt (sys_mkdtemp "/tmp/libpkgexec-linux.XXXXXX");
  match created with
  | None => fail_errno invalid_value "mkdtemp isolation root"
  | Some path =>
      changed ← succeeds (sys_chmod path 448);
      prepared ← (if (changed : bool) then succeeds (sys_mkdir (path_append path "root") 448)
                  else mret false);
      if (prepared : bool) then mret path
      else
        saved ← get_errno;
        ignore (sys_rmdir (path_append path "root"));;
        ignore (sys_rmdir path);;
        fail invalid_value (errno_message "prepare isolation root" saved)
  end.

(** ** The admission loop *)

(** The vectors the loop fills. *)
Record admission_state : Set := mk_admission_state {
  logical_paths : list string;
  host_paths : list string;
  source_identities : list inode_identity;
  admitted : list isolated_binding;
  found_namespaces : list isolated_namespace
}.

(** [std::find_if] by path, then a new namespace or one more child. *)
Fixpoint add_child (path : string) (identity : inode_identity) (child : string)
    (spaces : list isolated_namespace) : option (list isolated_namespace) :=
  match spaces with
  | [] => Some [mk_namespace path identity [child]]
  | value :: rest =>
      if bool_decide (namespace_path value = path) then
        if bool_decide (namespace_identity value = identity) then
          Some (mk_namespace (namespace_path value) (namespace_identity value)
                  (children value ++ [child]) :: rest)
        else None
      else cons value <$> add_child path identity child rest
  end.

(** The destination of one binding: the namespaces after it, and the identity of the
    directory the resource is to cover when it is not a synthetic one. *)
Definition admit_destination (fuel : nat) (root : Z) (binding : resource_binding)
    (spaces : list isolated_namespace) : M W (list isolated_namespace * inode_identity) :=
  let logical := mount_point binding in
  if is_input_role (role binding) then
    let parent := parent_path logical in
    let child := filename logical in
    if bool_decide (parent = "") || path_eqb parent "/" || bool_decide (child = "") then
      fail invalid_value "input resource mount point requires a dedicated parent namespace"
    else
    with_fd (open_beneath root parent) (λ target_parent,
    if negb (fd_bool target_parent) then fail_errno invalid_value "open root input namespace"
    else
    empty ← directory_is_empty fuel target_parent;
    if negb empty then fail invalid_value "root input namespace must be empty"
    else
    parent_identity ← identity_of target_parent;
    match add_child parent parent_identity child spaces with
    | None => fail invalid_value "root input namespace changed during admission"
    | Some spaces => mret (spaces, mk_inode 0 0)
    end)
  else
    with_fd (open_beneath root logical) (λ target,
    if negb (fd_bool target) then fail_errno invalid_value "open root resource destination"
    else
    target_identity ← identity_of target;
    mret (spaces, target_identity)).

(** The checks on the logical path of one binding. *)
Definition check_logical (binding : resource_binding) (existing : list string) : M W unit :=
  let logical := mount_point binding in
  if path_eqb logical "/" then
    fail invalid_value "execution resources cannot replace the root view"
  else if path_contains "/dev" logical then
    fail invalid_value "execution resources cannot occupy backend-owned /dev"
  else if existsb (λ e, path_contains e logical || path_contains logical e) existing then
    fail invalid_value "resource logical mount points cannot overlap"
  else mret tt.

(** The checks on the host path of one binding. *)
Definition check_host (root_path host : string) (existing : list string) : M W unit :=
  if path_contains root_path host || path_contains host root_path then
    fail invalid_value "execution resource host paths cannot overlap the root view"
  else if existsb (λ e, path_contains e host || path_contains host e) existing then
    fail invalid_value "resource host paths cannot overlap"
  else mret tt.

(** What is done while the descriptor [src] of the resource is owned by the loop body. *)
Definition admit_source (fuel : nat) (root src : Z) (host : string) (st : admission_state)
    (binding : resource_binding) : M W admission_state :=
  src_identity ← identity_of src;
  if bool_decide (src_identity ∈ source_identities st) then
    fail invalid_value "multiple resources resolve to the same directory"
  else
  refused ← (if bool_decide (access binding = writable) then
               allowed ← writable_by_current_credentials src; mret (negb allowed)
             else mret false);
  if (refused : bool) then
    fail invalid_value "writable execution resource is not writable by current credentials"
  else
  destination ← admit_destination fuel root binding (found_namespaces st);
  let '(spaces, tgt_identity) := (destination : list isolated_namespace * inode_identity) in
  mret (mk_admission_state
    (logical_paths st ++ [mount_point binding]) (host_paths st ++ [host])
    (source_identities st ++ [src_identity])
    (admitted st ++ [mk_isolated_binding src src_identity tgt_identity (access binding)
                       (mount_point binding) (is_input_role (role binding))])
    spaces).

(** The body of the loop over the bindings. *)
Definition admit_binding (fuel : nat) (resources : execution_resources) (root_path : string)
    (root : Z) (st : admission_state) (binding : resource_binding) : M W admission_state :=
  validate_role_access binding;;
  check_logical binding (logical_paths st);;
  match materialization resources (resource binding) with
  | inl x => throw x
  | inr host_path =>
      let host := lexically_normal host_path in
      check_host root_path host (host_paths st);;
      src ← open_exact_path host;
      if negb (fd_bool src) then fail_errno invalid_value "open exact execution resource"
      else on_throw (admit_source fuel root src host st binding) (fd_destroy src)
  end.

(** The loop: when an iteration throws, the vector of admitted bindings is destroyed. *)
Fixpoint admit_bindings (fuel : nat) (resources : execution_resources) (root_path : string)
    (root : Z) (st : admission_state) (bindings : list resource_binding) : M W admission_state :=
  match bindings with
  | [] => mret st
  | binding :: rest =>
      st' ← on_throw (admit_binding fuel resources root_path root st binding)
              (fds_destroy (source <$> admitted st));
      admit_bindings fuel resources root_path root st' rest
  end.

(** [std::sort] and [std::unique] on the children of a namespace. *)
Definition string_le (a b : string) : Prop := String.ltb b a = false.
#[export] Instance string_le_dec a b : Decision (string_le a b).
Proof. unfold string_le. apply _. Defined.
Definition settle_namespace (value : isolated_namespace) : isolated_namespace :=
  mk_namespace (namespace_path value) (namespace_identity value)
    (unique (merge_sort string_le (children value))).

Definition admit_isolated_resources (fuel : nat) (request : execution_request)
    (resources : execution_resources) : M W isolated_admission :=
  let root_path := lexically_normal (root_view_path resources) in
  if path_eqb root_path "/" then
    fail invalid_value "isolated execution requires a dedicated root-view directory"
  else
  root ← open_exact_path root_path;
  if negb (fd_bool root) then fail_errno invalid_value "open exact root view"
  else
  on_throw
    (identity_of root;;
     st ← admit_bindings fuel resources root_path root (mk_admission_state [] [] [] [] [])
            (bindings request);
     scratch_path ← on_throw make_scratch (fds_destroy (source <$> admitted st));
     mret (mk_admission root (admitted st) (settle_namespace <$> found_namespaces st)
             scratch_path false))
    (fd_destroy root).

(** ** The life of an admission *)

(** [verify_parent_cleanup]: the answer and the admission after it. *)
Definition verify_parent_cleanup (a : isolated_admission) : M W (bool * isolated_admission) :=
  let after (okay : bool) := mk_admission (root_source a) (admitted_bindings a) (namespaces a)
    (if okay then "" else scratch a) true in
  if cleanup_attempted a then mret (bool_decide (scratch a = ""), a)
  else if bool_decide (scratch a = "") then mret (true, after true)
  else
    r1 ← attempt (sys_rmdir (path_append (scratch a) "root"));
    e1 ← get_errno;
    let first := (match r1 with Some _ => true | None => e1 =? ENOENT end) in
    r2 ← attempt (sys_rmdir (scratch a));
    e2 ← get_errno;
    let second := (match r2 with Some _ => true | None => e2 =? ENOENT end) in
    mret (first && second, after (first && second)).

Definition cleanup_best_effort (a : isolated_admission) : M W isolated_admission :=
  if negb (cleanup_attempted a) && bool_decide (scratch a ≠ "") then
    r ← verify_parent_cleanup a;
    mret r.2
  else mret a.

(** The destructor: the body, then the members, last first. *)
Definition admission_destroy (a : isolated_admission) : M W unit :=
  cleanup_best_effort a;;
  fds_destroy (source <$> admitted_bindings a);;
  fd_destroy (root_source a).

(** What a move leaves behind. *)
Definition moved_from : isolated_admission := mk_admission (-1) [] [] "" true.

(** Move construction, and move assignment between distinct objects: the two objects
    afterwards. *)
Definition admission_move (other : isolated_admission) : isolated_admission * isolated_admission :=
  (other, moved_from).
Definition admission_move_assign (lhs other : isolated_admission)
    : M W (isolated_admission * isolated_admission) :=
  cleanup_best_effort lhs;;
  held ← fd_reset (root_source lhs) (root_source other);
  fds_destroy (source <$> admitted_bindings lhs);;
  mret (mk_admission held (admitted_bindings other) (namespaces other) (scratch other)
          (cleanup_attempted other), moved_from).

End admission.

(** ** Cleanup happens once *)

Definition not_rmdir (ev : event) : Prop :=
  match ev with
  | Event c _ => match c with sys_rmdir _ => False | _ => True end
  end.

(** A removal that succeeded or found nothing to remove. *)
Definition removed {A} (r : res A) : bool := match r with Ok _ => true | Err e => e =? ENOENT end.

Section life.
Context {W : Type} `{K : Kernel W}.

Lemma emits_fds_destroy (Q : event → Prop) fds :
  (∀ fd r, Q (Event (sys_close fd) r)) → emits Q (fds_destroy (W := W) fds).
Proof.
  intros H. induction fds as [|fd fds IH]; simpl; [apply emits_ret|].
  apply emits_bind; [apply emits_fd_destroy; auto|]. by intros.
Qed.

Lemma destroy_after_cleanup a :
  cleanup_attempted a = true → emits not_rmdir (admission_destroy (W := W) a).
Proof.
  intros E. unfold admission_destroy, cleanup_best_effort. rewrite E. cbn [negb andb].
  apply emits_bind; [apply emits_ret|]. intros.
  apply emits_bind; [by apply emits_fds_destroy|]. intros. by apply emits_fd_destroy.
Qed.

(** C31: The scratch directories are removed at most once. The first
    [verify_parent_cleanup] removes the inner directory, then the outer one, and
    answers whether both are gone; every later call makes no system call and gives
    the same answer, and neither the destructor nor the destruction of an object
    that was moved from removes anything again. *)
Theorem parent_cleanup_once a (s : mstate W) :
  ∃ okay a' s',
    verify_parent_cleanup a s = (Done (okay, a'), s') ∧
    verify_parent_cleanup a' s' = (Done (okay, a'), s') ∧
    emits not_rmdir (admission_destroy (W := W) a') ∧
    emits not_rmdir (admission_destroy (W := W) (admission_move a).2) ∧
    (cleanup_attempted a = false → scratch a ≠ "" → ∃ r1 r2,
       trace s' = Event (sys_rmdir (scratch a)) r2 ::
                  Event (sys_rmdir (path_append (scratch a) "root")) r1 :: trace s ∧
       okay = removed r1 && removed r2).
Proof.
  assert (Hm : emits not_rmdir (admission_destroy (W := W) (admission_move a).2))
    by (by apply destroy_after_cleanup).
  unfold verify_parent_cleanup. destruct (cleanup_attempted a) eqn:Ea.
  { eexists _, a, s. split; [done|]. rewrite Ea. split_and!; try done.
    by apply destroy_after_cleanup. }
  case_bool_decide as Es.
  { eexists true, _, s. split; [done|]. split_and!; try done. by apply destroy_after_cleanup. }
  unfold attempt, issue, mbind, M_bind.
  destruct (kernel_run (sys_rmdir (path_append (scratch a) "root")) (world s)) as [r1 w1] eqn:E1.
  destruct (kernel_run (sys_rmdir (scratch a)) w1) as [r2 w2] eqn:E2.
  exists (removed r1 && removed r2),
    (mk_admission (root_source a) (admitted_bindings a) (namespaces a)
       (if removed r1 && removed r2 then "" else scratch a) true).
  destruct r1 as [u1|e1], r2 as [u2|e2]; simpl; rewrite ?E2; simpl;
    eexists; (split; [reflexivity|]);
    (split; [|split_and!; [by apply destroy_after_cleanup|done|by eauto]]);
    repeat case_match; simpl; by rewrite ?bool_decide_eq_false_2 by done.
Qed.

End life.

(** ** What an admission guarantees *)

Definition pairwise {A} (R : A → A → Prop) (l : list A) : Prop :=
  ∀ i j a b, i ≠ j → l !! i = Some a → l !! j = Some b → R a b.

Lemma pairwise_snoc {A} (R : A → A → Prop) l x :
  (∀ a b, R a b → R b a) → pairwise R l → Forall (λ a, R a x) l → pairwise R (l ++ [x]).
Proof.
  intros Hsym Hl Hx i j a b Hne Hi Hj. rewrite Forall_forall in Hx.
  apply lookup_snoc_Some in Hi as [[_ Hi]|[-> <-]], Hj as [[_ Hj]|[-> <-]].
  - by eapply Hl.
  - by eapply Hx, list_elem_of_lookup_2.
  - by eapply Hsym, Hx, list_elem_of_lookup_2.
  - done.
Qed.

Lemma existsb_apart l x :
  existsb (λ e, path_contains e x || path_contains x e) l = false → Forall (λ a, apart a x) l.
Proof.
  intros H. apply Forall_forall. intros a Ha.
  assert (path_contains a x || path_contains x a = false) as [E1 E2]%orb_false_iff;
    [|by apply contains_apart].
  apply not_true_is_false. intros E. rewrite <- not_true_iff_false, existsb_exists in H.
  apply H. exists a. split; [by apply list_elem_of_In|done].
Qed.

Definition access_fits (b : resource_binding) : Prop :=
  (is_read_only_role (role b) = true → access b = read_only) ∧
  (is_writable_role (role b) = true → access b = writable).

Definition mount_point_fits (b : resource_binding) : Prop :=
  path_eqb (mount_point b) "/" = false ∧
  (is_absolute (mount_point b) = true → ¬ ["dev"] `prefix_of` directory_of (mount_point b)).

(** The binding realizes the request's binding [b]. *)
Definition binding_for (b : resource_binding) (i : isolated_binding) : Prop :=
  logical_path i = mount_point b ∧ binding_access i = access b ∧
  synthetic_destination i = is_input_role (role b).

(** [h] is the host path of the resource of [b]. *)
Definition host_of (resources : execution_resources) (b : resource_binding) (h : string) : Prop :=
  ∃ p, materialization resources (resource b) = inr p ∧ h = lexically_normal p.

(** An input resource has its name among the children of its parent namespace. *)
Definition has_namespace (spaces : list isolated_namespace) (b : resource_binding) : Prop :=
  is_input_role (role b) = true →
  ∃ ns, ns ∈ spaces ∧ namespace_path ns = parent_path (mount_point b) ∧
        filename (mount_point b) ∈ children ns.

(** What holds of the vectors of the loop after the bindings [done]. *)
Record admission_invariant (resources : execution_resources) (root_path : string)
    (done : list resource_binding) (st : admission_state) : Prop := {
  inv_access : Forall access_fits done;
  inv_mount : Forall mount_point_fits done;
  inv_logical : logical_paths st = mount_point <$> done;
  inv_logical_apart : pairwise apart (logical_paths st);
  inv_host : Forall2 (host_of resources) done (host_paths st);
  inv_host_root : Forall (apart root_path) (host_paths st);
  inv_host_apart : pairwise apart (host_paths st);
  inv_bindings : Forall2 binding_for done (admitted st);
  inv_identities : source_identities st = source_identity <$> admitted st;
  inv_distinct : NoDup (source_identities st);
  inv_spaces : Forall (has_namespace (found_namespaces st)) done
}.

Lemma add_child_keeps path identity child spaces spaces' b :
  add_child path identity child spaces = Some spaces' →
  has_namespace spaces b → has_namespace spaces' b.
Proof.
  intros E H Hi. destruct (H Hi) as (ns & Hin & Hp & Hc). clear H Hi.
  revert spaces' E Hin. induction spaces as [|v rest IH]; intros spaces' E Hin; [by apply elem_of_nil in Hin|].
  simpl in E. repeat case_bool_decide; try done.
  - injection E as <-. apply elem_of_cons in Hin as [->|Hin].
    + eexists. split; [by left|]. split; [done|]. simpl. apply elem_of_app. by left.
    + exists ns. split; [by right|done].
  - apply fmap_Some in E as (rest' & E & ->). apply elem_of_cons in Hin as [->|Hin].
    + exists v. split; [by left|done].
    + destruct (IH _ E Hin) as (ns' & Hin' & ?). exists ns'. split; [by right|done].
Qed.

Lemma add_child_adds path identity child spaces spaces' :
  add_child path identity child spaces = Some spaces' →
  ∃ ns, ns ∈ spaces' ∧ namespace_path ns = path ∧ child ∈ children ns.
Proof.
  revert spaces'. induction spaces as [|v rest IH]; intros spaces' E; simpl in E.
  - injection E as <-. eexists. split; [by left|]. split; [done|]. simpl. by left.
  - repeat case_bool_decide; try done.
    + injection E as <-. eexists. split; [by left|]. split; [done|]. simpl.
      apply elem_of_app. right. by left.
    + apply fmap_Some in E as (rest' & E & ->). destruct (IH _ E) as (ns & Hin & ?).
      exists ns. split; [by right|done].
Qed.

Section guarantees.
Context {W : Type} `{K : Kernel W} `{Lc : Libc} `{P : Pkgexec}.

Lemma yields_identity_of fd : yields (λ _, True) (identity_of (W := W) fd).
Proof. unfold identity_of. by yields_auto. Qed.
Lemma yields_only_dots fuel dir : yields (λ _, True) (only_dots (W := W) fuel dir).
Proof. induction fuel as [|n IH]; simpl; [by intros s|]. by yields_auto. Qed.
Lemma yields_same_inode fd expected : yields (λ _, True) (same_inode (W := W) fd expected).
Proof. unfold same_inode. by yields_auto. Qed.
Lemma yields_directory_is_empty fuel fd :
  yields (λ _, True) (directory_is_empty (W := W) fuel fd).
Proof.
  unfold directory_is_empty.
  yields_auto; try apply yields_identity_of; try apply yields_only_dots; try done;
    apply yields_same_inode.
Qed.
Hint Resolve yields_identity_of yields_directory_is_empty : yields.

Lemma yields_validate b : yields (λ _, access_fits b) (validate_role_access (W := W) b).
Proof.
  unfold validate_role_access. yields_auto.
  repeat match goal with
  | H : _ && negb (bool_decide _) = false |- _ =>
      apply andb_false_iff in H; rewrite negb_false_iff, bool_decide_eq_true in H
  end.
  split; intros ?; intuition congruence.
Qed.

Lemma yields_check_logical b existing :
  yields (λ _, mount_point_fits b ∧ Forall (λ a, apart a (mount_point b)) existing)
    (check_logical (W := W) b existing).
Proof.
  unfold check_logical. yields_auto. split; [split; [done|]|by apply existsb_apart].
  intros Ha Hp. change ["dev"] with (directory_of "/dev") in Hp.
  rewrite <- path_contains_spec in Hp; [congruence|reflexivity|done|reflexivity].
Qed.

Lemma yields_check_host root host existing :
  yields (λ _, apart root host ∧ Forall (λ a, apart a host) existing)
    (check_host (W := W) root host existing).
Proof.
  unfold check_host. yields_auto.
  split; [|by apply existsb_apart].
  match goal with E : _ || _ = false |- _ => apply orb_false_iff in E as [? ?] end.
  by apply contains_apart.
Qed.

Lemma yields_admit_destination fuel root b spaces :
  yields (λ r, has_namespace r.1 b ∧ ∀ b', has_namespace spaces b' → has_namespace r.1 b')
    (admit_destination (W := W) fuel root b spaces).
Proof.
  unfold admit_destination, open_beneath. yields_auto; simpl.
  - split; [|intros b'; by eapply add_child_keeps].
    intros _. by eapply add_child_adds.
  - split; [unfold has_namespace; congruence|done].
Qed.

Lemma yields_admit_source fuel resources root_path root src host done st b :
  admission_invariant resources root_path done st →
  access_fits b → mount_point_fits b → host_of resources b host → apart root_path host →
  Forall (λ a, apart a (mount_point b)) (logical_paths st) →
  Forall (λ a, apart a host) (host_paths st) →
  yields (admission_invariant resources root_path (done ++ [b]))
    (admit_source (W := W) fuel root src host st b).
Proof.
  intros [] Ha Hm Hh Hr Hla Hha. unfold admit_source, writable_by_current_credentials.
  eapply yields_bind_any; [apply yields_identity_of|]. intros src_identity.
  case_bool_decide as Hid; [apply yields_fail|].
  eapply yields_bind_any; [by yields_auto|]. intros [|]; [apply yields_fail|].
  eapply yields_bind; [apply yields_admit_destination|].
  intros [spaces tgt] [Hnew Hold]. simpl in *. apply yields_ret.
  constructor; simpl; rewrite ?fmap_app; simpl.
  - by apply Forall_app_2; [|constructor].
  - by apply Forall_app_2; [|constructor].
  - by rewrite inv_logical0.
  - apply pairwise_snoc; auto using apart_sym.
  - by apply Forall2_app; [|constructor].
  - by apply Forall_app_2; [|constructor].
  - apply pairwise_snoc; auto using apart_sym.
  - by apply Forall2_app; [|constructor].
  - by rewrite inv_identities0.
  - apply NoDup_app. split_and!; [done| |apply NoDup_singleton].
    intros x Hx ->%list_elem_of_singleton. done.
  - apply Forall_app_2; [eapply Forall_impl; eauto|by constructor].
Qed.

Lemma yields_admit_binding fuel resources root_path root st done b :
  admission_invariant resources root_path done st →
  yields (admission_invariant resources root_path (done ++ [b]))
    (admit_binding (W := W) fuel resources root_path root st b).
Proof.
  intros Hinv. unfold admit_binding, open_exact_path.
  eapply yields_bind; [apply yields_validate|]. intros [] Ha.
  eapply yields_bind; [apply yields_check_logical|]. intros [] [Hm Hla].
  destruct (materialization resources (resource b)) as [x|host_path] eqn:Eh; [apply yields_throw|].
  eapply yields_bind; [apply yields_check_host|]. intros [] [Hr Hha].
  eapply yields_bind_any; [by auto with yields|]. intros src.
  destruct (fd_bool src); cbn [negb]; [|apply yields_fail_errno].
  apply yields_on_throw; [|apply yields_fd_destroy].
  eapply yields_admit_source; try done. by exists host_path.
Qed.

Lemma yields_admit_bindings fuel resources root_path root todo : ∀ done st,
  admission_invariant resources root_path done st →
  yields (admission_invariant resources root_path (done ++ todo))
    (admit_bindings (W := W) fuel resources root_path root st todo).
Proof.
  induction todo as [|b todo IH]; intros done st Hinv; simpl.
  { rewrite app_nil_r. by apply yields_ret. }
  eapply yields_bind.
  - apply yields_on_throw; [by eapply yields_admit_binding|apply yields_fds_destroy].
  - intros st' Hst'. replace (done ++ b :: todo) with ((done ++ [b]) ++ todo)
      by (by rewrite <- app_assoc). by apply IH.
Qed.

Lemma yields_make_scratch : yields (λ _, True) (make_scratch (W := W)).
Proof. unfold make_scratch. by yields_auto. Qed.

Lemma settle_has_namespace spaces b :
  has_namespace spaces b → has_namespace (settle_namespace <$> spaces) b.
Proof.
  intros H Hi. destruct (H Hi) as (ns & Hin & Hp & Hc). exists (settle_namespace ns).
  split; [by apply list_elem_of_fmap_2|]. split; [done|]. simpl.
  by rewrite elem_of_unique, merge_sort_Permutation.
Qed.

(** The promise of an admission for the bindings of a request. *)
Record admission_sound (request : execution_request) (resources : execution_resources)
    (a : isolated_admission) : Prop := {
  sound_root :
    is_absolute (root_view_path resources) = true → directory_of (root_view_path resources) ≠ [];
  sound_access : Forall access_fits (bindings request);
  sound_mount : Forall mount_point_fits (bindings request);
  sound_logical : pairwise apart (mount_point <$> bindings request);
  sound_hosts : ∃ hosts, Forall2 (host_of resources) (bindings request) hosts ∧
    Forall (apart (lexically_normal (root_view_path resources))) hosts ∧ pairwise apart hosts;
  sound_bindings : Forall2 binding_for (bindings request) (admitted_bindings a);
  sound_distinct : NoDup (source_identity <$> admitted_bindings a);
  sound_spaces : Forall (has_namespace (namespaces a)) (bindings request);
  sound_fresh : cleanup_attempted a = false
}.

Lemma yields_admission fuel request resources :
  yields (admission_sound request resources) (admit_isolated_resources (W := W) fuel request resources).
Proof.
  unfold admit_isolated_resources, open_exact_path.
  destruct (path_eqb _ _) eqn:Er; [apply yields_fail|].
  eapply yields_bind_any; [by auto with yields|]. intros root.
  destruct (fd_bool root); cbn [negb]; [|apply yields_fail_errno].
  apply yields_on_throw; [|apply yields_fd_destroy].
  eapply yields_bind_any; [apply yields_identity_of|]. intros _.
  eapply yields_bind; [apply (yields_admit_bindings fuel resources _ root (bindings request) [])|].
  { split; simpl; auto using Forall_nil_2, NoDup_nil_2; by intros i j x y _ Hi. }
  intros st []. eapply yields_bind_any.
  { apply yields_on_throw; [apply yields_make_scratch|apply yields_fds_destroy]. }
  intros path. apply yields_ret. simpl in *. constructor; simpl; try done.
  - intros Ha. by apply normal_root.
  - by rewrite <- inv_logical0.
  - by exists (host_paths st).
  - by rewrite <- inv_identities0.
  - eapply Forall_impl; [done|]. intros b. apply settle_has_namespace.
Qed.

(** C18: An admission keeps the contract of isolated execution for the request it was made
    for, with absolute paths read as the directories their names lead to: the root view
    is not the root of the host; input roles are read-only and output roles writable; no
    mount point is the path "/" or a directory at or below "/dev"; of two mount points,
    of two host directories, and of a host directory and the root view, neither is at or
    below the other, unless the upper one is written so that its normal form ends in a
    separator, which hides what is below it; the bindings are those of the request, in
    order, each with its mount point and access, and no two of them are the same
    directory; every input resource has its place in a namespace of the admission. *)
Theorem admit_isolated_resources_sound fuel request resources a (s s' : mstate W) :
  admit_isolated_resources fuel request resources s = (Done a, s') →
  admission_sound request resources a.
Proof. intros E. pose proof (yields_admission fuel request resources s) as H. by rewrite E in H. Qed.

End guarantees.

(** ** Descriptors held by an admission *)

Section descriptors.
Context {W : Type} `{K : Kernel W} `{Lc : Libc} `{P : Pkgexec}.

Lemma owns_identity_of fd pre : owns pre (λ _, pre) pre (identity_of (W := W) fd).
Proof. unfold identity_of. owns_auto. Qed.

Lemma owns_same_inode fd expected pre thr :
  owns pre (λ _, pre) thr (same_inode (W := W) fd expected).
Proof. unfold same_inode. owns_auto. Qed.

Lemma owns_only_dots fuel dir pre thr : owns pre (λ _, pre) thr (only_dots (W := W) fuel dir).
Proof. induction fuel as [|n IH]; simpl; owns_auto. Qed.

Hint Resolve owns_identity_of owns_same_inode owns_only_dots owns_closedir : owns.

Lemma owns_directory_is_empty fuel fd pre :
  owns pre (λ _, pre) pre (directory_is_empty (W := W) fuel fd).
Proof.
  unfold directory_is_empty. eapply owns_bind; [by owns_step|]. intros readable; cbn beta.
  destruct (fd_bool readable) eqn:E; unfold held; rewrite E; cbn [negb app]; [|by owns_step].
  eapply owns_bind.
  { eapply (owns_on_throw _ (λ _, Descriptor readable :: pre) (Descriptor readable :: pre)).
    - owns_auto.
    - change (Descriptor readable :: pre) with ([Descriptor readable] ++ pre).
      pose proof (owns_fd_destroy (W := W) readable pre pre) as H. unfold held in H.
      rewrite E in H. exact H. }
  intros ?; cbn beta. eapply owns_bind; [apply owns_fdopendir|]. intros [d|]; [|by owns_step].
  eapply owns_bind; [by owns_step|]. intros ?; cbn beta.
  eapply owns_bind; [by owns_step|]. intros empty; cbn beta.
  eapply owns_bind; [by owns_step|]. intros saved; cbn beta.
  eapply owns_bind; [apply owns_closedir|]. intros closed; cbn beta. owns_auto.
Qed.

Hint Resolve owns_directory_is_empty : owns.

Lemma owns_admit_destination fuel root b spaces pre :
  owns pre (λ _, pre) pre (admit_destination (W := W) fuel root b spaces).
Proof.
  unfold admit_destination, open_beneath. destruct (is_input_role (role b)).
  - destruct (_ || _); [by owns_step|]. apply owns_with_fd; [by owns_step|]. intros fd. owns_auto.
  - apply owns_with_fd; [by owns_step|]. intros fd. owns_auto.
Qed.

(** What the vector of admitted bindings owns. *)
Definition owned (l : list isolated_binding) : list resource_handle := held_all (source <$> l).

Lemma owned_snoc l b : owned (l ++ [b]) = owned l ++ held (source b).
Proof. unfold owned, held_all. rewrite !fmap_app, concat_app. simpl. by rewrite app_nil_r. Qed.

Lemma owns_admit_source fuel root src host st b :
  owns (held src ++ owned (admitted st)) (λ st', owned (admitted st'))
    (held src ++ owned (admitted st)) (admit_source (W := W) fuel root src host st b).
Proof.
  unfold admit_source, writable_by_current_credentials.
  eapply owns_bind; [by owns_step|]. intros src_identity; cbn beta. case_bool_decide; [by owns_step|].
  eapply (owns_bind _ (λ _, held src ++ owned (admitted st))); [owns_auto|].
  intros [|]; cbn beta; [by owns_step|].
  eapply owns_bind; [apply owns_admit_destination|]. intros [spaces tgt].
  apply owns_ret_eq. intros x. simpl. rewrite owned_snoc, !occurrences_app. simpl. lia.
Qed.

Lemma owns_admit_binding fuel resources root_path root st b :
  owns (owned (admitted st)) (λ st', owned (admitted st')) (owned (admitted st))
    (admit_binding (W := W) fuel resources root_path root st b).
Proof.
  unfold admit_binding, validate_role_access, check_logical, check_host, open_exact_path.
  eapply owns_bind; [owns_auto|]. intros ?; cbn beta. eapply owns_bind; [owns_auto|]. intros ?; cbn beta.
  destruct (materialization resources (resource b)); [by owns_step|].
  eapply owns_bind; [owns_auto|]. intros ?; cbn beta. eapply owns_bind; [by owns_step|]. intros src; cbn beta.
  destruct (fd_bool src) eqn:E; cbn [negb].
  - eapply owns_on_throw; [apply owns_admit_source|apply owns_fd_destroy].
  - unfold held. rewrite E. by owns_step.
Qed.

Lemma owns_admit_bindings fuel resources root_path root todo : ∀ st,
  owns (owned (admitted st)) (λ st', owned (admitted st')) []
    (admit_bindings (W := W) fuel resources root_path root st todo).
Proof.
  induction todo as [|b todo IH]; intros st; simpl; [by apply owns_ret_eq|].
  eapply owns_bind; [|apply IH]. eapply owns_on_throw; [apply owns_admit_binding|].
  pose proof (owns_fds_destroy (W := W) (source <$> admitted st) [] []) as H.
  by rewrite app_nil_r in H.
Qed.

Lemma owns_admit_isolated_resources fuel request resources :
  owns [] (λ a, held (root_source a) ++ owned (admitted_bindings a)) []
    (admit_isolated_resources (W := W) fuel request resources).
Proof.
  unfold admit_isolated_resources, open_exact_path. destruct (path_eqb _ _); [by owns_step|].
  eapply owns_bind; [by owns_step|]. intros root; cbn beta. rewrite app_nil_r.
  destruct (fd_bool root) eqn:E; cbn [negb].
  2:{ unfold held. rewrite E. by owns_step. }
  apply (owns_on_throw _ _ (held root)).
  2:{ pose proof (owns_fd_destroy (W := W) root [] []) as H. by rewrite app_nil_r in H. }
  eapply owns_bind; [by owns_step|]. intros ?; cbn beta.
  eapply owns_bind.
  { pose proof (owns_frame (held root) _ _ _ _ (owns_admit_bindings fuel resources
      (lexically_normal (root_view_path resources)) root (bindings request)
      (mk_admission_state [] [] [] [] []))) as H. exact H. }
  intros st. simpl.
  eapply (owns_bind _ (λ _, owned (admitted st) ++ held root)).
  - eapply owns_on_throw; [|apply owns_fds_destroy]. unfold make_scratch. owns_auto.
  - intros path. apply owns_ret_eq. intros x. simpl. rewrite !occurrences_app. lia.
Qed.

(** C19: An admission owns exactly the descriptors it lists: when it is returned, the
    descriptors acquired and not yet released are the root view's and one for each
    binding; when admission throws, nothing is left open. The one exception is a
    failing [fdopendir]. *)
Theorem admission_descriptors_exact fuel request resources (s : mstate W) :
  ∃ evs, trace (admit_isolated_resources fuel request resources s).2 = evs ++ trace s ∧
    (Forall stream_opened evs → ∀ x,
      match (admit_isolated_resources fuel request resources s).1 with
      | Done a => balance x evs =
                  occurrences x (held_all (root_source a :: (source <$> admitted_bindings a)))
      | Threw _ => balance x evs = 0
      | _ => True
      end).
Proof.
  destruct (owns_admit_isolated_resources fuel request resources s) as (evs & E & H).
  exists evs. split; [done|]. intros Hs x. specialize (H Hs).
  destruct (admit_isolated_resources fuel request resources s).1; try done;
    specialize (H x); rewrite occurrences_nil in H; [|lia].
  unfold held_all. rewrite fmap_cons. simpl. unfold owned, held_all in H. lia.
Qed.

End descriptors.

(** ** A run *)

(** A file system of directories whose inode is their descriptor; enumerating a
    directory goes through the descriptor 1000 above. *)
Definition directory_kernel : Kernel nat := scripted (λ n R c,
  match c in call R return R with
  | sys_openat2 _ _ _ _ _ => Ok (3 + Z.of_nat n)
  | sys_openat fd _ _ => Ok (1000 + fd)
  | sys_fstat fd => Ok (mk_stat 16877 1 (fd mod 1000))
  | sys_fdopendir fd => Ok fd
  | sys_readdir _ => Ok None
  | sys_closedir _ => Ok tt
  | sys_close _ => Ok tt
  | sys_faccessat2 _ _ _ _ => Ok tt
  | sys_mkdtemp _ => Ok "/tmp/libpkgexec-linux.abcdef"
  | sys_chmod _ _ => Ok tt
  | sys_mkdir _ _ => Ok tt
  | c => default_answer c
  end).

Definition sample_resource_bindings : list resource_binding :=
  [mk_binding source_tree read_only "/src" "source";
   mk_binding build_input_tree read_only "/inputs/zlib" "zlib";
   mk_binding build_workspace writable "/work" "work"].

Definition sample_environment : environment_policy :=
  mk_environment ["/bin"] "/work" "/work" 1 None [] network_denied stdin_closed
    capture_complete capture_complete 18.

Definition sample_request : @execution_request plain_pkgexec :=
  @mk_request plain_pkgexec "true" "sh" sample_resource_bindings
    (mk_binding build_workspace writable "/work" "work") sample_environment
    (mk_credentials 0 0 [] true) (mk_limits None None None true) None [].

Definition sample_resources : execution_resources :=
  mk_resources "/srv/root" (λ r, inr ("/srv/" +:+ r)).

Lemma admit_isolated_resources_sound_witness :
  ∃ a, @admission_sound plain_pkgexec sample_request sample_resources a ∧
       namespaces a = [mk_namespace "/inputs" (mk_inode 1 12) ["zlib"]].
Proof.
  eexists. split.
  - apply (@admit_isolated_resources_sound nat directory_kernel plain_libc plain_pkgexec 2
      sample_request sample_resources _ (start 0%nat)
      (@admit_isolated_resources nat directory_kernel plain_libc plain_pkgexec 2
         sample_request sample_resources (start 0%nat)).2).
    vm_compute. reflexivity.
  - vm_compute. reflexivity.
Defined.

(** A directory that can be opened but not read as a stream. *)
Definition no_stream_kernel : Kernel nat := scripted (λ n R c,
  match c in call R return R with
  | sys_openat fd _ _ => Ok (1000 + fd)
  | sys_fstat fd => Ok (mk_stat 16877 1 (fd mod 1000))
  | sys_close _ => Ok tt
  | c => default_answer c
  end).

(** When [fdopendir] fails, the descriptor released to it stays open. *)
Example failed_fdopendir_leaks :
  let run := @directory_is_empty nat no_stream_kernel plain_libc 9 5 (start 0%nat) in
  (∃ x, run.1 = Threw x) ∧ balance (Descriptor 1005) (trace run.2) = 1.
Proof. split; [eexists|]; vm_compute; reflexivity. Qed.
