(* ===== verification/Realization.v ===== *)
(** * Realization of the isolated filesystem (src/mount_isolation.cpp)

    [create_private_root] in the order of its calls: detached copies of the admitted
    trees first, then the mount namespace, the scratch file system, the root, the
    device directory, the input namespaces, the resources and the entry into the new
    root; and the two probes. A function that returns [false] and fills a [failure]
    argument returns [inl failure]. *)

From S2P Require Import Prelude Machine Linux Logic Posix Script Pkgexec Bytes Paths Support.
From S2P Require Import Yields Ownership ProcessControl Admission.
Local Open Scope string_scope.
Local Open Scope list_scope.
Local Open Scope Z_scope.

(** [enum class mount_setup_stage : std::uint32_t], with the values a copied record can
    hold beside the named ones. *)
Inductive mount_setup_stage : Set :=
| mount_namespace | private_propagation | scratch_mount | root_tree | resource_tree
| input_namespace | device_filesystem | root_entry | probe_preparation | capability_drop_stage
| parent_cleanup | fixture_cleanup | fixture_material_cleanup | fixture_resource_cleanup
| fixture_device_cleanup | fixture_view_cleanup | fixture_root_cleanup
| mount_stage_other (n : Z).

Definition mount_stages : list mount_setup_stage :=
  [mount_namespace; private_propagation; scratch_mount; root_tree; resource_tree;
   input_namespace; device_filesystem; root_entry; probe_preparation; capability_drop_stage;
   parent_cleanup; fixture_cleanup; fixture_material_cleanup; fixture_resource_cleanup;
   fixture_device_cleanup; fixture_view_cleanup; fixture_root_cleanup].

#[export] Instance mount_setup_stage_eq_dec : EqDecision mount_setup_stage.
Proof. solve_decision. Defined.

Definition mount_stage_of_number (n : Z) : mount_setup_stage :=
  default (mount_stage_other n) (if 0 <=? n then mount_stages !! Z.to_nat n else None).

Definition mount_stage_number (stage : mount_setup_stage) : Z :=
  match stage with
  | mount_stage_other n => n
  | _ => match list_find (eq stage) mount_stages with Some (i, _) => Z.of_nat i | None => 0 end
  end.

Record mount_setup_failure : Set := mk_mount_failure {
  mount_stage : mount_setup_stage;
  mount_error : Z
}.

Section realization.
Context {W : Type} `{K : Kernel W} `{Lc : Libc} `{P : Pkgexec}.

(** ** Mount calls *)

Definition seal_namespace_mount (fd : Z) : M W bool :=
  succeeds (sys_mount_setattr fd "" AT_EMPTY_PATH
    (mk_mount_attr (Z.lor MOUNT_ATTR_RDONLY (Z.lor MOUNT_ATTR_NOSUID
       (Z.lor MOUNT_ATTR_NODEV MOUNT_ATTR_NOEXEC))) 0 0)).

Definition clone_tree (source_fd : Z) : M W Z :=
  descriptor (sys_open_tree source_fd ""
    (Z.lor OPEN_TREE_CLONE (Z.lor OPEN_TREE_CLOEXEC AT_EMPTY_PATH))).

(** The attributes of a detached tree. *)
Definition tree_attributes (acc : resource_access) : mount_attr :=
  match acc with
  | read_only => mk_mount_attr
      (Z.lor (Z.lor MOUNT_ATTR_NOSUID MOUNT_ATTR_NODEV) MOUNT_ATTR_RDONLY)
      MOUNT_ATTR_NOEXEC MS_PRIVATE
  | writable => mk_mount_attr
      (Z.lor MOUNT_ATTR_NOSUID MOUNT_ATTR_NODEV)
      (Z.lor MOUNT_ATTR_NOEXEC MOUNT_ATTR_RDONLY) MS_PRIVATE
  end.

Definition seal_tree (tree_fd : Z) (acc : resource_access) : M W bool :=
  succeeds (sys_mount_setattr tree_fd "" AT_EMPTY_PATH (tree_attributes acc)).

Definition attach_tree (tree_fd target_fd : Z) : M W bool :=
  succeeds (sys_move_mount tree_fd "" target_fd ""
    (Z.lor MOVE_MOUNT_F_EMPTY_PATH MOVE_MOUNT_T_EMPTY_PATH)).

(** [failure = {stage, errno}; return false]. *)
Definition mount_fail (stage : mount_setup_stage) : M W (mount_setup_failure + unit) :=
  e ← get_errno; mret (inl (mk_mount_failure stage e)).

(** [if (!test) { failure = {stage, errno}; return false; }] and go on. *)
Definition require (test : M W bool) (stage : mount_setup_stage)
    (next : M W (mount_setup_failure + unit)) : M W (mount_setup_failure + unit) :=
  okay ← test;
  if (okay : bool) then next else mount_fail stage.

(** Go on after a part that may have failed. *)
Definition then_ (part next : M W (mount_setup_failure + unit))
    : M W (mount_setup_failure + unit) :=
  r ← part;
  match r with inl f => mret (inl f) | inr _ => next end.

(** ** create_private_root *)

(** The loop that clones and seals the tree of each binding: the trees in the vector,
    and the failure that ended the loop. The tree that could not be sealed is closed
    when the loop body is left. *)
Fixpoint realize_bindings (bs : list isolated_binding) (realized : list Z)
    : M W (list Z * option mount_setup_failure) :=
  match bs with
  | [] => mret (realized, None)
  | b :: rest =>
      tree ← clone_tree (source b);
      sealed ← (if fd_bool tree then seal_tree tree (binding_access b) else mret false);
      if negb sealed then
        e ← get_errno;
        fd_destroy tree;;
        mret (realized, Some (mk_mount_failure resource_tree e))
      else realize_bindings rest (realized ++ [tree])
  end.

(** Both [if] tests of [::mkdir(...) != 0 && errno != EEXIST]. *)
Definition mkdir_or_exists (path : string) (mode : Z) : M W bool :=
  made ← succeeds (sys_mkdir path mode);
  e ← get_errno;
  mret ((made : bool) || (e =? EEXIST)).

(** The device directory: a private tmpfs with the node "null". *)
Definition realize_devices (root_path : string) : M W (mount_setup_failure + unit) :=
  let device_path := path_append root_path "dev" in
  info ← attempt (sys_lstat device_path);
  if negb (match info with Some i => S_ISDIR (st_mode i) | None => false end) then
    e ← get_errno;
    mret (inl (mk_mount_failure device_filesystem (if e =? 0 then ENOTDIR else e)))
  else
  require (succeeds (sys_mount (Some "tmpfs") device_path (Some "tmpfs")
             (Z.lor MS_NOSUID MS_NOEXEC) (Some "mode=0755,size=64k"))) device_filesystem (
  let null_path := path_append device_path "null" in
  require (succeeds (sys_mknod null_path (Z.lor S_IFCHR 438) 259)) device_filesystem (
  require (succeeds (sys_chmod null_path 438)) device_filesystem (mret (inr tt)))).

(** [for (const auto& child : input_namespace.children) mkdir]. *)
Fixpoint make_children (namespace_path : string) (names : list string)
    : M W (mount_setup_failure + unit) :=
  match names with
  | [] => mret (inr tt)
  | child :: rest =>
      require (succeeds (sys_mkdir (path_append namespace_path child) 365)) input_namespace
        (make_children namespace_path rest)
  end.

Fixpoint realize_namespaces (attached_root : Z) (root_path : string)
    (spaces : list isolated_namespace) : M W (mount_setup_failure + unit) :=
  match spaces with
  | [] => mret (inr tt)
  | ns :: rest =>
      then_
        (with_fd (open_beneath attached_root (namespace_path ns)) (λ destination,
         same ← (if fd_bool destination then same_inode destination (namespace_identity ns)
                 else mret false);
         if negb same then
           e ← get_errno;
           mret (inl (mk_mount_failure input_namespace (if fd_bool destination then ESTALE else e)))
         else
         let path := path_append root_path (relative_path (namespace_path ns)) in
         require (succeeds (sys_mount (Some "tmpfs") path (Some "tmpfs")
                    (Z.lor MS_NOSUID (Z.lor MS_NODEV MS_NOEXEC)) (Some "mode=0755")))
           input_namespace
           (make_children path (children ns))))
        (realize_namespaces attached_root root_path rest)
  end.

(** One resource: the destination, the tree moved onto it, and what is then visible. *)
Definition attach_binding (attached_root tree : Z) (b : isolated_binding)
    : M W (mount_setup_failure + unit) :=
  with_fd (open_beneath attached_root (logical_path b)) (λ destination,
  accepted ← (if negb (fd_bool destination) then mret false
              else if synthetic_destination b then mret true
              else same_inode destination (target_identity b));
  if negb accepted then
    e ← get_errno;
    mret (inl (mk_mount_failure resource_tree (if fd_bool destination then ESTALE else e)))
  else
  require (attach_tree tree destination) resource_tree (
  with_fd (open_beneath attached_root (logical_path b)) (λ visible,
  if negb (fd_bool visible) then mount_fail resource_tree
  else
  same ← same_inode visible (source_identity b);
  if negb same then mret (inl (mk_mount_failure resource_tree ESTALE))
  else mret (inr tt)))).

Fixpoint attach_bindings (attached_root : Z) (trees : list Z) (bs : list isolated_binding)
    : M W (mount_setup_failure + unit) :=
  match bs, trees with
  | b :: bs, tree :: trees =>
      then_ (attach_binding attached_root tree b) (attach_bindings attached_root trees bs)
  | _, _ => mret (inr tt)
  end.

Fixpoint seal_namespaces (attached_root : Z) (spaces : list isolated_namespace)
    : M W (mount_setup_failure + unit) :=
  match spaces with
  | [] => mret (inr tt)
  | ns :: rest =>
      then_
        (with_fd (open_beneath attached_root (namespace_path ns)) (λ namespace_fd,
         if negb (fd_bool namespace_fd) then mount_fail input_namespace
         else require (seal_namespace_mount namespace_fd) input_namespace (mret (inr tt))))
        (seal_namespaces attached_root rest)
  end.

Definition enter_root (attached_root : Z) : M W (mount_setup_failure + unit) :=
  require (succeeds (sys_fchdir attached_root)) root_entry (
  require (succeeds (sys_chroot ".")) root_entry (
  require (succeeds (sys_chdir "/")) root_entry (mret (inr tt)))).

(** What follows the creation of the detached trees. *)
Definition realize_in_namespace (a : isolated_admission) (root_tree_fd : Z) (trees : list Z)
    : M W (mount_setup_failure + unit) :=
  require (succeeds (sys_unshare CLONE_NEWNS)) mount_namespace (
  require (succeeds (sys_mount None "/" None (Z.lor MS_REC MS_PRIVATE) None)) private_propagation (
  require (succeeds (sys_mount (Some "tmpfs") (scratch a) (Some "tmpfs")
             (Z.lor MS_NOSUID MS_NODEV) (Some "mode=0700,size=4m"))) scratch_mount (
  let root_path := path_append (scratch a) "root" in
  require (mkdir_or_exists root_path 448) scratch_mount (
  with_fd (open_exact_path root_path) (λ target,
  if negb (fd_bool target) then mount_fail root_tree
  else
  require (attach_tree root_tree_fd target) root_tree (
  with_fd (open_exact_path root_path) (λ attached_root,
  if negb (fd_bool attached_root) then mount_fail root_tree
  else
  then_ (realize_devices root_path) (
  then_ (realize_namespaces attached_root root_path (namespaces a)) (
  then_ (attach_bindings attached_root trees (admitted_bindings a)) (
  then_ (seal_namespaces attached_root (namespaces a)) (
  enter_root attached_root))))))))))).

Definition create_private_root (a : isolated_admission) : M W (mount_setup_failure + unit) :=
  with_fd (clone_tree (root_source a)) (λ root_tree_fd,
  sealed ← (if fd_bool root_tree_fd then seal_tree root_tree_fd read_only else mret false);
  if negb sealed then mount_fail root_tree
  else
  r ← realize_bindings (admitted_bindings a) [];
  let '(trees, failure) := (r : list Z * option mount_setup_failure) in
  finally
    (match failure with
     | Some f => mret (inl f)
     | None => realize_in_namespace a root_tree_fd trees
     end)
    (fds_destroy trees)).

Definition setup_isolated_filesystem (a : isolated_admission) : M W (mount_setup_failure + unit) :=
  create_private_root a.

(** ** The probe *)

Definition probe_exit_code (value : Z) : Z :=
  if (value =? EPERM) || (value =? EACCES) then 2 else 1.

(** [mount_setup_failure] as it lies in memory, and back by [read] into the object. *)
Definition encode_mount_failure (f : mount_setup_failure) : list Z :=
  le_bytes 4 (mount_stage_number (mount_stage f)) ++ le_bytes 4 (of_i32 (mount_error f)).
Definition decode_mount_failure (bytes : list Z) : mount_setup_failure :=
  mk_mount_failure (mount_stage_of_number (le_value (take 4 bytes)))
    (to_i32 (le_value (take 4 (drop 4 bytes)))).

(** The lambda [send_failure] of the child. *)
Definition send_failure {A} (report_write : Z) (f : mount_setup_failure) : M W A :=
  let f := mk_mount_failure (mount_stage f) (if mount_error f =? 0 then EIO else mount_error f) in
  ignore (sys_write report_write (encode_mount_failure f));;
  exit_process (probe_exit_code (mount_error f)).

(** The child branch of [probe_isolated_realization]; it always leaves through [_exit]. *)
Definition realization_child (a : isolated_admission) (report_read report_write : Z)
    : M W (mount_setup_failure + unit) :=
  ignore (sys_close report_read);;
  r ← setup_isolated_filesystem a;
  match r with
  | inl child_failure => send_failure report_write child_failure
  | inr _ =>
      null_info ← attempt (sys_stat "/dev/null");
      if negb (match null_info with Some i => S_ISCHR (st_mode i) | None => false end) then
        e ← get_errno;
        send_failure report_write
          (mk_mount_failure device_filesystem (if e =? 0 then ENODEV else e))
      else
      null_fd ← descriptor (sys_open "/dev/null" (Z.lor O_WRONLY O_CLOEXEC));
      if null_fd <? 0 then
        e ← get_errno;
        send_failure report_write (mk_mount_failure device_filesystem e)
      else
      written ← attempt (sys_write null_fd [0]);
      okay ← (if bool_decide (written = Some 1) then succeeds (sys_close null_fd) else mret false);
      if negb okay then
        e ← get_errno;
        send_failure report_write (mk_mount_failure device_filesystem (if e =? 0 then EIO else e))
      else
      dropped ← drop_process_capabilities;
      if negb dropped then
        e ← get_errno;
        send_failure report_write (mk_mount_failure capability_drop_stage e)
      else
      ignore (sys_close report_write);;
      exit_process 0
  end.

(** What the parent concludes from the status and from the bytes of one read. *)
Definition realization_verdict (status : Z) (report : option (list Z))
    : mount_setup_failure + unit :=
  if negb (WIFEXITED status) then inl (mk_mount_failure probe_preparation EIO)
  else if WEXITSTATUS status =? 0 then inr tt
  else
    match report with
    | Some bytes =>
        if (length bytes =? 8)%nat then inl (decode_mount_failure bytes)
        else inl (mk_mount_failure probe_preparation
                    (if WEXITSTATUS status =? 2 then EPERM else EIO))
    | None => inl (mk_mount_failure probe_preparation
                     (if WEXITSTATUS status =? 2 then EPERM else EIO))
    end.

Definition probe_isolated_realization (fuel : nat) (a : isolated_admission)
    : M W (mount_setup_failure + unit) :=
  report ← attempt (sys_pipe2 O_CLOEXEC);
  match report with
  | None => mount_fail probe_preparation
  | Some (report_read, report_write) =>
      forked ← attempt sys_fork;
      match forked with
      | None =>
          failure ← mount_fail probe_preparation;
          ignore (sys_close report_read);; ignore (sys_close report_write);;
          mret failure
      | Some child =>
          if child =? 0 then realization_child a report_read report_write
          else
            ignore (sys_close report_write);;
            reported ← attempt (sys_read report_read 8);
            ignore (sys_close report_read);;
            status ← wait_child fuel child;
            mret (realization_verdict status reported)
      end
  end.

Definition probe_openat2 : M W bool :=
  fd ← open_exact_path "/";
  if fd <? 0 then mret false
  else ignore (sys_close fd);; mret true.

(** The lambda [cleanup_fixture]: the five directories, innermost first. *)
Definition fixture_directories (base : string) : list (string * mount_setup_stage) :=
  let view := path_append base "view" in
  [(path_append base "material", fixture_material_cleanup);
   (path_append view "resource", fixture_resource_cleanup);
   (path_append view "dev", fixture_device_cleanup);
   (view, fixture_view_cleanup);
   (base, fixture_root_cleanup)].

Fixpoint cleanup_directories (l : list (string * mount_setup_stage)) : M W unit :=
  match l with
  | [] => mret tt
  | (path, _) :: rest => ignore (sys_rmdir path);; cleanup_directories rest
  end.
Definition cleanup_fixture (base : string) : M W unit :=
  cleanup_directories (fixture_directories base).

(** The calls of [remove_fixture_directory]: whether every directory is gone, and the
    failure of the first that is not (a failure with error 0 is none). *)
Fixpoint remove_fixture (l : list (string * mount_setup_stage)) (fixture_cleaned : bool)
    (fixture_failure : mount_setup_failure) : M W (bool * mount_setup_failure) :=
  match l with
  | [] => mret (fixture_cleaned, fixture_failure)
  | (path, stage) :: rest =>
      gone ← succeeds (sys_rmdir path);
      e ← get_errno;
      if (gone : bool) || (e =? ENOENT) then remove_fixture rest fixture_cleaned fixture_failure
      else remove_fixture rest false
             (if mount_error fixture_failure =? 0 then mk_mount_failure stage e
              else fixture_failure)
  end.

Definition make_fixture (base : string) : M W bool :=
  let view := path_append base "view" in
  okay ← succeeds (sys_mkdir view 448);
  okay ← (if (okay : bool) then succeeds (sys_mkdir (path_append view "resource") 448) else mret false);
  okay ← (if (okay : bool) then succeeds (sys_mkdir (path_append view "dev") 448) else mret false);
  if (okay : bool) then succeeds (sys_mkdir (path_append base "material") 448) else mret false.

(** The [try] block: the admission, or the failure of the three openings (returned
    after the fixture was cleaned up, as the block does). *)
Definition probe_admission (base : string) : M W (mount_setup_failure + isolated_admission) :=
  root ← open_exact_path (path_append base "view");
  src ← open_exact_path (path_append base "material");
  target ← open_beneath root "/resource";
  if negb (fd_bool root) || negb (fd_bool src) || negb (fd_bool target) then
    e ← get_errno;
    cleanup_fixture base;;
    fd_destroy target;; fd_destroy src;; fd_destroy root;;
    mret (inl (mk_mount_failure probe_preparation e))
  else
  on_throw
    (finally
      (src_identity ← identity_of src;
       tgt_identity ← identity_of target;
       scratch_path ← make_scratch;
       mret (inr (mk_admission root
         [mk_isolated_binding src src_identity tgt_identity read_only "/resource" false] []
         scratch_path false)))
      (fd_destroy target))
    (fd_destroy src;; fd_destroy root).

(** [for (int attempt = 0; attempt < count; ++attempt)]. *)
Fixpoint probe_attempts (fuel count : nat) (a : isolated_admission)
    : M W (mount_setup_failure + unit) :=
  match count with
  | O => mret (inr tt)
  | S n => then_ (probe_isolated_realization fuel a) (probe_attempts fuel n a)
  end.

(** What is returned after realization and cleanup. *)
Definition filesystem_verdict (realized : mount_setup_failure + unit) (scratch_cleaned : bool)
    (fixture : bool * mount_setup_failure) : mount_setup_failure + unit :=
  if negb scratch_cleaned then inl (mk_mount_failure parent_cleanup EBUSY)
  else if negb fixture.1 then inl fixture.2
  else realized.

(** From the creation of the fixture's base directory on. *)
Definition probe_with_fixture (fuel : nat) (base : string) : M W (mount_setup_failure + unit) :=
  prepared ← make_fixture base;
  if negb prepared then
    failure ← mount_fail probe_preparation;
    cleanup_fixture base;;
    mret failure
  else
  admission ← catch (probe_admission base) (λ _,
    e ← get_errno;
    cleanup_fixture base;;
    mret (inl (mk_mount_failure probe_preparation (if e =? 0 then EIO else e))));
  match admission with
  | inl f => mret (inl f)
  | inr a =>
  realized ← probe_attempts fuel 2 a;
  cleaned ← verify_parent_cleanup a;
  let '(scratch_cleaned, a) := (cleaned : bool * isolated_admission) in
  admission_destroy a;;
  fixture ← remove_fixture (fixture_directories base) true
              (mk_mount_failure probe_preparation 0);
  mret (filesystem_verdict realized scratch_cleaned fixture)
  end.

Definition probe_isolated_filesystem (fuel : nat) : M W (mount_setup_failure + unit) :=
  supported ← probe_openat2;
  if negb supported then mount_fail probe_preparation
  else
  created ← attempt (sys_mkdtemp "/tmp/libpkgexec-linux-probe.XXXXXX");
  match created with
  | None => mount_fail probe_preparation
  | Some base => probe_with_fixture fuel base
  end.

End realization.

Definition mount_stage_name (stage : mount_setup_stage) : string :=
  match stage with
  | probe_preparation => "isolated probe preparation"
  | mount_namespace => "mount namespace"
  | private_propagation => "private mount propagation"
  | scratch_mount => "private scratch mount"
  | root_tree => "root mount tree"
  | resource_tree => "resource mount tree"
  | input_namespace => "private input namespace"
  | device_filesystem => "private device filesystem"
  | root_entry => "root-view entry"
  | capability_drop_stage => "capability drop"
  | parent_cleanup => "parent isolation scratch cleanup"
  | fixture_cleanup => "isolated probe fixture cleanup"
  | fixture_material_cleanup => "isolated probe material cleanup"
  | fixture_resource_cleanup => "isolated probe resource-target cleanup"
  | fixture_device_cleanup => "isolated probe device-target cleanup"
  | fixture_view_cleanup => "isolated probe root-view cleanup"
  | fixture_root_cleanup => "isolated probe fixture-root cleanup"
  | mount_stage_other _ => "mount isolation"
  end.
