(* ===== verification/RealizationFacts.v ===== *)
(** * What the realization of an isolated filesystem does

    [plan] is the specification of the mount work for an admission: the sequence of
    calls that realizes it, each with the answer it needs, from the clones of the
    admitted trees to the entry into the new root and the closing of every descriptor.
    A successful run of [setup_isolated_filesystem] makes exactly those calls. *)

From S2P Require Import Prelude Machine Linux Logic Posix Script Pkgexec Bytes Paths Support.
From S2P Require Import Yields Ownership ProcessControl Admission Realization.
Local Open Scope string_scope.
Local Open Scope list_scope.
Local Open Scope Z_scope.

(** ** The plan of a realization

    Lists of calls with their answers, oldest first. *)

Definition opened_exactly (path : string) (fd : Z) : event :=
  Event (sys_openat2 AT_FDCWD path (Z.lor O_PATH (Z.lor O_DIRECTORY O_CLOEXEC)) 0
           (Z.lor RESOLVE_NO_SYMLINKS RESOLVE_NO_MAGICLINKS)) (Ok fd).

Definition opened_beneath (root : Z) (logical : string) (fd : Z) : event :=
  Event (sys_openat2 root (if decide (strip_leading logical = "") then "." else strip_leading logical)
           (Z.lor O_PATH (Z.lor O_DIRECTORY O_CLOEXEC)) 0
           (Z.lor RESOLVE_BENEATH (Z.lor RESOLVE_NO_SYMLINKS RESOLVE_NO_MAGICLINKS))) (Ok fd).

(** The descriptor shows the directory of the expected identity. *)
Definition shown (fd : Z) (expected : inode_identity) (ev : event) : Prop :=
  ∃ info, ev = Event (sys_fstat fd) (Ok info) ∧ S_ISDIR (st_mode info) = true ∧
          st_dev info = device expected ∧ st_ino info = inode expected.

Definition closing (fd : Z) (ev : event) : Prop := ∃ r, ev = Event (sys_close fd) r.

(** A detached copy of the tree at [source_fd], sealed for its access. *)
Definition tree_calls (source_fd tree : Z) (acc : resource_access) : list event :=
  [Event (sys_open_tree source_fd ""
            (Z.lor OPEN_TREE_CLONE (Z.lor OPEN_TREE_CLOEXEC AT_EMPTY_PATH))) (Ok tree);
   Event (sys_mount_setattr tree "" AT_EMPTY_PATH (tree_attributes acc)) (Ok tt)].

Definition trees_cloned (bs : list isolated_binding) (trees : list Z) : list event :=
  concat (zip_with (λ b tree, tree_calls (source b) tree (binding_access b)) bs trees).

Definition moved (tree destination : Z) : event :=
  Event (sys_move_mount tree "" destination ""
           (Z.lor MOVE_MOUNT_F_EMPTY_PATH MOVE_MOUNT_T_EMPTY_PATH)) (Ok tt).

(** The device directory with its one node. *)
Definition device_calls (root_path : string) (info : stat_info) : list event :=
  let dev := path_append root_path "dev" in
  [Event (sys_lstat dev) (Ok info);
   Event (sys_mount (Some "tmpfs") dev (Some "tmpfs") (Z.lor MS_NOSUID MS_NOEXEC)
            (Some "mode=0755,size=64k")) (Ok tt);
   Event (sys_mknod (path_append dev "null") (Z.lor S_IFCHR 438) 259) (Ok tt);
   Event (sys_chmod (path_append dev "null") 438) (Ok tt)].

(** Each input namespace: its directory is opened beneath the root and is the admitted
    one, a tmpfs is mounted over it, and its children are made. *)
Definition namespace_made (root : Z) (root_path : string) (ns : isolated_namespace)
    (evs : list event) : Prop :=
  let path := path_append root_path (relative_path (namespace_path ns)) in
  ∃ fd stat close, shown fd (namespace_identity ns) stat ∧ closing fd close ∧
    evs = [opened_beneath root (namespace_path ns) fd; stat;
           Event (sys_mount (Some "tmpfs") path (Some "tmpfs")
                    (Z.lor MS_NOSUID (Z.lor MS_NODEV MS_NOEXEC)) (Some "mode=0755")) (Ok tt)] ++
          ((λ child, Event (sys_mkdir (path_append path child) 365) (Ok tt)) <$> children ns) ++
          [close].

(** Each binding: the directory at its logical path beneath the root is opened and, when
    it was admitted there, is the admitted one; the binding's tree is moved onto that
    descriptor; and the directory then found at the path is the source itself. *)
Definition binding_attached (root : Z) (bt : isolated_binding * Z) (evs : list event) : Prop :=
  let '(b, tree) := bt in
  ∃ destination checks visible stat close1 close2,
    (if synthetic_destination b then checks = []
     else ∃ found, checks = [found] ∧ shown destination (target_identity b) found) ∧
    shown visible (source_identity b) stat ∧ closing visible close1 ∧ closing destination close2 ∧
    evs = opened_beneath root (logical_path b) destination :: checks ++
          [moved tree destination; opened_beneath root (logical_path b) visible; stat;
           close1; close2].

(** Each input namespace is sealed read-only. *)
Definition namespace_sealed (root : Z) (ns : isolated_namespace) (evs : list event) : Prop :=
  ∃ fd close, closing fd close ∧
    evs = [opened_beneath root (namespace_path ns) fd;
           Event (sys_mount_setattr fd "" AT_EMPTY_PATH
             (mk_mount_attr (Z.lor MOUNT_ATTR_RDONLY (Z.lor MOUNT_ATTR_NOSUID
                (Z.lor MOUNT_ATTR_NODEV MOUNT_ATTR_NOEXEC))) 0 0)) (Ok tt);
           close].

(** One stretch of calls for each element, in their order. *)
Definition in_turn {A} (each : A → list event → Prop) (l : list A) (evs : list event) : Prop :=
  ∃ parts, Forall2 each l parts ∧ evs = concat parts.

(** What happens in the new mount namespace. *)
Definition plan_in_namespace (a : isolated_admission) (root_fd : Z) (trees : list Z)
    (evs : list event) : Prop :=
  let root_path := path_append (scratch a) "root" in
  ∃ made target root info spaces bindings seals close1 close2,
    (made = Ok tt ∨ made = Err EEXIST) ∧ S_ISDIR (st_mode info) = true ∧
    in_turn (namespace_made root root_path) (namespaces a) spaces ∧
    in_turn (binding_attached root) (zip (admitted_bindings a) trees) bindings ∧
    in_turn (namespace_sealed root) (namespaces a) seals ∧
    closing root close1 ∧ closing target close2 ∧
    evs = [Event (sys_unshare CLONE_NEWNS) (Ok tt);
           Event (sys_mount None "/" None (Z.lor MS_REC MS_PRIVATE) None) (Ok tt);
           Event (sys_mount (Some "tmpfs") (scratch a) (Some "tmpfs")
                    (Z.lor MS_NOSUID MS_NODEV) (Some "mode=0700,size=4m")) (Ok tt);
           Event (sys_mkdir root_path 448) made;
           opened_exactly root_path target;
           moved root_fd target;
           opened_exactly root_path root] ++
          device_calls root_path info ++ spaces ++ bindings ++ seals ++
          [Event (sys_fchdir root) (Ok tt); Event (sys_chroot ".") (Ok tt);
           Event (sys_chdir "/") (Ok tt); close1; close2].

(** The whole realization: the copies of the root's tree and of every resource's, made
    before the process leaves its mount namespace; the work in the new one; the closings. *)
Definition plan (a : isolated_admission) (evs : list event) : Prop :=
  ∃ root_fd trees inside closings close,
    length trees = length (admitted_bindings a) ∧
    plan_in_namespace a root_fd trees inside ∧ Forall2 closing trees closings ∧ closing root_fd close ∧
    evs = tree_calls (root_source a) root_fd read_only ++
          trees_cloned (admitted_bindings a) trees ++ inside ++ closings ++ [close].

(** ** A logic of histories *)

Section does.
Context {W : Type} `{K : Kernel W}.

(** From a history [before] (oldest first), a run that returns [a] leaves a history that
    satisfies [R a]. *)
Definition does {A} (before : list event) (R : A → list event → Prop) (m : M W A) : Prop :=
  ∀ s, ∃ evs, trace (m s).2 = evs ++ trace s ∧
    match (m s).1 with Done a => R a (before ++ reverse evs) | _ => True end.

(** The postcondition of a step that may report a failure. *)
Definition success (Q : list event → Prop) (r : mount_setup_failure + unit) (l : list event)
    : Prop := match r with inr _ => Q l | inl _ => True end.

(** What is said of a history by a test that must succeed. *)
Definition if_true (Q : list event → Prop) (b : bool) (l : list event) : Prop :=
  b = true → Q l.

Lemma does_ret {A} (a : A) before (R : A → _ → Prop) :
  R a before → does before R (mret a : M W A).
Proof. intros H s. exists []. split; [done|]. simpl. by rewrite app_nil_r. Qed.

Lemma does_bind {A B} before (R : A → _ → Prop) (Q : B → _ → Prop) (m : M W A) (k : A → M W B) :
  does before R m → (∀ a l, R a l → does l Q (k a)) → does before Q (m ≫= k).
Proof.
  intros Hm Hk s. destruct (Hm s) as (evs & E & H). unfold mbind, M_bind.
  destruct (m s) as [[a|x|c|] s1]; simpl in *; try (by exists evs).
  destruct (Hk a _ H s1) as (evs2 & E2 & H2). exists (evs2 ++ evs).
  rewrite E2, E, app_assoc. split; [done|]. by rewrite reverse_app, app_assoc.
Qed.

Lemma does_mono {A} before (R Q : A → _ → Prop) (m : M W A) :
  does before R m → (∀ a l, R a l → Q a l) → does before Q m.
Proof.
  intros Hm H s. destruct (Hm s) as (evs & E & HR). exists evs. split; [done|].
  destruct (m s).1; auto.
Qed.

Lemma does_attempt {A} before (c : call (res A)) :
  does before (λ o l, match o with
    | Some a => l = before ++ [Event c (Ok a)]
    | None => ∃ e, l = before ++ [Event c (Err e)]
    end) (attempt (W := W) c).
Proof.
  intros s. unfold attempt, issue, mbind, M_bind.
  destruct (kernel_run c (world s)) as [[a|e] w]; simpl; eexists [_]; (split; [done|]); [done|by exists e].
Qed.

Lemma does_call before (c : call (res unit)) :
  does before (if_true (λ l, l = before ++ [Event c (Ok tt)])) (succeeds (W := W) c).
Proof.
  eapply does_bind; [apply does_attempt|]. intros [[]|] l H; apply does_ret; [by intros _|done].
Qed.

Lemma does_descriptor before (c : call (res Z)) :
  does before (λ fd l, fd_bool fd = true → l = before ++ [Event c (Ok fd)]) (descriptor (W := W) c).
Proof.
  eapply does_bind; [apply does_attempt|]. intros [fd|] l H; apply does_ret; [by intros _|done].
Qed.

(** Any computation that makes calls, when nothing is said of them. *)
Lemma does_any {A} before (m : M W A) : emits anything m → does before (λ _ _, True) m.
Proof. intros H s. destruct (H s) as (evs & E & _). exists evs. split; [done|]. by destruct (m s).1. Qed.

Lemma does_mount_fail before Q stage : does before (success Q) (mount_fail (W := W) stage).
Proof. unfold mount_fail. intros s. by exists []. Qed.

Lemma does_require before Q R test stage next :
  does before (if_true R) test → (∀ l, R l → does l (success Q) next) →
  does before (success Q) (require (W := W) test stage next).
Proof.
  intros Ht Hn. eapply does_bind; [exact Ht|]. intros [|] l H; [by apply Hn, H|apply does_mount_fail].
Qed.

Lemma does_then before Q Q' part next :
  does before (success Q) part → (∀ l, Q l → does l (success Q') next) →
  does before (success Q') (then_ (W := W) part next).
Proof.
  intros Hp Hn. eapply does_bind; [exact Hp|]. intros [f|[]] l H; simpl in H; [|by apply Hn].
  by apply does_ret.
Qed.

Lemma does_fd_destroy before fd :
  fd_bool fd = true →
  does before (λ _ l, ∃ ev, closing fd ev ∧ l = before ++ [ev]) (fd_destroy (W := W) fd).
Proof.
  intros H s. unfold fd_destroy, fd_reset. rewrite H. unfold ignore, attempt, issue, mbind, M_bind.
  destruct (kernel_run _ _) as [[a|e] w]; simpl; eexists [_]; (split; [done|]); eexists;
    (split; [by eexists|done]).
Qed.

(** The end of a scope with destructors, when success says that they close something. *)
Lemma does_finally before Q R m (c : M W unit) :
  does before (success R) m → emits anything c → (∀ l, R l → does l (λ _, Q) c) →
  does before (success Q) (finally m c).
Proof.
  intros Hm He Hc s. destruct (Hm s) as (evs & E & H). unfold finally.
  destruct (m s) as [[[f|u]|x|d|] s1]; simpl in *; try (by exists evs).
  - destruct (He s1) as (evs2 & E2 & _). exists (evs2 ++ evs). unfold mbind, M_bind.
    destruct (c s1) as [[v|y|d|] s2]; simpl in *; by rewrite E2, E, app_assoc.
  - destruct (Hc _ H s1) as (evs2 & E2 & HQ). exists (evs2 ++ evs). unfold mbind, M_bind.
    destruct (c s1) as [[v|y|d|] s2]; simpl in *; rewrite E2, E, app_assoc; (split; [done|]); try done.
    by rewrite reverse_app, app_assoc.
  - destruct (He s1) as (evs2 & E2 & _). exists (evs2 ++ evs). unfold mbind, M_bind.
    destruct (c s1) as [[v|y|d|] s2]; simpl in *; by rewrite E2, E, app_assoc.
Qed.

(** A scoped descriptor: a successful body had a valid one, and it is closed last. *)
Lemma does_with_fd before Q A acquire body :
  does before A acquire →
  (∀ fd l, A fd l → does l (success (λ l', fd_bool fd = true ∧
     ∀ ev, closing fd ev → Q (l' ++ [ev]))) (body fd)) →
  does before (success Q) (with_fd (W := W) acquire body).
Proof.
  intros Ha Hb. eapply does_bind; [exact Ha|]. intros fd l H.
  eapply does_finally; [by apply Hb|by apply emits_fd_destroy|].
  intros l' [Hfd HQ]. eapply does_mono; [by apply does_fd_destroy|].
  intros [] l'' (ev & Hev & ->). by apply HQ.
Qed.

Lemma does_fds_destroy fds : ∀ before,
  Forall (λ fd, fd_bool fd = true) fds →
  does before (λ _ l, ∃ closings, Forall2 closing fds closings ∧ l = before ++ closings)
    (fds_destroy (W := W) fds).
Proof.
  induction fds as [|fd fds IH]; intros before Hf; cbn [fds_destroy].
  { apply does_ret. exists []. by rewrite app_nil_r. }
  apply Forall_cons_iff in Hf as [Hfd Hf]. eapply does_bind; [by apply does_fd_destroy|].
  intros [] l (ev & Hev & ->). eapply does_mono; [by apply IH|].
  intros [] l (closings & Hc & ->). exists (ev :: closings). split; [by constructor|].
  by rewrite <- app_assoc.
Qed.

(** ** Steps of the realization *)

Lemma does_open_beneath before root logical :
  does before (λ fd l, fd_bool fd = true → l = before ++ [opened_beneath root logical fd])
    (open_beneath (W := W) root logical).
Proof.
  unfold open_beneath. eapply does_mono; [apply does_descriptor|]. intros fd l H Hfd.
  rewrite H by done. unfold opened_beneath. by destruct (decide _), (bool_decide_reflect (strip_leading logical = "")).
Qed.

Lemma does_open_exactly before path :
  does before (λ fd l, fd_bool fd = true → l = before ++ [opened_exactly path fd])
    (open_exact_path (W := W) path).
Proof. apply does_descriptor. Qed.

Lemma does_same_inode before fd expected :
  does before (if_true (λ l, ∃ ev, shown fd expected ev ∧ l = before ++ [ev]))
    (same_inode (W := W) fd expected).
Proof.
  unfold same_inode. eapply does_bind; [apply does_attempt|]. intros [info|] l H; apply does_ret; [|done].
  intros [[H1 H2%Z.eqb_eq]%andb_prop H3%Z.eqb_eq]%andb_prop. eexists. split; [|exact H]. by exists info.
Qed.

(** [before ++ l1] continued by [l2]. *)
Ltac joined := rewrite <- ?app_assoc; reflexivity.

Lemma does_devices before root_path :
  does before (success (λ l, ∃ info, S_ISDIR (st_mode info) = true ∧
    l = before ++ device_calls root_path info)) (realize_devices (W := W) root_path).
Proof.
  unfold realize_devices. eapply does_bind; [apply does_attempt|]. intros [info|] l Hl.
  2:{ eapply does_bind; [apply does_any; by emits_auto|]. intros. by apply does_ret. }
  subst l. destruct (S_ISDIR (st_mode info)) eqn:Ed; cbn [negb].
  2:{ eapply does_bind; [apply does_any; by emits_auto|]. intros. by apply does_ret. }
  do 3 (eapply does_require; [apply does_call|]; intros l ->).
  apply does_ret. exists info. split; [done|]. joined.
Qed.

Lemma does_children before path names :
  does before (success (λ l, l = before ++
    ((λ child, Event (sys_mkdir (path_append path child) 365) (Ok tt)) <$> names)))
    (make_children (W := W) path names).
Proof.
  revert before. induction names as [|c names IH]; intros before; cbn [make_children].
  { apply does_ret. simpl. by rewrite app_nil_r. }
  eapply does_require; [apply does_call|]. intros l ->. eapply does_mono; [apply IH|].
  intros [f|[]] l; simpl; [done|]. intros ->. by rewrite <- app_assoc.
Qed.

Lemma in_turn_nil {A} (each : A → list event → Prop) : in_turn each [] [].
Proof. by exists []. Qed.
Lemma in_turn_cons {A} (each : A → list event → Prop) x l evs rest :
  each x evs → in_turn each l rest → in_turn each (x :: l) (evs ++ rest).
Proof. intros H (parts & Hp & ->). exists (evs :: parts). split; [by constructor|done]. Qed.

Lemma does_namespaces before fd root_path spaces :
  does before (success (λ l, ∃ evs, in_turn (namespace_made fd root_path) spaces evs ∧ l = before ++ evs))
    (realize_namespaces (W := W) fd root_path spaces).
Proof.
  revert before. induction spaces as [|ns spaces IH]; intros before; cbn [realize_namespaces].
  { apply does_ret. exists []. split; [apply in_turn_nil|]. by rewrite app_nil_r. }
  eapply (does_then _ (λ l, ∃ evs, namespace_made fd root_path ns evs ∧ l = before ++ evs)).
  - eapply does_with_fd; [apply does_open_beneath|]. intros destination l Hl.
    destruct (fd_bool destination) eqn:Ed.
    2:{ eapply (does_bind _ (λ same _, same = false)); [by apply does_ret|]. intros same l' ->. cbn [negb].
        eapply does_bind; [apply does_any; by emits_auto|]. intros. by apply does_ret. }
    rewrite Hl by done. eapply does_bind; [apply does_same_inode|]. intros [|] l' Hs; cbn [negb].
    2:{ eapply does_bind; [apply does_any; by emits_auto|]. intros. by apply does_ret. }
    destruct (Hs eq_refl) as (stat & Hstat & ->).
    eapply does_require; [apply does_call|]. intros l2 ->.
    eapply does_mono; [apply does_children|]. intros [f|[]] l3; simpl; [done|]. intros ->.
    split; [done|]. intros close Hc. eexists. split; [exists destination, stat, close; by split_and!|].
    joined.
  - intros l (evs & He & ->). eapply does_mono; [apply IH|]. intros [f|[]] l; simpl; [done|].
    intros (rest & Hr & ->). exists (evs ++ rest). split; [by apply in_turn_cons|joined].
Qed.

Lemma does_attach before root tree b :
  does before (success (λ l, ∃ evs, binding_attached root (b, tree) evs ∧ l = before ++ evs))
    (attach_binding (W := W) root tree b).
Proof.
  unfold attach_binding. eapply does_with_fd; [apply does_open_beneath|]. intros destination l Hl.
  eapply (does_bind _ (λ accepted l', accepted = true → fd_bool destination = true ∧ ∃ checks,
    (if synthetic_destination b then checks = []
     else ∃ found, checks = [found] ∧ shown destination (target_identity b) found) ∧
    l' = (before ++ [opened_beneath root (logical_path b) destination]) ++ checks)).
  { destruct (fd_bool destination) eqn:Ed; cbn [negb]; [|by apply does_ret].
    rewrite Hl by done. destruct (synthetic_destination b).
    - apply does_ret. intros _. split; [done|]. exists []. by rewrite app_nil_r.
    - eapply does_mono; [apply does_same_inode|]. intros same l' Hs ->.
      destruct (Hs eq_refl) as (found & Hf & ->). split; [done|]. exists [found]. split; [by exists found|done]. }
  intros [|] l' Ha; cbn [negb].
  2:{ eapply does_bind; [apply does_any; by emits_auto|]. intros. by apply does_ret. }
  destruct (Ha eq_refl) as (Ed & checks & Hch & ->). clear Ha.
  eapply does_require; [apply does_call|]. intros l2 ->.
  eapply does_with_fd; [apply does_open_beneath|]. intros visible l3 Hl3.
  destruct (fd_bool visible) eqn:Ev; cbn [negb]; [|apply does_mount_fail]. rewrite Hl3 by done.
  eapply does_bind; [apply does_same_inode|]. intros [|] l4 Hs; cbn [negb]; [|by apply does_ret].
  destruct (Hs eq_refl) as (stat & Hstat & ->). apply does_ret. split; [done|]. intros close1 Hc1.
  split; [done|]. intros close2 Hc2. eexists. split.
  { exists destination, checks, visible, stat, close1, close2. split_and!; done. }
  joined.
Qed.

Lemma does_attach_all before root trees bs :
  length trees = length bs →
  does before (success (λ l, ∃ evs, in_turn (binding_attached root) (zip bs trees) evs ∧ l = before ++ evs))
    (attach_bindings (W := W) root trees bs).
Proof.
  revert before trees. induction bs as [|b bs IH]; intros before [|tree trees] Hlen; try done;
    cbn [attach_bindings].
  { apply does_ret. exists []. split; [apply in_turn_nil|]. by rewrite app_nil_r. }
  eapply does_then; [apply does_attach|]. intros l (evs & He & ->).
  eapply does_mono; [apply IH; simpl in Hlen; lia|]. intros [f|[]] l; simpl; [done|].
  intros (rest & Hr & ->). exists (evs ++ rest). split; [by apply in_turn_cons|joined].
Qed.

Lemma does_seal_namespaces before root spaces :
  does before (success (λ l, ∃ evs, in_turn (namespace_sealed root) spaces evs ∧ l = before ++ evs))
    (seal_namespaces (W := W) root spaces).
Proof.
  revert before. induction spaces as [|ns spaces IH]; intros before; cbn [seal_namespaces].
  { apply does_ret. exists []. split; [apply in_turn_nil|]. by rewrite app_nil_r. }
  eapply (does_then _ (λ l, ∃ evs, namespace_sealed root ns evs ∧ l = before ++ evs)).
  - eapply does_with_fd; [apply does_open_beneath|]. intros fd l Hl.
    destruct (fd_bool fd) eqn:Ed; cbn [negb]; [|apply does_mount_fail]. rewrite Hl by done.
    eapply does_require; [apply does_call|]. intros l' ->. apply does_ret. split; [done|].
    intros close Hc. eexists. split; [exists fd, close; by split|joined].
  - intros l (evs & He & ->). eapply does_mono; [apply IH|]. intros [f|[]] l; simpl; [done|].
    intros (rest & Hr & ->). exists (evs ++ rest). split; [by apply in_turn_cons|joined].
Qed.

Lemma does_enter_root before fd :
  does before (success (λ l, l = before ++
    [Event (sys_fchdir fd) (Ok tt); Event (sys_chroot ".") (Ok tt); Event (sys_chdir "/") (Ok tt)]))
    (enter_root (W := W) fd).
Proof.
  unfold enter_root. do 3 (eapply does_require; [apply does_call|]; intros l ->).
  apply does_ret. simpl. joined.
Qed.

(** A clone and its seal, when both succeed. *)
Lemma does_tree before source_fd acc :
  does before (λ tree l, fd_bool tree = true → l = before ++ [Event (sys_open_tree source_fd ""
      (Z.lor OPEN_TREE_CLONE (Z.lor OPEN_TREE_CLOEXEC AT_EMPTY_PATH))) (Ok tree)])
    (clone_tree (W := W) source_fd) ∧
  ∀ tree l, (fd_bool tree = true → l = before ++ [Event (sys_open_tree source_fd ""
      (Z.lor OPEN_TREE_CLONE (Z.lor OPEN_TREE_CLOEXEC AT_EMPTY_PATH))) (Ok tree)]) →
    does l (if_true (λ l', fd_bool tree = true ∧ l' = before ++ tree_calls source_fd tree acc))
      (if fd_bool tree then seal_tree (W := W) tree acc else mret false).
Proof.
  split; [apply does_descriptor|]. intros tree l Hl. destruct (fd_bool tree); [|by apply does_ret].
  rewrite Hl by done. eapply does_mono; [apply does_call|]. intros sealed l' H Hs.
  split; [done|]. rewrite (H Hs). joined.
Qed.

Lemma does_realize_bindings bs : ∀ before done_bs done,
  length done = length done_bs → Forall (λ fd, fd_bool fd = true) done →
  does (before ++ trees_cloned done_bs done)
    (λ r l, r.2 = None → length r.1 = length (done_bs ++ bs) ∧
            Forall (λ fd, fd_bool fd = true) r.1 ∧ l = before ++ trees_cloned (done_bs ++ bs) r.1)
    (realize_bindings (W := W) bs done).
Proof.
  induction bs as [|b bs IH]; intros before done_bs done Hlen Hd; cbn [realize_bindings].
  { apply does_ret. intros _. by rewrite app_nil_r. }
  destruct (does_tree (before ++ trees_cloned done_bs done) (source b) (binding_access b)) as [H1 H2].
  eapply does_bind; [exact H1|]. intros tree l Hl. eapply does_bind; [by apply H2|].
  intros [|] l' Hs; cbn [negb].
  - destruct (Hs eq_refl) as [Ht ->].
    replace (done_bs ++ b :: bs) with ((done_bs ++ [b]) ++ bs) by (by rewrite <- app_assoc).
    replace ((before ++ trees_cloned done_bs done) ++ tree_calls (source b) tree (binding_access b))
      with (before ++ trees_cloned (done_bs ++ [b]) (done ++ [tree])).
    { apply IH; [rewrite !length_app; simpl; lia|]. by apply Forall_app_2; [|constructor]. }
    unfold trees_cloned. rewrite zip_with_app by done. rewrite concat_app. simpl.
    by rewrite <- !app_assoc.
  - eapply does_bind; [apply does_any; by emits_auto|]. intros e l2 _.
    eapply does_bind; [apply does_any; by apply emits_fd_destroy|]. intros. by apply does_ret.
Qed.

Lemma does_in_namespace before a root_fd trees :
  length trees = length (admitted_bindings a) →
  does before (success (λ l, ∃ evs, plan_in_namespace a root_fd trees evs ∧ l = before ++ evs))
    (realize_in_namespace (W := W) a root_fd trees).
Proof.
  intros Hlen. unfold realize_in_namespace.
  do 3 (eapply does_require; [apply does_call|]; intros ? ->).
  match goal with |- does ?b _ _ => eapply (does_require _ _ (λ l, ∃ made,
    (made = Ok tt ∨ made = Err EEXIST) ∧
    l = b ++ [Event (sys_mkdir (path_append (scratch a) "root") 448) made])) end.
  { unfold mkdir_or_exists. intros s. unfold succeeds, attempt, issue, get_errno, mbind, M_bind.
    destruct (kernel_run _ _) as [[[]|e] w]; simpl; eexists [_]; (split; [done|]); intros H.
    - exists (Ok tt). auto.
    - exists (Err e). apply Z.eqb_eq in H as ->. auto. }
  intros ? (made & Hmade & ->).
  eapply does_with_fd; [apply does_open_exactly|]. intros target l Hl.
  destruct (fd_bool target) eqn:Et; cbn [negb]; [|apply does_mount_fail]. rewrite Hl by done. clear l Hl.
  eapply does_require; [apply does_call|]. intros ? ->.
  eapply does_with_fd; [apply does_open_exactly|]. intros root l Hl.
  destruct (fd_bool root) eqn:Er; cbn [negb]; [|apply does_mount_fail]. rewrite Hl by done. clear l Hl.
  eapply does_then; [apply does_devices|]. intros l (info & Hi & ->).
  eapply does_then; [apply does_namespaces|]. intros l (spaces & Hsp & ->).
  eapply does_then; [by apply does_attach_all|]. intros l (bindings & Hb & ->).
  eapply does_then; [apply does_seal_namespaces|]. intros l (seals & Hse & ->).
  eapply does_mono; [apply does_enter_root|]. intros [f|[]] l; simpl; [done|]. intros ->.
  split; [done|]. intros close1 Hc1. split; [done|]. intros close2 Hc2. eexists. split.
  { exists made, target, root, info, spaces, bindings, seals, close1, close2. split_and!; done. }
  joined.
Qed.

Lemma does_create_private_root a :
  does [] (success (plan a)) (setup_isolated_filesystem (W := W) a).
Proof.
  unfold setup_isolated_filesystem, create_private_root.
  destruct (does_tree [] (root_source a) read_only) as [H1 H2].
  eapply does_with_fd; [exact H1|]. intros root_fd l Hl. eapply does_bind; [by apply H2|].
  intros [|] l' Hs; cbn [negb]; [|apply does_mount_fail]. destruct (Hs eq_refl) as [Hfd ->].
  cbn [app]. eapply does_bind.
  { pose proof (does_realize_bindings (admitted_bindings a) (tree_calls (root_source a) root_fd read_only)
      [] [] eq_refl ltac:(constructor)) as H. exact H. }
  intros [trees [f|]] l2 Hr; simpl in Hr.
  { eapply (does_finally _ _ (λ _, False)); [by apply does_ret|by apply emits_fds_destroy|done]. }
  destruct (Hr eq_refl) as (Hlen & Hf & ->).
  eapply does_finally; [by apply does_in_namespace|by apply emits_fds_destroy|].
  intros l3 (inside & Hin & ->). eapply does_mono; [by apply does_fds_destroy|].
  intros [] l4 (closings & Hc & ->). split; [done|]. intros close Hcl.
  exists root_fd, trees, inside, closings, close. split_and!; try done. joined.
Qed.

(** C16: Refinement of the mount plan: a successful realization made exactly the calls of
    [plan], in that order, each with the answer the plan needs. Every tree, the root's
    and each resource's, is cloned from its admitted descriptor and sealed with the
    attributes of its access before the process leaves its mount namespace. In the new
    one the root's tree is moved onto the scratch root; each input namespace is opened
    beneath the attached root, is the admitted directory, and gets its tmpfs and its
    children; each resource's tree is moved onto the directory opened beneath the root
    at the binding's logical path, which has the identity that was admitted unless the
    realization made it, and the directory then visible at that path has the identity
    of the binding's source; the input namespaces are sealed read-only only after
    that; and the process enters the attached root last. *)
Theorem realization_follows_plan a (s s' : mstate W) :
  setup_isolated_filesystem a s = (Done (inr tt), s') →
  ∃ evs, trace s' = evs ++ trace s ∧ plan a (reverse evs).
Proof.
  intros Erun. destruct (does_create_private_root a s) as (evs & E & Hs).
  rewrite Erun in E, Hs. by exists evs.
Qed.

End does.

(** ** The probe cleans up behind itself *)

Section probe.
Context {W : Type} `{K : Kernel W} `{Lc : Libc} `{P : Pkgexec}.

(** The directory was removed, or was not there. *)
Definition removal_seen (s : mstate W) (path : string) : Prop :=
  ∃ r, Event (sys_rmdir path) r ∈ trace s ∧ removed r = true.
Definition removal_tried (s : mstate W) (path : string) : Prop :=
  ∃ r, Event (sys_rmdir path) r ∈ trace s.

Lemma removal_seen_after (s s' : mstate W) path :
  after s s' → removal_seen s path → removal_seen s' path.
Proof. intros Ha (r & Hin & Hr). exists r. split; [by eapply after_elem|done]. Qed.

Lemma removal_tried_after (s s' : mstate W) path :
  after s s' → removal_tried s path → removal_tried s' path.
Proof. intros Ha (r & Hin). exists r. by eapply after_elem. Qed.

Lemma wp_cleanup_directories l : ∀ s : mstate W,
  wp (cleanup_directories l)
    (λ o s', o = Done tt ∧ after s s' ∧ Forall (removal_tried s') l.*1) s.
Proof.
  induction l as [|[path stage] l IH]; intros s; cbn [cleanup_directories].
  { apply wp_ret. split_and!; [done|apply after_refl|constructor]. }
  wp_step. wp_step. eapply wp_mono; [apply IH|]. intros o s' (-> & Ha & Hl).
  split; [done|]. split; [eapply after_trans; [|exact Ha]; apply after_push, after_refl|].
  simpl. constructor; [|done]. eapply removal_tried_after; [exact Ha|]. eexists. by left.
Qed.

Lemma wp_remove_fixture l : ∀ cleaned failure (s : mstate W),
  wp (remove_fixture l cleaned failure) (λ o s', ∃ cleaned' failure',
    o = Done (cleaned', failure') ∧ after s s' ∧ Forall (removal_tried s') l.*1 ∧
    (cleaned' = true → cleaned = true ∧ Forall (removal_seen s') l.*1)) s.
Proof.
  induction l as [|[path stage] l IH]; intros cleaned failure s; cbn [remove_fixture].
  { apply wp_ret. eexists _, _. split_and!; [done|apply after_refl|constructor|].
    intros ->. split; [done|constructor]. }
  wp_step. wp_step; wp_step; wp_step; cbn [orb].
  - eapply wp_mono; [apply IH|].
    intros o s' (cleaned' & failure' & -> & Ha & Ht & Hc). eexists _, _. split; [done|].
    split; [eapply after_trans; [|exact Ha]; apply after_push, after_refl|]. split.
    + simpl. constructor; [|done]. eapply removal_tried_after; [exact Ha|]. eexists. by left.
    + intros Hc'. destruct (Hc Hc') as [? Hs]. split; [done|]. simpl. constructor; [|done].
      eapply removal_seen_after; [exact Ha|]. eexists. split; [by left|done].
  - destruct (errno _ =? ENOENT) eqn:Ee.
    all: eapply wp_mono; [apply IH|]; intros o s' (cleaned' & failure' & -> & Ha & Ht & Hc);
      eexists _, _; (split; [done|]);
      (split; [eapply after_trans; [|exact Ha]; apply after_push, after_refl|]); split;
      [simpl; constructor; [eapply removal_tried_after; [exact Ha|]; eexists; by left|done]|].
    + intros Hc'. destruct (Hc Hc') as [? Hs]. split; [done|]. simpl. constructor; [|done].
      eapply removal_seen_after; [exact Ha|]. eexists. split; [by left|]. exact Ee.
    + intros Hc'. by destruct (Hc Hc') as [? _].
Qed.

Lemma emits_verify_parent_cleanup a : emits anything (verify_parent_cleanup (W := W) a).
Proof. unfold verify_parent_cleanup. emits_auto; done. Qed.
Lemma emits_admission_destroy a : emits anything (admission_destroy (W := W) a).
Proof.
  unfold admission_destroy, cleanup_best_effort.
  emits_auto; try apply emits_verify_parent_cleanup; try (by apply emits_fds_destroy);
    try (by apply emits_fd_destroy); done.
Qed.
Lemma emits_make_fixture base : emits anything (make_fixture (W := W) base).
Proof. unfold make_fixture. emits_auto; done. Qed.
Lemma emits_make_scratch : emits anything (make_scratch (W := W)).
Proof. unfold make_scratch, fail_errno, fail. emits_auto; done. Qed.
Lemma emits_identity_of fd : emits anything (identity_of (W := W) fd).
Proof. unfold identity_of, fail_errno, fail. emits_auto; done. Qed.
Lemma does_after {A} before (R : A → _ → Prop) (m : M W A) s o s' :
  does before R m → m s = (o, s') → after s s'.
Proof. intros H E. destruct (H s) as (evs & Et & _). rewrite E in Et. by exists evs. Qed.

Lemma wp_verify_parent_cleanup a (s : mstate W) :
  cleanup_attempted a = false →
  wp (verify_parent_cleanup a) (λ o s', ∃ okay a', o = Done (okay, a') ∧ after s s' ∧
    (okay = true → scratch a = "" ∨
       removal_seen s' (path_append (scratch a) "root") ∧ removal_seen s' (scratch a))) s.
Proof.
  intros Ha. unfold verify_parent_cleanup. rewrite Ha. case_bool_decide as Es.
  { apply wp_ret. eexists _, _. split_and!; [done|apply after_refl|by left]. }
  wp_run; eexists _, _; (split; [done|]); (split; [do 2 apply after_push; apply after_refl|]);
    intros Hok; right; simpl in Hok; try apply andb_true_iff in Hok as [Hok1 Hok2];
    split; eexists; (split; [first [by left|by right; left]|done]).
Qed.

(** What the [try] block leaves: cleaned up after an opening failed, or an admission
    whose scratch directory is still to be removed. *)
Lemma wp_probe_admission base (s : mstate W) :
  wp (probe_admission base) (λ o s', after s s' ∧
    match o with
    | Done (inl _) => Forall (removal_tried s') (fixture_directories base).*1
    | Done (inr a) => cleanup_attempted a = false
    | _ => True
    end) s.
Proof.
  assert (Hcl : emits anything (cleanup_fixture (W := W) base)).
  { intros s0. pose proof (wp_cleanup_directories (fixture_directories base) s0) as (_ & [l E] & _).
    exists l. split; [done|]. by apply Forall_true. }
  unfold probe_admission, open_exact_path, open_beneath.
  apply wp_and.
  { apply (emits_wp_after anything).
    emits_auto; try done; try (by apply emits_fd_destroy);
      auto using emits_make_scratch, emits_identity_of. }
  apply wp_bind_run; [intros root s1 _|by intros []].
  apply wp_bind_run; [intros src s2 _|by intros []].
  apply wp_bind_run; [intros target s3 _|by intros []].
  destruct (_ || _).
  - wp_step. wp_step. wp_step. eapply wp_mono; [apply wp_cleanup_directories|].
    intros o s4 (-> & _ & Ht).
    assert (Hd : ∀ s5, after s4 s5 → Forall (removal_tried s5) (fixture_directories base).*1).
    { intros s5 Ha. eapply Forall_impl; [exact Ht|]. intros path. by apply removal_tried_after. }
    apply wp_bind_run; [intros [] s5 E5|by intros []].
    apply wp_bind_run; [intros [] s6 E6|by intros []].
    apply wp_bind_run; [intros [] s7 E7|by intros []].
    apply wp_ret. apply Hd.
    pose proof (λ fd, emits_fd_destroy (W := W) anything fd (λ _ _, I)) as He.
    eapply after_trans; [eapply emits_after; [apply He|exact E5]|].
    eapply after_trans; [eapply emits_after; [apply He|exact E6]|].
    eapply emits_after; [apply He|exact E7].
  - assert (Hy : yields (λ r : mount_setup_failure + isolated_admission,
        match r with inr a => cleanup_attempted a = false | inl _ => False end)
      (on_throw (finally
        (src_identity ← identity_of (W := W) src; tgt_identity ← identity_of target;
         scratch_path ← make_scratch;
         mret (inr (mk_admission root
           [mk_isolated_binding src src_identity tgt_identity read_only "/resource" false] []
           scratch_path false))) (fd_destroy target)) (fd_destroy src;; fd_destroy root))).
    { yields_auto; auto using yields_identity_of, yields_make_scratch with yields. }
    specialize (Hy s3). unfold wp.
    destruct (on_throw _ _ s3) as [[[f|a]|x|c|] s4]; simpl in *; done.
Qed.

(** C24: The probe of the isolated filesystem cleans up behind itself. However it ends,
    when it returns it has tried to remove all five directories of its fixture; and it
    reports success only if they are gone, the scratch directories of its admission
    are gone, and two realizations from the same admission succeeded. *)
Theorem isolated_probe_cleans_up fuel base r (s s' : mstate W) :
  probe_with_fixture fuel base s = (Done r, s') →
  Forall (removal_tried s') (fixture_directories base).*1 ∧
  (r = inr tt →
     Forall (removal_seen s') (fixture_directories base).*1 ∧
     ∃ a s1 s2, probe_attempts fuel 2 a s1 = (Done (inr tt), s2) ∧
       (scratch a = "" ∨
        removal_seen s' (path_append (scratch a) "root") ∧ removal_seen s' (scratch a))).
Proof.
  intros Erun.
  assert (H : wp (probe_with_fixture fuel base) (λ o s', ∀ r, o = Done r →
    Forall (removal_tried s') (fixture_directories base).*1 ∧
    (r = inr tt → Forall (removal_seen s') (fixture_directories base).*1 ∧
       ∃ a s1 s2, probe_attempts fuel 2 a s1 = (Done (inr tt), s2) ∧
         (scratch a = "" ∨
          removal_seen s' (path_append (scratch a) "root") ∧ removal_seen s' (scratch a)))) s).
  2:{ unfold wp in H. rewrite Erun in H. by apply H. }
  clear Erun r s'. unfold probe_with_fixture.
  apply wp_bind_run; [intros prepared s1 _|by intros []]. destruct prepared; cbn [negb].
  2:{ unfold mount_fail, cleanup_fixture. wp_step. wp_step. wp_step. wp_step. wp_step.
      eapply wp_mono; [apply wp_cleanup_directories|]. intros o s2 (-> & _ & Ht).
      apply wp_ret. by intros r [= <-]. }
  wp_step. apply wp_catch. eapply wp_mono; [apply wp_probe_admission|].
  intros [[f|a]|x|c|] s2 [_ Ha]; try done.
  - apply wp_ret. by intros r [= <-].
  - apply wp_bind_run; [intros realized s3 E3|by intros []].
    wp_step. eapply wp_mono; [by apply wp_verify_parent_cleanup|].
    intros o s4 (okay & a' & -> & _ & Hscratch).
    apply wp_bind_run; [intros [] s5 E5|by intros []].
    assert (H45 : after s4 s5) by (eapply emits_after; [apply emits_admission_destroy|exact E5]).
    wp_step. eapply wp_mono; [apply wp_remove_fixture|].
    intros o s6 (cleaned & failure & -> & H56 & Ht & Hc). apply wp_ret. intros r [= <-].
    split; [done|]. unfold filesystem_verdict. simpl.
    destruct okay; [|done]. destruct cleaned; [|done]. simpl. intros ->.
    split; [by apply Hc|]. exists a, s2, s3. split; [done|].
    destruct (Hscratch eq_refl) as [?|[H1 H2]]; [by left|right].
    split; (eapply removal_seen_after; [eapply after_trans; [exact H45|exact H56]|done]).
  - unfold cleanup_fixture. wp_step. wp_step. wp_step.
    eapply wp_mono; [apply wp_cleanup_directories|]. intros o s3 (-> & _ & Ht).
    wp_run. by intros r [= <-].
Qed.

End probe.

(** ** Runs *)

(** Every mount call succeeds; the two directories of the sample have inodes 10 and 20,
    and what is mounted over the second shows the first. *)
Definition mount_kernel : Kernel nat := scripted (λ n R c,
  match c in call R return R with
  | sys_open_tree _ _ _ => Ok (40 + Z.of_nat n)
  | sys_mount_setattr _ _ _ _ => Ok tt
  | sys_unshare _ => Ok tt
  | sys_mount _ _ _ _ _ => Ok tt
  | sys_mkdir _ _ => Ok tt
  | sys_openat2 _ _ _ _ _ => Ok (60 + Z.of_nat n)
  | sys_move_mount _ _ _ _ _ => Ok tt
  | sys_lstat _ => Ok (mk_stat 16877 1 2)
  | sys_fstat fd => Ok (mk_stat 16877 1 (if fd <? 76 then 20 else 10))
  | sys_mknod _ _ _ => Ok tt
  | sys_chmod _ _ => Ok tt
  | sys_fchdir _ => Ok tt
  | sys_chroot _ => Ok tt
  | sys_chdir _ => Ok tt
  | sys_close _ => Ok tt
  | sys_mkdtemp _ => Ok "/tmp/probe"
  | sys_rmdir _ => Ok tt
  | sys_pipe2 _ => Ok (90, 91)
  | sys_fork => Ok 7
  | sys_read _ _ => Ok []
  | sys_waitpid pid => Ok (pid, 0)
  | c => default_answer c
  end).

Definition sample_admission : isolated_admission :=
  mk_admission 30 [mk_isolated_binding 31 (mk_inode 1 10) (mk_inode 1 20) read_only "/src" false]
    [] "/tmp/scratch" false.

Lemma realization_follows_plan_witness :
  ∃ evs, trace (@setup_isolated_filesystem nat mount_kernel sample_admission (start 0%nat)).2 = evs ++ [] ∧
    plan sample_admission (reverse evs).
Proof.
  apply (@realization_follows_plan nat mount_kernel sample_admission (start 0%nat)).
  vm_compute. reflexivity.
Defined.

Lemma isolated_probe_cleans_up_witness :
  let run := @probe_with_fixture nat mount_kernel plain_libc 9 "/tmp/probe" (start 0%nat) in
  Forall (removal_seen run.2) (fixture_directories "/tmp/probe").*1.
Proof.
  intros run.
  apply (@isolated_probe_cleans_up nat mount_kernel plain_libc 9 "/tmp/probe" (inr tt)
    (start 0%nat) run.2).
  - vm_compute. reflexivity.
  - reflexivity.
Defined.
