(* ===== verification/Capability.v ===== *)
(** * Capability observations (src/capability.cpp)

    The capability vocabulary, the probes that produce a report for the host
    supervisor and for the isolated backend, and the guarantees each report seals
    into its profile. The enumerations carry one constructor more for values outside
    the vocabulary, which the constructor of an observation rejects. *)

From S2P Require Import Prelude Machine Linux Logic Posix Script Pkgexec Containment.
From S2P Require Import ResourceLimits ProcFs ProcessControl Network Paths Support Yields.
From S2P Require Import Admission Realization.
Local Open Scope string_scope.
Local Open Scope list_scope.
Local Open Scope Z_scope.

Inductive capability_kind : Set :=
| process_supervision | closed_environment | current_root_view | current_credentials
| writable_resources | complete_stream_capture | process_group_containment
| no_new_privileges_kind | descriptor_execution | close_range | pidfd | pidfd_cancellation
| mount_namespace_kind | private_mount_propagation | openat2 | open_tree | move_mount
| mount_setattr | chroot | capability_drop | user_namespace | pid_namespace
| network_namespace_kind | landlock | cgroup_v2 | loopback_configuration
| address_space_limit | file_size_limit | open_files_limit
| kind_other (n : Z).

Inductive capability_state : Set := available | unavailable | policy_restricted | state_other (n : Z).

#[export] Instance capability_kind_eq_dec : EqDecision capability_kind.
Proof. solve_decision. Defined.
#[export] Instance capability_state_eq_dec : EqDecision capability_state.
Proof. solve_decision. Defined.

Definition valid_kind (value : capability_kind) : bool :=
  match value with kind_other _ => false | _ => true end.
Definition valid_state (value : capability_state) : bool :=
  match value with state_other _ => false | _ => true end.

Definition kind_to_string (value : capability_kind) : string :=
  match value with
  | process_supervision => "process-supervision"
  | closed_environment => "closed-environment"
  | current_root_view => "current-root-view"
  | current_credentials => "current-credentials"
  | writable_resources => "writable-resources"
  | complete_stream_capture => "complete-stream-capture"
  | process_group_containment => "process-group-containment"
  | no_new_privileges_kind => "no-new-privileges"
  | descriptor_execution => "descriptor-execution"
  | close_range => "close-range"
  | pidfd => "pidfd"
  | pidfd_cancellation => "pidfd-cancellation"
  | mount_namespace_kind => "mount-namespace"
  | private_mount_propagation => "private-mount-propagation"
  | openat2 => "openat2"
  | open_tree => "open-tree"
  | move_mount => "move-mount"
  | mount_setattr => "mount-setattr"
  | chroot => "chroot"
  | capability_drop => "capability-drop"
  | user_namespace => "user-namespace"
  | pid_namespace => "pid-namespace"
  | network_namespace_kind => "network-namespace"
  | landlock => "landlock"
  | cgroup_v2 => "cgroup-v2"
  | loopback_configuration => "loopback-configuration"
  | address_space_limit => "address-space-limit"
  | file_size_limit => "file-size-limit"
  | open_files_limit => "open-files-limit"
  | kind_other _ => "unknown"
  end.

Definition state_to_string (value : capability_state) : string :=
  match value with
  | available => "available"
  | unavailable => "unavailable"
  | policy_restricted => "policy-restricted"
  | state_other _ => "unknown"
  end.

Record capability_observation : Set := mk_observation {
  capability : capability_kind;
  state_of : capability_state;
  diagnostic : string
}.

Record resource_limit_capabilities : Set := mk_limit_capabilities {
  cap_address_space : bool;
  cap_file_size : bool;
  cap_open_files : bool
}.

Record capability_report `{Pkgexec} : Type := mk_report {
  profile : capability_profile;
  observations : list capability_observation
}.
Arguments mk_report {_} profile observations.

(** [value ? capability_state::available : capability_state::unavailable]. *)
Definition state_if (value : bool) : capability_state := if value then available else unavailable.

(** [available ? available : (error is EPERM or EACCES ? policy_restricted : unavailable)]. *)
Definition setup_state (error : option Z) : capability_state :=
  match error with
  | None => available
  | Some e => if (e =? EPERM) || (e =? EACCES) then policy_restricted else unavailable
  end.

(** [add_resource_limit_guarantees]: what is pushed at the end of the vector. *)
Definition add_resource_limit_guarantees (guarantees : list execution_guarantee)
    (limits : resource_limit_capabilities) : list execution_guarantee :=
  if negb (cap_address_space limits) && negb (cap_file_size limits) && negb (cap_open_files limits)
  then guarantees
  else guarantees ++ [g_resource_limits] ++
       (if cap_address_space limits then [g_address_space_limit] else []) ++
       (if cap_file_size limits then [g_file_size_limit] else []) ++
       (if cap_open_files limits then [g_open_files_limit] else []).

Section capability.
Context {W : Type} `{K : Kernel W} `{Lc : Libc} `{P : Pkgexec}.

(** The constructor of [capability_observation]. *)
Definition make_observation (kind : capability_kind) (state : capability_state)
    (text : string) : M W capability_observation :=
  if negb (valid_kind kind) then fail invalid_value "unsupported Linux capability vocabulary"
  else if negb (valid_state state) then
    fail invalid_value "unsupported Linux capability-state vocabulary"
  else mret (mk_observation kind state text).

Definition backend_identity (name : string) : M W string :=
  hex ← sha256_hex "pkgexec-linux/backend/v1" name;
  mret (backend_identity_from_sha256 hex).

Definition namespace_state (fuel : nat) (flag : Z) : M W capability_state :=
  forked ← attempt sys_fork;
  match forked with
  | None => mret unavailable
  | Some child =>
      if child =? 0 then
        okay ← succeeds (sys_unshare flag);
        e ← get_errno;
        exit_process (if (okay : bool) then 0 else if e =? EPERM then 2 else 1)
      else
        status ← wait_child fuel child;
        mret (if negb (WIFEXITED status) then unavailable
              else if WEXITSTATUS status =? 0 then available
              else if WEXITSTATUS status =? 2 then policy_restricted else unavailable)
  end.

Definition landlock_state : M W capability_state :=
  version ← descriptor sys_landlock_version;
  if 1 <=? version then mret available
  else
    e ← get_errno;
    mret (if (e =? EPERM) || (e =? EACCES) then policy_restricted else unavailable).

Definition cgroup_state : M W capability_state :=
  controllers ← issue (sys_ifstream "/sys/fs/cgroup/cgroup.controllers");
  if negb controllers then mret unavailable
  else
    probe ← issue (sys_ofstream_append "/sys/fs/cgroup/cgroup.procs");
    mret (if (probe : bool) then available else policy_restricted).

Definition probe_resource_limits (fuel : nat) : M W resource_limit_capabilities :=
  a ← probe_address_space_limit fuel;
  f ← probe_file_size_limit fuel;
  o ← probe_open_files_limit fuel;
  mret (mk_limit_capabilities a f o).

(** The clauses of a braced list of observations, evaluated in order: each computes its
    state and constructs its observation. *)
Fixpoint observe_all (clauses : list (capability_kind * M W capability_state * string))
    : M W (list capability_observation) :=
  match clauses with
  | [] => mret []
  | (kind, state, text) :: rest =>
      value ← state;
      observation ← make_observation kind value text;
      others ← observe_all rest;
      mret (observation :: others)
  end.

(** [probe() ? available : unavailable] inside a clause. *)
Definition probed (probe : M W bool) : M W capability_state :=
  value ← probe; mret (state_if value).

(** [add_resource_limit_observations]. *)
Definition limit_clauses (limits : resource_limit_capabilities)
    : list (capability_kind * M W capability_state * string) :=
  [(address_space_limit, mret (state_if (cap_address_space limits)),
    if cap_address_space limits
    then "exact RLIMIT_AS realization and mutation sealing are available"
    else "exact RLIMIT_AS realization could not be proved");
   (file_size_limit, mret (state_if (cap_file_size limits)),
    if cap_file_size limits
    then "exact RLIMIT_FSIZE realization and mutation sealing are available"
    else "exact RLIMIT_FSIZE realization could not be proved");
   (open_files_limit, mret (state_if (cap_open_files limits)),
    if cap_open_files limits
    then "exact RLIMIT_NOFILE realization and mutation sealing are available"
    else "exact RLIMIT_NOFILE realization could not be proved")].

Definition cancellation_text (value : bool) : string :=
  if value then "pidfd-backed process-group cancellation is available"
  else "pidfd-backed process-group cancellation could not be realized".

(** ** The host supervisor *)

Definition host_guarantees (containment descriptor_execution pidfd_cancellation : bool)
    (limits : resource_limit_capabilities) : list execution_guarantee :=
  add_resource_limit_guarantees
    ([g_closed_environment; g_root_view; g_writable_resources; g_fixed_credentials;
      g_complete_stdout_capture; g_complete_stderr_capture] ++
     (if descriptor_execution then [g_exact_interpreter] else []) ++
     (if containment then [g_cleanup_verified] else []) ++
     (if pidfd_cancellation then [g_cancellation] else [])) limits.

Definition host_clauses (fuel : nat) (containment descriptor cancellation : bool)
    : list (capability_kind * M W capability_state * string) :=
  [(process_supervision, mret available, "");
   (closed_environment, mret available, "");
   (current_root_view, mret available, "only the current / root view is admitted");
   (current_credentials, mret available, "only the supervisor's current credentials are admitted");
   (writable_resources, mret available, "resources must already exist at their logical paths");
   (complete_stream_capture, mret available, "");
   (process_group_containment, mret (state_if containment), "");
   (no_new_privileges_kind, mret (state_if containment), "");
   (descriptor_execution, mret (state_if descriptor), "");
   (close_range, probed probe_close_range, "");
   (pidfd, probed probe_pidfd, "");
   (pidfd_cancellation, mret (state_if cancellation), cancellation_text cancellation);
   (mount_namespace_kind, namespace_state fuel CLONE_NEWNS, "");
   (private_mount_propagation, mret unavailable, "host supervisor creates no mount namespace");
   (openat2, probed probe_openat2, "");
   (open_tree, mret unavailable, "host supervisor creates no detached mount trees");
   (move_mount, mret unavailable, "host supervisor attaches no mount trees");
   (mount_setattr, mret unavailable, "host supervisor applies no mount attributes");
   (chroot, mret unavailable, "host supervisor enters no alternate root");
   (capability_drop, probed (probe_capability_drop fuel), "");
   (user_namespace, namespace_state fuel CLONE_NEWUSER, "");
   (pid_namespace, namespace_state fuel CLONE_NEWPID, "");
   (network_namespace_kind, namespace_state fuel CLONE_NEWNET, "");
   (landlock, landlock_state, "");
   (cgroup_v2, cgroup_state, "");
   (loopback_configuration, mret unavailable, "host supervisor creates no private loopback view")].

Definition probe_host (fuel scan : nat) : M W capability_report :=
  containment ← probe_process_group_containment fuel;
  descriptor ← probe_descriptor_execution;
  cancellation ← (if (containment : bool) then probe_pidfd_cancellation fuel scan else mret false);
  limits ← probe_resource_limits fuel;
  seen ← observe_all (host_clauses fuel containment descriptor cancellation);
  more ← observe_all (limit_clauses limits);
  name ← backend_identity "host-supervisor";
  mret (mk_report (profile_seal name (host_guarantees containment descriptor cancellation limits))
          (seen ++ more)).

(** ** The isolated backend *)

(** The error of a failed setup, if it failed. *)
Definition mount_outcome (r : mount_setup_failure + unit) : option Z :=
  match r with inl f => Some (mount_error f) | inr _ => None end.
Definition network_outcome (r : network_setup_failure + unit) : option Z :=
  match r with inl f => Some (network_error f) | inr _ => None end.

Definition mount_text (r : mount_setup_failure + unit) : string :=
  match r with
  | inr _ => "private descriptor-oriented root and resource mounts are available"
  | inl f => errno_message (mount_stage_name (mount_stage f)) (mount_error f)
  end.
Definition network_text (r : network_setup_failure + unit) : string :=
  match r with
  | inr _ => "private network policy realization is available"
  | inl f => errno_message (network_stage_name (network_stage f)) (network_error f)
  end.

Definition succeeded {A B} (r : A + B) : bool := match r with inl _ => false | inr _ => true end.

Definition isolated_guarantees (containment descriptor_execution pidfd_cancellation : bool)
    (limits : resource_limit_capabilities) (capability_drop filesystem denied loopback : bool)
    : list execution_guarantee :=
  add_resource_limit_guarantees
    ([g_closed_environment; g_fixed_credentials; g_complete_stdout_capture;
      g_complete_stderr_capture] ++
     (if descriptor_execution then [g_exact_interpreter] else []) ++
     (if filesystem && capability_drop
      then [g_root_view; g_read_only_resources; g_writable_resources] else []) ++
     (if containment && filesystem then [g_cleanup_verified] else []) ++
     (if pidfd_cancellation then [g_cancellation] else [])) limits ++
  (if containment && capability_drop && denied then [g_network_denied] else []) ++
  (if containment && capability_drop && loopback then [g_loopback_isolated] else []).

Definition isolated_clauses (fuel : nat) (containment descriptor cancellation drop : bool)
    (filesystem : mount_setup_failure + unit) (denied loopback : network_setup_failure + unit)
    : list (capability_kind * M W capability_state * string) :=
  let mount_state := setup_state (mount_outcome filesystem) in
  let text := mount_text filesystem in
  [(process_supervision, mret available, "");
   (closed_environment, mret available, "");
   (current_root_view, mret mount_state,
    if succeeded filesystem then "the exact supplied root view is cloned read-only" else text);
   (current_credentials, mret available,
    "only the supervisor's current numeric credentials are admitted");
   (writable_resources, mret mount_state, text);
   (complete_stream_capture, mret available, "");
   (process_group_containment, mret (state_if containment), "");
   (no_new_privileges_kind, mret (state_if containment), "");
   (descriptor_execution, mret (state_if descriptor), "");
   (close_range, probed probe_close_range, "");
   (pidfd, probed probe_pidfd, "");
   (pidfd_cancellation, mret (state_if cancellation), cancellation_text cancellation);
   (mount_namespace_kind, mret mount_state, text);
   (private_mount_propagation, mret mount_state, text);
   (openat2, probed probe_openat2, "");
   (open_tree, mret mount_state, text);
   (move_mount, mret mount_state, text);
   (mount_setattr, mret mount_state, text);
   (chroot, mret mount_state, text);
   (capability_drop, mret (state_if drop), "");
   (user_namespace, namespace_state fuel CLONE_NEWUSER,
    "observed only; isolated backend does not create a user namespace");
   (pid_namespace, namespace_state fuel CLONE_NEWPID, "");
   (network_namespace_kind, mret (setup_state (network_outcome denied)), network_text denied);
   (landlock, landlock_state, "");
   (cgroup_v2, cgroup_state, "");
   (loopback_configuration, mret (setup_state (network_outcome loopback)), network_text loopback)].

Definition probe_isolated (fuel scan : nat) : M W capability_report :=
  containment ← probe_process_group_containment fuel;
  descriptor ← probe_descriptor_execution;
  cancellation ← (if (containment : bool) then probe_pidfd_cancellation fuel scan else mret false);
  limits ← probe_resource_limits fuel;
  drop ← probe_capability_drop fuel;
  filesystem ← probe_isolated_filesystem fuel;
  denied ← probe_network_policy fuel network_denied;
  loopback ← probe_network_policy fuel network_loopback_only;
  seen ← observe_all (isolated_clauses fuel containment descriptor cancellation drop
                        filesystem denied loopback);
  more ← observe_all (limit_clauses limits);
  name ← backend_identity "isolated-filesystem";
  mret (mk_report
    (profile_seal name (isolated_guarantees containment descriptor cancellation limits drop
       (succeeded filesystem) (succeeded denied) (succeeded loopback)))
    (seen ++ more)).

(** [capability_report::state]. *)
Definition report_state (report : capability_report) (kind : capability_kind)
    : M W capability_state :=
  match list_find (λ o, capability o = kind) (observations report) with
  | Some (_, o) => mret (state_of o)
  | None => fail invalid_value "unknown capability observation"
  end.

End capability.

(** ** Names *)

(** The vocabulary, in the order of the enumeration. *)
Definition vocabulary : list capability_kind :=
  [process_supervision; closed_environment; current_root_view; current_credentials;
   writable_resources; complete_stream_capture; process_group_containment;
   no_new_privileges_kind; descriptor_execution; close_range; pidfd; pidfd_cancellation;
   mount_namespace_kind; private_mount_propagation; openat2; open_tree; move_mount;
   mount_setattr; chroot; capability_drop; user_namespace; pid_namespace;
   network_namespace_kind; landlock; cgroup_v2; loopback_configuration;
   address_space_limit; file_size_limit; open_files_limit].

(** The inverse of [kind_to_string] on the vocabulary. *)
Definition kind_of_string (s : string) : option capability_kind :=
  snd <$> list_find (λ k, kind_to_string k = s) vocabulary.

(** A capability can be recovered from its name: the names of the vocabulary are
    distinct, and none of them is the name given to values outside it. *)
Theorem kind_names_roundtrip kind :
  valid_kind kind = true →
  kind_of_string (kind_to_string kind) = Some kind ∧ kind_to_string kind ≠ "unknown".
Proof. destruct kind; intros; try done; split; vm_compute; congruence. Qed.

Lemma kind_names_roundtrip_witness :
  kind_of_string "chroot" = Some chroot ∧ kind_to_string chroot ≠ "unknown".
Proof. apply (kind_names_roundtrip chroot). reflexivity. Defined.

(** ** Reports are complete *)

Section reports.
Context {W : Type} `{K : Kernel W} `{Lc : Libc} `{P : Pkgexec}.

(** Whatever a run returns satisfies [Q]; a child process of a probe does not return. *)
Definition gives {A} (Q : A → Prop) (m : M W A) : Prop := ∀ s a s', m s = (Done a, s') → Q a.

Lemma gives_ret {A} (Q : A → Prop) a : Q a → gives Q (mret a : M W A).
Proof. by intros ? s b s' [= <- _]. Qed.

Lemma gives_bind {A B} (R : A → Prop) (Q : B → Prop) (m : M W A) (k : A → M W B) :
  gives R m → (∀ a, R a → gives Q (k a)) → gives Q (m ≫= k).
Proof.
  intros Hm Hk s b s'. unfold mbind, M_bind. destruct (m s) as [[a|x|c|] s1] eqn:E; try done.
  apply Hk. by eapply Hm.
Qed.

Lemma gives_bind_any {A B} (Q : B → Prop) (m : M W A) (k : A → M W B) :
  (∀ a, gives Q (k a)) → gives Q (m ≫= k).
Proof. intros Hk. apply (gives_bind (λ _, True)); auto. by intros s a s'. Qed.

(** The observation of a clause: its capability, and a state its computation returned. *)
Definition observed_by (clause : capability_kind * M W capability_state * string)
    (o : capability_observation) : Prop :=
  capability o = clause.1.1 ∧ diagnostic o = clause.2 ∧
  ∃ s s', clause.1.2 s = (Done (state_of o), s').

Lemma gives_observe_all clauses :
  gives (Forall2 observed_by clauses) (observe_all (W := W) clauses).
Proof.
  induction clauses as [|[[kind state] text] rest IH]; cbn [observe_all].
  { by apply gives_ret. }
  apply (gives_bind (λ v, ∃ s s', state s = (Done v, s'))); [by intros s a s' E; exists s, s'|].
  intros v Hv. unfold make_observation, fail.
  apply (gives_bind (λ o, observed_by (kind, state, text) o)).
  { destruct (valid_kind kind), (valid_state v); simpl; try (by intros s a s').
    by apply gives_ret. }
  intros o Ho. eapply gives_bind; [exact IH|]. intros others Hothers.
  apply gives_ret. by constructor.
Qed.

(** The state a report gives for a capability. *)
Definition lookup_state (l : list capability_observation) (kind : capability_kind)
    : option capability_state := state_of ∘ snd <$> list_find (λ o, capability o = kind) l.

Lemma lookup_observed clauses l kind state text :
  Forall2 observed_by clauses l → NoDup clauses.*1.*1 → (kind, state, text) ∈ clauses →
  ∃ v s s', lookup_state l kind = Some v ∧ state s = (Done v, s').
Proof.
  unfold lookup_state. induction 1 as [|clause o clauses l Ho Hl IH]; intros Hnd Hin.
  { by apply elem_of_nil in Hin. }
  destruct Ho as (Hk & _ & s & s' & Hs). rewrite !fmap_cons in Hnd.
  apply NoDup_cons in Hnd as [Hnot Hnd].
  apply elem_of_cons in Hin as [<-|Hin].
  - simpl in *. rewrite decide_True by done. simpl. by exists (state_of o), s, s'.
  - simpl. rewrite decide_False.
    + destruct (IH Hnd Hin) as (v & t & t' & E & Hv). exists v, t, t'. split; [|done].
      rewrite <- E. by destruct (list_find _ l) as [[]|].
    + intros E. apply Hnot. rewrite <- Hk, E.
      apply list_elem_of_fmap. exists (kind, state). split; [done|].
      apply list_elem_of_fmap. by exists (kind, state, text).
Qed.

(** The state of a clause that does not probe anything. *)
Lemma lookup_constant clauses l kind v text :
  Forall2 observed_by clauses l → NoDup clauses.*1.*1 → (kind, mret v, text) ∈ clauses →
  lookup_state l kind = Some v.
Proof.
  intros Hl Hnd Hin. destruct (lookup_observed _ _ _ _ _ Hl Hnd Hin) as (v' & s & s' & E & Hs).
  by injection Hs as -> _.
Qed.

Lemma observed_capabilities clauses l :
  Forall2 observed_by clauses l → capability <$> l = clauses.*1.*1.
Proof.
  induction 1 as [|clause o clauses l Ho _ IH]; [done|]. destruct Ho as (Hk & _).
  rewrite !fmap_cons. by rewrite Hk, IH.
Qed.

(** What a run of each probe rests on. *)
Definition host_basis (fuel : nat) (containment descriptor cancellation : bool)
    (limits : resource_limit_capabilities) (r : capability_report) : Prop :=
  Forall2 observed_by (host_clauses fuel containment descriptor cancellation ++
                       limit_clauses limits) (observations r) ∧
  ∃ name, profile r =
          profile_seal name (host_guarantees containment descriptor cancellation limits).

Lemma gives_probe_host fuel scan :
  gives (λ r, ∃ containment descriptor cancellation limits,
    host_basis fuel containment descriptor cancellation limits r) (probe_host (W := W) fuel scan).
Proof.
  unfold probe_host. apply gives_bind_any; intros containment.
  apply gives_bind_any; intros descriptor. apply gives_bind_any; intros cancellation.
  apply gives_bind_any; intros limits.
  eapply gives_bind; [apply gives_observe_all|]. intros seen Hseen.
  eapply gives_bind; [apply gives_observe_all|]. intros more Hmore.
  apply gives_bind_any; intros name. apply gives_ret.
  exists containment, descriptor, cancellation, limits. split; [|by exists name].
  by apply Forall2_app.
Qed.

Definition isolated_basis (fuel : nat) (containment descriptor cancellation drop : bool)
    (limits : resource_limit_capabilities) (filesystem : mount_setup_failure + unit)
    (denied loopback : network_setup_failure + unit) (r : capability_report) : Prop :=
  Forall2 observed_by (isolated_clauses fuel containment descriptor cancellation drop
                         filesystem denied loopback ++ limit_clauses limits) (observations r) ∧
  ∃ name, profile r = profile_seal name (isolated_guarantees containment descriptor cancellation
            limits drop (succeeded filesystem) (succeeded denied) (succeeded loopback)).

Lemma gives_probe_isolated fuel scan :
  gives (λ r, ∃ containment descriptor cancellation drop limits filesystem denied loopback,
    isolated_basis fuel containment descriptor cancellation drop limits filesystem denied
      loopback r) (probe_isolated (W := W) fuel scan).
Proof.
  unfold probe_isolated. apply gives_bind_any; intros containment.
  apply gives_bind_any; intros descriptor. apply gives_bind_any; intros cancellation.
  apply gives_bind_any; intros limits. apply gives_bind_any; intros drop.
  apply gives_bind_any; intros filesystem. apply gives_bind_any; intros denied.
  apply gives_bind_any; intros loopback.
  eapply gives_bind; [apply gives_observe_all|]. intros seen Hseen.
  eapply gives_bind; [apply gives_observe_all|]. intros more Hmore.
  apply gives_bind_any; intros name. apply gives_ret.
  exists containment, descriptor, cancellation, drop, limits, filesystem, denied, loopback.
  split; [|by exists name]. by apply Forall2_app.
Qed.

Lemma vocabulary_nodup : NoDup vocabulary.
Proof. apply (bool_decide_unpack _). by vm_compute. Qed.

Lemma vocabulary_complete kind : valid_kind kind = true → kind ∈ vocabulary.
Proof. intros H. apply (bool_decide_unpack _). by destruct kind. Qed.

(** C32: A report answers for the whole vocabulary: both probes observe every capability
    once, in the order of the enumeration, so asking a report for the state of a
    capability never throws. *)
Theorem reports_complete fuel scan r kind (s s' t : mstate W) :
  probe_host fuel scan s = (Done r, s') ∨ probe_isolated fuel scan s = (Done r, s') →
  valid_kind kind = true →
  capability <$> observations r = vocabulary ∧
  ∃ v, report_state r kind t = (Done v, t) ∧ lookup_state (observations r) kind = Some v.
Proof.
  intros Hr Hk.
  assert (E : capability <$> observations r = vocabulary).
  { destruct Hr as [E|E].
    - apply gives_probe_host in E as (c & d & x & l & Hl & _). by apply observed_capabilities in Hl.
    - apply gives_probe_isolated in E as (c & d & x & p & l & f & n & b & Hl & _).
      by apply observed_capabilities in Hl. }
  split; [done|]. unfold report_state, lookup_state.
  destruct (list_find (λ o, capability o = kind) (observations r)) as [[i o]|] eqn:Ef.
  { by exists (state_of o). }
  exfalso. apply list_find_None in Ef. rewrite Forall_forall in Ef.
  pose proof (vocabulary_complete kind Hk) as Hin. rewrite <- E in Hin.
  apply list_elem_of_fmap in Hin as (o & -> & Ho). by eapply Ef.
Qed.

End reports.

(** ** Promises rest on observations *)

(** Sealing a profile keeps its guarantees. *)
Class SealLaws `{Pkgexec} : Prop :=
  seal_guarantees : ∀ name gs g, g ∈ profile_guarantees (profile_seal name gs) ↔ g ∈ gs.

(** The guarantees of the host supervisor, by the states of its report. *)
Definition host_promise (state : capability_kind → option capability_state)
    (g : execution_guarantee) : Prop :=
  match g with
  | g_closed_environment | g_root_view | g_writable_resources | g_fixed_credentials
  | g_complete_stdout_capture | g_complete_stderr_capture => True
  | g_exact_interpreter => state descriptor_execution = Some available
  | g_cleanup_verified => state process_group_containment = Some available
  | g_cancellation => state pidfd_cancellation = Some available
  | g_resource_limits => state address_space_limit = Some available ∨
      state file_size_limit = Some available ∨ state open_files_limit = Some available
  | g_address_space_limit => state address_space_limit = Some available
  | g_file_size_limit => state file_size_limit = Some available
  | g_open_files_limit => state open_files_limit = Some available
  | g_read_only_resources | g_network_denied | g_loopback_isolated | g_other _ => False
  end.

(** The guarantees of the isolated backend, by the states of its report. *)
Definition isolated_promise (state : capability_kind → option capability_state)
    (g : execution_guarantee) : Prop :=
  let up kind := state kind = Some available in
  match g with
  | g_closed_environment | g_fixed_credentials
  | g_complete_stdout_capture | g_complete_stderr_capture => True
  | g_root_view | g_read_only_resources | g_writable_resources =>
      up mount_namespace_kind ∧ up capability_drop
  | g_exact_interpreter => up descriptor_execution
  | g_cleanup_verified => up process_group_containment ∧ up mount_namespace_kind
  | g_cancellation => up pidfd_cancellation
  | g_resource_limits => up address_space_limit ∨ up file_size_limit ∨ up open_files_limit
  | g_address_space_limit => up address_space_limit
  | g_file_size_limit => up file_size_limit
  | g_open_files_limit => up open_files_limit
  | g_network_denied =>
      up process_group_containment ∧ up capability_drop ∧ up network_namespace_kind
  | g_loopback_isolated =>
      up process_group_containment ∧ up capability_drop ∧ up loopback_configuration
  | g_other _ => False
  end.

Lemma state_if_available b : Some (state_if b) = Some available ↔ b = true.
Proof. by destruct b. Qed.

Lemma setup_state_available {A} (r : A + unit) (f : A → Z) :
  Some (setup_state (match r with inl x => Some (f x) | inr _ => None end)) = Some available ↔
  succeeded r = true.
Proof.
  destruct r as [x|]; simpl; [|done]. by destruct (_ || _).
Qed.

Section promises.
Context {W : Type} `{K : Kernel W} `{Lc : Libc} `{P : Pkgexec} `{L : !SealLaws}.

(** Membership in a list that depends on flags only is decided by computation. *)
Ltac by_flags := rewrite <- (bool_decide_eq_true (_ ∈ _)); vm_compute; intuition congruence.

Definition limit_promised (limits : resource_limit_capabilities) (g : execution_guarantee) : Prop :=
  match g with
  | g_resource_limits => cap_address_space limits = true ∨ cap_file_size limits = true ∨
      cap_open_files limits = true
  | g_address_space_limit => cap_address_space limits = true
  | g_file_size_limit => cap_file_size limits = true
  | g_open_files_limit => cap_open_files limits = true
  | _ => False
  end.

Lemma elem_of_add_limits base limits g :
  g ∈ add_resource_limit_guarantees base limits ↔ g ∈ base ∨ limit_promised limits g.
Proof.
  unfold add_resource_limit_guarantees. destruct limits as [a f o]. simpl.
  destruct (negb a && negb f && negb o) eqn:E.
  - destruct a, f, o; try discriminate E. destruct g; simpl; intuition congruence.
  - rewrite elem_of_app.
    assert (g ∈ [g_resource_limits] ++ (if a then [g_address_space_limit] else []) ++
      (if f then [g_file_size_limit] else []) ++ (if o then [g_open_files_limit] else []) ↔
      limit_promised (mk_limit_capabilities a f o) g) as ->; [|done].
    destruct a, f, o; try discriminate E; destruct g; by_flags.
Qed.

Lemma host_base c d x g :
  g ∈ [g_closed_environment; g_root_view; g_writable_resources; g_fixed_credentials;
       g_complete_stdout_capture; g_complete_stderr_capture] ++
      (if d : bool then [g_exact_interpreter] else []) ++
      (if c : bool then [g_cleanup_verified] else []) ++
      (if x : bool then [g_cancellation] else []) ↔
  match g with
  | g_closed_environment | g_root_view | g_writable_resources | g_fixed_credentials
  | g_complete_stdout_capture | g_complete_stderr_capture => True
  | g_exact_interpreter => d = true
  | g_cleanup_verified => c = true
  | g_cancellation => x = true
  | _ => False
  end.
Proof. destruct c, d, x; destruct g; by_flags. Qed.

Lemma isolated_base c d x fs drop g :
  g ∈ [g_closed_environment; g_fixed_credentials; g_complete_stdout_capture;
       g_complete_stderr_capture] ++
      (if d : bool then [g_exact_interpreter] else []) ++
      (if fs && drop then [g_root_view; g_read_only_resources; g_writable_resources] else []) ++
      (if c && fs then [g_cleanup_verified] else []) ++
      (if x : bool then [g_cancellation] else []) ↔
  match g with
  | g_closed_environment | g_fixed_credentials
  | g_complete_stdout_capture | g_complete_stderr_capture => True
  | g_root_view | g_read_only_resources | g_writable_resources => fs = true ∧ drop = true
  | g_exact_interpreter => d = true
  | g_cleanup_verified => c = true ∧ fs = true
  | g_cancellation => x = true
  | _ => False
  end.
Proof. destruct c, d, x, fs, drop; destruct g; by_flags. Qed.

Lemma isolated_network c drop denied loopback g :
  g ∈ (if c && drop && denied then [g_network_denied] else []) ++
      (if c && drop && loopback then [g_loopback_isolated] else []) ↔
  match g with
  | g_network_denied => c = true ∧ drop = true ∧ denied = true
  | g_loopback_isolated => c = true ∧ drop = true ∧ loopback = true
  | _ => False
  end.
Proof. destruct c, drop, denied, loopback; destruct g; by_flags. Qed.

(** The states of a report, clause by clause. *)
Lemma host_states fuel c d x limits r :
  host_basis fuel c d x limits r →
  let state := lookup_state (observations r) in
  state descriptor_execution = Some (state_if d) ∧
  state process_group_containment = Some (state_if c) ∧
  state pidfd_cancellation = Some (state_if x) ∧
  state address_space_limit = Some (state_if (cap_address_space limits)) ∧
  state file_size_limit = Some (state_if (cap_file_size limits)) ∧
  state open_files_limit = Some (state_if (cap_open_files limits)).
Proof.
  intros [Hl _] state. assert (Hn := vocabulary_nodup).
  split_and!; eapply lookup_constant; try exact Hl; try exact Hn;
    repeat (apply elem_of_cons; first [left; reflexivity|right]).
Qed.

Lemma isolated_states fuel c d x drop limits fs denied loopback r :
  isolated_basis fuel c d x drop limits fs denied loopback r →
  let state := lookup_state (observations r) in
  (state descriptor_execution = Some (state_if d) ∧
   state process_group_containment = Some (state_if c) ∧
   state pidfd_cancellation = Some (state_if x) ∧
   state capability_drop = Some (state_if drop) ∧
   state address_space_limit = Some (state_if (cap_address_space limits)) ∧
   state file_size_limit = Some (state_if (cap_file_size limits)) ∧
   state open_files_limit = Some (state_if (cap_open_files limits))) ∧
  state mount_namespace_kind = Some (setup_state (mount_outcome fs)) ∧
  state network_namespace_kind = Some (setup_state (network_outcome denied)) ∧
  state loopback_configuration = Some (setup_state (network_outcome loopback)).
Proof.
  intros [Hl _] state. assert (Hn := vocabulary_nodup).
  split_and!; eapply lookup_constant; try exact Hl; try exact Hn;
    repeat (apply elem_of_cons; first [left; reflexivity|right]).
Qed.

(** C22: The profile of the host supervisor promises exactly what its own report shows to
    be available: descriptor execution for the exact interpreter, containment for
    verified cleanup, pidfd cancellation for cancellation, each limit for itself; the
    guarantees it keeps by construction always; and isolation never. *)
Theorem host_profile_matches_report fuel scan r g (s s' : mstate W) :
  probe_host fuel scan s = (Done r, s') →
  g ∈ profile_guarantees (profile r) ↔ host_promise (lookup_state (observations r)) g.
Proof.
  intros E. apply gives_probe_host in E as (c & d & x & limits & Hb).
  pose proof (host_states _ _ _ _ _ _ Hb) as (S1 & S2 & S3 & S4 & S5 & S6).
  destruct Hb as [_ [name ->]]. rewrite seal_guarantees. unfold host_guarantees.
  rewrite elem_of_add_limits, host_base. unfold host_promise.
  rewrite S1, S2, S3, S4, S5, S6. destruct g; simpl; rewrite ?state_if_available; tauto.
Qed.

(** C21: The profile of the isolated backend promises exactly what its own report shows:
    the root view and the resources need the mount realization and the capability
    drop, verified cleanup needs containment and the mount realization, and each
    network policy needs containment, the capability drop and its own probe. *)
Theorem isolated_profile_matches_report fuel scan r g (s s' : mstate W) :
  probe_isolated fuel scan s = (Done r, s') →
  g ∈ profile_guarantees (profile r) ↔ isolated_promise (lookup_state (observations r)) g.
Proof.
  intros E. apply gives_probe_isolated in E as (c & d & x & drop & limits & fs & n & b & Hb).
  pose proof (isolated_states _ _ _ _ _ _ _ _ _ _ Hb) as
    ((S1 & S2 & S3 & S4 & S5 & S6 & S7) & S8 & S9 & S10).
  destruct Hb as [_ [name ->]]. rewrite seal_guarantees. unfold isolated_guarantees.
  rewrite elem_of_app, elem_of_add_limits, isolated_base, isolated_network.
  unfold isolated_promise, mount_outcome, network_outcome in *.
  rewrite S1, S2, S3, S4, S5, S6, S7, S8, S9, S10.
  destruct g; simpl; rewrite ?state_if_available, ?setup_state_available; tauto.
Qed.

End promises.

(** ** Runs *)

#[export] Instance plain_seal_laws : @SealLaws plain_pkgexec.
Proof. by intros name gs g. Qed.

(** A kernel on which no process can be created and that executes by descriptor. *)
Definition bare_kernel : Kernel nat := scripted (λ n R c,
  match c in call R return R with
  | sys_execveat _ _ _ _ _ => Err 9
  | ssl_digest_init => true
  | ssl_digest_update _ => true
  | ssl_digest_final => Some (replicate 32 171)
  | c => default_answer c
  end).

Lemma bare_host_returns :
  ∃ r s', @probe_host nat bare_kernel plain_pkgexec 3 3 (start 0%nat) = (Done r, s').
Proof. eexists _, _. vm_compute. reflexivity. Qed.

Lemma bare_isolated_returns :
  ∃ r s', @probe_isolated nat bare_kernel plain_libc plain_pkgexec 3 3 (start 0%nat) = (Done r, s').
Proof. eexists _, _. vm_compute. reflexivity. Qed.

Lemma reports_complete_witness :
  ∃ r v, lookup_state (@observations plain_pkgexec r) landlock = Some v.
Proof.
  destruct bare_isolated_returns as (r & s' & E).
  destruct (@reports_complete nat bare_kernel plain_libc plain_pkgexec 3 3 r landlock
    (start 0%nat) s' (start 0%nat) (or_intror E) eq_refl) as (_ & v & _ & Hv).
  exists r, v. exact Hv.
Defined.

Lemma host_profile_matches_report_witness :
  ∃ r, g_exact_interpreter ∈ profile_guarantees (@profile plain_pkgexec r) ↔
       host_promise (lookup_state (@observations plain_pkgexec r)) g_exact_interpreter.
Proof.
  destruct bare_host_returns as (r & s' & E). exists r.
  exact (@host_profile_matches_report nat bare_kernel plain_pkgexec _ 3 3 r
    g_exact_interpreter (start 0%nat) s' E).
Defined.

Lemma isolated_profile_matches_report_witness :
  ∃ r, g_network_denied ∈ profile_guarantees (@profile plain_pkgexec r) ↔
       isolated_promise (lookup_state (@observations plain_pkgexec r)) g_network_denied.
Proof.
  destruct bare_isolated_returns as (r & s' & E). exists r.
  exact (@isolated_profile_matches_report nat bare_kernel plain_libc plain_pkgexec _ 3 3 r
    g_network_denied (start 0%nat) s' E).
Defined.
