(* ===== verification/Child.v ===== *)
(** * Requests and the child process (src/backend.cpp, first half)

    The environment and the checks on the shape of a request, the failure record a
    child sends before the program runs, and [child_main], the code of the child from
    [fork] to the execution of the interpreter. A successful [execveat] ends the code
    of the child: the outcome is [Exited EXECUTED], a code no call of [_exit] gives. *)

From stdpp Require Import pretty.
From S2P Require Import Prelude Machine Linux Logic Posix Script Pkgexec Bytes Records.
From S2P Require Import Containment ResourceLimits ProcFs ProcessControl Network Paths Support.
From S2P Require Import Yields Admission Realization.
Local Open Scope string_scope.
Local Open Scope list_scope.
Local Open Scope Z_scope.

(** ** Environment *)

(** [join_path]: [result] is the text built so far. *)
Fixpoint join_from (result : string) (values : list string) : string :=
  match values with
  | [] => result
  | value :: rest =>
      join_from ((if bool_decide (result = "") then result else result +:+ ":") +:+ value) rest
  end.
Definition join_path (values : list string) : string := join_from "" values.

Definition make_environment (policy : environment_policy) : list string :=
  ["PATH=" +:+ join_path (executable_search_path policy);
   "HOME=" +:+ home_directory policy;
   "LANG=C.UTF-8"; "LC_ALL=C.UTF-8"; "TZ=UTC";
   "TMPDIR=" +:+ temporary_directory policy;
   "PKGEXEC_JOBS=" +:+ pretty (parallelism policy)] ++
  (match source_date_epoch policy with
   | Some epoch => ["SOURCE_DATE_EPOCH=" +:+ pretty epoch]
   | None => []
   end) ++
  ((λ v : string * string, v.1 +:+ "=" +:+ v.2) <$> additional_variables policy).

Section requests.
Context {W : Type} `{K : Kernel W} `{Lc : Libc} `{P : Pkgexec}.

(** ** Pipes *)

Record pipe_pair : Set := mk_pipe { pipe_read : Z; pipe_write : Z }.

Definition make_pipe : M W pipe_pair :=
  values ← attempt (sys_pipe2 O_CLOEXEC);
  match values with
  | None => fail_errno invalid_value "pipe2"
  | Some (r, w) => mret (mk_pipe r w)
  end.

Definition set_nonblocking (fd : Z) : M W unit :=
  flags ← attempt (sys_fcntl_getfl fd);
  okay ← (match flags with
          | None => mret false
          | Some flags => succeeds (sys_fcntl_setfl fd (Z.lor flags O_NONBLOCK))
          end);
  if (okay : bool) then mret tt else fail_errno invalid_value "fcntl".

(** ** The shape of a request *)

(** The comparison of the requested credentials with the supervisor's, in the order of
    the operands of [||]. *)
Definition foreign_credentials (credentials : credential_policy) : M W bool :=
  uid ← issue sys_getuid;
  if negb (user_id credentials =? uid) then mret true
  else
  gid ← issue sys_getgid;
  if negb (group_id credentials =? gid) then mret true
  else
  groups ← current_groups;
  mret (negb (bool_decide (supplementary_groups credentials = groups))).

(** The loop over the bindings of a host request: the text of the first objection. *)
Fixpoint validate_host_bindings (resources : execution_resources) (bs : list resource_binding)
    : M W string :=
  match bs with
  | [] => mret ""
  | b :: rest =>
      if negb (bool_decide (access b = writable)) then
        mret "host supervisor does not realize read-only resources"
      else
      match materialization resources (resource b) with
      | inl x => throw x
      | inr host =>
      if negb (is_absolute host) ||
         negb (path_eqb (lexically_normal host) (lexically_normal (mount_point b))) then
        mret "resource is not already present at its logical path"
      else
      linked ← path_has_symlink_component host;
      if (linked : bool) then mret "resource path contains a symlink component"
      else
      info ← attempt (sys_stat host);
      if negb (match info with Some i => S_ISDIR (st_mode i) | None => false end) then
        mret "resource path is not an existing directory"
      else
      allowed ← succeeds (sys_access host (Z.lor W_OK X_OK));
      if negb allowed then mret "resource path is not writable by the requested credentials"
      else validate_host_bindings resources rest
      end
  end.

Definition validate_host_request_shape (request : execution_request)
    (resources : execution_resources) : M W string :=
  if negb (path_eqb (root_view_path resources) "/") then
    mret "host supervisor admits only the current / root view"
  else if negb (bool_decide (network (environment request) = network_allowed)) then
    mret "host supervisor does not isolate networking"
  else if negb (no_new_privileges (credentials request)) then
    mret "host supervisor requires no-new-privileges containment"
  else
  foreign ← foreign_credentials (credentials request);
  if (foreign : bool) then mret "host supervisor admits only its current credentials"
  else
  objection ← validate_host_bindings resources (bindings request);
  if negb (bool_decide (objection = "")) then mret objection
  else
  match materialization resources (resource (working request)) with
  | inl x => throw x
  | inr host =>
      searchable ← succeeds (sys_access host X_OK);
      if negb searchable then mret "working directory is not searchable" else mret ""
  end.

Definition validate_isolated_request_shape (request : execution_request) : M W string :=
  if negb (no_new_privileges (credentials request)) then
    mret "isolated filesystem backend requires no-new-privileges containment"
  else
  foreign ← foreign_credentials (credentials request);
  if (foreign : bool) then
    mret "isolated filesystem backend admits only its current credentials"
  else mret "".

End requests.

(** ** The failure record of the child *)

Inductive child_stage : Set :=
| process_group_stage | standard_streams_stage | mount_isolation_stage
| network_isolation_stage | working_directory_stage | capability_drop_child_stage
| containment_stage | resource_limits_stage | execute_stage
| child_stage_other (n : Z).

Definition child_stages : list child_stage :=
  [process_group_stage; standard_streams_stage; mount_isolation_stage; network_isolation_stage;
   working_directory_stage; capability_drop_child_stage; containment_stage;
   resource_limits_stage; execute_stage].

#[export] Instance child_stage_eq_dec : EqDecision child_stage.
Proof. solve_decision. Defined.

Definition child_stage_number (stage : child_stage) : Z :=
  match stage with
  | child_stage_other n => n
  | _ => match list_find (eq stage) child_stages with Some (i, _) => Z.of_nat i | None => 0 end
  end.
Definition child_stage_of_number (n : Z) : child_stage :=
  default (child_stage_other n) (if 0 <=? n then child_stages !! Z.to_nat n else None).

(** [struct child_error]: twelve bytes. *)
Record child_error : Set := mk_child_error {
  error_stage : child_stage;
  error_value : Z;
  error_detail : Z
}.
Definition sizeof_child_error : nat := 12.

Definition encode_child_error (f : child_error) : list Z :=
  le_bytes 4 (child_stage_number (error_stage f)) ++ le_bytes 4 (of_i32 (error_value f)) ++
  le_bytes 4 (error_detail f).
Definition decode_child_error (bytes : list Z) : child_error :=
  mk_child_error (child_stage_of_number (le_value (take 4 bytes)))
    (to_i32 (le_value (take 4 (drop 4 bytes)))) (le_value (take 4 (drop 8 bytes))).

Definition child_failure_kind (failure : child_error) : execution_failure_kind :=
  match error_stage failure with
  | working_directory_stage | resource_limits_stage => resource_admission_failed
  | mount_isolation_stage | network_isolation_stage | capability_drop_child_stage
  | containment_stage | process_group_stage => isolation_setup_failed
  | standard_streams_stage => process_start_failed
  | execute_stage =>
      if error_value failure =? ENOENT then interpreter_unavailable else process_start_failed
  | child_stage_other _ => process_start_failed
  end.

(** The value [resource_limit_stage_name] gives for a number read from a record. *)
Definition resource_limit_stage_of_number (n : Z) : option resource_limit_setup_stage :=
  if n =? 0 then Some stage_address_space else if n =? 1 then Some stage_file_size
  else if n =? 2 then Some stage_open_files else None.
Definition resource_limit_stage_number (stage : resource_limit_setup_stage) : Z :=
  match stage with stage_address_space => 0 | stage_file_size => 1 | stage_open_files => 2 end.

Definition child_operation (failure : child_error) : string :=
  match error_stage failure with
  | process_group_stage => "setsid"
  | standard_streams_stage => "standard stream setup"
  | mount_isolation_stage => mount_stage_name (mount_stage_of_number (error_detail failure))
  | network_isolation_stage => network_stage_name (network_stage_of_number (error_detail failure))
  | working_directory_stage => "chdir"
  | capability_drop_child_stage => "capability drop"
  | containment_stage => "seccomp containment"
  | resource_limits_stage =>
      match resource_limit_stage_of_number (error_detail failure) with
      | Some stage => resource_limit_stage_name stage
      | None => "resource limit"
      end
  | execute_stage => "execve"
  | child_stage_other _ => "child setup"
  end.
Definition child_failure_diagnostic `{Libc} (failure : child_error) : string :=
  errno_message (child_operation failure) (error_value failure).

(** ** The child *)

(** The outcome of a process whose code ended in a successful [execveat]. *)
Definition EXECUTED : Z := -1.

Record child_configuration : Type := mk_child_configuration {
  child_input : stdin_policy;
  child_output : stream_policy;
  child_error_output : stream_policy;
  child_mask : Z;
  working_directory : string;
  isolation : option isolated_admission;
  child_network : network_policy;
  child_limits : resource_limits;
  interpreter_fd : Z;
  child_arguments : list string;
  child_environment : list string
}.

(** The pipes between supervisor and child. *)
Record pipes : Set := mk_pipes {
  standard_output_pipe : pipe_pair;
  standard_error_pipe : pipe_pair;
  control_pipe : pipe_pair;
  ready_pipe : pipe_pair;
  start_pipe : pipe_pair
}.

Section child.
Context {W : Type} `{K : Kernel W}.

Definition report_child_error (fuel : nat) (fd : Z) (stage : child_stage) (value detail : Z)
    : M W unit :=
  write_record fuel fd (encode_child_error (mk_child_error stage value detail)).

(** [report_child_error(control_fd, stage, value, detail); _exit(125);]. *)
Definition give_up_child {A} (fuel : nat) (fd : Z) (stage : child_stage) (value detail : Z) : M W A :=
  report_child_error fuel fd stage value detail;;
  exit_process 125.
Definition give_up_errno {A} (fuel : nat) (fd : Z) (stage : child_stage) : M W A :=
  e ← get_errno; give_up_child fuel fd stage e 0.

(** The lambda [redirect]. *)
Definition redirect (target : Z) (pipe : pipe_pair) (policy : stream_policy) : M W bool :=
  match policy with
  | capture_complete => succeeds (sys_dup2 (pipe_write pipe) target)
  | stream_other _ =>
      null_fd ← descriptor (sys_open "/dev/null" (Z.lor O_WRONLY O_CLOEXEC));
      if null_fd <? 0 then mret false
      else
        okay ← succeeds (sys_dup2 null_fd target);
        ignore (sys_close null_fd);;
        mret okay
  end.

(** Standard input: closed, or the null device; [inl errno] when that fails. *)
Definition setup_input (policy : stdin_policy) : M W (Z + unit) :=
  match policy with
  | stdin_closed => ignore (sys_close STDIN_FILENO);; mret (inr tt)
  | stdin_null_device =>
      null_fd ← descriptor (sys_open "/dev/null" (Z.lor O_RDONLY O_CLOEXEC));
      okay ← (if null_fd <? 0 then mret false else succeeds (sys_dup2 null_fd STDIN_FILENO));
      if negb okay then
        saved ← get_errno;
        (if 0 <=? null_fd then ignore (sys_close null_fd) else mret tt);;
        mret (inl saved)
      else ignore (sys_close null_fd);; mret (inr tt)
  end.

(** The isolation of an isolated request; [inl] is the report of the failure. *)
Definition setup_isolation (fuel : nat) (configuration : child_configuration)
    : M W (child_error + unit) :=
  match isolation configuration with
  | None => mret (inr tt)
  | Some admission =>
      r ← setup_isolated_filesystem admission;
      match r with
      | inl f => mret (inl (mk_child_error mount_isolation_stage (mount_error f)
                              (mount_stage_number (mount_stage f))))
      | inr _ =>
          r ← setup_network_policy fuel (child_network configuration);
          match r with
          | inl f => mret (inl (mk_child_error network_isolation_stage (network_error f)
                                  (network_stage_number (network_stage f))))
          | inr _ => mret (inr tt)
          end
      end
  end.

(** The handshake: one byte to the supervisor, then wait for its byte. *)
Definition announce_ready (fuel : nat) (ready_write : Z) : M W bool :=
  count ← retry_eintr fuel (sys_write ready_write [1]);
  fd_reset ready_write (-1);;
  mret (bool_decide (count = Some 1)).
Definition await_start (fuel : nat) (start_read : Z) : M W bool :=
  bytes ← retry_eintr fuel (sys_read start_read 1);
  fd_reset start_read (-1);;
  mret (bool_decide (bytes = Some [1])).

(** From the released start gate to the execution of the interpreter. *)
Definition execute_interpreter {A} (fuel : nat) (configuration : child_configuration)
    (control_fd : Z) : M W A :=
  close_fds_except control_fd (interpreter_fd configuration);;
  r ← attempt (sys_execveat (interpreter_fd configuration) "" (child_arguments configuration)
                 (child_environment configuration) AT_EMPTY_PATH);
  match r with
  | Some _ => exit_process EXECUTED
  | None =>
      e ← get_errno;
      report_child_error fuel control_fd execute_stage e 0;;
      exit_process 127
  end.

(** The last part of the setup, from the file-creation mask on. *)
Definition confine_child {A} (fuel : nat) (configuration : child_configuration) (ps : pipes)
    : M W A :=
  let control_fd := pipe_write (control_pipe ps) in
  issue (sys_umask (child_mask configuration));;
  changed ← succeeds (sys_chdir (working_directory configuration));
  if negb changed then give_up_errno fuel control_fd working_directory_stage
  else
  dropped ← (match isolation configuration with
             | Some _ => drop_process_capabilities
             | None => mret true
             end);
  if negb dropped then give_up_errno fuel control_fd capability_drop_child_stage
  else
  limited ← setup_resource_limits (child_limits configuration);
  match limited with
  | inl f =>
      give_up_child fuel control_fd resource_limits_stage (limit_error f)
        (resource_limit_stage_number (limit_stage f))
  | inr _ =>
  contained ← install_process_group_containment (negb (limits_empty (child_limits configuration)));
  if negb contained then give_up_errno fuel control_fd containment_stage
  else
  announced ← announce_ready fuel (pipe_write (ready_pipe ps));
  if negb announced then exit_process 125
  else
  started ← await_start fuel (pipe_read (start_pipe ps));
  if negb started then exit_process 125
  else execute_interpreter fuel configuration control_fd
  end.

Definition child_main {A} (fuel : nat) (configuration : child_configuration) (ps : pipes) : M W A :=
  let control_fd := pipe_write (control_pipe ps) in
  session ← attempt sys_setsid;
  match session with
  | None => give_up_errno fuel control_fd process_group_stage
  | Some _ =>
  input ← setup_input (child_input configuration);
  match input with
  | inl saved => give_up_child fuel control_fd standard_streams_stage saved 0
  | inr _ =>
  okay ← redirect STDOUT_FILENO (standard_output_pipe ps) (child_output configuration);
  okay ← (if (okay : bool)
          then redirect STDERR_FILENO (standard_error_pipe ps) (child_error_output configuration)
          else mret false);
  if negb okay then give_up_errno fuel control_fd standard_streams_stage
  else
  isolated ← setup_isolation fuel configuration;
  match isolated with
  | inl f => give_up_child fuel control_fd (error_stage f) (error_value f) (error_detail f)
  | inr _ => confine_child fuel configuration ps
  end
  end
  end.

End child.

(** ** Nothing but the child's own ends leaves the process *)

Section stays.
Context {W : Type} `{K : Kernel W} (P : event → Prop) `{!Silent P}.

Lemma noexcept_write_record fuel fd bytes `{!MayWrite P fd} : noexcept P (write_record (W := W) fuel fd bytes).
Proof.
  revert bytes. induction fuel as [|n IH]; intros [|b bytes]; cbn [write_record]; noexcept_auto;
    done || apply IH.
Qed.
Lemma noexcept_report fuel fd stage value detail `{!MayWrite P fd} :
  noexcept P (report_child_error (W := W) fuel fd stage value detail).
Proof. by apply noexcept_write_record. Qed.
Lemma noexcept_redirect target pipe policy : noexcept P (redirect (W := W) target pipe policy).
Proof. unfold redirect. by noexcept_auto. Qed.
Lemma noexcept_setup_input policy : noexcept P (setup_input (W := W) policy).
Proof. unfold setup_input. by noexcept_auto. Qed.
Lemma noexcept_announce fuel fd `{!MayWrite P fd} : noexcept P (announce_ready (W := W) fuel fd).
Proof. unfold announce_ready, fd_reset. by noexcept_auto. Qed.
Lemma noexcept_await fuel fd : noexcept P (await_start (W := W) fuel fd).
Proof. unfold await_start, fd_reset. by noexcept_auto. Qed.
Lemma noexcept_drop : noexcept P (drop_process_capabilities (W := W)).
Proof. unfold drop_process_capabilities. by noexcept_auto. Qed.
Lemma noexcept_containment seal : noexcept P (install_process_group_containment (W := W) seal).
Proof. unfold install_process_group_containment. by noexcept_auto. Qed.
Lemma noexcept_setup_requested resource value stage :
  noexcept P (setup_requested (W := W) resource value stage).
Proof. unfold setup_requested, setup_one, exact_value, limit_fail. by noexcept_auto. Qed.
Lemma noexcept_limits limits : noexcept P (setup_resource_limits (W := W) limits).
Proof. unfold setup_resource_limits. noexcept_auto; done || apply noexcept_setup_requested. Qed.
Lemma noexcept_close_each count fd a b : noexcept P (close_each (W := W) count fd a b).
Proof. revert fd. induction count as [|n IH]; intros fd; simpl; noexcept_auto; done || apply IH. Qed.
Lemma noexcept_close_fds_except a b : noexcept P (close_fds_except (W := W) a b).
Proof.
  unfold close_fds_except. destruct (if _ <? _ then _ else _) as [x y].
  noexcept_auto; done || apply noexcept_close_each.
Qed.

Lemma noexcept_send_netlink fuel fd m : noexcept P (send_netlink (W := W) fuel fd m).
Proof. induction fuel as [|n IH]; simpl; by noexcept_auto. Qed.
Lemma noexcept_conclude v : noexcept P (conclude (W := W) v).
Proof. unfold conclude. by noexcept_auto. Qed.
Lemma noexcept_receive_ack fuel fd seq : noexcept P (receive_ack (W := W) fuel fd seq).
Proof.
  induction fuel as [|n IH]; cbn [receive_ack]; noexcept_auto; try done; apply noexcept_conclude.
Qed.
Lemma noexcept_collect_links fuel fd seq snap :
  noexcept P (collect_links (W := W) fuel fd seq snap).
Proof.
  revert snap. induction fuel as [|n IH]; intros snap; cbn [collect_links]; noexcept_auto;
    try done; try apply IH; apply noexcept_conclude.
Qed.
Lemma noexcept_inspect_links fuel fd : noexcept P (inspect_links (W := W) fuel fd).
Proof.
  unfold inspect_links. noexcept_auto; try done; try apply noexcept_send_netlink;
    apply noexcept_collect_links.
Qed.
Lemma noexcept_set_link_up fuel fd i up : noexcept P (set_link_up (W := W) fuel fd i up).
Proof.
  unfold set_link_up. noexcept_auto; try done; try apply noexcept_send_netlink;
    apply noexcept_receive_ack.
Qed.
Lemma noexcept_network fuel policy : noexcept P (setup_network_policy (W := W) fuel policy).
Proof.
  unfold setup_network_policy, open_route_socket, network_fail.
  noexcept_auto; try done; try apply noexcept_inspect_links; apply noexcept_set_link_up.
Qed.

Lemma noexcept_same_inode fd expected : noexcept P (same_inode (W := W) fd expected).
Proof. unfold same_inode. by noexcept_auto. Qed.

Lemma noexcept_require test stage next :
  noexcept P test → noexcept P next →
  noexcept P (require (W := W) test stage next).
Proof. intros. unfold require, mount_fail. by noexcept_auto. Qed.
Lemma noexcept_then part next :
  noexcept P part → noexcept P next →
  noexcept P (then_ (W := W) part next).
Proof. intros. unfold then_. by noexcept_auto. Qed.
Hint Resolve noexcept_require noexcept_then noexcept_same_inode : noexcept.

Lemma noexcept_realize_bindings bs acc :
  noexcept P (realize_bindings (W := W) bs acc).
Proof.
  revert acc. induction bs as [|b bs IH]; intros acc; cbn [realize_bindings];
    unfold clone_tree, seal_tree; noexcept_auto; done || apply IH.
Qed.
Lemma noexcept_make_children path names : noexcept P (make_children (W := W) path names).
Proof. induction names; simpl; by noexcept_auto. Qed.
Lemma noexcept_namespaces fd path spaces :
  noexcept P (realize_namespaces (W := W) fd path spaces).
Proof.
  induction spaces as [|ns spaces IH]; cbn [realize_namespaces]; unfold open_beneath;
    [by noexcept_auto|].
  apply noexcept_then; [|done]. noexcept_auto; try done. apply noexcept_require; auto with noexcept.
  apply noexcept_make_children.
Qed.
Lemma noexcept_attach fd trees bs : noexcept P (attach_bindings (W := W) fd trees bs).
Proof.
  revert trees. induction bs as [|b bs IH]; intros [|t trees]; cbn [attach_bindings];
    [by noexcept_auto..|].
  apply noexcept_then; [|apply IH]. unfold attach_binding, open_beneath, attach_tree, mount_fail.
  noexcept_auto; try done. apply noexcept_require; auto with noexcept. by noexcept_auto.
Qed.
Lemma noexcept_seal_namespaces fd spaces : noexcept P (seal_namespaces (W := W) fd spaces).
Proof.
  induction spaces as [|ns spaces IH]; cbn [seal_namespaces]; [by noexcept_auto|].
  apply noexcept_then; [|done]. unfold open_beneath, mount_fail, seal_namespace_mount.
  by noexcept_auto.
Qed.
Lemma noexcept_create_private_root a : noexcept P (create_private_root (W := W) a).
Proof.
  unfold create_private_root, clone_tree, seal_tree, mount_fail.
  noexcept_auto; try done; try apply noexcept_realize_bindings.
  unfold realize_in_namespace, mkdir_or_exists, open_exact_path, attach_tree, mount_fail,
    realize_devices, enter_root.
  repeat first [apply noexcept_require | apply noexcept_then | apply noexcept_namespaces
    | apply noexcept_attach | apply noexcept_seal_namespaces | progress noexcept_auto].
Qed.
Lemma noexcept_setup_isolation fuel cfg : noexcept P (setup_isolation (W := W) fuel cfg).
Proof.
  unfold setup_isolation, setup_isolated_filesystem.
  noexcept_auto; try done; try apply noexcept_create_private_root; apply noexcept_network.
Qed.

End stays.

#[export] Hint Extern 1 (MayWrite _ _) => (apply _) : noexcept.
#[export] Hint Resolve noexcept_write_record noexcept_report noexcept_redirect noexcept_setup_input noexcept_announce
  noexcept_await noexcept_drop noexcept_containment noexcept_limits noexcept_close_fds_except
  noexcept_setup_isolation : noexcept.

(** ** A child that executes its program *)

Definition willing_kernel : Kernel nat := scripted (λ n R c,
  match c in call R return R with
  | sys_setsid => Ok 9
  | sys_close _ => Ok tt
  | sys_dup2 _ fd => Ok fd
  | sys_chdir _ => Ok tt
  | sys_prctl_set_no_new_privs => Ok tt
  | sys_prctl_set_seccomp _ => Ok tt
  | sys_write _ _ => Ok 1
  | sys_read _ _ => Ok [1]
  | sys_close_range _ _ _ => Ok tt
  | sys_execveat _ _ _ _ _ => Ok tt
  | c => default_answer c
  end).

Definition sample_pipes : pipes :=
  mk_pipes (mk_pipe 3 4) (mk_pipe 5 6) (mk_pipe 7 8) (mk_pipe 9 10) (mk_pipe 11 12).

Definition sample_configuration : child_configuration :=
  mk_child_configuration stdin_closed capture_complete capture_complete 18 "/work" None
    network_allowed (mk_limits None None None true) 13 ["/bin/sh"; "-c"; "true"; "pkgexec"]
    (make_environment sample_environment).

Lemma sample_child_executes :
  ∃ s', @child_main nat willing_kernel unit 3 sample_configuration sample_pipes (start 0%nat) =
        (Exited EXECUTED, s').
Proof. eexists. vm_compute. reflexivity. Qed.

(** ** The failure record *)

(** A failure the child can report: a stage of the enumeration, a C [int] and a
    [std::uint32_t]. *)
Definition reportable_error (f : child_error) : Prop :=
  child_stage_of_number (child_stage_number (error_stage f)) = error_stage f ∧
  0 ≤ child_stage_number (error_stage f) < 2 ^ 32 ∧
  - 2 ^ 31 ≤ error_value f < 2 ^ 31 ∧ 0 ≤ error_detail f < 2 ^ 32.

Lemma child_error_roundtrip f :
  reportable_error f → decode_child_error (encode_child_error f) = f.
Proof.
  destruct f as [stage value detail]. intros (Hs & Hn & Hv & Hd). simpl in *.
  unfold decode_child_error, encode_child_error.
  simpl error_stage. simpl error_value. simpl error_detail.
  set (a := le_bytes 4 (child_stage_number stage)). set (b := le_bytes 4 (of_i32 value)).
  set (c := le_bytes 4 detail).
  assert (La : length a = 4%nat) by apply length_le_bytes.
  assert (Lb : length b = 4%nat) by apply length_le_bytes.
  assert (Lc : length c = 4%nat) by apply length_le_bytes.
  rewrite (take_app_length' a), (drop_app_length' a) by lia.
  rewrite (take_app_length' b) by lia.
  change 8%nat with (4 + 4)%nat. rewrite <- drop_drop, (drop_app_length' a) by lia.
  rewrite (drop_app_length' b), (take_ge c) by lia.
  unfold a, b, c. rewrite !le_value_u32, i32_roundtrip, Hs by (try apply of_i32_range; lia). done.
Qed.

Lemma mount_report_stage e stage :
  - 2 ^ 31 ≤ e < 2 ^ 31 → (∀ n, stage ≠ mount_stage_other n) →
  child_operation (decode_child_error (encode_child_error
    (mk_child_error mount_isolation_stage e (mount_stage_number stage)))) = mount_stage_name stage.
Proof.
  intros He Hs. rewrite child_error_roundtrip.
  - unfold child_operation. simpl. by destruct stage; try (by destruct (Hs n)).
  - split_and!; simpl; try done; try lia; destruct stage; try (by destruct (Hs n)); done.
Qed.

Lemma network_report_stage e stage :
  - 2 ^ 31 ≤ e < 2 ^ 31 → (∀ n, stage ≠ network_stage_other n) →
  child_operation (decode_child_error (encode_child_error
    (mk_child_error network_isolation_stage e (network_stage_number stage)))) =
  network_stage_name stage.
Proof.
  intros He Hs. rewrite child_error_roundtrip.
  - unfold child_operation. simpl. by destruct stage; try (by destruct (Hs n)).
  - split_and!; simpl; try done; try lia; destruct stage; try (by destruct (Hs n)); done.
Qed.

(** The failure record crosses the control pipe intact: every failure the child can
    report is read back by the supervisor with its stage, its error and its detail, and
    the diagnostic of a mount or network failure names the stage at which that setup
    stopped. *)
Theorem child_report_roundtrip :
  (∀ f, reportable_error f → decode_child_error (encode_child_error f) = f) ∧
  (∀ f, - 2 ^ 31 ≤ mount_error f < 2 ^ 31 → (∀ n, mount_stage f ≠ mount_stage_other n) →
     child_operation (decode_child_error (encode_child_error
       (mk_child_error mount_isolation_stage (mount_error f)
          (mount_stage_number (mount_stage f))))) = mount_stage_name (mount_stage f)) ∧
  (∀ f, - 2 ^ 31 ≤ network_error f < 2 ^ 31 → (∀ n, network_stage f ≠ network_stage_other n) →
     child_operation (decode_child_error (encode_child_error
       (mk_child_error network_isolation_stage (network_error f)
          (network_stage_number (network_stage f))))) = network_stage_name (network_stage f)).
Proof.
  split_and!.
  - apply child_error_roundtrip.
  - intros f. apply mount_report_stage.
  - intros f. apply network_report_stage.
Qed.
