(* ===== verification/ChildFacts.v ===== *)
(** * The preparation of the child (src/backend.cpp, child_main)

    [prepared] is the specification of the child: the whole sequence of calls, with their
    answers, between [fork] and the execution of the program. The program is executed only
    by a process that made exactly those calls. Sequences are newest first, like traces. *)

From S2P Require Import Prelude Machine Linux Logic Posix Script Pkgexec Bytes Records.
From S2P Require Import Containment ResourceLimits ProcFs ProcessControl Network Paths Support.
From S2P Require Import Yields Admission Realization RealizationFacts Child.
Local Open Scope string_scope.
Local Open Scope list_scope.
Local Open Scope Z_scope.

(** ** The calls of each step *)

(** [c] was answered [a] after any number of interruptions. *)
Definition answered_at_last {A} (c : call (res A)) (a : A) (evs : list event) : Prop :=
  ∃ n, evs = Event c (Ok a) :: replicate n (Event c (Err EINTR)).

(** What the owner of a descriptor does when it lets go of it. *)
Definition let_go (fd : Z) (evs : list event) : Prop :=
  if fd_bool fd then ∃ ev, closing fd ev ∧ evs = [ev] else evs = [].

(** [target] became the null device. *)
Definition null_device_at (target mode : Z) (evs : list event) : Prop :=
  ∃ fd x ev, closing fd ev ∧
    evs = [ev; Event (sys_dup2 fd target) (Ok x);
           Event (sys_open "/dev/null" (Z.lor mode O_CLOEXEC)) (Ok fd)].

Definition input_ready (policy : stdin_policy) (evs : list event) : Prop :=
  match policy with
  | stdin_closed => ∃ ev, closing STDIN_FILENO ev ∧ evs = [ev]
  | stdin_null_device => null_device_at STDIN_FILENO O_RDONLY evs
  end.
Definition stream_ready (target : Z) (pipe : pipe_pair) (policy : stream_policy)
    (evs : list event) : Prop :=
  match policy with
  | capture_complete => ∃ x, evs = [Event (sys_dup2 (pipe_write pipe) target) (Ok x)]
  | stream_other _ => null_device_at target O_WRONLY evs
  end.

(** An isolated request: the private root by its plan, then the network policy. *)
Definition isolated_as (isolation : option isolated_admission) (policy : network_policy)
    (evs : list event) : Prop :=
  match isolation with
  | None => evs = []
  | Some a => ∃ network filesystem, evs = network ++ filesystem ∧ plan a (reverse filesystem) ∧
      (if bool_decide (policy = network_allowed) then network = []
       else network_established (bool_decide (policy = network_loopback_only)) network)
  end.

(** The capability sets were emptied, and the ambient set unless there is none. *)
Definition capabilities_dropped (evs : list event) : Prop :=
  ∃ r, (r = Ok tt ∨ r = Err EINVAL) ∧
    evs = [Event sys_prctl_cap_ambient_clear_all r;
           Event (sys_capset LINUX_CAPABILITY_VERSION_3 0 [0; 0; 0; 0; 0; 0]) (Ok tt)].

(** A requested limit: finite and within the hard limit there was, set as both values, and
    both read back. *)
Definition limit_installed (resource : Z) (value : option Z) (evs : list event) : Prop :=
  match value with
  | None => evs = []
  | Some v => ∃ before, u64 v ≠ RLIM_INFINITY ∧
      (rlim_max before = RLIM_INFINITY ∨ u64 v ≤ rlim_max before) ∧
      evs = [Event (sys_getrlimit resource) (Ok (mk_rlimit (u64 v) (u64 v)));
             Event (sys_setrlimit resource (mk_rlimit (u64 v) (u64 v))) (Ok tt);
             Event (sys_getrlimit resource) (Ok before)]
  end.
Definition limits_installed (l : resource_limits) (evs : list event) : Prop :=
  ∃ space size files, limit_installed RLIMIT_AS (address_space_bytes l) space ∧
    limit_installed RLIMIT_FSIZE (file_size_bytes l) size ∧
    limit_installed RLIMIT_NOFILE (open_files l) files ∧ evs = files ++ size ++ space.

Definition containment_installed (seal : bool) (evs : list event) : Prop :=
  evs = [Event (sys_prctl_set_seccomp (seccomp_filter seal)) (Ok tt);
         Event sys_prctl_set_no_new_privs (Ok tt)].

(** One byte went through a pipe, and the end was closed. *)
Definition readiness_announced (fd : Z) (evs : list event) : Prop :=
  ∃ left sent, let_go fd left ∧ answered_at_last (sys_write fd [1]) 1 sent ∧ evs = left ++ sent.
Definition start_received (fd : Z) (evs : list event) : Prop :=
  ∃ left got, let_go fd left ∧ answered_at_last (sys_read fd 1) [1] got ∧ evs = left ++ got.

(** The ranges of descriptors above the standard streams around [a] and [b]. *)
Definition ranges_around (a b : Z) : list (Z * Z) :=
  let lo := Z.min a b in
  let hi := Z.max a b in
  (if 3 <? lo then [(3, lo - 1)] else []) ++ (if lo + 1 <? hi then [(lo + 1, hi - 1)] else []) ++
  [(hi + 1, UINT_MAX)].
Definition range_closed (r : Z * Z) : event := Event (sys_close_range r.1 r.2 0) (Ok tt).

(** Every range was closed; or one could not be, and every descriptor up to the bound of
    the fallback was closed but the two. *)
Definition others_closed (a b : Z) (evs : list event) : Prop :=
  reverse evs = range_closed <$> ranges_around a b ∨
  ∃ before r later e maximum closes,
    ranges_around a b = before ++ r :: later ∧
    Forall2 closing (filter (λ fd, fd ≠ a ∧ fd ≠ b) (seqZ 3 (fallback_upper maximum - 3))) closes ∧
    reverse evs = (range_closed <$> before) ++ [Event (sys_close_range r.1 r.2 0) (Err e);
      Event sys_sysconf_open_max maximum] ++ closes.

(** The last part of the setup: the process took the mask and the directory, dropped its
    capabilities if isolated, installed the limits and the containment, told the
    supervisor that it is ready, got the start byte, closed every other descriptor and
    executed. *)
Definition confined (cfg : child_configuration) (ps : pipes) (evs : list event) : Prop :=
  ∃ mask dropped limited contained announced started closed,
    match isolation cfg with Some _ => capabilities_dropped dropped | None => dropped = [] end ∧
    limits_installed (child_limits cfg) limited ∧
    containment_installed (negb (limits_empty (child_limits cfg))) contained ∧
    readiness_announced (pipe_write (ready_pipe ps)) announced ∧
    start_received (pipe_read (start_pipe ps)) started ∧
    others_closed (pipe_write (control_pipe ps)) (interpreter_fd cfg) closed ∧
    evs = Event (sys_execveat (interpreter_fd cfg) "" (child_arguments cfg) (child_environment cfg)
                   AT_EMPTY_PATH) (Ok tt) ::
          closed ++ started ++ announced ++ contained ++ limited ++ dropped ++
          [Event (sys_chdir (working_directory cfg)) (Ok tt);
           Event (sys_umask (child_mask cfg)) mask].

(** The whole sequence: the child became the leader of a session of its own, set up its
    standard streams, isolated itself, and did the rest. *)
Definition prepared (cfg : child_configuration) (ps : pipes) (evs : list event) : Prop :=
  ∃ session input output error isolated rest,
    input_ready (child_input cfg) input ∧
    stream_ready STDOUT_FILENO (standard_output_pipe ps) (child_output cfg) output ∧
    stream_ready STDERR_FILENO (standard_error_pipe ps) (child_error_output cfg) error ∧
    isolated_as (isolation cfg) (child_network cfg) isolated ∧ confined cfg ps rest ∧
    evs = rest ++ isolated ++ error ++ output ++ input ++ [Event sys_setsid (Ok session)].

(** ** Each step makes its calls *)

Section steps.
Context {W : Type} `{K : Kernel W}.

(** Between [s] and [s'] the calls [evs] were made, and they satisfy [P]. *)
Definition made (P : list event → Prop) (s s' : mstate W) : Prop :=
  ∃ evs, trace s' = evs ++ trace s ∧ P evs.

Lemma run_of_wp {A} (m : M W A) Q s o s' : wp m Q s → m s = (o, s') → Q o s'.
Proof. unfold wp. intros H E. by rewrite E in H. Qed.

Lemma ignore_run {A} (c : call (res A)) (s : mstate W) o s' :
  ignore c s = (o, s') → ∃ r, trace s' = Event c r :: trace s.
Proof.
  unfold ignore, attempt, issue, mbind, M_bind.
  destruct (kernel_run c (world s)) as [[a|e] w]; intros [= <- <-]; by eexists.
Qed.
Lemma closing_run fd (s : mstate W) o s' :
  ignore (sys_close fd) s = (o, s') → ∃ ev, closing fd ev ∧ trace s' = ev :: trace s.
Proof. intros E. apply ignore_run in E as (r & E). eexists. split; [by exists r|done]. Qed.

Lemma fd_reset_run fd next (s : mstate W) o s' :
  fd_reset fd next s = (o, s') → made (let_go fd) s s'.
Proof.
  apply (run_of_wp _ (λ _ s', made (let_go fd) s s')). unfold fd_reset, made, let_go.
  destruct (fd_bool fd); wp_run; [|by exists []].
  exists [Event (sys_close fd) r]. split; [done|]. eexists. split; [by exists r|done].
Qed.

Lemma retry_run {A} (c : call (res A)) a fuel (s s' : mstate W) :
  retry_eintr fuel c s = (Done (Some a), s') → made (answered_at_last c a) s s'.
Proof.
  revert s. induction fuel as [|n IH]; intros s E; [done|]. cbn [retry_eintr] in E.
  unfold mbind, M_bind, attempt, issue, mbind, M_bind in E.
  destruct (kernel_run c (world s)) as [[b|e] w]; simpl in E.
  - injection E as <- <-. exists [Event c (Ok b)]. split; [done|]. by exists 0%nat.
  - destruct (Z.eqb_spec e EINTR) as [->|]; [|done]. apply IH in E as (evs & E & m & ->).
    exists (Event c (Ok a) :: replicate (S m) (Event c (Err EINTR))). split; [|by exists (S m)].
    rewrite E. simpl. f_equal. by rewrite (app_comm_cons (replicate m _)), replicate_cons_app, <- app_assoc.
Qed.

(** A run of a computation whose calls are settled one by one. *)
Ltac by_calls := repeat match goal with u : unit |- _ => destruct u end; provide_trace.

(** The computation, run to the value [a], makes calls that satisfy [P]. *)
Definition making {A} (P : list event → Prop) (a : A) (m : M W A) : Prop :=
  ∀ s, wp m (λ o s', o = Done a → made P s s') s.
Lemma making_run {A} P (a : A) m (s s' : mstate W) :
  making P a m → m s = (Done a, s') → made P s s'.
Proof. intros H E. by apply (run_of_wp _ _ _ _ _ (H s) E). Qed.

Lemma setup_input_run policy (s s' : mstate W) :
  setup_input policy s = (Done (inr tt), s') → made (input_ready policy) s s'.
Proof.
  apply making_run. intros s0. unfold setup_input, made. wp_run; try done; try intros _; by_calls; simpl.
  all: repeat first [eexists; split; [by eexists|reflexivity] | eexists _, _].
Qed.

Lemma redirect_run target pipe policy (s s' : mstate W) :
  redirect target pipe policy s = (Done true, s') → made (stream_ready target pipe policy) s s'.
Proof.
  apply making_run. intros s0. unfold redirect, made. wp_run; try done; try intros _; by_calls; simpl.
  all: repeat first [eexists; split; [by eexists|reflexivity] | eexists _, _ | by eexists].
Qed.

Lemma dropped_run (s s' : mstate W) :
  drop_process_capabilities s = (Done true, s') → made capabilities_dropped s s'.
Proof.
  apply making_run. intros s0. unfold drop_process_capabilities, made. wp_run; try done; try intros _; by_calls.
  - eexists. split; [|done]. by left.
  - eexists. split; [|done]. right. f_equal. simpl in *. lia.
Qed.

Lemma contained_run seal (s s' : mstate W) :
  install_process_group_containment seal s = (Done true, s') → made (containment_installed seal) s s'.
Proof.
  apply making_run. intros s0. unfold install_process_group_containment, made.
  wp_run; try done; try intros _; by_calls. done.
Qed.

Lemma isolation_run fuel cfg (s s' : mstate W) :
  setup_isolation fuel cfg s = (Done (inr tt), s') →
  made (isolated_as (isolation cfg) (child_network cfg)) s s'.
Proof.
  unfold setup_isolation, made, isolated_as. destruct (isolation cfg) as [a|]; [|intros [= <-]; by exists []].
  intros E. unfold mbind, M_bind in E.
  destruct (does_create_private_root a s) as (filesystem & Et & Hplan).
  destruct (setup_isolated_filesystem a s) as [[[f|[]]|x|c|] s1]; try done. simpl in Et, Hplan.
  destruct (bool_decide_reflect (child_network cfg = network_allowed)) as [Ha|Hne].
  - unfold setup_network_policy in E. rewrite Ha in E. injection E as <-.
    exists filesystem. split; [done|]. by exists [], filesystem.
  - pose proof (wp_setup_network_policy fuel (child_network cfg) s1 Hne) as Hw. unfold wp in Hw.
    destruct (setup_network_policy fuel (child_network cfg) s1) as [[[f|[]]|x|c|] s2]; try done.
    injection E as <-. destruct (Hw eq_refl) as (network & En & Hnet). simpl in En.
    exists (network ++ filesystem). rewrite En, Et, app_assoc. split; [done|]. by exists network, filesystem.
Qed.

Lemma limit_run resource value stage (s s' : mstate W) :
  setup_requested resource value stage s = (Done (inr tt), s') → made (limit_installed resource value) s s'.
Proof.
  destruct value as [v|]; [|intros [= <-]; by exists []].
  apply making_run. intros s0. unfold setup_requested, setup_one, exact_value, limit_fail, made, limit_installed.
  destruct (Z.eqb_spec (u64 v) RLIM_INFINITY); wp_run; try done; try intros _.
  match goal with H : negb _ || negb _ = false |- _ => apply read_back_exact in H as -> end.
  by_calls. eexists. split_and!; [done| |done]. lia.
Qed.

Lemma limits_run l (s s' : mstate W) :
  setup_resource_limits l s = (Done (inr tt), s') → made (limits_installed l) s s'.
Proof.
  unfold setup_resource_limits, mbind, M_bind. intros E.
  destruct (setup_requested RLIMIT_AS _ _ s) as [[[f|[]]|x|c|] s1] eqn:E1; try done.
  destruct (setup_requested RLIMIT_FSIZE _ _ s1) as [[[f|[]]|x|c|] s2] eqn:E2; try done.
  apply limit_run in E1 as (l1 & E1 & H1). apply limit_run in E2 as (l2 & E2 & H2).
  apply limit_run in E as (l3 & E & H3). exists (l3 ++ l2 ++ l1).
  rewrite E, E2, E1, <- !app_assoc. split; [done|]. by exists l1, l2, l3.
Qed.

Lemma announced_run fuel fd (s s' : mstate W) :
  announce_ready fuel fd s = (Done true, s') → made (readiness_announced fd) s s'.
Proof.
  unfold announce_ready, mbind, M_bind. intros E.
  destruct (retry_eintr _ _ s) as [[count|x|c|] s1] eqn:E1; try done.
  destruct (fd_reset _ _ s1) as [[r|x|c|] s2] eqn:E2; try done. injection E as E <-.
  apply bool_decide_eq_true in E as ->. apply retry_run in E1 as (sent & E1 & H1).
  apply fd_reset_run in E2 as (left & E2 & H2). exists (left ++ sent). rewrite E2, E1, app_assoc.
  split; [done|]. by exists left, sent.
Qed.

Lemma started_run fuel fd (s s' : mstate W) :
  await_start fuel fd s = (Done true, s') → made (start_received fd) s s'.
Proof.
  unfold await_start, mbind, M_bind. intros E.
  destruct (retry_eintr _ _ s) as [[bytes|x|c|] s1] eqn:E1; try done.
  destruct (fd_reset _ _ s1) as [[r|x|c|] s2] eqn:E2; try done. injection E as E <-.
  apply bool_decide_eq_true in E as ->. apply retry_run in E1 as (got & E1 & H1).
  apply fd_reset_run in E2 as (left & E2 & H2). exists (left ++ got). rewrite E2, E1, app_assoc.
  split; [done|]. by exists left, got.
Qed.

Lemma seqZ_to_nat m n : seqZ m (Z.of_nat (Z.to_nat n)) = seqZ m n.
Proof. unfold seqZ. by rewrite Nat2Z.id. Qed.

(** The fallback closes every descriptor of its range but the two. *)
Lemma close_each_run count a b : ∀ fd (s s' : mstate W) o,
  close_each count fd a b s = (o, s') → ∃ closes, trace s' = reverse closes ++ trace s ∧
    Forall2 closing (filter (λ fd, fd ≠ a ∧ fd ≠ b) (seqZ fd (Z.of_nat count))) closes.
Proof.
  induction count as [|n IH]; intros fd s s' o E.
  { injection E as <- <-. by exists []. }
  rewrite seqZ_cons, filter_cons by lia. replace (Z.pred (Z.of_nat (S n))) with (Z.of_nat n) by lia.
  cbn [close_each] in E. unfold mbind, M_bind in E.
  destruct (Z.eqb_spec fd a), (Z.eqb_spec fd b); rewrite ?decide_True, ?decide_False by tauto;
    cbn [negb andb] in E.
  1-3: rewrite <- Z.add_1_r; by eapply IH.
  destruct (ignore (sys_close fd) s) as [o1 s1] eqn:E1.
  assert (o1 = Done tt) as ->.
  { pose proof (wp_ignore (sys_close fd) (λ o _, o = Done tt) s) as H. unfold wp in H.
    rewrite E1 in H. by apply H. }
  apply closing_run in E1 as (ev & Hev & E1). apply IH in E as (closes & E & Hc).
  exists (ev :: closes). rewrite E, E1, reverse_cons, <- app_assoc, <- Z.add_1_r.
  split; [done|]. by constructor.
Qed.

Lemma others_closed_comm a b evs : others_closed a b evs → others_closed b a evs.
Proof.
  assert (ranges_around b a = ranges_around a b) as Er
    by (unfold ranges_around; by rewrite Z.min_comm, Z.max_comm).
  assert (∀ l, filter (λ fd, fd ≠ b ∧ fd ≠ a) l = filter (λ fd : Z, fd ≠ a ∧ fd ≠ b) l) as Ef
    by (intros; apply list_filter_iff; tauto).
  unfold others_closed. rewrite Er. intros [H|(before & r & later & e & m & closes & H1 & H2 & H3)]; [by left|].
  right. exists before, r, later, e, m, closes. by rewrite Ef.
Qed.

(** The calls of the closing end with a refused range and the fallback. *)
Ltac refused_after before :=
  exists before; eexists _, _, _, _, _; split_and!; [reflexivity|eassumption|reflexivity].

Lemma closed_sorted a b (s : mstate W) :
  a ≤ b → wp (close_fds_except a b) (λ o s', made (others_closed a b) s s') s.
Proof.
  intros Hab. unfold close_fds_except, others_closed, ranges_around, made.
  rewrite (Z.min_l a b), (Z.max_r a b) by done. replace (b <? a) with false by lia.
  destruct (3 <? a), (a + 1 <? b); cbn [andb app]; wp_run.
  all: try by (by_calls; left).
  all: try match goal with H : false = true |- _ => discriminate H end.
  all: lazymatch goal with |- wp (close_each _ _ _ _) _ (push _ _ _ ?m ?st) =>
      unfold wp; destruct (close_each _ _ _ _ _) as [o s'] eqn:E;
      apply close_each_run in E as (closes & Et & Hc); rewrite seqZ_to_nat in Hc;
      let p := eval cbn [trace push] in (trace (push (world s') 0 sys_sysconf_open_max m st)) in
      let p := trace_prefix p (trace s) in
      exists (reverse closes ++ p); split; [cbn [snd]; rewrite Et, <- app_assoc; reflexivity|];
      right; rewrite reverse_app, reverse_involutive;
      repeat match goal with u : unit |- _ => destruct u end;
      first [refused_after (@nil (Z * Z)) | refused_after [(3, a - 1)]
            |refused_after [(a + 1, b - 1)] | refused_after [(3, a - 1); (a + 1, b - 1)]] end.
Qed.

Lemma closed_run a b (s s' : mstate W) o :
  close_fds_except a b s = (o, s') → made (others_closed a b) s s'.
Proof.
  destruct (Z.le_gt_cases a b) as [Hab|Hab].
  - intros E. by eapply run_of_wp in E; [|by apply closed_sorted].
  - replace (close_fds_except a b) with (close_fds_except (W := W) b a).
    + intros E. assert (made (others_closed b a) s s') as (evs & Et & H).
      { by eapply run_of_wp in E; [|apply closed_sorted; lia]. }
      exists evs. split; [done|]. by apply others_closed_comm.
    + unfold close_fds_except. by replace (b <? a) with true by lia; replace (a <? b) with false by lia.
Qed.
(** ** The program is executed only in a prepared process *)

Definition only_if_left {A} (code : Z) (Q : mstate W → Prop) (o : outcome A) (s' : mstate W) : Prop :=
  o = Exited code → Q s'.

(** Steps that do not leave the process, and ends that are not the execution. *)
Lemma wp_stay {A B} code (Q : mstate W → Prop) (m : M W A) (k : A → M W B) s :
  noexcept anything m →
  (∀ a s', m s = (Done a, s') → wp (k a) (only_if_left code Q) s') →
  wp (m ≫= k) (only_if_left code Q) s.
Proof.
  intros Hy Hk. apply wp_bind_run; [done|]. intros o s' E _ Ho.
  pose proof (proj2 Hy s) as H. rewrite E in H. by destruct o.
Qed.

Lemma wp_leave {A} code (Q : mstate W → Prop) left (s : mstate W) :
  left ≠ code → wp (@exit_process W A left) (only_if_left code Q) s.
Proof. intros H [= E]. done. Qed.

Lemma wp_give_up {A} (Q : mstate W → Prop) fuel fd stage value detail (s : mstate W) :
  wp (@give_up_child W K A fuel fd stage value detail) (only_if_left EXECUTED Q) s.
Proof.
  unfold give_up_child, report_child_error. apply wp_stay; [auto with noexcept|].
  intros. by apply wp_leave.
Qed.

Lemma wp_give_up_errno {A} (Q : mstate W → Prop) fuel fd stage (s : mstate W) :
  wp (@give_up_errno W K A fuel fd stage) (only_if_left EXECUTED Q) s.
Proof. apply wp_stay; [auto with noexcept|]. intros. apply wp_give_up. Qed.

Lemma wp_confine_child {A} fuel cfg ps (s : mstate W) :
  wp (@confine_child W K A fuel cfg ps) (only_if_left EXECUTED (made (confined cfg ps) s)) s.
Proof.
  unfold confine_child. wp_step. apply wp_issue. intros mask w0 _. wp_step.
  wp_step; [|apply wp_give_up_errno].
  cbn [negb]. destruct_units. set (s1 := push _ _ (sys_chdir _) _ _).
  apply wp_stay; [destruct (isolation cfg); auto with noexcept|].
  intros [|] s2 E2; cbn [negb]; [|apply wp_give_up_errno].
  apply wp_stay; [auto with noexcept|]. intros [f|[]] s3 E3; [apply wp_give_up|].
  apply wp_stay; [auto with noexcept|]. intros [|] s4 E4; cbn [negb]; [|apply wp_give_up_errno].
  apply wp_stay; [auto with noexcept|]. intros [|] s5 E5; cbn [negb]; [|by apply wp_leave].
  apply wp_stay; [auto with noexcept|]. intros [|] s6 E6; cbn [negb]; [|by apply wp_leave].
  unfold execute_interpreter. apply wp_stay; [auto with noexcept|]. intros [] s7 E7.
  wp_step. wp_step.
  2: { unfold report_child_error. apply wp_stay; [auto with noexcept|]. intros.
       apply wp_stay; [auto with noexcept|]. intros. by apply wp_leave. }
  destruct_units. apply wp_exit. intros _.
  assert (made (λ evs, match isolation cfg with
    Some _ => capabilities_dropped evs | None => evs = [] end) s1 s2) as (dropped & T2 & H2).
  { destruct (isolation cfg); [by apply dropped_run|]. injection E2 as <-. by exists []. }
  apply limits_run in E3 as (limited & T3 & H3). apply contained_run in E4 as (contained & T4 & H4).
  apply announced_run in E5 as (announced & T5 & H5). apply started_run in E6 as (started & T6 & H6).
  apply closed_run in E7 as (closed & T7 & H7). eexists. split; cycle 1.
  { exists mask, dropped, limited, contained, announced, started, closed. by split_and!. }
  cbn [trace push app]. rewrite T7, T6, T5, T4, T3, T2, <- !app_assoc. reflexivity.
Qed.

(** The interpreter is executed only by a process that completed its setup, step by step
    and in this order, and the execution is by descriptor, with the configured arguments
    and environment. *)
Lemma wp_child_main {A} fuel cfg ps (s : mstate W) :
  wp (@child_main W K A fuel cfg ps) (only_if_left EXECUTED (made (prepared cfg ps) s)) s.
Proof.
  unfold child_main. wp_step. wp_step; [|apply wp_give_up_errno].
  apply wp_stay; [auto with noexcept|]. intros [saved|[]] s2 E2; [apply wp_give_up|].
  apply wp_stay; [auto with noexcept|]. intros okay s3 E3.
  apply wp_stay; [destruct okay; auto with noexcept|].
  intros [|] s4 E4; cbn [negb]; [|apply wp_give_up_errno].
  destruct okay; [|discriminate E4].
  apply wp_stay; [auto with noexcept|]. intros [f|[]] s5 E5; [apply wp_give_up|].
  eapply wp_mono; [apply wp_confine_child|]. intros o s' Ho Eo. specialize (Ho Eo).
  destruct Ho as (rest & T & Hrest).
  apply setup_input_run in E2 as (input & T2 & F2). apply redirect_run in E3 as (output & T3 & F3).
  apply redirect_run in E4 as (error & T4 & F4). apply isolation_run in E5 as (isolated & T5 & F5).
  eexists. split; cycle 1; [by exists a, input, output, error, isolated, rest|].
  rewrite T, T5, T4, T3, T2. cbn [trace push]. by rewrite <- !app_assoc.
Qed.

End steps.
