(* ===== verification/Supervisor.v ===== *)
(** * The supervision loop (src/backend.cpp, execute_backend)

    The local variables of the loop as a record, one definition for each part of its
    body in the order of the source, the body as their composition, the loop, and the
    states the loop can reach as an inductive relation. Descriptors are integers with
    -1 for an empty owner; a deadline is [None] while it is [time_point::max()]; times
    are nanoseconds of the steady clock. *)

From S2P Require Import Prelude Machine Linux Logic Posix Script Pkgexec Records ProcFs.
From S2P Require Import ProcessControl Support Yields.
Local Open Scope Z_scope.

Record supervision : Set := mk_supervision {
  out_read : Z;
  err_read : Z;
  control_read : Z;
  ready_read : Z;
  start_write : Z;
  output_material : list Z;
  error_material : list Z;
  control_bytes : list Z;
  capture_failed : bool;
  ready_seen : bool;
  start_released : bool;
  exec_confirmed : bool;
  child_exited : bool;
  child_reaped : bool;
  child_information : siginfo;
  cancellation_observed : bool;
  cancellation_before_start : bool;
  cancellation_signal_attempted : bool;
  cancellation_signal_delivered : bool;
  forced_signal_sent : bool;
  cancellation_deadline : option Z;
  cleanup_started : bool;
  cleanup_complete : bool;
  cleanup_failed : bool;
  cleanup_deadline : option Z
}.

(** Assignments to one variable. *)
Definition set_out_read (v : Z) (st : supervision) : supervision :=
  mk_supervision v (err_read st) (control_read st) (ready_read st) (start_write st)
    (output_material st) (error_material st) (control_bytes st) (capture_failed st)
    (ready_seen st) (start_released st) (exec_confirmed st) (child_exited st) (child_reaped st)
    (child_information st) (cancellation_observed st) (cancellation_before_start st)
    (cancellation_signal_attempted st) (cancellation_signal_delivered st) (forced_signal_sent st) (cancellation_deadline st)
    (cleanup_started st) (cleanup_complete st) (cleanup_failed st) (cleanup_deadline st).
Definition set_err_read (v : Z) (st : supervision) : supervision :=
  mk_supervision (out_read st) v (control_read st) (ready_read st) (start_write st)
    (output_material st) (error_material st) (control_bytes st) (capture_failed st)
    (ready_seen st) (start_released st) (exec_confirmed st) (child_exited st) (child_reaped st)
    (child_information st) (cancellation_observed st) (cancellation_before_start st)
    (cancellation_signal_attempted st) (cancellation_signal_delivered st) (forced_signal_sent st) (cancellation_deadline st)
    (cleanup_started st) (cleanup_complete st) (cleanup_failed st) (cleanup_deadline st).
Definition set_control_read (v : Z) (st : supervision) : supervision :=
  mk_supervision (out_read st) (err_read st) v (ready_read st) (start_write st)
    (output_material st) (error_material st) (control_bytes st) (capture_failed st)
    (ready_seen st) (start_released st) (exec_confirmed st) (child_exited st) (child_reaped st)
    (child_information st) (cancellation_observed st) (cancellation_before_start st)
    (cancellation_signal_attempted st) (cancellation_signal_delivered st) (forced_signal_sent st) (cancellation_deadline st)
    (cleanup_started st) (cleanup_complete st) (cleanup_failed st) (cleanup_deadline st).
Definition set_ready_read (v : Z) (st : supervision) : supervision :=
  mk_supervision (out_read st) (err_read st) (control_read st) v (start_write st)
    (output_material st) (error_material st) (control_bytes st) (capture_failed st)
    (ready_seen st) (start_released st) (exec_confirmed st) (child_exited st) (child_reaped st)
    (child_information st) (cancellation_observed st) (cancellation_before_start st)
    (cancellation_signal_attempted st) (cancellation_signal_delivered st) (forced_signal_sent st) (cancellation_deadline st)
    (cleanup_started st) (cleanup_complete st) (cleanup_failed st) (cleanup_deadline st).
Definition set_start_write (v : Z) (st : supervision) : supervision :=
  mk_supervision (out_read st) (err_read st) (control_read st) (ready_read st) v
    (output_material st) (error_material st) (control_bytes st) (capture_failed st)
    (ready_seen st) (start_released st) (exec_confirmed st) (child_exited st) (child_reaped st)
    (child_information st) (cancellation_observed st) (cancellation_before_start st)
    (cancellation_signal_attempted st) (cancellation_signal_delivered st) (forced_signal_sent st) (cancellation_deadline st)
    (cleanup_started st) (cleanup_complete st) (cleanup_failed st) (cleanup_deadline st).
Definition set_output_material (v : list Z) (st : supervision) : supervision :=
  mk_supervision (out_read st) (err_read st) (control_read st) (ready_read st) (start_write st) v
    (error_material st) (control_bytes st) (capture_failed st) (ready_seen st) (start_released st)
    (exec_confirmed st) (child_exited st) (child_reaped st) (child_information st)
    (cancellation_observed st) (cancellation_before_start st) (cancellation_signal_attempted st)
    (cancellation_signal_delivered st) (forced_signal_sent st) (cancellation_deadline st) (cleanup_started st)
    (cleanup_complete st) (cleanup_failed st) (cleanup_deadline st).
Definition set_error_material (v : list Z) (st : supervision) : supervision :=
  mk_supervision (out_read st) (err_read st) (control_read st) (ready_read st) (start_write st)
    (output_material st) v (control_bytes st) (capture_failed st) (ready_seen st)
    (start_released st) (exec_confirmed st) (child_exited st) (child_reaped st)
    (child_information st) (cancellation_observed st) (cancellation_before_start st)
    (cancellation_signal_attempted st) (cancellation_signal_delivered st) (forced_signal_sent st) (cancellation_deadline st)
    (cleanup_started st) (cleanup_complete st) (cleanup_failed st) (cleanup_deadline st).
Definition set_control_bytes (v : list Z) (st : supervision) : supervision :=
  mk_supervision (out_read st) (err_read st) (control_read st) (ready_read st) (start_write st)
    (output_material st) (error_material st) v (capture_failed st) (ready_seen st)
    (start_released st) (exec_confirmed st) (child_exited st) (child_reaped st)
    (child_information st) (cancellation_observed st) (cancellation_before_start st)
    (cancellation_signal_attempted st) (cancellation_signal_delivered st) (forced_signal_sent st) (cancellation_deadline st)
    (cleanup_started st) (cleanup_complete st) (cleanup_failed st) (cleanup_deadline st).
Definition set_capture_failed (v : bool) (st : supervision) : supervision :=
  mk_supervision (out_read st) (err_read st) (control_read st) (ready_read st) (start_write st)
    (output_material st) (error_material st) (control_bytes st) v (ready_seen st)
    (start_released st) (exec_confirmed st) (child_exited st) (child_reaped st)
    (child_information st) (cancellation_observed st) (cancellation_before_start st)
    (cancellation_signal_attempted st) (cancellation_signal_delivered st) (forced_signal_sent st) (cancellation_deadline st)
    (cleanup_started st) (cleanup_complete st) (cleanup_failed st) (cleanup_deadline st).
Definition set_ready_seen (v : bool) (st : supervision) : supervision :=
  mk_supervision (out_read st) (err_read st) (control_read st) (ready_read st) (start_write st)
    (output_material st) (error_material st) (control_bytes st) (capture_failed st) v
    (start_released st) (exec_confirmed st) (child_exited st) (child_reaped st)
    (child_information st) (cancellation_observed st) (cancellation_before_start st)
    (cancellation_signal_attempted st) (cancellation_signal_delivered st) (forced_signal_sent st) (cancellation_deadline st)
    (cleanup_started st) (cleanup_complete st) (cleanup_failed st) (cleanup_deadline st).
Definition set_start_released (v : bool) (st : supervision) : supervision :=
  mk_supervision (out_read st) (err_read st) (control_read st) (ready_read st) (start_write st)
    (output_material st) (error_material st) (control_bytes st) (capture_failed st)
    (ready_seen st) v (exec_confirmed st) (child_exited st) (child_reaped st)
    (child_information st) (cancellation_observed st) (cancellation_before_start st)
    (cancellation_signal_attempted st) (cancellation_signal_delivered st) (forced_signal_sent st) (cancellation_deadline st)
    (cleanup_started st) (cleanup_complete st) (cleanup_failed st) (cleanup_deadline st).
Definition set_exec_confirmed (v : bool) (st : supervision) : supervision :=
  mk_supervision (out_read st) (err_read st) (control_read st) (ready_read st) (start_write st)
    (output_material st) (error_material st) (control_bytes st) (capture_failed st)
    (ready_seen st) (start_released st) v (child_exited st) (child_reaped st)
    (child_information st) (cancellation_observed st) (cancellation_before_start st)
    (cancellation_signal_attempted st) (cancellation_signal_delivered st) (forced_signal_sent st) (cancellation_deadline st)
    (cleanup_started st) (cleanup_complete st) (cleanup_failed st) (cleanup_deadline st).
Definition set_child_exited (v : bool) (st : supervision) : supervision :=
  mk_supervision (out_read st) (err_read st) (control_read st) (ready_read st) (start_write st)
    (output_material st) (error_material st) (control_bytes st) (capture_failed st)
    (ready_seen st) (start_released st) (exec_confirmed st) v (child_reaped st)
    (child_information st) (cancellation_observed st) (cancellation_before_start st)
    (cancellation_signal_attempted st) (cancellation_signal_delivered st) (forced_signal_sent st) (cancellation_deadline st)
    (cleanup_started st) (cleanup_complete st) (cleanup_failed st) (cleanup_deadline st).
Definition set_child_reaped (v : bool) (st : supervision) : supervision :=
  mk_supervision (out_read st) (err_read st) (control_read st) (ready_read st) (start_write st)
    (output_material st) (error_material st) (control_bytes st) (capture_failed st)
    (ready_seen st) (start_released st) (exec_confirmed st) (child_exited st) v
    (child_information st) (cancellation_observed st) (cancellation_before_start st)
    (cancellation_signal_attempted st) (cancellation_signal_delivered st) (forced_signal_sent st) (cancellation_deadline st)
    (cleanup_started st) (cleanup_complete st) (cleanup_failed st) (cleanup_deadline st).
Definition set_child_information (v : siginfo) (st : supervision) : supervision :=
  mk_supervision (out_read st) (err_read st) (control_read st) (ready_read st) (start_write st)
    (output_material st) (error_material st) (control_bytes st) (capture_failed st)
    (ready_seen st) (start_released st) (exec_confirmed st) (child_exited st) (child_reaped st) v
    (cancellation_observed st) (cancellation_before_start st) (cancellation_signal_attempted st)
    (cancellation_signal_delivered st) (forced_signal_sent st) (cancellation_deadline st) (cleanup_started st)
    (cleanup_complete st) (cleanup_failed st) (cleanup_deadline st).
Definition set_cancellation_observed (v : bool) (st : supervision) : supervision :=
  mk_supervision (out_read st) (err_read st) (control_read st) (ready_read st) (start_write st)
    (output_material st) (error_material st) (control_bytes st) (capture_failed st)
    (ready_seen st) (start_released st) (exec_confirmed st) (child_exited st) (child_reaped st)
    (child_information st) v (cancellation_before_start st) (cancellation_signal_attempted st)
    (cancellation_signal_delivered st) (forced_signal_sent st) (cancellation_deadline st) (cleanup_started st)
    (cleanup_complete st) (cleanup_failed st) (cleanup_deadline st).
Definition set_cancellation_before_start (v : bool) (st : supervision) : supervision :=
  mk_supervision (out_read st) (err_read st) (control_read st) (ready_read st) (start_write st)
    (output_material st) (error_material st) (control_bytes st) (capture_failed st)
    (ready_seen st) (start_released st) (exec_confirmed st) (child_exited st) (child_reaped st)
    (child_information st) (cancellation_observed st) v (cancellation_signal_attempted st)
    (cancellation_signal_delivered st) (forced_signal_sent st) (cancellation_deadline st) (cleanup_started st)
    (cleanup_complete st) (cleanup_failed st) (cleanup_deadline st).
Definition set_cancellation_signal_attempted (v : bool) (st : supervision) : supervision :=
  mk_supervision (out_read st) (err_read st) (control_read st) (ready_read st) (start_write st)
    (output_material st) (error_material st) (control_bytes st) (capture_failed st)
    (ready_seen st) (start_released st) (exec_confirmed st) (child_exited st) (child_reaped st)
    (child_information st) (cancellation_observed st) (cancellation_before_start st) v
    (cancellation_signal_delivered st) (forced_signal_sent st) (cancellation_deadline st) (cleanup_started st)
    (cleanup_complete st) (cleanup_failed st) (cleanup_deadline st).
Definition set_cancellation_signal_delivered (v : bool) (st : supervision) : supervision :=
  mk_supervision (out_read st) (err_read st) (control_read st) (ready_read st) (start_write st)
    (output_material st) (error_material st) (control_bytes st) (capture_failed st)
    (ready_seen st) (start_released st) (exec_confirmed st) (child_exited st) (child_reaped st)
    (child_information st) (cancellation_observed st) (cancellation_before_start st)
    (cancellation_signal_attempted st) v (forced_signal_sent st) (cancellation_deadline st)
    (cleanup_started st) (cleanup_complete st) (cleanup_failed st) (cleanup_deadline st).
Definition set_forced_signal_sent (v : bool) (st : supervision) : supervision :=
  mk_supervision (out_read st) (err_read st) (control_read st) (ready_read st) (start_write st)
    (output_material st) (error_material st) (control_bytes st) (capture_failed st)
    (ready_seen st) (start_released st) (exec_confirmed st) (child_exited st) (child_reaped st)
    (child_information st) (cancellation_observed st) (cancellation_before_start st)
    (cancellation_signal_attempted st) (cancellation_signal_delivered st) v (cancellation_deadline st) (cleanup_started st)
    (cleanup_complete st) (cleanup_failed st) (cleanup_deadline st).
Definition set_cancellation_deadline (v : option Z) (st : supervision) : supervision :=
  mk_supervision (out_read st) (err_read st) (control_read st) (ready_read st) (start_write st)
    (output_material st) (error_material st) (control_bytes st) (capture_failed st)
    (ready_seen st) (start_released st) (exec_confirmed st) (child_exited st) (child_reaped st)
    (child_information st) (cancellation_observed st) (cancellation_before_start st)
    (cancellation_signal_attempted st) (cancellation_signal_delivered st) (forced_signal_sent st) v (cleanup_started st)
    (cleanup_complete st) (cleanup_failed st) (cleanup_deadline st).
Definition set_cleanup_started (v : bool) (st : supervision) : supervision :=
  mk_supervision (out_read st) (err_read st) (control_read st) (ready_read st) (start_write st)
    (output_material st) (error_material st) (control_bytes st) (capture_failed st)
    (ready_seen st) (start_released st) (exec_confirmed st) (child_exited st) (child_reaped st)
    (child_information st) (cancellation_observed st) (cancellation_before_start st)
    (cancellation_signal_attempted st) (cancellation_signal_delivered st) (forced_signal_sent st) (cancellation_deadline st)
    v (cleanup_complete st) (cleanup_failed st) (cleanup_deadline st).
Definition set_cleanup_complete (v : bool) (st : supervision) : supervision :=
  mk_supervision (out_read st) (err_read st) (control_read st) (ready_read st) (start_write st)
    (output_material st) (error_material st) (control_bytes st) (capture_failed st)
    (ready_seen st) (start_released st) (exec_confirmed st) (child_exited st) (child_reaped st)
    (child_information st) (cancellation_observed st) (cancellation_before_start st)
    (cancellation_signal_attempted st) (cancellation_signal_delivered st) (forced_signal_sent st) (cancellation_deadline st)
    (cleanup_started st) v (cleanup_failed st) (cleanup_deadline st).
Definition set_cleanup_failed (v : bool) (st : supervision) : supervision :=
  mk_supervision (out_read st) (err_read st) (control_read st) (ready_read st) (start_write st)
    (output_material st) (error_material st) (control_bytes st) (capture_failed st)
    (ready_seen st) (start_released st) (exec_confirmed st) (child_exited st) (child_reaped st)
    (child_information st) (cancellation_observed st) (cancellation_before_start st)
    (cancellation_signal_attempted st) (cancellation_signal_delivered st) (forced_signal_sent st) (cancellation_deadline st)
    (cleanup_started st) (cleanup_complete st) v (cleanup_deadline st).
Definition set_cleanup_deadline (v : option Z) (st : supervision) : supervision :=
  mk_supervision (out_read st) (err_read st) (control_read st) (ready_read st) (start_write st)
    (output_material st) (error_material st) (control_bytes st) (capture_failed st)
    (ready_seen st) (start_released st) (exec_confirmed st) (child_exited st) (child_reaped st)
    (child_information st) (cancellation_observed st) (cancellation_before_start st)
    (cancellation_signal_attempted st) (cancellation_signal_delivered st) (forced_signal_sent st) (cancellation_deadline st)
    (cleanup_started st) (cleanup_complete st) (cleanup_failed st) v.

Definition no_information : siginfo := mk_siginfo 0 0 0.

(** [now >= deadline]. *)
Definition reached (now : Z) (deadline : option Z) : bool :=
  match deadline with Some d => d <=? now | None => false end.

(** What the loop is given: the fuel of its inner loops and of a scan of /proc, the
    child, its pidfd (-1 without a token), whether there is a cancellation token, and
    the sealed grace period in milliseconds. *)
Record supervision_context : Set := mk_context {
  loop_fuel : nat;
  scan_fuel : nat;
  child : Z;
  pidfd : Z;
  controlled : bool;
  grace_period : Z
}.

Section supervisor.
Context {W : Type} `{K : Kernel W}.
Context (ctx : supervision_context).

(** ** Helpers of the loop *)

Fixpoint drain_fd (fuel : nat) (fd : Z) (output : list Z) (failed : bool)
    : M W (Z * list Z * bool) :=
  if negb (fd_bool fd) then mret (fd, output, failed)
  else
  match fuel with
  | O => out_of_fuel
  | S n =>
      r ← attempt (sys_read fd (16 * 1024));
      match r with
      | Some [] => fd ← fd_reset fd (-1); mret (fd, output, failed)
      | Some bytes => drain_fd n fd (output ++ bytes) failed
      | None =>
          e ← get_errno;
          if e =? EINTR then drain_fd n fd output failed
          else if (e =? EAGAIN) || (e =? EWOULDBLOCK) then mret (fd, output, failed)
          else fd ← fd_reset fd (-1); mret (fd, output, true)
      end
  end.

(** [::kill(-group, 0) != 0 && errno == ESRCH]. *)
Definition group_gone (group : Z) : M W bool :=
  r ← attempt (sys_kill (- group) 0);
  e ← get_errno;
  mret (match r with Some _ => false | None => e =? ESRCH end).

(** [for (int i = 0; i < turns; ++i)]: look for the group, then sleep. *)
Fixpoint wait_group_gone (turns : nat) (group : Z) : M W bool :=
  match turns with
  | O => mret false
  | S n =>
      gone ← group_gone group;
      if (gone : bool) then mret true
      else issue (env_sleep 10);; wait_group_gone n group
  end.

Definition cleanup_group (group : Z) : M W bool :=
  gone ← group_gone group;
  if (gone : bool) then mret true
  else
  ignore (sys_kill (- group) SIGTERM);;
  gone ← wait_group_gone 20 group;
  if (gone : bool) then mret true
  else
  ignore (sys_kill (- group) SIGKILL);;
  wait_group_gone 100 group.

Fixpoint observe_child_exit (fuel : nat) (child pidfd : Z) : M W (bool * siginfo) :=
  match fuel with
  | O => out_of_fuel
  | S n =>
      r ← attempt (sys_waitid (if 0 <=? pidfd then P_PIDFD else P_PID)
                     (if 0 <=? pidfd then pidfd else child)
                     (Z.lor WEXITED (Z.lor WNOHANG WNOWAIT)));
      match r with
      | Some information => mret (negb (si_pid information =? 0), information)
      | None =>
          e ← get_errno;
          if negb (e =? EINTR) then mret (false, no_information)
          else observe_child_exit n child pidfd
      end
  end.

(** [write_start]: whether the byte was written; the owner is reset in any case. *)
Definition write_start (fuel : nat) (fd : Z) : M W bool :=
  count ← retry_eintr fuel (sys_write fd [1]);
  fd_reset fd (-1);;
  mret (bool_decide (count = Some 1)).

(** [int ignored = 0; while (::waitpid(child, &ignored, 0) < 0 && errno == EINTR) {}]. *)
Definition reap_child : M W unit :=
  retry_eintr (loop_fuel ctx) (sys_waitpid (child ctx));; mret tt.

(** A call of [signal_process_group_members] for the group of the child, and the
    assignment to [cleanup_failed] that follows an incomplete one. *)
Definition signal_group (signal : Z) (st : supervision)
    : M W (process_group_signal_result * supervision) :=
  r ← signal_process_group_members (scan_fuel ctx) (child ctx) (child ctx) (pidfd ctx) signal;
  mret (r, if complete r then st else set_cleanup_failed true st).

(** ** The parts of the loop body *)

Definition part_exit (st : supervision) : M W supervision :=
  if child_exited st then mret st
  else
    r ← observe_child_exit (loop_fuel ctx) (child ctx) (pidfd ctx);
    let '(exited, information) := (r : bool * siginfo) in
    mret (set_child_information information (set_child_exited exited st)).

(** The lambda [observe_cancellation]. *)
Definition observe_cancellation (st : supervision) : M W supervision :=
  if negb (controlled ctx) || cancellation_observed st || child_exited st then mret st
  else
    requested ← issue env_cancellation_requested;
    if negb requested then mret st
    else
      let st := set_cancellation_observed true st in
      let st := set_cancellation_before_start (negb (start_released st)) st in
      if cancellation_before_start st then
        fd ← fd_reset (start_write st) (-1);
        mret (set_start_write fd st)
      else mret st.

Definition part_gate (st : supervision) : M W supervision :=
  if ready_seen st && negb (start_released st) && negb (cancellation_observed st) then
    st ← observe_cancellation st;
    if cancellation_observed st then mret st
    else
      written ← write_start (loop_fuel ctx) (start_write st);
      let st := set_start_write (-1) st in
      mret (if (written : bool) then set_start_released true st else st)
  else mret st.

(** The lambda [send_cancellation_signal]. *)
Definition part_cancel (st : supervision) : M W supervision :=
  if negb (cancellation_observed st) || cancellation_signal_attempted st ||
     (start_released st && negb (exec_confirmed st)) then mret st
  else
    r ← signal_group SIGTERM st;
    let '(result, st) := (r : process_group_signal_result * supervision) in
    let st := set_cancellation_signal_attempted true st in
    let st := set_cancellation_signal_delivered (leader_signaled result) st in
    now ← issue env_now;
    mret (set_cancellation_deadline (Some (now + milliseconds (grace_period ctx))) st).

Definition part_force (now : Z) (st : supervision) : M W supervision :=
  if cancellation_signal_attempted st && negb (forced_signal_sent st) &&
     reached now (cancellation_deadline st) && negb (cleanup_complete st) then
    r ← signal_group SIGKILL st;
    mret (set_cleanup_deadline (Some (now + milliseconds 1000)) (set_forced_signal_sent true r.2))
  else mret st.

Definition part_begin_cleanup (now : Z) (st : supervision) : M W supervision :=
  if child_exited st && controlled ctx && negb (cleanup_started st) then
    let st := set_cleanup_started true st in
    if negb (cancellation_signal_attempted st) then
      r ← signal_group SIGTERM st;
      mret (set_cleanup_deadline (Some (now + milliseconds 200)) r.2)
    else if negb (forced_signal_sent st) then
      mret (set_cleanup_deadline (cancellation_deadline st) st)
    else mret st
  else mret st.

Definition part_advance_cleanup (now : Z) (st : supervision) : M W supervision :=
  if child_exited st && controlled ctx && cleanup_started st && negb (cleanup_complete st) then
    st ← (if forced_signal_sent st then r ← signal_group SIGKILL st; mret r.2 else mret st);
    gone ← wait_process_group_members_gone (loop_fuel ctx) (scan_fuel ctx) (child ctx) (child ctx) 0;
    if (gone : bool) then mret (set_cleanup_complete true st)
    else if reached now (cleanup_deadline st) then
      if negb (forced_signal_sent st) then
        r ← signal_group SIGKILL st;
        mret (set_cleanup_deadline (Some (now + milliseconds 1000))
                (set_forced_signal_sent true r.2))
      else
        r ← signal_group SIGKILL st;
        mret (set_cleanup_complete true (set_cleanup_failed true r.2))
    else mret st
  else mret st.

Definition part_reap (st : supervision) : M W supervision :=
  st ← (if child_exited st && controlled ctx && cleanup_complete st && negb (child_reaped st) then
          reap_child;; mret (set_child_reaped true st)
        else mret st);
  if child_exited st && negb (controlled ctx) && negb (child_reaped st) then
    reap_child;;
    let st := set_child_reaped true st in
    cleaned ← cleanup_group (child ctx);
    mret (set_cleanup_failed (negb cleaned) (set_cleanup_complete cleaned st))
  else mret st.

Definition part_streams (st : supervision) : M W supervision :=
  let events := Z.lor POLLIN (Z.lor POLLHUP POLLERR) in
  ignore (sys_poll [(out_read st, events); (err_read st, events); (control_read st, events);
                    (ready_read st, events); (pidfd ctx, events)] 10);;
  r ← drain_fd (loop_fuel ctx) (out_read st) (output_material st) (capture_failed st);
  let '(fd, bytes, failed) := (r : Z * list Z * bool) in
  let st := set_capture_failed failed (set_output_material bytes (set_out_read fd st)) in
  r ← drain_fd (loop_fuel ctx) (err_read st) (error_material st) (capture_failed st);
  let '(fd, bytes, failed) := (r : Z * list Z * bool) in
  mret (set_capture_failed failed (set_error_material bytes (set_err_read fd st))).

(** [while (control.read)]: the record has [sizeof_control] bytes. *)
Definition sizeof_control : nat := 12.
Fixpoint part_control (fuel : nat) (st : supervision) : M W supervision :=
  if negb (fd_bool (control_read st)) then mret st
  else
  match fuel with
  | O => out_of_fuel
  | S n =>
      r ← attempt (sys_read (control_read st) (Z.of_nat (sizeof_control - length (control_bytes st))));
      match r with
      | Some [] =>
          fd ← fd_reset (control_read st) (-1);
          let st := set_control_read fd st in
          mret (if (length (control_bytes st) =? 0)%nat && start_released st
                then set_exec_confirmed true st else st)
      | Some bytes =>
          let st := set_control_bytes (control_bytes st ++ bytes) st in
          if (length (control_bytes st) =? sizeof_control)%nat then
            fd ← fd_reset (control_read st) (-1);
            part_control n (set_control_read fd st)
          else part_control n st
      | None =>
          e ← get_errno;
          if e =? EINTR then part_control n st
          else if (e =? EAGAIN) || (e =? EWOULDBLOCK) then mret st
          else fd ← fd_reset (control_read st) (-1); mret (set_control_read fd st)
      end
  end.

(** [while (ready.read)]. *)
Fixpoint part_ready (fuel : nat) (st : supervision) : M W supervision :=
  if negb (fd_bool (ready_read st)) then mret st
  else
  match fuel with
  | O => out_of_fuel
  | S n =>
      r ← attempt (sys_read (ready_read st) 1);
      match r with
      | Some [] => fd ← fd_reset (ready_read st) (-1); mret (set_ready_read fd st)
      | Some (byte :: _) => part_ready n (if byte =? 1 then set_ready_seen true st else st)
      | None =>
          e ← get_errno;
          if e =? EINTR then part_ready n st
          else if (e =? EAGAIN) || (e =? EWOULDBLOCK) then mret st
          else fd ← fd_reset (ready_read st) (-1); mret (set_ready_read fd st)
      end
  end.

(** ** The loop *)

Definition supervision_step (st : supervision) : M W supervision :=
  st ← part_exit st;
  st ← observe_cancellation st;
  st ← part_gate st;
  st ← part_cancel st;
  now ← issue env_now;
  st ← part_force now st;
  st ← part_begin_cleanup now st;
  st ← part_advance_cleanup now st;
  st ← part_reap st;
  st ← part_streams st;
  st ← part_control (loop_fuel ctx) st;
  part_ready (loop_fuel ctx) st.

Definition finished (st : supervision) : bool :=
  child_reaped st && negb (fd_bool (out_read st)) && negb (fd_bool (err_read st)) &&
  negb (fd_bool (control_read st)) && negb (fd_bool (ready_read st)).

(** The [while] loop; the test before its closing brace is the same as its condition. *)
Fixpoint supervise (turns : nat) (st : supervision) : M W supervision :=
  if finished st then mret st
  else
  match turns with
  | O => out_of_fuel
  | S n => st ← supervision_step st; supervise n st
  end.

(** The states the loop reaches from the state [st0] of its variables and [s0] of the
    machine. *)
Inductive reachable (st0 : supervision) (s0 : mstate W) : supervision → mstate W → Prop :=
| reach_start : reachable st0 s0 st0 s0
| reach_step st s st' s' :
    reachable st0 s0 st s → finished st = false → supervision_step st s = (Done st', s') →
    reachable st0 s0 st' s'.

End supervisor.

(** The variables as the loop finds them. *)
Definition initial_supervision (out err control ready start : Z) : supervision :=
  mk_supervision out err control ready start [] [] [] false false false false false false
    no_information false false false false false None false false false None.

(** ** After the loop *)

Definition termination_from_siginfo (information : siginfo) : process_termination :=
  if si_code information =? CLD_EXITED then terminated_exited (si_status information mod 2 ^ 32)
  else terminated_signaled (si_status information mod 2 ^ 32).
