(* ===== verification/SupervisorRuns.v ===== *)
(** * Concrete runs of the supervision loop

    A kernel whose state holds what is still to happen: the bytes of each pipe, the
    exit of the child, the cancellation request, the entries of /proc, and the clock.
    The runs are used as witnesses, and two of them show behaviours of the loop that
    its documentation rules out. *)

From S2P Require Import Prelude Machine Linux Logic Posix Script Pkgexec Records ProcFs.
From S2P Require Import ProcessControl Support Yields Supervisor.
Local Open Scope string_scope.
Local Open Scope list_scope.
Local Open Scope Z_scope.

Record scene : Set := mk_scene {
  reads : list (Z * option (list Z));   (* next reads per descriptor; [None] is EAGAIN *)
  exits : list bool;                    (* whether the child has exited; then [true] *)
  requests : list bool;                 (* whether cancellation is requested; then [false] *)
  entries : list (option string);       (* entries of /proc; then the end *)
  leader_reaped : bool;
  clock : Z;
  tick : Z
}.

(** The first scripted read of [fd], and the rest of the script. *)
Fixpoint next_read (fd : Z) (script : list (Z * option (list Z)))
    : option (list Z) * list (Z * option (list Z)) :=
  match script with
  | [] => (Some [], [])
  | (fd', r) :: rest =>
      if fd =? fd' then (r, rest)
      else let '(found, rest') := next_read fd rest in (found, (fd', r) :: rest')
  end.

Definition scene_run {R} (c : call R) (w : scene) : R * scene :=
  match c in call R return R * scene with
  | sys_read fd _ =>
      let '(r, rest) := next_read fd (reads w) in
      (match r with Some bytes => Ok bytes | None => Err EAGAIN end,
       mk_scene rest (exits w) (requests w) (entries w) (leader_reaped w) (clock w) (tick w))
  | sys_waitid _ _ _ =>
      (Ok (mk_siginfo (if default true (head (exits w)) then 42 else 0) CLD_EXITED 0),
       mk_scene (reads w) (tail (exits w)) (requests w) (entries w) (leader_reaped w) (clock w) (tick w))
  | env_cancellation_requested =>
      (default false (head (requests w)),
       mk_scene (reads w) (exits w) (tail (requests w)) (entries w) (leader_reaped w) (clock w) (tick w))
  | sys_readdir _ =>
      (Ok (default None (head (entries w))),
       mk_scene (reads w) (exits w) (requests w) (tail (entries w)) (leader_reaped w) (clock w) (tick w))
  | env_now =>
      (clock w, mk_scene (reads w) (exits w) (requests w) (entries w) (leader_reaped w) (clock w + tick w) (tick w))
  | sys_waitpid pid =>
      (Ok (pid, 0), mk_scene (reads w) (exits w) (requests w) (entries w) true (clock w) (tick w))
  | sys_write _ bytes => (Ok (Z.of_nat (length bytes)), w)
  | sys_kill _ _ => (Err ESRCH, w)
  | sys_pidfd_open _ => (Ok 30, w)
  | sys_pidfd_send_signal fd _ => (if (fd =? 20) && leader_reaped w then Err ESRCH else Ok tt, w)
  | sys_opendir _ => (Ok 40, w)
  | sys_closedir _ => (Ok tt, w)
  | sys_close _ => (Ok tt, w)
  | sys_poll _ _ => (Ok (0, []), w)
  | sys_getline _ => (Some "7 (work) S 42 42 42 0", w)
  | c => (default_answer c, w)
  end.

#[export] Instance scene_kernel : Kernel scene := {| kernel_run := @scene_run |}.

(** The grace period is one minute. *)
Definition run_context (token : bool) : supervision_context :=
  mk_context 20 20 42 (if token then 20 else -1) token 60000.

Definition run_start : supervision := initial_supervision 3 4 5 6 7.

Definition run (token : bool) (w : scene) : outcome supervision * mstate scene :=
  supervise (run_context token) 20 run_start (start w).

(** An execution without a token that prints "hi" on one stream and "x" on the other. *)
Definition plain_scene : scene :=
  mk_scene [(3, Some [104]); (4, Some [120]); (6, Some [1]); (6, None); (5, None);
            (3, None); (3, Some [105]); (4, None)]
    [false; false] [] [] false 0 1000000.


(** The child runs on after a cancellation request: it is signaled, and killed when the
    minute is over. *)
Definition stubborn_scene : scene :=
  mk_scene [(6, Some [1]); (6, None); (5, None)]
    [false; false; false; false; false] [false; false; false; true] [] false 0 20000000000.

(** Cancellation is requested after the start byte was sent; before the end of the
    control pipe is read, the child exits with status 0. A member of its group is left. *)
Definition late_scene : scene :=
  mk_scene [(6, Some [1]); (6, None); (5, None); (5, None); (5, None); (3, None); (4, None)]
    [false; false; false] [false; false; false; true]
    [Some "7"; None; Some "7"; None] false 0 1000000.

(** As before, with a member that stays for ten scans of /proc. *)
Definition lingering_scene : scene :=
  mk_scene (reads late_scene) (exits late_scene) (requests late_scene)
    (concat (repeat [Some "7"; None] 10)) false 0 100000000.

(** As before, with no member left, while a stream stays open for some iterations; a
    process of a new group with the number of the old one appears after the reaping. *)
Definition reused_scene : scene :=
  mk_scene ((3, None) :: (3, None) :: (3, None) :: (3, None) :: reads late_scene)
    (exits late_scene) (requests late_scene) [None; None; Some "7"; None] false 0 1000000.

(** The state of the variables at the end of a run, if it ends. *)
Definition final (r : outcome supervision * mstate scene) : option supervision :=
  match r.1 with Done st => Some st | _ => None end.

(** A child that exited on its own with status 0, and whose exit was observed before any
    cancellation signal was sent, ends up with the cancellation signal recorded as
    delivered: the signal sent in the next iteration is admitted for the zombie. *)
Example natural_exit_signaled :
  (λ st, (child_information st, exec_confirmed st, cancellation_signal_delivered st, cleanup_complete st,
          cleanup_failed st)) <$> final (run true late_scene)
  = Some (mk_siginfo 42 CLD_EXITED 0, true, true, true, false).
Proof. vm_compute. reflexivity. Qed.

(** The group is killed when less than two seconds of the one-minute grace period have
    passed: the 200 ms deadline of cleanup is not extended by the cancellation signal. *)
Example killed_before_grace :
  (λ st, (cancellation_signal_attempted st, forced_signal_sent st)) <$> final (run true lingering_scene)
    = Some (true, true) ∧
  clock (world (run true lingering_scene).2) = 1800000000 ∧
  milliseconds (grace_period (run_context true)) = 60000000000.
Proof. vm_compute. auto. Qed.

(** The signals sent after the child was reaped (the trace is newest first). *)
Fixpoint signals_since_reaping (l : list event) : list (Z * Z) :=
  match l with
  | [] => []
  | Event c _ :: rest =>
      match c with
      | sys_waitpid _ => []
      | sys_pidfd_send_signal fd signal => (fd, signal) :: signals_since_reaping rest
      | _ => signals_since_reaping rest
      end
  end.

(** After the child was reaped the loop scans /proc once more for its group and signals
    the member it finds, through the pidfd 30 of that process: nothing keeps the group
    number from being in use by others by then. *)
Example signal_after_reaping :
  signals_since_reaping (trace (run true reused_scene).2) = [(20, SIGTERM); (30, SIGTERM)].
Proof. vm_compute. reflexivity. Qed.
