(* ===== verification/SupervisorFacts.v ===== *)
(** * Properties of the supervision loop

    Invariants of the states the loop reaches, by induction on [reachable]: each part
    of the body keeps them, and the loop composes the parts. The flags of the start
    gate, the bytes captured from each stream, the conditions under which a process is
    killed, and the progress of cleanup towards reaping the child. *)

From S2P Require Import Prelude Machine Linux Logic Posix Script Pkgexec Records ProcFs.
From S2P Require Import ProcessControl Paths Support Yields Supervisor.
Local Open Scope Z_scope.

(** ** Composing the parts *)

Section keeps.
Context {W : Type} `{K : Kernel W}.

(** What the loop keeps: a property of its variables and of the calls made since the
    trace was [t0]. *)
Definition since (t0 : list event) (J : supervision → list event → Prop)
    (st : supervision) (s : mstate W) : Prop :=
  ∃ evs, trace s = evs ++ t0 ∧ J st evs.

(** From a state with [J], [f] returns a state with [J']. *)
Definition leads (J J' : supervision → list event → Prop) (f : supervision → M W supervision)
    : Prop :=
  ∀ t0 st s st' s', since t0 J st s → f st s = (Done st', s') → since t0 J' st' s'.
Definition keeps (J : supervision → list event → Prop) := leads J J.

Lemma leads_bind J1 J2 J3 f g : leads J1 J2 f → leads J2 J3 g → leads J1 J3 (λ st, f st ≫= g).
Proof.
  intros Hf Hg t0 st s st' s' H E. unfold mbind, M_bind in E.
  destruct (f st s) as [[a|x|c|] s1] eqn:E1; try discriminate. eauto.
Qed.

Lemma leads_weaken J1 J2 J f : leads J1 J2 f → (∀ st evs, J2 st evs → J st evs) → leads J1 J f.
Proof. intros Hf H t0 st s st' s' H1 E. destruct (Hf _ _ _ _ _ H1 E) as (evs & ? & ?). exists evs. auto. Qed.

Lemma leads_clock J J' (Jn : Z → supervision → list event → Prop) (f : Z → supervision → M W supervision) :
  (∀ st evs now, J st evs → Jn now st (Event env_now now :: evs)) →
  (∀ now, leads (Jn now) J' (f now)) → leads J J' (λ st, now ← issue env_now; f now st).
Proof.
  intros Hin Hf t0 st s st' s' (evs & E & H). unfold mbind, M_bind, issue.
  destruct (kernel_run env_now (world s)) as [now w]. apply Hf.
  exists (Event env_now now :: evs). simpl. rewrite E. auto.
Qed.

(** A part whose calls are of no interest to [J]. *)
Lemma keeps_quiet J f P :
  (∀ st, emits P (f st)) →
  (∀ st evs new, J st evs → Forall P new → yields (λ st', J st' (new ++ evs)) (f st)) →
  keeps J f.
Proof.
  intros Hp Hy t0 st s st' s' (evs & E & H) R.
  destruct (Hp st s) as (new & E' & F). specialize (Hy st evs new H F s).
  rewrite R in E', Hy. simpl in *. exists (new ++ evs). by rewrite E', E, app_assoc.
Qed.

Lemma reachable_keeps ctx J st0 s0 st s :
  J st0 [] → keeps J (supervision_step ctx) → reachable ctx st0 s0 st s →
  since (trace s0) J st s.
Proof.
  intros H0 HK. induction 1 as [|st s st' s' _ IH _ E]; [by exists []|]. by eapply HK.
Qed.

Lemma supervise_reachable ctx turns st0 s0 st s st' s' :
  reachable ctx st0 s0 st s → supervise ctx turns st s = (Done st', s') →
  reachable ctx st0 s0 st' s' ∧ finished st' = true.
Proof.
  revert st s. induction turns as [|n IH]; intros st s H; simpl; destruct (finished st) eqn:F.
  1,3: intros [= -> ->]; done.
  { discriminate. }
  unfold mbind, M_bind. destruct (supervision_step ctx st s) as [[a|x|c|] s1] eqn:E; try discriminate.
  intros R. eapply IH; [|exact R]. by eapply reach_step.
Qed.

(** The body keeps [J] when its parts do; between the reading of the clock and the end
    of [part_advance_cleanup] they may keep [Jn now] instead. *)
Lemma step_keeps ctx J (Jn : Z → supervision → list event → Prop) :
  (∀ st evs now, J st evs → Jn now st (Event env_now now :: evs)) →
  (∀ st evs now, Jn now st evs → J st evs) →
  keeps J (part_exit ctx) → keeps J (observe_cancellation ctx) → keeps J (part_gate ctx) →
  keeps J (part_cancel ctx) →
  (∀ now, keeps (Jn now) (part_force ctx now)) →
  (∀ now, keeps (Jn now) (part_begin_cleanup ctx now)) →
  (∀ now, keeps (Jn now) (part_advance_cleanup ctx now)) →
  keeps J (part_reap ctx) → keeps J (part_streams ctx) →
  keeps J (part_control (loop_fuel ctx)) → keeps J (part_ready (loop_fuel ctx)) →
  keeps J (supervision_step ctx).
Proof.
  intros Hin Hout H1 H2 H3 H4 H5 H6 H7 H8 H9 H10 H11.
  unfold supervision_step, keeps in *. do 4 (eapply leads_bind; [eassumption|]).
  apply (leads_clock _ _ Jn); [done|]. intros now. cbn beta.
  eapply leads_bind; [apply H5|]. eapply leads_bind; [apply H6|].
  eapply (leads_bind _ J); [eapply leads_weaken; [apply H7|eauto]|].
  do 3 (eapply leads_bind; [eassumption|]). exact H11.
Qed.

End keeps.

(** ** The flags *)

(** How the flags of the loop depend on each other. *)
Record consistent (ctx : supervision_context) (st : supervision) : Prop := mk_consistent {
  exec_after_release : exec_confirmed st = true → start_released st = true;
  exec_without_failure :
    exec_confirmed st = true → control_bytes st = [] ∧ fd_bool (control_read st) = false;
  release_after_ready : start_released st = true → ready_seen st = true;
  early_cancellation :
    cancellation_before_start st = true →
    cancellation_observed st = true ∧ start_released st = false;
  late_cancellation :
    cancellation_observed st = true → cancellation_before_start st = false →
    start_released st = true;
  cancellation_by_token : cancellation_observed st = true → controlled ctx = true;
  signal_after_cancellation : cancellation_signal_attempted st = true → cancellation_observed st = true;
  delivery_by_attempt : cancellation_signal_delivered st = true → cancellation_signal_attempted st = true;
  cleanup_after_exit :
    cleanup_started st = true → child_exited st = true ∧ controlled ctx = true;
  reaped_after_cleanup :
    child_reaped st = true →
    child_exited st = true ∧ (controlled ctx = true → cleanup_complete st = true) ∧
    (controlled ctx = false → cleanup_failed st = negb (cleanup_complete st));
  completion_after_start :
    cleanup_complete st = true →
    (controlled ctx = true → cleanup_started st = true) ∧
    (controlled ctx = false → child_reaped st = true);
  exit_information : child_exited st = true → si_pid (child_information st) ≠ 0;
  attempt_has_deadline : cancellation_signal_attempted st = true → cancellation_deadline st ≠ None;
  cleanup_has_deadline :
    cleanup_started st = true ∨ forced_signal_sent st = true → cleanup_deadline st ≠ None
}.

Lemma consistent_initial ctx out err control ready start :
  consistent ctx (initial_supervision out err control ready start).
Proof. constructor; simpl; intuition congruence. Qed.

(** Split on the branches of a part, turn the tests it made into equations, and check
    each field of the invariant. *)
Ltac split_state :=
  repeat match goal with |- context [if ?b then set_start_released _ _ else _] => destruct b eqn:?
                       | |- context [if ?b then _ else set_cleanup_failed _ _] => destruct b eqn:? 
                       | |- context [if ?b then set_exec_confirmed _ _ else _] => destruct b eqn:? end.
Section flags.
Context {W : Type} `{K : Kernel W} (ctx : supervision_context).

Lemma yields_fd_reset fd next : yields (λ _, True) (fd_reset (W := W) fd next).
Proof.
  unfold fd_reset. eapply yields_bind_any; [|intros; by apply yields_ret].
  destruct (fd_bool fd); [apply yields_ignore|by apply yields_ret].
Qed.

Lemma yields_after_reset {A} (Q : A → Prop) fd next (k : Z → M W A) :
  yields Q (k next) → yields Q (fd_reset fd next ≫= k).
Proof.
  intros H. eapply (yields_bind (λ r, r = next)); [|by intros ? ->]. unfold fd_reset.
  eapply yields_bind_any; [|intros; by apply yields_ret].
  destruct (fd_bool fd); [apply yields_ignore|by apply yields_ret].
Qed.

Lemma yields_process_group_of process : yields (λ _, True) (process_group_of (W := W) process).
Proof. unfold process_group_of. by yields_auto. Qed.
Lemma yields_scan_entries fuel d found : yields (λ _, True) (scan_entries (W := W) fuel d found).
Proof. revert found. induction fuel as [|n IH]; intros found; simpl; yields_auto; auto. Qed.
Lemma yields_process_ids fuel : yields (λ _, True) (process_ids (W := W) fuel).
Proof.
  pose proof (yields_scan_entries fuel). unfold process_ids. by yields_auto.
Qed.
#[local] Hint Resolve yields_fd_reset yields_process_group_of yields_process_ids : yields.

Lemma yields_signal_members group leader signal okay processes :
  yields (λ _, True) (signal_members (W := W) group leader signal okay processes).
Proof.
  revert okay. induction processes as [|p rest IH]; intros okay; simpl; yields_auto; auto.
  - unfold signal_member, open_pidfd, send_pidfd_signal. by yields_auto.
Qed.
Lemma yields_signal_process_group fuel group leader pidfd signal :
  yields (λ _, True) (signal_process_group_members (W := W) fuel group leader pidfd signal).
Proof.
  unfold signal_process_group_members, send_pidfd_signal. eapply yields_bind_any; [apply yields_process_ids|].
  intros processes. eapply yields_bind_any; [|intros; by yields_auto].
  destruct processes; [apply yields_signal_members|by apply yields_ret].
Qed.
Lemma yields_find_member group leader processes :
  yields (λ _, True) (find_member (W := W) group leader processes).
Proof. induction processes as [|p rest IH]; simpl; yields_auto; auto. Qed.
Lemma yields_members_gone fuel scan group leader timeout :
  yields (λ _, True) (wait_process_group_members_gone (W := W) fuel scan group leader timeout).
Proof.
  pose proof (yields_find_member group leader).
  unfold wait_process_group_members_gone. eapply yields_bind_any; [apply yields_issue|]. intros now.
  induction fuel as [|n IH]; simpl; yields_auto; auto.
Qed.
#[local] Hint Resolve yields_signal_process_group yields_members_gone : yields.

Lemma yields_after_signal {A} (Q : A → Prop) signal st k :
  (∀ result okay, yields Q (k (result, if (okay : bool) then st else set_cleanup_failed true st))) →
  yields Q (signal_group (W := W) ctx signal st ≫= k).
Proof.
  intros H. apply (yields_bind (λ r, ∃ okay : bool, r.2 = if okay then st else set_cleanup_failed true st)).
  - unfold signal_group. eapply yields_bind_any; [apply yields_signal_process_group|].
    intros r. apply yields_ret. by exists (complete r).
  - intros [result st'] [okay E]. simpl in E. subst st'. apply H.
Qed.

#[local] Ltac consistent_auto :=
  repeat first [apply yields_after_signal; intros | yields_step]; split_state; split_tests; simpl in *;
  lazymatch goal with
  | |- True => exact I
  | H : consistent _ _ |- _ => destruct H; constructor; simpl in *; intros; split_tests; intuition congruence
  end.

Lemma consistent_exit st : consistent ctx st → yields (consistent ctx) (part_exit (W := W) ctx st).
Proof.
  intros H. unfold part_exit. destruct (child_exited st) eqn:E; [by apply yields_ret|].
  apply (yields_bind (λ r : bool * siginfo, r.1 = true → si_pid r.2 ≠ 0)).
  - generalize (loop_fuel ctx). intros fuel. induction fuel as [|n IH]; simpl; yields_auto; try done.
    simpl. intros ?%negb_true_iff%Z.eqb_neq. done.
  - intros [exited information] Hi. simpl in *. apply yields_ret.
    destruct H; constructor; simpl; intuition congruence.
Qed.

Lemma consistent_observe st :
  consistent ctx st →
  yields (λ st', consistent ctx st' ∧ ready_seen st' = ready_seen st)
    (observe_cancellation (W := W) ctx st).
Proof.
  intros H. unfold observe_cancellation.
  yields_auto; (split; [|done]); split_tests; simpl in *; try done;
    destruct H; constructor; simpl in *; intros; split_tests; intuition congruence.
Qed.

Lemma consistent_gate st : consistent ctx st → yields (consistent ctx) (part_gate (W := W) ctx st).
Proof.
  intros H. unfold part_gate, write_start. yields_step; [|by apply yields_ret]. split_tests.
  eapply yields_bind; [by apply consistent_observe|]. intros st' [H' Hr].
  clear H. consistent_auto.
Qed.

Lemma consistent_cancel st : consistent ctx st → yields (consistent ctx) (part_cancel (W := W) ctx st).
Proof. intros H. unfold part_cancel. consistent_auto. Qed.

Lemma consistent_force now st : consistent ctx st → yields (consistent ctx) (part_force (W := W) ctx now st).
Proof. intros H. unfold part_force. consistent_auto. Qed.

Lemma consistent_begin now st :
  consistent ctx st → yields (consistent ctx) (part_begin_cleanup (W := W) ctx now st).
Proof. intros H. unfold part_begin_cleanup. consistent_auto. Qed.

Lemma consistent_advance now st :
  consistent ctx st → yields (consistent ctx) (part_advance_cleanup (W := W) ctx now st).
Proof.
  intros H. unfold part_advance_cleanup. yields_step; [|by apply yields_ret]. split_tests.
  apply (yields_bind (λ st', consistent ctx st' ∧ cleanup_started st' = true)).
  - destruct (forced_signal_sent st); [|by apply yields_ret]. apply yields_after_signal. intros r [].
    + by apply yields_ret.
    + apply yields_ret. split; [|done]. destruct H; constructor; simpl in *; intuition congruence.
  - intros st' [H' Hr]. clear H. consistent_auto.
Qed.

Lemma yields_cleanup_group group : yields (λ _, True) (cleanup_group (W := W) group).
Proof.
  assert (yields (λ _, True) (group_gone (W := W) group)) by (unfold group_gone; by yields_auto).
  assert (∀ n, yields (λ _, True) (wait_group_gone (W := W) n group)).
  { intros n. induction n as [|n IH]; simpl; yields_auto; auto. }
  unfold cleanup_group. yields_auto; auto.
Qed.
#[local] Hint Resolve yields_cleanup_group : yields.

Lemma consistent_reap st : consistent ctx st → yields (consistent ctx) (part_reap (W := W) ctx st).
Proof.
  intros H. unfold part_reap, reap_child.
  apply (yields_bind (consistent ctx)); [consistent_auto|]. clear H. intros st' H. consistent_auto.
Qed.

Lemma yields_drain_fd fuel fd output failed :
  yields (λ _, True) (drain_fd (W := W) fuel fd output failed).
Proof.
  revert fd output failed. induction fuel as [|n IH]; intros fd output failed; simpl; yields_auto; auto.
Qed.
#[local] Hint Resolve yields_drain_fd : yields.

Lemma consistent_streams st : consistent ctx st → yields (consistent ctx) (part_streams (W := W) ctx st).
Proof. intros H. unfold part_streams. consistent_auto. Qed.

Lemma consistent_control fuel st :
  consistent ctx st → yields (consistent ctx) (part_control (W := W) fuel st).
Proof.
  revert st. induction fuel as [|n IH]; intros st H; simpl;
    repeat first [apply yields_after_reset | yields_step]; try apply IH;
    split_state; split_tests; try done; destruct H; constructor; simpl in *; split_tests;
    try solve [intuition congruence].
  intros _. split; [|done]. by apply nil_length_inv, Nat.eqb_eq.
Qed.

Lemma consistent_ready fuel st :
  consistent ctx st → yields (consistent ctx) (part_ready (W := W) fuel st).
Proof.
  revert st. induction fuel as [|n IH]; intros st H; simpl; yields_auto; try apply IH;
    try done; repeat case_match; destruct H; constructor; simpl in *; intuition congruence.
Qed.

End flags.

(** ** What the parts leave alone *)

(** The variables of the streams, of the reports and of the start gate. *)
Definition io (st : supervision) :=
  (out_read st, err_read st, control_read st, ready_read st, output_material st,
   error_material st, capture_failed st, start_released st, control_bytes st).

(** Calls that write to no descriptor, that read from none, and that kill no process. *)
Definition no_write (ev : event) : Prop :=
  match ev with Event c _ => match c with sys_write _ _ => False | _ => True end end.
Definition no_read (ev : event) : Prop :=
  match ev with Event c _ => match c with sys_read _ _ => False | _ => True end end.
Definition no_kill (ev : event) : Prop :=
  match ev with
  | Event c _ =>
      match c with
      | sys_pidfd_send_signal _ signal | sys_kill _ signal => signal ≠ SIGKILL
      | _ => True
      end
  end.

(** What is said of the calls of the scans and signals of a part. *)
Record indifferent (signal : Z) (P : event → Prop) : Prop := mk_indifferent {
  indifferent_getline path r : P (Event (sys_getline path) r);
  indifferent_opendir path r : P (Event (sys_opendir path) r);
  indifferent_readdir d r : P (Event (sys_readdir d) r);
  indifferent_closedir d r : P (Event (sys_closedir d) r);
  indifferent_pidfd p r : P (Event (sys_pidfd_open p) r);
  indifferent_close fd r : P (Event (sys_close fd) r);
  indifferent_now r : P (Event env_now r);
  indifferent_sleep n r : P (Event (env_sleep n) r);
  indifferent_signal fd r : P (Event (sys_pidfd_send_signal fd signal) r)
}.

Section frames.
Context {W : Type} `{K : Kernel W} (ctx : supervision_context).

#[local] Hint Resolve yields_fd_reset yields_cleanup_group yields_members_gone yields_drain_fd : yields.
#[local] Ltac io_auto :=
  repeat first [apply yields_after_signal; intros | yields_step]; split_state; done.

Lemma yields_exit_observed fuel child pidfd :
  yields (λ _, True) (observe_child_exit (W := W) fuel child pidfd).
Proof. induction fuel as [|n IH]; simpl; yields_auto; auto. Qed.
#[local] Hint Resolve yields_exit_observed : yields.

Lemma io_exit st : yields (λ st', io st' = io st) (part_exit (W := W) ctx st).
Proof. unfold part_exit. io_auto. Qed.
Lemma io_observe st : yields (λ st', io st' = io st) (observe_cancellation (W := W) ctx st).
Proof. unfold observe_cancellation. io_auto. Qed.
Lemma io_cancel st : yields (λ st', io st' = io st) (part_cancel (W := W) ctx st).
Proof. unfold part_cancel. io_auto. Qed.
Lemma io_force now st : yields (λ st', io st' = io st) (part_force (W := W) ctx now st).
Proof. unfold part_force. io_auto. Qed.
Lemma io_begin now st : yields (λ st', io st' = io st) (part_begin_cleanup (W := W) ctx now st).
Proof. unfold part_begin_cleanup. io_auto. Qed.
Lemma io_advance now st : yields (λ st', io st' = io st) (part_advance_cleanup (W := W) ctx now st).
Proof.
  unfold part_advance_cleanup. yields_step; [|by apply yields_ret].
  apply (yields_bind (λ st', io st' = io st)); [io_auto|]. intros st' <-. io_auto.
Qed.
Lemma io_reap st : yields (λ st', io st' = io st) (part_reap (W := W) ctx st).
Proof.
  unfold part_reap, reap_child. apply (yields_bind (λ st', io st' = io st)); [io_auto|].
  intros st' <-. io_auto.
Qed.

Lemma emits_signal_members (P : event → Prop) group leader signal okay processes :
  indifferent signal P → emits P (signal_members group leader signal okay processes).
Proof.
  intros []. revert okay. induction processes as [|p rest IH]; intros okay; simpl; emits_auto; auto.
  unfold signal_member, open_pidfd, send_pidfd_signal, process_group_of. emits_auto; auto.
Qed.
Lemma emits_signal_group (P : event → Prop) signal st :
  indifferent signal P → emits P (signal_group ctx signal st).
Proof.
  intros H.
  pose proof (λ okay l, emits_signal_members P (child ctx) (child ctx) signal okay l H) as Hm.
  destruct H. unfold signal_group, signal_process_group_members, send_pidfd_signal.
  emits_auto; auto. by apply emits_process_ids.
Qed.
Lemma emits_members_gone (P : event → Prop) signal fuel scan group leader timeout :
  indifferent signal P → emits P (wait_process_group_members_gone fuel scan group leader timeout).
Proof.
  intros []. assert (∀ l, emits P (find_member group leader l)) as Hf.
  { intros l. induction l as [|p rest IH]; simpl; emits_auto; auto. by apply emits_process_group_of. }
  unfold wait_process_group_members_gone. apply emits_bind; [by apply emits_issue|]. intros now.
  induction fuel as [|n IH]; simpl; emits_auto; auto. by apply emits_process_ids.
Qed.


Lemma emits_fd_reset (P : event → Prop) fd next :
  (∀ r, P (Event (sys_close fd) r)) → emits P (fd_reset fd next).
Proof. intros H. unfold fd_reset. emits_auto; auto. Qed.

(** The quiet parts: all but the gate and the reading of the pipes. *)
Lemma emits_part_exit (P : event → Prop) st :
  (∀ t i o r, P (Event (sys_waitid t i o) r)) → emits P (part_exit ctx st).
Proof.
  intros H. unfold part_exit. emits_auto. generalize (loop_fuel ctx) as fuel.
  intros fuel. induction fuel as [|n IH]; simpl; emits_auto; auto.
Qed.
Lemma emits_observe (P : event → Prop) st :
  (∀ r, P (Event env_cancellation_requested r)) → (∀ fd r, P (Event (sys_close fd) r)) →
  emits P (observe_cancellation ctx st).
Proof. intros H1 H2. unfold observe_cancellation. emits_auto; auto. by apply emits_fd_reset. Qed.
Lemma emits_cancel (P : event → Prop) st :
  indifferent SIGTERM P → emits P (part_cancel ctx st).
Proof.
  intros H. unfold part_cancel. emits_auto; [by apply emits_signal_group|by apply H].
Qed.
Lemma emits_force (P : event → Prop) now st :
  indifferent SIGKILL P → emits P (part_force ctx now st).
Proof. intros H. unfold part_force. emits_auto. by apply emits_signal_group. Qed.
Lemma emits_begin (P : event → Prop) now st :
  indifferent SIGTERM P → emits P (part_begin_cleanup ctx now st).
Proof. intros H. unfold part_begin_cleanup. emits_auto. by apply emits_signal_group. Qed.
Lemma emits_advance (P : event → Prop) now st :
  indifferent SIGKILL P → emits P (part_advance_cleanup ctx now st).
Proof.
  intros H. unfold part_advance_cleanup.
  emits_auto; try (by apply emits_signal_group); by eapply emits_members_gone.
Qed.
Lemma emits_reap (P : event → Prop) st :
  (∀ p r, P (Event (sys_waitpid p) r)) → (∀ n r, P (Event (env_sleep n) r)) →
  (controlled ctx = false → ∀ p s r, P (Event (sys_kill p s) r)) → emits P (part_reap ctx st).
Proof.
  intros H1 H2 H3. unfold part_reap, reap_child. apply emits_bind; [emits_auto; auto|].
  intros st'. destruct (controlled ctx); [rewrite andb_false_r; apply emits_ret|].
  specialize (H3 eq_refl). assert (∀ g, emits P (group_gone g)) as Hg.
  { intros g. unfold group_gone. emits_auto; auto. }
  assert (∀ n g, emits P (wait_group_gone n g)) as Hw.
  { intros n g. induction n as [|n IH]; simpl; emits_auto; auto. }
  unfold cleanup_group. emits_auto; auto.
Qed.
End frames.
