(* ===== verification/Lifecycle.v ===== *)
(** * The lifecycle of a supervised execution

    An abstract protocol of gate, process, cancellation and cleanup, without
    descriptors, bytes, clocks and signals, and the proof that the supervision loop
    refines it: every iteration is a sequence of steps of the protocol. *)

From stdpp Require Import relations.
From S2P Require Import Prelude Machine Linux Logic Posix Script Pkgexec Records ProcFs.
From S2P Require Import ProcessControl Support Yields Supervisor SupervisorRuns SupervisorFacts.
Local Open Scope Z_scope.

(** The start gate: closed, the child is ready, shut for good by an early
    cancellation, the start byte sent, the execution confirmed. *)
Inductive gate_phase : Set := Closed | Announced | Shut | Released | Confirmed.
Inductive process_phase : Set := Running | Zombie | Reaped.
Inductive cancel_phase : Set := Undisturbed | Requested | Signaled.
Inductive cleanup_phase : Set := Pending | Underway | Ended.

Record life : Set := mk_life {
  gate : gate_phase;
  process : process_phase;
  cancel : cancel_phase;
  cleanup : cleanup_phase;
  forced : bool
}.

Definition first_life : life := mk_life Closed Running Undisturbed Pending false.

(** The protocol of an execution with a cancellation token, or without. *)
Inductive lstep (token : bool) : life → life → Prop :=
| life_announce p c l f :
    lstep token (mk_life Closed p c l f) (mk_life Announced p c l f)
| life_release p l f :
    lstep token (mk_life Announced p Undisturbed l f) (mk_life Released p Undisturbed l f)
| life_confirm p c l f :
    lstep token (mk_life Released p c l f) (mk_life Confirmed p c l f)
| life_cancel_early g l f :
    token = true → g = Closed ∨ g = Announced →
    lstep token (mk_life g Running Undisturbed l f) (mk_life Shut Running Requested l f)
| life_cancel_late g l f :
    token = true → g = Released ∨ g = Confirmed →
    lstep token (mk_life g Running Undisturbed l f) (mk_life g Running Requested l f)
| life_signal g p l f :
    g ≠ Released → lstep token (mk_life g p Requested l f) (mk_life g p Signaled l f)
| life_exit g c l f :
    lstep token (mk_life g Running c l f) (mk_life g Zombie c l f)
| life_begin g c f :
    token = true → lstep token (mk_life g Zombie c Pending f) (mk_life g Zombie c Underway f)
| life_force_cancelled g p l :
    l ≠ Ended → lstep token (mk_life g p Signaled l false) (mk_life g p Signaled l true)
| life_force_cleanup g c :
    lstep token (mk_life g Zombie c Underway false) (mk_life g Zombie c Underway true)
| life_end g c f :
    lstep token (mk_life g Zombie c Underway f) (mk_life g Zombie c Ended f)
| life_reap g c f :
    token = true → lstep token (mk_life g Zombie c Ended f) (mk_life g Reaped c Ended f)
| life_reap_plain g c l f :
    token = false → l = Pending ∨ l = Ended →
    lstep token (mk_life g Zombie c Pending f) (mk_life g Reaped c l f).

(** The life an iteration starts from, read off the variables of the loop. *)
Definition life_of (st : supervision) : life :=
  mk_life
    (if exec_confirmed st then Confirmed else if start_released st then Released
     else if cancellation_before_start st then Shut else if ready_seen st then Announced
     else Closed)
    (if child_reaped st then Reaped else if child_exited st then Zombie else Running)
    (if cancellation_signal_attempted st then Signaled
     else if cancellation_observed st then Requested else Undisturbed)
    (if cleanup_complete st then Ended else if cleanup_started st then Underway else Pending)
    (forced_signal_sent st).

(** ** Laws of the protocol *)

(** How far a life has come; every step goes further. *)
Definition progress (l : life) : nat :=
  (match gate l with Closed => 0 | Announced => 1 | Shut => 2 | Released => 2 | Confirmed => 3 end +
   match process l with Running => 0 | Zombie => 1 | Reaped => 2 end +
   match cancel l with Undisturbed => 0 | Requested => 1 | Signaled => 2 end +
   match cleanup l with Pending => 0 | Underway => 1 | Ended => 2 end +
   if forced l then 1 else 0)%nat.

Lemma lstep_progress token l l' : lstep token l l' → (progress l < progress l')%nat.
Proof. destruct 1; repeat match goal with H : _ ∨ _ |- _ => destruct H as [-> | ->] end; unfold progress; simpl; lia. Qed.

(** What holds of every life the protocol reaches. *)
Record lawful (token : bool) (l : life) : Prop := mk_lawful {
  lawful_cancel : cancel l ≠ Undisturbed → token = true;
  lawful_shut : gate l = Shut → cancel l ≠ Undisturbed;
  lawful_undecided : cancel l ≠ Undisturbed → gate l ≠ Closed ∧ gate l ≠ Announced;
  lawful_cleanup : cleanup l ≠ Pending → process l ≠ Running;
  lawful_underway : cleanup l = Underway → token = true;
  lawful_reaped : token = true → process l = Reaped → cleanup l = Ended;
  lawful_forced : forced l = true → cancel l = Signaled ∨ cleanup l ≠ Pending ∧ token = true
}.

Lemma first_lawful token : lawful token first_life.
Proof. constructor; simpl; congruence. Qed.

Lemma lstep_lawful token l l' : lawful token l → lstep token l l' → lawful token l'.
Proof.
  intros [] H. destruct H; simpl in *; constructor; simpl in *; intuition congruence.
Qed.

Lemma lsteps_lawful token l l' : lawful token l → rtc (lstep token) l l' → lawful token l'.
Proof. intros H R. induction R; [done|]. eauto using lstep_lawful. Qed.

(** ** Refinement *)

Section refinement.
Context {W : Type} `{K : Kernel W} (ctx : supervision_context).

#[local] Hint Resolve yields_fd_reset yields_cleanup_group yields_members_gone yields_drain_fd
  yields_exit_observed : yields.

(** One part of the body: what it yields is related to where it started. *)
Definition follows (st st' : supervision) : Prop :=
  consistent ctx st' ∧ rtc (lstep (controlled ctx)) (life_of st) (life_of st').

Lemma follows_refl st : consistent ctx st → follows st st.
Proof. intros H. split; [done|reflexivity]. Qed.

Lemma follows_trans st1 st2 st3 : follows st1 st2 → follows st2 st3 → follows st1 st3.
Proof. intros [_ H1] [H2 H3]. split; [done|by etrans]. Qed.

(** Nothing the protocol speaks of has changed. *)
Lemma same_life st st' : life_of st' = life_of st → rtc (lstep (controlled ctx)) (life_of st) (life_of st').
Proof. by intros ->. Qed.

Lemma follows_bind st f g :
  yields (follows st) (f st) → (∀ st', consistent ctx st' → yields (follows st') (g st')) →
  yields (follows st) (f st ≫= (g : supervision → M W supervision)).
Proof.
  intros Hf Hg. eapply yields_bind; [exact Hf|]. intros st' Hs.
  eapply yields_mono; [apply Hg; apply Hs|]. intros st''. by apply follows_trans.
Qed.

Lemma life_exit_part st : consistent ctx st → yields (follows st) (part_exit (W := W) ctx st).
Proof.
  intros H. apply yields_and; [by apply consistent_exit|]. unfold part_exit.
  destruct (child_exited st) eqn:Ex; [by apply yields_ret|].
  eapply yields_bind_any; [apply yields_exit_observed|]. intros [[] information]; apply yields_ret.
  - destruct H. apply rtc_once. unfold life_of. simpl. rewrite Ex.
    destruct (child_reaped st) eqn:Er; [destruct reaped_after_cleanup; congruence|]. apply life_exit.
  - apply same_life. unfold life_of. simpl. by rewrite Ex.
Qed.

(** Evaluate the life of a state that is given as assignments, with what is known. *)
#[local] Ltac life_auto :=
  unfold life_of; simpl;
  repeat match goal with H : ?b = true |- context [if ?b then _ else _] => rewrite H
                       | H : ?b = false |- context [if ?b then _ else _] => rewrite H
                       | H : forced_signal_sent _ = _ |- context [mk_life _ _ _ _ (forced_signal_sent _)] =>
                           rewrite H end.

Lemma life_observe_part st : consistent ctx st → yields (follows st) (observe_cancellation (W := W) ctx st).
Proof.
  intros H. apply yields_and; [eapply yields_mono; [by apply consistent_observe|by intros ? []]|].
  unfold observe_cancellation. destruct (_ || _ || _) eqn:G; [by apply yields_ret|]. split_tests. destruct H.
  assert (child_reaped st = false) as Er.
  { apply not_true_is_false. intros E. destruct (reaped_after_cleanup E). congruence. }
  assert (cancellation_signal_attempted st = false) as Ea.
  { apply not_true_is_false. intros E. apply signal_after_cancellation in E. congruence. }
  assert (cancellation_before_start st = false) as Eb.
  { apply not_true_is_false. intros E. destruct (early_cancellation E). congruence. }
  eapply yields_bind_any; [apply yields_issue|]. intros []; cbn [negb]; [|by apply yields_ret].
  change (cancellation_before_start (set_cancellation_before_start ?b ?st)) with b.
  change (start_released (set_cancellation_observed true st)) with (start_released st).
  destruct (start_released st) eqn:Es; cbn [negb].
  - apply yields_ret, rtc_once. life_auto. apply life_cancel_late; [done|]. destruct (exec_confirmed st); auto.
  - assert (exec_confirmed st = false) as Ec.
    { apply not_true_is_false. intros E. apply exec_after_release in E. congruence. }
    eapply yields_bind_any; [apply yields_fd_reset|]. intros fd. apply yields_ret, rtc_once.
    life_auto. apply life_cancel_early; [done|]. destruct (ready_seen st); auto.
Qed.

Lemma life_gate_part st : consistent ctx st → yields (follows st) (part_gate (W := W) ctx st).
Proof.
  intros H. apply yields_and; [by apply consistent_gate|]. unfold part_gate.
  destruct (ready_seen st && _ && _) eqn:G; [|by apply yields_ret]. split_tests.
  eapply (yields_bind (λ st1, follows st st1 ∧ consistent ctx st1 ∧ ready_seen st1 = ready_seen st)).
  { apply yields_and; [by apply (life_observe_part st)|by apply (consistent_observe ctx st)]. }
  intros st1 ([C1 R1] & _ & Hready). destruct (cancellation_observed st1) eqn:Eo; [by apply yields_ret|].
  unfold write_start. destruct C1.
  repeat first [apply yields_after_reset | yields_step]; try done; (etrans; [exact R1|]).
  all: match goal with |- context [if ?b then set_start_released _ _ else _] => destruct b end;
    [|by apply same_life].
  all: destruct (start_released st1) eqn:Es; [apply same_life; by life_auto|].
  assert (exec_confirmed st1 = false) as Ec.
  { apply not_true_is_false. intros E. apply exec_after_release in E. congruence. }
  assert (cancellation_signal_attempted st1 = false) as Ea.
  { apply not_true_is_false. intros E. apply signal_after_cancellation in E. congruence. }
  assert (cancellation_before_start st1 = false) as Eb.
  { apply not_true_is_false. intros E. destruct (early_cancellation E). congruence. }
  apply rtc_once.
  assert (ready_seen st1 = true) as Er by congruence. life_auto. apply life_release.
Qed.

Lemma life_cancel_part st : consistent ctx st → yields (follows st) (part_cancel (W := W) ctx st).
Proof.
  intros H. apply yields_and; [by apply consistent_cancel|]. unfold part_cancel.
  destruct (_ || _ || _) eqn:G; [by apply yields_ret|].
  apply orb_false_iff in G as [[Go Ga]%orb_false_iff Gr]. apply negb_false_iff in Go.
  apply yields_after_signal. intros result okay. eapply yields_bind_any; [apply yields_issue|]. intros now.
  apply yields_ret, rtc_once. destruct H, okay; life_auto; apply life_signal;
    destruct (exec_confirmed st), (start_released st), (cancellation_before_start st),
      (ready_seen st); try done; simpl in Gr; congruence.
Qed.

Lemma life_force_part now st : consistent ctx st → yields (follows st) (part_force (W := W) ctx now st).
Proof.
  intros H. apply yields_and; [by apply consistent_force|]. unfold part_force.
  destruct (_ && _ && _ && _) eqn:G; [|by apply yields_ret]. split_tests.
  apply yields_after_signal. intros result okay. apply yields_ret, rtc_once.
  destruct okay; life_auto; apply life_force_cancelled; by destruct (cleanup_started st).
Qed.

Lemma life_begin_part now st :
  consistent ctx st → yields (follows st) (part_begin_cleanup (W := W) ctx now st).
Proof.
  intros H. apply yields_and; [by apply consistent_begin|]. unfold part_begin_cleanup.
  destruct (child_exited st && _ && _) eqn:G; [|by apply yields_ret]. split_tests. destruct H.
  assert (cleanup_complete st = false) as Ec.
  { apply not_true_is_false. intros E. destruct (completion_after_start E) as [E1 _]. rewrite E1 in *; done. }
  assert (child_reaped st = false) as Er.
  { apply not_true_is_false. intros E. destruct (reaped_after_cleanup E) as (_ & E1 & _). rewrite E1 in *; done. }
  assert (∀ st', life_of st' = mk_life (gate (life_of st)) Zombie (cancel (life_of st)) Underway (forced (life_of st)) →
    rtc (lstep (controlled ctx)) (life_of st) (life_of st')) as Hb.
  { intros st' ->. apply rtc_once. life_auto. by apply life_begin. }
  repeat first [apply yields_after_signal; intros ? [] | yields_step]; apply Hb; by life_auto.
Qed.

Lemma life_advance_part now st :
  consistent ctx st → yields (follows st) (part_advance_cleanup (W := W) ctx now st).
Proof.
  intros H. apply yields_and; [by apply consistent_advance|]. unfold part_advance_cleanup.
  destruct (_ && _ && _ && _) eqn:G; [|by apply yields_ret]. split_tests. destruct H.
  assert (child_reaped st = false) as Er.
  { apply not_true_is_false. intros E. destruct (reaped_after_cleanup E) as (_ & E1 & _). rewrite E1 in *; done. }
  assert (∀ st', life_of st' = mk_life (gate (life_of st)) Zombie (cancel (life_of st)) Ended (forced (life_of st)) →
    rtc (lstep (controlled ctx)) (life_of st) (life_of st')) as Hend.
  { intros st' ->. apply rtc_once. life_auto. by apply life_end. }
  apply (yields_bind (λ st1, st1 = st ∨ st1 = set_cleanup_failed true st)).
  { destruct (forced_signal_sent st); [|apply yields_ret; auto].
    apply yields_after_signal. intros ? []; apply yields_ret; auto. }
  intros st1 Hst1. eapply yields_bind_any; [apply yields_members_gone|]. intros gone.
  assert (life_of st1 = life_of st ∧ forced_signal_sent st1 = forced_signal_sent st) as [El Ef]
    by (by destruct Hst1 as [-> | ->]).
  assert (life_of (set_cleanup_complete true st1) =
    mk_life (gate (life_of st)) Zombie (cancel (life_of st)) Ended (forced (life_of st))) as Ec.
  { destruct Hst1 as [-> | ->]; by life_auto. }
  destruct gone; [by apply yields_ret, Hend|].
  destruct (reached now (cleanup_deadline st1)); [|by apply yields_ret, same_life].
  destruct (forced_signal_sent st1) eqn:Efs; cbn [negb]; apply yields_after_signal; intros ? okay;
    apply yields_ret.
  - apply Hend. rewrite <- Ec. by destruct okay.
  - apply rtc_once. destruct okay, Hst1 as [-> | ->]; simpl in Efs; life_auto; apply life_force_cleanup.
Qed.

Lemma life_reap_part st : consistent ctx st → yields (follows st) (part_reap (W := W) ctx st).
Proof.
  intros H. apply yields_and; [by apply consistent_reap|]. unfold part_reap, reap_child. destruct H.
  destruct (controlled ctx) eqn:Et.
  - apply (yields_bind (λ st1, rtc (lstep true) (life_of st) (life_of st1)));
      [|intros st1 R; rewrite andb_false_r; by apply yields_ret].
    destruct (_ && _ && _ && _) eqn:G; [|by apply yields_ret]. split_tests.
    repeat yields_step; [done|]. apply rtc_once. life_auto. by apply life_reap.
  - apply (yields_bind (λ st1, st1 = st)); [rewrite andb_false_r; by apply yields_ret|]. intros ? ->.
    destruct (_ && _ && _) eqn:G; [|by apply yields_ret]. split_tests.
    assert (cleanup_complete st = false) as Ec.
    { apply not_true_is_false. intros E. destruct (completion_after_start E) as [_ E1].
      rewrite E1 in *; done. }
    assert (cleanup_started st = false) as Es.
    { apply not_true_is_false. intros E. destruct (cleanup_after_exit E). congruence. }
    repeat yields_step; [done|]. apply rtc_once. life_auto.
    case_match; apply life_reap_plain; try done; case_match; auto.
Qed.

Lemma life_streams_part st : consistent ctx st → yields (follows st) (part_streams (W := W) ctx st).
Proof.
  intros H. apply yields_and; [by apply consistent_streams|]. unfold part_streams.
  repeat first [done | yields_step]; by apply same_life.
Qed.

Lemma life_control_part fuel st : consistent ctx st → yields (follows st) (part_control (W := W) fuel st).
Proof.
  revert st. induction fuel as [|n IH]; intros st H; simpl;
    (destruct (fd_bool (control_read st)) eqn:Efd; cbn [negb]; [|by apply yields_ret, follows_refl]);
    [apply yields_fuel|].
  assert (∀ st1, consistent ctx st1 → life_of st1 = life_of st → yields (follows st) (part_control n st1)) as Hgo.
  { intros st1 H1 E. eapply yields_mono; [by apply IH|]. intros st2 [H2 R]. split; [done|]. by rewrite <- E. }
  assert (∀ bytes, consistent ctx (set_control_bytes bytes st)) as Hbytes.
  { intros bytes. destruct H. constructor; simpl; try done. intros E.
    destruct (exec_without_failure E) as [_ E']. congruence. }
  assert (∀ st1, consistent ctx st1 → consistent ctx (set_control_read (-1) st1)) as Hclose.
  { intros st1 []. constructor; simpl; try done. intros E. by destruct (exec_without_failure E). }
  eapply yields_bind_any; [apply yields_attempt|]. intros [[|b bytes]|].
  - apply yields_after_reset. destruct (_ && _) eqn:G; apply yields_ret; [|by split; [apply Hclose|reflexivity]].
    split_tests. apply Nat.eqb_eq, nil_length_inv in H0. simpl in H0, H1. split.
    + destruct H. constructor; simpl; try done.
    + destruct (exec_confirmed st) eqn:Ee; [apply same_life; by life_auto|].
      apply rtc_once. life_auto. apply life_confirm.
  - case_match; [|by apply Hgo]. apply yields_after_reset. by apply Hgo; [apply Hclose|].
  - eapply yields_bind_any; [apply yields_get_errno|]. intros e. destruct (e =? EINTR); [by apply Hgo|].
    destruct (_ || _); [by apply yields_ret, follows_refl|]. apply yields_after_reset, yields_ret.
    by split; [apply Hclose|reflexivity].
Qed.

Lemma life_ready_part fuel st : consistent ctx st → yields (follows st) (part_ready (W := W) fuel st).
Proof.
  revert st. induction fuel as [|n IH]; intros st H; simpl;
    (destruct (fd_bool (ready_read st)) eqn:Efd; cbn [negb]; [|by apply yields_ret, follows_refl]);
    [apply yields_fuel|].
  assert (∀ st1, follows st st1 → yields (follows st) (part_ready n st1)) as Hgo.
  { intros st1 H1. eapply yields_mono; [apply IH, H1|]. intros st2. by apply follows_trans. }
  assert (follows st (set_ready_read (-1) st)) as Hclose.
  { split; [by destruct H|reflexivity]. }
  assert (follows st (set_ready_seen true st)) as Hseen.
  { split; [by destruct H|].
    destruct (exec_confirmed st) eqn:E1; [apply same_life; by life_auto|].
    destruct (start_released st) eqn:E2; [apply same_life; by life_auto|].
    destruct (cancellation_before_start st) eqn:E3; [apply same_life; by life_auto|].
    destruct (ready_seen st) eqn:E4; [apply same_life; by life_auto|].
    apply rtc_once. life_auto. apply life_announce. }
  eapply yields_bind_any; [apply yields_attempt|]. intros [[|b bytes]|].
  - by apply yields_after_reset, yields_ret.
  - destruct (b =? 1); apply Hgo; [done|by apply follows_refl].
  - eapply yields_bind_any; [apply yields_get_errno|]. intros e.
    destruct (e =? EINTR); [by apply Hgo, follows_refl|].
    destruct (_ || _); [by apply yields_ret, follows_refl|]. by apply yields_after_reset, yields_ret.
Qed.

Lemma life_step st : consistent ctx st → yields (follows st) (supervision_step (W := W) ctx st).
Proof.
  intros H. unfold supervision_step.
  do 4 (apply follows_bind; [first [by apply life_exit_part|by apply life_observe_part
    |by apply life_gate_part|by apply life_cancel_part]|clear st H; intros st H]).
  eapply yields_bind_any; [apply yields_issue|]. intros now.
  do 6 (apply follows_bind; [first [by apply life_force_part|by apply life_begin_part
    |by apply life_advance_part|by apply life_reap_part|by apply life_streams_part
    |by apply life_control_part]|clear st H; intros st H]).
  by apply life_ready_part.
Qed.

Lemma life_reachable st0 s0 st s :
  consistent ctx st0 → reachable ctx st0 s0 st s → follows st0 st.
Proof.
  intros H. induction 1 as [|st s st' s' _ IH _ E]; [by apply follows_refl|].
  pose proof (life_step st (proj1 IH) s) as Hs. rewrite E in Hs. by eapply follows_trans.
Qed.

End refinement.

(** C7: The supervision loop refines the lifecycle protocol. Every state the loop reaches
    stands for a life that the protocol reaches, and so obeys its laws; and every
    iteration from such a state is a sequence of steps of the protocol, whatever the
    kernel answers: a gate that was shut stays shut, the start byte is sent only while
    nobody asked for cancellation, execution is confirmed only after it, a life is
    reaped only when its cleanup ended, and nothing is taken back. *)
Theorem supervision_refines_lifecycle {W} `{Kernel W} ctx out err control ready start (s0 : mstate W) st s :
  reachable ctx (initial_supervision out err control ready start) s0 st s →
  rtc (lstep (controlled ctx)) first_life (life_of st) ∧
  lawful (controlled ctx) (life_of st) ∧
  ∀ st' s', supervision_step ctx st s = (Done st', s') →
    rtc (lstep (controlled ctx)) (life_of st) (life_of st').
Proof.
  intros R. apply life_reachable in R as [Hc Hl]; [|apply consistent_initial].
  change (life_of (initial_supervision _ _ _ _ _)) with first_life in Hl.
  split; [done|]. split; [eapply lsteps_lawful; [apply first_lawful|done]|].
  intros st' s' E. pose proof (life_step ctx st Hc s) as Hs. rewrite E in Hs. apply Hs.
Qed.

Lemma forced_run_ends :
  ∃ st s, supervise (run_context true) 20 (initial_supervision 3 4 5 6 7)
      (Script.start stubborn_scene) = (Done st, s) ∧ life_of st = mk_life Confirmed Reaped Signaled Ended true.
Proof. eexists _, _. split; [vm_compute; reflexivity|reflexivity]. Qed.

Lemma supervision_refines_lifecycle_witness :
  rtc (lstep true) first_life (mk_life Confirmed Reaped Signaled Ended true).
Proof.
  destruct forced_run_ends as (st & s & R & E). rewrite <- E.
  apply (supervise_reachable _ _ _ _ _ _ _ _ (reach_start _ _ _)) in R as [R _].
  exact (proj1 (supervision_refines_lifecycle (run_context true) 3 4 5 6 7
    (Script.start stubborn_scene) st s R)).
Defined.
