(* ===== verification/SupervisorClaims.v ===== *)
(** * What supervision guarantees

    The start gate, the capture of the streams, escalation to SIGKILL and the
    progress of cleanup, for every state the loop reaches and whatever the kernel
    answers; and concrete runs that show where the documented cancellation contract is
    not met. *)

From S2P Require Import Prelude Machine Linux Logic Posix Script Pkgexec Records ProcFs.
From S2P Require Import ProcessControl Paths Support Yields Supervisor SupervisorRuns.
From S2P Require Import SupervisorFacts.
Local Open Scope Z_scope.

Section claims.
Context {W : Type} `{K : Kernel W} (ctx : supervision_context).

Lemma indifferent_no_write signal : indifferent signal no_write.
Proof. by constructor. Qed.
Lemma indifferent_no_read signal : indifferent signal no_read.
Proof. by constructor. Qed.
Lemma indifferent_no_kill : indifferent SIGTERM no_kill.
Proof. by constructor. Qed.

(** ** The start gate *)

(** A write that put one byte into a pipe; the gate makes the only writes of the loop. *)
Definition releases (ev : event) : bool :=
  match ev with
  | Event c r =>
      match c in call R return R → bool with
      | sys_write _ _ => λ r, match r with Ok count => count =? 1 | Err _ => false end
      | _ => λ _, false
      end r
  end.

Definition released (evs : list event) : nat := length (filter (λ ev, releases ev = true) evs).

Lemma released_app l1 l2 : released (l1 ++ l2) = (released l1 + released l2)%nat.
Proof. unfold released. by rewrite filter_app, length_app. Qed.

Lemma released_quiet evs : Forall no_write evs → released evs = 0%nat.
Proof.
  unfold released. induction 1 as [|ev evs Hev _ IH]; [done|]. rewrite filter_cons_False; [done|].
  destruct ev as [R c r]. by destruct c.
Qed.

Definition gated (st : supervision) (evs : list event) : Prop :=
  consistent ctx st ∧ released evs = Nat.b2n (start_released st).

Lemma keeps_gated_quiet f :
  (∀ st, emits no_write (f st)) →
  (∀ st, yields (λ st', start_released st' = start_released st) (f st)) →
  (∀ st, consistent ctx st → yields (consistent ctx) (f st)) → keeps (W := W) gated f.
Proof.
  intros He Hio Hc. apply (keeps_quiet _ _ no_write); [done|].
  intros st evs new [Hst Hr] Hn. eapply yields_mono; [apply yields_and; [by apply Hc|apply Hio]|].
  intros st' [Hst' Eio]. split; [done|]. by rewrite released_app, (released_quiet new), Hr, Eio.
Qed.

Lemma same_io_released st st' : io st' = io st → start_released st' = start_released st.
Proof. intros E. injection E. congruence. Qed.

Lemma retry_released fuel fd (s : mstate W) :
  wp (retry_eintr fuel (sys_write fd [1])) (λ o s', ∀ count, o = Done count →
    ∃ evs, trace s' = evs ++ trace s ∧ released evs = Nat.b2n (bool_decide (count = Some 1))) s.
Proof.
  revert s. induction fuel as [|n IH]; intros s; cbn [retry_eintr]; [done|].
  wp_run; simpl.
  - intros ? [= <-]. eexists [_]. split; [done|]. unfold released. rewrite filter_cons, filter_nil.
    simpl. destruct (Z.eqb_spec a 1); repeat case_bool_decide; repeat case_decide; by simplify_eq.
  - eapply wp_mono; [apply IH|]. intros o s1 Hw count Hc. destruct (Hw _ Hc) as (evs & E' & Hr).
    simpl in E'. eexists (evs ++ [_]). rewrite <- app_assoc. split; [exact E'|].
    by rewrite released_app, Hr, Nat.add_0_r.
  - intros ? [= <-]. by eexists [_].
Qed.

Lemma write_start_released fuel fd (s : mstate W) :
  wp (write_start fuel fd) (λ o s', ∀ b, o = Done b →
    ∃ evs, trace s' = evs ++ trace s ∧ released evs = Nat.b2n b) s.
Proof.
  unfold write_start. apply wp_bind. eapply wp_mono; [apply retry_released|].
  intros [count|x|c|] s1 H; try done. destruct (H _ eq_refl) as (evs & E & Hr).
  assert (emits no_write (fd_reset (W := W) fd (-1))) as He by by apply emits_fd_reset.
  apply wp_bind. eapply wp_mono; [apply (emits_wp no_write), He|].
  intros [r|x|c|] s2 (new & En & Fn); try done. apply wp_ret. intros b [= <-].
  exists (new ++ evs). rewrite En, E, app_assoc. split; [done|].
  by rewrite released_app, (released_quiet new), Hr.
Qed.

Lemma gate_released st (s : mstate W) :
  start_released st = false →
  wp (part_gate ctx st) (λ o s', ∀ st', o = Done st' →
    ∃ new, trace s' = new ++ trace s ∧ released new = Nat.b2n (start_released st')) s.
Proof.
  intros Hs. unfold part_gate. wp_step.
  2: { apply wp_ret. intros ? [= <-]. exists []. by rewrite Hs. }
  apply wp_bind_run; [|by intros [] ? _ Ho ? ?].
  intros st1 s1 E. pose proof (io_observe (W := W) ctx st s) as Hio. rewrite E in Hio. simpl in Hio.
  assert (emits no_write (observe_cancellation (W := W) ctx st)) as He by by apply emits_observe.
  destruct (He s) as (evs & Et & Fn). rewrite E in Et. simpl in Et.
  assert (start_released st1 = false) as Hs1 by (injection Hio; congruence).
  wp_step; [apply wp_ret; intros ? [= <-]; exists evs; by rewrite Hs1, released_quiet|].
  apply wp_bind. eapply wp_mono; [apply write_start_released|].
  intros [b|x|c|] s2 H; try done. destruct (H _ eq_refl) as (new & En & Hn). apply wp_ret.
  intros ? [= <-]. exists (new ++ evs). rewrite En, Et, app_assoc. split; [done|].
  rewrite released_app, (released_quiet evs), Hn by done. by destruct b; simpl; rewrite ?Hs1.
Qed.

Lemma keeps_gated_gate : keeps (W := W) gated (part_gate ctx).
Proof.
  intros t0 st s st' s' (evs & E & Hc & Hr) R.
  pose proof (consistent_gate ctx st Hc s) as Hc'. rewrite R in Hc'. simpl in Hc'.
  destruct (start_released st) eqn:Hs.
  - unfold part_gate in R. rewrite Hs, andb_false_r in R. injection R as <- <-.
    exists evs. split; [done|]. split; [done|]. by rewrite Hs.
  - pose proof (gate_released st s Hs) as H. unfold wp in H. rewrite R in H.
    destruct (H _ eq_refl) as (new & En & Hn). exists (new ++ evs). simpl in En.
    rewrite En, E, app_assoc. split; [done|]. split; [done|].
    rewrite released_app, Hr, Hn. simpl. lia.
Qed.

Lemma keeps_gated_streams : keeps (W := W) gated (part_streams ctx).
Proof.
  apply keeps_gated_quiet; [|intros st|apply consistent_streams].
  - intros st. unfold part_streams. assert (∀ n fd l b, emits no_write (drain_fd (W := W) n fd l b)).
    { intros n. induction n as [|n IH]; intros fd l b; simpl; emits_auto; try done; auto; by apply emits_fd_reset. }
    by emits_auto.
  - unfold part_streams. pose proof (yields_drain_fd (W := W)). by yields_auto.
Qed.

Lemma keeps_gated_control fuel : keeps (W := W) gated (part_control fuel).
Proof.
  apply keeps_gated_quiet; [intros st|intros st|apply consistent_control].
  - revert st. induction fuel as [|n IH]; intros st; simpl; emits_auto; try done; auto; by apply emits_fd_reset.
  - revert st. induction fuel as [|n IH]; intros st; simpl;
      repeat first [apply yields_after_reset | yields_step]; try exact (IH _); by repeat case_match.
Qed.

Lemma keeps_gated_ready fuel : keeps (W := W) gated (part_ready fuel).
Proof.
  apply keeps_gated_quiet; [intros st|intros st|apply consistent_ready].
  - revert st. induction fuel as [|n IH]; intros st; simpl; emits_auto; try done; auto; by apply emits_fd_reset.
  - revert st. induction fuel as [|n IH]; intros st; simpl;
      repeat first [apply yields_after_reset | yields_step]; try apply IH; try done.
    eapply yields_mono; [apply IH|]. intros st' ->. by case_match.
Qed.

Lemma keeps_gated_step : keeps (W := W) gated (supervision_step ctx).
Proof.
  assert (∀ f, (∀ st, yields (λ st', io st' = io st) (f st)) →
    ∀ st, yields (W := W) (λ st', start_released st' = start_released st) (f st)) as Hf.
  { intros f H st. eapply yields_mono; [apply H|]. apply same_io_released. }
  apply (step_keeps ctx gated (λ _, gated));
    [ intros ??? [] | done | | | apply keeps_gated_gate | | | | |
     | apply keeps_gated_streams | apply keeps_gated_control | apply keeps_gated_ready]; intros;
    [by split | apply keeps_gated_quiet; [intros | apply Hf; intros | ] ..].
  all: auto using emits_part_exit, emits_observe, emits_cancel, emits_force, emits_begin, emits_advance,
    emits_reap, indifferent_no_write, io_exit, io_observe, io_cancel, io_force, io_begin, io_advance,
    io_reap, consistent_exit, consistent_cancel, consistent_force, consistent_begin,
    consistent_advance, consistent_reap.
  - by apply emits_part_exit.
  - by apply emits_observe.
  - intros st H. eapply yields_mono; [by apply consistent_observe|]. by intros st' [].
  - by apply emits_reap.
Qed.

(** C4: The start gate holds in every state the supervision loop reaches, whatever the
    kernel answers and whenever cancellation is requested. At most one start byte is
    ever put into the start pipe, exactly when [start_released] is set, and only after
    the child announced that its setup is complete. Execution is confirmed only after
    the gate was released and with no failure record from the child. A cancellation
    seen before the release keeps the gate shut for good: no start byte enters the
    pipe. The cancellation signal counts as delivered only if cancellation was observed
    through a token; the child is reaped only after it was observed to exit, and in a
    controlled execution only after group cleanup came to an end. *)
Theorem start_gate_safe out err control ready start s0 st s :
  reachable ctx (initial_supervision out err control ready start) s0 st s →
  ∃ evs, trace s = evs ++ trace s0 ∧
    released evs = Nat.b2n (start_released st) ∧
    (start_released st = true → ready_seen st = true) ∧
    (exec_confirmed st = true → start_released st = true ∧ control_bytes st = []) ∧
    (cancellation_before_start st = true → released evs = 0%nat ∧ exec_confirmed st = false) ∧
    (cancellation_signal_delivered st = true → cancellation_observed st = true ∧ controlled ctx = true) ∧
    (child_reaped st = true → child_exited st = true ∧ si_pid (child_information st) ≠ 0 ∧
       (controlled ctx = true → cleanup_complete st = true)).
Proof.
  intros H. apply (reachable_keeps ctx gated) in H as (evs & E & Hc & Hr);
    [|split; [apply consistent_initial|done]|apply keeps_gated_step].
  exists evs. destruct Hc. split; [done|]. split; [done|]. rewrite Hr.
  destruct (start_released st), (exec_confirmed st); simpl; intuition congruence.
Qed.

Lemma finished_elim st :
  finished st = true →
  child_reaped st = true ∧ out_read st < 0 ∧ err_read st < 0 ∧ control_read st < 0 ∧ ready_read st < 0.
Proof. unfold finished, fd_bool. intros H. split_tests. rewrite !Z.leb_gt in *. auto. Qed.

(** ** Capture *)

(** Reads are from [fd] alone. *)
Definition reads_only (fd : Z) (ev : event) : Prop :=
  match ev with Event c _ => match c with sys_read fd' _ => fd' = fd ∧ 0 <= fd' | _ => True end end.

(** The end of the stream was read from [fd]. *)
Definition ended (fd : Z) (evs : list event) : Prop :=
  ∃ size, Event (sys_read fd size) (Ok []) ∈ evs.

(** What is held of the stream of [fd0]: the bytes delivered so far; the descriptor is
    given up only at the end of the stream or after a failed read, which is noted. *)
Definition captured (fd0 fd : Z) (material : list Z) (failed : bool) (evs : list event) : Prop :=
  material = stream (delivered_by fd0) evs ∧
  (fd = fd0 ∨ fd = -1 ∧ (failed = true ∨ ended fd0 evs)).

Lemma delivered_elsewhere fd0 fd ev : reads_only fd ev → fd ≠ fd0 → delivered_by fd0 ev = [].
Proof.
  destruct ev as [R c r]; destruct c; simpl; try done. intros [-> _] Hne. destruct r; [|done].
  by rewrite (proj2 (Z.eqb_neq _ _)).
Qed.

Lemma reads_elsewhere fd0 fd evs :
  Forall (reads_only fd) evs → fd ≠ fd0 → stream (delivered_by fd0) evs = [].
Proof.
  intros F Hne. induction F as [|ev evs Hev Hevs IH]; [done|].
  by rewrite stream_cons, IH, (delivered_elsewhere _ _ _ Hev Hne).
Qed.

Lemma no_read_reads_only evs : Forall no_read evs → Forall (reads_only (-1)) evs.
Proof. intros H. eapply Forall_impl; [exact H|]. intros [R c r]. by destruct c. Qed.

Lemma captured_later fd0 fd m failed failed' evs new other :
  captured fd0 fd m failed evs → (failed = true → failed' = true) →
  Forall (reads_only other) new → other ≠ fd0 → captured fd0 fd m failed' (new ++ evs).
Proof.
  intros [-> H] Hf F Hne. split; [by rewrite stream_app, (reads_elsewhere _ _ _ F Hne), app_nil_r|].
  destruct H as [|[-> [|[size He]]]]; [auto|right; auto|right; split; [done|]].
  right. exists size. apply elem_of_app. auto.
Qed.

Lemma wp_fd_reset (P : event → Prop) fd next Q (s : mstate W) :
  (∀ r, P (Event (sys_close fd) r)) →
  (∀ s' new, trace s' = new ++ trace s → Forall P new → Q (Done next) s') →
  wp (fd_reset fd next) Q s.
Proof.
  intros Hp H. unfold fd_reset. wp_run; [|by apply (H _ [])].
  apply (H _ [Event (sys_close fd) r]); [done|by constructor].
Qed.

Lemma no_read_elsewhere fd evs :
  Forall no_read evs → 0 <= fd → Forall (reads_only fd) evs ∧ stream (delivered_by fd) evs = [].
Proof.
  intros F Hfd. split.
  - eapply Forall_impl; [exact F|]. intros [R c r]. by destruct c.
  - apply (reads_elsewhere fd (-1)); [by apply no_read_reads_only|lia].
Qed.

(** What draining [fd] adds. *)
Definition drained (fd : Z) (output : list Z) (failed : bool) (s : mstate W)
    (o : outcome (Z * list Z * bool)) (s' : mstate W) : Prop :=
  ∀ fd' output' failed', o = Done (fd', output', failed') →
    ∃ new, trace s' = new ++ trace s ∧ Forall (reads_only fd) new ∧
      output' = output ++ stream (delivered_by fd) new ∧ (failed = true → failed' = true) ∧
      (fd' = fd ∨ fd' = -1 ∧ (failed' = true ∨ ended fd new)).

Lemma drained_after fd output piece failed s ev s1 o s' :
  trace s1 = ev :: trace s → reads_only fd ev → delivered_by fd ev = piece →
  drained fd (output ++ piece) failed s1 o s' → drained fd output failed s o s'.
Proof.
  intros E Hev <- H fd' output' failed' Ho. destruct (H _ _ _ Ho) as (new & En & F & -> & Hf & Hfd).
  exists (new ++ [ev]). rewrite En, E, <- app_assoc. split; [done|].
  split; [apply Forall_app; by repeat constructor|].
  split; [by rewrite stream_app, stream_cons, <- app_assoc|]. split; [done|].
  destruct Hfd as [|[-> [|[size He]]]]; [auto|auto|]. right. split; [done|]. right. exists size.
  apply elem_of_app. auto.
Qed.

Lemma wp_drain_fd fuel fd output failed (s : mstate W) :
  wp (drain_fd fuel fd output failed) (drained fd output failed s) s.
Proof.
  assert (∀ output s, drained fd output failed s (Done (fd, output, failed)) s) as Hstay.
  { intros out s1 ??? [= <- <- <-]. exists []. rewrite app_nil_r. naive_solver. }
  revert output s. induction fuel as [|n IH]; intros output s; cbn [drain_fd].
  { wp_step; [by apply wp_ret|done]. }
  wp_step; [by apply wp_ret|].
  assert (0 <= fd) as Hfd by (apply Z.leb_le; by apply negb_false_iff).
  wp_step. wp_step; simpl.
  - destruct a as [|b bytes].
    + apply wp_bind, (wp_fd_reset no_read); [done|]. intros s1 new E F. apply wp_ret. intros ??? [= <- <- <-].
      destruct (no_read_elsewhere fd new F Hfd) as [Fr Er].
      exists (new ++ [Event (sys_read fd (16 * 1024)) (Ok [])]). rewrite E, <- app_assoc.
      split; [done|]. split; [apply Forall_app; by repeat constructor|].
      split; [|split; [done|right; split; [done|right; exists (16 * 1024); set_solver]]].
      by rewrite stream_app, Er, stream_cons; simpl; rewrite Z.eqb_refl, !app_nil_r.
    + eapply wp_mono; [apply IH|]. intros o s1. eapply drained_after; [done|done|].
      simpl. by rewrite Z.eqb_refl.
  - assert (∀ e w o s1, drained fd output failed (push w e (sys_read fd (16 * 1024)) (Err e) s) o s1 →
      drained fd output failed s o s1) as Hfail.
    { intros e' w' o s1. rewrite <- (app_nil_r output) at 1. by eapply drained_after. }
    wp_run; try (eapply Hfail; apply Hstay).
    + eapply wp_mono; [apply IH|]. intros o s1. apply Hfail.
    + apply (wp_fd_reset no_read); [done|]. intros s1 new E F. apply wp_ret.
      match goal with H : kernel_run _ _ = (Err ?e, ?w) |- _ => apply (Hfail e w) end.
      intros ??? [= <- <- <-].
      destruct (no_read_elsewhere fd new F Hfd) as [Fr Er].
      exists new. rewrite Er, app_nil_r. naive_solver.
Qed.

Section capture.
Variables out0 err0 control0 ready0 : Z.
Hypothesis pipes_open : 0 <= out0 ∧ 0 <= err0 ∧ 0 <= control0 ∧ 0 <= ready0.
Hypothesis pipes_distinct : NoDup [out0; err0; control0; ready0].

Definition streams_of (st : supervision) :=
  (out_read st, err_read st, output_material st, error_material st, capture_failed st).

(** What is held of the record of the child: the bytes delivered from its pipe. *)
Definition informed (fd : Z) (bytes : list Z) (evs : list event) : Prop :=
  bytes = stream (delivered_by control0) evs ∧ (fd = control0 ∨ fd = -1).

Definition capturing (st : supervision) (evs : list event) : Prop :=
  captured out0 (out_read st) (output_material st) (capture_failed st) evs ∧
  captured err0 (err_read st) (error_material st) (capture_failed st) evs ∧
  informed (control_read st) (control_bytes st) evs ∧
  (ready_read st = ready0 ∨ ready_read st = -1).

Lemma pipes_apart fd :
  fd = -1 ∨ fd = control0 ∨ fd = ready0 → fd ≠ out0 ∧ fd ≠ err0.
Proof.
  revert pipes_distinct. rewrite !NoDup_cons, !elem_of_cons. intros (H1 & H2 & _) Hfd.
  split; intros ->; destruct Hfd as [|[|]]; (lia || tauto).
Qed.
Lemma control_apart fd : fd = -1 ∨ fd = out0 ∨ fd = err0 ∨ fd = ready0 → fd ≠ control0.
Proof.
  revert pipes_distinct. rewrite !NoDup_cons, !elem_of_cons. intros (H1 & H2 & H3 & _) Hfd ->.
  destruct Hfd as [|[|[|]]]; (lia || tauto).
Qed.

Lemma informed_later fd fd' bytes evs new other :
  informed fd bytes evs → (fd' = fd ∨ fd' = -1) → Forall (reads_only other) new →
  other ≠ control0 → informed fd' bytes (new ++ evs).
Proof.
  intros [-> H] Hfd F Hne. split; [by rewrite stream_app, (reads_elsewhere _ _ _ F Hne), app_nil_r|].
  destruct Hfd as [->|]; auto.
Qed.

Lemma streams_apart fd : fd = err0 ∨ fd = -1 → fd ≠ out0.
Proof.
  revert pipes_distinct. rewrite !NoDup_cons, !elem_of_cons. intros Hd [->| ->]; [|lia].
  intros ->. tauto.
Qed.

Lemma capturing_extend st st' evs new other :
  capturing st evs → Forall (reads_only other) new →
  other = -1 ∨ other = control0 ∨ other = ready0 → streams_of st' = streams_of st →
  informed (control_read st') (control_bytes st') (new ++ evs) →
  (ready_read st' = ready_read st ∨ ready_read st' = -1) → capturing st' (new ++ evs).
Proof.
  intros (Ho & He & Hc & Hr) F [Hout Herr]%pipes_apart E Ec Er. injection E as Eo Ee Em Ex Ef.
  unfold capturing. rewrite Eo, Ee, Em, Ex, Ef.
  split; [by eapply captured_later|]. split; [by eapply captured_later|].
  split; [done|destruct Er as [->|]; auto].
Qed.

Definition pipes_of (st : supervision) :=
  (streams_of st, control_read st, control_bytes st, ready_read st).

Lemma capturing_quiet st st' evs new :
  capturing st evs → Forall no_read new → pipes_of st' = pipes_of st → capturing st' (new ++ evs).
Proof.
  intros H Hn E. apply no_read_reads_only in Hn.
  pose proof (f_equal (λ p, p.1.1.1) E) as E1. pose proof (f_equal (λ p, p.1.1.2) E) as E2.
  pose proof (f_equal (λ p, p.1.2) E) as E3. pose proof (f_equal snd E) as E4. simpl in *.
  eapply capturing_extend; [done|exact Hn|auto|done| |auto].
  rewrite E2, E3. eapply informed_later; [apply H|by left|done|apply control_apart; auto].
Qed.

Lemma keeps_capturing_quiet f :
  (∀ st, emits no_read (f st)) → (∀ st, yields (λ st', pipes_of st' = pipes_of st) (f st)) →
  keeps (W := W) capturing f.
Proof.
  intros He Hp. apply (keeps_quiet _ _ no_read); [done|]. intros st evs new H Hn.
  eapply yields_mono; [apply Hp|]. intros st' E. by eapply capturing_quiet.
Qed.

Lemma same_io_pipes st st' : io st' = io st → pipes_of st' = pipes_of st.
Proof. intros E. injection E. unfold pipes_of, streams_of. congruence. Qed.

Lemma emits_after_reset {A} (P : event → Prop) fd next (k : Z → M W A) :
  (∀ r, P (Event (sys_close fd) r)) → emits P (k next) → emits P (fd_reset fd next ≫= k).
Proof.
  intros Hp Hk s. apply (wp_bind _ _ (λ _ s', ∃ evs, trace s' = evs ++ trace s ∧ Forall P evs)).
  apply (wp_fd_reset P); [done|]. intros s1 l1 E1 F1. destruct (Hk s1) as (l2 & E2 & F2).
  exists (l2 ++ l1). rewrite E2, E1, app_assoc. split; [done|]. by apply Forall_app.
Qed.

Lemma reads_none_only fd ev : reads_only (-1) ev → reads_only fd ev.
Proof. destruct ev as [R c r]. destruct c; try done. simpl. lia. Qed.

Lemma emits_control_reads fuel st : emits (reads_only (control_read st)) (part_control (W := W) fuel st).
Proof.
  revert st. induction fuel as [|n IH]; intros st; simpl;
    destruct (fd_bool (control_read st)) eqn:Hfd; simpl;
    repeat first [apply emits_after_reset; [done|] | emits_step]; try exact (IH _).
  - split; [done|by apply Z.leb_le].
  - eapply emits_weaken; [apply IH|]. intros ev. apply reads_none_only.
Qed.

Lemma emits_ready_reads fuel st : emits (reads_only (ready_read st)) (part_ready (W := W) fuel st).
Proof.
  revert st. induction fuel as [|n IH]; intros st; simpl;
    destruct (fd_bool (ready_read st)) eqn:Hfd; simpl; emits_auto; try (by apply emits_fd_reset);
    try exact (IH _).
  - split; [done|by apply Z.leb_le].
  - case_match; exact (IH _).
Qed.

(** What reading the pipe of the ready byte leaves of the other pipes. *)
Definition yields_ready (st st' : supervision) : Prop :=
  (streams_of st', control_read st', control_bytes st') = (streams_of st, control_read st, control_bytes st) ∧
  (ready_read st' = ready_read st ∨ ready_read st' = -1).

Lemma yields_ready_pipes fuel st : yields (yields_ready st) (part_ready (W := W) fuel st).
Proof.
  revert st. induction fuel as [|n IH]; intros st; simpl;
    repeat first [apply yields_after_reset | yields_step]; try (by repeat split; auto).
  all: try (eapply yields_mono; [apply IH|]; intros st' (E & Hr); case_match; by repeat split; auto).
Qed.

Lemma keeps_capturing_ready fuel : keeps (W := W) capturing (part_ready fuel).
Proof.
  intros t0 st s st' s' (evs & E & H) R. destruct (emits_ready_reads fuel st s) as (new & En & F).
  pose proof (yields_ready_pipes fuel st s) as Hy. rewrite R in En, Hy. simpl in *. destruct Hy as (Es & Er).
  exists (new ++ evs). rewrite En, E, app_assoc. split; [done|].
  pose proof (f_equal (λ p, p.1.1) Es) as E1. pose proof (f_equal (λ p, p.1.2) Es) as E2.
  pose proof (f_equal snd Es) as E3. simpl in *.
  assert (ready_read st = ready0 ∨ ready_read st = -1) as Hready by apply H.
  eapply capturing_extend; [done|exact F|tauto|done| |done]. rewrite E2, E3.
  eapply informed_later; [apply H|by left|done|apply control_apart; tauto].
Qed.

(** The pipe of the record: what is read from it is kept. *)
Definition learned (fd : Z) (st : supervision) (s : mstate W) (st' : supervision) (s' : mstate W) : Prop :=
  ∃ new, trace s' = new ++ trace s ∧ Forall (reads_only fd) new ∧
    (streams_of st', ready_read st') = (streams_of st, ready_read st) ∧
    control_bytes st' = control_bytes st ++ stream (delivered_by fd) new ∧
    (control_read st' = fd ∨ control_read st' = -1).

Lemma none_delivered fd new : Forall (reads_only (-1)) new → 0 <= fd → stream (delivered_by fd) new = [].
Proof. intros F H. apply (reads_elsewhere _ (-1)); [done|lia]. Qed.

Lemma learned_after fd st st1 s ev s1 st' s' :
  trace s1 = ev :: trace s → reads_only fd ev →
  (streams_of st1, ready_read st1) = (streams_of st, ready_read st) →
  control_bytes st1 = control_bytes st ++ delivered_by fd ev →
  learned fd st1 s1 st' s' → learned fd st s st' s'.
Proof.
  intros E Hev Ep Eb (new & En & F & Ep' & Eb' & Hc). exists (new ++ [ev]).
  rewrite En, E, <- app_assoc. split; [done|]. split; [apply Forall_app; by repeat constructor|].
  split; [congruence|]. split; [|done]. by rewrite Eb', Eb, stream_app, stream_cons, <- app_assoc.
Qed.

Lemma part_control_closed fuel st :
  control_read st = -1 → part_control (W := W) fuel st = mret st.
Proof. intros E. destruct fuel; simpl; by rewrite E. Qed.

(** The pipe is given up. *)
Lemma wp_learned_close fd st (s : mstate W) (k : Z → M W supervision) st' :
  0 <= fd → k (-1) = mret st' → (streams_of st', ready_read st') = (streams_of st, ready_read st) →
  control_bytes st' = control_bytes st → control_read st' = -1 →
  wp (fd_reset fd (-1) ≫= k) (λ o s', ∀ st', o = Done st' → learned fd st s st' s') s.
Proof.
  intros Hfd Hk Ep Eb Ec. apply wp_bind, (wp_fd_reset no_read); [done|]. intros s' new En F.
  rewrite Hk. apply wp_ret. intros ? [= <-]. destruct (no_read_elsewhere fd new F Hfd) as [Fr Er].
  exists new. rewrite Er, app_nil_r. split_and!; auto.
Qed.

Lemma wp_part_control fuel st (s : mstate W) :
  0 <= control_read st →
  wp (part_control fuel st) (λ o s', ∀ st', o = Done st' → learned (control_read st) st s st' s') s.
Proof.
  revert st s. induction fuel as [|n IH]; intros st s Hfd; cbn [part_control];
    (assert (fd_bool (control_read st) = true) as -> by (by apply Z.leb_le)); cbn [negb]; [done|].
  set (fd := control_read st) in *. set (c := sys_read fd _).
  assert (∀ (m : M W supervision) st1 ev s1, trace s1 = ev :: trace s → reads_only fd ev →
    (streams_of st1, ready_read st1) = (streams_of st, ready_read st) →
    control_bytes st1 = control_bytes st ++ delivered_by fd ev →
    wp m (λ o s', ∀ st', o = Done st' → learned fd st1 s1 st' s') s1 →
    wp m (λ o s', ∀ st', o = Done st' → learned fd st s st' s') s1) as Hgo.
  { intros m st1 ev s1 H1 H2 H3 H4 H. eapply wp_mono; [exact H|]. intros o s' Ho st' ->.
    eapply learned_after; eauto. }
  apply wp_bind, wp_attempt; intros r w E.
  - assert (∀ piece st1, r = piece → control_bytes st1 = control_bytes st ++ piece →
      control_bytes st1 = control_bytes st ++ delivered_by fd (Event c (Ok r))) as Hpiece.
    { intros piece st1 -> ->. simpl. by rewrite Z.eqb_refl. }
    destruct r as [|b bytes].
    + apply (Hgo _ st (Event c (Ok []))); [done|done|done|apply (Hpiece []); by rewrite ?app_nil_r|].
      apply (wp_learned_close fd st _ _ (if (length (control_bytes st) =? 0)%nat && start_released st
        then set_exec_confirmed true (set_control_read (-1) st) else set_control_read (-1) st));
        [done|done|by case_match..].
    + cbn zeta. set (st1 := set_control_bytes _ st).
      apply (Hgo _ st1 (Event c (Ok (b :: bytes)))); [done|done|done|by apply (Hpiece (b :: bytes))|].
      destruct (length _ =? _)%nat; [|by apply (IH st1)].
      apply (wp_learned_close fd st1 _ _ (set_control_read (-1) st1)); try done.
      by rewrite part_control_closed.
  - assert (control_bytes st = control_bytes st ++ delivered_by fd (Event c (Err r))) as Hnone
      by (simpl; by rewrite app_nil_r).
    apply wp_bind, wp_get_errno. apply (Hgo _ st (Event c (Err r))); try done. simpl.
    destruct (r =? EINTR); [by apply IH|]. destruct (_ || _).
    + apply wp_ret. intros ? [= <-]. exists []. rewrite app_nil_r. split_and!; auto.
    + by apply (wp_learned_close fd st _ _ (set_control_read (-1) st)).
Qed.

Lemma keeps_capturing_control fuel : keeps (W := W) capturing (part_control fuel).
Proof.
  intros t0 st s st' s' (evs & E & H) R. pose proof H as (_ & _ & [Hb [Hc|Hc]] & _).
  - assert (0 <= control_read st) as Hfd by lia.
    pose proof (wp_part_control fuel st s Hfd) as Hw. unfold wp in Hw. rewrite R in Hw.
    destruct (Hw st' eq_refl) as (new & En & F & Ep & Eb & Hc').
    pose proof (f_equal fst Ep) as E1. pose proof (f_equal snd Ep) as E2. simpl in *.
    exists (new ++ evs). rewrite En, E, app_assoc. split; [done|].
    eapply capturing_extend; [done|exact F|auto|done| |auto].
    split; [|rewrite <- Hc; done]. by rewrite Eb, Hb, Hc, stream_app.
  - rewrite (part_control_closed _ _ Hc) in R. injection R as <- <-. by exists evs.
Qed.

Lemma captured_drained fd0 fd m failed evs new fd' failed' :
  captured fd0 fd m failed evs → Forall (reads_only fd) new → (failed = true → failed' = true) →
  (fd' = fd ∨ fd' = -1 ∧ (failed' = true ∨ ended fd new)) →
  captured fd0 fd' (m ++ stream (delivered_by fd) new) failed' (new ++ evs).
Proof.
  intros [-> Hfd] F Hf Hfd'. destruct Hfd as [->|[-> Hend]].
  - split; [by rewrite stream_app|]. destruct Hfd' as [|[-> [|[size He]]]]; [auto|auto|].
    right. split; [done|]. right. exists size. apply elem_of_app. auto.
  - assert (∀ x, stream (delivered_by x) new = []) as En.
    { intros x. destruct (decide (x = -2)) as [->|]; [by apply (reads_elsewhere _ (-1))|].
      apply (reads_elsewhere _ (-2)); [|done]. eapply Forall_impl; [exact F|].
      intros ev. apply reads_none_only. }
    split; [by rewrite stream_app, !En|]. right.
    split; [by destruct Hfd' as [|[]]|]. destruct Hend as [|[size He]]; [auto|]. right. exists size.
    apply elem_of_app. auto.
Qed.

Lemma streams_captured t0 st (s : mstate W) :
  since t0 capturing st s →
  wp (part_streams ctx st) (λ o s', ∀ st', o = Done st' → since t0 capturing st' s') s.
Proof.
  intros (evs & E & Ho & He & Hcr). unfold part_streams. apply wp_bind, wp_ignore. intros r w e _.
  apply wp_bind. eapply wp_mono; [apply wp_drain_fd|]. intros [[[fd m] failed]|x|c|] s1 Hd; try done.
  destruct (Hd _ _ _ eq_refl) as (new & En & F & -> & Hf & Hfd).
  apply wp_bind. eapply wp_mono; [apply wp_drain_fd|]. intros [[[fd' m] failed']|x|c|] s2 Hd'; try done.
  destruct (Hd' _ _ _ eq_refl) as (new' & En' & F' & -> & Hf' & Hfd'). cbn beta iota in *. simpl in *.
  apply wp_ret. intros st' [= <-].
  set (ev := Event (sys_poll _ _) r) in *. exists (new' ++ new ++ [ev] ++ evs).
  split; [rewrite En', En, E; by simplify_list_eq|].
  assert (Forall (reads_only (-1)) [ev]) as Fev by (apply no_read_reads_only; by constructor).
  apply (captured_later _ _ _ _ (capture_failed st) _ [ev] (-1)) in Ho as Ho1; [|done|done|lia].
  apply (captured_later _ _ _ _ (capture_failed st) _ [ev] (-1)) in He as He1; [|done|done|lia].
  assert (out_read st ≠ control0) as Hoc by (apply control_apart; destruct Ho as [_ [|[]]]; auto).
  assert (err_read st ≠ control0) as Hec by (apply control_apart; destruct He as [_ [|[]]]; auto).
  destruct Hcr as [Hcr Hready].
  split; [|split; [|split; [|done]]].
  3: { eapply (informed_later _ _ _ (new ++ [ev] ++ evs)); [|by left|exact F'|done].
       eapply (informed_later _ _ _ ([ev] ++ evs)); [|by left|exact F|done].
       eapply informed_later; [exact Hcr|by left|exact Fev|lia]. }
  - eapply captured_later; [by eapply captured_drained|done|exact F'|]. apply streams_apart.
    destruct He as [_ [|[]]]; auto.
  - eapply captured_drained; [|done|done|done].
    eapply captured_later; [exact He1|exact Hf|exact F|]. apply not_eq_sym.
    destruct Ho as [_ [->|[-> _]]]; [|lia]. apply streams_apart. auto.
Qed.

Lemma keeps_capturing_gate : keeps (W := W) capturing (part_gate ctx).
Proof.
  assert (∀ st, emits no_read (observe_cancellation (W := W) ctx st)) as He by (intros; by apply emits_observe).
  apply keeps_capturing_quiet; intros st; unfold part_gate, write_start.
  - emits_auto; try done; by apply emits_fd_reset.
  - pose proof (yields_fd_reset (W := W)). yields_step; [|by apply yields_ret].
    eapply yields_bind; [apply io_observe|]. intros st' <-%same_io_pipes. yields_auto; by try case_match.
Qed.

Lemma keeps_capturing_step : keeps (W := W) capturing (supervision_step ctx).
Proof.
  assert (∀ f, (∀ st, yields (λ st', io st' = io st) (f st)) →
    ∀ st, yields (W := W) (λ st', pipes_of st' = pipes_of st) (f st)) as Hf.
  { intros f H st. eapply yields_mono; [apply H|]. apply same_io_pipes. }
  apply (step_keeps ctx capturing (λ _, capturing)); intros; try apply keeps_capturing_gate;
    [ by apply (capturing_quiet st st evs [_]); [|constructor|] | done
    | apply keeps_capturing_quiet; [intros|apply Hf; intros].. | | |].
  all: auto using emits_cancel, emits_force, emits_begin, emits_advance, indifferent_no_read,
    io_exit, io_observe, io_cancel, io_force, io_begin, io_advance, io_reap.
  - by apply emits_part_exit.
  - by apply emits_observe.
  - by apply emits_reap.
  - intros t0 st s st' s' H R. pose proof (streams_captured t0 st s H) as Hs. unfold wp in Hs.
    rewrite R in Hs. by apply Hs.
  - apply keeps_capturing_control.
  - apply keeps_capturing_ready.
Qed.

End capture.

Lemma capturing_run turns out err control ready start (s0 : mstate W) st s :
  0 <= out → 0 <= err → 0 <= control → 0 <= ready → NoDup [out; err; control; ready] →
  supervise ctx turns (initial_supervision out err control ready start) s0 = (Done st, s) →
  finished st = true ∧ since (trace s0) (capturing out err control ready) st s.
Proof.
  intros H1 H2 H3 H4 Hd R.
  destruct (supervise_reachable ctx turns _ s0 _ _ _ _ (reach_start _ _ _) R) as [Hr Hfin].
  split; [done|]. eapply reachable_keeps; [|by apply keeps_capturing_step|exact Hr].
  unfold capturing, captured, informed. simpl. auto 10.
Qed.

(** C12: Captured output is complete and exact. When the supervision loop returns
    without noting a capture failure, the material kept for each of the two output
    streams is the concatenation, in order, of every byte the kernel delivered from
    that stream's pipe during the run, nothing dropped, repeated or exchanged between
    the streams, and the end of each stream was read before its descriptor was given
    up. The failure record is likewise made of the bytes of its own pipe. *)
Theorem capture_exact turns out err control ready start (s0 : mstate W) st s :
  0 <= out → 0 <= err → 0 <= control → 0 <= ready → NoDup [out; err; control; ready] →
  supervise ctx turns (initial_supervision out err control ready start) s0 = (Done st, s) →
  ∃ evs, trace s = evs ++ trace s0 ∧
    output_material st = stream (delivered_by out) evs ∧
    error_material st = stream (delivered_by err) evs ∧
    control_bytes st = stream (delivered_by control) evs ∧
    (capture_failed st = false → ended out evs ∧ ended err evs).
Proof.
  intros H1 H2 H3 H4 Hd R.
  destruct (capturing_run _ _ _ _ _ _ _ _ _ H1 H2 H3 H4 Hd R) as [Hfin (evs & E & [Ho Ho'] & [He He'] & [Hc _] & _)].
  exists evs. split_and!; try done. apply finished_elim in Hfin as (_ & Hout & Herr & _).
  intros Hf. rewrite Hf in *. split; [destruct Ho' as [|[_ []]]|destruct He' as [|[_ []]]]; done || lia.
Qed.

(** ** Escalation *)

(** If [m] returns, the value and the state satisfy [Q]. *)
Definition pc {A} (m : M W A) (Q : A → mstate W → Prop) (s : mstate W) : Prop :=
  ∀ a s', m s = (Done a, s') → Q a s'.

Lemma pc_ret {A} (a : A) Q (s : mstate W) : Q a s → pc (mret a) Q s.
Proof. by intros H ?? [= <- <-]. Qed.
Lemma pc_bind {A B} (m : M W A) (k : A → M W B) Q s :
  pc m (λ a s', pc (k a) Q s') s → pc (m ≫= k) Q s.
Proof.
  intros H b s' E. unfold mbind, M_bind in E. destruct (m s) as [[a|x|c|] s1] eqn:Em; try discriminate.
  by eapply H.
Qed.
Lemma pc_quiet {A} P (R : A → Prop) (m : M W A) Q s :
  emits P m → yields R m →
  (∀ a s' new, R a → trace s' = new ++ trace s → Forall P new → Q a s') → pc m Q s.
Proof.
  intros He Hy H a s' E. destruct (He s) as (new & En & F). specialize (Hy s).
  rewrite E in En, Hy. by eapply H.
Qed.
Lemma pc_now Q (s : mstate W) :
  (∀ now s', trace s' = Event env_now now :: trace s → Q now s') → pc (issue env_now) Q s.
Proof.
  intros H a s' E. unfold issue in E. destruct (kernel_run env_now (world s)) as [now w].
  injection E as <- <-. by apply H.
Qed.
Lemma pc_signal P signal st Q s :
  indifferent signal P →
  (∀ result okay s' new, trace s' = new ++ trace s → Forall P new →
     Q (result, if (okay : bool) then st else set_cleanup_failed true st) s') →
  pc (signal_group ctx signal st) Q s.
Proof.
  intros Hi H. eapply (pc_quiet P (λ r, ∃ okay : bool, r.2 = if okay then st else set_cleanup_failed true st)).
  - by apply emits_signal_group.
  - unfold signal_group. eapply yields_bind_any; [apply yields_signal_process_group|].
    intros r. apply yields_ret. by exists (complete r).
  - intros [result st'] s' new [okay E] En F. simpl in E. rewrite E. by eapply H.
Qed.

Section escalation.
Hypothesis token : controlled ctx = true.

(** The clock was read at [t]; two readings of it are [d] nanoseconds apart. *)
Definition clocked (evs : list event) (t : Z) : Prop := Event env_now t ∈ evs.
Definition elapsed (d : Z) (evs : list event) : Prop :=
  ∃ t t', clocked evs t ∧ clocked evs t' ∧ t + d <= t'.

Definition grace : Z := milliseconds (grace_period ctx).

Record escalating (st : supervision) (evs : list event) : Prop := mk_escalating {
  flags_consistent : consistent ctx st;
  no_kill_unforced : forced_signal_sent st = false → Forall no_kill evs;
  forced_at_deadline :
    forced_signal_sent st = true →
    elapsed grace evs ∨ child_exited st = true ∧ elapsed (milliseconds 200) evs;
  cancellation_deadline_set d :
    cancellation_deadline st = Some d → ∃ t, clocked evs t ∧ d = t + grace;
  cleanup_deadline_set d :
    cleanup_deadline st = Some d →
    forced_signal_sent st = true ∨
    ∃ t, clocked evs t ∧ (d = t + milliseconds 200 ∨ d = t + grace)
}.

Lemma elapsed_later d new evs : elapsed d evs → elapsed d (new ++ evs).
Proof. intros (t & t' & H1 & H2 & H). exists t, t'. unfold clocked. rewrite !elem_of_app. auto. Qed.
Lemma clocked_later t new evs : clocked evs t → clocked (new ++ evs) t.
Proof. unfold clocked. rewrite elem_of_app. auto. Qed.

(** Calls that kill nothing, with the deadlines and the forced flag as they were. *)
Lemma escalating_later st st' evs new :
  escalating st evs → consistent ctx st' → Forall no_kill new →
  forced_signal_sent st' = forced_signal_sent st →
  cancellation_deadline st' = cancellation_deadline st →
  cleanup_deadline st' = cleanup_deadline st →
  (child_exited st = true → child_exited st' = true) → escalating st' (new ++ evs).
Proof.
  intros [Hc Hk Hf Hd Hl] Hc' F Ef Ed El Ex. constructor; rewrite ?Ef, ?Ed, ?El; [done|..].
  - intros Hff. apply Forall_app. auto.
  - intros Hff. destruct (Hf Hff) as [|[]]; [left|right; split]; auto using elapsed_later.
  - intros d Hdd. destruct (Hd _ Hdd) as (t & ? & ->). exists t. auto using clocked_later.
  - intros d Hdd. destruct (Hl _ Hdd) as [|(t & ? & ?)]; [auto|]. right. exists t. auto using clocked_later.
Qed.

(** A part that does not touch the deadlines. *)
Definition undecided (st st' : supervision) : Prop :=
  (forced_signal_sent st', cancellation_deadline st', cleanup_deadline st') =
    (forced_signal_sent st, cancellation_deadline st, cleanup_deadline st) ∧
  (child_exited st = true → child_exited st' = true).

Lemma keeps_escalating_quiet f :
  (∀ st, emits no_kill (f st)) → (∀ st, yields (undecided st) (f st)) →
  (∀ st, consistent ctx st → yields (consistent ctx) (f st)) → keeps (W := W) escalating f.
Proof.
  intros He Hu Hc. apply (keeps_quiet _ _ no_kill); [done|]. intros st evs new H Hn.
  eapply yields_mono; [apply yields_and; [apply Hu|apply Hc, H]|].
  intros st' [[E Hx] Hst']. injection E as E1 E2 E3. by eapply escalating_later.
Qed.

#[local] Hint Resolve yields_fd_reset yields_drain_fd yields_cleanup_group yields_exit_observed : yields.
#[local] Ltac undecided_auto :=
  repeat first [apply yields_after_reset | yields_step]; split_tests;
  repeat case_match; (done || by split; simpl in *; try congruence).

Lemma undecided_exit st : yields (undecided st) (part_exit (W := W) ctx st).
Proof. unfold part_exit. undecided_auto. Qed.
Lemma undecided_observe st : yields (undecided st) (observe_cancellation (W := W) ctx st).
Proof. unfold observe_cancellation. undecided_auto. Qed.
Lemma undecided_gate st : yields (undecided st) (part_gate (W := W) ctx st).
Proof.
  unfold part_gate, write_start. yields_step; [|by apply yields_ret].
  eapply yields_bind; [apply undecided_observe|]. intros st' [E Hx].
  yields_auto; [done..|]. by case_match; split.
Qed.
Lemma undecided_reap st : yields (undecided st) (part_reap (W := W) ctx st).
Proof.
  unfold part_reap, reap_child. apply (yields_bind (undecided st)); [undecided_auto|].
  intros st' [E Hx]. yields_auto; by split.
Qed.
Lemma undecided_streams st : yields (undecided st) (part_streams (W := W) ctx st).
Proof. unfold part_streams. undecided_auto. Qed.
Lemma undecided_control fuel st : yields (undecided st) (part_control (W := W) fuel st).
Proof.
  revert st. induction fuel as [|n IH]; intros st; simpl; 
    repeat first [apply yields_after_reset | yields_step]; try exact (IH _); by repeat case_match.
Qed.
Lemma undecided_ready fuel st : yields (undecided st) (part_ready (W := W) fuel st).
Proof.
  revert st. induction fuel as [|n IH]; intros st; simpl;
    repeat first [apply yields_after_reset | yields_step]; try exact (IH _); try done.
  case_match; exact (IH _).
Qed.

Lemma no_kill_streams st : emits no_kill (part_streams (W := W) ctx st).
Proof.
  assert (∀ n fd l b, emits no_kill (drain_fd (W := W) n fd l b)).
  { intros n. induction n as [|n IH]; intros fd l b; simpl; emits_auto; try done; auto;
      by apply emits_fd_reset. }
  unfold part_streams. by emits_auto.
Qed.
Lemma no_kill_control fuel st : emits no_kill (part_control (W := W) fuel st).
Proof.
  revert st. induction fuel as [|n IH]; intros st; simpl; emits_auto; try done; by apply emits_fd_reset.
Qed.
Lemma no_kill_ready fuel st : emits no_kill (part_ready (W := W) fuel st).
Proof.
  revert st. induction fuel as [|n IH]; intros st; simpl; emits_auto; try done; by apply emits_fd_reset.
Qed.
Lemma no_kill_gate st : emits no_kill (part_gate (W := W) ctx st).
Proof.
  assert (emits no_kill (observe_cancellation (W := W) ctx st)) by by apply emits_observe.
  unfold part_gate, write_start. emits_auto; try done; by apply emits_fd_reset.
Qed.

(** The invariant while [now] is the time of the iteration. *)
Definition escalating_at (now : Z) (st : supervision) (evs : list event) : Prop :=
  escalating st evs ∧ clocked evs now.

Lemma keeps_by_pc (J : supervision → list event → Prop) f :
  (∀ st evs, J st evs → consistent ctx st) →
  (∀ st, consistent ctx st → yields (consistent ctx) (f st)) →
  (∀ t0 st s evs, trace s = evs ++ t0 → J st evs →
     pc (f st) (λ st' s', consistent ctx st' → since t0 J st' s') s) →
  keeps (W := W) J f.
Proof.
  intros HJ Hc Hpc t0 st s st' s' (evs & E & H) R. specialize (Hc st (HJ _ _ H) s). rewrite R in Hc.
  by eapply Hpc.
Qed.

Lemma escalating_more st evs new : escalating st evs → Forall no_kill new → escalating st (new ++ evs).
Proof. intros H F. by apply (escalating_later st); [|destruct H|..]. Qed.

Lemma keeps_escalating_cancel : keeps (W := W) escalating (part_cancel ctx).
Proof.
  apply keeps_by_pc; [by intros ?? []|apply consistent_cancel|]. intros t0 st s evs E H.
  unfold part_cancel. destruct (negb _ || _ || _); [apply pc_ret; by exists evs|].
  apply pc_bind, (pc_signal no_kill); [apply indifferent_no_kill|]. intros result okay s1 new En F.
  apply pc_bind, pc_now. intros now s2 E2. apply pc_ret. intros Hc.
  exists ((Event env_now now :: new) ++ evs). rewrite E2, En, E. split; [by rewrite app_assoc|].
  apply (escalating_more _ _ (Event env_now now :: new)) in H as [Hst Hk Hf Hd Hl]; [|by constructor].
  constructor; [done|..]; destruct okay; simpl in *; auto.
  all: intros d [= <-]; exists now; split; [apply list_elem_of_here|done].
Qed.

Lemma keeps_escalating_begin now : keeps (W := W) (escalating_at now) (part_begin_cleanup ctx now).
Proof.
  apply keeps_by_pc; [by intros ?? [[]]|apply consistent_begin|]. intros t0 st s evs E [H Hn].
  unfold part_begin_cleanup. destruct (child_exited st && _ && _); [|apply pc_ret; by exists evs].
  simpl. destruct (cancellation_signal_attempted st); simpl; [destruct (forced_signal_sent st) eqn:Hff; simpl|].
  - apply pc_ret. intros Hc. exists evs. split; [done|]. split; [|done]. destruct H. by constructor.
  - apply pc_ret. intros Hc. exists evs. split; [done|]. split; [|done]. destruct H as [? ? ? Hd ?].
    constructor; simpl; auto. intros d Hdd. right. destruct (Hd d Hdd) as (t & ? & ->). eauto.
  - apply pc_bind, (pc_signal no_kill); [apply indifferent_no_kill|]. intros result okay s1 new En F.
    apply pc_ret. intros Hc. exists (new ++ evs). rewrite En, E, app_assoc. split; [done|].
    split; [|by apply clocked_later].
    apply (escalating_more _ _ new) in H as [? ? ? ? ?]; [|done].
    constructor; [done|..]; destruct okay; simpl in *; auto.
    all: intros d [= <-]; right; exists now; auto using clocked_later.
Qed.

(** Forcing: the deadline [d] that was reached, whatever is signaled. *)
Lemma forced_elapsed now evs d t : clocked evs now → clocked evs t → t + d <= now → elapsed d evs.
Proof. intros. by exists t, now. Qed.

Lemma escalating_forced st st' evs new :
  escalating st evs → consistent ctx st' → forced_signal_sent st' = true →
  cancellation_deadline st' = cancellation_deadline st →
  (elapsed grace evs ∨ child_exited st' = true ∧ elapsed (milliseconds 200) evs) →
  escalating st' (new ++ evs).
Proof.
  intros [_ _ _ Hd _] Hc Hf Ed Hel. constructor; rewrite ?Hf, ?Ed; [done|done| |..].
  - intros _. destruct Hel as [|[]]; [left|right; split]; auto using elapsed_later.
  - intros d Hdd. destruct (Hd _ Hdd) as (t & ? & ->). exists t. auto using clocked_later.
  - auto.
Qed.

Lemma keeps_escalating_force now : keeps (W := W) (escalating_at now) (part_force ctx now).
Proof.
  apply keeps_by_pc; [by intros ?? [[]]|apply consistent_force|]. intros t0 st s evs E [H Hn].
  unfold part_force. destruct (_ && _ && _ && _) eqn:G; [|apply pc_ret; by exists evs].
  split_tests. apply pc_bind, (pc_signal anything); [by constructor|]. intros result okay s1 new En F.
  apply pc_ret. intros Hc. exists (new ++ evs). rewrite En, E, app_assoc. split; [done|].
  split; [|by apply clocked_later].
  destruct (cancellation_deadline st) as [d|] eqn:Hd; [|done]. simpl in *.
  destruct (cancellation_deadline_set _ _ H _ Hd) as (t & Ht & ->).
  eapply (escalating_forced st); [done|done|done|by destruct okay|]. left.
  exists t, now. split; [done|]. split; [done|]. by apply Z.leb_le.
Qed.

(** A cleanup that is already forced stays forced. *)
Definition stays_forced (st st' : supervision) : Prop :=
  forced_signal_sent st' = true ∧ cancellation_deadline st' = cancellation_deadline st ∧
  child_exited st' = child_exited st.

Lemma advance_stays_forced now st :
  forced_signal_sent st = true → yields (stays_forced st) (part_advance_cleanup (W := W) ctx now st).
Proof.
  intros Hf. pose proof (yields_members_gone (W := W)). unfold part_advance_cleanup.
  yields_step; [|by apply yields_ret].
  apply (yields_bind (stays_forced st)).
  - rewrite Hf. apply yields_after_signal. intros result []; by apply yields_ret.
  - intros st' (Hf' & Hd & Hx). repeat first [apply yields_after_signal; intros ? [] | yields_step]; by repeat split.
Qed.

Lemma unforced_advance now t0 st s evs :
  trace s = evs ++ t0 → escalating_at now st evs → forced_signal_sent st = false →
  pc (part_advance_cleanup ctx now st)
    (λ st' s', consistent ctx st' → since t0 (escalating_at now) st' s') s.
Proof.
  intros E [H Hn] Hf. unfold part_advance_cleanup.
  destruct (_ && _ && _ && _) eqn:G; [|apply pc_ret; by exists evs]. split_tests.
  rewrite Hf. apply pc_bind, pc_ret, pc_bind. eapply (pc_quiet no_kill (λ _, True)).
  { eapply emits_members_gone, indifferent_no_kill. } { apply yields_members_gone. }
  intros gone s1 new _ En F. apply (escalating_more _ _ new) in H; [|done].
  assert (trace s1 = (new ++ evs) ++ t0) as E1 by (by rewrite En, E, app_assoc).
  apply (clocked_later now new) in Hn.
  destruct gone; [apply pc_ret; intros Hc; exists (new ++ evs); split; [done|]; split; [|done]|].
  { destruct H; by constructor. }
  destruct (reached now (cleanup_deadline st)) eqn:Hr; [|apply pc_ret; by exists (new ++ evs)].
  rewrite Hf. apply pc_bind, (pc_signal anything); [by constructor|]. intros result okay s2 new' En' F'.
  apply pc_ret. intros Hc. exists (new' ++ new ++ evs). rewrite En', E1, app_assoc. split; [done|].
  split; [|by apply clocked_later].
  destruct (cleanup_deadline st) as [d|] eqn:Hd; [|done]. simpl in Hr. apply Z.leb_le in Hr.
  destruct (cleanup_deadline_set _ _ H _ Hd) as [?|(t & Ht & Hdt)]; [congruence|].
  eapply (escalating_forced st); [done|done|done|by destruct okay|].
  destruct Hdt as [-> | ->]; [right|left; by exists t, now].
  split; [by destruct okay|by exists t, now].
Qed.

Lemma keeps_escalating_advance now : keeps (W := W) (escalating_at now) (part_advance_cleanup ctx now).
Proof.
  apply keeps_by_pc; [by intros ?? [[]]|apply consistent_advance|]. intros t0 st s evs E H.
  destruct (forced_signal_sent st) eqn:Hf; [|by apply (unforced_advance now t0 st s evs)].
  destruct H as [H Hn].
  eapply (pc_quiet anything); [by apply emits_advance; constructor|by apply advance_stays_forced|].
  intros st' s' new (Hf' & Hd & Hx) En _ Hc. exists (new ++ evs). rewrite En, E, app_assoc.
  split; [done|]. split; [|by apply clocked_later]. eapply (escalating_forced st); [done..|].
  rewrite Hx. by apply (forced_at_deadline _ _ H).
Qed.

Lemma keeps_escalating_step : keeps (W := W) escalating (supervision_step ctx).
Proof.
  apply (step_keeps ctx escalating escalating_at); intros;
    auto using keeps_escalating_cancel, keeps_escalating_force, keeps_escalating_begin,
      keeps_escalating_advance.
  - split; [by apply (escalating_more _ _ [_]); [|constructor]|apply list_elem_of_here].
  - by destruct H.
  - apply keeps_escalating_quiet; [intros; by apply emits_part_exit|apply undecided_exit|apply consistent_exit].
  - apply keeps_escalating_quiet; [intros; by apply emits_observe|apply undecided_observe|].
    intros st H. eapply yields_mono; [by apply consistent_observe|]. by intros st' [].
  - apply keeps_escalating_quiet; [apply no_kill_gate|apply undecided_gate|apply consistent_gate].
  - apply keeps_escalating_quiet; [intros; apply emits_reap|apply undecided_reap|apply consistent_reap];
      try done. by rewrite token.
  - apply keeps_escalating_quiet; [apply no_kill_streams|apply undecided_streams|apply consistent_streams].
  - apply keeps_escalating_quiet; [apply no_kill_control|apply undecided_control|apply consistent_control].
  - apply keeps_escalating_quiet; [apply no_kill_ready|apply undecided_ready|apply consistent_ready].
Qed.

End escalation.

(** C13: No process is killed early. In a controlled execution no SIGKILL is sent, to the
    child or to a member of its group, before [forced_signal_sent] is set; and when it
    is set, two readings of the steady clock are at least the sealed grace period
    apart, or the child had been observed to exit and two readings are at least the
    200 ms of group cleanup apart. A child that is not seen to exit is therefore never
    killed before its grace period has passed. *)
Theorem no_early_kill out err control ready start s0 st s :
  controlled ctx = true →
  reachable ctx (initial_supervision out err control ready start) s0 st s →
  ∃ evs, trace s = evs ++ trace s0 ∧
    (forced_signal_sent st = false → Forall no_kill evs) ∧
    (forced_signal_sent st = true →
       elapsed grace evs ∨ child_exited st = true ∧ elapsed (milliseconds 200) evs).
Proof.
  intros Ht H. apply (reachable_keeps ctx escalating) in H as (evs & E & Hs);
    [| |by apply keeps_escalating_step].
  - exists evs. by destruct Hs.
  - by constructor; [apply consistent_initial|..].
Qed.

(** ** Progress of cleanup *)

Section progress.
Hypothesis token : controlled ctx = true.

(** Where cleanup stands: the flags and the deadline that decide when it ends, and
    whether it failed. *)
Definition cleanup_view (st : supervision) :=
  (child_exited st, cleanup_started st, cleanup_complete st, child_reaped st,
   forced_signal_sent st, cleanup_deadline st, cleanup_failed st).

(** SIGKILL was sent through the group: to members just confirmed, then to the child
    through its pidfd; and unless cleanup is recorded as failed, a whole scan of /proc
    accounts for every member. *)
Definition swept (st : supervision) (evs : list event) : Prop :=
  ∃ newer answer sweep older,
    evs = newer ++ (Event (sys_pidfd_send_signal (pidfd ctx) SIGKILL) answer :: sweep) ++ older ∧
    signals_confirmed (child ctx) (child ctx) (pidfd ctx) SIGKILL
      (Event (sys_pidfd_send_signal (pidfd ctx) SIGKILL) answer :: sweep) ∧
    (cleanup_failed st = false →
       answered answer ∧ accounted (child ctx) (child ctx) SIGKILL sweep).

(** Why cleanup is complete: it was before; or the members were seen gone; or a second
    after the group was forced it was killed once more, and recorded as failed. *)
Definition cleanup_ended (now : Z) (st st' : supervision) (evs : list event) : Prop :=
  cleanup_complete st = true ∨ seen_gone (child ctx) (child ctx) evs ∨
  forced_signal_sent st = true ∧ reached now (cleanup_deadline st) = true ∧
  cleanup_failed st' = true ∧ swept st' evs.

(** From [st], in an iteration at time [now]: as it was, or forced with a new deadline. *)
Definition underway (now : Z) (st st' : supervision) (evs : list event) : Prop :=
  child_exited st' = true ∧ cleanup_started st' = true ∧ child_reaped st' = false ∧
  cleanup_complete st' = cleanup_complete st ∧
  (forced_signal_sent st' = forced_signal_sent st ∧ cleanup_deadline st' = cleanup_deadline st ∨
   forced_signal_sent st = false ∧ forced_signal_sent st' = true ∧
   cleanup_deadline st' = Some (now + milliseconds 1000) ∧ swept st' evs).

Definition advanced (now : Z) (st st' : supervision) (evs : list event) : Prop :=
  child_exited st' = true ∧ child_reaped st' = false ∧
  (cleanup_complete st' = true ∧ cleanup_ended now st st' evs ∨
   underway now st st' evs ∧ cleanup_complete st' = false ∧
   (forced_signal_sent st = true → swept st' evs) ∧
   (forced_signal_sent st = true ∨ forced_signal_sent st' = false →
      reached now (cleanup_deadline st) = false)).

(** The end of an iteration: reaped, or forced just now, or still before the deadline. *)
Definition settled (now : Z) (st st' : supervision) (evs : list event) : Prop :=
  cleanup_complete st' = true ∧ child_reaped st' = true ∧ cleanup_ended now st st' evs ∧
    (∃ answer, Event (sys_waitpid (child ctx)) answer ∈ evs) ∨
  child_reaped st' = false ∧
  (forced_signal_sent st = false ∧ forced_signal_sent st' = true ∧
     cleanup_deadline st' = Some (now + milliseconds 1000) ∧ swept st' evs ∨
   forced_signal_sent st' = forced_signal_sent st ∧ cleanup_deadline st' = cleanup_deadline st ∧
     reached now (cleanup_deadline st) = false ∧
     (forced_signal_sent st = true → swept st' evs)).

Lemma swept_later st st' new evs :
  (cleanup_failed st' = false → cleanup_failed st = false) → swept st evs → swept st' (new ++ evs).
Proof.
  intros Hf (n & a & sw & o & -> & Hc & Ha). exists (new ++ n), a, sw, o.
  split; [by rewrite <- app_assoc|]. split; [done|auto].
Qed.

Lemma swept_same st st' evs :
  (cleanup_failed st' = false → cleanup_failed st = false) → swept st evs → swept st' evs.
Proof. apply (swept_later st st' []). Qed.

Lemma ended_later now st0 st st' new evs :
  cleanup_failed st' = cleanup_failed st →
  cleanup_ended now st0 st evs → cleanup_ended now st0 st' (new ++ evs).
Proof.
  intros Ef [H|[H|(H1 & H2 & H3 & H4)]]; [by left|right; left|right; right].
  - rewrite <- (app_nil_r evs). by apply seen_gone_app.
  - rewrite Ef. split_and!; try done. eapply swept_later; [|done]. by rewrite Ef.
Qed.

Lemma settled_later now st0 st st' new evs :
  cleanup_view st' = cleanup_view st → settled now st0 st evs → settled now st0 st' (new ++ evs).
Proof.
  intros E. injection E as _ _ E3 E4 E5 E6 E7. unfold settled. rewrite E3, E4, E5, E6.
  assert (swept st evs → swept st' (new ++ evs)) as Hsw.
  { apply swept_later. by rewrite E7. }
  intros [(? & ? & He & [a Ha])|[? H]]; [left|right].
  - split_and!; try done; [by eapply ended_later|]. exists a. apply elem_of_app. auto.
  - split; [done|]. destruct H as [(? & ? & ? & ?)|(? & ? & ? & ?)]; [left|right]; split_and!; auto.
Qed.

(** Signaling the group with SIGKILL, and waiting for the members. *)
Lemma pc_sweep st Q (s : mstate W) :
  (∀ result st' s' new, trace s' = new ++ trace s →
     st' = st ∨ st' = set_cleanup_failed true st → (∀ evs, swept st' (new ++ evs)) →
     Q (result, st') s') →
  pc (signal_group ctx SIGKILL st) Q s.
Proof.
  intros H. unfold signal_group. apply pc_bind. intros r s1 E.
  pose proof (wp_signal_process_group_members (scan_fuel ctx) (child ctx) (child ctx) (pidfd ctx)
    SIGKILL s) as Hw.
  unfold wp in Hw. rewrite E in Hw. destruct Hw as (new & En & (Hc & _) & a & before & -> & _ & Hr).
  apply pc_ret, (H _ _ _ _ En); [destruct (complete r); auto|]. intros evs.
  exists [], a, before, evs. split; [done|]. split; [done|].
  destruct (complete r); [auto|]. by intros.
Qed.

Lemma pc_members_gone timeout Q (s : mstate W) :
  (∀ gone s' new, trace s' = new ++ trace s →
     ((gone : bool) = true → ∀ evs, seen_gone (child ctx) (child ctx) (new ++ evs)) → Q gone s') →
  pc (wait_process_group_members_gone (loop_fuel ctx) (scan_fuel ctx) (child ctx) (child ctx) timeout) Q s.
Proof.
  intros H gone s' E.
  pose proof (wp_wait_members_gone (loop_fuel ctx) (scan_fuel ctx) (child ctx) (child ctx) timeout s) as Hw.
  pose proof (emits_members_gone anything 0 (loop_fuel ctx) (scan_fuel ctx) (child ctx) (child ctx)
    timeout ltac:(by constructor) s) as (new & En & _).
  unfold wp in Hw. rewrite E in Hw, En. simpl in *. apply (H _ _ _ En). intros -> evs.
  destruct (Hw eq_refl) as (new' & En' & Hg). rewrite En in En'. apply app_inv_tail in En' as ->.
  by apply (seen_gone_app _ _ []).
Qed.

#[local] Hint Resolve yields_fd_reset yields_members_gone : yields.
#[local] Ltac view_auto := repeat first [apply yields_after_signal; intros ? [] | yields_step].

Lemma view_gate st : yields (λ st', cleanup_view st' = cleanup_view st) (part_gate (W := W) ctx st).
Proof.
  unfold part_gate, write_start. yields_step; [|by apply yields_ret].
  apply (yields_bind (λ st', cleanup_view st' = cleanup_view st)).
  - unfold observe_cancellation. by yields_auto.
  - intros st' <-. yields_auto; by repeat case_match.
Qed.
Lemma view_cancel st :
  yields (λ st', (cleanup_view st').1 = (cleanup_view st).1) (part_cancel (W := W) ctx st).
Proof. unfold part_cancel. by view_auto. Qed.

(** A part that turns [R] into [R'], with the calls it makes. *)
Definition turns (R R' : supervision → list event → Prop) (f : supervision → M W supervision) : Prop :=
  ∀ st evs s, R st evs →
    pc (f st) (λ st' s', ∃ new, trace s' = new ++ trace s ∧ R' st' (new ++ evs)) s.

(** A part that does nothing. *)
#[local] Ltac stay := apply pc_ret; exists []; split; [done|]; cbn [app].

Lemma underway_force now st0 : turns (underway now st0) (underway now st0) (part_force ctx now).
Proof.
  intros st evs s H. unfold part_force.
  destruct (_ && _ && _ && _) eqn:G; [|by stay]. split_tests.
  destruct H as (Hx & Hs & Hr & Hc & H).
  assert (forced_signal_sent st0 = false) as Hf by (destruct H as [[]|(? & ? & ?)]; congruence).
  apply pc_bind, pc_sweep. intros result st1 s1 new En Hst Hsw. apply pc_ret. exists new.
  split; [done|]. destruct Hst as [-> | ->]; (split_and!; try done; right; split_and!; try done;
    by eapply swept_same; [|exact (Hsw evs)]).
Qed.

Lemma underway_begin now st0 : turns (underway now st0) (underway now st0) (part_begin_cleanup ctx now).
Proof.
  intros st evs s H. pose proof H as (_ & Hs & _ & _). unfold part_begin_cleanup.
  rewrite Hs, andb_false_r. by stay.
Qed.

(** The first call of [part_advance_cleanup]: once forced, the group is killed again. *)
Lemma underway_again now st0 :
  turns (underway now st0)
    (λ st' evs, underway now st0 st' evs ∧ (forced_signal_sent st0 = true → swept st' evs))
    (λ st, if forced_signal_sent st then r ← signal_group ctx SIGKILL st; mret r.2 else mret st).
Proof.
  intros st evs s H. destruct (forced_signal_sent st) eqn:Hf.
  - destruct H as (Hx & Hs & Hr & Hc & H). apply pc_bind, pc_sweep.
    intros result st1 s1 new En Hst Hsw. apply pc_ret. exists new.
    split; [done|]. specialize (Hsw evs).
    destruct Hst as [-> | ->]; (split; [|done]); split_and!; try done;
      (destruct H as [[E1 E2]|(E1 & E2 & E3 & E4)]; [by left|right]); by split_and!.
  - stay. split; [done|]. destruct H as (_ & _ & _ & _ & [[E _]|(_ & E & _)]); congruence.
Qed.

Lemma not_reached_later now : reached now (Some (now + milliseconds 1000)) = false.
Proof. unfold reached, milliseconds. lia. Qed.

(** What [part_advance_cleanup] does at or past the deadline while members are left. *)
Lemma underway_deadline now st0 :
  turns (λ st evs, underway now st0 st evs ∧ (forced_signal_sent st0 = true → swept st evs) ∧
           cleanup_complete st = false)
    (advanced now st0)
    (λ st, if reached now (cleanup_deadline st) then
             if negb (forced_signal_sent st) then
               r ← signal_group ctx SIGKILL st;
               mret (set_cleanup_deadline (Some (now + milliseconds 1000))
                       (set_forced_signal_sent true r.2))
             else
               r ← signal_group ctx SIGKILL st;
               mret (set_cleanup_complete true (set_cleanup_failed true r.2))
           else mret st).
Proof.
  intros st evs s ((Hx & Hs & Hr & Hc & H) & Hsw & Hc'). destruct (reached _ _) eqn:Hreach.
  - assert (forced_signal_sent st = forced_signal_sent st0 ∧
            cleanup_deadline st = cleanup_deadline st0) as [Ef Ed].
    { destruct H as [|(_ & _ & E & _)]; [done|]. by rewrite E, not_reached_later in Hreach. }
    destruct (forced_signal_sent st) eqn:Hf; cbn [negb]; apply pc_bind, pc_sweep;
      intros result st1 s1 new En Hst Hsw1; apply pc_ret; exists new; (split; [done|]);
      specialize (Hsw1 evs); destruct Hst as [-> | ->]; (split_and!; [done..|]).
    1,2: left; split; [done|]; right; right; rewrite <- Ef, <- Ed; split_and!; try done;
      by eapply swept_same; [|exact Hsw1].
    all: right; split_and!; try done; rewrite <- ?Ef; try congruence; try (by intros []).
    all: split_and!; try done; right; split_and!; try done; by eapply swept_same; [|exact Hsw1].
  - stay. split_and!; try done. right. split_and!; try done.
    intros Hor. destruct H as [[E1 E2]|(E1 & E2 & E3 & _)]; [by rewrite <- E2|].
    destruct Hor; congruence.
Qed.

Lemma turns_bind R R1 R' f g :
  turns R R1 f → turns R1 R' g → turns R R' (λ st, f st ≫= g).
Proof.
  intros Hf Hg st evs s H. apply pc_bind. intros st1 s1 E1.
  destruct (Hf _ _ _ H _ _ E1) as (n1 & En1 & H1). intros st2 s2 E2.
  destruct (Hg _ _ _ H1 _ _ E2) as (n2 & En2 & H2). exists (n2 ++ n1).
  rewrite En2, En1, <- !app_assoc. by rewrite <- app_assoc in H2 || done.
Qed.

Lemma underway_advance now st0 : turns (underway now st0) (advanced now st0) (part_advance_cleanup ctx now).
Proof.
  intros st evs s H. pose proof H as (Hx & Hs & Hr & Hc & _). unfold part_advance_cleanup.
  rewrite Hx, token, Hs. cbn [andb]. destruct (cleanup_complete st) eqn:Hc'; cbn [negb].
  { stay. split_and!; try done. left. split; [done|]. by left. }
  refine (turns_bind (λ st' evs, underway now st0 st' evs ∧ cleanup_complete st0 = false)
    (λ st' evs, (underway now st0 st' evs ∧ (forced_signal_sent st0 = true → swept st' evs)) ∧
                cleanup_complete st' = false) (advanced now st0)
    (λ st, if forced_signal_sent st then r ← signal_group ctx SIGKILL st; mret r.2 else mret st)
    _ _ _ st evs s (conj H _)); [| |congruence].
  { intros st1 evs1 s1 [H1 Hc0] st2 s2 E2.
    destruct (underway_again now st0 st1 evs1 s1 H1 _ _ E2) as (new & En & H2 & Hsw).
    exists new. split; [done|]. split; [done|]. destruct H2 as (_ & _ & _ & Hc2 & _). congruence. }
  clear -token. intros st evs s [[H Hsw] Hc]. pose proof H as (Hx & Hs & Hr & _).
  apply pc_bind, pc_members_gone. intros gone s1 n1 En1 Hg. destruct gone.
  { apply pc_ret. exists n1. split; [done|]. split_and!; try done. left. split; [done|]. right. left. auto. }
  intros st2 s2 E2. edestruct (underway_deadline now st0 st (n1 ++ evs) s1) as (n2 & En2 & H2);
    [|exact E2|].
  - split_and!; [|eauto using swept_later|done].
    destruct H as (? & ? & ? & ? & H). split_and!; try done.
    destruct H as [|(? & ? & ? & ?)]; [by left|right]. split_and!; eauto using swept_later.
  - exists (n2 ++ n1). rewrite En2, En1, <- !app_assoc. done.
Qed.

Lemma pc_reap_child Q (s : mstate W) :
  (∀ s' new answer, trace s' = new ++ trace s → Event (sys_waitpid (child ctx)) answer ∈ new → Q tt s') →
  pc (reap_child ctx) Q s.
Proof.
  intros H. unfold reap_child. apply pc_bind. intros r s1 E. apply pc_ret.
  enough (∃ new answer, trace s1 = new ++ trace s ∧ Event (sys_waitpid (child ctx)) answer ∈ new)
    as (new & a & En & Ha) by eauto.
  clear H. revert E. generalize (loop_fuel ctx). intros fuel. revert s.
  induction fuel as [|n IH]; intros s H'; [done|].
  cbn [retry_eintr] in H'. unfold attempt, issue, get_errno, mbind, M_bind in H'.
  destruct (kernel_run _ _) as [[a|e] w]; simpl in H'.
  - injection H' as <- <-. eexists [_], _. split; [done|]. by left.
  - destruct (e =? EINTR).
    + destruct (IH _ H') as (new & a & En & Ha). exists (new ++ [Event (sys_waitpid (child ctx)) (Err e)]), a.
      simpl in En. rewrite En, <- app_assoc. split; [done|]. apply elem_of_app. auto.
    + injection H' as <- <-. eexists [_], _. split; [done|]. by left.
Qed.

Lemma advanced_reap now st0 : turns (advanced now st0) (settled now st0) (part_reap ctx).
Proof.
  intros st evs s (Hx & Hr & H). unfold part_reap. rewrite Hx, token, Hr. cbn [andb negb].
  destruct H as [[Hc He]|(Hu & Hc & Hsw & Hb)]; rewrite Hc; cbn [andb].
  - apply pc_bind, pc_bind, pc_reap_child. intros s1 new a En Ha. apply pc_ret.
    rewrite andb_false_r. cbn [andb]. apply pc_ret. exists new. split; [done|]. left.
    split_and!; [done|done|by eapply ended_later|]. exists a. apply elem_of_app. auto.
  - apply pc_bind, pc_ret. rewrite ?Hx. cbn [andb negb]. stay.
    right. split; [done|]. destruct Hu as (_ & _ & _ & _ & [[E1 E2]|?]); [right|left; done].
    split_and!; try done. apply Hb. rewrite E1. destruct (forced_signal_sent st0); auto.
Qed.

#[local] Hint Resolve yields_drain_fd : yields.
Lemma view_streams st : yields (λ st', cleanup_view st' = cleanup_view st) (part_streams (W := W) ctx st).
Proof. unfold part_streams. by yields_auto. Qed.
Lemma view_control fuel st : yields (λ st', cleanup_view st' = cleanup_view st) (part_control (W := W) fuel st).
Proof.
  revert st. induction fuel as [|n IH]; intros st; simpl; yields_auto; try exact (IH _);
    by repeat case_match.
Qed.
Lemma view_ready fuel st : yields (λ st', cleanup_view st' = cleanup_view st) (part_ready (W := W) fuel st).
Proof.
  revert st. induction fuel as [|n IH]; intros st; simpl; yields_auto; try exact (IH _); try done.
  case_match; exact (IH _).
Qed.

(** A part described by what it does, while the clock reading is remembered. *)
Definition at_time (now : Z) (R : supervision → list event → Prop) (st : supervision)
    (evs : list event) : Prop :=
  clocked evs now ∧ R st evs.

Lemma leads_turns now R R' f :
  turns R R' f → leads (W := W) (at_time now R) (at_time now R') f.
Proof.
  intros Hy t0 st s st' s' (evs & E & Hn & H) Run. destruct (Hy st evs s H _ _ Run) as (new & En & H').
  exists (new ++ evs). rewrite En, E, app_assoc. split; [done|]. split; [by apply clocked_later|done].
Qed.

Lemma turns_view (R : supervision → list event → Prop) f :
  (∀ st, emits anything (f st)) → (∀ st, yields (λ st', cleanup_view st' = cleanup_view st) (f st)) →
  (∀ st st' new evs, cleanup_view st' = cleanup_view st → R st evs → R st' (new ++ evs)) →
  turns R R f.
Proof.
  intros He Hy HR st evs s H st' s' Run. destruct (He st s) as (new & En & _).
  specialize (Hy st s). rewrite Run in En, Hy. exists new. split; [done|]. exact (HR _ _ _ _ Hy H).
Qed.

Lemma step_settles st0 :
  child_exited st0 = true → cleanup_started st0 = true → child_reaped st0 = false →
  leads (W := W) (λ st _, (cleanup_view st).1 = (cleanup_view st0).1)
    (λ st evs, ∃ now, clocked evs now ∧ settled now st0 st evs) (supervision_step ctx).
Proof.
  intros Hx Hs Hr.
  set (same := λ (st : supervision) (_ : list event), (cleanup_view st).1 = (cleanup_view st0).1).
  assert (∀ f : supervision → M W supervision,
    (∀ st, emits no_kill (f st)) → ∀ st, emits anything (f st)) as Hw.
  { intros f H st. by eapply emits_weaken; [apply H|]. }
  assert (∀ f : supervision → M W supervision, (∀ st, emits anything (f st)) →
    (∀ st, (cleanup_view st).1 = (cleanup_view st0).1 →
       yields (λ st', (cleanup_view st').1 = (cleanup_view st).1) (f st)) → leads same same f) as Hsame.
  { intros f He Hy. apply (keeps_quiet _ _ anything); [done|]. intros st evs new E _.
    eapply yields_mono; [by apply Hy|]. intros st' E'. unfold same in *. congruence. }
  assert (∀ f : supervision → M W supervision, (∀ st, emits anything (f st)) →
    (∀ st, yields (λ st', cleanup_view st' = cleanup_view st) (f st)) → ∀ now,
    leads (at_time now (settled now st0)) (at_time now (settled now st0)) f) as Hview.
  { intros f He Hy now. apply leads_turns, turns_view; [done..|]. intros. by eapply settled_later. }
  unfold supervision_step.
  eapply leads_bind; [apply Hsame; [intros; by apply emits_part_exit|]|].
  { intros st E. injection E as E _ _ _ _ _. unfold part_exit. rewrite E, Hx. by apply yields_ret. }
  eapply leads_bind; [apply Hsame; [intros; by apply emits_observe|]|].
  { intros st E. injection E as E _ _ _ _ _. unfold observe_cancellation.
    rewrite E, Hx, orb_true_r. by apply yields_ret. }
  eapply leads_bind; [apply Hsame; [apply Hw, no_kill_gate|]|].
  { intros st _. eapply yields_mono; [apply view_gate|]. by intros st' ->. }
  eapply leads_bind; [apply Hsame; [intros; by apply emits_cancel|intros; apply view_cancel]|].
  apply (leads_clock _ _ (λ now, at_time now (underway now st0))).
  { intros st evs now E. split; [apply list_elem_of_here|]. injection E as E1 E2 E3 E4 E5 E6.
    split_and!; try congruence. left. by rewrite E5, E6. }
  intros now. eapply leads_bind; [apply leads_turns, underway_force|].
  eapply leads_bind; [apply leads_turns, underway_begin|].
  eapply leads_bind; [apply leads_turns, underway_advance|].
  eapply leads_bind; [apply leads_turns, advanced_reap|].
  eapply leads_bind; [apply Hview; [apply Hw, no_kill_streams|apply view_streams]|].
  eapply leads_bind; [apply Hview; [apply Hw, no_kill_control|apply view_control]|].
  eapply leads_weaken; [apply Hview; [apply Hw, no_kill_ready|apply view_ready]|].
  intros st evs [Hn H]. by exists now.
Qed.

End progress.

(** C14: Cleanup of a controlled execution comes to an end. In every iteration after the
    child was seen to exit and cleanup began, whatever members are left in the process
    group and whatever the kernel answers, one of three things happens. The child is
    reaped, by a call of waitpid, with cleanup complete, because the members were seen
    gone or because the group was killed once more after the second it was given, which
    is recorded as a failure. Or the group is forced and given one more second. Or the
    clock of the iteration has not reached the deadline of cleanup, which stays as it
    is. So the first iteration at or past the deadline forces the group, and the first
    one a second later reaps the child: no survivor can keep the supervisor waiting.
    Forcing is a SIGKILL, in this iteration and in every later one, to members just
    confirmed in the group and last to the child through its pidfd; it accounts for
    every process of a whole scan of /proc, or cleanup is recorded as failed. *)
Theorem cleanup_progresses st s st' s' :
  controlled ctx = true → child_exited st = true → cleanup_started st = true →
  child_reaped st = false → supervision_step ctx st s = (Done st', s') →
  ∃ evs now, trace s' = evs ++ trace s ∧ clocked evs now ∧
    (cleanup_complete st' = true ∧ child_reaped st' = true ∧ cleanup_ended now st st' evs ∧
       (∃ answer, Event (sys_waitpid (child ctx)) answer ∈ evs) ∨
     child_reaped st' = false ∧
     (forced_signal_sent st = false ∧ forced_signal_sent st' = true ∧
        cleanup_deadline st' = Some (now + milliseconds 1000) ∧ swept st' evs ∨
      forced_signal_sent st' = forced_signal_sent st ∧
        cleanup_deadline st' = cleanup_deadline st ∧ reached now (cleanup_deadline st) = false ∧
        (forced_signal_sent st = true → swept st' evs))).
Proof.
  intros Ht Hx Hs Hr R.
  destruct (step_settles Ht st Hx Hs Hr (trace s) st s st' s') as (evs & E & now & Hn & H); [|done|].
  - by exists [].
  - by exists evs, now.
Qed.

End claims.

(** ** Witnesses *)

Lemma plain_run_ends :
  ∃ st s, supervise (run_context false) 20 (initial_supervision 3 4 5 6 7)
            (Script.start plain_scene) = (Done st, s).
Proof. eexists _, _. vm_compute. reflexivity. Qed.
Lemma stubborn_run_ends :
  ∃ st s, run true stubborn_scene = (Done st, s) ∧ forced_signal_sent st = true.
Proof. eexists _, _. split; [vm_compute; reflexivity|reflexivity]. Qed.

Lemma run_reaches token w st s :
  run token w = (Done st, s) → reachable (run_context token) run_start (Script.start w) st s.
Proof. intros R. eapply supervise_reachable; [apply reach_start|exact R]. Qed.

Lemma start_gate_safe_witness :
  ∃ st s evs, reachable (run_context true) run_start (Script.start stubborn_scene) st s ∧
    trace s = evs ++ [] ∧ released evs = Nat.b2n (start_released st).
Proof.
  destruct stubborn_run_ends as (st & s & R & _). apply run_reaches in R.
  destruct (start_gate_safe (run_context true) 3 4 5 6 7 _ st s R) as (evs & E & H & _).
  exists st, s, evs. split; [exact R|]. split; [exact E|exact H].
Defined.

Lemma capture_exact_witness :
  ∃ st (s : mstate scene) evs, trace s = evs ++ [] ∧ output_material st = stream (delivered_by 3) evs.
Proof.
  destruct plain_run_ends as (st & s & R).
  destruct (capture_exact (run_context false) 20 3 4 5 6 7 (Script.start plain_scene) st s)
    as (evs & E & H & _); [lia|lia|lia|lia|apply (bool_decide_unpack _); reflexivity|exact R|].
  exists st, s, evs. split; [exact E|exact H].
Defined.

Lemma no_early_kill_witness :
  ∃ st s evs, reachable (run_context true) run_start (Script.start stubborn_scene) st s ∧
    trace s = evs ++ [] ∧ (elapsed (milliseconds 60000) evs ∨ elapsed (milliseconds 200) evs).
Proof.
  destruct stubborn_run_ends as (st & s & R & Hf). apply run_reaches in R.
  destruct (no_early_kill (run_context true) 3 4 5 6 7 _ st s eq_refl R) as (evs & E & _ & H).
  exists st, s, evs. split; [exact R|]. split; [exact E|].
  destruct (H Hf) as [?|[_ ?]]; [left|right]; assumption.
Defined.

(** The child has exited, cleanup waits for a member of the group. *)
Definition waiting : supervision :=
  set_cleanup_deadline (Some 500) (set_cleanup_started true
    (set_child_information (mk_siginfo 42 CLD_EXITED 0) (set_child_exited true run_start))).
Definition waiting_scene : scene := mk_scene [] [] [] [Some "7"%string; None] false 1000 1.

Lemma waiting_step_ends :
  ∃ st s, supervision_step (run_context true) waiting (Script.start waiting_scene) = (Done st, s) ∧
    forced_signal_sent st = true ∧ child_reaped st = false.
Proof. eexists _, _. split; [vm_compute; reflexivity|done]. Qed.

Lemma cleanup_progresses_witness :
  ∃ st (s : mstate scene) evs now, trace s = evs ++ [] ∧ clocked evs now ∧
    forced_signal_sent st = true ∧ cleanup_deadline st = Some (now + milliseconds 1000).
Proof.
  destruct waiting_step_ends as (st & s & R & Hf & Hr).
  destruct (cleanup_progresses (run_context true) waiting (Script.start waiting_scene) st s
    eq_refl eq_refl eq_refl eq_refl R) as (evs & now & E & Hn & [(_ & H & _)|[_ [(_ & _ & H & _)|(H & _)]]]).
  - rewrite Hr in H. discriminate H.
  - exists st, s, evs, now. split; [exact E|]. split; [exact Hn|]. split; [exact Hf|exact H].
  - rewrite Hf in H. discriminate H.
Defined.
