(* ===== verification/Evidence.v ===== *)
(** * Evidence

    What the variables of the supervision loop say about the child and about
    cancellation was answered by the kernel: the exit and its status by [waitid] for
    this child, cancellation by the token, the delivery of the signal by the pidfd of
    this child, the end of the group by a scan of /proc or by [kill]. The calls are found
    in the trace of the loop itself. *)

From S2P Require Import Prelude Machine Linux Logic Posix Script Pkgexec Records ProcFs.
From S2P Require Import ProcessControl Support Yields Supervisor SupervisorFacts SupervisorClaims.
Local Open Scope Z_scope.

Section evidence.
Context {W : Type} `{K : Kernel W} (ctx : supervision_context).

(** The question the loop asks about its child. *)
Definition exit_question : call (res siginfo) :=
  sys_waitid (if 0 <=? pidfd ctx then P_PIDFD else P_PID)
    (if 0 <=? pidfd ctx then pidfd ctx else child ctx) (Z.lor WEXITED (Z.lor WNOHANG WNOWAIT)).

(** The group of the child was seen without a member: for a controlled execution a whole
    scan of /proc found none but the child; for another one [kill] found no group. *)
Definition group_seen_gone (evs : list event) : Prop :=
  if controlled ctx then seen_gone (child ctx) (child ctx) evs
  else Event (sys_kill (- child ctx) 0) (Err ESRCH) ∈ evs.

Record evident (st : supervision) (evs : list event) : Prop := mk_evident {
  evident_exit :
    child_exited st = true → Event exit_question (Ok (child_information st)) ∈ evs;
  evident_cancellation :
    cancellation_observed st = true → Event env_cancellation_requested true ∈ evs;
  evident_delivery :
    cancellation_signal_delivered st = true →
    Event (sys_pidfd_send_signal (pidfd ctx) SIGTERM) (Ok tt) ∈ evs;
  evident_cleanup :
    cleanup_complete st = true → cleanup_failed st = false → group_seen_gone evs
}.

(** The variables the evidence is about. *)
Definition testimony (st : supervision) :=
  (child_exited st, child_information st, cancellation_observed st, cancellation_signal_delivered st).

(** [st'] claims nothing about the child, cancellation or cleanup that [st] does not. *)
Definition backs (st st' : supervision) : Prop :=
  testimony st' = testimony st ∧
  (cleanup_complete st' = true → cleanup_failed st' = false →
     cleanup_complete st = true ∧ cleanup_failed st = false).

#[local] Instance backs_preorder : PreOrder backs.
Proof.
  split; [by intros st; split|]. intros st1 st2 st3 [E1 H1] [E2 H2]. split; [congruence|].
  intros Hc Hf. destruct (H2 Hc Hf). auto.
Qed.
Lemma backs_failed st : backs st (set_cleanup_failed true st).
Proof. by split. Qed.

Lemma gone_later evs new : group_seen_gone evs → group_seen_gone (new ++ evs).
Proof.
  unfold group_seen_gone. destruct (controlled ctx).
  - intros H. rewrite <- (app_nil_r evs). by apply seen_gone_app.
  - intros H. apply elem_of_app. auto.
Qed.

Lemma evident_more st st' evs new : evident st evs → backs st st' → evident st' (new ++ evs).
Proof.
  intros [] [E Hb]. injection E as E1 E2 E3 E4. constructor; rewrite ?E1, ?E2, ?E3, ?E4; intros;
    try (apply elem_of_app; auto). apply gone_later. destruct Hb; auto.
Qed.

Lemma keeps_evident_quiet f :
  (∀ st, emits anything (f st)) →
  (∀ st, yields (backs st) (f st)) → keeps (W := W) evident f.
Proof.
  intros He Hy. apply (keeps_quiet _ _ anything); [done|]. intros st evs new H _.
  eapply yields_mono; [apply Hy|]. intros st'. by apply evident_more.
Qed.

#[local] Hint Resolve yields_fd_reset yields_cleanup_group yields_members_gone yields_drain_fd : yields.
#[local] Ltac quiet_auto :=
  repeat first [apply yields_after_reset | apply yields_after_signal; intros ? [] | yields_step];
  try (by split); try (by case_match).

Lemma quiet_force now st : yields (backs st) (part_force (W := W) ctx now st).
Proof. unfold part_force. quiet_auto. Qed.
Lemma quiet_begin now st : yields (backs st) (part_begin_cleanup (W := W) ctx now st).
Proof. unfold part_begin_cleanup. quiet_auto. Qed.
Lemma quiet_streams st : yields (backs st) (part_streams (W := W) ctx st).
Proof. unfold part_streams. quiet_auto. Qed.
Lemma quiet_control fuel st : yields (backs st) (part_control (W := W) fuel st).
Proof. revert st. induction fuel as [|n IH]; intros st; simpl; quiet_auto; exact (IH _). Qed.
Lemma quiet_ready fuel st : yields (backs st) (part_ready (W := W) fuel st).
Proof.
  revert st. induction fuel as [|n IH]; intros st; simpl; quiet_auto; try exact (IH _).
  case_match; exact (IH _).
Qed.

(** ** The parts that settle cleanup *)

Lemma turns_seq R1 R2 R3 f g : turns R1 R2 f → turns R2 R3 g → turns (W := W) R1 R3 (λ st, f st ≫= g).
Proof.
  intros Hf Hg st evs s H. apply pc_bind. intros st1 s1 E1.
  destruct (Hf _ _ _ H _ _ E1) as (n1 & En1 & H1). intros st2 s2 E2.
  destruct (Hg _ _ _ H1 _ _ E2) as (n2 & En2 & H2). exists (n2 ++ n1).
  rewrite En2, En1, <- !app_assoc. done.
Qed.
Lemma turns_ret R : turns (W := W) R R mret.
Proof. intros st evs s H. apply pc_ret. by exists []. Qed.

Lemma keeps_evident_turns f : turns evident evident f → keeps (W := W) evident f.
Proof.
  intros Hy t0 st s st' s' (evs & E & H) Run. destruct (Hy st evs s H _ _ Run) as (new & En & H').
  exists (new ++ evs). by rewrite En, E, app_assoc.
Qed.

Lemma evident_gone st evs new :
  evident st evs → group_seen_gone (new ++ evs) → evident (set_cleanup_complete true st) (new ++ evs).
Proof. intros [] H. constructor; simpl; intros; try (apply elem_of_app; auto). done. Qed.

(** Signaling the group leaves the state as it is or records a failure of cleanup. *)
Lemma pc_kept_signal signal st Q (s : mstate W) :
  (∀ result st' s' new, trace s' = new ++ trace s → backs st st' → Q (result, st') s') →
  pc (signal_group ctx signal st) Q s.
Proof.
  intros H. apply (pc_signal ctx anything); [by constructor|]. intros result okay s' new E _.
  apply (H _ _ _ _ E). destruct okay; [done|apply backs_failed].
Qed.

Lemma turns_look now : controlled ctx = true → turns (W := W) evident evident (λ st,
  gone ← wait_process_group_members_gone (loop_fuel ctx) (scan_fuel ctx) (child ctx) (child ctx) 0;
  if (gone : bool) then mret (set_cleanup_complete true st)
  else if reached now (cleanup_deadline st) then
    if negb (forced_signal_sent st) then
      r ← signal_group ctx SIGKILL st;
      mret (set_cleanup_deadline (Some (now + milliseconds 1000)) (set_forced_signal_sent true r.2))
    else
      r ← signal_group ctx SIGKILL st;
      mret (set_cleanup_complete true (set_cleanup_failed true r.2))
  else mret st).
Proof.
  intros Htok st evs s H. apply pc_bind, pc_members_gone. intros gone s1 n1 En1 Hg. destruct gone.
  { apply pc_ret. exists n1. split; [done|]. apply evident_gone; [done|]. unfold group_seen_gone.
    rewrite Htok. auto. }
  destruct (reached _ _); [|apply pc_ret; exists n1; split; [done|by eapply evident_more]].
  destruct (negb _); apply pc_bind, pc_kept_signal; intros result st2 s2 n2 En2 B; apply pc_ret;
    exists (n2 ++ n1); (split; [by rewrite En2, En1, app_assoc|]); (eapply evident_more; [done|]);
    (etrans; [exact B|by split]).
Qed.

Lemma turns_again : turns (W := W) evident evident
  (λ st, if forced_signal_sent st then r ← signal_group ctx SIGKILL st; mret r.2 else mret st).
Proof.
  intros st evs s H. destruct (forced_signal_sent st); [|apply pc_ret; by exists []].
  apply pc_bind, pc_kept_signal. intros result st1 s1 new En B. apply pc_ret.
  exists new. split; [done|by eapply evident_more].
Qed.

Lemma keeps_evident_advance now : keeps (W := W) evident (part_advance_cleanup ctx now).
Proof.
  apply keeps_evident_turns. intros st evs s H. unfold part_advance_cleanup.
  destruct (child_exited st && controlled ctx && cleanup_started st && _) eqn:G;
    [|apply pc_ret; by exists []].
  assert (controlled ctx = true) as Htok by (by split_tests).
  exact (turns_seq _ _ _ _ _ turns_again (turns_look now Htok) st evs s H).
Qed.

(** [kill] found no group: what is seen when [cleanup_group] answers that it is gone. *)
Definition sees_no_group (group : Z) (m : M W bool) : Prop :=
  ∀ s, pc m (λ gone s', ∃ new, trace s' = new ++ trace s ∧
    ((gone : bool) = true → Event (sys_kill (- group) 0) (Err ESRCH) ∈ new)) s.

Lemma sees_group_gone group : sees_no_group group (group_gone group).
Proof.
  intros s gone s'. unfold group_gone, attempt, issue, get_errno, mbind, M_bind.
  destruct (kernel_run _ _) as [[u|e] w]; cbn; intros [= <- <-]; eexists [_]; (split; [done|]); [done|].
  intros ->%Z.eqb_eq. by left.
Qed.
Lemma sees_bind {A} group (m : M W A) k :
  emits anything m → (∀ a, sees_no_group group (k a)) → sees_no_group group (m ≫= k).
Proof.
  intros He Hk s. apply pc_bind. intros a s1 E gone s2 E2. destruct (emits_after _ _ _ _ _ He E) as [n1 E1].
  destruct (Hk a s1 gone s2 E2) as (n2 & En & H). exists (n2 ++ n1). rewrite En, E1, app_assoc.
  split; [done|]. intros Hg. apply elem_of_app. auto.
Qed.
Lemma sees_or group k :
  sees_no_group group k →
  sees_no_group group (gone ← group_gone group; if (gone : bool) then mret true else k).
Proof.
  intros Hk s. apply pc_bind. intros gone s1 E. apply sees_group_gone in E as (n1 & E1 & H1).
  destruct gone; [apply pc_ret; by exists n1|]. intros gone s2 E2.
  destruct (Hk s1 gone s2 E2) as (n2 & En & H). exists (n2 ++ n1). rewrite En, E1, app_assoc.
  split; [done|]. intros Hg. apply elem_of_app. auto.
Qed.
Lemma sees_wait_group_gone turns group : sees_no_group group (wait_group_gone turns group).
Proof.
  induction turns as [|n IH]; cbn [wait_group_gone]; [intros s; apply pc_ret; by exists []|].
  apply sees_or, sees_bind; [by emits_auto|done].
Qed.
Lemma sees_cleanup_group group : sees_no_group group (cleanup_group group).
Proof.
  unfold cleanup_group. apply sees_or, sees_bind; [by emits_auto|]. intros _.
  pose proof (sees_wait_group_gone 20 group) as H20.
  intros s. apply pc_bind. intros gone s1 E. apply H20 in E as (n1 & E1 & H1).
  destruct gone; [apply pc_ret; by exists n1|]. intros gone s2 E2.
  assert (sees_no_group group (ignore (sys_kill (- group) SIGKILL);; wait_group_gone 100 group)) as H100
    by (apply sees_bind; [by emits_auto|intros; apply sees_wait_group_gone]).
  destruct (H100 s1 gone s2 E2) as (n2 & En & H). exists (n2 ++ n1). rewrite En, E1, app_assoc.
  split; [done|]. intros Hg. apply elem_of_app. auto.
Qed.

Lemma turns_reap_controlled : turns (W := W) evident evident (λ st,
  if child_exited st && controlled ctx && cleanup_complete st && negb (child_reaped st) then
    reap_child ctx;; mret (set_child_reaped true st)
  else mret st).
Proof.
  intros st evs s H. destruct (_ && _ && _ && _); [|apply pc_ret; by exists []].
  apply pc_bind, pc_reap_child. intros s1 new a En _. apply pc_ret. exists new.
  split; [done|by eapply evident_more].
Qed.

Lemma turns_reap_group : turns (W := W) evident evident (λ st,
  if child_exited st && negb (controlled ctx) && negb (child_reaped st) then
    reap_child ctx;;
    let st := set_child_reaped true st in
    cleaned ← cleanup_group (child ctx);
    mret (set_cleanup_failed (negb cleaned) (set_cleanup_complete cleaned st))
  else mret st).
Proof.
  intros st evs s H. destruct (child_exited st && _ && _) eqn:G; [|apply pc_ret; by exists []].
  assert (controlled ctx = false) as Htok by (by split_tests).
  apply pc_bind, pc_reap_child. intros s1 n1 a En1 _. apply pc_bind. intros cleaned s2 E2.
  apply sees_cleanup_group in E2 as (n2 & En2 & Hc). apply pc_ret. exists (n2 ++ n1).
  rewrite En2, En1, app_assoc. split; [done|]. destruct H. constructor; simpl; intros;
    try (rewrite !elem_of_app; auto). unfold group_seen_gone. rewrite Htok. rewrite !elem_of_app. auto.
Qed.

Lemma keeps_evident_reap : keeps (W := W) evident (part_reap ctx).
Proof.
  apply keeps_evident_turns. intros st evs s H.
  exact (turns_seq _ _ _ _ _ turns_reap_controlled turns_reap_group st evs s H).
Qed.

(** ** The parts that take evidence *)

Lemma observed_exit fuel (s : mstate W) :
  pc (observe_child_exit fuel (child ctx) (pidfd ctx)) (λ r s',
    ∃ evs, trace s' = evs ++ trace s ∧ (r.1 = true → Event exit_question (Ok r.2) ∈ evs)) s.
Proof.
  revert s. induction fuel as [|n IH]; intros s; [by intros r s'|]. cbn [observe_child_exit].
  intros r s'. unfold attempt, issue, get_errno, mbind, M_bind. fold exit_question.
  destruct (kernel_run exit_question (world s)) as [[information|e] w] eqn:E; cbn.
  - intros [= <- <-]. eexists [_]. split; [done|]. intros _. apply list_elem_of_here.
  - destruct (e =? EINTR); cbn.
    + intros R. apply IH in R as (evs & Et & H). eexists (evs ++ [_]). rewrite <- app_assoc.
      split; [exact Et|]. intros Hr. apply elem_of_app. auto.
    + intros [= <- <-]. by eexists [_].
Qed.

Lemma keeps_evident_exit : keeps (W := W) evident (part_exit ctx).
Proof.
  intros t0 st s st' s' (evs & E & H). unfold part_exit.
  destruct (child_exited st) eqn:Ex; [intros [= <- <-]; by exists evs|].
  unfold mbind, M_bind.
  destruct (observe_child_exit _ _ _ s) as [[[exited information]|x|c|] s1] eqn:R; try discriminate.
  intros [= <- <-]. apply observed_exit in R as (new & En & Hn). exists (new ++ evs).
  rewrite En, E, app_assoc. split; [done|]. destruct H. constructor; simpl in *; intros;
    try (apply elem_of_app; auto). by apply gone_later; auto.
Qed.

Lemma keeps_evident_observe : keeps (W := W) evident (observe_cancellation ctx).
Proof.
  intros t0 st s st' s' (evs & E & H). unfold observe_cancellation.
  destruct (_ || _ || _); [intros [= <- <-]; by exists evs|].
  unfold mbind at 1, M_bind at 1, issue.
  destruct (kernel_run env_cancellation_requested (world s)) as [requested w].
  destruct requested; cbn [negb].
  2:{ intros [= <- <-]. eexists ([_] ++ evs). simpl. rewrite E. split; [done|].
      by apply (evident_more st st evs [Event env_cancellation_requested false]). }
  set (s1 := MState _ _ _). intros R.
  assert (∃ new, trace s' = new ++ trace s1 ∧ backs (set_cancellation_observed true st) st')
    as (new & En & Ev & Hb).
  { destruct (cancellation_before_start _); [|injection R as <- <-; exists []; by split_and!].
    unfold mbind, M_bind in R. destruct (fd_reset _ _ s1) as [[fd|x|c|] s2] eqn:Er; try discriminate.
    injection R as <- <-. assert (emits anything (fd_reset (W := W) (start_write st) (-1))) as He
      by (by apply emits_fd_reset).
    destruct (emits_after _ _ _ _ _ He Er) as [new En]. exists new. by split_and!. }
  exists (new ++ [Event env_cancellation_requested true] ++ evs). rewrite En. unfold s1. cbn [trace].
  rewrite E. split; [by rewrite <- app_assoc|].
  injection Ev as E1 E2 E3 E4. destruct H. constructor; rewrite ?E1, ?E2, ?E3, ?E4; simpl; intros;
    try (rewrite ?elem_of_app, ?elem_of_cons; by auto).
  apply gone_later, (gone_later _ [_]). destruct Hb; auto.
Qed.

Lemma keeps_evident_gate : keeps (W := W) evident (part_gate ctx).
Proof.
  intros t0 st s st' s' Hs. unfold part_gate. destruct (_ && _ && _); [|by intros [= <- <-]].
  unfold mbind at 1, M_bind at 1.
  destruct (observe_cancellation ctx st s) as [[st1|x|c|] s1] eqn:R; try discriminate.
  pose proof (keeps_evident_observe _ _ _ _ _ Hs R) as (evs & E & H).
  destruct (cancellation_observed st1); [intros [= <- <-]; by exists evs|].
  unfold mbind, M_bind.
  destruct (write_start _ _ s1) as [[written|x|c|] s2] eqn:Rw; try discriminate.
  intros [= <- <-]. assert (emits anything (write_start (W := W) (loop_fuel ctx) (start_write st1))) as He.
  { unfold write_start. emits_auto; try done. by apply emits_fd_reset. }
  destruct (emits_after _ _ _ _ _ He Rw) as [new En]. exists (new ++ evs).
  rewrite En, E, app_assoc. split; [done|]. apply (evident_more st1); [done|]. by destruct written.
Qed.

(** The signal counts as delivered only if the pidfd of the leader took it. *)
Lemma delivered_signal fuel signal (s : mstate W) :
  pc (signal_process_group_members fuel (child ctx) (child ctx) (pidfd ctx) signal) (λ r s',
    ∃ evs, trace s' = evs ++ trace s ∧
      (leader_signaled r = true → Event (sys_pidfd_send_signal (pidfd ctx) signal) (Ok tt) ∈ evs)) s.
Proof.
  unfold signal_process_group_members. apply pc_bind. intros processes s1 E1. apply pc_bind.
  intros okay s2 E2. assert (after s s2) as A2.
  { eapply after_trans; [eapply (emits_after anything); [by apply emits_process_ids|exact E1]|].
    eapply (emits_after anything); [|exact E2].
    destruct processes; [|apply emits_ret]. apply (emits_signal_members anything _ _ signal). by constructor. }
  clear s1 E1 E2. intros r s'. unfold send_pidfd_signal, succeeds, attempt, issue, get_errno, mbind, M_bind.
  destruct A2 as [evs E]. destruct (kernel_run _ (world s2)) as [[[]|e] w]; cbn; intros [= <- <-];
    eexists (_ :: evs); simpl; rewrite E; (split; [done|]); simpl; intros; [apply list_elem_of_here|done].
Qed.

Lemma keeps_evident_cancel : keeps (W := W) evident (part_cancel ctx).
Proof.
  intros t0 st s st' s' (evs & E & H). unfold part_cancel.
  destruct (_ || _ || _); [intros [= <- <-]; by exists evs|].
  unfold signal_group, mbind, M_bind.
  destruct (signal_process_group_members _ _ _ _ _ s) as [[r|x|c|] s1] eqn:R; try discriminate.
  apply delivered_signal in R as (new & En & Hn). cbn.
  unfold issue. destruct (kernel_run env_now (world s1)) as [now w]. intros [= <- <-].
  eexists ([_] ++ new ++ evs). simpl. rewrite En, E, app_assoc. split; [done|].
  destruct H. destruct (complete r); constructor; simpl; intros; try done;
    try (rewrite elem_of_cons, elem_of_app; by auto).
  apply (gone_later _ [_]), gone_later. auto.
Qed.

Lemma keeps_evident_step : keeps (W := W) evident (supervision_step ctx).
Proof.
  apply (step_keeps ctx evident (λ _, evident));
    [| done | apply keeps_evident_exit | apply keeps_evident_observe | apply keeps_evident_gate
     | apply keeps_evident_cancel | | | | | | |].
  - intros st evs now H. by apply (evident_more st st evs [Event env_now now]).
  - intros now. apply keeps_evident_quiet; [intros; apply emits_force; by constructor|apply quiet_force].
  - intros now. apply keeps_evident_quiet; [intros; apply emits_begin; by constructor|apply quiet_begin].
  - intros now. apply keeps_evident_advance.
  - apply keeps_evident_reap.
  - apply keeps_evident_quiet; [intros st|apply quiet_streams].
    eapply emits_weaken; [apply (no_kill_streams ctx st)|done].
  - apply keeps_evident_quiet; [intros st|apply quiet_control].
    eapply emits_weaken; [apply (no_kill_control _ st)|done].
  - apply keeps_evident_quiet; [intros st|apply quiet_ready].
    eapply emits_weaken; [apply (no_kill_ready _ st)|done].
Qed.

(** The evidence of a loop that ended, with the writes of the start byte. *)
Lemma supervise_evident turns out err control ready start s st s' :
  supervise ctx turns (initial_supervision out err control ready start) s = (Done st, s') →
  ∃ evs, trace s' = evs ++ trace s ∧ evident st evs ∧
    consistent ctx st ∧ released evs = Nat.b2n (start_released st).
Proof.
  intros R. destruct (supervise_reachable _ _ _ _ _ _ _ _ (reach_start _ _ _) R) as [Hr _].
  apply (reachable_keeps ctx evident) in Hr as Hev; [|by constructor|apply keeps_evident_step].
  apply (reachable_keeps ctx (gated ctx)) in Hr as (evs & E & Hc & Hg);
    [|split; [apply consistent_initial|done]|apply keeps_gated_step].
  destruct Hev as (evs' & E' & Hev). rewrite E in E'. apply app_inv_tail in E' as <-. by exists evs.
Qed.

End evidence.
