(* ===== verification/Progress.v ===== *)
(** * Computations that come to an end

    What the system around the supervisor has to do for its loops to end, as laws of a
    kernel, and a program logic for it. [patience] bounds how often the kernel will
    still answer that a call has to be repeated or that there is nothing yet: an
    interruption, a pipe with nothing to read or with more to read, a child that has
    not exited. Other failures are free, and may go on for ever. The steady clock never
    goes back and a poll takes time; a directory has finitely many entries. The law
    [Waitable] stands apart: the kernel lets the supervisor wait for its child. [lasts n Q m]: with patience below [n], [m] returns,
    the laws of time and patience hold between its start and its end, and [Q] holds
    of both and of the value. *)

From S2P Require Import Prelude Machine Linux Logic Posix Script ProcFs ProcessControl.
Local Open Scope Z_scope.

(** [EINTR], [EAGAIN] or [EWOULDBLOCK]. *)
Definition to_repeat (e : Z) : bool := (e =? EINTR) || (e =? EAGAIN) || (e =? EWOULDBLOCK).

(** What an answer takes from the patience: one for each "again" or "not yet". *)
Definition hold_ups {R} (c : call R) : R → nat :=
  match c in call R return R → nat with
  | sys_read _ _ => λ r,
      match r with
      | Ok [] => 0
      | Ok _ => 1
      | Err e => if to_repeat e then 1 else 0
      end
  | sys_pread _ _ _ | sys_recv _ _ _ => λ r,
      match r with
      | Ok [] => 0
      | Ok _ => 1
      | Err e => if to_repeat e then 1 else 0
      end
  | sys_write _ bytes => λ r,
      match r with
      | Ok count => if (0 <? count)%Z && (count <? Z.of_nat (length bytes))%Z then 1 else 0
      | Err e => if (e =? EINTR)%Z then 1 else 0
      end
  | sys_sendto _ _ _ _ => λ r, match r with Err e => if (e =? EINTR)%Z then 1 else 0 | Ok _ => 0 end
  | sys_waitpid _ => λ r, match r with Err e => if (e =? EINTR)%Z then 1 else 0 | Ok _ => 0 end
  | sys_waitid _ _ _ => λ r,
      match r with
      | Ok information => if (si_pid information =? 0)%Z then 1 else 0
      | Err e => if (e =? EINTR)%Z then 1 else 0
      end
  | _ => λ _, 0
  end%nat.

(** The answer of [fork] in the new process. *)
Definition birth (ev : event) : bool :=
  match ev with
  | Event c r =>
      match c in call R return R → bool with
      | sys_fork => λ r, match r with Ok child => (child =? 0)%Z | Err _ => false end
      | _ => λ _, false
      end r
  end.

(** [scan] bounds the entries of a directory. *)
Class Fair (W : Type) `{Kernel W} (scan : nat) : Type := {
  patience : W → nat;
  steady : W → Z;
  unread : W → Z → nat;
  patience_spent : ∀ R (c : call R) r w w',
    kernel_run c w = (r, w') → (patience w' + hold_ups c r ≤ patience w)%nat;
  clock_forward : ∀ R (c : call R) r w w', kernel_run c w = (r, w') → steady w ≤ steady w';
  clock_read : ∀ now w w', kernel_run env_now w = (now, w') → steady w ≤ now ≤ steady w';
  poll_takes_time : ∀ fds timeout r w w',
    kernel_run (sys_poll fds timeout) w = (r, w') → steady w < steady w';
  directory_bounded : ∀ path d w w',
    kernel_run (sys_opendir path) w = (Ok d, w') → (unread w' d < scan)%nat;
  stream_bounded : ∀ fd d w w',
    kernel_run (sys_fdopendir fd) w = (Ok d, w') → (unread w' d < scan)%nat;
  message_fits : ∀ fd size flags bytes w w',
    kernel_run (sys_recv fd size flags) w = (Ok bytes, w') → Z.of_nat (length bytes) ≤ size;
  entry_read : ∀ d name w w',
    kernel_run (sys_readdir d) w = (Ok (Some name), w') → (unread w' d < unread w d)%nat
}.

(** A failure of [waitid] that is not an interruption. Linux answers ECHILD, for ever, when
    SIGCHLD is ignored in the supervisor (SIG_IGN is inherited through [execve]) or another
    part of the process has reaped the child. *)
Definition wait_failed {W} `{Kernel W} : Prop :=
  ∃ kind id flags e w w', kernel_run (sys_waitid kind id flags) w = (Err e, w') ∧ e ≠ EINTR.

(** The supervisor can wait for its child: [waitid] is interrupted at most. Not a law of
    fairness, but of the process the supervisor runs in. *)
Class Waitable (W : Type) `{Kernel W} : Prop :=
  waitid_works : ∀ kind id flags e w w',
    kernel_run (sys_waitid kind id flags) w = (Err e, w') → e = EINTR.

Lemma waitable_works {W} `{Kernel W} `{!Waitable W} : ¬ wait_failed.
Proof. intros (k & i & f & e & w & w' & E & Hne). by apply waitid_works in E. Qed.

Section progress.
Context {W : Type} `{K : Kernel W} {scan : nat} `{F : !Fair W scan}.

(** From [s] to [s'] in one process. *)
Definition same_process (s s' : mstate W) : Prop :=
  ∃ evs, trace s' = evs ++ trace s ∧ Forall (λ ev, birth ev = false) evs.
Definition evolves (s s' : mstate W) : Prop :=
  (patience (world s') ≤ patience (world s))%nat ∧ steady (world s) ≤ steady (world s') ∧
  same_process s s'.
Definition fewer (s s' : mstate W) : Prop := (patience (world s') < patience (world s))%nat.

#[export] Instance same_process_preorder : PreOrder same_process.
Proof.
  split; [intros s; by exists []|]. intros s1 s2 s3 (e1 & E1 & H1) (e2 & E2 & H2).
  exists (e2 ++ e1). rewrite E2, E1, app_assoc. split; [done|]. by apply Forall_app.
Qed.
#[export] Instance evolves_preorder : PreOrder evolves.
Proof.
  split; [intros s|intros s1 s2 s3 (?&?&?) (?&?&?)]; split_and!; try lia; [done|by etrans].
Qed.

Lemma errno_evolves e s : evolves s (MState (world s) e (trace s)).
Proof. split_and!; simpl; try lia. by exists []. Qed.

Lemma fewer_evolves s1 s2 s3 : fewer s1 s2 → evolves s2 s3 → fewer s1 s3.
Proof. unfold fewer, evolves. lia. Qed.
Lemma evolves_fewer s1 s2 s3 : evolves s1 s2 → fewer s2 s3 → fewer s1 s3.
Proof. unfold fewer, evolves. lia. Qed.

(** Running [m] from [s] returns a value with [Q]. *)
Definition ends {A} (m : M W A) (Q : A → mstate W → Prop) (s : mstate W) : Prop :=
  wp m (λ o s', match o with Done a => evolves s s' ∧ Q a s' | _ => False end) s.

Definition lasts {A} (n : nat) (Q : mstate W → A → mstate W → Prop) (m : M W A) : Prop :=
  ∀ s, (patience (world s) < n)%nat → ends m (Q s) s.

Definition whatever {A} (_ : mstate W) (_ : A) (_ : mstate W) : Prop := True.

Lemma push_evolves {R} (c : call R) r w e s :
  kernel_run c (world s) = (r, w) → birth (Event c r) = false → evolves s (push w e c r s).
Proof.
  intros E B. pose proof (patience_spent _ _ _ _ _ E). pose proof (clock_forward _ _ _ _ _ E).
  split_and!; simpl; try lia. exists [Event c r]. by repeat constructor.
Qed.

Lemma push_fewer {R} (c : call R) r w e s :
  kernel_run c (world s) = (r, w) → hold_ups c r = 1%nat → fewer s (push w e c r s).
Proof. intros E H. pose proof (patience_spent _ _ _ _ _ E). unfold fewer. simpl. lia. Qed.

Lemma ends_from {A} (m : M W A) (Q : A → mstate W → Prop) s s' :
  evolves s s' → ends m Q s' →
  wp m (λ o s'', match o with Done a => evolves s s'' ∧ Q a s'' | _ => False end) s'.
Proof.
  unfold ends. intros He H. eapply wp_mono; [exact H|]. intros [a|x|c|] s''; try done.
  intros [? ?]. split; [by etrans|done].
Qed.

Lemma ends_mono {A} (m : M W A) (Q Q' : A → mstate W → Prop) s :
  ends m Q s → (∀ a s', evolves s s' → Q a s' → Q' a s') → ends m Q' s.
Proof. unfold ends. intros H HQ. eapply wp_mono; [exact H|]. intros [a|x|c|] s'; try done. intros []; auto. Qed.

Lemma ends_bind {A B} (m : M W A) (k : A → M W B) Q s :
  ends m (λ a s', ends (k a) Q s') s → ends (m ≫= k) Q s.
Proof.
  unfold ends at 1 3. intros H. apply wp_bind. eapply wp_mono; [exact H|]. intros [a|x|c|] s'; try done.
  intros [He Hk]. by apply ends_from.
Qed.

Lemma ends_ret {A} (a : A) (Q : A → mstate W → Prop) s : Q a s → ends (mret a) Q s.
Proof. intros H. by apply wp_ret. Qed.

Lemma lasts_mono {A} n (Q Q' : mstate W → A → mstate W → Prop) m :
  lasts n Q m → (∀ s a s', evolves s s' → Q s a s' → Q' s a s') → lasts n Q' m.
Proof. intros H HQ s Hp. eapply ends_mono; [by apply H|]. eauto. Qed.

Lemma lasts_whatever {A} n Q (m : M W A) : lasts n Q m → lasts n whatever m.
Proof. intros H. eapply lasts_mono; [exact H|]. done. Qed.

Lemma lasts_ret {A} n (Q : mstate W → A → mstate W → Prop) a : (∀ s, Q s a s) → lasts n Q (mret a).
Proof. intros H s _. apply wp_ret. done. Qed.

Lemma lasts_bind {A B} n (Q1 : mstate W → A → mstate W → Prop) (Q2 : A → mstate W → B → mstate W → Prop)
    (Q : mstate W → B → mstate W → Prop) (m : M W A) (k : A → M W B) :
  lasts n Q1 m → (∀ a, lasts n (Q2 a) (k a)) →
  (∀ s a s1 b s2, evolves s s1 → evolves s1 s2 → Q1 s a s1 → Q2 a s1 b s2 → Q s b s2) →
  lasts n Q (m ≫= k).
Proof.
  intros Hm Hk HQ s Hp. apply ends_bind. eapply ends_mono; [by apply Hm|].
  intros a s1 He H1. cbn beta. eapply ends_mono; [apply Hk|].
  - unfold evolves in He. lia.
  - intros b s2 He2 H2. eauto.
Qed.

(** Sequencing when nothing is to be remembered. *)
Lemma lasts_then {A B} n (m : M W A) (k : A → M W B) :
  lasts n whatever m → (∀ a, lasts n whatever (k a)) → lasts n whatever (m ≫= k).
Proof. intros Hm Hk. by apply (lasts_bind n whatever (λ _, whatever) whatever). Qed.

(** Every call but [fork] keeps the process. *)
Definition ordinary {R} (c : call R) : Prop := ∀ r, birth (Event c r) = false.

Lemma lasts_issue {R} n (c : call R) : ordinary c → lasts n whatever (issue c).
Proof. intros B s _. apply wp_issue. intros r w E. split; [by apply push_evolves|done]. Qed.
Lemma lasts_attempt {A} n (c : call (res A)) : ordinary c → lasts n whatever (attempt c).
Proof. intros B s _. apply wp_attempt; intros a w E; (split; [by apply push_evolves|done]). Qed.
Lemma lasts_succeeds {A} n (c : call (res A)) : ordinary c → lasts n whatever (succeeds c).
Proof. intros B. apply lasts_then; [by apply lasts_attempt|]. intros. by apply lasts_ret. Qed.
Lemma lasts_descriptor n (c : call (res Z)) : ordinary c → lasts n whatever (descriptor c).
Proof. intros B. apply lasts_then; [by apply lasts_attempt|]. intros. by apply lasts_ret. Qed.
Lemma lasts_ignore {A} n (c : call (res A)) : ordinary c → lasts n whatever (ignore c).
Proof. intros B. apply lasts_then; [by apply lasts_attempt|]. intros. by apply lasts_ret. Qed.
Lemma lasts_get_errno n : lasts n whatever get_errno.
Proof. intros s _. by apply wp_get_errno. Qed.
Lemma lasts_set_errno n e : lasts n whatever (set_errno e).
Proof. intros s _. apply wp_set_errno. split; [apply errno_evolves|done]. Qed.
Lemma lasts_fd_reset n fd next : lasts n (λ _ r _, r = next) (fd_reset fd next).
Proof.
  unfold fd_reset. apply (lasts_bind n whatever (λ _ _ r _, r = next)); [|intros a; by apply lasts_ret|done].
  destruct (fd_bool fd); [by apply lasts_ignore|by apply lasts_ret].
Qed.

(** A loop that is entered again only after an answer that cost patience. *)
Lemma ends_again {A} n (Q : mstate W → A → mstate W → Prop) (m : M W A) s s' :
  lasts n Q m → (patience (world s) < S n)%nat → evolves s s' → fewer s s' → ends m (Q s') s'.
Proof. intros H Hp He Hf. apply H. unfold fewer in Hf. lia. Qed.

Lemma lasts_retry {A} n (c : call (res A)) :
  hold_ups c (Err EINTR) = 1%nat → ordinary c → lasts n whatever (retry_eintr n c).
Proof.
  intros Hc B. induction n as [|n IH]; intros s Hp; [lia|]. cbn [retry_eintr].
  apply ends_bind. apply wp_attempt; intros r w E.
  - split; [by apply push_evolves|]. by apply ends_ret.
  - split; [by apply push_evolves|]. apply ends_bind, wp_get_errno. split; [done|].
    simpl. destruct (Z.eqb_spec r EINTR) as [->|]; [|by apply ends_ret].
    eapply ends_mono; [eapply ends_again; [exact IH|exact Hp|by apply push_evolves|by apply push_fewer]|].
    done.
Qed.

(** ** Scans of /proc *)

Lemma scan_entries_ends d fuel found s :
  (unread (world s) d < fuel)%nat → ends (scan_entries fuel d found) (λ _ _, True) s.
Proof.
  revert found s. induction fuel as [|n IH]; intros found s Hd; [lia|]. cbn [scan_entries].
  apply ends_bind, wp_issue. intros r w E. split; [by apply push_evolves|].
  destruct r as [[name|]|e].
  - pose proof (entry_read _ _ _ _ E).
    destruct (negb (numeric_name name)); [apply IH; simpl; lia|].
    destruct (strtol_digits name) as [value overflow].
    apply ends_bind, wp_set_errno. split; [apply errno_evolves|].
    apply ends_bind, wp_get_errno. split; [done|]. case_match; apply IH; simpl; lia.
  - by apply ends_ret.
  - apply ends_bind, wp_set_errno. split; [apply errno_evolves|]. by apply ends_ret.
Qed.

Lemma lasts_process_ids n : lasts n whatever (process_ids scan).
Proof.
  intros s _. unfold process_ids. apply ends_bind, wp_attempt; intros r w E;
    (split; [by apply push_evolves|]); [|by apply wp_ret].
  pose proof (directory_bounded _ _ _ _ E).
  apply ends_bind, wp_set_errno. split; [apply errno_evolves|].
  apply ends_bind. eapply ends_mono; [apply scan_entries_ends; done|]. intros found s' _ _.
  assert (lasts (S (patience (world s'))) whatever (saved ← get_errno;
    closed ← succeeds (sys_closedir r); mret (if closed && (saved =? 0) then Some found else None))) as Hl.
  { apply lasts_then; [apply lasts_get_errno|]. intros e. apply lasts_then; [by apply lasts_succeeds|].
    intros []; by apply lasts_ret. }
  eapply ends_mono; [apply Hl; lia|]. done.
Qed.

End progress.

Create HintDb lasts.
#[export] Hint Extern 1 (ordinary _) => (intros ?; reflexivity) : lasts.
#[export] Hint Resolve lasts_issue lasts_attempt lasts_succeeds lasts_descriptor lasts_ignore
  lasts_get_errno lasts_set_errno lasts_retry lasts_process_ids : lasts.

(** Follow a program with no loop of its own. *)
Ltac lasts_step :=
  match goal with
  | |- lasts _ whatever (mret _) => apply lasts_ret; intros; exact I
  | |- lasts _ _ (mret _) => apply lasts_ret; intros
  | |- lasts _ _ (match ?x with _ => _ end) => destruct x eqn:?
  | |- lasts _ whatever _ => solve [auto with lasts]
  | |- lasts _ whatever (fd_reset _ _) => eapply lasts_whatever, lasts_fd_reset
  | |- lasts _ whatever (_ ≫= _) => apply lasts_then; [|intros]
  end.
Ltac lasts_auto := repeat lasts_step.
