(* ===== verification/Termination.v ===== *)
(** * The supervision loop ends

    Every iteration of the loop returns, and either reaches a milestone that is never
    given up (an observed exit, a step of cancellation or cleanup, the reaping, a
    closed pipe), or uses up patience of the kernel, or lets the clock come closer to
    the deadline of cleanup. The number of iterations is bounded by these, unless the
    kernel refuses to let the supervisor wait for the child: then the loop never ends. *)

From S2P Require Import Prelude Machine Linux Logic Posix Script Pkgexec Records ProcFs.
From S2P Require Import ProcessControl Support Yields Supervisor SupervisorFacts Progress.
Local Open Scope Z_scope.

(** What the loop never takes back. *)
Definition milestones (st : supervision) : list bool :=
  [child_exited st; cancellation_signal_attempted st; forced_signal_sent st; cleanup_started st;
   cleanup_complete st; child_reaped st; negb (fd_bool (out_read st));
   negb (fd_bool (err_read st)); negb (fd_bool (control_read st)); negb (fd_bool (ready_read st))].

Definition grows (st st' : supervision) : Prop :=
  Forall2 (λ a b : bool, a = true → b = true) (milestones st) (milestones st').

(** How many milestones are still ahead. *)
Definition ahead (l : list bool) : nat := length (filter (λ b, b = false) l).

(** The longest time a deadline is set into the future. *)
Definition longest_wait (ctx : supervision_context) : Z :=
  Z.max (milliseconds (grace_period ctx)) (milliseconds 1000).

Definition has_deadline (st : supervision) (d : Z) : Prop :=
  cancellation_deadline st = Some d ∨ cleanup_deadline st = Some d.

(** What every part of the body does by the time [now]. *)
Record steps (ctx : supervision_context) (now : Z) (st st' : supervision) : Prop := mk_steps {
  steps_grow : grows st st';
  steps_deadline :
    milestones st' = milestones st → cleanup_deadline st' = cleanup_deadline st;
  steps_timely : ∀ d, has_deadline st' d → has_deadline st d ∨ d ≤ now + longest_wait ctx
}.

(** The body of the loop in three phases. *)
Section phases.
Context {W : Type} `{K : Kernel W} (ctx : supervision_context).

Definition watch (st : supervision) : M W supervision :=
  st ← part_exit ctx st;
  st ← observe_cancellation ctx st;
  st ← part_gate ctx st;
  part_cancel ctx st.

Definition settle (now : Z) (st : supervision) : M W supervision :=
  st ← part_force ctx now st;
  st ← part_begin_cleanup ctx now st;
  st ← part_advance_cleanup ctx now st;
  part_reap ctx st.

Definition pipes (st : supervision) : M W supervision :=
  st ← part_streams ctx st;
  st ← part_control (loop_fuel ctx) st;
  part_ready (loop_fuel ctx) st.

Lemma supervision_step_phases st s :
  supervision_step ctx st s =
  (st ← watch st; now ← issue env_now; st ← settle now st; pipes st) s.
Proof.
  unfold supervision_step, watch, settle, pipes, mbind, M_bind.
  repeat (case_match; simplify_eq; try reflexivity).
Qed.
End phases.

(** ** Milestones *)

Lemma implied_trans l1 l2 l3 :
  Forall2 (λ a b : bool, a = true → b = true) l1 l2 →
  Forall2 (λ a b : bool, a = true → b = true) l2 l3 →
  Forall2 (λ a b : bool, a = true → b = true) l1 l3.
Proof. intros H. revert l3. induction H; intros l3; inversion 1; subst; constructor; auto. Qed.

Lemma implied_ahead l l' :
  Forall2 (λ a b : bool, a = true → b = true) l l' →
  l' = l ∨ (ahead l' < ahead l)%nat.
Proof.
  intros H. assert (l' = l ∧ (ahead l' ≤ ahead l)%nat ∨ (ahead l' < ahead l)%nat) as [[]|]; auto.
  unfold ahead. induction H as [|a b l l' Hab _ IH]; [by left|].
  destruct a, b; try (specialize (Hab eq_refl); done); rewrite !filter_cons; simpl;
    destruct IH as [[-> ?]|?]; [left|right|right|right|left|right]; try split; auto; lia.
Qed.

Lemma implied_antisym l l' :
  Forall2 (λ a b : bool, a = true → b = true) l l' →
  Forall2 (λ a b : bool, a = true → b = true) l' l → l' = l.
Proof.
  induction 1 as [|a b l l' Hab _ IH]; [done|]. intros H. inversion_clear H as [|? ? ? ? Hba Hl].
  f_equal; [|auto]. destruct a, b; auto; symmetry; auto.
Qed.

Lemma grows_trans st1 st2 st3 : grows st1 st2 → grows st2 st3 → grows st1 st3.
Proof. apply implied_trans. Qed.

(** Milestones that are the same in the end were the same in between. *)
Lemma milestones_between st1 st2 st3 :
  grows st1 st2 → grows st2 st3 → milestones st3 = milestones st1 → milestones st2 = milestones st1.
Proof. intros H1 H2 E. apply implied_antisym; [done|]. rewrite <- E. exact H2. Qed.

Section steps.
Context (ctx : supervision_context).

Lemma steps_refl now st : steps ctx now st st.
Proof. constructor; [|done|auto]. unfold grows. apply Forall_Forall2_diag, Forall_forall. auto. Qed.

Lemma steps_later now now' st st' : steps ctx now st st' → now ≤ now' → steps ctx now' st st'.
Proof. intros [] H. constructor; auto. intros d Hd. destruct (steps_timely0 d Hd); auto. right. lia. Qed.

Lemma steps_trans now st1 st2 st3 :
  steps ctx now st1 st2 → steps ctx now st2 st3 → steps ctx now st1 st3.
Proof.
  intros [G1 D1 T1] [G2 D2 T2]. constructor.
  - by eapply grows_trans.
  - intros E. pose proof (milestones_between _ _ _ G1 G2 E) as E1.
    rewrite D2 by congruence. by apply D1.
  - intros d Hd. destruct (T2 d Hd) as [H|]; [by apply T1|by right].
Qed.

End steps.

(** Settle a [steps] goal between two states that are given as assignments. *)
Ltac steps_auto :=
  constructor;
  [unfold grows, milestones; simpl; repeat (apply Forall2_cons_2 || apply Forall2_nil_2);
   intros; first [assumption|reflexivity|split_tests; congruence]
  |unfold milestones; simpl; intros; first [reflexivity|congruence]
  |unfold has_deadline; simpl; intros; intuition (simplify_eq; auto; try (right; unfold longest_wait, milliseconds; lia))].

Section parts.
Context {W : Type} `{K : Kernel W} (ctx : supervision_context).

#[local] Hint Resolve yields_fd_reset yields_cleanup_group yields_members_gone yields_drain_fd
  yields_exit_observed : yields.
#[local] Ltac part_auto :=
  repeat first [apply yields_after_reset | apply yields_after_signal; intros ? [] | yields_step];
  split_tests; try apply steps_refl.

Lemma steps_exit now st : yields (steps ctx now st) (part_exit (W := W) ctx st).
Proof. unfold part_exit. part_auto; steps_auto. Qed.
Lemma steps_observe now st : yields (steps ctx now st) (observe_cancellation (W := W) ctx st).
Proof. unfold observe_cancellation. part_auto; steps_auto. Qed.
Lemma steps_gate now st : yields (steps ctx now st) (part_gate (W := W) ctx st).
Proof.
  unfold part_gate, write_start. yields_step; [|apply yields_ret, steps_refl].
  eapply yields_bind; [apply steps_observe|]. intros st1 H1. part_auto; try done;
    (eapply steps_trans; [exact H1|]); try case_match; steps_auto.
Qed.
Lemma steps_force now st : yields (steps ctx now st) (part_force (W := W) ctx now st).
Proof. unfold part_force. part_auto; steps_auto. Qed.

Lemma steps_begin now st :
  yields (λ st', steps ctx now st st' ∧
    (child_exited st = true → controlled ctx = true → cleanup_started st' = true))
    (part_begin_cleanup (W := W) ctx now st).
Proof.
  unfold part_begin_cleanup.
  part_auto; (split; [try apply steps_refl; steps_auto|simpl; try done]).
  intros E1 E2. rewrite E1, E2 in *. by destruct (cleanup_started st).
Qed.

Lemma steps_advance now st :
  yields (λ st', steps ctx now st st' ∧
    (child_exited st = true → controlled ctx = true → cleanup_started st = true →
     cleanup_complete st' = true ∨ forced_signal_sent st' ≠ forced_signal_sent st ∨
     reached now (cleanup_deadline st) = false))
    (part_advance_cleanup (W := W) ctx now st).
Proof.
  unfold part_advance_cleanup. destruct (_ && _ && _ && _) eqn:G; split_tests.
  2:{ apply yields_ret. split; [apply steps_refl|]. intros E1 E2 E3. rewrite E1, E2, E3 in G.
      simpl in G. left. by apply negb_false_iff. }
  apply (yields_bind (λ st1, st1 = st ∨ st1 = set_cleanup_failed true st)).
  { destruct (forced_signal_sent st); part_auto; auto. }
  intros st1 Hst1. eapply yields_bind_any; [apply yields_members_gone|]. intros gone.
  destruct Hst1 as [-> | ->]; simpl; part_auto; simpl; (split; [try apply steps_refl; steps_auto|]);
    intros; auto; right; left; congruence.
Qed.

Lemma steps_reap now st :
  consistent ctx st →
  yields (λ st', steps ctx now st st' ∧
    (child_exited st = true → (controlled ctx = true → cleanup_complete st = true) →
     child_reaped st' = true)) (part_reap (W := W) ctx st).
Proof.
  intros H. pose proof (completion_after_start _ _ H) as Hc. unfold part_reap, reap_child.
  destruct (child_exited st) eqn:Ex; cbn [andb].
  2:{ apply (yields_bind (λ st1, st1 = st)); [by part_auto|]. intros ? ->. rewrite Ex.
      apply yields_ret. split; [apply steps_refl|done]. }
  destruct (controlled ctx) eqn:Et, (child_reaped st) eqn:Er; cbn [andb negb];
    [apply (yields_bind (λ st1, st1 = st)); [by part_auto|]
    |apply (yields_bind (λ st1, steps ctx now st st1 ∧ (cleanup_complete st = true → child_reaped st1 = true)))
    |apply (yields_bind (λ st1, st1 = st)); [by part_auto|]..].
  - intros ? ->. rewrite andb_false_r. apply yields_ret. split; [apply steps_refl|auto].
  - rewrite andb_true_r. part_auto; try done; (split; [try apply steps_refl; steps_auto|simpl; congruence]).
  - intros st1 [H1 H2]. rewrite andb_false_r. apply yields_ret. split; [exact H1|auto].
  - intros ? ->. rewrite Er, andb_false_r. apply yields_ret. split; [apply steps_refl|auto].
  - intros ? ->. rewrite Ex, Er. simpl. part_auto; [done|]. split; [|done].
    assert (cleanup_complete st = false) as En.
    { apply not_true_is_false. intros Hn. destruct (Hc Hn) as [_ Hf]. specialize (Hf eq_refl). congruence. }
    steps_auto.
Qed.

End parts.

(** ** Every part returns *)

Section endings.
Context {W : Type} `{K : Kernel W} (ctx : supervision_context) `{F : !Fair W (scan_fuel ctx)}.

Lemma lasts_yields {A} n (Q : mstate W → A → mstate W → Prop) (R : A → Prop) m :
  lasts n Q m → yields R m → lasts n (λ s a s', Q s a s' ∧ R a) m.
Proof.
  intros H HR s Hp. specialize (H s Hp). specialize (HR s). unfold ends, wp in *.
  by destruct (m s).1; intuition.
Qed.

Lemma lasts_process_group_of n p : lasts n whatever (process_group_of p).
Proof. unfold process_group_of. by lasts_auto. Qed.
#[local] Hint Resolve lasts_process_group_of : lasts.

Lemma lasts_signal_members n group leader signal okay processes :
  lasts n whatever (signal_members group leader signal okay processes).
Proof.
  revert okay. induction processes as [|p rest IH]; intros okay; simpl; lasts_auto; try done.
  unfold signal_member, open_pidfd, send_pidfd_signal. by lasts_auto.
Qed.
#[local] Hint Resolve lasts_signal_members : lasts.

Lemma lasts_signal_group n signal st :
  lasts n (λ _ r _, r.2 = st ∨ r.2 = set_cleanup_failed true st) (signal_group ctx signal st).
Proof.
  eapply lasts_mono; [apply (lasts_yields n whatever (λ r, r.2 = st ∨ r.2 = set_cleanup_failed true st))|].
  3: { intros s a s' _ [_ H]. exact H. }
  - unfold signal_group, signal_process_group_members, send_pidfd_signal. by lasts_auto.
  - unfold signal_group. eapply yields_bind_any; [apply yields_signal_process_group|].
    intros r. apply yields_ret. destruct (complete r); auto.
Qed.

Lemma lasts_find_member n group leader processes :
  lasts n whatever (find_member group leader processes).
Proof. induction processes as [|p rest IH]; simpl; by lasts_auto. Qed.

(** With no time to wait the group is looked for once. *)
Lemma lasts_members_gone n fuel :
  (0 < fuel)%nat →
  lasts n whatever (wait_process_group_members_gone fuel (scan_fuel ctx) (child ctx) (child ctx) 0).
Proof.
  intros Hf s Hp. destruct fuel as [|fuel]; [lia|]. unfold wait_process_group_members_gone.
  apply ends_bind, wp_issue. intros now w E. destruct (clock_read _ _ _ E) as [_ Hnow].
  split; [by apply push_evolves|]. change (milliseconds 0) with 0. cbn [wait_members_until].
  apply ends_bind. eapply ends_mono; [apply (lasts_process_ids (S (patience w))); simpl; lia|].
  intros [processes|] s1 He1 _; [|by apply ends_ret].
  apply ends_bind. eapply ends_mono; [apply (lasts_find_member (S (patience (world s1)))); lia|].
  intros [] s2 He2 _; simpl; [|by apply ends_ret].
  apply ends_bind, wp_issue. intros now' w' E'. destruct (clock_read _ _ _ E') as [Hnow' _].
  split; [by apply push_evolves|]. unfold evolves in *. simpl in *.
  rewrite (proj2 (Z.leb_le _ _)) by lia. by apply ends_ret.
Qed.

Lemma lasts_group_gone n group : lasts n whatever (group_gone group).
Proof. unfold group_gone. by lasts_auto. Qed.
#[local] Hint Resolve lasts_group_gone : lasts.
Lemma lasts_cleanup_group n group : lasts n whatever (cleanup_group group).
Proof.
  assert (∀ turns, lasts n whatever (wait_group_gone turns group)) as Hw.
  { intros turns. induction turns as [|turns IH]; simpl; by lasts_auto. }
  unfold cleanup_group. by lasts_auto.
Qed.

(** A part of the body that returns, with what it is known to yield. *)
Definition part_lasts (Q : mstate W → supervision → mstate W → Prop) (m : M W supervision) : Prop :=
  lasts (loop_fuel ctx) Q m.

Lemma lasts_exit st :
  part_lasts (λ s st' s', child_exited st' = true ∨ fewer s s' ∨ wait_failed) (part_exit ctx st).
Proof.
  unfold part_lasts, part_exit. destruct (child_exited st) eqn:Ex; [by apply lasts_ret; left|].
  eapply (lasts_bind _ (λ s r s', r.1 = true ∨ fewer s s' ∨ wait_failed)
            (λ r _ st' _, child_exited st' = r.1)).
  - generalize (loop_fuel ctx). intros n. induction n as [|n IH]; intros s Hp; [lia|].
    cbn [observe_child_exit]. apply ends_bind, wp_attempt; intros r w E;
      (split; [by apply push_evolves|]).
    + apply ends_ret. simpl. destruct (si_pid r =? 0) eqn:Ei; [right; left|by left].
      eapply push_fewer; [exact E|]. simpl. by rewrite Ei.
    + apply ends_bind, wp_get_errno. split; [done|]. simpl. destruct (Z.eqb_spec r EINTR) as [->|Hne].
      * assert (fewer s (push w EINTR (sys_waitid (if 0 <=? pidfd ctx then P_PIDFD else P_PID)
          (if 0 <=? pidfd ctx then pidfd ctx else child ctx)
          (Z.lor WEXITED (Z.lor WNOHANG WNOWAIT))) (Err EINTR) s)) as Hf by (by apply push_fewer).
        eapply ends_mono; [eapply ends_again; [exact IH|exact Hp|by apply push_evolves|done]|].
        intros a s' He _. right. left. by eapply fewer_evolves.
      * apply ends_ret. right. right. by eexists _, _, _, r, _, _.
  - intros [exited information]. by apply lasts_ret.
  - intros s [exited information] s1 st' s2 _ He [Hx|[Hf|Hn]] E; simpl in *; [left; congruence|right..].
    + left. by eapply fewer_evolves.
    + by right.
Qed.

Lemma lasts_observe n st : lasts n whatever (observe_cancellation ctx st).
Proof. unfold observe_cancellation. by lasts_auto. Qed.
#[local] Hint Resolve lasts_observe : lasts.

Lemma lasts_gate st : part_lasts whatever (part_gate ctx st).
Proof. unfold part_lasts, part_gate, write_start. by lasts_auto. Qed.

Lemma lasts_now n : lasts n (λ _ now s', now ≤ steady (world s')) (issue env_now).
Proof.
  intros s _. apply wp_issue. intros now w E. split; [by apply push_evolves|].
  simpl. apply (clock_read _ _ _ E).
Qed.

(** The deadline of the cancellation is counted from a reading of the clock. *)
Lemma lasts_cancel st :
  part_lasts (λ _ st' s', steps ctx (steady (world s')) st st') (part_cancel ctx st).
Proof.
  unfold part_lasts, part_cancel. destruct (_ || _ || _) eqn:G.
  { apply lasts_ret. intros. apply steps_refl. }
  eapply (lasts_bind _ _ (λ r _ st' s', r.2 = st ∨ r.2 = set_cleanup_failed true st →
    steps ctx (steady (world s')) st st')); [apply lasts_signal_group|..].
  - intros [result st1]. cbn [snd].
    apply (lasts_bind _ (λ _ now s', now ≤ steady (world s')) (λ now _ st' _, st' =
      set_cancellation_deadline (Some (now + milliseconds (grace_period ctx)))
        (set_cancellation_signal_delivered (leader_signaled result)
          (set_cancellation_signal_attempted true st1)))); [apply lasts_now|by intros; apply lasts_ret|].
    intros s now s1 st' s2 _ [_ He] Hn -> [-> | ->]; split_tests; steps_auto.
  - intros s r s1 st' s2 _ _ Hr H. by apply H.
Qed.

(** A call of [signal_group] whose only effect is the flag of incomplete signaling. *)
Lemma lasts_signal n signal st : lasts n whatever (signal_group ctx signal st).
Proof. eapply lasts_whatever, lasts_signal_group. Qed.
#[local] Hint Resolve lasts_signal : lasts.

Lemma lasts_force now st : part_lasts whatever (part_force ctx now st).
Proof. unfold part_lasts, part_force. by lasts_auto. Qed.
Lemma lasts_begin now st : part_lasts whatever (part_begin_cleanup ctx now st).
Proof. unfold part_lasts, part_begin_cleanup. by lasts_auto. Qed.
Lemma lasts_advance now st : part_lasts whatever (part_advance_cleanup ctx now st).
Proof.
  destruct (loop_fuel ctx) as [|fuel] eqn:Ef.
  { unfold part_lasts. rewrite Ef. intros s Hs. lia. }
  unfold part_lasts, part_advance_cleanup. lasts_auto; apply lasts_members_gone; lia.
Qed.
Lemma lasts_reap st : part_lasts whatever (part_reap ctx st).
Proof.
  unfold part_lasts, part_reap, reap_child. pose proof lasts_cleanup_group.
  by lasts_auto.
Qed.

(** ** Streams: an open one costs patience *)

Definition closed_or_fewer (fd : Z) (s s' : mstate W) : Prop := fd_bool fd = false ∨ fewer s s'.

Lemma ends_close (Q : Z → mstate W → Prop) fd s :
  (∀ s', evolves s s' → Q (-1) s') → ends (fd_reset fd (-1)) Q s.
Proof.
  intros H. eapply ends_mono; [apply (lasts_fd_reset (S (patience (world s)))); lia|].
  intros r s' He ->. by apply H.
Qed.

Lemma lasts_drain n fd output failed :
  lasts n (λ s r s', (r.1.1 = fd ∨ r.1.1 = -1) ∧ closed_or_fewer r.1.1 s s')
    (drain_fd n fd output failed).
Proof.
  revert output failed. induction n as [|n IH]; intros output failed s Hp; [lia|].
  cbn [drain_fd]. destruct (fd_bool fd) eqn:Hfd; cbn [negb]; [|by apply ends_ret; split; [left|left]].
  assert (∀ output' failed' s', evolves s s' → fewer s s' →
    ends (drain_fd n fd output' failed')
      (λ r s'', (r.1.1 = fd ∨ r.1.1 = -1) ∧ closed_or_fewer r.1.1 s s'') s') as Hgo.
  { intros output' failed' s' He Hf. eapply ends_mono; [eapply ends_again; [apply IH|exact Hp|done..]|].
    intros r s'' He' [Hr _]. split; [done|]. right. by eapply fewer_evolves. }
  assert (∀ output' failed' s', ends (fd ← fd_reset fd (-1); mret (fd, output', failed') : M W (Z * list Z * bool))
      (λ (r : Z * list Z * bool) s'', (r.1.1 = fd ∨ r.1.1 = -1) ∧ closed_or_fewer r.1.1 s s'') s')
    as Hclose.
  { intros output' failed' s'. apply ends_bind, ends_close. intros s'' _. apply ends_ret.
    split; [by right|by left]. }
  apply ends_bind, wp_attempt; intros r w E; (split; [by apply push_evolves|]).
  - destruct r as [|b bytes]; [apply Hclose|].
    apply Hgo; [by apply push_evolves|by apply push_fewer].
  - apply ends_bind, wp_get_errno. split; [done|]. simpl.
    assert (to_repeat r = true → fewer s (push w r (sys_read fd (16 * 1024)) (Err r) s)) as Hf.
    { intros Hr. eapply push_fewer; [exact E|]. simpl. by rewrite Hr. }
    unfold to_repeat in Hf. destruct (r =? EINTR).
    + apply Hgo; [by apply push_evolves|by apply Hf].
    + destruct (_ || _); [apply ends_ret; split; [by left|right; by apply Hf]|apply Hclose].
Qed.

Definition reading (f : supervision → Z) (st : supervision) (s : mstate W) (st' : supervision)
    (s' : mstate W) : Prop :=
  (∀ now, steps ctx now st st') ∧ closed_or_fewer (f st') s s'.

Lemma reading_later f st st1 s s1 st' s' :
  (∀ now, steps ctx now st st1) → evolves s s1 → reading f st1 s1 st' s' → reading f st s st' s'.
Proof.
  intros Hs He [H Hf]. split; [intros now; eapply steps_trans; auto|].
  destruct Hf as [|Hf]; [by left|right]. by eapply evolves_fewer.
Qed.

Lemma lasts_streams st :
  part_lasts (λ s st' s', (∀ now, steps ctx now st st') ∧ closed_or_fewer (out_read st') s s' ∧
    closed_or_fewer (err_read st') s s' ∧ steady (world s) < steady (world s')) (part_streams ctx st).
Proof.
  intros s Hp. unfold part_streams.
  apply ends_bind, wp_ignore. intros r w e E. split; [by apply push_evolves|].
  pose proof (poll_takes_time _ _ _ _ _ E) as Ht. pose proof (patience_spent _ _ _ _ _ E) as Hw.
  apply ends_bind. eapply ends_mono; [apply lasts_drain; simpl; lia|].
  intros [[fd1 b1] f1] s1 He1 [Hfd1 Hc1]. cbn [fst] in *.
  apply ends_bind. eapply ends_mono; [apply lasts_drain; unfold evolves in He1; simpl in *; lia|].
  intros [[fd2 b2] f2] s2 He2 [Hfd2 Hc2]. cbn [fst] in *. apply ends_ret.
  unfold evolves, closed_or_fewer, fewer in *. simpl in *. split_and!; try lia.
  - intros now. destruct Hfd1 as [-> | ->], Hfd2 as [-> | ->]; steps_auto.
  - destruct Hc1; [by left|right; lia].
  - destruct Hc2; [by left|right; lia].
Qed.

Lemma lasts_control n st : lasts n (reading control_read st) (part_control n st).
Proof.
  revert st. induction n as [|n IH]; intros st s Hp; [lia|].
  cbn [part_control]. destruct (fd_bool (control_read st)) eqn:Hfd; cbn [negb].
  2:{ apply ends_ret. split; [intros; apply steps_refl|by left]. }
  assert (∀ st1 s1, (∀ now, steps ctx now st st1) → evolves s s1 → fewer s s1 →
    ends (part_control n st1) (reading control_read st s) s1) as Hgo.
  { intros st1 s1 Hs He Hf. eapply ends_mono; [eapply ends_again; [apply IH|exact Hp|done..]|].
    intros st2 s2 He2 H. by eapply reading_later. }
  apply ends_bind, wp_attempt; intros r w E; (split; [by apply push_evolves|]).
  - destruct r as [|b bytes].
    + apply ends_bind, ends_close. intros s1 He1. apply ends_ret.
      split; [intros now; case_match; steps_auto|left; by case_match].
    + assert (∀ s1, evolves (push w (errno s) (sys_read (control_read st)
        (Z.of_nat (sizeof_control - length (control_bytes st)))) (Ok (b :: bytes)) s) s1 → fewer s s1) as Hf.
      { intros s1. apply fewer_evolves. by apply push_fewer. }
      case_match.
      * apply ends_bind, ends_close. intros s1 He1. apply Hgo; [|etrans; [|exact He1]; by apply push_evolves|by apply Hf].
        intros now. steps_auto.
      * apply Hgo; [|by apply push_evolves|by apply Hf]. intros now. steps_auto.
  - apply ends_bind, wp_get_errno. split; [done|]. simpl.
    assert (to_repeat r = true → fewer s (push w r (sys_read (control_read st)
      (Z.of_nat (sizeof_control - length (control_bytes st)))) (Err r) s)) as Hf.
    { intros Hr. eapply push_fewer; [exact E|]. simpl. by rewrite Hr. }
    unfold to_repeat in Hf. destruct (r =? EINTR).
    + apply Hgo; [intros; apply steps_refl|by apply push_evolves|by apply Hf].
    + destruct (_ || _).
      * apply ends_ret. split; [intros; apply steps_refl|right; by apply Hf].
      * apply ends_bind, ends_close. intros s1 He1. apply ends_ret. split; [intros; steps_auto|by left].
Qed.

Lemma lasts_ready n st : lasts n (reading ready_read st) (part_ready n st).
Proof.
  revert st. induction n as [|n IH]; intros st s Hp; [lia|].
  cbn [part_ready]. destruct (fd_bool (ready_read st)) eqn:Hfd; cbn [negb].
  2:{ apply ends_ret. split; [intros; apply steps_refl|by left]. }
  assert (∀ st1 s1, (∀ now, steps ctx now st st1) → evolves s s1 → fewer s s1 →
    ends (part_ready n st1) (reading ready_read st s) s1) as Hgo.
  { intros st1 s1 Hs He Hf. eapply ends_mono; [eapply ends_again; [apply IH|exact Hp|done..]|].
    intros st2 s2 He2 H. by eapply reading_later. }
  apply ends_bind, wp_attempt; intros r w E; (split; [by apply push_evolves|]).
  - destruct r as [|b bytes].
    + apply ends_bind, ends_close. intros s1 He1. apply ends_ret. split; [intros; steps_auto|by left].
    + apply Hgo; [|by apply push_evolves|by apply push_fewer]. intros now. case_match; steps_auto.
  - apply ends_bind, wp_get_errno. split; [done|]. simpl.
    assert (to_repeat r = true → fewer s (push w r (sys_read (ready_read st) 1) (Err r) s)) as Hf.
    { intros Hr. eapply push_fewer; [exact E|]. simpl. by rewrite Hr. }
    unfold to_repeat in Hf. destruct (r =? EINTR).
    + apply Hgo; [intros; apply steps_refl|by apply push_evolves|by apply Hf].
    + destruct (_ || _).
      * apply ends_ret. split; [intros; apply steps_refl|right; by apply Hf].
      * apply ends_bind, ends_close. intros s1 He1. apply ends_ret. split; [intros; steps_auto|by left].
Qed.

(** ** One iteration *)

Record linked (st : supervision) (s : mstate W) (st' : supervision) (s' : mstate W) : Prop :=
  mk_linked {
    linked_evolves : evolves s s';
    linked_consistent : consistent ctx st';
    linked_steps : steps ctx (steady (world s')) st st'
  }.

Lemma linked_trans st1 s1 st2 s2 st3 s3 :
  linked st1 s1 st2 s2 → linked st2 s2 st3 s3 → linked st1 s1 st3 s3.
Proof.
  intros [E1 _ S1] [E2 C2 S2]. constructor; [by etrans|done|].
  eapply steps_trans; [|done]. eapply steps_later; [done|]. apply E2.
Qed.

(** A part, from what is known of its end, its value and its variables. *)
Lemma ends_linked now Q (R : supervision → Prop) st m s :
  (patience (world s) < loop_fuel ctx)%nat → now ≤ steady (world s) →
  part_lasts Q m → yields (consistent ctx) m → yields (λ st', steps ctx now st st' ∧ R st') m →
  ends m (λ st' s', linked st s st' s' ∧ Q s st' s' ∧ R st') s.
Proof.
  intros Hp Hn HQ Hc Hy.
  eapply ends_mono; [apply (lasts_yields _ _ _ _ HQ (yields_and _ _ _ Hc Hy)); done|].
  intros st' s' He (H & Hc' & Hs & HR). split; [|done]. constructor; [done..|].
  eapply steps_later; [done|]. destruct He. lia.
Qed.

Lemma yields_plain {A} (R : A → Prop) (m : M W A) : yields R m → yields (λ a, R a ∧ True) m.
Proof. intros H. eapply yields_mono; [exact H|]. auto. Qed.

(** The exit of the child, the start gate and cancellation. *)
Lemma ends_watch st s :
  consistent ctx st → (patience (world s) < loop_fuel ctx)%nat →
  ends (watch ctx st)
    (λ st' s', linked st s st' s' ∧ (child_exited st' = true ∨ fewer s s' ∨ wait_failed)) s.
Proof.
  intros Hc Hp. unfold watch.
  assert (∀ s', evolves s s' → (patience (world s') < loop_fuel ctx)%nat) as Hp'.
  { intros s' []. lia. }
  apply ends_bind. eapply ends_mono.
  { eapply (ends_linked (steady (world s)) _ (λ _, True) st); [done|done|apply lasts_exit|by apply consistent_exit|].
    apply yields_plain, steps_exit. }
  intros st1 s1 _ (L1 & Hx & _). pose proof L1 as [E1 C1 _].
  apply ends_bind. eapply ends_mono.
  { eapply (ends_linked (steady (world s1)) _ (λ _, True) st1); [by apply Hp'|done|apply lasts_observe|..].
    - eapply yields_mono; [by apply consistent_observe|]. by intros ? [].
    - apply yields_plain, steps_observe. }
  intros st2 s2 _ (L2 & _ & _). pose proof (linked_trans _ _ _ _ _ _ L1 L2) as L12. pose proof L12 as [E2 C2 _].
  apply ends_bind. eapply ends_mono.
  { eapply (ends_linked (steady (world s2)) _ (λ _, True) st2); [by apply Hp'|done|apply lasts_gate|by apply consistent_gate|].
    apply yields_plain, steps_gate. }
  intros st3 s3 _ (L3 & _ & _). pose proof (linked_trans _ _ _ _ _ _ L12 L3) as L13. pose proof L13 as [E3 C3 _].
  eapply ends_mono.
  { apply (lasts_yields _ _ _ _ (lasts_cancel st3) (consistent_cancel ctx st3 C3)). by apply Hp'. }
  intros st4 s4 E4 [S4 C4]. assert (linked st3 s3 st4 s4) as L4 by done.
  split; [by eapply linked_trans|]. destruct Hx as [Hx|[Hf|Hn]]; [left|right; left|right; by right].
  - assert (grows st1 st4) as G.
    { eapply grows_trans; [apply L2|]. eapply grows_trans; [apply L3|apply L4]. }
    inversion_clear G as [|? ? ? ? Hg _]. by apply Hg.
  - eapply fewer_evolves; [exact Hf|]. etrans; [apply L2|]. etrans; [apply L3|exact E4].
Qed.

Record same_flags (st st' : supervision) : Prop := mk_same_flags {
  same_exited : child_exited st' = child_exited st;
  same_forced : forced_signal_sent st' = forced_signal_sent st;
  same_started : cleanup_started st' = cleanup_started st;
  same_complete : cleanup_complete st' = cleanup_complete st;
  same_reaped : child_reaped st' = child_reaped st;
  same_pipes : ∀ f, f ∈ [out_read; err_read; control_read; ready_read] →
    fd_bool (f st') = fd_bool (f st)
}.

Lemma milestones_same st st' : milestones st' = milestones st → same_flags st st'.
Proof.
  unfold milestones. intros [= E1 E2 E3 E4 E5 E6 E7 E8 E9 E10].
  assert (∀ a b, negb a = negb b → a = b) as Hn by (by intros [] []).
  constructor; try done. intros f. rewrite !elem_of_cons, elem_of_nil.
  intros [->|[->|[->|[->|[]]]]]; by apply Hn.
Qed.

(** Escalation, cleanup and reaping: when nothing new is reached after the exit of the
    child, the child is reaped or the deadline lies ahead. *)
Lemma ends_settle now st s :
  consistent ctx st → (patience (world s) < loop_fuel ctx)%nat → now ≤ steady (world s) →
  ends (settle ctx now st)
    (λ st' s', linked st s st' s' ∧
      (child_exited st = true → milestones st' = milestones st →
       child_reaped st' = true ∨ ∃ d, cleanup_deadline st' = Some d ∧ now < d)) s.
Proof.
  intros Hc Hp Hn. unfold settle. assert (∀ s', evolves s s' → (patience (world s') < loop_fuel ctx)%nat ∧
    now ≤ steady (world s')) as Hp'.
  { intros s' []. lia. }
  apply ends_bind. eapply ends_mono.
  { eapply (ends_linked now _ (λ _, True) st); [done|done|apply lasts_force|by apply consistent_force|].
    apply yields_plain, steps_force. }
  intros st1 s1 _ (L1 & _ & _). pose proof L1 as [E1 C1 _]. destruct (Hp' _ E1).
  apply ends_bind. eapply ends_mono.
  { eapply (ends_linked now _ _ st1); [done|done|apply lasts_begin|by apply consistent_begin|apply steps_begin]. }
  intros st2 s2 _ (L2 & _ & B2). pose proof (linked_trans _ _ _ _ _ _ L1 L2) as L12.
  pose proof L12 as [E2 C2 _]. destruct (Hp' _ E2).
  apply ends_bind. eapply ends_mono.
  { eapply (ends_linked now _ _ st2); [done|done|apply lasts_advance|by apply consistent_advance|apply steps_advance]. }
  intros st3 s3 _ (L3 & _ & B3). pose proof (linked_trans _ _ _ _ _ _ L12 L3) as L13.
  pose proof L13 as [E3 C3 _]. destruct (Hp' _ E3).
  eapply ends_mono.
  { eapply (ends_linked now _ _ st3); [done|done|apply lasts_reap|by apply consistent_reap|by apply steps_reap]. }
  intros st4 s4 _ (L4 & _ & B4). pose proof (linked_trans _ _ _ _ _ _ L13 L4) as L14.
  split; [done|]. intros Hx M4.
  pose proof (linked_trans _ _ _ _ _ _ L3 L4) as L24. pose proof (linked_trans _ _ _ _ _ _ L2 L24) as L234.
  assert (milestones st3 = milestones st) as M3 by (eapply milestones_between; [apply L13|apply L4|done]).
  assert (milestones st2 = milestones st) as M2 by (eapply milestones_between; [apply L12|apply L24|done]).
  assert (milestones st1 = milestones st) as M1 by (eapply milestones_between; [apply L1|apply L234|done]).
  assert (cleanup_deadline st4 = cleanup_deadline st2) as Hd.
  { apply (steps_deadline _ _ _ _ (linked_steps _ _ _ _ L24)). congruence. }
  pose proof (linked_consistent _ _ _ _ L14) as C4.
  apply milestones_same in M1 as [X1 _ _ _ _ _], M2 as [X2 F2 S2 _ _ _], M3 as [X3 F3 _ P3 _ _],
    M4 as [X4 _ S4 _ _ _].
  destruct (controlled ctx) eqn:Et; [|left; apply B4; congruence].
  assert (cleanup_started st2 = true) as Hs2 by (apply B2; congruence).
  destruct B3 as [Hcomp|[Hforced|Hreach]]; [congruence|done|done|left; apply B4; congruence|congruence|right].
  destruct (cleanup_deadline st2) as [d|] eqn:Ed.
  - exists d. split; [done|]. unfold reached in Hreach. lia.
  - destruct (cleanup_has_deadline _ _ C2); [by left|done].
Qed.

(** The pipes: an open one that stays open has cost patience, and the clock moves. *)
Lemma ends_pipes st s :
  consistent ctx st → (patience (world s) < loop_fuel ctx)%nat →
  ends (pipes ctx st)
    (λ st' s', linked st s st' s' ∧ steady (world s) < steady (world s') ∧
      (milestones st' = milestones st →
       ∀ f, f ∈ [out_read; err_read; control_read; ready_read] → closed_or_fewer (f st) s s')) s.
Proof.
  intros Hc Hp. unfold pipes.
  apply ends_bind. eapply ends_mono.
  { apply (lasts_yields _ _ _ _ (lasts_streams st) (consistent_streams ctx st Hc)). done. }
  intros st1 s1 E1 ((S1 & O1 & R1 & T1) & C1). assert (linked st s st1 s1) as L1 by done.
  apply ends_bind. eapply ends_mono.
  { apply (lasts_yields _ _ _ _ (lasts_control _ st1) (consistent_control ctx _ st1 C1)).
    unfold evolves in E1. lia. }
  intros st2 s2 E2 ((S2 & P2) & C2). assert (linked st1 s1 st2 s2) as L2 by done.
  eapply ends_mono.
  { apply (lasts_yields _ _ _ _ (lasts_ready _ st2) (consistent_ready ctx _ st2 C2)).
    unfold evolves in E1, E2. lia. }
  intros st3 s3 E3 ((S3 & P3) & C3). assert (linked st2 s2 st3 s3) as L3 by done.
  pose proof (linked_trans _ _ _ _ _ _ L1 L2) as L12. pose proof (linked_trans _ _ _ _ _ _ L2 L3) as L23.
  split; [by eapply linked_trans|]. split; [unfold evolves in *; lia|]. intros M3.
  assert (milestones st2 = milestones st) as M2 by (eapply milestones_between; [apply L12|apply L3|done]).
  assert (milestones st1 = milestones st) as M1 by (eapply milestones_between; [apply L1|apply L23|done]).
  apply milestones_same in M1 as [_ _ _ _ _ M1], M2 as [_ _ _ _ _ M2], M3 as [_ _ _ _ _ M3].
  unfold closed_or_fewer, fewer, evolves in *. intros f Hf. rewrite <- (M1 f Hf).
  rewrite !elem_of_cons, elem_of_nil in Hf. destruct Hf as [->|[->|[->|[->|[]]]]].
  - destruct O1; [by left|right; lia].
  - destruct R1; [by left|right; lia].
  - rewrite M1, <- M2 by (rewrite !elem_of_cons; auto). destruct P2; [by left|right; lia].
  - rewrite M1, <- M3 by (rewrite !elem_of_cons; auto). destruct P3; [by left|right; lia].
Qed.

(** What an iteration gains that reaches nothing new. *)
Definition gains (s : mstate W) (st' : supervision) (s' : mstate W) : Prop :=
  fewer s s' ∨
  steady (world s) < steady (world s') ∧
  ∃ d, cleanup_deadline st' = Some d ∧ steady (world s) < d.

Lemma unfinished st :
  finished st = false →
  child_reaped st = false ∨
  ∃ f, f ∈ [out_read; err_read; control_read; ready_read] ∧ fd_bool (f st) = true.
Proof.
  unfold finished. destruct (child_reaped st); [|by left].
  destruct (fd_bool (out_read st)) eqn:E1; [intros _; right; exists out_read; by split; [left|]|].
  destruct (fd_bool (err_read st)) eqn:E2; [intros _; right; exists err_read; by split; [right; left|]|].
  destruct (fd_bool (control_read st)) eqn:E3;
    [intros _; right; exists control_read; by split; [do 2 right; left|]|].
  destruct (fd_bool (ready_read st)) eqn:E4; [|done].
  intros _. right. exists ready_read. by split; [do 3 right; left|].
Qed.

Lemma ends_step st s :
  consistent ctx st → (patience (world s) < loop_fuel ctx)%nat → finished st = false →
  ends (supervision_step ctx st)
    (λ st' s', linked st s st' s' ∧
       (milestones st' = milestones st → gains s st' s' ∨ wait_failed)) s.
Proof.
  intros Hc Hp Hf. unfold ends, wp. rewrite supervision_step_phases. change (ends
    (st ← watch ctx st; now ← issue env_now; st ← settle ctx now st; pipes ctx st)
    (λ st' s', linked st s st' s' ∧
       (milestones st' = milestones st → gains s st' s' ∨ wait_failed)) s).
  apply ends_bind. eapply ends_mono; [by apply ends_watch|]. intros st1 s1 E1 [L1 Hx].
  pose proof L1 as [_ C1 _].
  apply ends_bind, wp_issue. intros now w En. destruct (clock_read _ _ _ En) as [Hn1 Hn2].
  split; [by apply push_evolves|]. set (s2 := push w (errno s1) env_now now s1).
  assert (evolves s1 s2) as E2 by (by apply push_evolves).
  assert (linked st1 s1 st1 s2) as L2 by (constructor; [done|done|apply steps_refl]).
  apply ends_bind. eapply ends_mono; [apply ends_settle; [done| |exact Hn2]|].
  { unfold evolves in *. lia. }
  intros st3 s3 E3 [L3 Hs]. pose proof L3 as [_ C3 _].
  eapply ends_mono; [apply ends_pipes; [done|]|].
  { unfold evolves in *. lia. }
  intros st4 s4 E4 (L4 & Ht & Hpipes).
  pose proof (linked_trans _ _ _ _ _ _ L1 L2) as L12. pose proof (linked_trans _ _ _ _ _ _ L12 L3) as L13.
  pose proof (linked_trans _ _ _ _ _ _ L3 L4) as L34.
  split; [by eapply linked_trans|]. intros M4.
  assert (milestones st3 = milestones st) as M3 by (eapply milestones_between; [apply L13|apply L4|done]).
  assert (milestones st1 = milestones st) as M1 by (eapply milestones_between; [apply L12|apply L34|done]).
  assert (cleanup_deadline st4 = cleanup_deadline st3) as Hd.
  { apply (steps_deadline _ _ _ _ (linked_steps _ _ _ _ L4)). congruence. }
  specialize (Hpipes ltac:(congruence)). pose proof (milestones_same _ _ M3) as [X3 _ _ _ R3 P3].
  pose proof (milestones_same _ _ M1) as [X1 _ _ _ _ _]. clear L1 L2 L12 L13 L34 L3 L4 C1 C3.
  unfold gains, fewer, closed_or_fewer, evolves in *.
  destruct Hx as [Hx|[Hx|Hx]]; [left|left; left; lia|by right].
  destruct (unfinished st Hf) as [Hr|(f & Hin & Hopen)].
  - destruct Hs as [Hs|(d & Hs & Hlt)]; [congruence|congruence|congruence|].
    right. split; [lia|]. exists d. rewrite Hd. split; [done|lia].
  - left. specialize (P3 f Hin). destruct (Hpipes f Hin) as [Hcl|Hcl]; [|unfold fewer in Hcl; lia].
    congruence.
Qed.

(** ** The loop *)

Definition remaining (st : supervision) (s : mstate W) : nat :=
  match cleanup_deadline st with Some d => Z.to_nat (d - steady (world s)) | None => 0 end.

(** What is left to do: milestones first, then patience and the time to the deadline;
    [patient] bounds the patience. *)
Definition left_to_do (patient : nat) (st : supervision) (s : mstate W) : nat :=
  (ahead (milestones st) * (patient + Z.to_nat (longest_wait ctx) + 1) +
   (patience (world s) + remaining st s))%nat.

Definition timely (st : supervision) (s : mstate W) : Prop :=
  ∀ d, has_deadline st d → d ≤ steady (world s) + longest_wait ctx.

Lemma timely_linked st s st' s' : timely st s → linked st s st' s' → timely st' s'.
Proof.
  intros H [[_ He] _ [_ _ Ht]] d Hd. destruct (Ht d Hd) as [Hd'|]; [|done].
  specialize (H d Hd'). lia.
Qed.

Lemma timely_remaining st s : timely st s → (remaining st s ≤ Z.to_nat (longest_wait ctx))%nat.
Proof.
  intros H. unfold remaining. destruct (cleanup_deadline st) as [d|] eqn:E; [|lia].
  specialize (H d (or_intror E)). lia.
Qed.

Lemma step_leaves_less patient st s st' s' :
  (patience (world s) ≤ patient)%nat → timely st s → linked st s st' s' →
  (milestones st' = milestones st → gains s st' s') →
  (left_to_do patient st' s' < left_to_do patient st s)%nat.
Proof.
  intros Hp Ht L Hg. pose proof (timely_remaining _ _ (timely_linked _ _ _ _ Ht L)) as Hr.
  destruct L as [[Ep Et] _ [G D _]]. unfold left_to_do.
  destruct (implied_ahead _ _ G) as [E|H]; [|nia].
  specialize (Hg E). specialize (D E). rewrite E. unfold remaining, gains, fewer in *. rewrite D.
  destruct Hg as [Hf|(Hs & d & Hd & Hlt)].
  - destruct (cleanup_deadline st); lia.
  - rewrite D in Hd. rewrite Hd. lia.
Qed.

Section waitable.
Context `{Wt : !Waitable W}.

Lemma supervise_ends patient turns st s :
  (patience (world s) ≤ patient < loop_fuel ctx)%nat → consistent ctx st → timely st s →
  (left_to_do patient st s ≤ turns)%nat →
  ends (supervise ctx turns st) (λ st' _, finished st' = true) s.
Proof.
  revert st s. induction turns as [|turns IH]; intros st s Hp Hc Ht Hl; simpl;
    destruct (finished st) eqn:Hf; try by apply ends_ret.
  all: pose proof (ends_step st s Hc ltac:(lia) Hf) as H; unfold ends, wp in H;
    destruct (supervision_step ctx st s) as [[st1|x|c|] s1] eqn:E; try done;
    cbn [fst snd] in H; destruct H as (He & L & Hg);
    assert (milestones st1 = milestones st → gains s st1 s1) as Hg'
      by (intros Hm; destruct (Hg Hm) as [|Hn]; [done|by apply waitable_works in Hn]);
    pose proof (step_leaves_less patient st s st1 s1 ltac:(lia) Ht L Hg').
  - lia.
  - apply ends_bind. unfold ends at 1, wp. rewrite E. split; [done|]. cbn [fst snd].
    apply IH; [|apply L|by eapply timely_linked|lia]. unfold evolves in He. lia.
Qed.

(** The loop from its start. *)
Lemma initial_ends out err control ready start s turns :
  (patience (world s) < loop_fuel ctx)%nat →
  (11 * (patience (world s) + Z.to_nat (longest_wait ctx) + 1) ≤ turns)%nat →
  ends (supervise ctx turns (initial_supervision out err control ready start))
    (λ st _, finished st = true) s.
Proof.
  intros Hp Ht. apply (supervise_ends (patience (world s))); [lia|apply consistent_initial|..].
  - intros d [Hd|Hd]; discriminate.
  - unfold left_to_do, remaining. change (cleanup_deadline (initial_supervision _ _ _ _ _)) with (@None Z).
    cbn beta iota.
    assert (∀ l, (ahead l ≤ length l)%nat) as Ha by (intros l; apply length_filter).
    pose proof (Ha (milestones (initial_supervision out err control ready start))) as H1.
    change (length (milestones _)) with 10%nat in H1.
    apply (Nat.mul_le_mono_r _ _ (patience (world s) + Z.to_nat (longest_wait ctx) + 1)) in H1. lia.
Qed.

End waitable.

(** ** A child that cannot be waited for *)

Section lost.
Hypothesis lost : ∀ kind id flags w, ∃ e w',
  kernel_run (sys_waitid kind id flags) w = (Err e, w') ∧ e ≠ EINTR.

Lemma never_observed fuel child pidfd :
  yields (λ r, r.1 = false) (observe_child_exit (W := W) fuel child pidfd).
Proof.
  destruct fuel as [|n]; [done|]. intros s. cbn [observe_child_exit].
  unfold attempt, issue, get_errno, mbind, M_bind.
  match goal with |- context [kernel_run (sys_waitid ?k ?i ?f) (world s)] =>
    destruct (lost k i f (world s)) as (e & w & E & Hne) end.
  rewrite E. simpl. by rewrite (proj2 (Z.eqb_neq _ _) Hne).
Qed.

Definition unseen (st : supervision) : Prop := child_exited st = false.

#[local] Hint Resolve yields_fd_reset yields_cleanup_group yields_members_gone yields_drain_fd : yields.
#[local] Ltac unseen_auto :=
  repeat first [apply yields_after_reset | apply yields_after_signal; intros ? [] | yields_step];
  try done; try (by case_match).

(** No part of the body but the first looks for the exit. *)
Lemma unseen_step st : unseen st → yields unseen (supervision_step (W := W) ctx st).
Proof.
  intros H. unfold supervision_step, unseen in *.
  apply (yields_bind unseen).
  { unfold part_exit. rewrite H. eapply yields_bind; [apply never_observed|].
    intros [exited information] Hx. by apply yields_ret. }
  clear st H. intros st H. apply (yields_bind unseen).
  { unfold observe_cancellation. unseen_auto. }
  clear st H. intros st H. apply (yields_bind unseen).
  { unfold part_gate, write_start. yields_step; [|by apply yields_ret].
    apply (yields_bind unseen); [unfold observe_cancellation; unseen_auto|]. intros st1 H1.
    unseen_auto. }
  clear st H. intros st H. apply (yields_bind unseen); [unfold part_cancel; unseen_auto|].
  clear st H. intros st H. eapply yields_bind_any; [apply yields_issue|]. intros now.
  apply (yields_bind unseen); [unfold part_force; unseen_auto|].
  clear st H. intros st H. apply (yields_bind unseen); [unfold part_begin_cleanup; unseen_auto|].
  clear st H. intros st H. apply (yields_bind unseen).
  { unfold part_advance_cleanup. rewrite H. by apply yields_ret. }
  clear st H. intros st H. apply (yields_bind unseen).
  { unfold part_reap. rewrite H. apply (yields_bind (λ st', st' = st)); [by apply yields_ret|].
    intros st' ->. rewrite H. by apply yields_ret. }
  clear st H. intros st H. apply (yields_bind unseen); [unfold part_streams; unseen_auto|].
  assert (∀ fuel st, unseen st → yields unseen (part_control (W := W) fuel st)) as Hcontrol.
  { intros fuel. induction fuel as [|n IH]; intros st' H'; simpl; unseen_auto; by apply IH. }
  assert (∀ fuel st, unseen st → yields unseen (part_ready (W := W) fuel st)) as Hready.
  { intros fuel. induction fuel as [|n IH]; intros st' H'; simpl; unseen_auto; apply IH; by try case_match. }
  clear st H. intros st H. apply (yields_bind unseen); [by apply Hcontrol|]. intros st1 H1. by apply Hready.
Qed.

Lemma supervise_lost turns st s :
  consistent ctx st → unseen st → (patience (world s) < loop_fuel ctx)%nat →
  ∃ s', supervise ctx turns st s = (OutOfFuel, s').
Proof.
  revert st s. induction turns as [|turns IH]; intros st s Hc Hu Hp; simpl.
  all: assert (finished st = false) as Hf by (unfold finished; destruct (child_reaped st) eqn:Er; [|done];
    destruct (reaped_after_cleanup _ _ Hc Er); unfold unseen in Hu; congruence); rewrite Hf.
  - by eexists.
  - pose proof (ends_step st s Hc Hp Hf) as H. pose proof (unseen_step st Hu s) as Hu'.
    unfold ends, wp in H. unfold mbind, M_bind.
    destruct (supervision_step ctx st s) as [[st1|x|c|] s1]; try done.
    cbn [fst snd] in *. destruct H as (He & L & _). apply IH; [apply L|done|].
    unfold evolves in He. lia.
Qed.
End lost.

End endings.

(** C8: When the supervision loop terminates, and when it does not. Under a kernel that is
    fair, that is, whose "again" and "not yet" answers (interruptions, empty or partial
    reads, a child that has not exited) are finitely many, whose steady clock never goes
    back and moves with every poll, and whose directories are finite: if the supervisor
    can wait for its child (the law [Waitable]: [waitid] is interrupted at most), every
    run of the loop returns a finished state, in a number of iterations bounded by the
    patience of the kernel and the longest deadline, whatever else the kernel answers,
    with or without a cancellation token, and however many members of the group survive.
    And that condition is needed: if [waitid] always fails otherwise, with ECHILD because
    SIGCHLD is ignored, the loop ends after no number of iterations, although the same
    kernel is fair. *)
Theorem supervise_terminates {W} `{Kernel W} (ctx : supervision_context)
    `{!Fair W (scan_fuel ctx)} out err control ready start (s : mstate W) turns :
  (patience (world s) < loop_fuel ctx)%nat →
  (Waitable W → (11 * (patience (world s) + Z.to_nat (longest_wait ctx) + 1) ≤ turns)%nat →
   ∃ st' s',
     supervise ctx turns (initial_supervision out err control ready start) s = (Done st', s') ∧
     finished st' = true) ∧
  ((∀ kind id flags w, ∃ e w', kernel_run (sys_waitid kind id flags) w = (Err e, w') ∧ e ≠ EINTR) →
   ∃ s', supervise ctx turns (initial_supervision out err control ready start) s = (OutOfFuel, s')).
Proof.
  intros Hp. split.
  - intros Wt Ht. pose proof (initial_ends ctx out err control ready start s turns Hp Ht) as H'.
    unfold ends, wp in H'. destruct (supervise _ _ _ _) as [[st'|x|c|] s']; try done.
    exists st', s'. by split; [|apply H'].
  - intros Hl. apply (supervise_lost ctx Hl); [apply consistent_initial|done|done].
Qed.

(** A fair kernel: its patience and its clock are its state. While patience lasts the
    child runs and pipes are empty; then the child has exited and they end. *)
Definition patient_run {R} (c : call R) (w : nat * Z) : R * (nat * Z) :=
  match c in call R return R * (nat * Z) with
  | sys_read _ _ =>
      match w.1 with O => (Ok [], w) | S n => (Err EAGAIN, (n, w.2)) end
  | sys_waitid _ _ _ =>
      match w.1 with O => (Ok (mk_siginfo 42 CLD_EXITED 0), w) | S n => (Ok (mk_siginfo 0 0 0), (n, w.2)) end
  | sys_waitpid pid => (Ok (pid, 0), w)
  | sys_poll _ _ => (Ok (0, []), (w.1, w.2 + 1))
  | sys_write _ bytes => (Ok (Z.of_nat (length bytes)), w)
  | env_now => (w.2, w)
  | c => (default_answer c, w)
  end.

#[export] Instance patient_kernel : Kernel (nat * Z) := {| kernel_run := @patient_run |}.

#[export] Instance patient_fair scan : Fair (nat * Z) scan.
Proof.
  refine {| patience := fst; steady := snd; unread := λ _ _, 0%nat |}; simpl.
  - intros R c r [n t] w' E. destruct c, n; simpl in E; injection E as <- <-; simpl;
      rewrite ?Z.ltb_irrefl, ?andb_false_r; lia.
  - intros R c r [n t] w' E. destruct c, n; simpl in E; injection E as <- <-; simpl; lia.
  - intros now [n t] w' [= <- <-]. simpl. lia.
  - intros fds timeout r [n t] w' [= <- <-]. simpl. lia.
  - discriminate.
  - discriminate.
  - discriminate.
  - discriminate.
Defined.

#[export] Instance patient_waitable : Waitable (nat * Z).
Proof. intros kind id flags e [[|n] t] w'; simpl; discriminate. Qed.

(** The same kernel for a supervisor that ignores SIGCHLD. *)
Definition childless_run {R} (c : call R) (w : nat * Z) : R * (nat * Z) :=
  match c in call R return R * (nat * Z) with
  | sys_waitid _ _ _ => (Err ECHILD, w)
  | c => patient_run c w
  end.
Definition childless_kernel : Kernel (nat * Z) := {| kernel_run := @childless_run |}.

#[export] Instance childless_fair scan : @Fair (nat * Z) childless_kernel scan.
Proof.
  refine (@Build_Fair _ childless_kernel scan fst snd (λ _ _, 0%nat) _ _ _ _ _ _ _ _); simpl.
  - intros R c r [n t] w' E. destruct c, n; simpl in E; injection E as <- <-; simpl;
      rewrite ?Z.ltb_irrefl, ?andb_false_r; lia.
  - intros R c r [n t] w' E. destruct c, n; simpl in E; injection E as <- <-; simpl; lia.
  - intros now [n t] w' [= <- <-]. simpl. lia.
  - intros fds timeout r [n t] w' [= <- <-]. simpl. lia.
  - discriminate.
  - discriminate.
  - discriminate.
  - discriminate.
Defined.

(** The loop ends for the first kernel, and for the second it never does. *)
Lemma supervise_terminates_witness :
  (∃ turns st s,
    supervise (mk_context 20 20 42 20 true 60000) turns (initial_supervision 3 4 5 6 7)
      (MState (5%nat, 0) 0 []) = (Done st, s) ∧ finished st = true) ∧
  ∀ turns, ∃ s,
    @supervise _ childless_kernel (mk_context 20 20 42 20 true 60000) turns
      (initial_supervision 3 4 5 6 7) (MState (5%nat, 0) 0 []) = (OutOfFuel, s).
Proof.
  split.
  - eexists. refine (proj1 (supervise_terminates (mk_context 20 20 42 20 true 60000) 3 4 5 6 7
      (MState (5%nat, 0) 0 []) _ _) patient_waitable _).
    + apply (bool_decide_unpack _). vm_compute. exact I.
    + apply le_n.
  - intros turns. refine (proj2 (@supervise_terminates _ childless_kernel
      (mk_context 20 20 42 20 true 60000) (childless_fair 20) 3 4 5 6 7 (MState (5%nat, 0) 0 []) turns _) _).
    + apply (bool_decide_unpack _). vm_compute. exact I.
    + intros kind id flags w. exists ECHILD, w. split; [reflexivity|discriminate].
Defined.
