(* ===== verification/Backend.v ===== *)
(** * The backends (src/backend.cpp, execute_backend and the two classes)

    A request on its way through a backend: what is refused before a process exists,
    the interpreter that is opened and compared with its binding, the pipes, [fork], the
    supervision of the child, and the result that is reported. Scopes whose owners
    change while they are alive hand their last values to the destructors ([scoped]). *)

From S2P Require Import Prelude Machine Linux Logic Posix Script Pkgexec Records Paths Support.
From S2P Require Import Interpreter Yields Ownership Admission Realization Capability Child.
From S2P Require Import ProcFs ProcessControl Supervisor.
Local Open Scope string_scope.
Local Open Scope list_scope.
Local Open Scope Z_scope.

(** ** Guarantees *)

Section guarantees.
Context `{P : Pkgexec}.

Definition without_guarantee (input : list execution_guarantee) (removed : execution_guarantee)
    : list execution_guarantee := filter (λ value, value ≠ removed) input.

(** [std::binary_search] in the sorted guarantees of a profile. *)
Definition guarantee_listed (values : list execution_guarantee) (key : execution_guarantee) : bool :=
  match values !! lower_bound (λ value, guarantee_ltb value key) (length values) values 0
                    (length values) with
  | Some value => negb (guarantee_ltb key value)
  | None => false
  end.

Definition unsupported_guarantees_diagnostic (profile : capability_profile)
    (request : execution_request) : string :=
  foldl (λ message guarantee,
    if negb (guarantee_listed (profile_guarantees profile) guarantee)
    then message +:+ " " +:+ guarantee_to_string guarantee else message)
    "Linux backend cannot establish required guarantees:" (required_guarantees request).

End guarantees.

(** ** The result of a finished supervision *)

Section classification.
Context `{Lc : Libc} `{P : Pkgexec}.

Definition failed_before_start (kind : execution_failure_kind) (diagnostic : string)
    : execution_result := result_failed_before_start kind [] diagnostic.
Definition cancelled_before_start (diagnostic : string) : execution_result :=
  result_cancelled_before_start [g_cancellation] diagnostic.

Definition capture_if (policy : stream_policy) (failed : bool) (material : list Z)
    : option (list Z) :=
  if bool_decide (policy = capture_complete) && negb failed then Some material else None.

Definition established_guarantees (required : list execution_guarantee)
    (capture_failed cleanup_verified : bool) : list execution_guarantee :=
  let established := required in
  let established :=
    if capture_failed
    then without_guarantee (without_guarantee established g_complete_stdout_capture)
           g_complete_stderr_capture
    else established in
  if negb cleanup_verified then without_guarantee established g_cleanup_verified else established.

(** The result of an execution that was confirmed. *)
Definition classify_started (request : execution_request) (used : interpreter_identity)
    (st : supervision) (cleanup_verified : bool) : execution_result :=
  let output := capture_if (standard_output (environment request)) (capture_failed st)
                  (output_material st) in
  let error_output := capture_if (standard_error (environment request)) (capture_failed st)
                        (error_material st) in
  let established := established_guarantees (required_guarantees request) (capture_failed st)
                       cleanup_verified in
  let termination := termination_from_siginfo (child_information st) in
  if capture_failed st then
    result_failed_after_start used termination output error_output established
      (if cleanup_verified then cleanup_outcome_verified else cleanup_outcome_failed)
      log_capture_failed "complete stream capture failed"
  else if negb cleanup_verified then
    result_failed_after_start used termination output error_output established
      cleanup_outcome_failed Pkgexec.cleanup_failed
      "process-group or mount cleanup could not be verified"
  else if cancellation_signal_delivered st then
    result_cancelled_after_start used output error_output established cleanup_outcome_verified
      (if forced_signal_sent st then "cancellation required forced process-group termination"
       else "cancellation completed during the graceful period")
  else if (si_code (child_information st) =? CLD_EXITED) &&
          (si_status (child_information st) =? 0) then
    result_succeeded used output error_output established
  else if si_code (child_information st) =? CLD_EXITED then
    result_failed_after_start used termination output error_output established
      cleanup_outcome_verified program_exited_nonzero ""
  else
    result_failed_after_start used termination output error_output established
      cleanup_outcome_verified program_terminated_by_signal "".

Definition scratch_note (mount_cleaned : bool) (diagnostic : string) : string :=
  if mount_cleaned then diagnostic
  else diagnostic +:+ "; parent isolation scratch cleanup failed".

(** Everything after the loop, once the scratch directory of the admission was removed or
    not ([mount_cleaned]). *)
Definition classify (request : execution_request) (used : interpreter_identity)
    (st : supervision) (mount_cleaned : bool) : execution_result :=
  let cleanup_verified := cleanup_complete st && negb (cleanup_failed st) && mount_cleaned in
  if negb (length (control_bytes st) =? 0)%nat then
    if (length (control_bytes st) =? sizeof_child_error)%nat then
      let failure := decode_child_error (control_bytes st) in
      failed_before_start (child_failure_kind failure)
        (scratch_note mount_cleaned (child_failure_diagnostic failure))
    else failed_before_start process_start_failed "truncated child setup failure record"
  else if cancellation_observed st && cancellation_before_start st then
    if negb cleanup_verified then
      failed_before_start isolation_setup_failed "pre-start cancellation cleanup could not be verified"
    else cancelled_before_start "cancellation was requested before the final program-start gate"
  else if negb (exec_confirmed st) then
    if cleanup_verified then
      failed_before_start process_start_failed
        "child terminated before descriptor execution was confirmed"
    else
      failed_before_start isolation_setup_failed
        "pre-start termination cleanup could not be verified"
  else classify_started request used st cleanup_verified.

End classification.

(** ** Execution *)

Section execution.
Context {W : Type} `{K : Kernel W} `{Lc : Libc} `{P : Pkgexec} `{Sp : !Supports}.

(** A scope whose body returns the last values of its owners; a body that throws leaves
    them as they were. *)
Definition scoped {A X} (body : M W (A * X)) (owners : X) (destroy : X → M W unit) : M W A := λ s,
  match body s with
  | (Done (a, last), s') => (destroy last;; mret a) s'
  | (Threw x, s') => (destroy owners;; throw x) s'
  | (Exited c, s') => (Exited c, s')
  | (OutOfFuel, s') => (OutOfFuel, s')
  end.

Definition tried {A} (m : M W A) : M W (exn + A) :=
  catch (a ← m; mret (inr a)) (λ x, mret (inl x)).

(** [cancellation && cancellation->cancellation_requested()]. *)
Definition cancellation_seen (token : bool) : M W bool :=
  if token then issue env_cancellation_requested else mret false.

(** The shape of the request and, for an isolated one, the admission of its resources. *)
Definition admit_request (fuel : nat) (isolated : bool) (request : execution_request)
    (resources : execution_resources) : M W (execution_result + option isolated_admission) :=
  catch
    (shape_error ← (if isolated then validate_isolated_request_shape request
                    else validate_host_request_shape request resources);
     if negb (bool_decide (shape_error = "")) then
       mret (inl (failed_before_start request_rejected shape_error))
     else if isolated then
       admission ← admit_isolated_resources fuel request resources;
       mret (inr (Some admission))
     else mret (inr None))
    (λ x, mret (inl (failed_before_start resource_admission_failed (what x)))).

(** The comparison of the opened interpreter with its binding: the objection, if any. *)
Definition check_interpreter (fuel : nat) (fd : Z) (configured : interpreter_binding)
    : M W (option string) :=
  catch
    (info ← attempt (sys_fstat fd);
     if negb (match info with Some i => S_ISREG (st_mode i) | None => false end) then
       mret (Some "interpreter descriptor is not a regular file")
     else
     observed ← digest_fd fuel fd;
     if negb (bool_decide (observed = content_digest configured)) then
       mret (Some "interpreter bytes changed after admission")
     else
     name ← interpreter_identity_of observed;
     if negb (bool_decide (name = identity configured)) then
       mret (Some "interpreter bytes changed after admission")
     else mret None)
    (λ x, mret (Some (what x))).

(** The five pipes; the ones made before an exception are returned with it. *)
Definition empty_pipe : pipe_pair := mk_pipe (-1) (-1).
Definition open_pipes : M W (option exn * pipes) :=
  let e := empty_pipe in
  r ← tried make_pipe;
  match r with inl x => mret (Some x, mk_pipes e e e e e) | inr standard_output =>
  r ← tried make_pipe;
  match r with inl x => mret (Some x, mk_pipes standard_output e e e e) | inr standard_error =>
  r ← tried make_pipe;
  match r with inl x => mret (Some x, mk_pipes standard_output standard_error e e e)
  | inr control =>
  r ← tried make_pipe;
  match r with inl x => mret (Some x, mk_pipes standard_output standard_error control e e)
  | inr ready =>
  r ← tried make_pipe;
  match r with inl x => mret (Some x, mk_pipes standard_output standard_error control ready e)
  | inr start =>
  let ps := mk_pipes standard_output standard_error control ready start in
  r ← tried (set_nonblocking (pipe_read standard_output);;
             set_nonblocking (pipe_read standard_error);;
             set_nonblocking (pipe_read control);;
             set_nonblocking (pipe_read ready));
  match r with inl x => mret (Some x, ps) | inr _ => mret (None, ps) end
  end end end end end.

(** The owners of the pipes in the order of their destructors. *)
Definition pipe_owners (p : pipe_pair) : list Z := [pipe_write p; pipe_read p].
Definition pipes_owners (ps : pipes) : list Z :=
  pipe_owners (start_pipe ps) ++ pipe_owners (ready_pipe ps) ++ pipe_owners (control_pipe ps) ++
  pipe_owners (standard_error_pipe ps) ++ pipe_owners (standard_output_pipe ps).

(** The owners after the loop: the pidfd, the write end of the start pipe and the read
    ends the loop left; the other ends were reset in the parent. *)
Definition owners_left (pidfd : Z) (st : supervision) : list Z :=
  [pidfd; start_write st; ready_read st; control_read st; err_read st; out_read st].

(** [!isolation || isolation->verify_parent_cleanup()]. *)
Definition clean_mounts (isolation : option isolated_admission)
    : M W (bool * option isolated_admission) :=
  match isolation with
  | None => mret (true, None)
  | Some admission =>
      r ← verify_parent_cleanup admission;
      let '(cleaned, admission) := (r : bool * isolated_admission) in
      mret (cleaned, Some admission)
  end.

(** ** The child and its supervisor *)

Definition make_configuration (request : execution_request) (directory : string)
    (isolation : option isolated_admission) (configured : interpreter_binding)
    (interpreter_fd : Z) : child_configuration :=
  let policy := environment request in
  mk_child_configuration (standard_input policy) (standard_output policy) (standard_error policy)
    (file_creation_mask policy) directory isolation (network policy) (limits request)
    interpreter_fd [executable configured; "-c"; program_material request; "pkgexec"]
    (make_environment policy).

(** The process in which [fork] returned 0. *)
Definition child_branch {A} (fuel : nat) (configuration : child_configuration) (ps : pipes)
    : M W A :=
  output_read ← fd_reset (pipe_read (standard_output_pipe ps)) (-1);
  error_read ← fd_reset (pipe_read (standard_error_pipe ps)) (-1);
  control_read ← fd_reset (pipe_read (control_pipe ps)) (-1);
  ready_read ← fd_reset (pipe_read (ready_pipe ps)) (-1);
  start_write ← fd_reset (pipe_write (start_pipe ps)) (-1);
  child_main fuel configuration
    (mk_pipes (mk_pipe output_read (pipe_write (standard_output_pipe ps)))
       (mk_pipe error_read (pipe_write (standard_error_pipe ps)))
       (mk_pipe control_read (pipe_write (control_pipe ps)))
       (mk_pipe ready_read (pipe_write (ready_pipe ps)))
       (mk_pipe (pipe_read (start_pipe ps)) start_write)).

(** A child without a pidfd is killed and reaped before it was allowed to start. *)
Definition abandon_child (fuel : nat) (isolation : option isolated_admission) (ps : pipes)
    (child : Z) : M W ((execution_result * option isolated_admission) * list Z) :=
  saved ← get_errno;
  fd_reset (pipe_write (start_pipe ps)) (-1);;
  ignore (sys_kill child SIGKILL);;
  retry_eintr fuel (sys_waitpid child);;
  r ← clean_mounts isolation;
  let '(mount_cleaned, isolation) := (r : bool * option isolated_admission) in
  mret (failed_before_start process_start_failed
          (scratch_note mount_cleaned (errno_message "pidfd_open" saved)), isolation,
        [pipe_read (ready_pipe ps); pipe_read (control_pipe ps);
         pipe_read (standard_error_pipe ps); pipe_read (standard_output_pipe ps)]).

(** The variables of the loop and what it is given. The grace period is that of the
    request, which a controlled request has. *)
Definition first_state (ps : pipes) : supervision :=
  initial_supervision (pipe_read (standard_output_pipe ps)) (pipe_read (standard_error_pipe ps))
    (pipe_read (control_pipe ps)) (pipe_read (ready_pipe ps)) (pipe_write (start_pipe ps)).
Definition loop_context (fuel scan : nat) (request : execution_request) (token : bool)
    (child pidfd : Z) : supervision_context :=
  mk_context fuel scan child pidfd token (default 0 (grace_period_milliseconds request)).

(** The process in which [fork] returned the child. *)
Definition parent_branch (fuel scan turns : nat) (request : execution_request) (token : bool)
    (isolation : option isolated_admission) (configured : interpreter_binding) (ps : pipes)
    (interpreter_fd child : Z) : M W ((execution_result * option isolated_admission) * list Z) :=
  fd_reset (pipe_write (standard_output_pipe ps)) (-1);;
  fd_reset (pipe_write (standard_error_pipe ps)) (-1);;
  fd_reset (pipe_write (control_pipe ps)) (-1);;
  fd_reset (pipe_write (ready_pipe ps)) (-1);;
  fd_reset (pipe_read (start_pipe ps)) (-1);;
  fd_reset interpreter_fd (-1);;
  pidfd ← (if token then open_pidfd child else mret (-1));
  if token && negb (fd_bool pidfd) then abandon_child fuel isolation ps child
  else
  st ← supervise (loop_context fuel scan request token child pidfd) turns (first_state ps);
  r ← clean_mounts isolation;
  let '(mount_cleaned, isolation) := (r : bool * option isolated_admission) in
  mret (classify request (identity configured) st mount_cleaned, isolation, owners_left pidfd st).

(** From the pipes on. *)
Definition start_execution (fuel scan turns : nat) (isolated : bool) (request : execution_request)
    (resources : execution_resources) (token : bool) (isolation : option isolated_admission)
    (configured : interpreter_binding) (interpreter_fd : Z)
    : M W ((execution_result * option isolated_admission) * list Z) :=
  r ← open_pipes;
  let '(failure, ps) := (r : option exn * pipes) in
  match failure with
  | Some x =>
      mret (failed_before_start process_start_failed (what x), isolation,
            pipes_owners ps ++ [interpreter_fd])
  | None =>
  match (if isolated then inr (mount_point (working request))
         else materialization resources (resource (working request))) with
  | inl x => fds_destroy (pipes_owners ps);; throw x
  | inr directory =>
  forked ← attempt sys_fork;
  match forked with
  | None =>
      e ← get_errno;
      mret (failed_before_start process_start_failed (errno_message "fork" e), isolation,
            pipes_owners ps ++ [interpreter_fd])
  | Some child =>
      if child =? 0 then
        child_branch fuel (make_configuration request directory isolation configured interpreter_fd) ps
      else parent_branch fuel scan turns request token isolation configured ps interpreter_fd child
  end end end.

(** From the opened interpreter on. *)
Definition execute_with_interpreter (fuel scan turns : nat) (isolated : bool)
    (request : execution_request) (resources : execution_resources) (token : bool)
    (isolation : option isolated_admission) (configured : interpreter_binding)
    (interpreter_fd : Z) : M W ((execution_result * option isolated_admission) * list Z) :=
  objection ← check_interpreter fuel interpreter_fd configured;
  match objection with
  | Some text =>
      mret (failed_before_start interpreter_unavailable text, isolation, [interpreter_fd])
  | None =>
      seen ← cancellation_seen token;
      if (seen : bool) then
        mret (cancelled_before_start "cancellation was requested before process creation",
              isolation, [interpreter_fd])
      else
        start_execution fuel scan turns isolated request resources token isolation configured
          interpreter_fd
  end.

(** From the admitted resources on. *)
Definition execute_admitted (fuel scan turns : nat) (interpreters : list interpreter_binding)
    (isolated : bool) (request : execution_request) (resources : execution_resources)
    (token : bool) (isolation : option isolated_admission)
    : M W (execution_result * option isolated_admission) :=
  seen ← cancellation_seen token;
  if (seen : bool) then
    mret (cancelled_before_start "cancellation was requested before interpreter admission", isolation)
  else
  match find_interpreter interpreters (interpreter request) with
  | None =>
      mret (failed_before_start interpreter_unavailable
              "no exact interpreter binding matches the request", isolation)
  | Some configured =>
      fd ← descriptor (sys_open (executable configured)
             (Z.lor O_RDONLY (Z.lor O_CLOEXEC (Z.lor O_NOFOLLOW O_NONBLOCK))));
      if negb (fd_bool fd) then
        e ← get_errno;
        mret (failed_before_start interpreter_unavailable (errno_message "open interpreter" e),
              isolation)
      else
        scoped
          (execute_with_interpreter fuel scan turns isolated request resources token isolation
             configured fd)
          [fd] fds_destroy
  end.

Definition isolation_destroy (isolation : option isolated_admission) : M W unit :=
  match isolation with Some admission => admission_destroy admission | None => mret tt end.

Definition execute_backend (fuel scan turns : nat) (report : capability_report)
    (interpreters : list interpreter_binding) (request : execution_request)
    (resources : execution_resources) (isolated token : bool) : M W execution_result :=
  if negb (profile_supports (profile report) request) then
    mret (failed_before_start backend_unsupported
            (unsupported_guarantees_diagnostic (profile report) request))
  else
  seen ← cancellation_seen token;
  if (seen : bool) then
    mret (cancelled_before_start "cancellation was requested before resource admission")
  else
  admitted ← admit_request fuel isolated request resources;
  match admitted with
  | inl result => mret result
  | inr isolation =>
      scoped
        (execute_admitted fuel scan turns interpreters isolated request resources token isolation)
        isolation isolation_destroy
  end.

(** ** The backend classes *)

Record backend : Type := mk_backend {
  backend_report : capability_report;
  backend_interpreters : list interpreter_binding
}.

Definition make_backend (interpreters : list interpreter_binding)
    (probe : M W capability_report) : M W backend :=
  match admit_interpreters interpreters with
  | inl e => throw (linux_error e)
  | inr sorted => report ← probe; mret (mk_backend report sorted)
  end.
Definition host_make (fuel scan : nat) (interpreters : list interpreter_binding) : M W backend :=
  make_backend interpreters (probe_host fuel scan).
Definition isolated_make (fuel scan : nat) (interpreters : list interpreter_binding) : M W backend :=
  make_backend interpreters (probe_isolated fuel scan).

Definition capabilities (b : backend) : capability_profile := profile (backend_report b).

(** [execute_uncontrolled] and [execute_controlled] of the two classes. *)
Definition host_execute (fuel scan turns : nat) (b : backend) (request : execution_request)
    (resources : execution_resources) (token : bool) : M W execution_result :=
  execute_backend fuel scan turns (backend_report b) (backend_interpreters b) request resources
    false token.
Definition isolated_execute (fuel scan turns : nat) (b : backend) (request : execution_request)
    (resources : execution_resources) (token : bool) : M W execution_result :=
  execute_backend fuel scan turns (backend_report b) (backend_interpreters b) request resources
    true token.

End execution.
