(* ===== verification/BeforeFork.v ===== *)
(** * What happens before a process exists

    Everything [execute_backend] does before [fork] is calm: it creates no process and
    writes to no descriptor. So a result that is decided there is about a program that
    cannot have started. And the comparison of the interpreter with its binding, the look
    at the token and the pipes, call by call with their answers. *)

From S2P Require Import Prelude Machine Linux Logic Posix Script Pkgexec Records Paths Support.
From S2P Require Import Interpreter Yields Admission Child Backend.
Local Open Scope string_scope.
Local Open Scope list_scope.
Local Open Scope Z_scope.

(** Neither a successful [fork] nor a write. *)
Definition calm (ev : event) : Prop :=
  match ev with
  | Event c r =>
      match c in call R return R → Prop with
      | sys_fork => λ r, match r with Ok _ => False | Err _ => True end
      | sys_write _ _ => λ _, False
      | _ => λ _, True
      end r
  end.

Section calm.
Context {W : Type} `{K : Kernel W} `{Lc : Libc} `{P : Pkgexec}.

Lemma emits_scoped {A X} (Q : event → Prop) (body : M W (A * X)) owners destroy :
  emits Q body → (∀ x, emits Q (destroy x)) → emits Q (scoped body owners destroy).
Proof.
  intros Hb Hd s. destruct (Hb s) as (evs & E & F). unfold scoped.
  destruct (body s) as [[[a last]|x|c|] s1]; simpl in *; try (by exists evs).
  1: destruct (emits_bind Q (destroy last) (λ _, mret a) (Hd last) (λ _, emits_ret Q a) s1) as (e2 & E2 & F2).
  2: destruct (emits_bind Q (destroy owners) (λ _, throw (A := A) x) (Hd owners) (λ _, emits_throw Q x) s1)
       as (e2 & E2 & F2).
  all: exists (e2 ++ evs); rewrite E2, E, app_assoc; (split; [done|]); by apply Forall_app.
Qed.

Lemma emits_tried {A} (Q : event → Prop) (m : M W A) : emits Q m → emits Q (tried m).
Proof.
  intros H. unfold tried. apply emits_catch; [|intros; apply emits_ret].
  apply emits_bind; [done|]. intros. apply emits_ret.
Qed.

Lemma calm_fail {A} code message : emits calm (fail (W := W) (A := A) code message).
Proof. apply emits_throw. Qed.
Lemma calm_fail_errno {A} code op : emits calm (fail_errno (W := W) (A := A) code op).
Proof. unfold fail_errno. apply emits_bind; [apply emits_get_errno|]. intros. apply calm_fail. Qed.
Lemma calm_fd_destroy fd : emits calm (fd_destroy (W := W) fd).
Proof. by apply emits_fd_destroy. Qed.
Lemma calm_fds_destroy fds : emits calm (fds_destroy (W := W) fds).
Proof. by apply emits_fds_destroy. Qed.
Lemma calm_with_fd {A} acquire (body : Z → M W A) :
  emits calm acquire → (∀ fd, emits calm (body fd)) → emits calm (with_fd acquire body).
Proof. intros. by apply emits_with_fd. Qed.
#[local] Hint Resolve calm_fail calm_fail_errno calm_fd_destroy calm_fds_destroy calm_with_fd : emits.
#[local] Ltac calm_auto := repeat first [apply calm_with_fd; [|intros] | emits_step]; try done.

(** ** Interpreter and cancellation *)

Lemma calm_update bytes : emits calm (update (W := W) bytes).
Proof. unfold update. calm_auto. Qed.
#[local] Hint Resolve calm_update : emits.
Lemma calm_digest_loop fuel fd offset : emits calm (digest_loop (W := W) fuel fd offset).
Proof. revert offset. induction fuel as [|n IH]; intros offset; cbn [digest_loop]; calm_auto; apply IH. Qed.
#[local] Hint Resolve calm_digest_loop : emits.
Lemma calm_check_interpreter fuel fd configured : emits calm (check_interpreter (W := W) fuel fd configured).
Proof.
  unfold check_interpreter, digest_fd, interpreter_identity_of, sha256_hex, digest_begin, digest_end. calm_auto.
Qed.
Lemma calm_cancellation_seen token : emits calm (cancellation_seen (W := W) token).
Proof. unfold cancellation_seen. calm_auto. Qed.

(** ** Validation and admission *)

Lemma calm_symlink current components : emits calm (symlink_component (W := W) current components).
Proof. revert current. induction components as [|c rest IH]; intros current; simpl; calm_auto; apply IH. Qed.
#[local] Hint Resolve calm_symlink : emits.
Lemma calm_validate_bindings resources bs : emits calm (validate_host_bindings (W := W) resources bs).
Proof.
  induction bs as [|b bs IH]; cbn [validate_host_bindings]; unfold path_has_symlink_component; calm_auto.
Qed.
#[local] Hint Resolve calm_validate_bindings : emits.
Lemma calm_foreign credentials : emits calm (foreign_credentials (W := W) credentials).
Proof. unfold foreign_credentials, current_groups. calm_auto. Qed.
#[local] Hint Resolve calm_foreign : emits.
Lemma calm_only_dots fuel d : emits calm (only_dots (W := W) fuel d).
Proof. induction fuel as [|n IH]; cbn [only_dots]; calm_auto. Qed.
#[local] Hint Resolve calm_only_dots : emits.
Lemma calm_admit_destination fuel root b spaces : emits calm (admit_destination (W := W) fuel root b spaces).
Proof. unfold admit_destination, directory_is_empty, open_beneath, identity_of, same_inode. calm_auto. Qed.
#[local] Hint Resolve calm_admit_destination : emits.
Lemma calm_admit_binding fuel resources root_path root st b :
  emits calm (admit_binding (W := W) fuel resources root_path root st b).
Proof.
  unfold admit_binding, admit_source, validate_role_access, check_logical, check_host, open_exact_path,
    identity_of, writable_by_current_credentials. calm_auto.
Qed.
#[local] Hint Resolve calm_admit_binding : emits.
Lemma calm_admit_bindings fuel resources root_path root st bs :
  emits calm (admit_bindings (W := W) fuel resources root_path root st bs).
Proof. revert st. induction bs as [|b bs IH]; intros st; cbn [admit_bindings]; calm_auto; apply IH. Qed.
#[local] Hint Resolve calm_admit_bindings : emits.
Lemma calm_admit_request fuel isolated request resources :
  emits calm (admit_request (W := W) fuel isolated request resources).
Proof.
  unfold admit_request, validate_host_request_shape, validate_isolated_request_shape,
    admit_isolated_resources, make_scratch, open_exact_path, identity_of. calm_auto.
Qed.
Lemma calm_verify_cleanup a : emits calm (verify_parent_cleanup (W := W) a).
Proof. unfold verify_parent_cleanup. calm_auto. Qed.
#[local] Hint Resolve calm_verify_cleanup : emits.
Lemma calm_isolation_destroy isolation : emits calm (isolation_destroy (W := W) isolation).
Proof. unfold isolation_destroy, admission_destroy, cleanup_best_effort. calm_auto. Qed.
Lemma calm_clean_mounts isolation : emits calm (clean_mounts (W := W) isolation).
Proof. unfold clean_mounts. calm_auto. Qed.

(** ** Pipes *)

Lemma calm_make_pipe : emits calm (make_pipe (W := W)).
Proof. unfold make_pipe. calm_auto. Qed.
Lemma calm_set_nonblocking fd : emits calm (set_nonblocking (W := W) fd).
Proof. unfold set_nonblocking. calm_auto. Qed.
#[local] Hint Resolve calm_make_pipe calm_set_nonblocking emits_tried : emits.
Lemma calm_open_pipes : emits calm (open_pipes (W := W)).
Proof. unfold open_pipes. calm_auto. Qed.

(** ** The calls of the last steps *)

(** [fd] shows a regular file; the digest of its content, read to its end, is the admitted
    one; and that digest has the admitted name. Oldest first. *)
Definition interpreter_compared (fd : Z) (configured : interpreter_binding) (evs : list event) : Prop :=
  ∃ info raw content raw' name,
    S_ISREG (st_mode info) = true ∧
    content_digested fd raw content ∧ content_digest configured = digest_of_hex (hex_bytes raw) ∧
    pieces_digested [bytes_of_string "pkgexec-linux/interpreter/v1"; [0];
                     bytes_of_string (digest_hex (content_digest configured))] raw' name ∧
    identity configured = identity_from_sha256 (hex_bytes raw') ∧
    evs = Event (sys_fstat fd) (Ok info) :: content ++ name.

Lemma check_run fuel fd configured (s s' : mstate W) :
  check_interpreter fuel fd configured s = (Done None, s') →
  ∃ evs, trace s' = reverse evs ++ trace s ∧ interpreter_compared fd configured evs.
Proof.
  unfold check_interpreter, catch. intros E.
  match type of E with (match ?m s with _ => _ end) = _ => destruct (m s) as [[o|x|c|] s1] eqn:R end;
    try discriminate E.
  injection E as -> ->. unfold mbind, M_bind, attempt, issue, mbind, M_bind in R.
  destruct (kernel_run (sys_fstat fd) (world s)) as [[info|e] w]; cbn -[digest_fd interpreter_identity_of] in R;
    [|discriminate R].
  destruct (S_ISREG (st_mode info)) eqn:Hreg; cbn [negb] in R; [|discriminate R].
  destruct (digest_fd fuel fd _) as [[d|x|c|] s2] eqn:E2; try discriminate R.
  destruct (bool_decide_reflect (d = content_digest configured)) as [->|]; cbn [negb] in R; [|discriminate R].
  destruct (interpreter_identity_of _ s2) as [[n|x|c|] s3] eqn:E3; try discriminate R.
  destruct (bool_decide_reflect (n = identity configured)) as [->|]; cbn [negb] in R; [|discriminate R].
  injection R as <-.
  apply digest_fd_run in E2 as (raw & content & Hc & Hd & E2).
  apply identity_of_run in E3 as (raw' & name & Hn & Hi & E3).
  eexists. split; [|by exists info, raw, content, raw', name].
  rewrite E3, E2. cbn [trace]. rewrite reverse_cons, reverse_app, <- !app_assoc. reflexivity.
Qed.

(** What was asked about cancellation, and answered. *)
Definition asked (token answer : bool) : list event :=
  if token then [Event env_cancellation_requested answer] else [].
Lemma seen_run token b (s s' : mstate W) :
  cancellation_seen token s = (Done b, s') →
  trace s' = asked token b ++ trace s ∧ (b = true → token = true).
Proof.
  unfold cancellation_seen, asked, issue. destruct token; [|by intros [= <- <-]].
  destruct (kernel_run _ _) as [r w]. by intros [= <- <-].
Qed.

(** The five pipes, with four of the read ends made nonblocking. Newest first. *)
Definition pipe_made (p : pipe_pair) : event :=
  Event (sys_pipe2 O_CLOEXEC) (Ok (pipe_read p, pipe_write p)).
Definition unblocked (fd : Z) (evs : list event) : Prop :=
  ∃ flags, evs = [Event (sys_fcntl_setfl fd (Z.lor flags O_NONBLOCK)) (Ok tt);
                  Event (sys_fcntl_getfl fd) (Ok flags)].
Definition pipes_opened (ps : pipes) (evs : list event) : Prop :=
  ∃ out err control ready,
    unblocked (pipe_read (standard_output_pipe ps)) out ∧
    unblocked (pipe_read (standard_error_pipe ps)) err ∧
    unblocked (pipe_read (control_pipe ps)) control ∧ unblocked (pipe_read (ready_pipe ps)) ready ∧
    evs = ready ++ control ++ err ++ out ++
          [pipe_made (start_pipe ps); pipe_made (ready_pipe ps); pipe_made (control_pipe ps);
           pipe_made (standard_error_pipe ps); pipe_made (standard_output_pipe ps)].

Lemma tried_run {A} (m : M W A) a (s s' : mstate W) : tried m s = (Done (inr a), s') → m s = (Done a, s').
Proof.
  unfold tried, catch, mbind, M_bind. destruct (m s) as [[b|x|c|] s1]; simpl; try done. by intros [= -> ->].
Qed.
Lemma make_pipe_run p (s s' : mstate W) :
  make_pipe s = (Done p, s') → trace s' = pipe_made p :: trace s.
Proof.
  unfold make_pipe, attempt, issue, mbind, M_bind.
  destruct (kernel_run _ _) as [[[r w]|e] w']; [|done]. by intros [= <- <-].
Qed.
Lemma set_nonblocking_run fd u (s s' : mstate W) :
  set_nonblocking fd s = (Done u, s') → ∃ evs, trace s' = evs ++ trace s ∧ unblocked fd evs.
Proof.
  unfold set_nonblocking, succeeds, attempt, issue, mbind, M_bind.
  destruct (kernel_run (sys_fcntl_getfl fd) _) as [[flags|e] w]; simpl; [|done].
  destruct (kernel_run _ w) as [[[]|e] w']; simpl; [|done]. intros [= <- <-].
  eexists [_; _]. split; [done|]. by exists flags.
Qed.

Lemma open_pipes_run ps (s s' : mstate W) :
  open_pipes s = (Done (None, ps), s') → ∃ evs, trace s' = evs ++ trace s ∧ pipes_opened ps evs.
Proof.
  unfold open_pipes. intros E. unfold mbind, M_bind in E.
  destruct (tried make_pipe s) as [[[x|out]|x|c|] s1] eqn:E1; try discriminate E.
  destruct (tried make_pipe s1) as [[[x|err]|x|c|] s2] eqn:E2; try discriminate E.
  destruct (tried make_pipe s2) as [[[x|control]|x|c|] s3] eqn:E3; try discriminate E.
  destruct (tried make_pipe s3) as [[[x|ready]|x|c|] s4] eqn:E4; try discriminate E.
  destruct (tried make_pipe s4) as [[[x|start]|x|c|] s5] eqn:E5; try discriminate E.
  match type of E with context [tried ?m s5] => destruct (tried m s5) as [[[x|[]]|x|c|] s6] eqn:E6 end;
    try discriminate E. injection E as <- <-. apply tried_run in E6.
  unfold mbind, M_bind in E6.
  destruct (set_nonblocking (pipe_read out) s5) as [[u1|x|c|] t1] eqn:F1; try discriminate E6.
  destruct (set_nonblocking (pipe_read err) t1) as [[u2|x|c|] t2] eqn:F2; try discriminate E6.
  destruct (set_nonblocking (pipe_read control) t2) as [[u3|x|c|] t3] eqn:F3; try discriminate E6.
  apply tried_run, make_pipe_run in E1, E2, E3, E4, E5.
  apply set_nonblocking_run in F1 as (a & F1 & H1), F2 as (b & F2 & H2), F3 as (c & F3 & H3),
    E6 as (d & F4 & H4).
  eexists. split; [|by exists a, b, c, d].
  rewrite F4, F3, F2, F1, E5, E4, E3, E2, E1, <- !app_assoc. reflexivity.
Qed.

(** ** What an admitted request goes on with *)

Lemma yields_any {A} (Q : A → Prop) (m : M W A) : yields Q m → yields (λ _, True) m.
Proof. intros H. eapply yields_mono; [exact H|]. done. Qed.
Lemma yields_catch {A} (Q : A → Prop) (m : M W A) h :
  yields Q m → (∀ x, yields Q (h x)) → yields Q (catch m h).
Proof.
  intros Hm Hh s. specialize (Hm s). unfold catch. destruct (m s) as [[a|x|c|] s']; try done. apply Hh.
Qed.
Lemma yields_scoped {A X} (Q : A → Prop) (body : M W (A * X)) owners destroy :
  yields (λ r, Q r.1) body → (∀ x, yields (λ _, True) (destroy x)) → yields Q (scoped body owners destroy).
Proof.
  intros Hb Hd s. specialize (Hb s). unfold scoped.
  destruct (body s) as [[[a last]|x|c|] s']; try done; unfold mbind, M_bind;
    [specialize (Hd last s')|specialize (Hd owners s')]; by destruct (destroy _ s') as [[]].
Qed.
Lemma yields_tried {A} (m : M W A) : yields (λ _, True) m → yields (λ _, True) (tried m).
Proof.
  intros H. apply yields_catch; [|intros; by apply yields_ret].
  eapply yields_bind_any; [done|]. intros. by apply yields_ret.
Qed.

Lemma returns_symlink current components :
  yields (λ _, True) (symlink_component (W := W) current components).
Proof. revert current. induction components; intros current; simpl; yields_auto; try done; by auto. Qed.
Lemma returns_validate resources bs : yields (λ _, True) (validate_host_bindings (W := W) resources bs).
Proof.
  induction bs as [|b bs IH]; cbn [validate_host_bindings]; unfold path_has_symlink_component;
    yields_auto; try done; by apply returns_symlink.
Qed.
#[local] Hint Resolve returns_validate : yields.

(** An isolated request goes on with a sound admission, a host request with none. *)
Definition admitted_for (isolated : bool) (request : execution_request)
    (resources : execution_resources) (isolation : option isolated_admission) : Prop :=
  if isolated then ∃ a, isolation = Some a ∧ admission_sound request resources a
  else isolation = None.

Lemma yields_admit fuel isolated request resources :
  yields (λ r, match r with inr isolation => admitted_for isolated request resources isolation
                          | inl _ => True end)
    (admit_request (W := W) fuel isolated request resources).
Proof.
  unfold admit_request. apply yields_catch; [|intros; by apply yields_ret].
  eapply yields_bind_any.
  { unfold validate_isolated_request_shape, validate_host_request_shape, foreign_credentials, current_groups.
    yields_auto; done. }
  intros text. destruct (negb _); [by apply yields_ret|].
  destruct isolated; [|by apply yields_ret].
  eapply yields_bind; [apply yields_admission|]. intros a Ha. apply yields_ret. by exists a.
Qed.

End calm.

#[export] Hint Resolve calm_fail calm_fail_errno calm_fd_destroy calm_fds_destroy calm_check_interpreter
  calm_cancellation_seen calm_admit_request calm_isolation_destroy calm_clean_mounts calm_open_pipes : emits.
