(* ===== verification/BackendOwnership.v ===== *)
(** * Descriptors of a whole execution

    The account of [Ownership] carried through [execute_backend]: the scans and signals
    of the loop, the loop, the pipes, the two processes after [fork], the admission, and
    the scopes around them. *)

From S2P Require Import Prelude Machine Linux Logic Posix Script Pkgexec Records Paths Support.
From S2P Require Import Interpreter Yields Ownership Admission Realization Capability Child.
From S2P Require Import ProcFs ProcessControl Supervisor SupervisorFacts Backend.
Local Open Scope string_scope.
Local Open Scope list_scope.
Local Open Scope Z_scope.

(** What the variables of the loop own. *)
Definition loop_held (st : supervision) : list resource_handle :=
  held (start_write st) ++ held (ready_read st) ++ held (control_read st) ++
  held (err_read st) ++ held (out_read st).

(** Compare two accounts of the loop's variables. *)
Ltac count :=
  intros; unfold loop_held;
  cbn [out_read err_read control_read ready_read start_write set_out_read set_err_read
       set_control_read set_ready_read set_start_write set_output_material set_error_material
       set_control_bytes set_capture_failed set_ready_seen set_start_released set_exec_confirmed
       set_cancellation_observed set_cancellation_before_start fst snd];
  rewrite ?occurrences_app, ?occurrences_nil; lia.

Section loop.
Context {W : Type} `{K : Kernel W} (ctx : supervision_context).

Lemma owns_process_group_of p pre thr : owns pre (λ _, pre) thr (process_group_of (W := W) p).
Proof. unfold process_group_of. owns_auto. Qed.
Lemma owns_scan_entries fuel d found pre thr :
  owns pre (λ _, pre) thr (scan_entries (W := W) fuel d found).
Proof.
  revert found. induction fuel as [|n IH]; intros found; simpl; owns_auto.
Qed.
Hint Resolve owns_process_group_of owns_scan_entries owns_closedir : owns.

Lemma owns_process_ids fuel pre thr : owns pre (λ _, pre) thr (process_ids (W := W) fuel).
Proof.
  unfold process_ids. eapply owns_bind; [apply owns_opendir|]. intros [d|]; [|by owns_step].
  eapply (owns_bind _ (λ _, Stream d :: pre)); [owns_auto|]. intros ?; cbn beta.
  eapply (owns_bind _ (λ _, Stream d :: pre)); [owns_auto|]. intros found; cbn beta.
  eapply (owns_bind _ (λ _, Stream d :: pre)); [owns_auto|]. intros saved; cbn beta.
  eapply owns_bind; [apply owns_closedir|]. intros closed. owns_auto.
Qed.
Hint Resolve owns_process_ids : owns.

Lemma owns_signal_member group signal p pre thr :
  owns pre (λ _, pre) thr (signal_member (W := W) group signal p).
Proof.
  unfold signal_member, open_pidfd, send_pidfd_signal.
  eapply (owns_bind _ (λ _, pre)); [owns_auto|]. intros observed; cbn beta. destruct (negb _); [owns_auto|].
  eapply owns_bind; [apply owns_descriptor; intros; split; reflexivity|]. intros pidfd.
  unfold held, fd_bool. destruct (pidfd <? 0) eqn:E.
  - rewrite (proj2 (Z.leb_gt 0 pidfd)) by lia. owns_auto.
  - rewrite (proj2 (Z.leb_le 0 pidfd)) by lia. cbn [app].
    eapply (owns_bind _ (λ _, Descriptor pidfd :: pre)); [owns_auto|]. intros confirmed; cbn beta.
    eapply (owns_bind _ (λ _, Descriptor pidfd :: pre)); [owns_auto|]. intros okay; cbn beta.
    eapply owns_bind; [apply owns_close|]. intros ?; cbn beta. owns_auto.
Qed.
Hint Resolve owns_signal_member : owns.
Lemma owns_signal_members group leader signal okay l pre thr :
  owns pre (λ _, pre) thr (signal_members (W := W) group leader signal okay l).
Proof. revert okay. induction l as [|p l IH]; intros okay; simpl; owns_auto. Qed.
Lemma owns_find_member group leader l pre thr :
  owns pre (λ _, pre) thr (find_member (W := W) group leader l).
Proof. induction l as [|p l IH]; simpl; owns_auto. Qed.
Hint Resolve owns_signal_members owns_find_member : owns.
Lemma owns_wait_members fuel scan group leader deadline pre thr :
  owns pre (λ _, pre) thr (wait_members_until (W := W) fuel scan group leader deadline).
Proof. induction fuel as [|n IH]; simpl; owns_auto. Qed.
Hint Resolve owns_wait_members : owns.
Lemma owns_members_gone fuel scan group leader timeout pre thr :
  owns pre (λ _, pre) thr (wait_process_group_members_gone (W := W) fuel scan group leader timeout).
Proof. unfold wait_process_group_members_gone. owns_auto. Qed.
Lemma owns_group_gone group pre thr : owns pre (λ _, pre) thr (group_gone (W := W) group).
Proof. unfold group_gone. owns_auto. Qed.
Hint Resolve owns_members_gone owns_group_gone : owns.
Lemma owns_cleanup_group group pre thr : owns pre (λ _, pre) thr (cleanup_group (W := W) group).
Proof.
  assert (∀ n pre thr, owns pre (λ _, pre) thr (wait_group_gone (W := W) n group)) as Hw.
  { intros n pre' thr'. induction n as [|n IH]; simpl; owns_auto. }
  unfold cleanup_group. owns_auto.
Qed.
Hint Resolve owns_cleanup_group : owns.

(** [m] keeps the account of the loop's variables in step with its descriptors. *)
Definition accounts (pre thr : list resource_handle) (st : supervision) (m : M W supervision) : Prop :=
  owns (loop_held st ++ pre) (λ st', loop_held st' ++ pre) thr m.

Lemma accounts_ret pre thr st0 st :
  (∀ x, occurrences x (loop_held st0) = occurrences x (loop_held st)) → accounts pre thr st0 (mret st).
Proof. intros H. apply owns_ret_eq. intros x. rewrite !occurrences_app, H. lia. Qed.

Lemma accounts_then pre thr st m (k : supervision → M W supervision) :
  accounts pre thr st m → (∀ st', accounts pre thr st' (k st')) → accounts pre thr st (m ≫= k).
Proof. intros Hm Hk. eapply owns_bind; [exact Hm|]. exact Hk. Qed.

Lemma accounts_neutral {A} pre thr st0 (m : M W A) (k : A → M W supervision) :
  (∀ pre thr, owns pre (λ _, pre) thr m) → (∀ a, accounts pre thr st0 (k a)) →
  accounts pre thr st0 (m ≫= k).
Proof. intros Hm Hk. eapply owns_bind; [apply Hm|]. done. Qed.

Lemma owns_exit_observed fuel c p pre thr :
  owns pre (λ _, pre) thr (observe_child_exit (W := W) fuel c p).
Proof. induction fuel as [|n IH]; simpl; owns_auto. Qed.

Lemma accounts_exit pre thr st : accounts pre thr st (part_exit ctx st).
Proof.
  unfold part_exit. destruct (child_exited st); [by apply accounts_ret|].
  apply accounts_neutral; [intros; apply owns_exit_observed|]. intros []. by apply accounts_ret.
Qed.

(** A reset of one of the variables. *)
Lemma accounts_reset pre thr st0 fd rest (k : Z → M W supervision) :
  (∀ x, occurrences x (loop_held st0) = occurrences x (held fd ++ rest)) →
  (∀ r, owns (held r ++ rest ++ pre) (λ st', loop_held st' ++ pre) thr (k r)) →
  accounts pre thr st0 (fd_reset fd (-1) ≫= k).
Proof.
  intros H Hk. eapply owns_bind; [apply (owns_reset _ (rest ++ pre))|exact Hk].
  intros x. rewrite app_assoc, !occurrences_app, H, occurrences_app. lia.
Qed.

Lemma accounts_observe pre thr st : accounts pre thr st (observe_cancellation ctx st).
Proof.
  unfold observe_cancellation. destruct (_ || _ || _); [by apply accounts_ret|].
  apply accounts_neutral; [intros; owns_auto|]. intros []; cbn [negb];
    [|by apply accounts_ret].
  destruct (cancellation_before_start _); [|by apply accounts_ret].
  apply (accounts_reset _ _ _ _ (held (ready_read st) ++ held (control_read st) ++
    held (err_read st) ++ held (out_read st))); [count|].
  intros r. apply owns_ret_eq. count.
Qed.

Lemma owns_write_start fuel fd pre thr :
  owns (held fd ++ pre) (λ _, pre) thr (write_start (W := W) fuel fd).
Proof.
  unfold write_start. eapply (owns_bind _ (λ _, held fd ++ pre)); [owns_auto|]. intros count; cbn beta.
  apply (owns_bind _ (λ _, pre)); [|intros ?; cbn beta; owns_auto].
  unfold fd_reset. apply (owns_bind _ (λ _, pre)); [|intros ?; cbn beta; owns_auto].
  unfold held. destruct (fd_bool fd); [apply owns_close|apply owns_ret].
Qed.

Lemma accounts_gate pre thr st : accounts pre thr st (part_gate ctx st).
Proof.
  unfold part_gate. destruct (_ && _ && _); [|by apply accounts_ret].
  eapply owns_bind; [apply accounts_observe|]. intros st1; cbn beta.
  destruct (cancellation_observed st1); [by apply accounts_ret|].
  eapply owns_bind.
  { eapply owns_eq; [apply (owns_write_start _ _ (held (ready_read st1) ++ held (control_read st1) ++
      held (err_read st1) ++ held (out_read st1) ++ pre) thr)|count|done|done]. }
  intros []; cbn beta; apply owns_ret_eq; count.
Qed.

Lemma owns_signal_group signal st pre thr :
  owns (loop_held st ++ pre) (λ r, loop_held r.2 ++ pre) thr (signal_group ctx signal st).
Proof.
  unfold signal_group, signal_process_group_members, send_pidfd_signal.
  eapply (owns_bind _ (λ _, loop_held st ++ pre)); [owns_auto|]. intros r; cbn beta.
  apply owns_ret_eq. intros x. by destruct (complete r).
Qed.

Lemma accounts_signal pre thr signal st0 st k :
  loop_held st0 = loop_held st → (∀ r, accounts pre thr r.2 (k r)) →
  accounts pre thr st0 (signal_group ctx signal st ≫= k).
Proof. intros E Hk. unfold accounts. rewrite E. eapply owns_bind; [apply owns_signal_group|]. exact Hk. Qed.

#[local] Ltac accounts_auto :=
  repeat first
    [by apply accounts_ret
    |apply accounts_signal; [reflexivity|intros [? ?]; cbn [snd]]
    |apply accounts_neutral; [intros; owns_auto; fail|intros ?]
    |match goal with |- accounts _ _ _ (match ?x with _ => _ end) => destruct x eqn:? end].

Lemma accounts_cancel pre thr st : accounts pre thr st (part_cancel ctx st).
Proof. unfold part_cancel. accounts_auto. Qed.
Lemma accounts_force now pre thr st : accounts pre thr st (part_force ctx now st).
Proof. unfold part_force. accounts_auto. Qed.
Lemma accounts_begin now pre thr st : accounts pre thr st (part_begin_cleanup ctx now st).
Proof.
  unfold part_begin_cleanup. accounts_auto.
Qed.
Lemma accounts_advance now pre thr st : accounts pre thr st (part_advance_cleanup ctx now st).
Proof.
  unfold part_advance_cleanup. destruct (_ && _ && _ && _); [|by apply accounts_ret].
  apply (accounts_then _ _ _ (if forced_signal_sent st
    then r ← signal_group ctx SIGKILL st; mret r.2 else mret st)); [accounts_auto|].
  intros st1; cbn beta. accounts_auto.
Qed.
Lemma accounts_reap pre thr st : accounts pre thr st (part_reap ctx st).
Proof.
  unfold part_reap, reap_child. apply accounts_then; [accounts_auto|].
  intros st1; cbn beta. accounts_auto.
Qed.

Lemma owns_drain fuel fd output failed pre thr :
  owns (held fd ++ pre) (λ r, held r.1.1 ++ pre) thr (drain_fd (W := W) fuel fd output failed).
Proof.
  revert output failed. induction fuel as [|n IH]; intros output failed; simpl;
    (destruct (fd_bool fd); cbn [negb]; [|by apply owns_ret_eq]); [owns_auto|].
  eapply (owns_bind _ (λ _, held fd ++ pre)); [owns_auto|]. intros [[|b bytes]|]; cbn beta.
  - eapply owns_bind; [by apply (owns_reset _ pre)|]. intros r. by apply owns_ret_eq.
  - apply IH.
  - eapply (owns_bind _ (λ _, held fd ++ pre)); [owns_auto|]. intros e; cbn beta.
    destruct (e =? EINTR); [apply IH|]. destruct (_ || _); [by apply owns_ret_eq|].
    eapply owns_bind; [by apply (owns_reset _ pre)|]. intros r. by apply owns_ret_eq.
Qed.

Lemma accounts_streams pre thr st : accounts pre thr st (part_streams ctx st).
Proof.
  unfold part_streams. apply accounts_neutral; [intros; owns_auto|]. intros _.
  eapply owns_bind.
  { eapply owns_eq; [apply (owns_drain _ (out_read st) _ _ (held (start_write st) ++
      held (ready_read st) ++ held (control_read st) ++ held (err_read st) ++ pre) thr)|count|done|done]. }
  intros [[fd1 b1] f1]. cbn [fst]. eapply owns_bind.
  { eapply owns_eq; [apply (owns_drain _ (err_read st) _ _ (held (start_write st) ++
      held (ready_read st) ++ held (control_read st) ++ held fd1 ++ pre) thr)|count|done|done]. }
  intros [[fd2 b2] f2]. cbn [fst]. apply owns_ret_eq. count.
Qed.

(** The two pipes that are read in a loop: a state with another descriptor in place. *)
Lemma accounts_with pre thr st0 held_now m :
  accounts pre thr st0 m → (∀ x, occurrences x held_now = occurrences x (loop_held st0 ++ pre)) →
  owns held_now (λ st', loop_held st' ++ pre) thr m.
Proof. intros H E. eapply owns_eq; [exact H|by symmetry|done|done]. Qed.

Lemma accounts_control fuel pre thr st : accounts pre thr st (part_control (W := W) fuel st).
Proof.
  revert st. induction fuel as [|n IH]; intros st; simpl;
    (destruct (fd_bool (control_read st)); cbn [negb]; [|by apply accounts_ret]);
    [apply owns_fuel|].
  set (rest := held (start_write st) ++ held (ready_read st) ++ held (err_read st) ++ held (out_read st)).
  assert (∀ k, (∀ r, owns (held r ++ rest ++ pre) (λ st', loop_held st' ++ pre) thr (k r)) →
    accounts pre thr st (fd_reset (control_read st) (-1) ≫= k)) as Hclose.
  { intros k. apply accounts_reset. unfold rest. count. }
  apply accounts_neutral; [intros; owns_auto|]. intros [[|b bytes]|].
  - apply Hclose. intros r. apply owns_ret_eq. unfold rest. destruct (_ && _); count.
  - destruct (length _ =? _)%nat; [|exact (IH (set_control_bytes _ st))]. apply Hclose. intros r.
    eapply accounts_with; [apply IH|]. unfold rest. count.
  - apply accounts_neutral; [intros; owns_auto|]. intros e. destruct (e =? EINTR); [apply IH|].
    destruct (_ || _); [by apply accounts_ret|]. apply Hclose. intros r.
    apply owns_ret_eq. unfold rest. count.
Qed.

Lemma accounts_ready fuel pre thr st : accounts pre thr st (part_ready (W := W) fuel st).
Proof.
  revert st. induction fuel as [|n IH]; intros st; simpl;
    (destruct (fd_bool (ready_read st)); cbn [negb]; [|by apply accounts_ret]);
    [apply owns_fuel|].
  assert (accounts pre thr st (fd ← fd_reset (ready_read st) (-1); mret (set_ready_read fd st))) as Hclose.
  { apply (accounts_reset _ _ _ _ (held (start_write st) ++ held (control_read st) ++
      held (err_read st) ++ held (out_read st))); [count|]. intros r. apply owns_ret_eq. count. }
  apply accounts_neutral; [intros; owns_auto|]. intros [[|b bytes]|]; [exact Hclose| |].
  - eapply accounts_with; [apply IH|]. destruct (b =? 1); count.
  - apply accounts_neutral; [intros; owns_auto|]. intros e. destruct (e =? EINTR); [apply IH|].
    destruct (_ || _); [by apply accounts_ret|exact Hclose].
Qed.

Lemma accounts_step pre thr st : accounts pre thr st (supervision_step ctx st).
Proof.
  unfold supervision_step. apply accounts_then; [apply accounts_exit|]. intros st1.
  apply accounts_then; [apply accounts_observe|]. intros st2.
  apply accounts_then; [apply accounts_gate|]. intros st3.
  apply accounts_then; [apply accounts_cancel|]. intros st4.
  apply accounts_neutral; [intros; owns_auto|]. intros now.
  apply accounts_then; [apply accounts_force|]. intros st5.
  apply accounts_then; [apply accounts_begin|]. intros st6.
  apply accounts_then; [apply accounts_advance|]. intros st7.
  apply accounts_then; [apply accounts_reap|]. intros st8.
  apply accounts_then; [apply accounts_streams|]. intros st9.
  apply accounts_then; [apply accounts_control|]. intros st10. apply accounts_ready.
Qed.

Lemma accounts_supervise turns pre thr st : accounts pre thr st (supervise ctx turns st).
Proof.
  revert st. induction turns as [|n IH]; intros st; simpl;
    (destruct (finished st); [by apply accounts_ret|]); [apply owns_fuel|].
  apply accounts_then; [apply accounts_step|]. exact IH.
Qed.

End loop.

(** ** The two processes *)

Section processes.
Context {W : Type} `{K : Kernel W} `{Lc : Libc} `{P : Pkgexec} `{Sp : !Supports}.

Lemma quits_give_up {A} fuel fd stage value detail : quits (@give_up_child W K A fuel fd stage value detail).
Proof. apply quits_bind; [auto with noexcept|]. intros. apply quits_exit. Qed.
Lemma quits_give_up_errno {A} fuel fd stage : quits (@give_up_errno W K A fuel fd stage).
Proof. apply quits_bind; [auto with noexcept|]. intros. apply quits_give_up. Qed.
Lemma quits_execute {A} fuel cfg fd : quits (@execute_interpreter W K A fuel cfg fd).
Proof.
  apply quits_bind; [auto with noexcept|]. intros _.
  apply quits_bind; [auto with noexcept|]. intros [|]; [apply quits_exit|].
  apply quits_bind; [auto with noexcept|]. intros e.
  apply quits_bind; [auto with noexcept|]. intros. apply quits_exit.
Qed.
Lemma quits_confine {A} fuel cfg ps : quits (@confine_child W K A fuel cfg ps).
Proof.
  apply quits_bind; [auto with noexcept|]. intros _.
  apply quits_bind; [auto with noexcept|]. intros []; [|apply quits_give_up_errno].
  apply quits_bind; [destruct (isolation cfg); auto with noexcept|].
  intros []; [|apply quits_give_up_errno].
  apply quits_bind; [auto with noexcept|]. intros [f|_]; [apply quits_give_up|].
  apply quits_bind; [auto with noexcept|]. intros []; [|apply quits_give_up_errno].
  apply quits_bind; [auto with noexcept|]. intros []; [|apply quits_exit].
  apply quits_bind; [auto with noexcept|]. intros []; [|apply quits_exit]. apply quits_execute.
Qed.

(** The child never gets back into the code of its parent: it does not return from its
    branch, and no exception leaves it. *)
Lemma quits_child_branch {A} fuel cfg ps : quits (@child_branch W K A fuel cfg ps).
Proof.
  unfold child_branch. do 5 (apply quits_bind; [auto with noexcept|]; intros ?).
  unfold child_main. apply quits_bind; [auto with noexcept|].
  intros [?|]; [|apply quits_give_up_errno].
  apply quits_bind; [auto with noexcept|]. intros [?|_]; [apply quits_give_up|].
  apply quits_bind; [auto with noexcept|]. intros okay.
  apply quits_bind; [destruct okay; auto with noexcept|].
  intros []; [|apply quits_give_up_errno].
  apply quits_bind; [auto with noexcept|]. intros [?|_]; [apply quits_give_up|].
  apply quits_confine.
Qed.

(** What an isolated execution owns for its resources. *)
Definition isolation_held (isolation : option isolated_admission) : list resource_handle :=
  match isolation with
  | Some a => held (root_source a) ++ held_all (source <$> admitted_bindings a)
  | None => []
  end.

Lemma owns_verify_parent_cleanup a pre thr :
  owns (isolation_held (Some a) ++ pre) (λ r, isolation_held (Some r.2) ++ pre) thr
    (verify_parent_cleanup (W := W) a).
Proof.
  unfold verify_parent_cleanup. destruct (cleanup_attempted a); [by apply owns_ret_eq|].
  case_bool_decide; [by apply owns_ret_eq|].
  do 4 (eapply (owns_bind _ (λ _, isolation_held (Some a) ++ pre)); [owns_auto|]; intros ?; cbn beta).
  by apply owns_ret_eq.
Qed.
Lemma owns_clean_mounts isolation pre thr :
  owns (isolation_held isolation ++ pre) (λ r, isolation_held r.2 ++ pre) thr
    (clean_mounts (W := W) isolation).
Proof.
  unfold clean_mounts. destruct isolation as [a|]; [|by apply owns_ret_eq].
  eapply owns_bind; [apply owns_verify_parent_cleanup|]. intros [cleaned a']. by apply owns_ret_eq.
Qed.

(** A reset whose result nobody looks at. *)
Lemma owns_discard fd rest pre thr :
  (∀ x, occurrences x pre = occurrences x (held fd ++ rest)) →
  owns pre (λ _, rest) thr (fd_reset (W := W) fd (-1)).
Proof.
  intros E. apply (owns_eq (held fd ++ rest) _ (λ _, rest) _ thr); [|by symmetry|done..].
  unfold fd_reset. apply (owns_bind _ (λ _, rest)); [|intros; apply owns_ret].
  unfold held. destruct (fd_bool fd); [apply owns_close|apply owns_ret].
Qed.

Lemma owns_discard_then {A} fd rest pre (post : A → _) thr (k : M W A) :
  (∀ x, occurrences x pre = occurrences x (held fd ++ rest)) → owns rest post thr k →
  owns pre post thr (fd_reset (W := W) fd (-1);; k).
Proof. intros E Hk. eapply owns_bind; [by apply owns_discard|]. intros ?; cbn beta. exact Hk. Qed.

End processes.

(** Compare two accounts of pipes. *)
Ltac count_pipes :=
  intros; unfold held_all, pipes_owners, pipe_owners, owners_left, loop_held, first_state,
    initial_supervision, empty_pipe;
  cbn [fmap list_fmap concat app pipe_read pipe_write standard_output_pipe standard_error_pipe
       control_pipe ready_pipe start_pipe out_read err_read control_read ready_read start_write fst snd];
  change (held (-1)) with (@nil resource_handle);
  rewrite ?occurrences_app, ?occurrences_nil; lia.

Section execution.
Context {W : Type} `{K : Kernel W} `{Lc : Libc} `{P : Pkgexec} `{Sp : !Supports}.
Variables (fuel scan turns : nat) (interpreters : list interpreter_binding).
Variables (request : execution_request) (resources : execution_resources) (isolated token : bool).

(** What a part hands on with its result: the owners of its scope and the admission. *)
Definition handed_on (r : (execution_result * option isolated_admission) * list Z)
    : list resource_handle := held_all r.2 ++ isolation_held r.1.2.

Lemma owns_abandon isolation ps child thr :
  owns (held_all [pipe_write (start_pipe ps); pipe_read (ready_pipe ps); pipe_read (control_pipe ps);
          pipe_read (standard_error_pipe ps); pipe_read (standard_output_pipe ps)] ++
        isolation_held isolation)
    handed_on thr (abandon_child (W := W) fuel isolation ps child).
Proof.
  unfold abandon_child, handed_on. eapply owns_bind; [apply owns_get_errno|]. intros saved; cbn beta.
  apply (owns_discard_then _ (isolation_held isolation ++ held_all [pipe_read (ready_pipe ps);
      pipe_read (control_pipe ps); pipe_read (standard_error_pipe ps);
      pipe_read (standard_output_pipe ps)])); [count_pipes|].
  eapply owns_bind; [owns_auto|]. intros ?; cbn beta.
  eapply owns_bind; [owns_auto|]. intros ?; cbn beta.
  eapply owns_bind; [apply owns_clean_mounts|]. intros [cleaned isolation'].
  apply owns_ret_eq. count_pipes.
Qed.

Lemma owns_parent isolation configured ps fd child thr :
  owns (held_all (pipes_owners ps ++ [fd]) ++ isolation_held isolation) handed_on thr
    (parent_branch (W := W) fuel scan turns request token isolation configured ps fd child).
Proof.
  unfold parent_branch.
  set (left := held_all [pipe_write (start_pipe ps); pipe_read (ready_pipe ps); pipe_read (control_pipe ps);
    pipe_read (standard_error_pipe ps); pipe_read (standard_output_pipe ps)] ++ isolation_held isolation).
  apply (owns_discard_then _ (held_all [pipe_write (standard_error_pipe ps); pipe_write (control_pipe ps);
    pipe_write (ready_pipe ps); pipe_read (start_pipe ps); fd] ++ left)); [unfold left; count_pipes|].
  apply (owns_discard_then _ (held_all [pipe_write (control_pipe ps);
    pipe_write (ready_pipe ps); pipe_read (start_pipe ps); fd] ++ left)); [count_pipes|].
  apply (owns_discard_then _ (held_all [pipe_write (ready_pipe ps); pipe_read (start_pipe ps); fd] ++ left));
    [count_pipes|].
  apply (owns_discard_then _ (held_all [pipe_read (start_pipe ps); fd] ++ left)); [count_pipes|].
  apply (owns_discard_then _ (held_all [fd] ++ left)); [count_pipes|].
  apply (owns_discard_then _ left); [count_pipes|].
  eapply (owns_bind _ (λ pidfd, held pidfd ++ left)).
  { destruct token; [unfold open_pidfd; owns_auto|by apply owns_ret_eq]. }
  intros pidfd; cbn beta. destruct (token && negb (fd_bool pidfd)) eqn:E.
  - split_tests. unfold held at 1. rewrite H0. apply owns_abandon.
  - eapply owns_bind.
    { eapply owns_eq; [apply (accounts_supervise _ _ (held pidfd ++ isolation_held isolation) thr)|..];
        [unfold left; count_pipes|done|done]. }
    intros st; cbn beta. eapply owns_bind.
    { eapply owns_eq; [apply (owns_clean_mounts isolation (loop_held st ++ held pidfd) thr)|..];
        [intros; rewrite !occurrences_app; lia|done|done]. }
    intros [cleaned isolation']. apply owns_ret_eq. unfold handed_on. count_pipes.
Qed.

(** ** Pipes *)

Lemma owns_tried {A} pre (post : A → _) thr thr' (m : M W A) :
  owns pre post thr m →
  owns pre (λ r, match r with inl _ => thr | inr a => post a end) thr' (tried m).
Proof.
  intros H. unfold tried. eapply (owns_catch _ _ thr); [|intros; by apply owns_ret_eq].
  eapply owns_bind; [exact H|]. intros a. by apply owns_ret_eq.
Qed.

Lemma owns_make_pipe pre :
  owns pre (λ p, held_all (pipe_owners p) ++ pre) pre (make_pipe (W := W)).
Proof.
  unfold make_pipe. eapply owns_bind; [apply owns_pipe|]. intros [[a b]|].
  - apply owns_ret_eq. count_pipes.
  - apply owns_fail_errno.
Qed.
Lemma owns_set_nonblocking fd pre : owns pre (λ _, pre) pre (set_nonblocking (W := W) fd).
Proof. unfold set_nonblocking. owns_auto. Qed.
Hint Resolve owns_set_nonblocking : owns.

Lemma owns_open_pipes pre thr :
  owns pre (λ r, held_all (pipes_owners r.2) ++ pre) thr (open_pipes (W := W)).
Proof.
  unfold open_pipes.
  do 5 (eapply owns_bind; [apply owns_tried, owns_make_pipe|];
        intros [x|?]; cbn beta iota; [apply owns_ret_eq; count_pipes|]).
  eapply owns_bind; [apply owns_tried|].
  { do 3 (eapply owns_bind; [apply owns_set_nonblocking|intros ?; cbn beta]).
    apply owns_set_nonblocking. }
  intros [x|?]; cbn beta iota; apply owns_ret_eq; count_pipes.
Qed.

Lemma owns_start isolation configured fd :
  owns (held fd ++ isolation_held isolation) handed_on (held fd ++ isolation_held isolation)
    (start_execution (W := W) fuel scan turns isolated request resources token isolation configured fd).
Proof.
  unfold start_execution, handed_on. eapply owns_bind; [apply owns_open_pipes|].
  intros [[x|] ps]; cbn [fst snd]; [apply owns_ret_eq; count_pipes|].
  destruct (if isolated then _ else _) as [x|directory].
  { eapply owns_bind; [apply owns_fds_destroy|]. intros ?; cbn beta. apply owns_throw. }
  eapply owns_bind; [owns_auto|]. intros [child|]; cbn beta iota.
  - destruct (child =? 0); [apply owns_quits, quits_child_branch|].
    eapply owns_eq; [apply owns_parent|count_pipes|done|done].
  - eapply owns_bind; [owns_auto|]. intros e; cbn beta. apply owns_ret_eq. count_pipes.
Qed.

(** ** Scopes *)

Lemma owns_scoped {A X} (D : X → list resource_handle) pre (post : A → _) thr owners
    (body : M W (A * X)) destroy :
  owns pre (λ r, D r.2 ++ post r.1) (D owners ++ thr) body →
  (∀ last, owns (D last) (λ _, []) [] (destroy last)) → (∀ last, always (destroy last)) →
  owns pre post thr (scoped body owners destroy).
Proof.
  intros Hm Hd Ha s. destruct (Hm s) as (evs & Ht & Hb). unfold scoped.
  destruct (body s) as [[[a last]|x|c|] s1]; simpl in *; try (by exists evs).
  1: destruct (Hd last s1) as (evs2 & Ht2 & Hb2), (Ha last s1) as [s2 E].
  2: destruct (Hd owners s1) as (evs2 & Ht2 & Hb2), (Ha owners s1) as [s2 E].
  all: exists (evs2 ++ evs); unfold mbind, M_bind; rewrite E in *; simpl in *;
    rewrite Ht2, Ht, app_assoc; split; [done|]; intros [H2 H1]%Forall_app;
    specialize (Hb H1); specialize (Hb2 H2); intros z; specialize (Hb z); specialize (Hb2 z);
    rewrite ?balance_app, ?occurrences_app, ?occurrences_nil in *; lia.
Qed.

Lemma owns_digest_loop n fd offset pre : owns pre (λ _, pre) pre (digest_loop (W := W) n fd offset).
Proof. revert offset. induction n as [|n IH]; intros offset; cbn [digest_loop]; unfold update; owns_auto. Qed.
Lemma owns_digest_begin pre : owns pre (λ _, pre) pre (digest_begin (W := W)).
Proof. unfold digest_begin. owns_auto. Qed.
Lemma owns_digest_end pre : owns pre (λ _, pre) pre (digest_end (W := W)).
Proof. unfold digest_end. owns_auto. Qed.
Hint Resolve owns_digest_loop owns_digest_begin owns_digest_end : owns.

Lemma owns_check_interpreter fd configured pre thr :
  owns pre (λ _, pre) thr (check_interpreter (W := W) fuel fd configured).
Proof.
  unfold check_interpreter. apply (owns_catch _ _ pre); [|intros; apply owns_ret].
  unfold digest_fd, interpreter_identity_of, sha256_hex, update. owns_auto.
Qed.

Lemma owns_cancellation_seen pre thr : owns pre (λ _, pre) thr (cancellation_seen (W := W) token).
Proof. unfold cancellation_seen. owns_auto. Qed.

Lemma owns_with_interpreter isolation configured fd :
  owns (held fd ++ isolation_held isolation) handed_on (held fd ++ isolation_held isolation)
    (execute_with_interpreter (W := W) fuel scan turns isolated request resources token isolation
       configured fd).
Proof.
  unfold execute_with_interpreter.
  eapply owns_bind; [apply owns_check_interpreter|]. intros [text|]; cbn beta.
  { apply owns_ret_eq. unfold handed_on. count_pipes. }
  eapply owns_bind; [apply owns_cancellation_seen|]. intros []; cbn beta; [|apply owns_start].
  apply owns_ret_eq. unfold handed_on. count_pipes.
Qed.

Lemma owns_close_all fds : owns (held_all fds) (λ _, []) [] (fds_destroy (W := W) fds).
Proof. pose proof (owns_fds_destroy (W := W) fds [] []) as H. by rewrite app_nil_r in H. Qed.

Lemma owns_admitted isolation :
  owns (isolation_held isolation) (λ r, isolation_held r.2) (isolation_held isolation)
    (execute_admitted (W := W) fuel scan turns interpreters isolated request resources token isolation).
Proof.
  unfold execute_admitted. eapply owns_bind; [apply owns_cancellation_seen|].
  intros []; cbn beta; [by apply owns_ret_eq|].
  destruct (find_interpreter _ _) as [configured|]; [|by apply owns_ret_eq].
  eapply owns_bind; [owns_step|]. intros fd; cbn beta. destruct (negb (fd_bool fd)) eqn:E.
  { split_tests. unfold held. rewrite E. cbn [app].
    eapply owns_bind; [owns_auto|]. intros e; cbn beta. by apply owns_ret_eq. }
  apply (owns_scoped held_all).
  - eapply owns_eq; [apply owns_with_interpreter|done|done|count_pipes].
  - intros; apply owns_close_all.
  - intros; apply always_fds_destroy.
Qed.

Lemma verify_cleanup_returns a (s : mstate W) :
  ∃ r s', verify_parent_cleanup a s = (Done r, s').
Proof.
  unfold verify_parent_cleanup. destruct (cleanup_attempted a); [by eexists _, _|].
  case_bool_decide; [by eexists _, _|].
  unfold attempt, issue, mbind, M_bind, get_errno.
  destruct (kernel_run _ (world s)) as [[u1|e1] w1]; simpl;
    destruct (kernel_run _ w1) as [[u2|e2] w2]; by eexists _, _.
Qed.

Lemma owns_best_effort a pre thr :
  owns pre (λ _, pre) thr (cleanup_best_effort (W := W) a).
Proof. unfold cleanup_best_effort, verify_parent_cleanup. owns_auto. Qed.

Lemma owns_isolation_destroy isolation :
  owns (isolation_held isolation) (λ _, []) [] (isolation_destroy (W := W) isolation).
Proof.
  unfold isolation_destroy. destruct isolation as [a|]; [|by apply owns_ret_eq].
  unfold admission_destroy. eapply owns_bind; [apply owns_best_effort|]. intros ?; cbn beta.
  eapply owns_bind.
  { eapply owns_eq; [apply (owns_fds_destroy _ (held (root_source a)))| |done|done].
    intros. cbn [isolation_held]. rewrite !occurrences_app. lia. }
  intros ?; cbn beta. pose proof (owns_fd_destroy (W := W) (root_source a) [] []) as Hd.
  by rewrite app_nil_r in Hd.
Qed.

Lemma always_isolation_destroy isolation : always (isolation_destroy (W := W) isolation).
Proof.
  unfold isolation_destroy. destruct isolation as [a|]; [|apply always_ret].
  unfold admission_destroy. intros s.
  assert (∃ a' s1, cleanup_best_effort a s = (Done a', s1)) as (a' & s1 & E).
  { unfold cleanup_best_effort. destruct (_ && _); [|by eexists _, _].
    destruct (verify_cleanup_returns a s) as (r & s1 & E). unfold mbind, M_bind. rewrite E.
    by eexists _, _. }
  unfold mbind at 1, M_bind at 1. rewrite E.
  apply (always_seq _ _ (always_fds_destroy (source <$> admitted_bindings a)) (always_fd_destroy (root_source a))).
Qed.

(** ** Validation and admission *)

Lemma owns_symlink_component current components pre thr :
  owns pre (λ _, pre) thr (symlink_component (W := W) current components).
Proof. revert current. induction components as [|c rest IH]; intros current; simpl; owns_auto. Qed.
Lemma owns_path_symlink path pre thr :
  owns pre (λ _, pre) thr (path_has_symlink_component (W := W) path).
Proof. unfold path_has_symlink_component. owns_auto. apply owns_symlink_component. Qed.
Hint Resolve owns_path_symlink : owns.
Lemma owns_current_groups pre : owns pre (λ _, pre) pre (current_groups (W := W)).
Proof. unfold current_groups. owns_auto. Qed.
Hint Resolve owns_current_groups : owns.
Lemma owns_foreign_credentials c pre : owns pre (λ _, pre) pre (foreign_credentials (W := W) c).
Proof. unfold foreign_credentials. owns_auto. Qed.
Lemma owns_validate_host_bindings bs pre :
  owns pre (λ _, pre) pre (validate_host_bindings (W := W) resources bs).
Proof. induction bs as [|b bs IH]; simpl; owns_auto. Qed.
Hint Resolve owns_foreign_credentials owns_validate_host_bindings : owns.
Lemma owns_validate_host pre :
  owns pre (λ _, pre) pre (validate_host_request_shape (W := W) request resources).
Proof. unfold validate_host_request_shape. owns_auto. Qed.
Lemma owns_validate_isolated pre :
  owns pre (λ _, pre) pre (validate_isolated_request_shape (W := W) request).
Proof. unfold validate_isolated_request_shape. owns_auto. Qed.

Definition admitted_held (r : execution_result + option isolated_admission) : list resource_handle :=
  match r with inl _ => [] | inr isolation => isolation_held isolation end.

Lemma owns_admit thr :
  owns [] admitted_held thr (admit_request (W := W) fuel isolated request resources).
Proof.
  unfold admit_request. apply (owns_catch _ _ []); [|intros; by apply owns_ret_eq].
  eapply (owns_bind _ (λ _, [])).
  { destruct isolated; [apply owns_validate_isolated|apply owns_validate_host]. }
  intros text; cbn beta. destruct (negb _); [by apply owns_ret_eq|].
  destruct isolated; [|by apply owns_ret_eq].
  eapply owns_bind; [apply owns_admit_isolated_resources|]. intros a. by apply owns_ret_eq.
Qed.

Lemma owns_execute_backend report :
  owns [] (λ _, []) [] (execute_backend (W := W) fuel scan turns report interpreters request resources
    isolated token).
Proof.
  unfold execute_backend. destruct (negb _); [by apply owns_ret_eq|].
  eapply owns_bind; [apply owns_cancellation_seen|]. intros []; cbn beta; [by apply owns_ret_eq|].
  eapply owns_bind; [apply owns_admit|]. intros [r|isolation]; cbn [admitted_held]; [by apply owns_ret_eq|].
  apply (owns_scoped isolation_held).
  - eapply owns_eq; [apply owns_admitted|done|intros; by rewrite app_nil_r|intros; by rewrite app_nil_r].
  - intros; apply owns_isolation_destroy.
  - intros; apply always_isolation_destroy.
Qed.

End execution.

(** C6: An execution in which no [fdopendir] fails leaks no descriptor and closes none
    twice. Whatever is requested, whatever else the kernel answers, and whether
    [execute_backend] returns a result or throws: every descriptor and every directory
    stream it acquired, for the admitted resources, the interpreter, the pipes, the scans
    of /proc, the members it signaled and the child's pidfd, was released exactly as often
    as it was acquired. The condition is needed: a failed [fdopendir] loses the descriptor
    it was given ([failed_fdopendir_leaks]). *)
Theorem execution_releases_descriptors {W} `{Kernel W} `{Libc} `{Pkgexec} `{!Supports}
    fuel scan turns report interpreters request resources isolated token (s : mstate W) :
  ∃ evs,
    trace (execute_backend fuel scan turns report interpreters request resources isolated token s).2 =
      evs ++ trace s ∧
    (Forall stream_opened evs →
     match (execute_backend fuel scan turns report interpreters request resources isolated token s).1 with
     | Done _ | Threw _ => ∀ x, balance x evs = 0
     | _ => True
     end).
Proof.
  destruct (owns_execute_backend fuel scan turns interpreters request resources isolated token report s)
    as (evs & E & Hb).
  exists evs. split; [exact E|]. intros Hs. specialize (Hb Hs).
  destruct (execute_backend _ _ _ _ _ _ _ _ _ s).1; try done; intros h; specialize (Hb h);
    rewrite occurrences_nil in Hb; lia.
Qed.
