(* ===== verification/Origins.v ===== *)
(** * Where a result comes from

    The origin of every result of [execute_backend], in the calls of its run: it was
    decided without a process that could have started the program, or it is the
    classification of a finished supervision of the one child that was created. *)

From S2P Require Import Prelude Machine Linux Logic Posix Script Pkgexec Records Paths Support.
From S2P Require Import Interpreter Yields Ownership Admission Realization Capability Child.
From S2P Require Import ProcFs ProcessControl Supervisor SupervisorRuns SupervisorFacts.
From S2P Require Import SupervisorClaims Evidence Backend BeforeFork BackendOwnership.
Local Open Scope string_scope.
Local Open Scope list_scope.
Local Open Scope Z_scope.

(** ** Reasoning on returned values *)

Section returned.
Context {W : Type} `{K : Kernel W}.

Lemma pc_run {A B} (m : M W A) (k : A → M W B) Q s :
  (∀ a s1, m s = (Done a, s1) → pc (k a) Q s1) → pc (m ≫= k) Q s.
Proof. intros H. apply pc_bind. intros a s1 E. by apply H. Qed.

Lemma pc_never {A} (m : M W A) Q s : (∀ a s', m s ≠ (Done a, s')) → pc m Q s.
Proof. intros H a s' E. by destruct (H a s'). Qed.

Lemma pc_catch {A} (m : M W A) h Q s :
  pc m Q s → (∀ x s1, pc (h x) Q s1) → pc (catch m h) Q s.
Proof.
  intros Hm Hh a s' E. unfold catch in E. destruct (m s) as [[b|x|c|] s1] eqn:Em; try discriminate.
  - injection E as <- <-. by apply Hm.
  - by eapply Hh.
Qed.

(** The child never returns from [child_main]. *)
Definition leaves {A} (m : M W A) : Prop := ∀ s a s', m s ≠ (Done a, s').
Lemma leaves_bind {A B} (m : M W A) (k : A → M W B) : (∀ a, leaves (k a)) → leaves (m ≫= k).
Proof.
  intros H s b s' E. unfold mbind, M_bind in E. destruct (m s) as [[a|x|c|] s1]; try discriminate.
  by apply (H a) in E.
Qed.
Lemma leaves_exit {A} code : leaves (@exit_process W A code).
Proof. by intros s a s'. Qed.

(** [calm_since s0 s evs]: [evs] were made between [s0] and [s], all of them calm. *)
Definition calm_since (s0 s : mstate W) (evs : list event) : Prop :=
  trace s = evs ++ trace s0 ∧ Forall calm evs.

Lemma calm_refl s : calm_since s s [].
Proof. by split. Qed.
Lemma calm_trans s1 s2 s3 e1 e2 :
  calm_since s1 s2 e1 → calm_since s2 s3 e2 → calm_since s1 s3 (e2 ++ e1).
Proof. intros [E1 F1] [E2 F2]. split; [by rewrite E2, E1, app_assoc|by apply Forall_app]. Qed.

Lemma pc_calm {A B} (m : M W A) (k : A → M W B) Q s :
  emits calm m → (∀ a s1 evs, m s = (Done a, s1) → calm_since s s1 evs → pc (k a) Q s1) →
  pc (m ≫= k) Q s.
Proof.
  intros He H. apply pc_run. intros a s1 E. destruct (He s) as (evs & Et & F). rewrite E in Et.
  by apply (H _ _ evs).
Qed.

(** Continue after a calm computation, counting from [t]. *)
Lemma pc_since {A B} t (m : M W A) (k : A → M W B) Q s :
  emits calm m → (∃ evs, calm_since t s evs) →
  (∀ a s1, m s = (Done a, s1) → (∃ evs, calm_since t s1 evs) → pc (k a) Q s1) → pc (m ≫= k) Q s.
Proof.
  intros He [e0 H0] H. apply pc_calm; [done|]. intros a s1 e1 E H1. apply H; [done|].
  exists (e1 ++ e0). by eapply calm_trans.
Qed.

Lemma pc_scoped {A X} (body : M W (A * X)) owners destroy (Q : A → mstate W → Prop) s :
  (∀ a s1 s2 evs, calm_since s1 s2 evs → Q a s1 → Q a s2) → (∀ last, emits calm (destroy last)) →
  pc body (λ r s1, Q r.1 s1) s → pc (scoped body owners destroy) Q s.
Proof.
  intros Hq Hd H a s' E. unfold scoped in E. destruct (body s) as [[[b last]|x|c|] s1] eqn:Eb; try discriminate.
  - unfold mbind, M_bind in E. destruct (destroy last s1) as [[u|x|c|] s2] eqn:Ed; try discriminate.
    injection E as <- <-. destruct (Hd last s1) as (evs & Et & F). rewrite Ed in Et.
    eapply (Hq _ s1 s2 evs); [by split|by apply (H _ _ Eb)].
  - unfold mbind, M_bind in E. by destruct (destroy owners s1) as [[]].
Qed.

End returned.

(** ** The origins *)

Section origin.
Context {W : Type} `{K : Kernel W} `{Lc : Libc} `{P : Pkgexec} `{Sp : !Supports}.

(** A child for which no pidfd was to be had was created, killed and waited for; nothing
    was written, so it was never told to start. *)
Definition abandoned (child : Z) (evs : list event) : Prop :=
  ∃ newer older, child ≠ 0 ∧ evs = newer ++ Event sys_fork (Ok child) :: older ∧
    Forall calm newer ∧ Forall calm older ∧
    (∃ answer, Event (sys_pidfd_open child) answer ∈ newer ∧
       match answer with Ok fd => fd < 0 | Err _ => True end) ∧
    (∃ answer, Event (sys_kill child SIGKILL) answer ∈ newer) ∧
    (∃ answer, Event (sys_waitpid child) answer ∈ newer ∧ answer ≠ Err EINTR).

(** The result was decided without a program that could have been started: no process was
    created, or the one that was created was abandoned; cancellation was answered by the
    token. *)
Definition refused (token : bool) (r : execution_result) (evs : list event) : Prop :=
  match r with
  | result_failed_before_start kind established _ =>
      established = [] ∧
      (kind ∈ [request_rejected; resource_admission_failed; interpreter_unavailable;
               process_start_failed] ∧ Forall calm evs ∨
       kind = process_start_failed ∧ token = true ∧ ∃ child, abandoned child evs)
  | result_cancelled_before_start established _ =>
      established = [g_cancellation] ∧ token = true ∧ Forall calm evs ∧
      Event env_cancellation_requested true ∈ evs
  | _ => False
  end.

(** The directories of the admission were removed, or were not there. *)
Definition scratch_removed (isolation : option isolated_admission) (evs : list event) : Prop :=
  match isolation with
  | None => True
  | Some a => scratch a = "" ∨ ∃ r1 r2, removed r1 = true ∧ removed r2 = true ∧
      Event (sys_rmdir (path_append (scratch a) "root")) r1 ∈ evs ∧
      Event (sys_rmdir (scratch a)) r2 ∈ evs
  end.

(** The run whose calls after [s0] are [evs] opened and compared the interpreter
    [configured] that the request names, asked the token, created one process, [child], and
    supervised it, until the loop ended in the state [st] after the calls [loop]; [cleaned]
    is the answer about the scratch directory. All other calls are calm. *)
Record supervised (fuel scan turns : nat) (interpreters : list interpreter_binding)
    (request : execution_request) (resources : execution_resources) (isolated token : bool)
    (s0 : mstate W) (evs : list event) (configured : interpreter_binding) (child pidfd : Z)
    (st : supervision) (loop : list event) (cleaned : bool) : Prop := mk_supervised {
  supervised_interpreter : find_interpreter interpreters (interpreter request) = Some configured;
  supervised_child : child ≠ 0;
  supervised_calls : ∃ isolation fd checked later started opened earlier,
    evs = later ++ loop ++ started ++ Event sys_fork (Ok child) :: opened ++ asked token false ++
          reverse checked ++ earlier ∧
    Forall calm (later ++ started ++ opened ++ earlier) ∧
    interpreter_compared fd configured checked ∧
    Event (sys_open (executable configured)
             (Z.lor O_RDONLY (Z.lor O_CLOEXEC (Z.lor O_NOFOLLOW O_NONBLOCK)))) (Ok fd) ∈ earlier ∧
    admitted_for isolated request resources isolation ∧
    (cleaned = true → scratch_removed isolation later) ∧
    ∃ ps s3 s4, trace s3 = started ++ Event sys_fork (Ok child) :: opened ++ asked token false ++
                           reverse checked ++ earlier ++ trace s0 ∧
      supervise (loop_context fuel scan request token child pidfd) turns (first_state ps) s3 =
        (Done st, s4) ∧ trace s4 = loop ++ trace s3
}.

Section run.
Variables (fuel scan turns : nat) (interpreters : list interpreter_binding).
Variables (request : execution_request) (resources : execution_resources) (isolated token : bool).
Variables (s0 : mstate W).

Definition origin (r : execution_result) (s : mstate W) : Prop :=
  ∃ evs, trace s = evs ++ trace s0 ∧
    (refused token r evs ∨
     ∃ configured child pidfd st loop cleaned,
       supervised fuel scan turns interpreters request resources isolated token s0 evs
         configured child pidfd st loop cleaned ∧
       r = classify request (identity configured) st cleaned).

Lemma abandoned_later child new evs : Forall calm new → abandoned child evs → abandoned child (new ++ evs).
Proof.
  intros F (newer & older & Hc & -> & F1 & F2 & (a1 & H1 & Ha) & (a2 & H2) & (a3 & H3 & Hw)).
  exists (new ++ newer), older. split_and!; [done|by rewrite app_assoc|by apply Forall_app|done|..].
  - exists a1. split; [apply elem_of_app; auto|done].
  - exists a2. apply elem_of_app. auto.
  - exists a3. split; [apply elem_of_app; auto|done].
Qed.

Lemma refused_later r new evs : Forall calm new → refused token r evs → refused token r (new ++ evs).
Proof.
  intros F. destruct r; simpl; try done.
  - intros [He [[Hk H]|(Hk & Ht & child & H)]]; (split; [done|]); [left|right].
    + split; [done|]. by apply Forall_app.
    + split_and!; try done. exists child. by apply abandoned_later.
  - intros (He & Ht & H & Hin). split_and!; try done; [by apply Forall_app|]. apply elem_of_app. auto.
Qed.

Lemma scratch_later isolation new evs : scratch_removed isolation evs → scratch_removed isolation (new ++ evs).
Proof.
  destruct isolation as [a|]; [|done]. intros [H|(r1 & r2 & H1 & H2 & I1 & I2)]; [by left|right].
  exists r1, r2. split_and!; try done; apply elem_of_app; auto.
Qed.

Lemma origin_later r s1 s2 new : calm_since s1 s2 new → origin r s1 → origin r s2.
Proof.
  intros [En F] (evs & E & H). exists (new ++ evs). rewrite En, E, app_assoc. split; [done|].
  destruct H as [H|(configured & child & pidfd & st & loop & cleaned & [Hf Hc Hcalls] & Er)].
  - left. by apply refused_later.
  - right. exists configured, child, pidfd, st, loop, cleaned. split; [|done]. constructor; [done..|].
    destruct Hcalls as (i & fd & checked & later & started & opened & earlier & -> & Hcalm & H).
    exists i, fd, checked, (new ++ later), started, opened, earlier.
    destruct H as (H1 & H2 & H3 & H4 & H5). split_and!; try done.
    + by rewrite <- !app_assoc.
    + rewrite <- app_assoc. by apply Forall_app.
    + intros Hcl. by apply scratch_later, H4.
Qed.

Lemma origin_calm r s evs : calm_since s0 s evs → refused token r evs → origin r s.
Proof. intros [E _] H. exists evs. split; [done|by left]. Qed.

(** ** The steps *)

Lemma clean_mounts_run isolation cleaned isolation' s s' :
  admitted_for isolated request resources isolation →
  clean_mounts isolation s = (Done (cleaned, isolation'), s') →
  ∃ evs, calm_since s s' evs ∧ (cleaned = true → scratch_removed isolation evs).
Proof.
  intros Ha E. destruct (calm_clean_mounts isolation s) as (evs & Et & F). rewrite E in Et.
  cbn [snd] in Et.
  exists evs. split; [done|]. intros ->. destruct isolation as [a|]; [|done]. simpl.
  assert (cleanup_attempted a = false) as Hfresh.
  { destruct isolated; [|discriminate Ha]. by destruct Ha as (b & [= ->] & []). }
  unfold clean_mounts, verify_parent_cleanup in E. rewrite Hfresh in E.
  destruct (bool_decide_reflect (scratch a = "")) as [|_]; [by left|right].
  unfold attempt, issue, get_errno, mbind, M_bind in E.
  destruct (kernel_run (sys_rmdir (path_append (scratch a) "root")) (world s)) as [r1 w1]. cbn in E.
  destruct r1 as [u1|e1]; cbn in E;
    destruct (kernel_run (sys_rmdir (scratch a)) w1) as [[u2|e2] w2]; cbn in E; unfold mret, M_ret in E;
    simplify_eq;
    split_tests; apply (app_inv_tail (trace s) [_; _]) in Et as <-.
  all: eexists _, _; split_and!; cycle 2; [by right; left|by left|done..].
Qed.

Lemma retry_last {A} (c : call (res A)) n o s s' :
  retry_eintr n c s = (Done o, s') → ∃ evs answer, trace s' = Event c answer :: evs ++ trace s ∧ answer ≠ Err EINTR.
Proof.
  revert s. induction n as [|n IH]; intros s E; [done|]. cbn [retry_eintr] in E.
  unfold attempt, issue, get_errno, mbind, M_bind in E.
  destruct (kernel_run c (world s)) as [[a|e] w]; cbn in E.
  - injection E as <- <-. by exists [], (Ok a).
  - destruct (Z.eqb_spec e EINTR) as [->|Hne].
    + apply IH in E as (evs & answer & E & H). exists (evs ++ [Event c (Err EINTR)]), answer.
      rewrite E, <- app_assoc. done.
    + injection E as <- <-. exists [], (Err e). split; [done|]. by intros [= ->].
Qed.

(** Everything a supervision knows of the calls before [fork]. *)
Definition admitted_run (isolation : option isolated_admission) (configured : interpreter_binding)
    (fd : Z) (checked earlier : list event) : Prop :=
  find_interpreter interpreters (interpreter request) = Some configured ∧
  interpreter_compared fd configured checked ∧
  Event (sys_open (executable configured)
           (Z.lor O_RDONLY (Z.lor O_CLOEXEC (Z.lor O_NOFOLLOW O_NONBLOCK)))) (Ok fd) ∈ earlier ∧
  admitted_for isolated request resources isolation ∧ Forall calm (reverse checked ++ earlier).

Lemma pc_abandon isolation ps child s newer older :
  child ≠ 0 → admitted_for isolated request resources isolation → token = true →
  trace s = newer ++ Event sys_fork (Ok child) :: older ++ trace s0 → Forall calm newer → Forall calm older →
  (∃ answer, Event (sys_pidfd_open child) answer ∈ newer ∧
     match answer with Ok fd => fd < 0 | Err _ => True end) →
  pc (abandon_child fuel isolation ps child) (λ r s', origin r.1.1 s') s.
Proof.
  intros Hc Ha Ht Et F1 F2 Hopen. unfold abandon_child. apply pc_run. intros saved s1 [= <- <-].
  apply pc_calm; [by apply emits_fd_reset|]. intros _ s2 e2 _ [E2 C2].
  apply pc_calm; [by emits_auto|]. intros [] s3 e3 R3 [E3 C3].
  assert (∃ answer, Event (sys_kill child SIGKILL) answer ∈ e3) as [ak Hk].
  { unfold ignore, attempt, issue, mbind, M_bind in R3.
    destruct (kernel_run _ _) as [[u|e] w]; injection R3 as <-;
      apply (app_inv_tail (trace s2) [_]) in E3 as <-; eexists; by left. }
  apply pc_calm; [by emits_auto|]. intros waited s4 e4 R4 [E4 C4].
  assert (∃ answer, Event (sys_waitpid child) answer ∈ e4 ∧ answer ≠ Err EINTR) as (aw & Hw & Hne).
  { apply retry_last in R4 as (evs & answer & R4 & H). exists answer. split; [|done].
    rewrite E4 in R4. apply (app_inv_tail (trace s3) _ (_ :: evs)) in R4 as ->. by left. }
  apply pc_run. intros [cleaned isolation'] s5 R5.
  apply (clean_mounts_run _ _ _ _ _ Ha) in R5 as (e5 & [E5 C5] & _). apply pc_ret.
  exists (e5 ++ e4 ++ e3 ++ e2 ++ newer ++ Event sys_fork (Ok child) :: older). split.
  { cbn [fst]. rewrite E5, E4, E3, E2, Et, <- !app_assoc. done. }
  left. split; [done|]. right. split_and!; try done. exists child.
  exists (e5 ++ e4 ++ e3 ++ e2 ++ newer), older. split_and!; try done.
  - by rewrite <- !app_assoc.
  - by repeat (apply Forall_app; split).
  - destruct Hopen as (ao & Ho & Hneg). exists ao. rewrite !elem_of_app. auto 10.
  - exists ak. rewrite !elem_of_app. auto 10.
  - exists aw. rewrite !elem_of_app. auto 10.
Qed.

Lemma pc_supervised isolation configured ps fd child pidfd s newer opened checked earlier :
  admitted_run isolation configured fd checked earlier → child ≠ 0 →
  trace s = newer ++ Event sys_fork (Ok child) :: opened ++ asked token false ++ reverse checked ++
            earlier ++ trace s0 → Forall calm newer → Forall calm opened →
  pc (st ← supervise (loop_context fuel scan request token child pidfd) turns (first_state ps);
      r ← clean_mounts isolation;
      let '(mount_cleaned, isolation) := (r : bool * option isolated_admission) in
      mret (classify request (identity configured) st mount_cleaned, isolation, owners_left pidfd st))
    (λ r s', origin r.1.1 s') s.
Proof.
  intros (Hf & Hcmp & Hopen & Ha & F) Hc Et F1 F2. apply pc_run. intros st s1 R1.
  destruct (owns_emits _ _ _ _ (accounts_supervise (loop_context fuel scan request token child pidfd)
    turns [] [] (first_state ps)) s) as (loop & E1 & _). rewrite R1 in E1. cbn [snd] in E1.
  apply pc_run. intros [cleaned isolation'] s2 R2.
  apply (clean_mounts_run _ _ _ _ _ Ha) in R2 as (later & [E2 C2] & Hcl). apply pc_ret.
  apply Forall_app in F as [_ F].
  eexists. split; cycle 1.
  { right. exists configured, child, pidfd, st, loop, cleaned. split; [|done]. constructor; [done..|].
    exists isolation, fd, checked, later, newer, opened, earlier. split_and!; try done.
    - by repeat (apply Forall_app; split).
    - by exists ps, s, s1. }
  cbn [fst]. rewrite E2, E1, Et, <- !app_assoc. cbn [app]. by rewrite <- !app_assoc.
Qed.

Lemma pc_parent isolation configured ps fd child s opened checked earlier :
  admitted_run isolation configured fd checked earlier → child ≠ 0 →
  trace s = Event sys_fork (Ok child) :: opened ++ asked token false ++ reverse checked ++
            earlier ++ trace s0 → Forall calm opened →
  pc (parent_branch fuel scan turns request token isolation configured ps fd child)
    (λ r s', origin r.1.1 s') s.
Proof.
  intros Ha Hc Et F. unfold parent_branch.
  assert (∀ x, emits calm (fd_reset (W := W) x (-1))) as Hr by (intros; by apply emits_fd_reset).
  assert (∃ e, calm_since s s e) as A by (eexists; apply calm_refl).
  do 6 (apply (pc_since s); [apply Hr|exact A|]; clear A; let u := fresh "u" in intros _ u _ A).
  destruct A as [e1 [E1 F1]]. apply pc_calm;
    [unfold open_pidfd; destruct token; [by apply emits_descriptor|apply emits_ret]|].
  intros pidfd s2 e2 R2 [E2 F2]. pose proof E2 as E3. rewrite E1, Et in E2.
  destruct (token && negb (fd_bool pidfd)) eqn:G.
  2: { eapply (pc_supervised _ _ _ _ _ _ _ (e2 ++ e1)); [exact Ha|done| |by apply Forall_app|exact F].
       by rewrite E2, <- app_assoc. }
  apply andb_prop in G as [Htok Hfd]. apply negb_true_iff in Hfd. rewrite Htok in R2.
  eapply (pc_abandon _ _ _ _ (e2 ++ e1) (opened ++ asked token false ++ reverse checked ++ earlier));
    [done|apply Ha|done| |by apply Forall_app| |].
  - rewrite E2, <- !app_assoc. done.
  - apply Forall_app. split; [done|]. apply Forall_app.
    split; [unfold asked; rewrite Htok; by repeat constructor|apply Ha].
  - unfold open_pidfd, descriptor, attempt, issue, mbind, M_bind in R2.
    destruct (kernel_run (sys_pidfd_open child) _) as [[z|e] w]; injection R2 as <- <-;
      apply (app_inv_tail _ [_]) in E3 as <-; eexists; (split; [by left|]); [|done].
    unfold fd_bool in Hfd. cbn. lia.
Qed.

(** [fork], or a failure before it. *)
Lemma pc_start isolation configured fd s checked earlier :
  admitted_run isolation configured fd checked earlier →
  trace s = asked token false ++ reverse checked ++ earlier ++ trace s0 →
  pc (start_execution fuel scan turns isolated request resources token isolation configured fd)
    (λ r s', origin r.1.1 s') s.
Proof.
  intros Ha Et. unfold start_execution.
  assert (Forall calm (asked token false ++ reverse checked ++ earlier)) as F.
  { apply Forall_app. split; [unfold asked; destruct token; by repeat constructor|apply Ha]. }
  rewrite !app_assoc in Et. rewrite <- app_assoc in Et.
  assert (∀ s1 new text, trace s1 = new ++ trace s → Forall calm new →
    origin (failed_before_start process_start_failed text) s1) as Hfail.
  { intros s1 new text E1 F1. exists (new ++ asked token false ++ reverse checked ++ earlier).
    split; [by rewrite E1, Et, <- !app_assoc|]. left. split; [done|]. left.
    split; [|by apply Forall_app]. do 3 apply list_elem_of_further. apply list_elem_of_here. }
  apply pc_calm; [apply calm_open_pipes|]. intros [[x|] ps] s1 e1 _ [E1 F1].
  { apply pc_ret. by apply (Hfail _ e1). }
  destruct (if isolated then _ else _) as [x|directory].
  { apply pc_never. intros a s' E. unfold mbind, M_bind in E. by destruct (fds_destroy _ s1) as [[]]. }
  apply pc_run. intros forked s2 Efork. unfold attempt, issue, mbind, M_bind in Efork.
  destruct (kernel_run sys_fork (world s1)) as [[c|e] w]; injection Efork as <- <-.
  - destruct (Z.eqb_spec c 0).
    { apply pc_never. intros a s' E. destruct (quits_child_branch (A := (execution_result *
        option isolated_admission) * list Z) fuel (make_configuration request directory isolation
        configured fd) ps (MState w (errno s1) (Event sys_fork (Ok c) :: trace s1))) as [_ Hq].
      cbn beta iota in E. by rewrite E in Hq. }
    apply (pc_parent _ _ _ _ _ _ e1 checked earlier); [done..| |done].
    cbn [trace]. by rewrite E1, Et, <- !app_assoc.
  - apply pc_run. intros e' s3 [= <- <-]. apply pc_ret.
    apply (Hfail _ (Event sys_fork (Err e) :: e1)); [cbn [trace]; by rewrite E1|by constructor].
Qed.

Lemma pc_admit s :
  pc (admit_request fuel isolated request resources) (λ r _, match r with
    | inl result => ∃ kind text, result = failed_before_start kind text ∧
        (kind = request_rejected ∨ kind = resource_admission_failed)
    | inr isolation => admitted_for isolated request resources isolation end) s.
Proof.
  intros r s' E. pose proof (yields_admit fuel isolated request resources s) as H.
  rewrite E in H. destruct r as [r|isolation]; [|exact H]. clear H. revert E.
  enough (pc (admit_request fuel isolated request resources) (λ r _, match r with
    | inl result => ∃ kind text, result = failed_before_start kind text ∧
        (kind = request_rejected ∨ kind = resource_admission_failed)
    | inr isolation => True end) s) as H by (intros E; apply (H _ _ E)).
  unfold admit_request. apply pc_catch; [|intros; apply pc_ret; eauto].
  apply pc_run. intros text s1 _. destruct (negb _); [apply pc_ret; eauto|].
  destruct isolated; [|by apply pc_ret]. apply pc_run. intros. by apply pc_ret.
Qed.

Definition before_start_kinds : list execution_failure_kind :=
  [request_rejected; resource_admission_failed; interpreter_unavailable; process_start_failed].

Lemma origin_refusal kind text s evs :
  kind ∈ before_start_kinds → calm_since s0 s evs → origin (failed_before_start kind text) s.
Proof. intros Hk [E F]. exists evs. split; [done|]. left. split; [done|]. by left. Qed.

Lemma origin_cancellation text s1 s evs :
  calm_since s0 s1 evs → cancellation_seen token s1 = (Done true, s) → origin (cancelled_before_start text) s.
Proof.
  intros [E F] R. apply seen_run in R as [R Ht]. specialize (Ht eq_refl).
  exists (asked token true ++ evs). split; [by rewrite R, E, app_assoc|]. left. unfold asked. rewrite Ht.
  split_and!; [done|done|by constructor|]. by left.
Qed.

Lemma pc_execute :
  pc (seen ← cancellation_seen token;
      if (seen : bool) then
        mret (cancelled_before_start "cancellation was requested before resource admission")
      else
      admitted ← admit_request fuel isolated request resources;
      match admitted with
      | inl result => mret result
      | inr isolation =>
          scoped
            (execute_admitted fuel scan turns interpreters isolated request resources token isolation)
            isolation isolation_destroy
      end) origin s0.
Proof.
  assert (∀ (s1 s2 s3 : mstate W) e1 e2, calm_since s1 s2 e1 → calm_since s2 s3 e2 → calm_since s1 s3 (e2 ++ e1)) as T
    by apply calm_trans.
  apply pc_calm; [apply calm_cancellation_seen|]. intros [|] s1 e1 R1 C1.
  { apply pc_ret. eapply origin_cancellation; [apply calm_refl|exact R1]. }
  apply pc_calm; [apply calm_admit_request|]. intros r s2 e2 R2 C2. apply pc_admit in R2.
  pose proof (T _ _ _ _ _ C1 C2) as A2. destruct r as [r|isolation].
  { destruct R2 as (kind & text & -> & Hk). apply pc_ret. eapply origin_refusal; [|exact A2].
    unfold before_start_kinds. rewrite !elem_of_cons. tauto. }
  apply (pc_scoped _ _ _ origin); [intros ????; apply origin_later|intros; apply calm_isolation_destroy|].
  unfold execute_admitted.
  apply pc_calm; [apply calm_cancellation_seen|]. intros [|] s3 e3 R3 C3.
  { apply pc_ret. eapply origin_cancellation; [exact A2|exact R3]. }
  pose proof (T _ _ _ _ _ A2 C3) as A3.
  assert (∀ s evs text, calm_since s0 s evs → origin (failed_before_start interpreter_unavailable text) s)
    as Hgone.
  { intros s evs text. apply origin_refusal. unfold before_start_kinds. rewrite !elem_of_cons. tauto. }
  destruct (find_interpreter _ _) as [configured|] eqn:Hf; [|apply pc_ret; by eapply Hgone].
  apply pc_calm; [by emits_auto|]. intros fd s4 e4 R4 C4. pose proof (T _ _ _ _ _ A3 C4) as A4.
  destruct (fd_bool fd) eqn:Hfd; cbn [negb].
  2: { apply pc_run. intros e s5 [= <- <-]. apply pc_ret. by eapply Hgone. }
  apply (pc_scoped _ _ _ (λ r s', origin r.1 s'));
    [intros ????; apply origin_later|intros; apply calm_fds_destroy|].
  unfold execute_with_interpreter. apply pc_calm; [apply calm_check_interpreter|].
  intros [text|] s5 e5 R5 C5; [apply pc_ret; eapply Hgone; by eapply T|].
  apply check_run in R5 as (checked & E5 & Hcmp). destruct C5 as [E5' F5]. rewrite E5 in E5'.
  apply app_inv_tail in E5' as <-. destruct A4 as [E4 F4].
  assert (calm_since s0 s5 (reverse checked ++ e4 ++ e3 ++ e2 ++ e1)) as A5.
  { split; [by rewrite E5, E4, !app_assoc|]. apply Forall_app. split; [done|]. by rewrite !app_assoc in F4 |- *. }
  apply pc_run. intros [|] s6 R6; [apply pc_ret; by eapply origin_cancellation|].
  apply seen_run in R6 as [E6 _]. eapply (pc_start _ _ _ _ checked (e4 ++ e3 ++ e2 ++ e1)).
  - split_and!; try done; [|apply A5].
    apply elem_of_app. left. destruct C4 as [E4' _].
    unfold descriptor, attempt, issue, mbind, M_bind in R4.
    destruct (kernel_run _ _) as [[z|e] w]; injection R4 as <- <-; [|done].
    apply (app_inv_tail _ [_]) in E4' as <-. by left.
  - rewrite E6, (proj1 A5), <- !app_assoc. done.
Qed.

End run.
End origin.
