(* ===== verification/BackendFacts.v ===== *)
(** * What a reported result is worth

    The origin of every result of [execute_backend]: it was decided before the program
    could start, or it is the classification of a finished supervision; and what the
    results therefore attest. *)

From stdpp Require Import sorting.
From S2P Require Import Prelude Machine Linux Logic Posix Script Pkgexec Records Paths Support.
From S2P Require Import Interpreter Yields Ownership Admission Realization Capability Child.
From S2P Require Import ProcFs ProcessControl Supervisor SupervisorRuns SupervisorFacts.
From S2P Require Import SupervisorClaims Evidence Backend BeforeFork BackendOwnership Origins.
Local Open Scope string_scope.
Local Open Scope list_scope.
Local Open Scope Z_scope.

Section origin.
Context {W : Type} `{K : Kernel W} `{Lc : Libc} `{P : Pkgexec} `{Sp : !Supports}.

(** ** Results of a supervised execution *)

(** What the calls of the supervision are evidence of. *)
Lemma supervised_evidence fuel scan turns interpreters request resources isolated token (s0 : mstate W)
    evs configured child pidfd st loop cleaned :
  supervised fuel scan turns interpreters request resources isolated token s0 evs configured child
    pidfd st loop cleaned →
  let ctx := loop_context fuel scan request token child pidfd in
  consistent ctx st ∧ child_reaped st = true ∧ evident ctx st loop ∧
  released loop = Nat.b2n (start_released st).
Proof.
  intros [_ _ (i & fd & c & l & n & o & e & _ & _ & _ & _ & _ & _ & ps & s3 & s4 & _ & R & E)] ctx.
  destruct (supervise_reachable _ turns _ s3 _ _ _ _ (reach_start _ _ _) R) as [_ Hf].
  apply finished_elim in Hf as [Hr _].
  destruct (supervise_evident _ _ _ _ _ _ _ _ _ _ R) as (evs' & E' & Hev & Hc & Hrel).
  rewrite E in E'. by apply app_inv_tail in E' as <-.
Qed.

Definition cleanup_verified (st : supervision) (cleaned : bool) : Prop :=
  cleanup_complete st = true ∧ Supervisor.cleanup_failed st = false ∧ cleaned = true.

(** What each kind of result says of the supervision it comes from. *)
Definition attests (request : execution_request) (token : bool) (configured : interpreter_binding)
    (st : supervision) (cleaned : bool) (r : execution_result) : Prop :=
  let captured policy material := capture_if (policy (environment request)) false material in
  match r with
  | result_failed_before_start kind established _ =>
      exec_confirmed st = false ∧ established = [] ∧
      match control_bytes st with
      | [] =>
          kind = isolation_setup_failed ∧ ¬ cleanup_verified st cleaned ∨
          kind = process_start_failed ∧ cleanup_verified st cleaned ∧
            cancellation_observed st && cancellation_before_start st = false
      | report =>
          kind = if (length report =? sizeof_child_error)%nat
                 then child_failure_kind (decode_child_error report) else process_start_failed
      end
  | result_cancelled_before_start established _ =>
      token = true ∧ cancellation_observed st = true ∧ start_released st = false ∧
      exec_confirmed st = false ∧ control_bytes st = [] ∧ cleanup_verified st cleaned ∧
      established = [g_cancellation]
  | result_failed_after_start used termination output error_output established cleanup kind _ =>
      exec_confirmed st = true ∧ used = identity configured ∧
      termination = termination_from_siginfo (child_information st) ∧
      (cleanup = cleanup_outcome_verified ↔ cleanup_verified st cleaned) ∧
      (g_cleanup_verified ∈ established → cleanup_verified st cleaned) ∧
      (g_complete_stdout_capture ∈ established ∨ g_complete_stderr_capture ∈ established →
         capture_failed st = false) ∧
      (∀ g, g ∈ established → g ∈ required_guarantees request) ∧
      (kind = program_exited_nonzero → si_code (child_information st) = CLD_EXITED ∧
         si_status (child_information st) ≠ 0)
  | result_cancelled_after_start used output error_output established cleanup _ =>
      token = true ∧ exec_confirmed st = true ∧ cancellation_observed st = true ∧
      cancellation_signal_delivered st = true ∧ used = identity configured ∧ cleanup_verified st cleaned ∧
      cleanup = cleanup_outcome_verified ∧ established = required_guarantees request ∧
      output = captured standard_output (output_material st) ∧
      error_output = captured standard_error (error_material st)
  | result_succeeded used output error_output established =>
      exec_confirmed st = true ∧ start_released st = true ∧ control_bytes st = [] ∧
      cancellation_signal_delivered st = false ∧ used = identity configured ∧ cleanup_verified st cleaned ∧
      si_pid (child_information st) ≠ 0 ∧ si_code (child_information st) = CLD_EXITED ∧
      si_status (child_information st) = 0 ∧ established = required_guarantees request ∧
      output = captured standard_output (output_material st) ∧
      error_output = captured standard_error (error_material st)
  end.

Lemma elem_without g l removed : g ∈ without_guarantee l removed ↔ g ∈ l ∧ g ≠ removed.
Proof. unfold without_guarantee. rewrite list_elem_of_filter. tauto. Qed.

Lemma established_spec required failed verified g :
  g ∈ established_guarantees required failed verified →
  g ∈ required ∧
  (g = g_complete_stdout_capture ∨ g = g_complete_stderr_capture → failed = false) ∧
  (g = g_cleanup_verified → verified = true).
Proof.
  unfold established_guarantees. destruct failed, verified; simpl; rewrite ?elem_without;
    intuition congruence.
Qed.

Lemma cleanup_verified_iff st cleaned :
  cleanup_complete st && negb (Supervisor.cleanup_failed st) && cleaned = true ↔
  cleanup_verified st cleaned.
Proof. unfold cleanup_verified. rewrite !andb_true_iff, negb_true_iff. tauto. Qed.

Lemma find_interpreter_identity l key (b : interpreter_binding) :
  find_interpreter l key = Some b → identity b = key.
Proof.
  unfold find_interpreter. destruct (l !! _); [|done]. case_bool_decide; [|done]. by intros [= <-].
Qed.

(** A failure after the start, with whatever was established. *)
Lemma attests_failure request token configured st cleaned failed verified cleanup kind text out err :
  exec_confirmed st = true → capture_failed st = failed →
  (verified = true ↔ cleanup_verified st cleaned) →
  (cleanup = cleanup_outcome_verified ↔ verified = true) →
  (kind = program_exited_nonzero → si_code (child_information st) = CLD_EXITED ∧
     si_status (child_information st) ≠ 0) →
  attests request token configured st cleaned
    (result_failed_after_start (identity configured) (termination_from_siginfo (child_information st))
       out err (established_guarantees (required_guarantees request) failed verified)
       cleanup kind text).
Proof.
  intros He <- Hv Hc Hk. simpl. split; [done|]. split; [done|]. split; [done|]. split; [by rewrite Hc|].
  split; [intros H%established_spec; apply Hv; tauto|].
  split; [intros [H%established_spec|H%established_spec]; tauto|].
  split; [intros g H%established_spec; tauto|done].
Qed.

Lemma classify_started_attests ctx request configured st cleaned verified :
  consistent ctx st → exec_confirmed st = true → (verified = true ↔ cleanup_verified st cleaned) →
  child_reaped st = true →
  attests request (controlled ctx) configured st cleaned
    (classify_started request (identity configured) st verified).
Proof.
  intros Hc He Hv Hr. unfold classify_started.
  destruct (capture_failed st) eqn:Ef.
  { apply attests_failure; [done|done|done|by destruct verified|done]. }
  destruct verified; cbn [negb].
  2: { by apply attests_failure. }
  assert (cleanup_verified st cleaned) as Hver by tauto. destruct Hc.
  destruct (cancellation_signal_delivered st) eqn:Es; [simpl; intuition congruence|].
  destruct (si_code (child_information st) =? CLD_EXITED) eqn:E1; cbn [andb].
  2: { by apply attests_failure. }
  apply Z.eqb_eq in E1. destruct (si_status (child_information st) =? 0) eqn:E2.
  - apply Z.eqb_eq in E2. simpl. destruct exec_without_failure as [??]; [done|].
    destruct reaped_after_cleanup as [? ?]; [done|]. intuition congruence.
  - apply Z.eqb_neq in E2. by apply attests_failure.
Qed.

Lemma classify_attests ctx request configured st cleaned :
  consistent ctx st → child_reaped st = true →
  attests request (controlled ctx) configured st cleaned
    (classify request (identity configured) st cleaned).
Proof.
  intros Hc Hr. pose proof (cleanup_verified_iff st cleaned) as Hv. unfold classify.
  destruct (control_bytes st) as [|byte bytes] eqn:El.
  2: { assert (exec_confirmed st = false) as He.
       { destruct Hc. destruct (exec_confirmed st); [|done]. destruct exec_without_failure as [E _]; [done|].
         by rewrite E in El. }
       change (negb (length (byte :: bytes) =? 0)%nat) with true. cbn iota.
       destruct (length (byte :: bytes) =? sizeof_child_error)%nat eqn:En;
         cbn [attests failed_before_start]; rewrite El; by rewrite En. }
  change (negb (length (@nil Z) =? 0)%nat) with false. cbn iota.
  destruct (cancellation_observed st && cancellation_before_start st) eqn:Eb.
  { pose proof Eb as [Eo Ebs]%andb_prop. pose proof Hc as [? ? ? Hearly ? Htok ? ? ? ? ? ? ? ?].
    destruct (Hearly Ebs) as [_ Hs].
    assert (exec_confirmed st = false) as He.
    { destruct Hc. destruct (exec_confirmed st); [|done]. rewrite exec_after_release in Hs; done. }
    destruct (_ && _ && _); simpl; [intuition congruence|]. rewrite El. split_and!; try done.
    left. split; [done|]. intros H%Hv. done. }
  destruct (exec_confirmed st) eqn:He; cbn [negb]; [by apply (classify_started_attests ctx)|].
  destruct (_ && _ && _); simpl; rewrite El; (split_and!; [done|done|]); [right|left].
  - split_and!; [done|by apply Hv|done].
  - split; [done|]. intros H%Hv. done.
Qed.

(** C2: Every result a backend reports is backed by the calls of its own run. A request
    the profile does not support is refused without a call. A result that is decided
    before a program could start has no established guarantee but cancellation, and comes
    from a run that created no process and wrote nothing, or killed and waited for the
    one process it could get no pidfd for, without a word to it; cancellation is then what
    the token answered. Every other result is the classification of a supervision loop
    that ran to its end for the only process the run created, after the resources were
    admitted, the interpreter the request names was opened, its content digested and
    found to have the admitted digest and name, and the token asked. The calls of the loop
    are the evidence: the start byte was written exactly once if the gate counts as
    released and never otherwise, the exit and the status were answered by [waitid] for
    this child, an observed cancellation by the token, a delivered signal by the pidfd
    of this child, and verified cleanup by a scan of /proc, or a [kill], that found no
    member of the group left, and by the removal of the scratch directories. Then: a
    result that says the program did not start is given only when its execution was never
    confirmed, with the failure the child reported if it reported one, and otherwise as
    an isolation failure exactly when cleanup is not verified; cancellation before the
    start only if the token was requested, the start gate was never released, the child
    reported nothing and cleanup was verified; success only if the gate was released, the
    execution was confirmed without a failure record, the exit status is 0, both captures
    are complete, no cancellation signal was delivered and cleanup was verified;
    cancellation after the start only with a delivered signal and verified cleanup; and
    no result claims verified cleanup or complete capture as established when it was not. *)
Theorem results_attested fuel scan turns report interpreters request resources isolated token s r s' :
  execute_backend fuel scan turns report interpreters request resources isolated token s =
    (Done r, s') →
  ∃ evs, trace s' = evs ++ trace s ∧
    if profile_supports (profile report) request then
      refused token r evs ∨
      ∃ configured child pidfd st loop cleaned,
        supervised fuel scan turns interpreters request resources isolated token s evs configured
          child pidfd st loop cleaned ∧
        identity configured = interpreter request ∧
        evident (loop_context fuel scan request token child pidfd) st loop ∧
        released loop = Nat.b2n (start_released st) ∧
        attests request token configured st cleaned r
    else (∃ text, r = failed_before_start backend_unsupported text) ∧ evs = [].
Proof.
  intros R. unfold execute_backend in R. destruct (profile_supports _ _); cbn [negb] in R.
  2: { injection R as <- <-. exists []. split; [done|]. split; [by eexists|done]. }
  destruct (pc_execute fuel scan turns interpreters request resources isolated token s _ _ R)
    as (evs & E & H). exists evs. split; [done|].
  destruct H as [H|(configured & child & pidfd & st & loop & cleaned & H & ->)]; [by left|right].
  destruct (supervised_evidence _ _ _ _ _ _ _ _ _ _ _ _ _ _ _ _ H) as (Hc & Hr & Hev & Hrel).
  exists configured, child, pidfd, st, loop, cleaned.
  split_and!; try done; [by eapply find_interpreter_identity, H|].
  by apply (classify_attests (loop_context fuel scan request token child pidfd)).
Qed.

End origin.

(** ** Requests a backend does not support *)

(** Guarantees are strictly and totally ordered by [operator<]. *)
Class GuaranteeLaws `{Pkgexec} : Prop := {
  guarantee_irrefl : ∀ a, guarantee_ltb a a = false;
  guarantee_trans : ∀ a b c,
    guarantee_ltb a b = true → guarantee_ltb b c = true → guarantee_ltb a c = true;
  guarantee_total : ∀ a b, a ≠ b → guarantee_ltb a b = true ∨ guarantee_ltb b a = true
}.

Section refusal.
Context `{P : Pkgexec} `{L : !GuaranteeLaws}.

Definition guarantee_lt (a b : execution_guarantee) : Prop := guarantee_ltb a b = true.

Lemma sorted_before l i j a b :
  StronglySorted guarantee_lt l → l !! i = Some a → l !! j = Some b → (i < j)%nat → guarantee_lt a b.
Proof.
  intros Hs. revert i j. induction Hs as [|x l _ IH Hx]; intros [|i] [|j] Hi Hj Hlt; try done; try lia.
  - simpl in *. simplify_eq. rewrite Forall_forall in Hx. apply Hx. by eapply list_elem_of_lookup_2.
  - eapply IH; eauto. lia.
Qed.

Lemma guarantee_asym a b : guarantee_ltb a b = true → guarantee_ltb b a = false.
Proof.
  intros H. apply not_true_is_false. intros H'. pose proof (guarantee_trans _ _ _ H H') as E.
  by rewrite guarantee_irrefl in E.
Qed.

(** The binary search decides membership. *)
Lemma guarantee_listed_spec l key :
  StronglySorted guarantee_lt l → guarantee_listed l key = bool_decide (key ∈ l).
Proof.
  intros Hs. unfold guarantee_listed.
  assert (split_by (λ value, guarantee_ltb value key) l) as Hsplit.
  { intros i j a b Hlt Ha Hb. apply guarantee_trans. by apply (sorted_before l i j). }
  pose proof (λ i a, lower_bound_whole _ l i a Hsplit) as Hp. cbn beta in Hp.
  set (p := lower_bound _ _ _ _ _) in *. symmetry. destruct (l !! p) as [a|] eqn:Ea.
  - pose proof (Hp p a Ea) as Hpa. rewrite bool_decide_eq_false_2 in Hpa by lia.
    destruct (guarantee_ltb key a) eqn:Eka; simpl.
    + apply bool_decide_eq_false. intros [i Hi]%list_elem_of_lookup.
      pose proof (Hp i key Hi) as E. rewrite guarantee_irrefl in E. symmetry in E.
      apply bool_decide_eq_false in E. destruct (decide (i = p)) as [->|].
      { rewrite Ea in Hi. injection Hi as ->. by rewrite guarantee_irrefl in Eka. }
      assert (guarantee_lt a key) as Hlt by (apply (sorted_before l p i); [done..|lia]).
      unfold guarantee_lt in Hlt. congruence.
    + apply bool_decide_eq_true. destruct (decide (a = key)) as [->|Hne].
      { by eapply list_elem_of_lookup_2. }
      destruct (guarantee_total _ _ Hne); congruence.
  - apply bool_decide_eq_false. intros [i Hi]%list_elem_of_lookup.
    pose proof (Hp i key Hi) as E. rewrite guarantee_irrefl in E. symmetry in E.
    apply bool_decide_eq_false in E. apply lookup_ge_None in Ea. apply lookup_lt_Some in Hi. lia.
Qed.

(** The diagnostic with the names of the given guarantees. *)
Definition missing_diagnostic (missing : list execution_guarantee) : string :=
  foldl (λ message guarantee, message +:+ " " +:+ guarantee_to_string guarantee)
    "Linux backend cannot establish required guarantees:" missing.

Lemma unsupported_diagnostic_exact profile request :
  StronglySorted guarantee_lt (profile_guarantees profile) →
  unsupported_guarantees_diagnostic profile request =
  missing_diagnostic (filter (λ g, g ∉ profile_guarantees profile) (required_guarantees request)).
Proof.
  intros Hs. unfold unsupported_guarantees_diagnostic, missing_diagnostic.
  generalize "Linux backend cannot establish required guarantees:" as text.
  induction (required_guarantees request) as [|g l IH]; intros text; simpl; [done|].
  rewrite guarantee_listed_spec by done. rewrite filter_cons.
  case_bool_decide as Hg; case_decide; try done; simpl; by rewrite IH.
Qed.

(** C30: A request the profile does not support is refused without a single call: no
    process, no descriptor, no file is touched. The diagnostic, found by binary search in
    the sorted guarantees of the profile, names exactly the required guarantees the
    backend lacks, in the order of the request. *)
Theorem unsupported_refused {W} `{K : Kernel W} `{Lc : Libc} `{Sp : !Supports}
    fuel scan turns report interpreters request resources isolated token (s : mstate W) :
  profile_supports (profile report) request = false →
  StronglySorted guarantee_lt (profile_guarantees (profile report)) →
  execute_backend fuel scan turns report interpreters request resources isolated token s =
    (Done (result_failed_before_start backend_unsupported []
             (missing_diagnostic (filter (λ g, g ∉ profile_guarantees (profile report))
                                    (required_guarantees request)))), s).
Proof.
  intros Hsup Hs. unfold execute_backend. rewrite Hsup. simpl.
  by rewrite unsupported_diagnostic_exact.
Qed.

End refusal.

(** ** A complete run *)

(** The kernel of the supervision runs, with the calls made before the loop: the k-th
    pipe has the ends 3+k and 13+k. *)
Definition backend_run {R} (c : call R) (w : nat * scene) : R * (nat * scene) :=
  match c in call R return R * (nat * scene) with
  | sys_open _ _ => (Ok 10, w)
  | sys_fstat _ => (Ok (mk_stat S_IFREG 1 1), w)
  | sys_pread _ _ _ => (Ok [], w)
  | ssl_digest_init => (true, w)
  | ssl_digest_update _ => (true, w)
  | ssl_digest_final => (Some (repeat 1 32), w)
  | sys_pipe2 _ => (Ok (3 + Z.of_nat w.1, 13 + Z.of_nat w.1), (S w.1, w.2))
  | sys_fcntl_getfl _ => (Ok 0, w)
  | sys_fcntl_setfl _ _ => (Ok tt, w)
  | sys_fork => (Ok 42, w)
  | sys_access _ _ => (Ok tt, w)
  | sys_getgroups_count => (Ok 0, w)
  | sys_getgroups _ => (Ok [], w)
  | c => let '(r, w') := scene_run c w.2 in (r, (w.1, w'))
  end.
Definition backend_kernel : Kernel (nat * scene) := {| kernel_run := @backend_run |}.

Definition shell_name : string := hex_bytes (repeat 1 32).
Definition shell : @interpreter_binding plain_pkgexec :=
  @mk_interpreter plain_pkgexec shell_name "/bin/sh" shell_name.

Definition host_environment : environment_policy :=
  mk_environment ["/bin"] "/work" "/work" 1 None [] network_allowed stdin_closed
    capture_complete capture_complete 18.
Definition host_request : @execution_request plain_pkgexec :=
  @mk_request plain_pkgexec "true" shell_name [] (mk_binding build_workspace writable "/work" "w")
    host_environment (mk_credentials 0 0 [] true) (mk_limits None None None true) (Some 60000)
    [g_cleanup_verified].
Definition host_resources : execution_resources := mk_resources "/" (λ _, inr "/work").
Definition host_report : @capability_report plain_pkgexec :=
  @mk_report plain_pkgexec ("backend", [g_cleanup_verified]) [].

Definition host_run (w : scene) (token : bool) :=
  @execute_backend _ backend_kernel plain_libc plain_pkgexec plain_supports 20 20 20 host_report
    [shell] host_request host_resources false token (Script.start (0%nat, w)).

(** The result of a run, if it returns. *)
Definition reported {A} (r : outcome A * mstate (nat * scene)) : option A :=
  match r.1 with Done a => Some a | _ => None end.

Example host_run_succeeds :
  reported (host_run plain_scene false) =
  Some (@result_succeeded plain_pkgexec shell_name (Some [104; 105]) (Some [120])
          [g_cleanup_verified]).
Proof. vm_compute. reflexivity. Qed.

(** The three checks before [fork] and the supervision run [late_scene]. *)
Definition late_request_scene : scene :=
  mk_scene (reads late_scene) (exits late_scene) ([false; false; false] ++ requests late_scene)
    (entries late_scene) false 0 1000000.

(** A program that ran to its end and exited with status 0, observed before any signal was
    sent, is reported as cancelled. *)
Example natural_exit_reported_cancelled :
  reported (host_run late_request_scene true) =
  Some (@result_cancelled_after_start plain_pkgexec shell_name (Some []) (Some [])
          [g_cleanup_verified] cleanup_outcome_verified
          "cancellation completed during the graceful period").
Proof. vm_compute. reflexivity. Qed.

Lemma host_run_returns :
  ∃ s', @execute_backend _ backend_kernel plain_libc plain_pkgexec plain_supports 20 20 20 host_report
      [shell] host_request host_resources false false (Script.start (0%nat, plain_scene)) =
    (Done (@result_succeeded plain_pkgexec shell_name (Some [104; 105]) (Some [120])
             [g_cleanup_verified]), s').
Proof. eexists. vm_compute. reflexivity. Qed.

Lemma results_attested_witness :
  ∃ configured st cleaned,
    @attests plain_pkgexec host_request false configured st cleaned
      (@result_succeeded plain_pkgexec shell_name (Some [104; 105]) (Some [120])
         [g_cleanup_verified]).
Proof.
  destruct host_run_returns as [s' R].
  destruct (@results_attested _ backend_kernel plain_libc plain_pkgexec plain_supports 20 20 20
    host_report [shell] host_request host_resources false false _ _ _ R)
    as (evs & _ & [[]|(configured & child & pidfd & st & loop & cleaned & _ & _ & _ & _ & H)]).
  exists configured, st, cleaned. exact H.
Defined.

Lemma host_run_opens_streams :
  ∃ s', @execute_backend _ backend_kernel plain_libc plain_pkgexec plain_supports 20 20 20 host_report
      [shell] host_request host_resources false false (Script.start (0%nat, plain_scene)) =
    (Done (@result_succeeded plain_pkgexec shell_name (Some [104; 105]) (Some [120])
             [g_cleanup_verified]), s') ∧ Forall stream_opened (trace s').
Proof.
  eexists. split; [vm_compute; reflexivity|]. apply (bool_decide_unpack _). vm_compute. exact I.
Qed.

Lemma execution_releases_descriptors_witness :
  ∃ s' r evs, @execute_backend _ backend_kernel plain_libc plain_pkgexec plain_supports 20 20 20
      host_report [shell] host_request host_resources false false (Script.start (0%nat, plain_scene)) =
    (Done r, s') ∧ trace s' = evs ++ [] ∧ ∀ x, balance x evs = 0.
Proof.
  destruct host_run_opens_streams as (s' & R & S).
  destruct (@execution_releases_descriptors _ backend_kernel plain_libc plain_pkgexec plain_supports
    20 20 20 host_report [shell] host_request host_resources false false
    (Script.start (0%nat, plain_scene))) as (evs & E & H).
  revert E H. rewrite R. cbn [fst snd]. intros E H. eexists _, _, evs.
  split; [reflexivity|]. split; [exact E|]. apply H. rewrite E in S. by apply Forall_app in S as [? _].
Defined.

#[export] Instance plain_guarantee_laws : @GuaranteeLaws plain_pkgexec.
Proof.
  constructor; simpl.
  - intros a. apply N.ltb_irrefl.
  - intros a b c. rewrite !N.ltb_lt. lia.
  - intros a b Hne. rewrite !N.ltb_lt. assert (guarantee_index a ≠ guarantee_index b); [|lia].
    intros E. apply Hne. destruct a, b; simpl in E; try done; try lia. f_equal. lia.
Qed.

Definition networked_request : @execution_request plain_pkgexec :=
  @mk_request plain_pkgexec "true" shell_name [] (mk_binding build_workspace writable "/work" "w")
    host_environment (mk_credentials 0 0 [] true) (mk_limits None None None true) None
    [g_cleanup_verified; g_network_denied].

Lemma unsupported_refused_witness :
  @execute_backend _ backend_kernel plain_libc plain_pkgexec plain_supports 20 20 20 host_report
    [shell] networked_request host_resources false false (Script.start (0%nat, plain_scene)) =
  (Done (@result_failed_before_start plain_pkgexec backend_unsupported []
           "Linux backend cannot establish required guarantees: 14"),
   Script.start (0%nat, plain_scene)).
Proof.
  apply (@unsupported_refused plain_pkgexec plain_guarantee_laws _ backend_kernel plain_libc
    plain_supports 20 20 20 host_report [shell] networked_request host_resources false false
    (Script.start (0%nat, plain_scene))).
  - vm_compute. reflexivity.
  - repeat constructor.
Defined.
