(* ===== verification/Conclusion.v ===== *)
(** * Every execution comes to an end

    [execute_backend] under a fair kernel (Progress): neither the process that supervises
    nor the one that [fork] created waits for ever. The first returns a result or throws;
    the second never does, it leaves through [_exit] or by executing the interpreter.
    [finishes n m] says so of a part of the supervisor, [departs n m] of a part of the
    child, [lasts] (Progress) of what returns in either. *)

From S2P Require Import Prelude Machine Linux Logic Posix Script Pkgexec Records Paths Support.
From S2P Require Import Interpreter Yields Ownership Admission Realization Network Capability Child.
From S2P Require Import Containment ResourceLimits ProcFs ProcessControl Supervisor Progress Termination.
From S2P Require Import Backend BackendOwnership BackendFacts.
Local Open Scope string_scope.
Local Open Scope list_scope.
Local Open Scope Z_scope.

Section rules.
Context {W : Type} `{K : Kernel W} {scan : nat} `{F : !Fair W scan}.

(** Between [s] and [s'] the process became the child of a [fork]. *)
Definition parted (s s' : mstate W) : Prop :=
  ∃ evs, trace s' = evs ++ trace s ∧ Exists (λ ev, birth ev = true) evs.

(** The codes with which a child leaves. *)
Definition child_code (code : Z) : Prop := code = 125 ∨ code = 127 ∨ code = EXECUTED.

Definition finish_at {A} (m : M W A) (s : mstate W) : Prop :=
  wp m (λ o s', match o with
                | Done _ | Threw _ => evolves s s'
                | Exited code => child_code code ∧ parted s s'
                | OutOfFuel => False
                end) s.
Definition finishes {A} (n : nat) (m : M W A) : Prop :=
  ∀ s, (patience (world s) < n)%nat → finish_at m s.
Definition departs {A} (n : nat) (m : M W A) : Prop :=
  ∀ s, (patience (world s) < n)%nat →
    wp m (λ o s', match o with Exited code => child_code code ∧ after s s' | _ => False end) s.

Lemma evolves_parted s1 s2 s3 : evolves s1 s2 → parted s2 s3 → parted s1 s3.
Proof.
  intros (_ & _ & e1 & E1 & _) (e2 & E2 & H). exists (e2 ++ e1).
  rewrite E2, E1, app_assoc. split; [done|]. apply Exists_app. by left.
Qed.
Lemma evolves_after s s' : evolves s s' → after s s'.
Proof. intros (_ & _ & e & E & _). by exists e. Qed.

(** What is known of a run that ends, and of one that finishes. *)
Lemma after_ends {A} (m : M W A) (Q : A → mstate W → Prop) (R : outcome A → mstate W → Prop) s :
  ends m Q s → (∀ a s', evolves s s' → Q a s' → R (Done a) s') → wp m R s.
Proof.
  unfold ends. intros H HR. eapply wp_mono; [exact H|]. intros [a|x|c|] s'; try done. intros []. auto.
Qed.
Lemma after_lasts {A} n (m : M W A) Q (R : outcome A → mstate W → Prop) s :
  lasts n Q m → (patience (world s) < n)%nat →
  (∀ a s', evolves s s' → Q s a s' → R (Done a) s') → wp m R s.
Proof. intros H Hp HR. eapply after_ends; [by apply H|done]. Qed.
Lemma after_finish {A} (m : M W A) (R : outcome A → mstate W → Prop) s :
  finish_at m s → (∀ a s', evolves s s' → R (Done a) s') → (∀ x s', evolves s s' → R (Threw x) s') →
  (∀ c s', child_code c → parted s s' → R (Exited c) s') → wp m R s.
Proof.
  unfold finish_at. intros H HD HT HE. eapply wp_mono; [exact H|]. intros [a|x|c|] s'; try done; auto.
  intros []. auto.
Qed.

Lemma finish_mono {A} (m : M W A) s s' :
  evolves s s' → finish_at m s' →
  wp m (λ o s'', match o with
                 | Done _ | Threw _ => evolves s s''
                 | Exited code => child_code code ∧ parted s s''
                 | OutOfFuel => False
                 end) s'.
Proof.
  intros He H. apply (after_finish _ _ _ H); intros; [by etrans..|]. split; [done|].
  by eapply evolves_parted.
Qed.

Lemma finish_ends {A B} (m : M W A) (Q : A → mstate W → Prop) (k : A → M W B) s :
  ends m Q s → (∀ a s', evolves s s' → Q a s' → finish_at (k a) s') → finish_at (m ≫= k) s.
Proof.
  intros Hm Hk. apply wp_bind, (after_ends _ _ _ _ Hm). intros a s' He Hq. apply finish_mono; auto.
Qed.

Lemma finishes_lasts {A} n Q (m : M W A) : lasts n Q m → finishes n m.
Proof. intros H s Hp. by apply (after_lasts _ _ _ _ _ H). Qed.
Lemma finishes_ret {A} n (a : A) : finishes n (mret a).
Proof. intros s _. apply wp_ret. done. Qed.
Lemma finishes_throw {A} n x : finishes n (throw x : M W A).
Proof. intros s _. unfold finish_at, wp, throw. simpl. done. Qed.
Lemma finishes_fail {A} n code text : finishes n (fail code text : M W A).
Proof. apply finishes_throw. Qed.

(** What remains after the state has evolved. *)
Lemma finishes_later {A} n (m : M W A) s s' :
  finishes n m → (patience (world s) < n)%nat → evolves s s' → finish_at m s'.
Proof. intros H Hp [He _]. apply H. lia. Qed.

Lemma finishes_bind {A B} n (m : M W A) (k : A → M W B) :
  finishes n m → (∀ a, finishes n (k a)) → finishes n (m ≫= k).
Proof.
  intros Hm Hk s Hp. apply wp_bind, (after_finish _ _ _ (Hm s Hp)); [|done..].
  intros a s' He. apply finish_mono; [done|]. by eapply finishes_later.
Qed.
Lemma finishes_finally {A} n (m : M W A) c : finishes n m → finishes n c → finishes n (finally m c).
Proof.
  intros Hm Hc s Hp. apply wp_finally, (after_finish _ _ _ (Hm s Hp)); [intros a|intros x|done];
    intros s' He; apply finish_mono; try done; (eapply finishes_later; [|exact Hp|exact He]); (apply finishes_bind; [done|intros]);
    [apply finishes_ret|apply finishes_throw].
Qed.
Lemma finishes_on_throw {A} n (m : M W A) c : finishes n m → finishes n c → finishes n (on_throw m c).
Proof.
  intros Hm Hc s Hp. apply wp_on_throw, (after_finish _ _ _ (Hm s Hp)); [done| |done].
  intros x s' He. apply finish_mono; [done|].
  eapply finishes_later; [|exact Hp|exact He]. apply finishes_bind; [done|]. intros. apply finishes_throw.
Qed.
Lemma finishes_catch {A} n (m : M W A) h :
  finishes n m → (∀ x, finishes n (h x)) → finishes n (catch m h).
Proof.
  intros Hm Hh s Hp. apply wp_catch, (after_finish _ _ _ (Hm s Hp)); [done| |done].
  intros x s' He. apply finish_mono; [done|]. by eapply finishes_later.
Qed.
Lemma finishes_with_fd {A} n acquire (body : Z → M W A) :
  finishes n acquire → (∀ fd, finishes n (body fd)) → (∀ fd, finishes n (fd_destroy (W := W) fd)) →
  finishes n (with_fd acquire body).
Proof. intros Ha Hb Hd. apply finishes_bind; [done|]. intros fd. by apply finishes_finally. Qed.
Lemma finishes_tried {A} n (m : M W A) : finishes n m → finishes n (tried m).
Proof.
  intros H. apply finishes_catch; [apply finishes_bind; [done|]|]; intros; apply finishes_ret.
Qed.
Lemma finishes_scoped {A X} n (body : M W (A * X)) owners destroy :
  finishes n body → (∀ x, finishes n (destroy x)) → finishes n (scoped body owners destroy).
Proof.
  intros Hb Hd s Hp. specialize (Hb s Hp). unfold finish_at, wp, scoped in *.
  destruct (body s) as [[[a last]|x|c|] s']; try done; cbn [fst snd] in *; apply (finish_mono _ s s'); try done;
    (eapply finishes_later; [|exact Hp|exact Hb]); (apply finishes_bind; [apply Hd|intros]);
    [apply finishes_ret|apply finishes_throw].
Qed.

(** The child. *)
Lemma departs_bind {A B} n (m : M W A) (k : A → M W B) :
  lasts n whatever m → (∀ a, departs n (k a)) → departs n (m ≫= k).
Proof.
  intros Hm Hk s Hp. apply wp_bind, (after_lasts _ _ _ _ _ Hm Hp). intros a s' He _.
  eapply wp_mono; [apply Hk|].
  - destruct He. lia.
  - intros [b|x|c|] s''; try done. intros [Hc A']. split; [done|].
    eapply after_trans; [by apply evolves_after|done].
Qed.
Lemma departs_exit {A} n code : child_code code → departs n (@exit_process W A code).
Proof. intros H s _. apply wp_exit. split; [done|apply after_refl]. Qed.

(** Scopes of what returns. *)
Lemma lasts_finally {A} n (m : M W A) c :
  lasts n whatever m → lasts n whatever c → lasts n whatever (finally m c).
Proof.
  intros Hm Hc s Hp. apply wp_finally, (after_lasts _ _ _ _ _ Hm Hp). intros a s' He _.
  assert (patience (world s') < n)%nat as Hp' by (destruct He; lia).
  apply wp_bind, (after_lasts _ _ _ _ _ Hc Hp'). intros [] s'' He' _. apply wp_ret.
  split; [by etrans|done].
Qed.
Lemma lasts_reset n fd next : lasts n whatever (fd_reset (W := W) fd next).
Proof. eapply lasts_whatever, lasts_fd_reset. Qed.
Lemma lasts_fd_destroy n fd : lasts n whatever (fd_destroy (W := W) fd).
Proof.
  unfold fd_destroy. apply lasts_then; [apply lasts_reset|]. intros. by apply lasts_ret.
Qed.
Lemma lasts_fds_destroy n fds : lasts n whatever (fds_destroy (W := W) fds).
Proof.
  induction fds; simpl; [by apply lasts_ret|]. apply lasts_then; [apply lasts_fd_destroy|done].
Qed.
Lemma lasts_with_fd {A} n acquire (body : Z → M W A) :
  lasts n whatever acquire → (∀ fd, lasts n whatever (body fd)) →
  lasts n whatever (with_fd acquire body).
Proof.
  intros Ha Hb. apply lasts_then; [done|]. intros fd. apply lasts_finally; [done|apply lasts_fd_destroy].
Qed.
Lemma finishes_fail_errno `{Libc} {A} n code op : finishes n (fail_errno code op : M W A).
Proof.
  apply finishes_bind; [eapply finishes_lasts, lasts_get_errno|]. intros. apply finishes_fail.
Qed.

End rules.

#[export] Hint Resolve lasts_reset lasts_fd_destroy lasts_fds_destroy : lasts.
Ltac lasts_scopes := repeat first [lasts_step | apply lasts_with_fd; [|intros] | apply lasts_finally].
Create HintDb finishes.
#[export] Hint Resolve finishes_ret finishes_throw finishes_fail finishes_fail_errno : finishes.

(** Follow the code of the supervisor, and that of the child. *)
Ltac finishes_step :=
  match goal with
  | |- finishes _ (match ?x with _ => _ end) => destruct x eqn:?
  | |- finishes _ _ => solve [auto with finishes]
  | |- finishes _ _ => solve [eapply finishes_lasts; auto with lasts]
  | |- finishes _ (with_fd _ _) => apply finishes_with_fd; [|intros|intros]
  | |- finishes _ (finally _ _) => apply finishes_finally
  | |- finishes _ (on_throw _ _) => apply finishes_on_throw
  | |- finishes _ (catch _ _) => apply finishes_catch; [|intros]
  | |- finishes _ (tried _) => apply finishes_tried
  | |- finishes _ (scoped _ _ _) => apply finishes_scoped; [|intros]
  | |- finishes _ (_ ≫= _) => apply finishes_bind; [|intros]
  end.
Ltac finishes_auto := repeat finishes_step.
Ltac departs_step :=
  match goal with
  | |- departs _ (match ?x with _ => _ end) => destruct x eqn:?
  | |- departs _ (exit_process _) => apply departs_exit; unfold child_code; auto
  | |- departs _ (_ ≫= _) => apply departs_bind; [|intros]
  | |- lasts _ _ _ => progress lasts_scopes
  end.
Ltac departs_auto := repeat departs_step.

(** ** The child *)

Section child.
Context {W : Type} `{K : Kernel W} {scan : nat} `{F : !Fair W scan}.

Lemma lasts_write_record n fd bytes : lasts n whatever (write_record n fd bytes).
Proof.
  revert bytes. induction n as [|n IH]; intros [|b bytes] s Hp; try lia; cbn [write_record];
    try by apply ends_ret.
  apply ends_bind, wp_attempt; intros r w E; (split; [by apply push_evolves|]).
  - destruct (Z.ltb_spec 0 r); [|by apply ends_ret].
    destruct (Z.ltb_spec r (Z.of_nat (length (b :: bytes)))) as [Hl|Hl].
    + eapply ends_mono; [eapply ends_again; [apply IH|exact Hp|by apply push_evolves|]|done].
      eapply push_fewer; [exact E|]. cbn [hold_ups]. apply Z.ltb_lt in Hl as ->.
      by rewrite (proj2 (Z.ltb_lt 0 r)).
    + rewrite drop_ge by lia. destruct n; by apply ends_ret.
  - apply ends_bind, wp_get_errno. split; [done|]. simpl. destruct (r =? EINTR) eqn:Er; [|by apply ends_ret].
    eapply ends_mono; [eapply ends_again; [apply IH|exact Hp|by apply push_evolves|]|done].
    eapply push_fewer; [exact E|]. simpl. by rewrite Er.
Qed.

(** Requests and answers of netlink: each message received costs patience. *)
Lemma lasts_send_netlink n fd message : lasts n whatever (send_netlink n fd message).
Proof.
  induction n as [|n IH]; intros s Hp; [lia|]. cbn [send_netlink].
  apply ends_bind, wp_attempt; intros r w E; (split; [by apply push_evolves|]).
  - destruct (r =? _); [by apply ends_ret|].
    apply ends_bind, wp_set_errno. split; [apply errno_evolves|]. by apply ends_ret.
  - apply ends_bind, wp_get_errno. split; [done|]. simpl. destruct (r =? EINTR) eqn:Er; [|by apply ends_ret].
    eapply ends_mono; [eapply ends_again; [apply IH|exact Hp|by apply push_evolves|]|done].
    eapply push_fewer; [exact E|]. simpl. by rewrite Er.
Qed.

Lemma lasts_conclude n v : lasts n whatever (conclude v).
Proof. unfold conclude. by lasts_auto. Qed.

Lemma message_costs fd size flags r w s :
  kernel_run (sys_recv fd size flags) (world s) = (r, w) →
  (match r with Ok [] => false | Ok _ => true | Err e => e =? EINTR end) = true →
  ∀ e, evolves s (push w e (sys_recv fd size flags) r s) ∧ fewer s (push w e (sys_recv fd size flags) r s).
Proof.
  intros E H e. split; [by apply push_evolves|]. eapply push_fewer; [exact E|].
  destruct r as [[|]|x]; simpl in *; try done. unfold to_repeat. by rewrite H.
Qed.

(** What ends whatever the patience. *)
Lemma ends_always {A} (m : M W A) s0 s : (∀ n, lasts n whatever m) → ends m (whatever s0) s.
Proof. intros H. pose proof (H (S (patience (world s))) s ltac:(lia)) as He. exact He. Qed.

Lemma walks_defined sequence buffer snapshot :
  Z.of_nat (length buffer) ≤ 16384 →
  defined (ack_walk sequence buffer) ∧ defined (link_walk sequence buffer snapshot).
Proof.
  intros H. split; apply walk_safe; try lia; [apply ack_message_safe|apply link_message_safe].
Qed.

Lemma lasts_receive_ack n fd sequence : lasts n whatever (receive_ack n fd sequence).
Proof.
  induction n as [|n IH]; intros s Hp; [lia|]. cbn [receive_ack].
  apply ends_bind, wp_attempt; intros r w E; (split; [by apply push_evolves|]).
  - pose proof (message_costs _ _ _ _ _ _ E) as Hc. pose proof (message_fits _ _ _ _ _ _ E) as Hfit.
    destruct r as [|b buffer]; [apply ends_always; intros; by lasts_auto|].
    destruct (walks_defined sequence (b :: buffer) empty_snapshot) as [Hd _]; [lia|].
    destruct (ack_walk _ _); try done; [|apply ends_always; intros; apply lasts_conclude].
    destruct (Hc eq_refl (errno s)). eapply ends_mono; [by eapply ends_again|done].
  - apply ends_bind, wp_get_errno. split; [done|]. simpl. destruct (r =? EINTR) eqn:Er; [|by apply ends_ret].
    destruct (message_costs _ _ _ _ _ _ E Er r). eapply ends_mono; [by eapply ends_again|done].
Qed.

Lemma lasts_collect_links n fd sequence snapshot :
  lasts n whatever (collect_links n fd sequence snapshot).
Proof.
  revert snapshot. induction n as [|n IH]; intros snapshot s Hp; [lia|]. cbn [collect_links].
  apply ends_bind, wp_attempt; intros r w E; (split; [by apply push_evolves|]).
  - pose proof (message_costs _ _ _ _ _ _ E) as Hc. pose proof (message_fits _ _ _ _ _ _ E) as Hfit.
    destruct r as [|b buffer]; [apply ends_always; intros; by lasts_auto|].
    destruct (walks_defined sequence (b :: buffer) snapshot) as [_ Hd]; [lia|].
    destruct (link_walk _ _ _) as [|[v final]| |]; try done.
    + destruct (Hc eq_refl (errno s)). eapply ends_mono; [by eapply ends_again|done].
    + apply ends_always. intros. unfold conclude. by lasts_auto.
  - apply ends_bind, wp_get_errno. split; [done|]. simpl. destruct (r =? EINTR) eqn:Er; [|by apply ends_ret].
    destruct (message_costs _ _ _ _ _ _ E Er r). eapply ends_mono; [by eapply ends_again|done].
Qed.

#[local] Hint Resolve lasts_send_netlink lasts_collect_links lasts_receive_ack : lasts.
Lemma lasts_network n policy : lasts n whatever (setup_network_policy n policy).
Proof.
  unfold setup_network_policy, open_route_socket, network_fail, inspect_links, set_link_up.
  by lasts_scopes.
Qed.
#[local] Hint Resolve lasts_network lasts_write_record : lasts.

(** The private root: no loop waits, every scope is left. *)
Lemma lasts_require n test stage next :
  lasts n whatever test → lasts n whatever next → lasts n whatever (require (W := W) test stage next).
Proof. intros. unfold require, mount_fail. by lasts_auto. Qed.
Lemma lasts_then_ n part next :
  lasts n whatever part → lasts n whatever next → lasts n whatever (then_ (W := W) part next).
Proof. intros. unfold then_. by lasts_auto. Qed.

Ltac lasts_mounts := repeat first
  [ lasts_step | apply lasts_require | apply lasts_then_ | apply lasts_with_fd; [|intros]
  | apply lasts_finally ].

Lemma lasts_realize_bindings n bs acc : lasts n whatever (realize_bindings (W := W) bs acc).
Proof.
  revert acc. induction bs as [|b bs IH]; intros acc; cbn [realize_bindings];
    unfold clone_tree, seal_tree; lasts_mounts; apply IH.
Qed.
Lemma lasts_make_children n path names : lasts n whatever (make_children (W := W) path names).
Proof. induction names; simpl; by lasts_mounts. Qed.
#[local] Hint Resolve lasts_realize_bindings lasts_make_children : lasts.
Lemma lasts_namespaces n fd path spaces :
  lasts n whatever (realize_namespaces (W := W) fd path spaces).
Proof.
  induction spaces as [|ns spaces IH]; cbn [realize_namespaces]; unfold open_beneath, same_inode, identity_of;
    by lasts_mounts.
Qed.
Lemma lasts_attach n fd trees bs : lasts n whatever (attach_bindings (W := W) fd trees bs).
Proof.
  revert trees. induction bs as [|b bs IH]; intros [|t trees]; cbn [attach_bindings];
    unfold attach_binding, open_beneath, attach_tree, mount_fail, same_inode; lasts_mounts; apply IH.
Qed.
Lemma lasts_seal_namespaces n fd spaces : lasts n whatever (seal_namespaces (W := W) fd spaces).
Proof.
  induction spaces as [|ns spaces IH]; cbn [seal_namespaces];
    unfold open_beneath, mount_fail, seal_namespace_mount; by lasts_mounts.
Qed.
#[local] Hint Resolve lasts_namespaces lasts_attach lasts_seal_namespaces : lasts.
Lemma lasts_private_root n a : lasts n whatever (create_private_root (W := W) a).
Proof.
  unfold create_private_root, clone_tree, seal_tree, mount_fail, realize_in_namespace,
    mkdir_or_exists, open_exact_path, attach_tree, realize_devices, enter_root.
  by lasts_mounts.
Qed.
#[local] Hint Resolve lasts_private_root : lasts.

Lemma lasts_close_each n count fd a b : lasts n whatever (close_each (W := W) count fd a b).
Proof. revert fd. induction count as [|count IH]; intros fd; simpl; by lasts_auto. Qed.
Lemma lasts_close_fds_except n a b : lasts n whatever (close_fds_except (W := W) a b).
Proof.
  unfold close_fds_except. destruct (if _ <? _ then _ else _) as [x y].
  pose proof lasts_close_each. by lasts_auto.
Qed.
Lemma lasts_limits n limits : lasts n whatever (setup_resource_limits (W := W) limits).
Proof.
  unfold setup_resource_limits, setup_requested, setup_one, exact_value, limit_fail. by lasts_auto.
Qed.
#[local] Hint Resolve lasts_close_fds_except lasts_limits : lasts.

(** The process in which [fork] returned 0 leaves with one of its codes. *)
Lemma departs_child {A} n cfg ps : departs n (@child_branch W K A n cfg ps).
Proof.
  unfold child_branch, child_main, confine_child, execute_interpreter, give_up_errno, give_up_child,
    report_child_error, setup_input, redirect, setup_isolation, setup_isolated_filesystem,
    drop_process_capabilities, install_process_group_containment, announce_ready, await_start.
  by departs_auto.
Qed.

End child.

(** ** The supervisor *)

Section supervisor.
Context {W : Type} `{K : Kernel W} `{Lc : Libc} `{P : Pkgexec} `{Sp : !Supports}.
Context {scan : nat} `{F : !Fair W scan}.
Variables (fuel : nat) (scan_fits : (scan ≤ fuel)%nat).

Lemma finish_bind {A B} (m : M W A) (k : A → M W B) s :
  finish_at m s → (∀ a s', evolves s s' → finish_at (k a) s') → finish_at (m ≫= k) s.
Proof.
  intros Hm Hk. apply wp_bind, (after_finish _ _ _ Hm); [|done..]. intros a s' He.
  apply finish_mono; auto.
Qed.

(** After a call: what is known of its answer. *)
Lemma finish_call {A B} (c : call (res A)) (k : option A → M W B) s :
  ordinary c →
  (∀ r w e, kernel_run c (world s) = (r, w) → (∀ x, r = Err x → e = x) →
     evolves s (push w e c r s) →
     finish_at (k (match r with Ok a => Some a | Err _ => None end)) (push w e c r s)) →
  finish_at (attempt c ≫= k) s.
Proof.
  intros Hc Hk. apply wp_bind, wp_attempt; intros a w E.
  - pose proof (push_evolves c (Ok a) w (errno s) s E (Hc _)) as He.
    apply finish_mono; [done|]. by apply (Hk (Ok a)).
  - pose proof (push_evolves c (Err a) w a s E (Hc _)) as He.
    apply finish_mono; [done|]. apply (Hk (Err a)); [done| |done]. by intros x [= ->].
Qed.

(** A loop entered again after an answer that cost patience. *)
Lemma finish_again {A} n (m : M W A) s s' :
  finishes n m → (patience (world s) < S n)%nat → fewer s s' → finish_at m s'.
Proof. intros H Hp Hf. apply H. unfold fewer in Hf. lia. Qed.

Lemma finishes_update n bytes : finishes n (update (W := W) bytes).
Proof. unfold update. by finishes_auto. Qed.

Lemma finishes_digest_loop n fd offset : finishes n (digest_loop n fd offset).
Proof.
  revert offset. induction n as [|n IH]; intros offset s Hp; [lia|]. cbn [digest_loop].
  apply finish_call; [done|]. intros r w e E Hx He. destruct r as [[|b bytes]|x].
  - by apply (finishes_later (S n) _ s); [apply finishes_ret|..].
  - assert (fewer s (push w e (sys_pread fd (64 * 1024) offset) (Ok (b :: bytes)) s)) as Hf
      by (by apply push_fewer).
    apply finish_bind; [by eapply finish_again; [apply finishes_update|..]|].
    intros [] s' He'. eapply finish_again; [apply IH|exact Hp|]. by eapply fewer_evolves.
  - specialize (Hx x eq_refl) as ->. apply (finish_ends _ (λ a s', a = x ∧ s' = push w x
      (sys_pread fd (64 * 1024) offset) (Err x) s)); [by apply wp_get_errno|].
    intros a s' _ [-> ->]. destruct (x =? EINTR) eqn:Ex.
    + eapply finish_again; [apply IH|exact Hp|]. apply push_fewer; [done|]. simpl. unfold to_repeat.
      by rewrite Ex.
    + by apply (finishes_later (S n) _ s); [apply finishes_fail_errno|..].
Qed.
#[local] Hint Resolve finishes_update finishes_digest_loop : finishes.

Lemma finishes_check_interpreter fd configured : finishes fuel (check_interpreter fuel fd configured).
Proof.
  unfold check_interpreter, digest_fd, interpreter_identity_of, sha256_hex, digest_begin, digest_end.
  by finishes_auto.
Qed.

(** A directory is read to its end. *)
Lemma only_dots_ends n d s : (unread (world s) d < n)%nat → ends (only_dots n d) (λ _ _, True) s.
Proof.
  revert s. induction n as [|n IH]; intros s Hd; [lia|]. cbn [only_dots].
  apply ends_bind, wp_attempt; intros r w E; (split; [by apply push_evolves|]); [|by apply ends_ret].
  destruct r as [name|]; [|by apply ends_ret]. destruct (_ && _); [by apply ends_ret|].
  pose proof (entry_read _ _ _ _ E).
  apply ends_bind, wp_set_errno. split; [apply errno_evolves|]. apply IH. simpl. lia.
Qed.

Lemma finishes_directory_is_empty n fd : finishes n (directory_is_empty fuel fd).
Proof.
  unfold directory_is_empty. apply finishes_bind; [by finishes_auto|]. intros readable.
  destruct (negb _); [by finishes_auto|].
  apply finishes_bind; [unfold identity_of, same_inode; by finishes_auto|]. intros [] s Hp.
  apply finish_call; [done|]. intros r w e E _ He. destruct r as [d|x].
  2:{ apply (finishes_later n _ s); [by finishes_auto|done..]. }
  pose proof (stream_bounded _ _ _ _ E) as Hb.
  apply (finish_ends _ (λ _ s', unread (world s') d < fuel)%nat).
  { apply wp_set_errno. split; [apply errno_evolves|]. simpl. lia. }
  intros [] s1 He1 Hd. apply (finish_ends _ (λ _ _, True)); [by apply only_dots_ends|].
  intros empty s2 He2 _.
  apply (finishes_later n _ s); [by finishes_auto|done|]. do 2 (etrans; [done|]). done.
Qed.
#[local] Hint Resolve finishes_check_interpreter finishes_directory_is_empty : finishes.

Lemma finishes_identity_of n fd : finishes n (identity_of (W := W) fd).
Proof. unfold identity_of. by finishes_auto. Qed.
#[local] Hint Resolve finishes_identity_of : finishes.

Lemma finishes_admit_binding n resources root_path root st b :
  finishes n (admit_binding fuel resources root_path root st b).
Proof.
  unfold admit_binding, validate_role_access, check_logical, check_host, open_exact_path, admit_source,
    writable_by_current_credentials, admit_destination, open_beneath.
  by finishes_auto.
Qed.

Lemma finishes_admit_bindings n resources root_path root st bs :
  finishes n (admit_bindings fuel resources root_path root st bs).
Proof.
  pose proof finishes_admit_binding.
  revert st. induction bs as [|b bs IH]; intros st; cbn [admit_bindings]; by finishes_auto.
Qed.
#[local] Hint Resolve finishes_admit_bindings : finishes.

Lemma finishes_admit_resources n request resources :
  finishes n (admit_isolated_resources fuel request resources).
Proof. unfold admit_isolated_resources, open_exact_path, make_scratch. by finishes_auto. Qed.

Lemma lasts_symlink n current components :
  lasts n whatever (symlink_component (W := W) current components).
Proof. revert current. induction components; intros current; simpl; by lasts_auto. Qed.

Lemma finishes_validate_bindings n resources bs :
  finishes n (validate_host_bindings (W := W) resources bs).
Proof.
  pose proof lasts_symlink.
  induction bs as [|b bs IH]; cbn [validate_host_bindings]; unfold path_has_symlink_component;
    by finishes_auto.
Qed.
#[local] Hint Resolve finishes_admit_resources finishes_validate_bindings : finishes.

Lemma finishes_admit n isolated request resources :
  finishes n (admit_request fuel isolated request resources).
Proof.
  unfold admit_request, validate_isolated_request_shape, validate_host_request_shape,
    foreign_credentials, current_groups.
  by finishes_auto.
Qed.

(** ** From the pipes to the result *)

Lemma lasts_clean_mounts n isolation : lasts n whatever (clean_mounts (W := W) isolation).
Proof. unfold clean_mounts, verify_parent_cleanup. by lasts_auto. Qed.
Lemma lasts_isolation_destroy n isolation : lasts n whatever (isolation_destroy (W := W) isolation).
Proof.
  unfold isolation_destroy, admission_destroy, cleanup_best_effort, verify_parent_cleanup. by lasts_auto.
Qed.
Lemma finishes_open_pipes n : finishes n (open_pipes (W := W)).
Proof. unfold open_pipes, make_pipe, set_nonblocking. by finishes_auto. Qed.
#[local] Hint Resolve lasts_clean_mounts lasts_isolation_destroy : lasts.
#[local] Hint Resolve finishes_open_pipes finishes_admit : finishes.

Variables (turns patient : nat) (request : execution_request) (token : bool).
Variable patient_fits : (patient ≤ fuel)%nat.
Variable enough_turns : (11 * (patient + Z.to_nat (longest_wait (loop_context fuel scan request token 0 0)) + 1)
  ≤ turns + 11)%nat.

Context `{Wt : !Waitable W}.

Lemma finishes_supervise child pidfd ps :
  finishes patient (supervise (loop_context fuel scan request token child pidfd) turns (first_state ps)).
Proof.
  intros s Hp. set (ctx := loop_context fuel scan request token child pidfd).
  change (longest_wait (loop_context fuel scan request token 0 0)) with (longest_wait ctx) in *.
  assert (Hp' : (@patience W K (scan_fuel ctx) F (world s) < patient)%nat) by exact Hp.
  eapply after_ends; [apply (initial_ends ctx (Wt := Wt)); [change (loop_fuel ctx) with fuel; lia|]|done]. lia.
Qed.

Lemma finishes_retry_wait child : finishes patient (retry_eintr fuel (sys_waitpid child)).
Proof. intros s Hp. apply (finishes_lasts fuel whatever); [by apply lasts_retry|lia]. Qed.
#[local] Hint Resolve finishes_supervise finishes_retry_wait : finishes.

Lemma finishes_parent isolation configured ps fd child :
  finishes patient (parent_branch fuel scan turns request token isolation configured ps fd child).
Proof. unfold parent_branch, abandon_child, open_pidfd. by finishes_auto. Qed.
#[local] Hint Resolve finishes_parent : finishes.

(** [fork]: the new process parts, the old one goes on. *)
Lemma finishes_start isolated resources isolation configured fd :
  finishes patient (start_execution fuel scan turns isolated request resources token isolation configured fd).
Proof.
  unfold start_execution. apply finishes_bind; [by finishes_auto|]. intros [[x|] ps]; [by finishes_auto|].
  destruct (if isolated then _ else _) as [x|directory]; [by finishes_auto|]. intros s Hp.
  apply wp_bind, wp_attempt; intros c w E.
  - pose proof (patience_spent _ _ _ _ _ E) as Hw. destruct (Z.eqb_spec c 0) as [->|Hc].
    + eapply wp_mono; [apply (departs_child fuel)|]; [simpl in *; lia|].
      intros [a|x|d|] s'; try done. intros [Hd [evs Ev]]. split; [done|].
      exists (evs ++ [Event sys_fork (Ok 0)]). rewrite Ev, <- app_assoc. split; [done|].
      apply Exists_app. right. by left.
    + assert (evolves s (push w (errno s) sys_fork (Ok c) s)) as He.
      { apply push_evolves; [done|]. simpl. by apply Z.eqb_neq. }
      apply finish_mono; [done|]. by eapply finishes_later; [apply finishes_parent|..].
  - assert (evolves s (push w c sys_fork (Err c) s)) as He by (by apply push_evolves).
    apply finish_mono; [done|]. by eapply finishes_later; [finishes_auto|..].
Qed.
#[local] Hint Resolve finishes_start : finishes.

Lemma finishes_more {A} (m : M W A) : finishes fuel m → finishes patient m.
Proof. intros H s Hp. apply H. lia. Qed.

Lemma finishes_execute report interpreters resources isolated :
  finishes patient (execute_backend fuel scan turns report interpreters request resources isolated token).
Proof.
  pose proof (λ fd c, finishes_more _ (finishes_check_interpreter fd c)).
  unfold execute_backend, execute_admitted, execute_with_interpreter, cancellation_seen.
  by finishes_auto.
Qed.

End supervisor.

(** C5: Every execution comes to an end, in both of its processes, if the supervisor can
    wait for its child. Under a kernel that is fair (its interruptions, partial answers
    and "not yet" answers are finitely many, its clock moves with every poll, files,
    directories and netlink answers are finite), with fuel above its patience and turns
    for its longest deadline, and when [waitid] does not fail but for an interruption
    (the law [Waitable], which a supervisor that ignores SIGCHLD does not meet: the second
    half of [supervise_terminates] says that it then never ends), [execute_backend] never
    runs out of fuel, whatever is requested. The process that called it returns a result
    or throws; the process created by [fork] does neither, it leaves with 125, 127 or by
    executing the interpreter. *)
Theorem execution_concludes {W} `{Kernel W} `{Libc} `{Pkgexec} `{!Supports} fuel scan `{!Fair W scan}
    `{!Waitable W} turns report interpreters request resources isolated token (s : mstate W) :
  (patience (world s) < fuel)%nat → (scan ≤ fuel)%nat →
  (11 * (patience (world s) + Z.to_nat (longest_wait (loop_context fuel scan request token 0 0)) + 1)
    ≤ turns)%nat →
  ∃ o s' evs,
    execute_backend fuel scan turns report interpreters request resources isolated token s = (o, s') ∧
    trace s' = evs ++ trace s ∧
    match o with
    | Done _ | Threw _ => Forall (λ ev, birth ev = false) evs
    | Exited code =>
        (code = 125 ∨ code = 127 ∨ code = EXECUTED) ∧ Exists (λ ev, birth ev = true) evs
    | OutOfFuel => False
    end.
Proof.
  intros Hp Hs Ht.
  pose proof (finishes_execute fuel Hs turns (S (patience (world s))) request token ltac:(lia)
    ltac:(lia) report interpreters resources isolated s ltac:(lia)) as R.
  unfold finish_at, wp in R. destruct (execute_backend _ _ _ _ _ _ _ _ _ s) as [[r|x|c|] s'];
    [destruct R as (_ & _ & evs & E & B)|destruct R as (_ & _ & evs & E & B)
    |destruct R as (Hc & evs & E & B)|done]; eexists _, _, evs; by split_and!.
Qed.

(** The fair kernel of Termination with the calls made before and after [fork], which
    answers [forked]. *)
Definition steady_run (forked : Z) {R} (c : call R) (w : nat * Z) : R * (nat * Z) :=
  match c in call R return R * (nat * Z) with
  | sys_open _ _ => (Ok 10, w)
  | sys_fstat _ => (Ok (mk_stat S_IFREG 1 1), w)
  | sys_pread _ _ _ =>
      match w.1 with O => (Ok [], w) | S n => (Ok [0], (n, w.2)) end
  | ssl_digest_init | ssl_digest_update _ => (true, w)
  | ssl_digest_final => (Some (repeat 1 32), w)
  | sys_pipe2 _ => (Ok (3, 4), w)
  | sys_fcntl_getfl _ => (Ok 0, w)
  | sys_fcntl_setfl _ _ | sys_access _ _ => (Ok tt, w)
  | sys_getgroups_count => (Ok 0, w)
  | sys_fork => (Ok forked, w)
  | sys_setsid => (Ok 42, w)
  | c => patient_run c w
  end.
Definition steady_kernel (forked : Z) : Kernel (nat * Z) := {| kernel_run := @steady_run forked |}.

#[export] Instance steady_fair forked scan : @Fair (nat * Z) (steady_kernel forked) scan.
Proof.
  refine (@Build_Fair _ (steady_kernel forked) scan fst snd (λ _ _, 0%nat) _ _ _ _ _ _ _ _); simpl.
  - intros R c r [n t] w' E. destruct c, n; simpl in E; injection E as <- <-; simpl;
      rewrite ?Z.ltb_irrefl, ?andb_false_r; lia.
  - intros R c r [n t] w' E. destruct c, n; simpl in E; injection E as <- <-; simpl; lia.
  - intros now [n t] w' [= <- <-]. simpl. lia.
  - intros fds timeout r [n t] w' [= <- <-]. simpl. lia.
  - discriminate.
  - discriminate.
  - discriminate.
  - discriminate.
Defined.

#[export] Instance steady_waitable forked : @Waitable (nat * Z) (steady_kernel forked).
Proof. intros kind id flags e [[|n] t] w'; simpl; discriminate. Qed.

(** One request, in the process that called [fork] and in the one it created. *)
Definition concluded (forked : Z) : Prop :=
  ∃ turns o s' evs,
    @execute_backend _ (steady_kernel forked) plain_libc plain_pkgexec plain_supports 20 20 turns host_report
      [shell] host_request host_resources false true (MState (5%nat, 0) 0 []) = (o, s') ∧
    trace s' = evs ++ [] ∧
    match o with
    | Done _ | Threw _ => Forall (λ ev, birth ev = false) evs
    | Exited code =>
        (code = 125 ∨ code = 127 ∨ code = EXECUTED) ∧ Exists (λ ev, birth ev = true) evs
    | OutOfFuel => False
    end.

Lemma execution_concludes_witness : concluded 42 ∧ concluded 0.
Proof.
  split; eexists.
  - refine (@execution_concludes _ (steady_kernel 42) plain_libc plain_pkgexec plain_supports 20 20
      (steady_fair 42 20) (steady_waitable 42) _ host_report [shell] host_request host_resources false true
      (MState (5%nat, 0) 0 []) _ _ _); [|done|apply le_n].
    apply (bool_decide_unpack _). vm_compute. exact I.
  - refine (@execution_concludes _ (steady_kernel 0) plain_libc plain_pkgexec plain_supports 20 20
      (steady_fair 0 20) (steady_waitable 0) _ host_report [shell] host_request host_resources false true
      (MState (5%nat, 0) 0 []) _ _ _); [|done|apply le_n].
    apply (bool_decide_unpack _). vm_compute. exact I.
Defined.

(** The process created by [fork] has left, with the code of a failed setup. *)
Example born_leaves :
  (@execute_backend _ (steady_kernel 0) plain_libc plain_pkgexec plain_supports 20 20 20 host_report
    [shell] host_request host_resources false true (MState (5%nat, 0) 0 [])).1 = Exited 125.
Proof. vm_compute. reflexivity. Qed.
