(* ===== verification/Composition.v ===== *)
(** * From the request to the program

    What the two processes of an execution show together. [sanctioned] is the specification
    of a run that ends in the program: the calls of [execute_backend] before [fork] and
    those of the child after it, with the answers that allow the program to start; and what the child reports through the control pipe is what the
    supervisor makes a result of. *)

From S2P Require Import Prelude Machine Linux Logic Posix Script Pkgexec Records Paths Support.
From S2P Require Import Interpreter Yields Ownership Admission Realization Network Capability Child ChildFacts.
From S2P Require Import Bytes.
From S2P Require Import ProcFs ProcessControl Supervisor SupervisorRuns SupervisorFacts Lifecycle SupervisorClaims.
From S2P Require Import Backend BeforeFork BackendOwnership Origins BackendFacts.
Local Open Scope string_scope.
Local Open Scope list_scope.
Local Open Scope Z_scope.

(** ** The supervisor does not leave the process *)

Section supervisor.
Context {W : Type} `{K : Kernel W} `{Lc : Libc} `{P : Pkgexec} `{Sp : !Supports}.

Lemma returns_supervise ctx turns st : consistent ctx st → yields (λ _, True) (supervise (W := W) ctx turns st).
Proof.
  revert st. induction turns as [|turns IH]; intros st Hc; simpl;
    (destruct (finished st); [by apply yields_ret|]); [apply yields_fuel|].
  eapply yields_bind; [by apply life_step|]. intros st' [Hc' _]. by apply IH.
Qed.

Lemma returns_digest_loop fuel fd offset : yields (λ _, True) (digest_loop (W := W) fuel fd offset).
Proof.
  revert offset. induction fuel as [|n IH]; intros offset; simpl; unfold update; yields_auto; try done;
    apply IH.
Qed.
#[local] Hint Resolve returns_digest_loop : yields.
Lemma returns_check fuel fd configured : yields (λ _, True) (check_interpreter (W := W) fuel fd configured).
Proof.
  unfold check_interpreter, digest_fd, interpreter_identity_of, sha256_hex, digest_begin, digest_end, update.
  apply yields_catch; [|intros; by apply yields_ret]. by yields_auto.
Qed.

Lemma returns_open_pipes : yields (λ _, True) (open_pipes (W := W)).
Proof.
  assert (yields (λ _, True) (tried (make_pipe (W := W)))) as Hp.
  { apply yields_tried. unfold make_pipe. by yields_auto. }
  unfold open_pipes, set_nonblocking. yields_auto; try done; apply yields_tried;
    by yields_auto.
Qed.
Lemma returns_clean_mounts isolation : yields (λ _, True) (clean_mounts (W := W) isolation).
Proof. unfold clean_mounts, verify_parent_cleanup. by yields_auto. Qed.
Lemma returns_isolation_destroy isolation : yields (λ _, True) (isolation_destroy (W := W) isolation).
Proof.
  unfold isolation_destroy, admission_destroy, cleanup_best_effort, verify_parent_cleanup.
  by yields_auto.
Qed.
Lemma returns_cancellation_seen token : yields (λ _, True) (cancellation_seen (W := W) token).
Proof. unfold cancellation_seen. by yields_auto. Qed.
#[local] Hint Resolve returns_clean_mounts returns_isolation_destroy returns_check returns_open_pipes
  returns_cancellation_seen yields_fd_reset : yields.

Lemma returns_parent fuel scan turns request token isolation configured ps fd child :
  yields (λ _, True) (parent_branch (W := W) fuel scan turns request token isolation configured ps fd child).
Proof.
  unfold parent_branch, abandon_child, open_pidfd. yields_auto; try done.
  apply returns_supervise, consistent_initial.
Qed.

(** ** The process that executes the program *)

Lemma wp_pass {A B} (R : A → Prop) code Q (m : M W A) (k : A → M W B) s :
  yields R m → (∀ a s', m s = (Done a, s') → R a → wp (k a) (only_if_left code Q) s') →
  wp (m ≫= k) (only_if_left code Q) s.
Proof.
  intros Hy Hk. specialize (Hy s). apply wp_bind_run.
  - intros a s' E. apply Hk; [done|]. by rewrite E in Hy.
  - intros o s' E Hd Ho. rewrite E in Hy. by destruct o.
Qed.
Lemma wp_returns {A} code Q (m : M W A) s : yields (λ _, True) m → wp m (only_if_left code Q) s.
Proof. intros H Ho. specialize (H s). by rewrite Ho in H. Qed.
Lemma wp_scoped {A X} Q (body : M W (A * X)) owners destroy s :
  (∀ x, yields (λ _, True) (destroy x)) → wp body (only_if_left EXECUTED Q) s →
  wp (scoped body owners destroy) (only_if_left EXECUTED Q) s.
Proof.
  intros Hd. unfold wp, only_if_left, scoped.
  destruct (body s) as [[[a last]|x|c|] s']; simpl; intros H; try done.
  - unfold mbind, M_bind. specialize (Hd last s'). by destruct (destroy last s') as [[]].
  - unfold mbind, M_bind. specialize (Hd owners s'). by destruct (destroy owners s') as [[]].
  - intros [= ->]. by apply H.
Qed.

(** The ends of the pipes the child keeps; it closes the others first. *)
Definition child_pipes (ps : pipes) : pipes :=
  mk_pipes (mk_pipe (-1) (pipe_write (standard_output_pipe ps)))
    (mk_pipe (-1) (pipe_write (standard_error_pipe ps)))
    (mk_pipe (-1) (pipe_write (control_pipe ps)))
    (mk_pipe (-1) (pipe_write (ready_pipe ps)))
    (mk_pipe (pipe_read (start_pipe ps)) (-1)).
Definition others_let_go (ps : pipes) (evs : list event) : Prop :=
  ∃ out err control ready start,
    let_go (pipe_read (standard_output_pipe ps)) out ∧ let_go (pipe_read (standard_error_pipe ps)) err ∧
    let_go (pipe_read (control_pipe ps)) control ∧ let_go (pipe_read (ready_pipe ps)) ready ∧
    let_go (pipe_write (start_pipe ps)) start ∧ evs = start ++ ready ++ control ++ err ++ out.

(** What the process that executes the program did, for this request, newest call first:
    its resources were admitted; the interpreter it names was opened, compared with its
    binding, and found to be the same; nobody had asked for cancellation; the pipes were
    made; then the process was born of a [fork], let go of the ends it does not use, and
    prepared itself for exactly what the request states, with the descriptor that was
    compared. *)
Definition sanctioned (interpreters : list interpreter_binding) (request : execution_request)
    (resources : execution_resources) (isolated token : bool) (evs : list event) : Prop :=
  ∃ admitted configured fd directory ps preparation left piped checked earlier,
    admitted_for isolated request resources admitted ∧
    find_interpreter interpreters (interpreter request) = Some configured ∧
    identity configured = interpreter request ∧ interpreter_compared fd configured checked ∧
    (if isolated then inr (mount_point (working request))
     else materialization resources (resource (working request))) = inr directory ∧
    pipes_opened ps piped ∧ others_let_go ps left ∧
    prepared (make_configuration request directory admitted configured fd) (child_pipes ps) preparation ∧
    evs = preparation ++ left ++ Event sys_fork (Ok 0) :: piped ++ asked token false ++ reverse checked ++
          Event (sys_open (executable configured)
                   (Z.lor O_RDONLY (Z.lor O_CLOEXEC (Z.lor O_NOFOLLOW O_NONBLOCK)))) (Ok fd) :: earlier.

Section run.
Variables (fuel scan turns : nat) (interpreters : list interpreter_binding).
Variables (request : execution_request) (resources : execution_resources) (isolated token : bool).
Variable s0 : mstate W.

(** The child closes the ends it does not use, and prepares itself. *)
Lemma wp_child_branch {A} cfg ps s :
  wp (@child_branch W K A fuel cfg ps) (only_if_left EXECUTED (made (λ evs, ∃ preparation left,
    others_let_go ps left ∧ prepared cfg (child_pipes ps) preparation ∧ evs = preparation ++ left) s)) s.
Proof.
  assert (∀ {B} Q fd (k : Z → M W B) s,
    (∀ s' evs, trace s' = evs ++ trace s → let_go fd evs → wp (k (-1)) (only_if_left EXECUTED Q) s') →
    wp (x ← fd_reset fd (-1); k x) (only_if_left EXECUTED Q) s) as Hreset.
  { intros B Q fd k s1 Hk. apply (wp_pass (λ x, x = -1)).
    - unfold fd_reset. eapply yields_bind_any; [destruct (fd_bool fd); [apply yields_ignore|by apply yields_ret]|].
      intros. by apply yields_ret.
    - intros x s' E ->. apply fd_reset_run in E as (evs & E & H). by apply (Hk s' evs). }
  unfold child_branch. apply Hreset. intros s1 e1 E1 H1. apply Hreset. intros s2 e2 E2 H2.
  apply Hreset. intros s3 e3 E3 H3. apply Hreset. intros s4 e4 E4 H4. apply Hreset. intros s5 e5 E5 H5.
  eapply wp_mono; [apply wp_child_main|]. intros o last Ho Eo. destruct (Ho Eo) as (preparation & E6 & H6).
  eexists. split; [|eexists preparation, _; split_and!; [by exists e1, e2, e3, e4, e5|exact H6|done]].
  by rewrite E6, E5, E4, E3, E2, E1, <- !app_assoc.
Qed.

Lemma wp_start admitted configured fd checked earlier s :
  admitted_for isolated request resources admitted →
  find_interpreter interpreters (interpreter request) = Some configured →
  interpreter_compared fd configured checked →
  trace s = asked token false ++ reverse checked ++ Event (sys_open (executable configured)
    (Z.lor O_RDONLY (Z.lor O_CLOEXEC (Z.lor O_NOFOLLOW O_NONBLOCK)))) (Ok fd) :: earlier ++ trace s0 →
  wp (start_execution fuel scan turns isolated request resources token admitted configured fd)
    (only_if_left EXECUTED (made (sanctioned interpreters request resources isolated token) s0)) s.
Proof.
  intros Ha Hf Hc Et. unfold start_execution.
  apply (wp_pass (λ _, True)); [apply returns_open_pipes|]. intros [[x|] ps] s4 E4 _.
  { apply wp_returns. by apply yields_ret. }
  destruct (if isolated then _ else _) as [x|directory] eqn:Ed.
  { apply wp_returns. by yields_auto. }
  apply open_pipes_run in E4 as (piped & E4 & Hp).
  apply wp_bind, wp_attempt; intros c w Ef; [|apply wp_returns; by yields_auto].
  destruct (Z.eqb_spec c 0) as [->|]; [|apply wp_returns, returns_parent].
  eapply wp_mono; [apply wp_child_branch|]. intros o s' Ho Eo'.
  destruct (Ho Eo') as (evs & E5 & preparation & left & Hl & Hprep & ->).
  eexists. split; cycle 1.
  { exists admitted, configured, fd, directory, ps, preparation, left, piped, checked, earlier.
    split_and!; try done. by eapply find_interpreter_identity. }
  rewrite E5. cbn [trace push]. rewrite E4, Et, <- !app_assoc. cbn [app]. by rewrite <- !app_assoc.
Qed.

Lemma wp_execute report :
  wp (execute_backend fuel scan turns report interpreters request resources isolated token)
    (only_if_left EXECUTED (λ s', profile_supports (profile report) request = true ∧
       made (sanctioned interpreters request resources isolated token) s0 s')) s0.
Proof.
  unfold execute_backend. destruct (profile_supports _ _) eqn:Ep; [|apply wp_returns; by apply yields_ret].
  cbn [negb]. apply (wp_pass (λ _, True)); [apply returns_cancellation_seen|]. intros [|] s1 E1 _.
  { apply wp_returns. by apply yields_ret. }
  eapply wp_pass; [apply yields_admit|]. intros [r|admitted] s2 E2 Ha.
  { apply wp_returns. by apply yields_ret. }
  apply wp_scoped; [apply returns_isolation_destroy|]. unfold execute_admitted.
  apply (wp_pass (λ _, True)); [apply returns_cancellation_seen|]. intros [|] s3 E3 _.
  { apply wp_returns. by apply yields_ret. }
  destruct (find_interpreter _ _) as [configured|] eqn:Hf; [|apply wp_returns; by apply yields_ret].
  set (flags := Z.lor O_RDONLY _).
  apply wp_bind, wp_descriptor; intros a w E4; [|apply wp_returns; cbn; by yields_auto].
  destruct (fd_bool a) eqn:Hfd; cbn [negb]; [|apply wp_returns; by yields_auto].
  apply wp_scoped; [intros; apply yields_fds_destroy|]. unfold execute_with_interpreter.
  apply (wp_pass (λ _, True)); [apply returns_check|]. intros [text|] s5 E5 _.
  { apply wp_returns. by apply yields_ret. }
  apply (wp_pass (λ _, True)); [apply returns_cancellation_seen|]. intros [|] s6 E6 _.
  { apply wp_returns. by apply yields_ret. }
  apply seen_run in E1 as [E1 _], E3 as [E3 _], E6 as [E6 _].
  apply check_run in E5 as (checked & E5 & Hcmp).
  destruct (emits_after calm _ _ _ _ (calm_admit_request fuel isolated request resources) E2) as [e2 E2'].
  eapply wp_mono; [apply (wp_start admitted configured a checked (asked token false ++ e2 ++ asked token false));
    try done|].
  - rewrite E6, E5. cbn [trace push]. by rewrite E3, E2', E1, <- !app_assoc.
  - intros o s' Ho Eo. split; [done|]. by apply Ho.
Qed.

End run.

End supervisor.

(** C3: The program runs only in a process that was prepared for exactly what was
    requested. If the code of [execute_backend] ends in the execution of an interpreter,
    then the profile of the backend supports the request, and the calls of that run are
    these. The resources of an isolated request were admitted, soundly; the interpreter
    the request names was opened without following a link, the content behind that
    descriptor was read to its end and digested, and its digest and the name of the digest
    are those of the binding; the token, asked after that, had no request for
    cancellation; the five pipes were made and the process was then born of a [fork]. It
    closed the ends it does not use, became the leader of its own session, set up its
    standard streams; for an isolated request it made exactly the calls of the mount plan
    of that admission and established the requested network policy; it took the mask and
    the working directory, emptied its capability sets if isolated, set and read back the
    requested limits, installed the containment, sent the ready byte, got the start byte,
    and closed every other descriptor, up to the bound of the fallback if the kernel
    refuses a range; it did nothing else; and what it executed is the compared descriptor,
    with the material of the request as its script and the environment of the request. *)
Theorem program_runs_prepared {W} `{Kernel W} `{Libc} `{Pkgexec} `{!Supports} fuel scan turns report
    interpreters request resources isolated token (s s' : mstate W) :
  execute_backend fuel scan turns report interpreters request resources isolated token s =
    (Exited EXECUTED, s') →
  profile_supports (profile report) request = true ∧
  ∃ evs, trace s' = evs ++ trace s ∧ sanctioned interpreters request resources isolated token evs.
Proof.
  intros E. pose proof (wp_execute fuel scan turns interpreters request resources isolated token s report) as R.
  unfold wp in R. rewrite E in R. by apply R.
Qed.

(** A kernel under which [fork] answers 0 and everything succeeds. *)
Definition born_run {R} (c : call R) (n : nat) : R * nat :=
  match c in call R return R * nat with
  | sys_open _ _ => (Ok 10, n)
  | sys_fstat _ => (Ok (mk_stat S_IFREG 1 1), n)
  | sys_pread _ _ _ => (Ok [], n)
  | ssl_digest_init | ssl_digest_update _ => (true, n)
  | ssl_digest_final => (Some (repeat 1 32), n)
  | sys_pipe2 _ => (Ok (20 + Z.of_nat n, 30 + Z.of_nat n), S n)
  | sys_fcntl_getfl _ => (Ok 0, n)
  | sys_fcntl_setfl _ _ | sys_access _ _ => (Ok tt, n)
  | sys_getgroups_count => (Ok 0, n)
  | sys_fork => (Ok 0, n)
  | c => kernel_run (Kernel := willing_kernel) c n
  end.
Definition born_kernel : Kernel nat := {| kernel_run := @born_run |}.

Lemma born_executes :
  ∃ s', @execute_backend _ born_kernel plain_libc plain_pkgexec plain_supports 20 20 20 host_report
      [shell] host_request host_resources false true (Script.start 0%nat) = (Exited EXECUTED, s').
Proof. eexists. vm_compute. reflexivity. Qed.

Lemma program_runs_prepared_witness :
  ∃ evs, @sanctioned plain_pkgexec [shell] host_request host_resources false true evs.
Proof.
  destruct born_executes as [s' E].
  destruct (@program_runs_prepared _ born_kernel plain_libc plain_pkgexec plain_supports 20 20 20 host_report
    [shell] host_request host_resources false true _ _ E) as (_ & evs & _ & H).
  exists evs. exact H.
Defined.

(** ** The control pipe between the two processes *)

Section control.
Context {W : Type} `{K : Kernel W}.
Variables (fuel : nat) (control : Z).

(** Nothing is put into the pipe. *)
Definition silent_on (ev : event) : Prop := accepted_by control ev = [].

#[local] Instance silent_control : Silent silent_on.
Proof. intros R c Hc r. by destruct c. Qed.
Lemma may_write_elsewhere fd : fd ≠ control → MayWrite silent_on fd.
Proof.
  intros Hne bytes r. unfold silent_on. simpl. destruct r; [|done].
  by rewrite (proj2 (Z.eqb_neq _ _)) by auto.
Qed.

Lemma silent_stream evs : Forall silent_on evs → stream (accepted_by control) evs = [].
Proof. induction 1 as [|ev evs E _ IH]; [done|]. by rewrite stream_cons, IH, E. Qed.

(** What the child wrote by the time it left: the beginning of one record; nothing when it
    executes the interpreter; and the record is about the execution when that failed. *)
Definition last_words {A} (s : mstate W) (o : outcome A) (s' : mstate W) : Prop :=
  ∃ evs f, trace s' = evs ++ trace s ∧
    stream (accepted_by control) evs `prefix_of` encode_child_error f ∧
    (o = Exited EXECUTED → stream (accepted_by control) evs = []) ∧
    (o = Exited 127 → error_stage f = execute_stage).

Lemma words_later {A} (s s1 s' : mstate W) evs (o : outcome A) :
  trace s1 = evs ++ trace s → Forall silent_on evs → last_words s1 o s' → last_words s o s'.
Proof.
  intros E F (evs' & f & E' & Hp & H1 & H2). exists (evs' ++ evs), f.
  rewrite stream_app, (silent_stream _ F). simpl. split; [|done]. by rewrite E', E, app_assoc.
Qed.

Definition no_failure : child_error := mk_child_error execute_stage 0 0.
Lemma words_none {A} (s s' : mstate W) evs (o : outcome A) :
  trace s' = evs ++ trace s → Forall silent_on evs → last_words s o s'.
Proof.
  intros E F. exists evs, no_failure. rewrite (silent_stream _ F). split_and!; try done. apply prefix_nil.
Qed.

Lemma wp_words_bind {A B} (m : M W A) (k : A → M W B) s :
  noexcept silent_on m → (∀ a s', wp (k a) (last_words s') s') → wp (m ≫= k) (last_words s) s.
Proof.
  intros [Em Hm] Hk. destruct (Em s) as (evs & E & F). apply wp_bind_run.
  - intros a s' R. rewrite R in E. eapply wp_mono; [apply Hk|]. intros o s''. by eapply words_later.
  - intros o s' R _. rewrite R in E. by eapply words_none.
Qed.
Lemma wp_words_exit {A} code (s : mstate W) : code ≠ 127 → wp (@exit_process W A code) (last_words s) s.
Proof.
  intros H. apply wp_exit. exists [], no_failure. split_and!; try done. apply prefix_nil.
Qed.

(** The record, and the end. *)
Lemma wp_words_report {A} f code (s : mstate W) :
  code ≠ EXECUTED → (code = 127 → error_stage f = execute_stage) →
  wp (write_record fuel control (encode_child_error f);; @exit_process W A code) (last_words s) s.
Proof.
  intros Hc Hf. apply wp_bind.
  pose proof (wp_write_record fuel control (encode_child_error f) s) as Hw.
  pose proof (noexcept_write_record anything fuel control (encode_child_error f)) as [_ Hn]. specialize (Hn s).
  unfold wp in *. destruct (write_record _ _ _ s) as [[[]|x|c|] s']; try done;
    destruct Hw as (evs & E & Hp); exists evs, f; (split; [exact E|split; [exact Hp|]]); simpl.
  - split; intros [= ->]; [done|auto].
  - done.
Qed.

Lemma wp_words_give_up {A} stage value detail (s : mstate W) :
  wp (@give_up_child W K A fuel control stage value detail) (last_words s) s.
Proof. by apply (wp_words_report (mk_child_error stage value detail)). Qed.
Lemma wp_words_give_up_errno {A} stage (s : mstate W) :
  wp (@give_up_errno W K A fuel control stage) (last_words s) s.
Proof. apply wp_words_bind; [auto with noexcept|]. intros. apply wp_words_give_up. Qed.

Lemma wp_words_execute {A} cfg (s : mstate W) :
  wp (@execute_interpreter W K A fuel cfg control) (last_words s) s.
Proof.
  apply wp_words_bind; [auto with noexcept|]. intros _ s1.
  apply wp_words_bind; [auto with noexcept|]. intros [|] s2; [by apply wp_words_exit|].
  apply wp_words_bind; [auto with noexcept|]. intros e s3. by apply wp_words_report.
Qed.

Lemma wp_words_confine {A} cfg ps (s : mstate W) :
  pipe_write (control_pipe ps) = control → pipe_write (ready_pipe ps) ≠ control →
  wp (@confine_child W K A fuel cfg ps) (last_words s) s.
Proof.
  intros Ec Hne. pose proof (may_write_elsewhere _ Hne). unfold confine_child. rewrite Ec.
  apply wp_words_bind; [auto with noexcept|]. intros _ s1.
  apply wp_words_bind; [auto with noexcept|]. intros [] s2; cbn [negb]; [|apply wp_words_give_up_errno].
  apply wp_words_bind; [destruct (isolation cfg); auto with noexcept|].
  intros [] s3; cbn [negb]; [|apply wp_words_give_up_errno].
  apply wp_words_bind; [auto with noexcept|]. intros [f|_] s4; [apply wp_words_give_up|].
  apply wp_words_bind; [auto with noexcept|]. intros [] s5; cbn [negb]; [|apply wp_words_give_up_errno].
  apply wp_words_bind; [auto with noexcept|]. intros [] s6; cbn [negb]; [|by apply wp_words_exit].
  apply wp_words_bind; [auto with noexcept|]. intros [] s7; cbn [negb]; [|by apply wp_words_exit].
  apply wp_words_execute.
Qed.

Lemma wp_words_child {A} cfg ps (s : mstate W) :
  pipe_write (control_pipe ps) = control → pipe_write (ready_pipe ps) ≠ control →
  wp (@child_branch W K A fuel cfg ps) (last_words s) s.
Proof.
  intros Ec Hne. unfold child_branch.
  do 5 (apply wp_words_bind; [auto with noexcept|]; let x := fresh in intros ? x; clear s; rename x into s).
  unfold child_main. cbn [control_pipe pipe_write]. rewrite Ec.
  apply wp_words_bind; [auto with noexcept|]. intros [session|] s1; [|apply wp_words_give_up_errno].
  apply wp_words_bind; [auto with noexcept|]. intros [saved|_] s2; [apply wp_words_give_up|].
  apply wp_words_bind; [auto with noexcept|]. intros okay s3.
  apply wp_words_bind; [destruct okay; auto with noexcept|].
  intros [] s4; cbn [negb]; [|apply wp_words_give_up_errno].
  apply wp_words_bind; [auto with noexcept|]. intros [f|_] s5; [apply wp_words_give_up|].
  by apply wp_words_confine.
Qed.

End control.

(** C9: The control pipe carries the fate of the child. A child that left (whatever it
    was asked and whatever failed) and a supervision that ended, between which the pipe
    delivered exactly what was put into it: the supervisor then holds the beginning of
    one record of the child and nothing else. If the child executes the interpreter the
    supervisor holds nothing, so the result is not one of a failed setup; a complete
    record gives the result that the program was not started, of the kind and with the
    diagnostic of the stage, error and detail the child reported; a part of a record gives
    the failure of a truncated record. A child that left with 127 reported the failure of
    the execution. *)
Theorem child_fate_reported {W W'} `{K1 : Kernel W} `{K2 : Kernel W'} `{Libc} `{Pkgexec} {A} fuel cfg ps
    (sc sc' : mstate W) code sent ctx turns out err control ready start st (sp sp' : mstate W') received
    request used cleaned :
  pipe_write (ready_pipe ps) ≠ pipe_write (control_pipe ps) →
  @child_branch W K1 A fuel cfg ps sc = (Exited code, sc') → trace sc' = sent ++ trace sc →
  0 ≤ out → 0 ≤ err → 0 ≤ control → 0 ≤ ready → NoDup [out; err; control; ready] →
  supervise ctx turns (initial_supervision out err control ready start) sp = (Done st, sp') →
  trace sp' = received ++ trace sp →
  stream (delivered_by control) received = stream (accepted_by (pipe_write (control_pipe ps))) sent →
  ∃ f, control_bytes st `prefix_of` encode_child_error f ∧
    (code = EXECUTED → control_bytes st = []) ∧ (code = 127 → error_stage f = execute_stage) ∧
    (length (control_bytes st) = sizeof_child_error → reportable_error f →
     classify request used st cleaned =
       failed_before_start (child_failure_kind f) (scratch_note cleaned (child_failure_diagnostic f))) ∧
    ((0 < length (control_bytes st) < sizeof_child_error)%nat →
     classify request used st cleaned =
       failed_before_start process_start_failed "truncated child setup failure record").
Proof.
  intros Hne Rc Ec Ho He Hctl Hr Hd Rp Ep Hpipe.
  pose proof (wp_words_child (A := A) fuel (pipe_write (control_pipe ps)) cfg ps sc eq_refl Hne) as Hw.
  unfold wp in Hw. rewrite Rc in Hw. destruct Hw as (evs & f & E & Hp & Hx & H127). simpl in E.
  rewrite Ec in E. apply app_inv_tail in E as <-.
  destruct (capturing_run _ _ _ _ _ _ _ _ _ _ Ho He Hctl Hr Hd Rp) as [_ (evs & E & _ & _ & [Hc _] & _)].
  rewrite Ep in E. apply app_inv_tail in E as <-. rewrite Hpipe in Hc.
  exists f. rewrite <- Hc in Hp, Hx. split_and!.
  - done.
  - intros ->. by apply Hx.
  - intros ->. by apply H127.
  - intros Hl Hf. unfold classify. rewrite Hl. cbn [negb Nat.eqb sizeof_child_error].
    assert (control_bytes st = encode_child_error f) as ->; [|by rewrite child_error_roundtrip].
    destruct Hp as [rest Hp]. destruct rest as [|b rest]; [by rewrite app_nil_r in Hp|].
    apply (f_equal length) in Hp. rewrite length_app, Hl in Hp. unfold encode_child_error in Hp.
    rewrite !length_app, !length_le_bytes in Hp. simpl in Hp. unfold sizeof_child_error in Hp. lia.
  - intros [Hl1 Hl2]. unfold classify.
    destruct (Nat.eqb_spec (length (control_bytes st)) 0); [lia|].
    destruct (Nat.eqb_spec (length (control_bytes st)) sizeof_child_error); [lia|done].
Qed.

(** A child whose working directory is missing, and a pipe that takes its record byte by
    byte and delivers it in three pieces. *)
Definition homeless_run {R} (c : call R) (n : nat) : R * nat :=
  match c in call R return R * nat with
  | sys_chdir _ => (Err ENOENT, n)
  | c => kernel_run (Kernel := willing_kernel) c n
  end.
Definition homeless_kernel : Kernel nat := {| kernel_run := @homeless_run |}.
Definition homeless_scene : scene :=
  mk_scene [(5, Some [4; 0; 0]); (5, Some [0; 2; 0; 0]); (5, None); (5, Some [0; 0; 0; 0; 0])]
    [false; false] [] [] false 0 1000000.

Lemma homeless_child_leaves :
  ∃ sc', @child_branch nat homeless_kernel unit 20 sample_configuration sample_pipes (Script.start 0%nat) =
      (Exited 125, sc') ∧
    stream (accepted_by 8) (trace sc') = [4; 0; 0; 0; 2; 0; 0; 0; 0; 0; 0; 0].
Proof. eexists. split; vm_compute; reflexivity. Qed.

Lemma homeless_run_ends :
  ∃ st sp', supervise (run_context false) 20 (initial_supervision 3 4 5 6 7) (Script.start homeless_scene) =
      (Done st, sp') ∧
    stream (delivered_by 5) (trace sp') = [4; 0; 0; 0; 2; 0; 0; 0; 0; 0; 0; 0] ∧
    control_bytes st = [4; 0; 0; 0; 2; 0; 0; 0; 0; 0; 0; 0].
Proof. eexists _, _. split_and!; vm_compute; reflexivity. Qed.

Lemma child_fate_reported_witness :
  ∃ st f, length (control_bytes st) = 12%nat ∧ control_bytes st `prefix_of` encode_child_error f ∧
    (reportable_error f →
     @classify plain_libc plain_pkgexec host_request shell_name st true =
       @failed_before_start plain_pkgexec (child_failure_kind f) (@child_failure_diagnostic plain_libc f)).
Proof.
  destruct homeless_child_leaves as (sc' & Rc & Ec). destruct homeless_run_ends as (st & sp' & Rp & Ep & Eb).
  destruct (@child_fate_reported nat scene homeless_kernel scene_kernel plain_libc plain_pkgexec unit 20
    sample_configuration sample_pipes (Script.start 0%nat) sc' 125 (trace sc') (run_context false) 20 3 4 5 6 7 st
    (Script.start homeless_scene) sp'
    (trace sp') host_request shell_name true) as (f & Hp & _ & _ & Hl & _);
    [discriminate|exact Rc|by rewrite app_nil_r|lia|lia|lia|lia|apply (bool_decide_unpack _); reflexivity
    |exact Rp|by rewrite app_nil_r|exact (eq_trans Ep (eq_sym Ec))|].
  exists st, f. split; [by rewrite Eb|]. split; [exact Hp|]. intros Hf. apply Hl; [by rewrite Eb|exact Hf].
Defined.
