(* ===== verification/Probes.v ===== *)
(** * What a probe is evidence of

    The probes fork a child that tries what is probed and leaves with 0 when it succeeded.
    Each of them in both of its processes: a child that leaves with 0 did everything the
    probe stands for, and the parent of the network probe reports success only for a
    child it waited for, that left with 0 and reported nothing. *)

From S2P Require Import Prelude Machine Linux Logic Posix Script Pkgexec Records Bytes.
From S2P Require Import Yields Containment ResourceLimits ProcFs ProcessControl Network.
From S2P Require Import Admission Realization RealizationFacts Capability Child ChildFacts.
From S2P Require Import SupervisorClaims BeforeFork Origins BackendFacts Composition.
Local Open Scope string_scope.
Local Open Scope list_scope.
Local Open Scope Z_scope.

Section probes.
Context {W : Type} `{K : Kernel W} `{Lc : Libc} `{P : Pkgexec}.

(** [s1] is the state of the new process right after a [fork] that followed [s]. *)
Definition born (s s1 : mstate W) : Prop :=
  ∃ before, trace s1 = Event sys_fork (Ok 0) :: before ++ trace s.

(** One byte went from a client to the listener of the loopback it connected to
    (newest first). *)
Definition round_trip (evs : list event) : Prop :=
  ∃ listener client accepted address r1 r2 r3,
    evs = [Event (sys_close listener) r1; Event (sys_close client) r2; Event (sys_close accepted) r3;
           Event (sys_recv accepted 1 MSG_WAITALL) (Ok [110]);
           Event (sys_send client [110] MSG_NOSIGNAL) (Ok 1);
           Event (sys_accept4 listener SOCK_CLOEXEC) (Ok accepted);
           Event (sys_connect client address) (Ok tt);
           Event (sys_socket AF_INET (Z.lor SOCK_STREAM SOCK_CLOEXEC) 0) (Ok client);
           Event (sys_getsockname listener) (Ok address);
           Event (sys_listen listener 1) (Ok tt);
           Event (sys_bind listener (sockaddr_in INADDR_LOOPBACK 0)) (Ok tt);
           Event (sys_socket AF_INET (Z.lor SOCK_STREAM SOCK_CLOEXEC) 0) (Ok listener)].

(** All the new process did: the policy was established and verified in the new
    namespace, and a byte went round its loopback if there is to be one. *)
Definition network_attested (policy : network_policy) (s s' : mstate W) : Prop :=
  ∃ s1 other opened setup trip done, born s s1 ∧ closing other opened ∧
    trace s' = done :: trip ++ setup ++ opened :: trace s1 ∧
    network_established (bool_decide (policy = network_loopback_only)) setup ∧
    (if bool_decide (policy = network_loopback_only) then round_trip trip else trip = []).

(** All the new process did: the private root of the admission was realized, "/dev/null"
    in it is a character device that takes a byte, and the capabilities were dropped
    after that. *)
Definition realization_attested (a : isolated_admission) (s s' : mstate W) : Prop :=
  ∃ s1 other opened filesystem info fd dropped done, born s s1 ∧ closing other opened ∧
    plan a (reverse filesystem) ∧ S_ISCHR (st_mode info) = true ∧ capabilities_dropped dropped ∧
    trace s' = done :: dropped ++
      [Event (sys_close fd) (Ok tt); Event (sys_write fd [0]) (Ok 1);
       Event (sys_open "/dev/null" (Z.lor O_WRONLY O_CLOEXEC)) (Ok fd);
       Event (sys_stat "/dev/null") (Ok info)] ++ filesystem ++ opened :: trace s1.

(** The limits were sealed, an attempt to raise the probed one failed, and both its
    values were read back unchanged: the last things the new process did. *)
Definition limit_attested (resource : Z) (s s' : mstate W) : Prop :=
  ∃ s1 v evs, born s s1 ∧ trace s' = limit_evidence resource v (evs ++ trace s1).

Definition drop_attested (s s' : mstate W) : Prop :=
  ∃ s1 dropped, born s s1 ∧ capabilities_dropped dropped ∧ trace s' = dropped ++ trace s1.

Lemma roundtrip_run (s s' : mstate W) :
  loopback_roundtrip s = (Done true, s') → ∃ evs, trace s' = evs ++ trace s ∧ round_trip evs.
Proof.
  intros E. enough (wp loopback_roundtrip (λ o s', o = Done true →
    ∃ evs, trace s' = evs ++ trace s ∧ round_trip evs) s) as H.
  { unfold wp in H. rewrite E in H. by apply H. }
  clear E s'. unfold loopback_roundtrip, with_fd, fd_destroy, fd_reset.
  wp_run; try done; try (intros [=]).
  all: destruct_units; eexists [_; _; _; _; _; _; _; _; _; _; _; _]; (split; [reflexivity|]).
  all: repeat match goal with H : bool_decide _ = true |- _ => apply bool_decide_eq_true in H; simplify_eq end.
  all: by eexists _, _, _, _, _, _, _.
Qed.

(** [fork] and what follows it in its two processes. *)
Lemma wp_forked {A} code (Q : mstate W → Prop) (k : option Z → M W A) s0 s :
  after s0 s →
  (∀ s1, born s0 s1 → wp (k (Some 0)) (only_if_left code Q) s1) →
  yields (λ _, True) (k None) → (∀ child, child ≠ 0 → yields (λ _, True) (k (Some child))) →
  wp (attempt sys_fork ≫= k) (only_if_left code Q) s.
Proof.
  intros [evs E] Hb Hn Hp. apply wp_bind, wp_attempt; intros c w Ef; [|by apply wp_returns].
  destruct (Z.eq_dec c 0) as [->|]; [|by apply wp_returns, Hp].
  apply Hb. exists evs. simpl. by rewrite E.
Qed.

Lemma yields_wait fuel child : yields (λ _, True) (wait_child (W := W) fuel child).
Proof. unfold wait_child. by yields_auto. Qed.
#[local] Hint Resolve yields_wait : yields.

Lemma noexcept_loopback : noexcept anything (loopback_roundtrip (W := W)).
Proof. unfold loopback_roundtrip. by noexcept_auto. Qed.
#[local] Hint Resolve noexcept_loopback : noexcept.

Lemma noexcept_after {A} (m : M W A) s o s' : noexcept anything m → m s = (o, s') → after s s'.
Proof. intros [He _] E. by eapply emits_after. Qed.

Lemma yields_read_record fuel fd missing bytes :
  yields (λ _, True) (read_record (W := W) fuel fd missing bytes).
Proof.
  revert missing bytes. induction fuel as [|n IH]; intros [|missing] bytes; cbn [read_record];
    yields_auto; done || apply IH.
Qed.
#[local] Hint Resolve yields_read_record : yields.

Lemma wp_network_probe fuel policy s :
  wp (probe_network_policy fuel policy) (only_if_left 0 (network_attested policy s)) s.
Proof.
  unfold probe_network_policy. destruct (bool_decide_reflect (policy = network_allowed)) as [|Hne].
  { apply wp_returns. by apply yields_ret. }
  eapply wp_stay; [auto with noexcept|]. intros [[report_read report_write]|] s1 E1;
    [|apply wp_returns; unfold network_fail; by yields_auto].
  assert (after s s1) as A1 by (eapply noexcept_after; [|exact E1]; auto with noexcept).
  apply wp_forked with s; [done|intros s2 Hb|..]; cbn [Z.eqb].
  - unfold probe_network_child. eapply wp_stay; [auto with noexcept|]. intros [] s3 E3.
    assert (after s2 s3) as A3 by (eapply noexcept_after; [|exact E3]; auto with noexcept).
    eapply wp_stay; [apply noexcept_network, _|]. intros [f|[]] s4 E4.
    { eapply wp_stay; [unfold write_failure; auto with noexcept|]. intros. by apply wp_leave. }
    eapply wp_stay; [destruct (bool_decide _); auto with noexcept|]. intros [] s5 E5; cbn [negb].
    + eapply wp_stay; [auto with noexcept|]. intros [] s6 E6. apply wp_exit. intros _.
      apply closing_run in E3 as (opened & Ho & E3). apply ignore_run in E6 as [r E6].
      pose proof (wp_setup_network_policy fuel policy s3 Hne) as H4. unfold wp in H4. rewrite E4 in H4.
      destruct (H4 eq_refl) as (setup & Et4 & Hsetup). simpl in Et4.
      assert (∃ trip, trace s5 = trip ++ trace s4 ∧
        if bool_decide (policy = network_loopback_only) then round_trip trip else trip = [])
        as (trip & Et5 & Htrip).
      { destruct (bool_decide _); [by apply roundtrip_run|]. injection E5 as <-. by exists []. }
      eexists s2, report_read, opened, setup, trip, _. split_and!; try done.
      rewrite E6, Et5, Et4, E3. reflexivity.
    + eapply wp_stay; [auto with noexcept|]. intros e s6 _.
      eapply wp_stay; [unfold write_failure; auto with noexcept|]. intros. by apply wp_leave.
  - unfold network_fail. by yields_auto.
  - intros child Hc. rewrite (proj2 (Z.eqb_neq _ _) Hc). unfold probe_network_parent. by yields_auto.
Qed.

Lemma wp_send_failure {A} (Q : mstate W → Prop) fd f (s : mstate W) :
  wp (@send_failure W K A fd f) (only_if_left 0 Q) s.
Proof.
  unfold send_failure. eapply wp_stay; [apply noexcept_ignore; intros ?; exact I|].
  intros. apply wp_leave. unfold probe_exit_code. by destruct (_ || _).
Qed.

Lemma wp_realization_probe fuel a s :
  wp (probe_isolated_realization fuel a) (only_if_left 0 (realization_attested a s)) s.
Proof.
  unfold probe_isolated_realization.
  eapply wp_stay; [auto with noexcept|]. intros [[report_read report_write]|] s1 E1;
    [|apply wp_returns; unfold mount_fail; by yields_auto].
  assert (after s s1) as A1 by (eapply noexcept_after; [|exact E1]; auto with noexcept).
  apply wp_forked with s; [done|intros s2 Hb|..]; cbn [Z.eqb].
  - unfold realization_child. eapply wp_stay; [auto with noexcept|]. intros [] s3 E3.
    apply closing_run in E3 as (opened & Ho & E3).
    eapply wp_stay; [apply noexcept_create_private_root, _|]. intros [f|[]] s4 E4; [apply wp_send_failure|].
    pose proof (does_create_private_root a s3) as (filesystem & Et4 & Hplan).
    change (create_private_root a) with (setup_isolated_filesystem a) in E4.
    rewrite E4 in Et4, Hplan. simpl in Et4, Hplan.
    apply wp_bind, wp_attempt; intros info w5 _; [cbn beta iota|].
    2: { cbn [negb]. eapply wp_stay; [auto with noexcept|]; intros; apply wp_send_failure. }
    destruct (S_ISCHR (st_mode info)) eqn:Echr; cbn [negb];
      [|eapply wp_stay; [auto with noexcept|]; intros; apply wp_send_failure].
    apply wp_bind, wp_descriptor; intros fd w6 _;
      [|eapply wp_stay; [auto with noexcept|]; intros; apply wp_send_failure].
    destruct (fd <? 0); [eapply wp_stay; [auto with noexcept|]; intros; apply wp_send_failure|].
    apply wp_bind, wp_attempt; intros count w7 _.
    2: { rewrite bool_decide_false by done. eapply wp_stay; [auto with noexcept|]. intros okay s8 E8.
         injection E8 as <- <-. cbn [negb]. eapply wp_stay; [auto with noexcept|]. intros; apply wp_send_failure. }
    destruct (bool_decide_reflect (Some count = Some 1)) as [[= ->]|].
    2: { eapply wp_stay; [auto with noexcept|]. intros okay s8 E8. injection E8 as <- <-. cbn [negb].
         eapply wp_stay; [auto with noexcept|]. intros; apply wp_send_failure. }
    apply wp_bind, wp_succeeds; intros x w8 _; cbn [negb];
      [|eapply wp_stay; [auto with noexcept|]; intros; apply wp_send_failure].
    eapply wp_stay; [auto with noexcept|]. intros [] s9 E9; cbn [negb];
      [|eapply wp_stay; [auto with noexcept|]; intros; apply wp_send_failure].
    eapply wp_stay; [auto with noexcept|]. intros [] s10 E10. apply wp_exit. intros _.
    apply dropped_run in E9 as (dropped & E9 & Hd). apply ignore_run in E10 as [r E10].
    destruct x. eexists s2, report_read, opened, filesystem, info, fd, dropped, _. split_and!; try done.
    rewrite E10, E9. cbn [trace push]. rewrite Et4, E3. reflexivity.
  - unfold mount_fail. by yields_auto.
  - intros child Hc. rewrite (proj2 (Z.eqb_neq _ _) Hc). by yields_auto.
Qed.

Lemma wp_limit_probe fuel kind resource preferred s :
  wp (probe_one fuel kind resource preferred) (only_if_left 0 (limit_attested resource s)) s.
Proof.
  unfold probe_one. apply wp_forked with s; [apply after_refl|intros s1 Hb|..]; cbn [Z.eqb].
  - eapply wp_mono; [apply wp_probe_one_child|]. intros o s' Ho ->.
    destruct Ho as [|[_ (v & older & E & evs & ->)]]; [done|]. by exists s1, v, evs.
  - by yields_auto.
  - intros child Hc. rewrite (proj2 (Z.eqb_neq _ _) Hc). by yields_auto.
Qed.

Lemma wp_drop_probe fuel s :
  wp (probe_capability_drop fuel)
    (only_if_left 0 (drop_attested s)) s.
Proof.
  unfold probe_capability_drop. apply wp_forked with s; [apply after_refl|intros s1 Hb|..]; cbn [Z.eqb].
  - eapply wp_stay; [auto with noexcept|]. intros [] s2 E2; [|by apply wp_leave].
    apply wp_exit. intros _. apply dropped_run in E2 as (dropped & E2 & Hd). by exists s1, dropped.
  - by yields_auto.
  - intros child Hc. rewrite (proj2 (Z.eqb_neq _ _) Hc). by yields_auto.
Qed.

(** The parent of the network probe. *)
Lemma wp_retry_answered {A} (c : call (res A)) fuel s :
  wp (retry_eintr fuel c) (λ o s', ∀ a, o = Done (Some a) →
    ∃ evs, trace s' = evs ++ trace s ∧ Event c (Ok a) ∈ evs) s.
Proof.
  revert s. induction fuel as [|n IH]; intros s; cbn [retry_eintr]; [done|].
  apply wp_bind, wp_attempt; intros r w E.
  - apply wp_ret. intros a [= ->]. eexists [_]. split; [done|]. by left.
  - apply wp_bind, wp_get_errno. destruct (_ =? EINTR); [|by apply wp_ret].
    eapply wp_mono; [apply IH|]. intros o s' H a Ho. destruct (H a Ho) as (evs & Et & Hin).
    eexists (evs ++ [_]). split; [rewrite Et, <- app_assoc; reflexivity|]. apply elem_of_app. auto.
Qed.

(** A child was created and waited for, and it left with 0. *)
Definition waited_for (s s' : mstate W) : Prop :=
  ∃ child status waiting before, child ≠ 0 ∧
    trace s' = waiting ++ Event sys_fork (Ok child) :: before ++ trace s ∧
    Event (sys_waitpid child) (Ok (child, status)) ∈ waiting ∧ exited_zero status = true.

Lemma noexcept_read_record fuel fd missing bytes :
  noexcept anything (read_record (W := W) fuel fd missing bytes).
Proof.
  revert missing bytes. induction fuel as [|n IH]; intros [|missing] bytes; cbn [read_record];
    noexcept_auto; done || apply IH.
Qed.

Lemma network_parent_success fuel child report_read report_write s :
  pc (probe_network_parent fuel child report_read report_write)
    (λ r s', r = inr tt → ∃ status evs, trace s' = evs ++ trace s ∧
       Event (sys_waitpid child) (Ok (child, status)) ∈ evs ∧ exited_zero status = true) s.
Proof.
  unfold probe_network_parent. apply pc_run. intros [] s1 E1. apply pc_run. intros bytes s2 E2.
  apply pc_run. intros [] s3 E3. apply pc_run. intros waited s4 E4.
  pose proof (wp_retry_answered (sys_waitpid child) fuel s3) as Hw. unfold wp in Hw. rewrite E4 in Hw.
  destruct waited as [[pid status]|]; [|apply pc_run; intros; by apply pc_ret].
  destruct (Z.eqb_spec pid child) as [->|]; [|apply pc_run; intros; by apply pc_ret].
  apply pc_ret. unfold network_probe_verdict. intros Hv.
  destruct (Hw _ eq_refl) as (evs & Et & Hin). simpl in Et.
  apply ignore_run in E1 as [r1 E1]. apply ignore_run in E3 as [r3 E3].
  apply (noexcept_after _ _ _ _ (noexcept_read_record _ _ _ _)) in E2 as [e2 E2].
  eexists status, (evs ++ _ :: e2 ++ [_]). split_and!.
  - rewrite Et, E3, E2, E1, <- app_assoc. cbn [app]. rewrite <- app_assoc. reflexivity.
  - apply elem_of_app. auto.
  - destruct (exited_zero status); [done|]. simpl in Hv. by case_match.
Qed.

Lemma leaves_network_child fuel policy report_read report_write :
  leaves (probe_network_child (W := W) fuel policy report_read report_write).
Proof.
  unfold probe_network_child. repeat first [apply leaves_exit | apply leaves_bind; intros | case_match].
Qed.

Lemma network_probe_success fuel policy s :
  pc (probe_network_policy fuel policy)
    (λ r s', r = inr tt → policy = network_allowed ∨ waited_for s s') s.
Proof.
  unfold probe_network_policy. destruct (bool_decide_reflect (policy = network_allowed)) as [->|Hne].
  { apply pc_ret. by left. }
  apply pc_run. intros [[report_read report_write]|] s1 E1; [|apply pc_run; intros; by apply pc_ret].
  assert (after s s1) as [before A1] by (eapply noexcept_after; [|exact E1]; auto with noexcept).
  apply pc_run. intros [child|] s2 E2.
  - destruct (Z.eqb_spec child 0).
    { apply pc_never. intros a s'. apply leaves_network_child. }
    intros r s' R ->. right.
    destruct (network_parent_success _ _ _ _ _ _ _ R eq_refl) as (status & evs & Et & Hw & Hz).
    exists child, status, evs, before. split_and!; try done. rewrite Et, <- A1. f_equal.
    unfold attempt, mbind, M_bind, issue in E2. destruct (kernel_run sys_fork (world s1)) as [[c|e] w];
      [|discriminate]. by injection E2 as <- <-.
  - apply pc_run. intros [f|[]] s3 E3; apply pc_run; intros; apply pc_run; intros; apply pc_ret; [done|].
    unfold network_fail, get_errno, mbind, M_bind in E3. discriminate.
Qed.

End probes.

(** C17: A probe that succeeds is evidence. In the process that [fork] created, a probe
    leaves with 0 only after it did what the probe stands for. The network probe did
    exactly this: it established and verified the policy in a new namespace and, for a
    loopback-only one, sent a byte round a connection of the loopback. The filesystem
    probe realized the private root of its admission by the calls of the plan, found
    "/dev/null" in it to be a character device, opened it, wrote a byte to it and
    dropped the capabilities after that. The limit probes sealed the limits, had an
    attempt to raise the probed one refused, and then read both its values back
    unchanged. The capability probe emptied the sets. In the calling process the network
    probe succeeds only if it waited for a child it created and that child left with 0. *)
Theorem probes_attest {W} `{Kernel W} `{Pkgexec} fuel (s s' : mstate W) :
  (∀ policy, probe_network_policy fuel policy s = (Exited 0, s') → network_attested policy s s') ∧
  (∀ policy, probe_network_policy fuel policy s = (Done (inr tt), s') →
     policy = network_allowed ∨ waited_for s s') ∧
  (∀ a, probe_isolated_realization fuel a s = (Exited 0, s') → realization_attested a s s') ∧
  (∀ kind resource preferred, probe_one fuel kind resource preferred s = (Exited 0, s') →
     limit_attested resource s s') ∧
  (probe_capability_drop fuel s = (Exited 0, s') → drop_attested s s').
Proof.
  split_and!.
  - intros policy E. pose proof (wp_network_probe fuel policy s) as Hw. unfold wp in Hw.
    rewrite E in Hw. by apply Hw.
  - intros policy E. by apply (network_probe_success fuel policy s _ _ E).
  - intros a E. pose proof (wp_realization_probe fuel a s) as Hw. unfold wp in Hw. rewrite E in Hw. by apply Hw.
  - intros kind resource preferred E. pose proof (wp_limit_probe fuel kind resource preferred s) as Hw.
    unfold wp in Hw. rewrite E in Hw. by apply Hw.
  - intros E. pose proof (wp_drop_probe fuel s) as Hw. unfold wp in Hw. rewrite E in Hw. by apply Hw.
Qed.

(** The child of a probe of the loopback-only policy, in a namespace whose one link is up
    after the request that sets it up. *)
Definition loopback_kernel : Kernel nat := scripted (λ n R c,
  match c in call R return R with
  | sys_pipe2 _ => Ok (3, 4)
  | sys_fork => Ok 0
  | sys_close _ => Ok tt
  | sys_unshare _ => Ok tt
  | sys_socket _ _ _ => Ok 5
  | sys_bind _ _ => Ok tt
  | sys_listen _ _ => Ok tt
  | sys_getsockname _ => Ok (sockaddr_in INADDR_LOOPBACK 40000)
  | sys_connect _ _ => Ok tt
  | sys_accept4 _ _ => Ok 6
  | sys_send _ _ _ => Ok 1
  | sys_sendto _ bytes _ _ => Ok (Z.of_nat (length bytes))
  | sys_recv _ size _ =>
      if size =? 1 then Ok [110]
      else if size =? 8192
      then Ok (encode_header 36 NLMSG_ERROR 0 2 ++ le_bytes 4 0 ++ encode_header 32 0 0 0)
      else Ok (dump_message (1, mk_link 1 (if (n <? 9)%nat then 8 else 9) []) ++ dump_end 1)
  | c => default_answer c
  end).

Lemma loopback_probe_succeeds :
  ∃ s', @probe_network_policy nat loopback_kernel 4 network_loopback_only (start 0%nat) = (Exited 0, s').
Proof. eexists. vm_compute. reflexivity. Qed.

Lemma probes_attest_witness :
  ∃ s', @network_attested nat network_loopback_only (start 0%nat) s'.
Proof.
  destruct loopback_probe_succeeds as [s' E]. exists s'.
  destruct (@probes_attest nat loopback_kernel plain_pkgexec 4 (start 0%nat) s') as [H _].
  exact (H network_loopback_only E).
Defined.
